(* ===== verification/_CoqProject ===== *)
-Q . S2P
Prelude.v
Queue.v
RingBuffer.v
GoStrings.v
SafeMap.v
ActorId.v
Uuid.v
ErrCode.v
Config.v
AddrHash.v
Messages.v
Registry.v
Scheduler.v
SchedulerInv.v
SchedulerCount.v
SchedulerGate.v
SchedulerSafety.v
SchedulerFifo.v
SchedulerOrder.v
SchedulerLife.v
SchedulerProto.v
SchedulerReach.v
SchedulerEnd.v
SchedulerWake.v
SchedulerLetters.v
SchedulerThms.v
SchedulerSettle.v
SchedulerMoves.v
Spawn.v
Etcd.v
Provider.v
ProviderView.v
ProviderThms.v
GrainLock.v
Membership.v
Routing.v
RoutingThms.v
RoutingDemo.v
RoutingSettle.v
Owners.v
Ask.v
AskThms.v
System.v
SystemThms.v
SystemDemo.v
EventStream.v
EventStreamThms.v
Life.v
LifeThms.v
Schedule.v
Stream.v
RpcService.v
Gonet.v
StreamThms.v
AskFlow.v
Reentry.v
ReentryInv.v
ReentrySteps.v
ReentryReach.v
ReentryProgress.v
ReentryBudget.v
ReentrySettle.v
ReentryTable.v
ReentryThms.v
ReentryDemo.v
AskFlowThms.v
BaseActor.v
Boot.v
Stack.v
