(* ===== verification/Prelude.v ===== *)
(** * grain: a verified model of the actor framework

    grain runs actors on a cluster of nodes.  An actor has a mailbox and a
    scheduler that runs its handlers one at a time; it may wait for a reply
    (Ask) and let other messages in meanwhile.  A "grain" is an actor named by
    (kind, name) that the cluster activates on demand, on the node a hash of
    the member list elects; a key in etcd bound to the node's lease keeps it
    active on one node at a time.  Nodes exchange envelopes over grpc streams.

    ** Parts, and how they meet

    - Values: GoStrings.v (the parts of strings and strconv the code uses),
      ActorId.v (actor_name.go, actor_parse.go, actor_wrapper.go, reply_ref.go),
      ErrCode.v (message/msg.code.go), Messages.v (message.go, dead_letter.go,
      context_impl.go), Uuid.v (uuid/), Config.v (config*.go, kind_opts*.go),
      AddrHash.v (addr_hash.go), Stack.v (ghelper/stack.go), Gonet.v
      (al/gonet/gonet.go).
    - Containers: RingBuffer.v (al/ringbuffer) implements the interface of
      Queue.v, against which the scheduler is proved; SafeMap.v (al/safemap)
      implements the class [MapImpl], against which Registry.v (registry.go),
      Ask.v, Spawn.v, System.v, Life.v and Boot.v are.
    - One actor: Scheduler.v is the whole of execution.go, execution_gate.go,
      processor_mailbox.go, processor_lifecycle.go and processor_scheduler.go as
      one small-step machine, over any number of drainers, senders, poisoners
      and suspended handlers; the Scheduler*.v files hold its invariants,
      SchedulerThms.v its theorems and SchedulerSettle.v its termination.
      SchedulerMoves.v is what one step shows the actors around it.
      BaseActor.v (baseactor.go) is what a user's actor embeds.
    - One node: Spawn.v (processor_spawn.go), Ask.v (request_helper.go and the
      pending table of system.go), Routing.v (routing_resolver.go) are small-step
      machines of concurrent callers.  System.v (system.go, system_envelope.go,
      system_cluster.go, actor_ext.go) is what one send does, as a function on
      the node's state that uses [resolve] as Routing.v proves it.  Life.v
      (system_life.go) is the shutdown, Boot.v (system.go, system_life.go) the
      start, Schedule.v (schedule.go) a timer, EventStream.v (event_stream.go)
      the publish/subscribe actor, Stream.v (stream_write.go,
      remote/stream_server.go) the two ends of a connection, RpcService.v
      (remote/stream_server.go) the server's life together with Life.v.
    - Actors that ask each other: Reentry.v runs many actors of one node, each a
      machine of Scheduler.v, beside one pending table; their handlers are
      programs (finite trees of Reply, Tell, Ask, panic), so that an Ask waits
      for what another handler does.  ReentryInv.v states who waits for whom,
      ReentrySteps.v and ReentryReach.v that every step keeps it,
      ReentryProgress.v that nothing is stuck, ReentryBudget.v what a handler may
      still send, ReentrySettle.v what each step spends, ReentryTable.v that no pending entry is left; ReentryThms.v has
      the theorems and ReentryDemo.v the handlers of examples/hello_reentry.
    - The cluster: Etcd.v states the etcd operations the program calls, with
      their documented behaviour as the laws of a class and an executable
      instance; Provider.v (provider_etcd.go) is proved against it, and gives
      the membership interface of Membership.v that Routing.v consumes.
      GrainLock.v has the register functions of kind_opts.go as programs of
      provider calls and runs them call by call, on many nodes, where
      processor_lifecycle.go does; Owners.v composes the provider views of many nodes with
      Routing.v; EventStreamThms.v composes event streams over many nodes, whose
      writes to etcd are accepted, refused or accepted with the answer lost;
      StreamThms.v composes a stream with the receiving node of System.v;
      AskFlow.v composes System.v, Ask.v and Stream.v into an Ask from the call
      to the reply on another node.

    A handler or method is one Definition with the code's name; an access to
    shared memory, a lock section or a blocking operation is one step where
    goroutines can interleave there.  Each definition says what it abstracts.

    ** What the theorems show

    - An actor (SchedulerThms.v, SchedulerSettle.v): left alone, the goroutines
      of a processor all return within an explicit number of steps, under every
      interleaving, if the work at hand fits the counter of unfinished calls; by then every message sent is handled or dead-lettered, once
      and in order, and a requested stop has stopped the actor; handlers never
      overlap; Started, Receive and PreStop follow the lifecycle; Ask is admitted
      from the owning handler only; drainers are counted right.
    - A grain (GrainLock.v, ProviderThms.v, ProviderView.v, Owners.v): at most one
      live node runs a grain, also under races and failed calls; a node claims a
      free id in 1..1023 or fails cleanly, within 32 calls of etcd; the member
      table converges to etcd's, and nodes that have caught up elect the same owner.
    - A send (RoutingThms.v, RoutingSettle.v, SystemThms.v, StreamThms.v): every
      resolve returns, with a route that was right during the call, and caches
      never roll back; each message ends in one mailbox, one reply channel or
      one dead letter with the asker told; nothing is activated by a poison or
      while draining; sending to another node is sending there.
    - An Ask (AskThms.v, AskFlowThms.v): it ends once, with a reply meant for it,
      and shutdown wakes all; a failure on either node reaches the asker as its
      error code, and an answer from another node arrives as the reply.
    - Reentrant Asks (ReentryThms.v): actors that ask each other in any pattern
      never deadlock, without any timeout, provided every request is answered on
      every path of its handler and requests get lighter down a chain of Asks;
      handlers that also keep within a budget of sends bring the node to rest
      within an explicit number of steps.
    - A node (Spawn.v, LifeThms.v, RpcService.v, Boot.v, Schedule.v): one
      construction per id at a time, and every spawn returns unless a producer
      under the same id does not end; the lease is revoked only after an empty
      registry, which only a late activation or spawn or an outbound stream
      writer can fill again, shutdown is bounded, and a server
      that fails brings it about; message ids of nodes are disjoint; timers are
      serial.
    - Publish/subscribe (EventStreamThms.v): a publish reaches exactly the
      subscribers, and a broadcast exactly the nodes that etcd has registered,
      which are those with subscribers unless etcd refused or lost a call.
    - Data (RingBuffer.v, SafeMap.v, Registry.v, AddrHash.v, Uuid.v, ActorId.v,
      Config.v, Gonet.v): refinement of a bounded queue and of a finite map, one
      winner per id, minimal disruption of the hash, unique increasing ids,
      round trips of ids, well-formed options, a deterministic inner address.

    ** Bounds and fuel

    The int32 counter of unfinished calls and the uint64 message ids must not
    wrap: safety theorems are about moments at which fewer than 2^31 goroutines
    have touched an actor; the theorems of rest start at such a moment, with less
    than 2^31 of work at hand (8 for a queued message, at most 10 for a live
    goroutine, and in Reentry.v 12 for a unit of weight) and that many ids left;
    membership versions stay below 2^63; the id generator's clock stays within 42 bits of
    milliseconds.  [FormatUint] has fuel 20, the digits of a uint64; node ids
    are drawn for 16 rounds, the code's own constant.  No other recursion of
    the model has fuel: it follows the code's data or is a step relation.  (The
    sample run of ReentryDemo.v has 400, and takes 124 steps.)  In Reentry.v a
    message has a weight, which ranks the requests; for the theorem of rest it
    also bounds what its handler may send.

    ** Parameters

    User code (producers, handlers, their panics) and goroutine interleavings
    are choices of the environment; a producer may also never end.  The goroutine
    id is a function whose values are nonzero and distinct for live goroutines; etcd is the class of Etcd.v;
    the protobuf codec is a class in System.v; the JSON form of a member is
    specified by its round trip; Go's map iteration order is any permutation,
    [math/rand] any choice from the candidates; what grpc's Serve may return is
    a predicate of RpcService.v; a logger is a value nothing reads.

    ** Not modelled

    Logging (log.go and the Logger methods); the generated protobuf and grpc
    code; interfaces (iface.go, actor_ref.go, context.go), which have no
    behaviour of their own; the getters of system.go that return a field or
    forward to the provider; the sync.Pool of Ask timers; grpc's and etcd's
    internals; the examples, the handlers of hello_reentry apart.  The
    publish/subscribe theorem has no node failures: expiry of a crashed node's registrations is etcd's doing, not the
    program's. *)

From Stdlib Require Export ZArith Lia Sorting.Sorted.
From stdpp Require Export base numbers option gmap strings tactics.
From stdpp Require Export list.
From Stdlib Require Ascii.
Export Stdlib.Strings.Ascii (ascii(..)).
Export (notations) Stdlib.Strings.Ascii.

Declare Scope go_scope.
Delimit Scope go_scope with go.

(** ** Machine integers

    Go integers are [Z]s kept in their range by an explicit wrap-around. *)

Definition u32 (x : Z) : Z := (x `mod` 2 ^ 32)%Z.
Definition u64 (x : Z) : Z := (x `mod` 2 ^ 64)%Z.
Definition i32 (x : Z) : Z := ((x + 2 ^ 31) `mod` 2 ^ 32 - 2 ^ 31)%Z.
Definition i64 (x : Z) : Z := ((x + 2 ^ 63) `mod` 2 ^ 64 - 2 ^ 63)%Z.

Notation "x +u32 y" := (u32 (x + y)%Z) (at level 50, left associativity) : go_scope.
Notation "x *u32 y" := (u32 (x * y)%Z) (at level 40, left associativity) : go_scope.
Notation "x +u64 y" := (u64 (x + y)%Z) (at level 50, left associativity) : go_scope.
Notation "x -u64 y" := (u64 (x - y)%Z) (at level 50, left associativity) : go_scope.
Notation "x <<u64 y" := (u64 (Z.shiftl x y)) (at level 45, left associativity) : go_scope.
Notation "x *i64 y" := (i64 (x * y)%Z) (at level 40, left associativity) : go_scope.
Notation "x +i64 y" := (i64 (x + y)%Z) (at level 50, left associativity) : go_scope.
Notation "x -i64 y" := (i64 (x - y)%Z) (at level 50, left associativity) : go_scope.
Notation "x +i32 y" := (i32 (x + y)%Z) (at level 50, left associativity) : go_scope.

Definition in_u32 (x : Z) : Prop := (0 ≤ x < 2 ^ 32)%Z.
Definition in_u64 (x : Z) : Prop := (0 ≤ x < 2 ^ 64)%Z.
Definition in_i64 (x : Z) : Prop := (- 2 ^ 63 ≤ x < 2 ^ 63)%Z.
Definition in_i32 (x : Z) : Prop := (- 2 ^ 31 ≤ x < 2 ^ 31)%Z.

(** [pow_simpl] evaluates the powers of two the ranges are written with, so
    that [lia] sees numerals. *)
Ltac pow_simpl :=
  repeat match goal with
  | |- context [(2 ^ 10)%Z] => change (2 ^ 10)%Z with 1024%Z
  | |- context [(2 ^ 12)%Z] => change (2 ^ 12)%Z with 4096%Z
  | |- context [(2 ^ 22)%Z] => change (2 ^ 22)%Z with 4194304%Z
  | |- context [(2 ^ 31)%Z] => change (2 ^ 31)%Z with 2147483648%Z
  | |- context [(2 ^ 32)%Z] => change (2 ^ 32)%Z with 4294967296%Z
  | |- context [(2 ^ 42)%Z] => change (2 ^ 42)%Z with 4398046511104%Z
  | |- context [(2 ^ 54)%Z] => change (2 ^ 54)%Z with 18014398509481984%Z
  | |- context [(2 ^ 62)%Z] => change (2 ^ 62)%Z with 4611686018427387904%Z
  | |- context [(2 ^ 63)%Z] => change (2 ^ 63)%Z with 9223372036854775808%Z
  | |- context [(2 ^ 64)%Z] => change (2 ^ 64)%Z with 18446744073709551616%Z
  | H : context [(2 ^ 10)%Z] |- _ => change (2 ^ 10)%Z with 1024%Z in H
  | H : context [(2 ^ 12)%Z] |- _ => change (2 ^ 12)%Z with 4096%Z in H
  | H : context [(2 ^ 22)%Z] |- _ => change (2 ^ 22)%Z with 4194304%Z in H
  | H : context [(2 ^ 31)%Z] |- _ => change (2 ^ 31)%Z with 2147483648%Z in H
  | H : context [(2 ^ 32)%Z] |- _ => change (2 ^ 32)%Z with 4294967296%Z in H
  | H : context [(2 ^ 42)%Z] |- _ => change (2 ^ 42)%Z with 4398046511104%Z in H
  | H : context [(2 ^ 54)%Z] |- _ => change (2 ^ 54)%Z with 18014398509481984%Z in H
  | H : context [(2 ^ 62)%Z] |- _ => change (2 ^ 62)%Z with 4611686018427387904%Z in H
  | H : context [(2 ^ 63)%Z] |- _ => change (2 ^ 63)%Z with 9223372036854775808%Z in H
  | H : context [(2 ^ 64)%Z] |- _ => change (2 ^ 64)%Z with 18446744073709551616%Z in H
  end.

(** [word_lia] is [lia] after unfolding the widths above. *)
Ltac word_lia :=
  unfold u32, u64, i32, i64, in_u32, in_u64, in_i32, in_i64 in *; pow_simpl;
  Z.div_mod_to_equations; lia.

Lemma u32_range x : in_u32 (u32 x).
Proof. word_lia. Qed.
Lemma u64_range x : in_u64 (u64 x).
Proof. word_lia. Qed.
Lemma i64_range x : in_i64 (i64 x).
Proof. word_lia. Qed.
Lemma i32_range x : in_i32 (i32 x).
Proof. word_lia. Qed.
Lemma u32_id x : in_u32 x → u32 x = x.
Proof. intros. apply Z.mod_small. done. Qed.
Lemma u64_id x : in_u64 x → u64 x = x.
Proof. intros. apply Z.mod_small. done. Qed.
Lemma i64_id x : in_i64 x → i64 x = x.
Proof. intros. word_lia. Qed.
Lemma i32_id x : in_i32 x → i32 x = x.
Proof. intros. word_lia. Qed.
Lemma i32_i32_add x y : i32 (i32 x + y) = i32 (x + y).
Proof. word_lia. Qed.

Create HintDb word.
#[export] Hint Resolve u32_range u64_range i64_range i32_range : word.
#[export] Hint Rewrite i32_i32_add : word.

(** ** Outcomes of code that may panic *)

Inductive outcome (A : Type) : Type :=
| Ok (a : A)
| Panic.
Arguments Ok {A} a.
Arguments Panic {A}.

#[export] Instance outcome_ret : MRet outcome := λ A a, Ok a.
#[export] Instance outcome_bind : MBind outcome := λ A B f m,
  match m with Ok a => f a | Panic => Panic end.

(** A run that a computation says succeeds, without writing its result out. *)
Lemma some_default {A} (o : option A) (d : A) :
  match o with Some _ => true | None => false end = true → o = Some (default d o).
Proof. by destruct o. Qed.

(** Reading an element of a slice: an index out of range panics. *)
Definition slice_get {A} (l : list A) (i : Z) : outcome A :=
  if decide (0 ≤ i)%Z then
    match l !! Z.to_nat i with Some a => Ok a | None => Panic end
  else Panic.

(** Writing an element of a slice in place. *)
Definition slice_set {A} (l : list A) (i : Z) (a : A) : outcome (list A) :=
  if decide (0 ≤ i < Z.of_nat (length l))%Z then Ok (<[Z.to_nat i := a]> l) else Panic.

Lemma slice_get_ok {A} (l : list A) i a :
  (0 ≤ i)%Z → l !! Z.to_nat i = Some a → slice_get l i = Ok a.
Proof. intros Hi Hl. unfold slice_get. rewrite decide_True by done. by rewrite Hl. Qed.

Lemma slice_set_ok {A} (l : list A) i a :
  (0 ≤ i < Z.of_nat (length l))%Z → slice_set l i a = Ok (<[Z.to_nat i := a]> l).
Proof. intros. unfold slice_set. by rewrite decide_True. Qed.

(** ** Sums over lists, the counting arguments of the concurrent model *)

Definition sum_of {A} (f : A → Z) (l : list A) : Z := foldr (λ a n, (f a + n)%Z) 0%Z l.

Lemma sum_of_app {A} (f : A → Z) l1 l2 :
  sum_of f (l1 ++ l2) = (sum_of f l1 + sum_of f l2)%Z.
Proof. induction l1 as [|a l1 IH]; simpl; [done|]. unfold sum_of in *. simpl. lia. Qed.

Lemma sum_of_insert {A} (f : A → Z) l i a b :
  l !! i = Some a → sum_of f (<[i := b]> l) = (sum_of f l - f a + f b)%Z.
Proof.
  revert i; induction l as [|c l IH]; intros i Hi; [done|].
  destruct i as [|i]; simpl in *; unfold sum_of in *; simpl.
  - simplify_eq. lia.
  - rewrite (IH i Hi). lia.
Qed.

Lemma sum_of_bounds {A} (f : A → Z) l :
  (∀ a, 0 ≤ f a ≤ 1)%Z → (0 ≤ sum_of f l ≤ Z.of_nat (length l))%Z.
Proof.
  intros Hf. induction l as [|a l IH]; simpl; [lia|].
  unfold sum_of in *; simpl. specialize (Hf a). lia.
Qed.

Lemma sum_of_elem {A} (f : A → Z) l i a :
  (∀ a, 0 ≤ f a)%Z → l !! i = Some a → (f a ≤ sum_of f l)%Z.
Proof.
  intros Hf. revert i. induction l as [|c l IH]; intros i Hi; [done|].
  assert (∀ l', 0 ≤ sum_of f l')%Z as Hpos.
  { induction l'; unfold sum_of in *; simpl; [lia|]. specialize (Hf a0). lia. }
  destruct i; simpl in *; unfold sum_of in *; simpl.
  - simplify_eq. specialize (Hpos l). lia.
  - specialize (IH _ Hi). specialize (Hf c). lia.
Qed.

Lemma sum_of_two {A} (f : A → Z) l i j a b :
  (∀ a, 0 ≤ f a)%Z → l !! i = Some a → l !! j = Some b → i ≠ j →
  (f a + f b ≤ sum_of f l)%Z.
Proof.
  intros Hf. revert i j. induction l as [|c l IH]; intros i j Hi Hj Hne; [done|].
  destruct i as [|i], j as [|j]; simpl in *; simplify_eq; unfold sum_of; simpl.
  - pose proof (sum_of_elem f l j b Hf Hj). unfold sum_of in *. lia.
  - pose proof (sum_of_elem f l i a Hf Hi). unfold sum_of in *. lia.
  - specialize (IH i j Hi Hj ltac:(lia)). specialize (Hf c). unfold sum_of in *. lia.
Qed.

Lemma sum_of_le {A} (f g : A → Z) l : (∀ a, f a ≤ g a)%Z → (sum_of f l ≤ sum_of g l)%Z.
Proof.
  intros H. induction l as [|a l IH]; unfold sum_of in *; simpl; [lia|]. specialize (H a). lia.
Qed.

Lemma sum_of_nonneg {A} (f : A → Z) l : (∀ a, 0 ≤ f a)%Z → (0 ≤ sum_of f l)%Z.
Proof.
  intros H. induction l as [|a l IH]; unfold sum_of in *; simpl; [lia|]. specialize (H a). lia.
Qed.

Lemma sum_of_upper {A} (f : A → Z) n l : (∀ a, f a ≤ n)%Z → (sum_of f l ≤ n * Z.of_nat (length l))%Z.
Proof.
  intros H. induction l as [|a l IH]; unfold sum_of in *; simpl; [lia|]. specialize (H a). lia.
Qed.

Lemma sum_of_zero {A} (f : A → Z) l :
  (∀ a, a ∈ l → f a = 0%Z) → sum_of f l = 0%Z.
Proof.
  induction l as [|a l IH]; intros Hf; [done|]. unfold sum_of in *; simpl.
  rewrite (Hf a) by set_solver. rewrite IH; [done|]. intros b Hb. apply Hf. set_solver.
Qed.

Lemma sum_of_pos_elem {A} (f : A → Z) l :
  (0 < sum_of f l)%Z → ∃ i a, l !! i = Some a ∧ (0 < f a)%Z.
Proof.
  induction l as [|a l IH]; unfold sum_of in *; simpl; [lia|]. intros H.
  destruct (decide (0 < f a)%Z); [by exists 0%nat, a|].
  destruct IH as (i & b & Hi & Hb); [lia|]. by exists (S i), b.
Qed.

(** ** Machines that come to rest

    A labelled step function whose [own] steps use up a rank that no [allowed]
    step increases: its runs have boundedly many own steps, and if it can only
    be stuck in a final state, every state can be run to one. *)
Section rest.
Context {St L : Type} (step : L → St → option St).

Fixpoint runs (ls : list L) (s : St) : option St :=
  match ls with
  | [] => Some s
  | l :: ls => match step l s with Some s' => runs ls s' | None => None end
  end.

Context (own : L → bool) (allowed : L → Prop) (inv : St → Prop) (rank : St → Z).
Hypothesis rank_nonneg : ∀ s, inv s → (0 ≤ rank s)%Z.
Hypothesis rank_step : ∀ l s s', inv s → allowed l → step l s = Some s' →
  inv s' ∧ (rank s' + (if own l then 1 else 0) ≤ rank s)%Z.

Definition own_steps (ls : list L) : Z := sum_of (λ l, if own l then 1 else 0)%Z ls.

Lemma runs_bounded ls s s' : inv s → Forall allowed ls → runs ls s = Some s' →
  inv s' ∧ (own_steps ls + rank s' ≤ rank s)%Z.
Proof.
  unfold own_steps, sum_of. revert s. induction ls as [|l ls IH]; cbn; intros s Hs Ha E.
  - injection E as <-. split; [done|lia].
  - apply Forall_cons in Ha as [Hl Ha]. destruct (step l s) as [s1|] eqn:E1; [|done].
    destruct (rank_step l s s1 Hs Hl E1) as [Hs1 Hr]. destruct (IH s1 Hs1 Ha E). split; [done|lia].
Qed.

Lemma runs_end (final : St → Prop) :
  (∀ s, inv s → final s ∨ ∃ l s', own l = true ∧ allowed l ∧ step l s = Some s') →
  ∀ s, inv s → ∃ ls s', Forall (λ l, own l = true ∧ allowed l) ls ∧ runs ls s = Some s' ∧ final s'.
Proof.
  intros Hmove s Hs. remember (Z.to_nat (rank s)) as k eqn:Hk.
  revert s Hs Hk. induction (lt_wf k) as [k _ IH]. intros s Hs ->.
  destruct (Hmove s Hs) as [Hf|(l & s1 & Ho & Ha & E)]; [by exists [], s|].
  destruct (rank_step l s s1 Hs Ha E) as [Hs1 Hr]. rewrite Ho in Hr.
  pose proof (rank_nonneg s1 Hs1).
  destruct (IH (Z.to_nat (rank s1)) ltac:(lia) s1 Hs1 eq_refl) as (ls & s' & H1 & H2 & H3).
  exists (l :: ls), s'. split_and!; [by constructor|by cbn; rewrite E|done].
Qed.
End rest.

(** Concatenation of strings computes on a constructor. *)
#[global] Arguments String.append !_ _ : simpl nomatch.

(** ** Bits *)

Lemma testbit_small x n i : (0 ≤ x < 2 ^ n)%Z → (n ≤ i)%Z → Z.testbit x i = false.
Proof.
  intros Hx Hi. destruct (decide (x = 0)%Z) as [->|Hx0]; [apply Z.testbit_0_l|].
  apply Z.bits_above_log2; [lia|].
  apply Z.lt_le_trans with n; [|done]. apply Z.log2_lt_pow2; lia.
Qed.

(** Or-ing a field below a shifted value adds it. *)
Lemma lor_shiftl_add a b n :
  (0 ≤ n)%Z → (0 ≤ b < 2 ^ n)%Z → Z.lor (Z.shiftl a n) b = (a * 2 ^ n + b)%Z.
Proof.
  intros Hn Hb. rewrite <-Z.shiftl_mul_pow2 by done. symmetry.
  rewrite Z.add_nocarry_lxor, Z.lxor_lor; [done| |].
  all: apply Z.bits_inj'; intros i Hi; rewrite Z.land_spec, Z.testbit_0_l, Z.shiftl_spec by done;
    destruct (Z.ltb_spec i n);
    [by rewrite (Z.testbit_neg_r a) by lia|by rewrite (testbit_small b n), andb_false_r by lia].
Qed.

Lemma u64_lor a b : in_u64 a → in_u64 b → in_u64 (Z.lor a b).
Proof.
  unfold in_u64. intros Ha Hb.
  assert (0 ≤ Z.lor a b)%Z by (apply Z.lor_nonneg; lia). split; [done|].
  destruct (decide (Z.lor a b = 0)%Z) as [->|]; [lia|].
  apply Z.log2_lt_pow2; [lia|]. rewrite Z.log2_lor by lia.
  assert (∀ x, 0 ≤ x < 2 ^ 64 → Z.log2 x < 64)%Z as Hl.
  { intros x Hx. destruct (decide (x = 0)%Z) as [->|]; [done|]. apply Z.log2_lt_pow2; lia. }
  apply Z.max_lub_lt; auto.
Qed.
