(* ===== verification/Queue.v ===== *)
(** * The interface a mailbox offers

    [BoundedQueue] is what the scheduler ([Scheduler.v]) relies on: a FIFO with
    a capacity ceiling and a closed flag, described by an abstract state
    [queue_state].  [RingBuffer.v] proves the ring of
    [al/ringbuffer/ringbuffer.go] to be an instance. *)

From S2P Require Import Prelude.

(** The outcome of a Push (the constants of ringbuffer.go). *)
Inductive PushResult : Type :=
| PushOK
| PushOverflow
| PushClosed.

#[export] Instance PushResult_eq_dec : EqDecision PushResult.
Proof. solve_decision. Defined.

(** The abstract queue: its items in FIFO order, its ceiling and whether it
    has been closed. *)
Record queue_state (A : Type) : Type := QState {
  qs_items : list A;
  qs_max : Z;
  qs_closed : bool
}.
Arguments QState {A} _ _ _.
Arguments qs_items {A} _.
Arguments qs_max {A} _.
Arguments qs_closed {A} _.

Section abstract_queue.
Context {A : Type}.
Implicit Types (q : queue_state A) (a : A).

Definition spec_push (a : A) (q : queue_state A) : PushResult * queue_state A :=
  if qs_closed q then (PushClosed, q)
  else if decide (Z.of_nat (length (qs_items q)) < qs_max q)%Z
       then (PushOK, QState (qs_items q ++ [a]) (qs_max q) false)
       else (PushOverflow, q).

Definition spec_pop (q : queue_state A) : option A * queue_state A :=
  match qs_items q with
  | [] => (None, q)
  | a :: l => (Some a, QState l (qs_max q) (qs_closed q))
  end.

Definition spec_close (q : queue_state A) : queue_state A :=
  QState (qs_items q) (qs_max q) true.

Definition spec_len (q : queue_state A) : Z := Z.of_nat (length (qs_items q)).
End abstract_queue.

(** Operations and laws of a mailbox implementation [Q] holding [A]s.  A
    well-formed mailbox never panics and every operation acts on the abstract
    state [q_abs] as the specification says. *)
Class BoundedQueue (Q A : Type) := {
  q_push : Q → A → outcome (PushResult * Q);
  q_pop : Q → outcome (option A * Q);
  q_close : Q → Q;
  q_len : Q → Z;
  q_wf : Q → Prop;
  q_abs : Q → queue_state A;
  q_push_law : ∀ q a, q_wf q → ∃ q',
    q_push q a = Ok ((spec_push a (q_abs q)).1, q') ∧ q_wf q' ∧
    q_abs q' = (spec_push a (q_abs q)).2;
  q_pop_law : ∀ q, q_wf q → ∃ q',
    q_pop q = Ok ((spec_pop (q_abs q)).1, q') ∧ q_wf q' ∧
    q_abs q' = (spec_pop (q_abs q)).2;
  q_close_law : ∀ q, q_wf q →
    q_wf (q_close q) ∧ q_abs (q_close q) = spec_close (q_abs q);
  q_len_law : ∀ q, q_wf q → q_len q = spec_len (q_abs q)
}.

(** The laws, by the result of the call. *)
Section laws.
Context {Q A : Type} {BQ : BoundedQueue Q A}.
Implicit Types (q : Q) (a : A).

Lemma q_pop_some q q' a : q_wf q → q_pop q = Ok (Some a, q') →
  q_wf q' ∧ qs_items (q_abs q) = a :: qs_items (q_abs q') ∧
  qs_closed (q_abs q') = qs_closed (q_abs q).
Proof.
  intros W E. destruct (q_pop_law q W) as (q1 & E1 & W1 & A1). rewrite E in E1.
  unfold spec_pop in *. destruct (qs_items (q_abs q)) as [|b l]; simpl in *; [done|].
  injection E1 as <- <-. by rewrite A1.
Qed.

Lemma q_pop_none q q' : q_wf q → q_pop q = Ok (None, q') →
  q_wf q' ∧ qs_items (q_abs q) = [] ∧ q_abs q' = q_abs q.
Proof.
  intros W E. destruct (q_pop_law q W) as (q1 & E1 & W1 & A1). rewrite E in E1.
  unfold spec_pop in *. destruct (qs_items (q_abs q)) as [|b l]; simpl in *; [|done].
  by injection E1 as <-.
Qed.

Lemma q_push_inv q q' a r : q_wf q → q_push q a = Ok (r, q') →
  q_wf q' ∧
  match r with
  | PushOK => qs_closed (q_abs q) = false ∧ qs_items (q_abs q') = qs_items (q_abs q) ++ [a] ∧
      qs_closed (q_abs q') = false
  | PushOverflow => qs_closed (q_abs q) = false ∧ q_abs q' = q_abs q
  | PushClosed => qs_closed (q_abs q) = true ∧ q_abs q' = q_abs q
  end.
Proof.
  intros W E. destruct (q_push_law q a W) as (q1 & E1 & W1 & A1). rewrite E in E1.
  unfold spec_push in *. destruct (qs_closed (q_abs q)) eqn:C; simpl in *.
  - by injection E1 as -> ->.
  - destruct (decide _); simpl in *; injection E1 as -> ->; rewrite A1; done.
Qed.

Lemma q_close_inv q : q_wf q →
  q_wf (q_close q) ∧ qs_items (q_abs (q_close q)) = qs_items (q_abs q) ∧
  qs_closed (q_abs (q_close q)) = true.
Proof. intros W. destruct (q_close_law q W) as [W1 ->]. done. Qed.

Lemma q_len_inv q : q_wf q → q_len q = Z.of_nat (length (qs_items (q_abs q))).
Proof. apply q_len_law. Qed.

Lemma q_never_panics q a : q_wf q → q_push q a ≠ Panic ∧ q_pop q ≠ Panic.
Proof.
  intros W. destruct (q_push_law q a W) as (? & -> & _), (q_pop_law q W) as (? & -> & _). done.
Qed.
End laws.

(** What the calls of the context say of the abstract state. *)
Ltac queue_facts :=
  repeat match goal with
  | W : q_wf ?q, E : q_pop ?q = Ok (Some _, _) |- _ => apply (q_pop_some _ _ _ W) in E as (? & ? & ?)
  | W : q_wf ?q, E : q_pop ?q = Ok (None, _) |- _ => apply (q_pop_none _ _ W) in E as (? & ? & ?)
  | W : q_wf ?q, E : q_push ?q _ = Ok (_, _) |- _ => apply (q_push_inv _ _ _ _ W) in E as (? & ?); destruct_and?
  end.
