(* ===== verification/RingBuffer.v ===== *)
(** * al/ringbuffer/ringbuffer.go: the growing ring behind a mailbox

    [RingBuffer] is the Go struct field by field (the mutex is dropped: every
    method holds it from its first to its last access, so a method is one
    atomic step).  An index out of range is a [Panic], [int64] arithmetic
    wraps.  [wf] is the representation invariant, [contents] the abstraction
    to the FIFO list, and [ring_queue] discharges the [BoundedQueue]
    interface. *)

From S2P Require Import Prelude Queue.
Open Scope Z_scope.

Module Ring.

Record RingBuffer (T : Type) : Type := MkRing {
  items : list T;
  head : Z;
  tail : Z;
  rsize : Z;
  cap : Z;
  maxCap : Z;
  closed : bool
}.
Arguments MkRing {T} _ _ _ _ _ _ _.
Arguments items {T} _.
Arguments head {T} _.
Arguments tail {T} _.
Arguments rsize {T} _.
Arguments cap {T} _.
Arguments maxCap {T} _.
Arguments closed {T} _.

Section ops.
Context {T : Type} (zero : T).
Implicit Types rb : RingBuffer T.

(** [make([]T, n)]: n zero values; a negative length panics. *)
Definition make_slice (n : Z) : outcome (list T) :=
  if decide (0 ≤ n) then Ok (replicate (Z.to_nat n) zero) else Panic.

(** [copy(dst[at:], src)]: overwrites from [at], stops at the shorter. *)
Definition copy_at (dst : list T) (at_ : Z) (src : list T) : list T :=
  let n := (length dst - Z.to_nat at_)%nat in
  take (Z.to_nat at_) dst ++ take n src
    ++ drop (Z.to_nat at_ + length (take n src))%nat dst.

Definition New (initCap maxCap : Z) : outcome (RingBuffer T) :=
  let initCap := if decide (initCap ≤ 0) then 1 else initCap in
  let maxCap := if decide (maxCap < initCap) then initCap else maxCap in
  its ← make_slice initCap;
  Ok (MkRing its 0 0 0 initCap maxCap false).

Definition next (rb : RingBuffer T) (i : Z) : Z :=
  let i := (i +i64 1)%go in
  if decide (i = cap rb) then 0 else i.

Definition grow (rb : RingBuffer T) : outcome (RingBuffer T) :=
  let newCap := Z.min (cap rb *i64 2)%go (maxCap rb) in
  its ← make_slice newCap;
  if decide (0 ≤ head rb ≤ Z.of_nat (length (items rb))) then
  if decide (0 ≤ tail rb ≤ Z.of_nat (length (items rb))) then
    let src := drop (Z.to_nat (head rb)) (items rb) in
    let n := Z.min (Z.of_nat (length src)) newCap in
    let its := copy_at its 0 src in
    let its := copy_at its n (take (Z.to_nat (tail rb)) (items rb)) in
    Ok (MkRing its 0 (rsize rb) (rsize rb) newCap (maxCap rb) (closed rb))
  else Panic else Panic.

(** [rb.items[rb.tail] = item; rb.tail = rb.next(rb.tail); rb.size++] *)
Definition put (rb : RingBuffer T) (item : T) : outcome (RingBuffer T) :=
  its ← slice_set (items rb) (tail rb) item;
  Ok (MkRing its (head rb) (next rb (tail rb)) (rsize rb +i64 1)%go
        (cap rb) (maxCap rb) (closed rb)).

Definition Push (rb : RingBuffer T) (item : T) : outcome (PushResult * RingBuffer T) :=
  if closed rb then Ok (PushClosed, rb)
  else if decide (rsize rb = cap rb) then
    if decide (maxCap rb ≤ cap rb) then Ok (PushOverflow, rb)
    else rb ← grow rb; rb ← put rb item; Ok (PushOK, rb)
  else rb ← put rb item; Ok (PushOK, rb).

Definition Close (rb : RingBuffer T) : RingBuffer T :=
  MkRing (items rb) (head rb) (tail rb) (rsize rb) (cap rb) (maxCap rb) true.

Definition Len (rb : RingBuffer T) : Z := rsize rb.

Definition Cap (rb : RingBuffer T) : Z := cap rb.

Definition Pop (rb : RingBuffer T) : outcome (option T * RingBuffer T) :=
  if decide (rsize rb = 0) then Ok (None, rb)
  else
    item ← slice_get (items rb) (head rb);
    its ← slice_set (items rb) (head rb) zero;
    Ok (Some item,
        MkRing its (next rb (head rb)) (tail rb) (rsize rb -i64 1)%go
          (cap rb) (maxCap rb) (closed rb)).

(** The live elements in FIFO order: [rsize] slots from [head], wrapping. *)
Definition contents (rb : RingBuffer T) : list T :=
  take (Z.to_nat (rsize rb)) (rotate (Z.to_nat (head rb)) (items rb)).

(** The representation invariant.  Its last clause says that every slot outside
    the live window holds the zero value, i.e. a popped message is not kept
    alive by the ring. *)
Record wf (rb : RingBuffer T) : Prop := {
  wf_len : Z.of_nat (length (items rb)) = cap rb;
  wf_cap : 1 ≤ cap rb ≤ maxCap rb;
  wf_max : maxCap rb ≤ 2 ^ 62;
  wf_head : 0 ≤ head rb < cap rb;
  wf_size : 0 ≤ rsize rb ≤ cap rb;
  wf_tail : tail rb = (head rb + rsize rb) `mod` cap rb;
  wf_zero : drop (Z.to_nat (rsize rb)) (rotate (Z.to_nat (head rb)) (items rb))
            = replicate (Z.to_nat (cap rb - rsize rb)) zero
}.

Definition abs (rb : RingBuffer T) : queue_state T :=
  QState (contents rb) (maxCap rb) (closed rb).

(** ** Rotation and overwriting of lists *)

Lemma rotate_lt (l : list T) n :
  (n < length l)%nat → rotate n l = drop n l ++ take n l.
Proof. intros Hn. unfold rotate. by rewrite Nat.mod_small. Qed.

Lemma rotate_next (l : list T) n a k :
  (n < length l)%nat → rotate n l = a :: k →
  rotate (if decide (S n = length l) then 0%nat else S n) l = k ++ [a].
Proof.
  intros Hn Hr. rewrite rotate_lt in Hr by done.
  destruct (lookup_lt_is_Some_2 l n Hn) as [b Hb].
  rewrite (drop_S l b n Hb) in Hr. simplify_eq/=.
  case_decide as Hd.
  - unfold rotate. rewrite Nat.Div0.mod_0_l, drop_0, take_0, app_nil_r.
    rewrite Hd, drop_all. simpl. rewrite <-(take_S_r l n a Hb), Hd.
    by rewrite firstn_all.
  - rewrite rotate_lt by lia. by rewrite (take_S_r l n a Hb), app_assoc.
Qed.

Lemma copy_at_0 (n : Z) (src : list T) :
  Z.of_nat (length src) ≤ n →
  copy_at (replicate (Z.to_nat n) zero) 0 src
  = src ++ replicate (Z.to_nat (n - Z.of_nat (length src))) zero.
Proof.
  intros Hn. unfold copy_at. rewrite length_replicate, Nat.sub_0_r, take_0. simpl.
  rewrite (take_ge src) by lia. rewrite drop_replicate. do 2 f_equal. lia.
Qed.

Lemma copy_at_app (pre src : list T) (k : nat) :
  (length src ≤ k)%nat →
  copy_at (pre ++ replicate k zero) (Z.of_nat (length pre)) src
  = pre ++ src ++ replicate (k - length src) zero.
Proof.
  intros Hk. unfold copy_at. rewrite Nat2Z.id, length_app, length_replicate.
  rewrite take_app_length. rewrite (take_ge src) by lia.
  rewrite drop_app_ge by lia. rewrite drop_replicate.
  do 3 f_equal. lia.
Qed.

(** ** The representation invariant *)

Lemma wf_rotate rb : wf rb →
  rotate (Z.to_nat (head rb)) (items rb)
  = contents rb ++ replicate (Z.to_nat (cap rb - rsize rb)) zero.
Proof. intros W. rewrite <-(wf_zero rb W). unfold contents. by rewrite take_drop. Qed.

Lemma wf_of_rotate rb l :
  Z.of_nat (length (items rb)) = cap rb → 1 ≤ cap rb ≤ maxCap rb → maxCap rb ≤ 2 ^ 62 →
  0 ≤ head rb < cap rb → Z.of_nat (length l) = rsize rb → rsize rb ≤ cap rb →
  tail rb = (head rb + rsize rb) `mod` cap rb →
  rotate (Z.to_nat (head rb)) (items rb)
  = l ++ replicate (Z.to_nat (cap rb - rsize rb)) zero →
  wf rb ∧ contents rb = l.
Proof.
  intros ???? Hl ?? Hr. assert (Z.to_nat (rsize rb) = length l) as Hn by lia.
  split; [constructor; auto; [lia|]|].
  - rewrite Hr, Hn. apply drop_app_length.
  - unfold contents. rewrite Hr, Hn. apply take_app_length.
Qed.

Lemma length_contents rb : wf rb → Z.of_nat (length (contents rb)) = rsize rb.
Proof.
  intros W. unfold contents. rewrite length_take, length_rotate.
  pose proof (wf_len rb W). pose proof (wf_size rb W). lia.
Qed.

Lemma wf_facts rb : wf rb →
  Z.of_nat (length (items rb)) = cap rb ∧ 1 ≤ cap rb ≤ maxCap rb ∧ maxCap rb ≤ 2 ^ 62 ∧
  0 ≤ head rb < cap rb ∧ 0 ≤ rsize rb ≤ cap rb ∧
  Z.of_nat (length (contents rb)) = rsize rb ∧
  tail rb = (head rb + rsize rb) `mod` cap rb.
Proof. intros W. pose proof (length_contents rb W). by destruct W. Qed.

Lemma next_mod rb i : wf rb → 0 ≤ i < cap rb → next rb i = (i + 1) `mod` cap rb.
Proof.
  intros W Hi. pose proof (wf_facts rb W) as (_ & ? & ? & _).
  unfold next. rewrite i64_id by word_lia. case_decide as Hd.
  - rewrite Hd, Z.mod_same; lia.
  - rewrite Z.mod_small; lia.
Qed.

(** ** The operations on a well-formed ring *)

Lemma put_spec rb x : wf rb → rsize rb < cap rb → ∃ rb',
  put rb x = Ok rb' ∧ wf rb' ∧ contents rb' = contents rb ++ [x] ∧
  maxCap rb' = maxCap rb ∧ closed rb' = closed rb.
Proof.
  intros W Hlt. pose proof (wf_facts rb W) as (Hlen & Hc & Hm & Hh & Hs & Hcl & Ht).
  pose proof (Z.mod_pos_bound (head rb + rsize rb) (cap rb) ltac:(lia)).
  unfold put. rewrite slice_set_ok by lia. simpl. eexists; split; [done|].
  edestruct (wf_of_rotate (MkRing (<[Z.to_nat (tail rb):=x]> (items rb)) (head rb)
    (next rb (tail rb)) (rsize rb +i64 1)%go (cap rb) (maxCap rb) (closed rb))
    (contents rb ++ [x])) as [W' C']; simpl; auto.
  - by rewrite length_insert.
  - rewrite length_app. simpl. rewrite i64_id by word_lia. lia.
  - rewrite i64_id by word_lia. lia.
  - rewrite (next_mod rb) by (auto; lia). rewrite i64_id by word_lia.
    rewrite Ht, Zplus_mod_idemp_l. f_equal. lia.
  - rewrite i64_id by word_lia.
    replace (Z.to_nat (tail rb))
      with (rotate_nat_add (Z.to_nat (head rb)) (Z.to_nat (rsize rb)) (length (items rb))).
    2:{ unfold rotate_nat_add. rewrite Ht, Hlen, !Z2Nat.id by lia. done. }
    rewrite rotate_insert_l by lia. rewrite (wf_rotate rb W).
    replace (Z.to_nat (cap rb - rsize rb))
      with (S (Z.to_nat (cap rb - (rsize rb + 1)))) by lia.
    rewrite insert_app_r_alt by lia. simpl.
    replace (Z.to_nat (rsize rb) - length (contents rb))%nat with 0%nat by lia.
    simpl. by rewrite <-app_assoc.
Qed.

Lemma grow_spec rb : wf rb → rsize rb = cap rb → cap rb < maxCap rb → ∃ rb',
  grow rb = Ok rb' ∧ wf rb' ∧ contents rb' = contents rb ∧
  cap rb' = Z.min (2 * cap rb) (maxCap rb) ∧ rsize rb' = rsize rb ∧
  maxCap rb' = maxCap rb ∧ closed rb' = closed rb.
Proof.
  intros W Hfull Hlt. pose proof (wf_facts rb W) as (Hlen & Hc & Hm & Hh & Hs & Hcl & Ht).
  assert (tail rb = head rb) as Hth.
  { rewrite Ht, Hfull. rewrite <-(Z.mul_1_l (cap rb)) at 1. rewrite Z.mod_add by lia.
    apply Z.mod_small; lia. }
  unfold grow. rewrite i64_id by word_lia.
  set (nc := Z.min (cap rb * 2) (maxCap rb)).
  assert (cap rb < nc ≤ maxCap rb) by lia.
  unfold make_slice. rewrite decide_True by lia. simpl.
  rewrite !decide_True by lia. eexists; split; [done|].
  assert (rotate (Z.to_nat (head rb)) (items rb) = contents rb) as Hrot.
  { rewrite (wf_rotate rb W), Hfull, Z.sub_diag. simpl. by rewrite app_nil_r. }
  rewrite rotate_lt in Hrot by lia.
  set (d := drop (Z.to_nat (head rb)) (items rb)) in *.
  assert (Z.of_nat (length d) = cap rb - head rb) as Hd
    by (unfold d; rewrite length_drop; lia).
  rewrite copy_at_0 by lia. rewrite (Z.min_l (Z.of_nat (length d))) by lia.
  rewrite copy_at_app by (rewrite length_take; lia).
  rewrite Hth, app_assoc, Hrot, length_take.
  edestruct (wf_of_rotate (MkRing
    (contents rb ++ replicate (Z.to_nat (nc - Z.of_nat (length d))
       - Z.to_nat (head rb) `min` length (items rb)) zero)
    0 (rsize rb) (rsize rb) nc (maxCap rb) (closed rb)) (contents rb))
    as [W' C']; simpl; try lia; auto.
  - rewrite length_app, length_replicate. lia.
  - rewrite Z.mod_small; lia.
  - unfold rotate. rewrite Nat.Div0.mod_0_l, drop_0, take_0, app_nil_r. do 2 f_equal. lia.
  - split_and!; auto. lia.
Qed.

Lemma Push_spec rb x : wf rb → ∃ rb',
  Push rb x = Ok ((spec_push x (abs rb)).1, rb') ∧ wf rb' ∧
  abs rb' = (spec_push x (abs rb)).2.
Proof.
  intros W. pose proof (wf_facts rb W) as (Hlen & Hc & Hm & Hh & Hs & Hcl & Ht).
  unfold Push, spec_push. simpl. destruct (closed rb) eqn:Ec; [by eauto|].
  case_decide as Hd; [case_decide as Hd2|].
  - rewrite decide_False by lia. by eauto.
  - destruct (grow_spec rb W Hd ltac:(lia)) as (r1 & -> & W1 & C1 & K1 & S1 & M1 & L1).
    simpl. destruct (put_spec r1 x W1 ltac:(lia)) as (r2 & -> & W2 & C2 & M2 & L2).
    simpl. rewrite decide_True by lia. exists r2. split_and!; auto.
    unfold abs. simpl. f_equal; congruence.
  - destruct (put_spec rb x W ltac:(lia)) as (r2 & -> & W2 & C2 & M2 & L2).
    simpl. rewrite decide_True by lia. exists r2. split_and!; auto.
    unfold abs. simpl. f_equal; congruence.
Qed.

Lemma Pop_spec rb : wf rb → ∃ rb',
  Pop rb = Ok ((spec_pop (abs rb)).1, rb') ∧ wf rb' ∧
  abs rb' = (spec_pop (abs rb)).2.
Proof.
  intros W. pose proof (wf_facts rb W) as (Hlen & Hc & Hm & Hh & Hs & Hcl & Ht).
  unfold Pop, spec_pop. simpl. case_decide as Hd.
  { destruct (contents rb) eqn:E; [|simpl in *; lia]. eauto. }
  destruct (contents rb) as [|a k] eqn:E; [simpl in *; lia|].
  pose proof (wf_rotate rb W) as Hrot. rewrite E in Hrot. simpl in Hrot.
  assert (items rb !! Z.to_nat (head rb) = Some a) as Ha.
  { rewrite rotate_lt in Hrot by lia.
    rewrite <-(Nat.add_0_r (Z.to_nat (head rb))), <-lookup_drop.
    destruct (drop (Z.to_nat (head rb)) (items rb)) as [|b d] eqn:Hdr.
    - apply (f_equal length) in Hdr. rewrite length_drop in Hdr. simpl in Hdr. lia.
    - simpl in Hrot. by injection Hrot as ->. }
  rewrite (slice_get_ok _ _ a) by (auto; lia). simpl.
  rewrite slice_set_ok by lia. simpl. simpl in Hcl.
  rewrite i64_id by word_lia. eexists; split; [done|].
  edestruct (wf_of_rotate (MkRing (<[Z.to_nat (head rb):=zero]> (items rb))
    (next rb (head rb)) (tail rb) (rsize rb - 1) (cap rb) (maxCap rb) (closed rb)) k)
    as [W' C']; simpl; try lia; auto.
  - by rewrite length_insert.
  - unfold next. rewrite i64_id by word_lia. case_decide; lia.
  - rewrite (next_mod rb), Zplus_mod_idemp_l by (auto; lia). rewrite Ht. f_equal. lia.
  - assert (rotate (Z.to_nat (head rb)) (<[Z.to_nat (head rb):=zero]> (items rb))
      = zero :: k ++ replicate (Z.to_nat (cap rb - rsize rb)) zero) as Hz.
    { replace (<[Z.to_nat (head rb):=zero]> (items rb)) with
        (<[rotate_nat_add (Z.to_nat (head rb)) 0 (length (items rb)):=zero]> (items rb)).
      - rewrite rotate_insert_l by lia. by rewrite Hrot.
      - unfold rotate_nat_add. rewrite Z.add_0_r, Z.mod_small by lia. by rewrite Nat2Z.id. }
    apply rotate_next in Hz; [|rewrite length_insert; lia].
    replace (Z.to_nat (next rb (head rb))) with
      (if decide (S (Z.to_nat (head rb)) = length (<[Z.to_nat (head rb):=zero]> (items rb)))
       then 0%nat else S (Z.to_nat (head rb))).
    + rewrite Hz, <-app_assoc. f_equal.
      replace (Z.to_nat (cap rb - (rsize rb - 1)))
        with (Z.to_nat (cap rb - rsize rb) + 1)%nat by lia.
      rewrite replicate_add. done.
    + rewrite length_insert. unfold next. rewrite i64_id by word_lia.
      repeat case_decide; lia.
  - split; [done|]. unfold abs. simpl. by rewrite C'.
Qed.

Lemma Close_spec rb : wf rb → wf (Close rb) ∧ abs (Close rb) = spec_close (abs rb).
Proof. intros W. split; [|done]. by destruct W; constructor. Qed.

Lemma Len_spec rb : wf rb → Len rb = spec_len (abs rb).
Proof. intros W. unfold Len, spec_len. simpl. by rewrite length_contents. Qed.

Lemma New_spec i m : i ≤ 2 ^ 62 → m ≤ 2 ^ 62 → ∃ rb,
  New i m = Ok rb ∧ wf rb ∧ contents rb = [] ∧ closed rb = false ∧
  cap rb = Z.max 1 i ∧ maxCap rb = Z.max m (Z.max 1 i).
Proof.
  intros Hi Hm. unfold New.
  set (i' := if decide (i ≤ 0) then 1 else i).
  assert (i' = Z.max 1 i) as Ei by (unfold i'; case_decide; lia).
  set (m' := if decide (m < i') then i' else m).
  assert (m' = Z.max m i') as Em by (unfold m'; case_decide; lia).
  unfold make_slice. rewrite decide_True by lia. simpl. eexists; split; [done|].
  edestruct (wf_of_rotate (MkRing (replicate (Z.to_nat i') zero) 0 0 0 i' m' false) [])
    as [W' C']; simpl; try (pow_simpl; lia); auto.
  - rewrite length_replicate. lia.
  - rewrite rotate_replicate. by rewrite Z.sub_0_r.
  - split_and!; auto. lia.
Qed.
End ops.

(** ** Whole runs *)

Section runs.
Context {T : Type}.

(** One call on a mailbox, and what it returns. *)
Inductive op : Type :=
| OpPush (x : T)
| OpPop
| OpClose
| OpLen.

Inductive res : Type :=
| RPush (r : PushResult)
| RPop (r : option T)
| RClose
| RLen (n : Z).

Definition ring_op (zero : T) (o : op) (rb : RingBuffer T) : outcome (res * RingBuffer T) :=
  match o with
  | OpPush x => '(r, rb) ← Push zero rb x; Ok (RPush r, rb)
  | OpPop => '(r, rb) ← Pop zero rb; Ok (RPop r, rb)
  | OpClose => Ok (RClose, Close rb)
  | OpLen => Ok (RLen (Len rb), rb)
  end.

Definition spec_op (o : op) (q : queue_state T) : res * queue_state T :=
  match o with
  | OpPush x => let '(r, q) := spec_push x q in (RPush r, q)
  | OpPop => let '(r, q) := spec_pop q in (RPop r, q)
  | OpClose => (RClose, spec_close q)
  | OpLen => (RLen (spec_len q), q)
  end.

Fixpoint run_ring (zero : T) (ops : list op) (rb : RingBuffer T)
    : outcome (list res * RingBuffer T) :=
  match ops with
  | [] => Ok ([], rb)
  | o :: ops =>
      '(r, rb) ← ring_op zero o rb;
      '(rs, rb) ← run_ring zero ops rb;
      Ok (r :: rs, rb)
  end.

Fixpoint run_spec (ops : list op) (q : queue_state T) : list res * queue_state T :=
  match ops with
  | [] => ([], q)
  | o :: ops =>
      let '(r, q) := spec_op o q in
      let '(rs, q) := run_spec ops q in
      (r :: rs, q)
  end.

Lemma ring_op_spec zero o rb : wf zero rb → ∃ rb',
  ring_op zero o rb = Ok ((spec_op o (abs rb)).1, rb') ∧ wf zero rb' ∧
  abs rb' = (spec_op o (abs rb)).2.
Proof.
  intros W. destruct o as [x| | |]; simpl.
  - destruct (Push_spec zero rb x W) as (rb' & -> & W' & A).
    destruct (spec_push x (abs rb)). by exists rb'.
  - destruct (Pop_spec zero rb W) as (rb' & -> & W' & A).
    destruct (spec_pop (abs rb)). by exists rb'.
  - destruct (Close_spec zero rb W). by eauto.
  - rewrite (Len_spec zero rb W). by eauto.
Qed.

Lemma run_ring_spec zero ops rb : wf zero rb → ∃ rb',
  run_ring zero ops rb = Ok ((run_spec ops (abs rb)).1, rb') ∧ wf zero rb' ∧
  abs rb' = (run_spec ops (abs rb)).2.
Proof.
  revert rb. induction ops as [|o ops IH]; intros rb W; simpl; [by eauto|].
  destruct (ring_op_spec zero o rb W) as (rb1 & -> & W1 & A1). simpl.
  destruct (IH rb1 W1) as (rb2 & -> & W2 & A2). simpl.
  destruct (spec_op o (abs rb)) as [r q]. simpl in *. subst q.
  destruct (run_spec ops (abs rb1)). by exists rb2.
Qed.

(** [C35] The ring of al/ringbuffer/ringbuffer.go refines a bounded FIFO queue:
    started by [New] with any sizes below 2^62 and driven by any sequence of
    Push, Pop, Close and Len calls, it never indexes out of range, returns at
    every call what the FIFO with ceiling max(maxCap, max(1, initCap)) returns
    (order kept, overflow exactly when full at the ceiling, refusal after
    Close), and ends in a state whose free slots are all zeroed. *)
Theorem ring_refines_queue (zero : T) (initCap maxCap : Z) (ops : list op)
    (Hi : initCap ≤ 2 ^ 62) (Hm : maxCap ≤ 2 ^ 62) :
  let q0 := QState [] (Z.max maxCap (Z.max 1 initCap)) false in
  ∃ rb, (rb0 ← New zero initCap maxCap; run_ring zero ops rb0)
          = Ok ((run_spec ops q0).1, rb) ∧
        abs rb = (run_spec ops q0).2 ∧ wf zero rb.
Proof.
  intros q0. destruct (New_spec zero initCap maxCap Hi Hm) as (rb0 & -> & W & C & L & _ & M).
  assert (abs rb0 = q0) as A0 by (unfold abs, q0; by rewrite C, L, M).
  simpl. destruct (run_ring_spec zero ops rb0 W) as (rb & -> & W' & A).
  rewrite A0 in *. eauto.
Qed.
End runs.

Lemma ring_refines_queue_witness :
  ∃ rb, (rb0 ← New 0%Z 1 2;
         run_ring 0%Z [OpPush 5; OpPush 6; OpPush 7; OpPop; OpPush 8; OpClose; OpPush 9; OpLen] rb0)
    = Ok ([RPush PushOK; RPush PushOK; RPush PushOverflow; RPop (Some 5); RPush PushOK;
           RClose; RPush PushClosed; RLen 2], rb) ∧
    abs rb = QState [6; 8] 2 true ∧ wf 0%Z rb.
Proof.
  apply (ring_refines_queue 0%Z 1 2
    [OpPush 5; OpPush 6; OpPush 7; OpPop; OpPush 8; OpClose; OpPush 9; OpLen]); lia.
Defined.

(** The ring is a mailbox. *)
#[export] Program Instance ring_queue {T} (zero : T) : BoundedQueue (RingBuffer T) T := {|
  q_push := Push zero;
  q_pop := Pop zero;
  q_close := Close;
  q_len := Len;
  q_wf := wf zero;
  q_abs := abs
|}.
Next Obligation. intros. by apply Push_spec. Qed.
Next Obligation. intros. by apply Pop_spec. Qed.
Next Obligation. intros. by apply Close_spec. Qed.
Next Obligation. intros. by apply (Len_spec zero). Qed.
End Ring.
