(* ===== verification/GoStrings.v ===== *)
(** * The parts of Go's [strings] and [strconv] the program uses

    A Go string is its bytes, i.e. a [string] of [ascii]s.  [IndexByte] and its
    relatives return -1 for "not found", as Go does; a slice expression is
    [str_take]/[str_drop]. *)

From S2P Require Import Prelude.

Open Scope Z_scope.

(** [s[:n]] and [s[n:]]. *)
Fixpoint str_take (n : nat) (s : string) : string :=
  match n, s with
  | S n, String c s => String c (str_take n s)
  | _, _ => EmptyString
  end.

Fixpoint str_drop (n : nat) (s : string) : string :=
  match n, s with
  | O, _ => s
  | S n, String _ s => str_drop n s
  | S _, EmptyString => EmptyString
  end.

Fixpoint str_contains_byte (c : ascii) (s : string) : bool :=
  match s with
  | EmptyString => false
  | String d s => bool_decide (d = c) || str_contains_byte c s
  end.

Fixpoint IndexByte (s : string) (c : ascii) : Z :=
  match s with
  | EmptyString => -1
  | String d s => if decide (d = c) then 0
                  else let i := IndexByte s c in if decide (0 ≤ i) then i + 1 else -1
  end.

Fixpoint LastIndexByte (s : string) (c : ascii) : Z :=
  match s with
  | EmptyString => -1
  | String d s => let i := LastIndexByte s c in
                  if decide (0 ≤ i) then i + 1 else if decide (d = c) then 0 else -1
  end.

(** The first position holding any byte of [chars]. *)
Fixpoint IndexAny (s chars : string) : Z :=
  match s with
  | EmptyString => -1
  | String d s => if str_contains_byte d chars then 0
                  else let i := IndexAny s chars in if decide (0 ≤ i) then i + 1 else -1
  end.

Fixpoint has_prefix (p s : string) : bool :=
  match p, s with
  | EmptyString, _ => true
  | String c p, String d s => bool_decide (c = d) && has_prefix p s
  | String _ _, EmptyString => false
  end.

Definition TrimPrefix (s p : string) : string :=
  if has_prefix p s then str_drop (String.length p) s else s.

(** [SplitN(s, sep, n)] for a one-byte separator: at most [n] pieces, the last
    one unsplit. *)
Fixpoint SplitN (n : nat) (s : string) (sep : ascii) : list string :=
  match n with
  | O => []
  | S O => [s]
  | S n => let i := IndexByte s sep in
           if decide (0 ≤ i)
           then str_take (Z.to_nat i) s :: SplitN n (str_drop (Z.to_nat i + 1) s) sep
           else [s]
  end.

(** [ReplaceAll(s, "cc", "c")]: left to right, non-overlapping pairs. *)
Fixpoint collapse_pairs (c : ascii) (s : string) : string :=
  match s with
  | String d ((String e s') as rest) =>
      if decide (d = c ∧ e = c) then String c (collapse_pairs c s')
      else String d (collapse_pairs c rest)
  | _ => s
  end.

(** [strconv.FormatUint(n, 10)]: 20 digits are enough for a uint64. *)
Definition digit_char (d : Z) : ascii := Stdlib.Strings.Ascii.ascii_of_N (Z.to_N (48 + d)).

Fixpoint FormatUint_loop (fuel : nat) (n : Z) (acc : string) : string :=
  match fuel with
  | O => acc
  | S fuel =>
      let acc := String (digit_char (n `mod` 10)) acc in
      if decide (n < 10) then acc else FormatUint_loop fuel (n / 10) acc
  end.

Definition FormatUint (n : Z) : string := FormatUint_loop 20 n EmptyString.

(** [strconv.Itoa] of an int. *)
Definition Itoa (n : Z) : string :=
  if decide (n < 0) then String "-" (FormatUint (- n)) else FormatUint n.

Definition byte_val (c : ascii) : Z := Z.of_N (Stdlib.Strings.Ascii.N_of_ascii c).

Inductive parse_error : Type := ErrSyntax | ErrRange.

(** [strconv.ParseUint(s, 10, 64)]: the value and the error it returns with it;
    a range error comes with the largest value, a syntax error with 0. *)
Fixpoint ParseUint_loop (n : Z) (s : string) : Z * option parse_error :=
  match s with
  | EmptyString => (n, None)
  | String c s =>
      let d := byte_val c - 48 in
      if decide (0 ≤ d ≤ 9) then
        if decide (1844674407370955162 ≤ n) then (2 ^ 64 - 1, Some ErrRange)
        else
          let n := (n * 10)%Z in
          let n1 := (n +u64 d)%go in
          if decide (n1 < n) then (2 ^ 64 - 1, Some ErrRange) else ParseUint_loop n1 s
      else (0, Some ErrSyntax)
  end.

Definition ParseUint (s : string) : Z * option parse_error :=
  match s with
  | EmptyString => (0, Some ErrSyntax)
  | _ => ParseUint_loop 0 s
  end.

(** [strconv.Atoi(s)] on a 64-bit int: an optional sign, then [ParseUint]'s
    digits, then the signed range. *)
Definition Atoi (s : string) : Z * option parse_error :=
  let '(neg, body) := match s with
    | String c r => if decide (c = "-"%char) then (true, r)
                    else if decide (c = "+"%char) then (false, r) else (false, s)
    | EmptyString => (false, s)
    end in
  match ParseUint body with
  | (_, Some ErrSyntax) => (0, Some ErrSyntax)
  | (un, _) =>
      if neg then if decide (2 ^ 63 < un) then (- 2 ^ 63, Some ErrRange) else (- un, None)
      else if decide (2 ^ 63 ≤ un) then (2 ^ 63 - 1, Some ErrRange) else (un, None)
  end.

(** ** Lemmas *)

Lemma str_app_assoc s1 s2 s3 : (s1 +:+ s2) +:+ s3 = s1 +:+ (s2 +:+ s3).
Proof. induction s1 as [|c s1 IH]; simpl; [done|]. by rewrite IH. Qed.

Lemma str_app_nil s : s +:+ "" = s.
Proof. induction s as [|c s IH]; simpl; [done|]. by rewrite IH. Qed.

Lemma str_take_app s1 s2 : str_take (String.length s1) (s1 +:+ s2) = s1.
Proof. induction s1 as [|c s1 IH]; simpl; [done|]. by rewrite IH. Qed.

Lemma str_drop_app s1 s2 k : str_drop (String.length s1 + k) (s1 +:+ s2) = str_drop k s2.
Proof. induction s1 as [|c s1 IH]; simpl; [done|]. by rewrite IH. Qed.

Lemma str_take_drop n s : str_take n s +:+ str_drop n s = s.
Proof. revert s. induction n; intros [|c s]; simpl; try done. by rewrite IHn. Qed.

Lemma str_length_app s1 s2 : String.length (s1 +:+ s2) = (String.length s1 + String.length s2)%nat.
Proof. induction s1 as [|c s1 IH]; simpl; [done|]. by rewrite IH. Qed.

Lemma str_contains_app c s1 s2 :
  str_contains_byte c (s1 +:+ s2) = str_contains_byte c s1 || str_contains_byte c s2.
Proof. induction s1 as [|d s1 IH]; simpl; [done|]. by rewrite IH, orb_assoc. Qed.

Lemma IndexByte_none s c : str_contains_byte c s = false → IndexByte s c = -1.
Proof.
  induction s as [|d s IH]; simpl; [done|]. rewrite orb_false_iff.
  intros [Hd Hs]. case_bool_decide; [done|]. rewrite decide_False by done.
  rewrite IH by done. done.
Qed.

Lemma IndexByte_app s1 s2 c :
  str_contains_byte c s1 = false → IndexByte (s1 +:+ String c s2) c = Z.of_nat (String.length s1).
Proof.
  induction s1 as [|d s1 IH]; simpl; [by rewrite decide_True|]. rewrite orb_false_iff.
  intros [Hd Hs]. case_bool_decide; [done|]. rewrite decide_False by done.
  rewrite IH, decide_True by (done || lia). lia.
Qed.

(** The converse: what a found or missing byte says of the string. *)
Lemma IndexByte_inv s c :
  (IndexByte s c = -1 ∧ str_contains_byte c s = false) ∨
  ∃ s1 s2, s = s1 +:+ String c s2 ∧ str_contains_byte c s1 = false ∧
           IndexByte s c = Z.of_nat (String.length s1).
Proof.
  induction s as [|d s IH]; simpl; [by left|].
  destruct (decide (d = c)) as [->|Hne]; [right; by exists "", s|].
  rewrite bool_decide_false by done. simpl.
  destruct IH as [[-> ->]|(s1 & s2 & -> & Hs & ->)]; [by left|right].
  exists (String d s1), s2. simpl. rewrite bool_decide_false by done.
  split_and!; [done|done|]. rewrite decide_True by lia. lia.
Qed.

Lemma IndexAny_none s chars :
  IndexAny s chars = -1 ↔ ∀ c, str_contains_byte c chars = true → str_contains_byte c s = false.
Proof.
  induction s as [|d s IH]; simpl; [done|].
  assert (-1 ≤ IndexAny s chars) as Hge.
  { clear. induction s as [|d s IH]; simpl; [done|]. destruct (str_contains_byte d chars); [done|].
    case_decide; lia. }
  destruct (str_contains_byte d chars) eqn:Ed.
  - split; [done|]. intros Hc. specialize (Hc d Ed).
    rewrite bool_decide_true in Hc by done. done.
  - case_decide as Hd.
    + split; [lia|]. intros Hc. destruct (IndexAny s chars =? -1) eqn:E; [lia|].
      rewrite Z.eqb_neq in E. destruct E. apply IH. intros c Hcc.
      specialize (Hc c Hcc). by apply orb_false_iff in Hc as [_ ?].
    + split; [|done]. intros _ c Hc. apply orb_false_iff. split.
      * apply bool_decide_false. intros ->. congruence.
      * apply IH; [lia|done].
Qed.

(** *** Decimal numbers *)

Lemma digit_char_val d : 0 ≤ d ≤ 9 → byte_val (digit_char d) = 48 + d.
Proof.
  intros Hd. unfold byte_val, digit_char. rewrite Stdlib.Strings.Ascii.N_ascii_embedding by lia. lia.
Qed.

Definition parse_digits (n : Z) (s : string) : Z * option parse_error := ParseUint_loop n s.

Lemma ParseUint_step n d s :
  0 ≤ n → 0 ≤ d ≤ 9 → n * 10 + d < 2 ^ 64 →
  ParseUint_loop n (String (digit_char d) s) = ParseUint_loop (n * 10 + d) s.
Proof.
  intros Hn Hd Hlt. simpl. rewrite digit_char_val by done.
  replace (48 + d - 48) with d by lia. pow_simpl.
  rewrite decide_True by lia. rewrite decide_False by lia.
  rewrite u64_id by word_lia. by rewrite decide_False by lia.
Qed.

Lemma FormatUint_loop_parse fuel n acc m :
  0 ≤ n < 10 ^ Z.of_nat fuel → (0 < fuel)%nat → 0 ≤ m →
  (∃ k, m * 10 ^ k + n < 2 ^ 64 ∧ 0 < k ∧ 10 ^ (k - 1) ≤ Z.max n 1 < 10 ^ k ∧
   ParseUint_loop m (FormatUint_loop fuel n acc) = ParseUint_loop (m * 10 ^ k + n) acc) ∨
  (∃ k, 0 < k ∧ 10 ^ (k - 1) ≤ Z.max n 1 < 10 ^ k ∧ 2 ^ 64 ≤ m * 10 ^ k + n).
Proof.
  revert n acc. induction fuel as [|fuel IH]; intros n acc Hn Hf Hm; [lia|]. simpl.
  case_decide as Hd.
  - destruct (decide (m * 10 ^ 1 + n < 2 ^ 64)) as [Hlt|Hge].
    + left. exists 1. split_and!; try lia.
      rewrite Z.mod_small by lia. rewrite ParseUint_step by lia.
      by rewrite Z.pow_1_r.
    + right. exists 1. lia.
  - assert (n / 10 * 10 + n `mod` 10 = n) as Hdiv by (pose proof (Z.div_mod n 10); lia).
    pose proof (Z.mod_pos_bound n 10 ltac:(lia)) as Hr.
    destruct (decide (fuel = 0%nat)) as [->|Hf']; [simpl in Hn; lia|].
    assert (0 ≤ n / 10 < 10 ^ Z.of_nat fuel) as Hq.
    { rewrite Nat2Z.inj_succ, Z.pow_succ_r in Hn by lia. lia. }
    assert (∀ k, 0 < k → 10 ^ (k - 1) ≤ Z.max (n / 10) 1 < 10 ^ k →
      10 ^ (k + 1) = 10 * 10 ^ k ∧ 10 ^ (k + 1 - 1) ≤ Z.max n 1 < 10 ^ (k + 1)) as Hk.
    { intros k Hk Hb. replace (k + 1 - 1) with k by lia.
      assert (10 ^ (k + 1) = 10 * 10 ^ k) as E by (rewrite Z.pow_add_r by lia; lia).
      assert (10 ^ k = 10 * 10 ^ (k - 1)) as E2.
      { replace k with ((k - 1) + 1) at 1 by lia. rewrite Z.pow_add_r by lia. lia. }
      split; [done|]. rewrite E. lia. }
    destruct (IH (n / 10) (String (digit_char (n `mod` 10)) acc) Hq ltac:(lia) Hm)
      as [(k & Hlt & Hk0 & Hb & E)|(k & Hk0 & Hb & Hge)];
      destruct (Hk k Hk0 Hb) as [Ek Hb'].
    + destruct (decide (m * 10 ^ (k + 1) + n < 2 ^ 64)) as [Hlt'|Hge'].
      * left. exists (k + 1). split_and!; try lia. rewrite E.
        rewrite ParseUint_step by lia. f_equal. lia.
      * right. exists (k + 1). lia.
    + right. exists (k + 1). lia.
Qed.

(** [ParseUint] inverts [FormatUint] on every uint64. *)
Lemma ParseUint_FormatUint n : in_u64 n → ParseUint (FormatUint n) = (n, None).
Proof.
  intros Hn. unfold in_u64 in Hn. pow_simpl.
  assert (ParseUint_loop 0 (FormatUint n) = (n, None)) as E.
  { unfold FormatUint. destruct (FormatUint_loop_parse 20 n "" 0)
      as [(k & _ & _ & _ & ->)|(k & _ & _ & Hge)].
    - change (10 ^ Z.of_nat 20) with 100000000000000000000. lia.
    - lia.
    - lia.
    - simpl. by rewrite Z.mul_0_l.
    - rewrite Z.mul_0_l in Hge. pow_simpl. lia. }
  unfold ParseUint. destruct (FormatUint n) eqn:F; [|done].
  unfold FormatUint in F. exfalso.
  assert (∀ fuel n acc, (0 < fuel)%nat ∨ acc ≠ "" → FormatUint_loop fuel n acc ≠ "") as Hne.
  { clear. induction fuel as [|fuel IH]; intros n acc Hf; simpl; [naive_solver lia|].
    case_decide; [done|]. apply IH. by right. }
  by apply (Hne 20%nat n "") in F; [|left; lia].
Qed.

Lemma FormatUint_inj n m : in_u64 n → in_u64 m → FormatUint n = FormatUint m → n = m.
Proof.
  intros Hn Hm E. pose proof (ParseUint_FormatUint n Hn) as E1.
  rewrite E, ParseUint_FormatUint in E1 by done. congruence.
Qed.

Lemma digit_char_ne d c : 0 ≤ d ≤ 9 → (byte_val c < 48 ∨ 57 < byte_val c) → digit_char d ≠ c.
Proof. intros Hd Hc <-. rewrite digit_char_val in Hc by done. lia. Qed.

(** Its output holds digits only. *)
Lemma FormatUint_no_byte n c :
  (byte_val c < 48 ∨ 57 < byte_val c) → str_contains_byte c (FormatUint n) = false.
Proof.
  intros Hc. unfold FormatUint.
  assert (∀ fuel n acc, str_contains_byte c acc = false →
    str_contains_byte c (FormatUint_loop fuel n acc) = false) as E; [|by apply E].
  induction fuel as [|fuel IH]; intros n' acc Ha; simpl; [done|].
  assert (str_contains_byte c (String (digit_char (n' `mod` 10)) acc) = false) as Ha'.
  { simpl. rewrite Ha, orb_false_r. apply bool_decide_false.
    apply digit_char_ne; [|done]. pose proof (Z.mod_pos_bound n' 10). lia. }
  case_decide; [done|]. by apply IH.
Qed.

(** The last occurrence. *)
Lemma LastIndexByte_none s c : str_contains_byte c s = false → LastIndexByte s c = -1.
Proof.
  induction s as [|d s IH]; simpl; [done|]. rewrite orb_false_iff.
  intros [Hd Hs]. rewrite IH by done. case_bool_decide; [done|]. by rewrite !decide_False by (done || lia).
Qed.

Lemma LastIndexByte_app s1 s2 c :
  str_contains_byte c s2 = false → LastIndexByte (s1 +:+ String c s2) c = Z.of_nat (String.length s1).
Proof.
  intros Hs. induction s1 as [|d s1 IH]; simpl.
  - by rewrite LastIndexByte_none, decide_False, decide_True by (done || lia).
  - rewrite IH, decide_True by lia. lia.
Qed.
