(* ===== verification/SafeMap.v ===== *)
(** * al/safemap: the sharded ConcurrentMap and the RWMap

    Every method below runs its accesses to one shard under that shard's lock,
    so on a shard it is one atomic step; the map is modelled as the list of its
    shards.  The shard hash is a parameter: [stringShardHash] is a seeded
    [maphash], and nothing may depend on its values.  [MapImpl] is the interface
    the registry and the pending-reply table are proved against. *)

From S2P Require Import Prelude.
Open Scope Z_scope.

(** A lock-protected map as its clients see it: the operations they use and
    their effect on the abstract finite map [m_abs]. *)
Class MapImpl (M K V : Type) `{Countable K} := {
  m_abs : M → gmap K V;
  m_wf : M → Prop;
  m_get : M → K → option V;
  m_set : M → K → V → option V * M;
  m_set_if_not_exist : M → K → V → option V * M;
  m_remove : M → K → M;
  m_remove_cb : M → K → (K → option V → bool) → bool * M;
  m_pop : M → K → option V * M;
  m_entries : M → list (K * V);
  m_shards : nat;                        (* the locks an iteration takes in turn *)
  m_shard : K → nat;
  m_scan : M → nat → list (K * V);       (* what it sees under the j-th of them *)
  m_get_law : ∀ m k, m_wf m → m_get m k = m_abs m !! k;
  m_set_law : ∀ m k v, m_wf m → m_wf (m_set m k v).2 ∧
    (m_set m k v).1 = m_abs m !! k ∧ m_abs (m_set m k v).2 = <[k := v]> (m_abs m);
  m_set_if_not_exist_law : ∀ m k v, m_wf m → m_wf (m_set_if_not_exist m k v).2 ∧
    (m_set_if_not_exist m k v).1 = m_abs m !! k ∧
    m_abs (m_set_if_not_exist m k v).2
      = match m_abs m !! k with Some _ => m_abs m | None => <[k := v]> (m_abs m) end;
  m_remove_law : ∀ m k, m_wf m → m_wf (m_remove m k) ∧
    m_abs (m_remove m k) = delete k (m_abs m);
  m_remove_cb_law : ∀ m k cb, m_wf m → m_wf (m_remove_cb m k cb).2 ∧
    (m_remove_cb m k cb).1 = cb k (m_abs m !! k) ∧
    m_abs (m_remove_cb m k cb).2
      = if cb k (m_abs m !! k) then delete k (m_abs m) else m_abs m;
  m_pop_law : ∀ m k, m_wf m → m_wf (m_pop m k).2 ∧
    (m_pop m k).1 = m_abs m !! k ∧ m_abs (m_pop m k).2 = delete k (m_abs m);
  m_entries_law : ∀ m, m_wf m → m_entries m ≡ₚ map_to_list (m_abs m);
  m_shard_law : ∀ k, (m_shard k < m_shards)%nat;
  m_scan_law : ∀ m j k v, m_wf m →
    (k, v) ∈ m_scan m j ↔ m_abs m !! k = Some v ∧ m_shard k = j;
  m_entries_scan : ∀ m, m_wf m → m_entries m = concat (m_scan m <$> seq 0 m_shards)
}.
Arguments m_shards M {K V EqDecision0 H _}.
Arguments m_shard M {K V EqDecision0 H _} _.

Module ConcurrentMap.

Definition ShardCount : nat := 32.

Section map.
Context {K V : Type} `{Countable K} (sharding : K → Z).

(** The shards, in index order; the [items] of each. *)
Local Abbreviation cmap := (list (gmap K V)).
Implicit Types m : cmap.

Definition create : cmap := replicate ShardCount ∅.

(** [uint(m.sharding(key)) % uint(ShardCount)], [sharding] returning a uint32. *)
Definition shard_index (key : K) : nat := Z.to_nat (u32 (sharding key) `mod` Z.of_nat ShardCount).

Definition GetShard (m : cmap) (key : K) : gmap K V := default ∅ (m !! shard_index key).

(** Replacing the [items] of the shard that owns [key]. *)
Definition with_shard (m : cmap) (key : K) (items : gmap K V) : cmap :=
  <[shard_index key := items]> m.

(** Each returns the previous value ([None] for "absent") beside the map. *)
Definition Set_ (m : cmap) (key : K) (value : V) : option V * cmap :=
  let shard := GetShard m key in
  (shard !! key, with_shard m key (<[key := value]> shard)).

Definition SetIfNotExist (m : cmap) (key : K) (value : V) : option V * cmap :=
  let shard := GetShard m key in
  match shard !! key with
  | Some v => (Some v, m)
  | None => (None, with_shard m key (<[key := value]> shard))
  end.

Definition Upsert (m : cmap) (key : K) (value : V) (cb : option V → V → V) : V * cmap :=
  let shard := GetShard m key in
  let res := cb (shard !! key) value in
  (res, with_shard m key (<[key := res]> shard)).

Definition SetIfAbsent (m : cmap) (key : K) (value : V) : bool * cmap :=
  let shard := GetShard m key in
  match shard !! key with
  | Some _ => (false, m)
  | None => (true, with_shard m key (<[key := value]> shard))
  end.

Definition Get (m : cmap) (key : K) : option V := GetShard m key !! key.

Definition Count (m : cmap) : nat := foldl (λ count shard, count + size shard)%nat 0%nat m.

Definition Has (m : cmap) (key : K) : bool := bool_decide (is_Some (GetShard m key !! key)).

Definition Remove (m : cmap) (key : K) : cmap :=
  with_shard m key (delete key (GetShard m key)).

Definition RemoveCb (m : cmap) (key : K) (cb : K → option V → bool) : bool * cmap :=
  let shard := GetShard m key in
  let v := shard !! key in
  let remove := cb key v in
  if remove && bool_decide (is_Some v)
  then (remove, with_shard m key (delete key shard))
  else (remove, m).

Definition Pop (m : cmap) (key : K) : option V * cmap :=
  let shard := GetShard m key in
  (shard !! key, with_shard m key (delete key shard)).

Definition IsEmpty (m : cmap) : bool := bool_decide (Count m = 0%nat).

(** [IterCb] visits shard after shard, each in Go's unspecified map order;
    [IterCb_order] is the set of sequences it may visit, [IterCb] one of them. *)
Definition IterCb_order (m : cmap) (l : list (K * V)) : Prop :=
  ∃ ls, Forall2 (λ shard l, l ≡ₚ map_to_list shard) m ls ∧ l = concat ls.

Definition IterCb (m : cmap) : list (K * V) := concat (map_to_list <$> m).

(** Its callbacks under the j-th shard's read lock; between two shards any other
    operation may run. *)
Definition IterCb_shard (m : cmap) (j : nat) : list (K * V) := map_to_list (default ∅ (m !! j)).

(** [snapshot]: one buffered channel per shard, holding its entries. *)
Definition snapshot (m : cmap) : list (list (K * V)) := map_to_list <$> m.

(** [fanIn] merges the channels: any interleaving, here by shard. *)
Definition fanIn (chs : list (list (K * V))) : list (K * V) := concat chs.

Definition IterBuffered (m : cmap) : list (K * V) := fanIn (snapshot m).

Definition Clear (m : cmap) : cmap :=
  foldl (λ m item, Remove m item.1) m (IterBuffered m).

Definition Items (m : cmap) : gmap K V :=
  foldl (λ tmp item, <[item.1 := item.2]> tmp) ∅ (IterBuffered m).

Definition Keys (m : cmap) : list K := concat ((λ shard, (map_to_list shard).*1) <$> m).

(** The map the shards represent, and the invariant that makes it meaningful:
    32 shards, every key in the shard its hash selects. *)
Definition to_map (m : cmap) : gmap K V := ⋃ m.

Definition wf (m : cmap) : Prop :=
  length m = ShardCount ∧
  ∀ i shard k v, m !! i = Some shard → shard !! k = Some v → i = shard_index k.

(** ** The shards represent one map *)

Lemma shard_index_lt k : (shard_index k < ShardCount)%nat.
Proof.
  unfold shard_index, ShardCount.
  pose proof (Z.mod_pos_bound (u32 (sharding k)) 32 ltac:(lia)). lia.
Qed.

Lemma shard_lookup m k : wf m → m !! shard_index k = Some (GetShard m k).
Proof.
  intros [Hl _]. unfold GetShard.
  destruct (lookup_lt_is_Some_2 m (shard_index k)) as [s Hs].
  { rewrite Hl. apply shard_index_lt. }
  by rewrite Hs.
Qed.

Lemma lookup_to_map m k : wf m → to_map m !! k = Get m k.
Proof.
  intros W. unfold Get, to_map. destruct (GetShard m k !! k) as [v|] eqn:E.
  - destruct ((⋃ m) !! k) as [v'|] eqn:E'.
    + apply lookup_union_list_Some_1 in E' as (s & Hs & Hv).
      apply list_elem_of_lookup in Hs as [i Hi].
      pose proof (proj2 W i s k v' Hi Hv) as ->.
      rewrite (shard_lookup m k W) in Hi. simplify_eq. congruence.
    + rewrite lookup_union_list_None, Forall_lookup in E'.
      specialize (E' _ _ (shard_lookup m k W)). congruence.
  - apply lookup_union_list_None, Forall_lookup. intros i s Hi.
    destruct (s !! k) as [v|] eqn:Hv; [|done].
    pose proof (proj2 W i s k v Hi Hv) as ->.
    rewrite (shard_lookup m k W) in Hi. simplify_eq.
Qed.

(** Replacing a key's shard: the map keeps its shape and changes only where the
    shard does. *)
Lemma with_shard_spec m k items :
  wf m → (∀ k' v, items !! k' = Some v → k' = k ∨ GetShard m k !! k' = Some v) →
  wf (with_shard m k items) ∧
  (∀ k', to_map (with_shard m k items) !! k'
         = if decide (shard_index k' = shard_index k) then items !! k' else to_map m !! k').
Proof.
  intros W Hk. pose proof (shard_lookup m k W) as Hs.
  pose proof (lookup_lt_Some _ _ _ Hs) as Hlt.
  assert (wf (with_shard m k items)) as W'.
  { split; [unfold with_shard; rewrite length_insert; apply W|].
    intros i s k' v Hi Hv. unfold with_shard in Hi.
    destruct (decide (i = shard_index k)) as [->|Hne].
    - rewrite list_lookup_insert_eq in Hi by done. simplify_eq.
      destruct (Hk k' v Hv) as [->|Hin]; [done|]. eapply W; eauto.
    - rewrite list_lookup_insert_ne in Hi by done. eapply W; eauto. }
  split; [done|]. intros k'. rewrite !lookup_to_map by done.
  unfold Get at 1, GetShard, with_shard. case_decide as Hd.
  - rewrite Hd. by rewrite list_lookup_insert_eq.
  - by rewrite list_lookup_insert_ne.
Qed.

Lemma insert_shard_spec m k v : wf m →
  wf (with_shard m k (<[k := v]> (GetShard m k))) ∧
  to_map (with_shard m k (<[k := v]> (GetShard m k))) = <[k := v]> (to_map m).
Proof.
  intros W. destruct (with_shard_spec m k (<[k := v]> (GetShard m k)) W) as [W' L].
  { intros k' v' Hv. destruct (decide (k = k')) as [->|]; [by left|].
    rewrite lookup_insert_ne in Hv by done. by right. }
  split; [done|]. apply map_eq. intros k'. rewrite L. case_decide as Hd.
  - destruct (decide (k = k')) as [->|].
    + by rewrite !lookup_insert_eq.
    + rewrite !lookup_insert_ne by done. rewrite (lookup_to_map m k' W).
      unfold Get, GetShard. by rewrite Hd.
  - rewrite lookup_insert_ne by congruence. done.
Qed.

Lemma delete_shard_spec m k : wf m →
  wf (with_shard m k (delete k (GetShard m k))) ∧
  to_map (with_shard m k (delete k (GetShard m k))) = delete k (to_map m).
Proof.
  intros W. destruct (with_shard_spec m k (delete k (GetShard m k)) W) as [W' L].
  { intros k' v' Hv. apply lookup_delete_Some in Hv as [_ Hv]. by right. }
  split; [done|]. apply map_eq. intros k'. rewrite L. case_decide as Hd.
  - destruct (decide (k = k')) as [->|].
    + by rewrite !lookup_delete_eq.
    + rewrite !lookup_delete_ne by done. rewrite (lookup_to_map m k' W).
      unfold Get, GetShard. by rewrite Hd.
  - rewrite lookup_delete_ne by congruence. done.
Qed.

Lemma create_spec : wf create ∧ to_map create = ∅.
Proof.
  assert (wf create) as W.
  { split; [done|]. intros i s k v Hi Hv. apply lookup_replicate in Hi as [-> _].
    by rewrite lookup_empty in Hv. }
  split; [done|]. apply map_eq. intros k. rewrite lookup_to_map by done.
  pose proof (shard_lookup create k W) as Hs. apply lookup_replicate in Hs as [Hs _].
  unfold Get. by rewrite Hs.
Qed.

Lemma IterCb_perm m l : wf m → IterCb_order m l → l ≡ₚ map_to_list (to_map m).
Proof.
  intros W (ls & Hls & ->). apply NoDup_Permutation.
  - assert (∀ n, n = O → (∀ i s k v, m !! i = Some s → s !! k = Some v → (n + i)%nat = shard_index k) →
      NoDup (concat ls).*1) as Hnd.
    { intros n _. revert n. clear W. induction Hls as [|s l m ls Hl Hls IH]; intros n Hw; simpl.
      { constructor. }
      rewrite fmap_app. apply NoDup_app. split_and!.
      - rewrite Hl. apply NoDup_fst_map_to_list.
      - intros k Hk Hk'. apply list_elem_of_fmap in Hk as ([k1 v1] & -> & Hin).
        rewrite Hl, elem_of_map_to_list in Hin.
        apply list_elem_of_fmap in Hk' as ([k2 v2] & Heq & Hin'). simpl in *. subst k2.
        apply list_elem_of_In, in_concat in Hin' as (l' & Hl' & Hin').
        apply list_elem_of_In, list_elem_of_lookup in Hl' as [i Hi].
        destruct (Forall2_lookup_r _ _ _ _ _ Hls Hi) as (s' & Hs' & Hp).
        apply list_elem_of_In in Hin'. rewrite Hp, elem_of_map_to_list in Hin'.
        pose proof (Hw 0%nat s k1 v1 eq_refl Hin) as E1.
        pose proof (Hw (S i) s' k1 v2 Hs' Hin') as E2. lia.
      - apply (IH (S n)). intros i s' k v Hi Hv.
        rewrite <-(Hw (S i) s' k v Hi Hv). lia. }
    eapply NoDup_fmap_1, (Hnd O eq_refl). intros. by eapply W.
  - apply NoDup_map_to_list.
  - intros [k v]. rewrite elem_of_map_to_list, (lookup_to_map m k W). split.
    + intros Hin. apply list_elem_of_In, in_concat in Hin as (l & Hl & Hin).
      apply list_elem_of_In, list_elem_of_lookup in Hl as [i Hi].
      destruct (Forall2_lookup_r _ _ _ _ _ Hls Hi) as (s & Hs & Hp).
      apply list_elem_of_In in Hin. rewrite Hp, elem_of_map_to_list in Hin.
      pose proof (proj2 W i s k v Hs Hin) as ->.
      rewrite (shard_lookup m k W) in Hs. by simplify_eq.
    + intros Hg. pose proof (shard_lookup m k W) as Hs.
      destruct (Forall2_lookup_l _ _ _ _ _ Hls Hs) as (l & Hl & Hp).
      apply list_elem_of_In, in_concat. exists l. split.
      * apply list_elem_of_In, list_elem_of_lookup. eauto.
      * apply list_elem_of_In. by rewrite Hp, elem_of_map_to_list.
Qed.

Lemma IterCb_is_order m : IterCb_order m (IterCb m).
Proof.
  exists (map_to_list <$> m). split; [|done].
  induction m as [|s m IH]; simpl; constructor; [done|]. exact IH.
Qed.

Lemma IterCb_spec m : wf m → IterCb m ≡ₚ map_to_list (to_map m).
Proof. intros W. apply IterCb_perm; [done|]. apply IterCb_is_order. Qed.

Lemma IterCb_shard_spec m j k v : wf m →
  (k, v) ∈ IterCb_shard m j ↔ to_map m !! k = Some v ∧ shard_index k = j.
Proof.
  intros W. unfold IterCb_shard. rewrite elem_of_map_to_list, lookup_to_map by done. unfold Get. split.
  - destruct (m !! j) as [s|] eqn:Ej; cbn [default]; [|by rewrite lookup_empty]. intros Hv.
    pose proof (proj2 W j s k v Ej Hv) as ->. unfold GetShard. by rewrite Ej.
  - intros [Hv <-]. by rewrite (shard_lookup m k W).
Qed.

Lemma IterCb_by_shard m : wf m → IterCb m = concat (IterCb_shard m <$> seq 0 ShardCount).
Proof.
  intros [Hl _]. unfold IterCb. f_equal. apply list_eq. intros i.
  rewrite !list_lookup_fmap. destruct (decide (i < ShardCount)%nat) as [Hi|Hi].
  - rewrite (lookup_seq_lt 0 _ i Hi). cbn. unfold IterCb_shard.
    destruct (lookup_lt_is_Some_2 m i) as [s Hs]; [by rewrite Hl|]. by rewrite Hs.
  - rewrite !lookup_ge_None_2; [done|..]; rewrite ?length_seq, ?Hl; lia.
Qed.

Lemma Count_spec m : wf m → Count m = size (to_map m).
Proof.
  intros W. rewrite <-length_map_to_list, <-(IterCb_spec m W).
  unfold Count, IterCb. clear W.
  assert (∀ n, foldl (λ count (shard : gmap K V), count + size shard)%nat n m
          = (n + length (concat (map_to_list <$> m)))%nat) as E; [|by rewrite E].
  induction m as [|s m IH]; intros n; simpl; [done|].
  rewrite IH, length_app, length_map_to_list. by rewrite Nat.add_assoc.
Qed.

Lemma Items_spec m : wf m → Items m = to_map m.
Proof.
  intros W. unfold Items, IterBuffered, fanIn, snapshot. change (concat _) with (IterCb m).
  assert (∀ l (t : gmap K V), NoDup l.*1 →
    foldl (λ tmp item, <[item.1 := item.2]> tmp) t l = list_to_map l ∪ t) as E.
  { induction l as [|[k v] l IH]; intros t Hnd; simpl; [by rewrite map_empty_union|].
    apply NoDup_cons in Hnd as [Hk Hnd]. rewrite IH by done. simpl in *.
    rewrite <-insert_union_l. rewrite <-insert_union_r; [done|].
    by apply not_elem_of_list_to_map_1. }
  rewrite E, map_union_empty.
  - rewrite (list_to_map_proper (IterCb m) (map_to_list (to_map m))).
    + apply list_to_map_to_list.
    + rewrite (IterCb_spec m W). apply NoDup_fst_map_to_list.
    + by apply IterCb_spec.
  - rewrite (IterCb_spec m W). apply NoDup_fst_map_to_list.
Qed.

Lemma Clear_spec m : wf m → wf (Clear m) ∧ to_map (Clear m) = ∅.
Proof.
  intros W. unfold Clear, IterBuffered, fanIn, snapshot. change (concat _) with (IterCb m).
  assert (∀ l m, wf m → wf (foldl (λ m (item : K * V), Remove m item.1) m l) ∧
    to_map (foldl (λ m (item : K * V), Remove m item.1) m l)
      = foldr delete (to_map m) (l.*1)) as E.
  { induction l as [|[k v] l IH]; intros m' W'; simpl; [done|].
    destruct (delete_shard_spec m' k W') as [W1 E1]. destruct (IH _ W1) as [W2 E2].
    split; [done|]. unfold Remove in *. rewrite E2, E1.
    by rewrite delete_foldr_delete. }
  destruct (E (IterCb m) m W) as [W' ->]. split; [done|].
  apply map_empty. intros k.
  destruct (decide (k ∈ (IterCb m).*1)) as [Hk|Hk].
  - by rewrite lookup_foldr_delete.
  - rewrite lookup_foldr_delete_not_elem_of by done.
    destruct (to_map m !! k) as [v|] eqn:Hv; [|done]. destruct Hk.
    apply elem_of_map_to_list in Hv. rewrite <-(IterCb_spec m W) in Hv.
    apply list_elem_of_fmap. by exists (k, v).
Qed.

Lemma Keys_spec m : wf m → Keys m ≡ₚ (map_to_list (to_map m)).*1.
Proof.
  intros W. rewrite <-(IterCb_spec m W). unfold Keys, IterCb. clear W.
  induction m as [|s m IH]; simpl; [done|]. by rewrite fmap_app, IH.
Qed.

(** ** JSON

    [encoding/json] on Go maps is a parameter: [marshal], [unmarshal]. *)

Section json.
Context (marshal : gmap K V → string) (unmarshal : string → option (gmap K V)).

Definition MarshalJSON (m : cmap) : string :=
  marshal (foldl (λ tmp item, <[item.1 := item.2]> tmp) ∅ (IterBuffered m)).

(** The error, if any, and the map. *)
Definition UnmarshalJSON (b : string) (m : cmap) : bool * cmap :=
  match unmarshal b with
  | None => (true, m)
  | Some tmp => (false, foldl (λ m item, (Set_ m item.1 item.2).2) m (map_to_list tmp))
  end.

Lemma Set_all_spec (l : list (K * V)) m : NoDup l.*1 → wf m →
  wf (foldl (λ m item, (Set_ m item.1 item.2).2) m l) ∧
  to_map (foldl (λ m item, (Set_ m item.1 item.2).2) m l) = list_to_map l ∪ to_map m.
Proof.
  revert m. induction l as [|[k v] l IH]; intros m Hnd W; cbn [foldl fst snd].
  { split; [done|]. symmetry. apply map_empty_union. }
  apply NoDup_cons in Hnd as [Hk Hnd]. destruct (insert_shard_spec m k v W) as [W1 E1].
  destruct (IH _ Hnd W1) as [W2 E2]. change (Set_ m k v).2 with (with_shard m k (<[k:=v]> (GetShard m k))).
  split; [exact W2|]. rewrite E2, E1.
  cbn [list_to_map foldr uncurry fst snd]. rewrite <-insert_union_l. rewrite <-insert_union_r; [done|].
  by apply not_elem_of_list_to_map_1.
Qed.

(** What was written is read back, over whatever the map already holds; a failed
    parse changes nothing. *)
Lemma json_roundtrip_spec m m' : wf m → wf m' → unmarshal (marshal (to_map m)) = Some (to_map m) →
  (UnmarshalJSON (MarshalJSON m) m').1 = false ∧ wf (UnmarshalJSON (MarshalJSON m) m').2 ∧
  to_map (UnmarshalJSON (MarshalJSON m) m').2 = to_map m ∪ to_map m'.
Proof.
  intros W W' E. unfold UnmarshalJSON, MarshalJSON.
  change (foldl _ ∅ (IterBuffered m)) with (Items m). rewrite Items_spec by done. rewrite E. cbn [fst snd].
  split; [done|]. destruct (Set_all_spec (map_to_list (to_map m)) m') as [W1 E1]; [apply NoDup_fst_map_to_list|done|].
  split; [done|]. by rewrite E1, list_to_map_to_list.
Qed.
End json.

(** ** The operations refine those of one finite map *)

Inductive op : Type :=
| OSet (k : K) (v : V)
| OSetIfNotExist (k : K) (v : V)
| OUpsert (k : K) (v : V) (cb : option V → V → V)
| OSetIfAbsent (k : K) (v : V)
| OGet (k : K)
| OHas (k : K)
| ORemove (k : K)
| ORemoveCb (k : K) (cb : K → option V → bool)
| OPop (k : K)
| OCount
| OIsEmpty
| OItems
| OClear.

Inductive res : Type :=
| RUnit
| RVal (v : option V)
| RBool (b : bool)
| RCount (n : nat)
| RItems (m : gmap K V).

Definition cmap_op (o : op) (m : cmap) : res * cmap :=
  match o with
  | OSet k v => let '(r, m) := Set_ m k v in (RVal r, m)
  | OSetIfNotExist k v => let '(r, m) := SetIfNotExist m k v in (RVal r, m)
  | OUpsert k v cb => let '(r, m) := Upsert m k v cb in (RVal (Some r), m)
  | OSetIfAbsent k v => let '(r, m) := SetIfAbsent m k v in (RBool r, m)
  | OGet k => (RVal (Get m k), m)
  | OHas k => (RBool (Has m k), m)
  | ORemove k => (RUnit, Remove m k)
  | ORemoveCb k cb => let '(r, m) := RemoveCb m k cb in (RBool r, m)
  | OPop k => let '(r, m) := Pop m k in (RVal r, m)
  | OCount => (RCount (Count m), m)
  | OIsEmpty => (RBool (IsEmpty m), m)
  | OItems => (RItems (Items m), m)
  | OClear => (RUnit, Clear m)
  end.

Definition spec_op (o : op) (m : gmap K V) : res * gmap K V :=
  match o with
  | OSet k v => (RVal (m !! k), <[k := v]> m)
  | OSetIfNotExist k v => (RVal (m !! k), match m !! k with Some _ => m | None => <[k := v]> m end)
  | OUpsert k v cb => (RVal (Some (cb (m !! k) v)), <[k := cb (m !! k) v]> m)
  | OSetIfAbsent k v =>
      match m !! k with Some _ => (RBool false, m) | None => (RBool true, <[k := v]> m) end
  | OGet k => (RVal (m !! k), m)
  | OHas k => (RBool (bool_decide (is_Some (m !! k))), m)
  | ORemove k => (RUnit, delete k m)
  | ORemoveCb k cb => (RBool (cb k (m !! k)), if cb k (m !! k) then delete k m else m)
  | OPop k => (RVal (m !! k), delete k m)
  | OCount => (RCount (size m), m)
  | OIsEmpty => (RBool (bool_decide (m = ∅)), m)
  | OItems => (RItems m, m)
  | OClear => (RUnit, ∅)
  end.

Fixpoint run_cmap (ops : list op) (m : cmap) : list res * cmap :=
  match ops with
  | [] => ([], m)
  | o :: ops => let '(r, m) := cmap_op o m in
                let '(rs, m) := run_cmap ops m in (r :: rs, m)
  end.

Fixpoint run_spec (ops : list op) (m : gmap K V) : list res * gmap K V :=
  match ops with
  | [] => ([], m)
  | o :: ops => let '(r, m) := spec_op o m in
                let '(rs, m) := run_spec ops m in (r :: rs, m)
  end.

Lemma GetShard_lookup m k : wf m → GetShard m k !! k = to_map m !! k.
Proof. intros W. by rewrite lookup_to_map. Qed.

Lemma RemoveCb_spec m k cb : wf m → wf (RemoveCb m k cb).2 ∧
  (RemoveCb m k cb).1 = cb k (to_map m !! k) ∧
  to_map (RemoveCb m k cb).2 = if cb k (to_map m !! k) then delete k (to_map m) else to_map m.
Proof.
  intros W. unfold RemoveCb. rewrite GetShard_lookup by done.
  destruct (cb k (to_map m !! k)) eqn:Ecb; simpl; [|done].
  case_bool_decide as Hs; simpl.
  - split_and!; [apply delete_shard_spec; done|done|]. by apply delete_shard_spec.
  - rewrite delete_id; [done|]. by apply eq_None_not_Some.
Qed.

Lemma cmap_op_spec o m : wf m → wf (cmap_op o m).2 ∧
  (cmap_op o m).1 = (spec_op o (to_map m)).1 ∧
  to_map (cmap_op o m).2 = (spec_op o (to_map m)).2.
Proof.
  intros W. destruct o; simpl; unfold Set_, SetIfNotExist, Upsert, SetIfAbsent, Get, Has,
    Remove, Pop, IsEmpty; rewrite ?GetShard_lookup, ?Count_spec by done;
    try (destruct (insert_shard_spec m k v W)); try (destruct (delete_shard_spec m k W)); simpl; auto.
  - destruct (to_map m !! k); simpl; auto.
  - destruct (insert_shard_spec m k (cb (to_map m !! k) v) W). auto.
  - destruct (to_map m !! k); simpl; auto.
  - destruct (RemoveCb_spec m k cb W) as (? & E1 & ?).
    destruct (RemoveCb m k cb). simpl in *. by rewrite E1.
  - split_and!; [done| |done]. f_equal. apply bool_decide_ext. apply map_size_empty_iff.
  - rewrite Items_spec by done. auto.
  - destruct (Clear_spec m W). auto.
Qed.

(** [C36] The sharded map of al/safemap/concurrentmap.go behaves as one finite
    map whatever the shard hash is: from [create], any sequence of Set,
    SetIfNotExist, Upsert, SetIfAbsent, Get, Has, Remove, RemoveCb, Pop, Count,
    IsEmpty, Items and Clear calls returns what a single map returns, and the
    shards then hold exactly that map's entries, each key in its own shard. *)
Theorem cmap_refines_map (ops : list op) :
  (run_cmap ops create).1 = (run_spec ops ∅).1 ∧
  to_map (run_cmap ops create).2 = (run_spec ops ∅).2 ∧
  wf (run_cmap ops create).2.
Proof.
  destruct create_spec as [W E]. rewrite <-E. revert W. clear E.
  generalize create as m. induction ops as [|o ops IH]; intros m W; simpl; [done|].
  destruct (cmap_op_spec o m W) as (W1 & R1 & E1).
  destruct (cmap_op o m) as [r1 m1], (spec_op o (to_map m)) as [r1' m1']. simpl in *. subst.
  destruct (IH m1 W1) as (R2 & E2 & W2).
  destruct (run_cmap ops m1), (run_spec ops (to_map m1)). simpl in *. by subst.
Qed.

#[export] Program Instance cmap_impl : MapImpl cmap K V := {|
  m_abs := to_map;
  m_wf := wf;
  m_get := Get;
  m_set := Set_;
  m_set_if_not_exist := SetIfNotExist;
  m_remove := Remove;
  m_remove_cb := RemoveCb;
  m_pop := Pop;
  m_entries := IterCb;
  m_shards := ShardCount;
  m_shard := shard_index;
  m_scan := IterCb_shard
|}.
Next Obligation. intros. by rewrite lookup_to_map. Qed.
Next Obligation.
  intros m k v W. unfold Set_. simpl. destruct (insert_shard_spec m k v W).
  by rewrite GetShard_lookup.
Qed.
Next Obligation.
  intros m k v W. unfold SetIfNotExist. rewrite GetShard_lookup by done.
  destruct (insert_shard_spec m k v W). by destruct (to_map m !! k).
Qed.
Next Obligation. intros. by apply delete_shard_spec. Qed.
Next Obligation. intros. by apply RemoveCb_spec. Qed.
Next Obligation.
  intros m k W. unfold Pop. simpl. destruct (delete_shard_spec m k W).
  by rewrite GetShard_lookup.
Qed.
Next Obligation. intros. by apply IterCb_spec. Qed.
Next Obligation. intros. apply shard_index_lt. Qed.
Next Obligation. intros. by apply IterCb_shard_spec. Qed.
Next Obligation. intros. by apply IterCb_by_shard. Qed.
End map.

(** [intFnv32]: FNV-1 over the 8 little-endian bytes of the key. *)
Fixpoint intFnv32_loop (n : nat) (hash u : Z) : Z :=
  match n with
  | O => hash
  | S n => intFnv32_loop n (Z.lxor (hash *u32 16777619)%go (u32 (Z.land u 255))) (Z.shiftr u 8)
  end.
Definition intFnv32 (key : Z) : Z := intFnv32_loop 8 2166136261 (u64 key).

(** [stringFnv32]: the same over the bytes of a string. *)
Fixpoint stringFnv32_loop (hash : Z) (key : string) : Z :=
  match key with
  | EmptyString => hash
  | String c key => stringFnv32_loop (Z.lxor (hash *u32 16777619)%go (Z.of_N (Ascii.N_of_ascii c))) key
  end.
Definition stringFnv32 (key : string) : Z := stringFnv32_loop 2166136261 key.

(** [stringerFnv32], for keys with a String method. *)
Definition stringerFnv32 {K : Type} (String_ : K → string) (key : K) : Z := stringFnv32 (String_ key).
End ConcurrentMap.

(** rwmap.go: one map under one RWMutex. *)
Module RWMap.
Section rwmap.
Context {K V : Type} `{Countable K}.
Implicit Types m : gmap K V.

Definition NewRWMap : gmap K V := ∅.
Definition Get m (key : K) : option V := m !! key.
Definition GetOrCreate m (key : K) (create : unit → V) : V * gmap K V :=
  match m !! key with
  | Some val => (val, m)
  | None => let val := create tt in (val, <[key := val]> m)
  end.
Definition Set_ m (key : K) (value : V) : gmap K V := <[key := value]> m.
Definition Delete m (key : K) : gmap K V := delete key m.
Definition Len m : nat := size m.

(** [Range] calls [f], which threads a state [S], until it returns false. *)
Fixpoint Range_loop {S} (f : K → V → S → bool * S) (l : list (K * V)) (s : S) : S :=
  match l with
  | [] => s
  | (k, v) :: l => let '(continue, s) := f k v s in
                   if continue then Range_loop f l s else s
  end.
Definition Range {S} m (f : K → V → S → bool * S) (s : S) : S :=
  Range_loop f (map_to_list m) s.
End rwmap.
End RWMap.
