(* ===== verification/ActorId.v ===== *)
(** * Actor ids and references

    actor_name.go, actor_parse.go, actor_ref.go, actor_wrapper.go and
    reply_ref.go: the names an actor may have, the textual id
    "type/kind/name@addr" and the two implementations of [ActorRef]. *)

From S2P Require Import Prelude GoStrings.
Open Scope Z_scope.

(** The id constants of config.go. *)
Definition defaultActDirect : string := "direct".
Definition defaultActCluster : string := "cluster".
Definition defaultLocalKind : string := "local".
Definition defaultSystemKind : string := "system".
Definition defaultReplyKind : string := "reply".
Definition defaultWriteStreamKind : string := "write_stream".

(** ** Names (actor_name.go) *)

Definition invalidNameChars : string := "/@".

(** The errors that wrap [ErrInvalidName], with the data they print. *)
Inductive name_error : Type :=
| NameIsEmpty
| NameContains (name : string) (sep : option ascii)
| KindIsEmpty
| KindContains (kind : string) (sep : option ascii).

(** [name[i]] *)
Definition str_get (s : string) (i : Z) : option ascii := String.get (Z.to_nat i) s.

Definition ValidateActorName (name : string) : option name_error :=
  if decide (name = "") then Some NameIsEmpty
  else
    let i := IndexAny name invalidNameChars in
    if decide (0 ≤ i) then Some (NameContains name (str_get name i)) else None.

Definition validateKindName (kind : string) : option name_error :=
  if decide (kind = "") then Some KindIsEmpty
  else
    let i := IndexAny kind invalidNameChars in
    if decide (0 ≤ i) then Some (KindContains kind (str_get kind i)) else None.

(** ** Parsing (actor_parse.go) *)

Record cacheParse : Type := CacheParse {
  d8c : string;
  kind : string;
  name : string;
  directAddr : string
}.

#[export] Instance cacheParse_eq_dec : EqDecision cacheParse.
Proof. solve_decision. Defined.

Definition noParse : cacheParse := CacheParse "" "" "" "".

Definition parseCache (fullPath : string) : cacheParse :=
  let i := IndexByte fullPath "/" in
  if decide (i < 0) then noParse else
  let rest := str_drop (Z.to_nat (i + 1)) fullPath in
  let j := IndexByte rest "/" in
  if decide (j < 0) then noParse else
  let name := str_drop (Z.to_nat (j + 1)) rest in
  if decide (0 ≤ IndexByte name "/") then noParse else
  let typ := str_take (Z.to_nat i) fullPath in
  let kind := str_take (Z.to_nat j) rest in
  let k := IndexByte name "@" in
  if decide (0 ≤ k) then
    let directAddr := str_drop (Z.to_nat (k + 1)) name in
    let name := str_take (Z.to_nat k) name in
    let k2 := IndexByte directAddr "@" in
    let directAddr := if decide (0 ≤ k2) then str_take (Z.to_nat k2) directAddr else directAddr in
    CacheParse typ kind name directAddr
  else CacheParse typ kind name "".

(** ** References (actor_wrapper.go, reply_ref.go)

    A reference is a heap object: [ptr] is its address, which is also where its
    own [actorRouteCache] lives, so equality of [actorIdWrapper]s is Go's
    pointer equality.  [system] is the identity of the owning system. *)

Record actorIdWrapper : Type := ActorIdWrapper {
  parsed : cacheParse;
  fullPath : string;
  wsystem : nat;
  ptr : nat
}.

Record replyRef : Type := ReplyRef {
  snId : Z;
  raddr : string;
  rsystem : nat
}.

Inductive ActorRef : Type :=
| IdRef (w : actorIdWrapper)
| ReplyTo (r : replyRef).

#[export] Instance actorIdWrapper_eq_dec : EqDecision actorIdWrapper.
Proof. solve_decision. Defined.
#[export] Instance replyRef_eq_dec : EqDecision replyRef.
Proof. solve_decision. Defined.
#[export] Instance ActorRef_eq_dec : EqDecision ActorRef.
Proof. solve_decision. Defined.

Definition newActorRefFromAID (aid : string) (system ptr : nat) : ActorRef :=
  IdRef (ActorIdWrapper (parseCache aid) aid system ptr).

Definition newDirectActorRef (kind name addr : string) (system ptr : nat) : ActorRef :=
  let fullPath := defaultActDirect +:+ "/" +:+ kind +:+ "/" +:+ name +:+ "@" +:+ addr in
  IdRef (ActorIdWrapper (parseCache fullPath) fullPath system ptr).

Definition newClusterActorRef (kind name : string) (system ptr : nat) : ActorRef :=
  let fullPath := defaultActCluster +:+ "/" +:+ kind +:+ "/" +:+ name in
  IdRef (ActorIdWrapper (parseCache fullPath) fullPath system ptr).

Definition newReplyRef (snId : Z) (addr : string) (system : nat) : ActorRef :=
  ReplyTo (ReplyRef snId addr system).

Definition GetSystem (r : ActorRef) : nat :=
  match r with IdRef w => wsystem w | ReplyTo r => rsystem r end.

Definition GetType (w : actorIdWrapper) : string := d8c (parsed w).

Definition GetKind (r : ActorRef) : string :=
  match r with IdRef w => kind (parsed w) | ReplyTo _ => defaultReplyKind end.

Definition GetName (r : ActorRef) : string :=
  match r with IdRef w => name (parsed w) | ReplyTo r => FormatUint (snId r) end.

Definition GetDirectAddr (r : ActorRef) : string :=
  match r with IdRef w => directAddr (parsed w) | ReplyTo r => raddr r end.

Definition GetId (r : ActorRef) : string :=
  match r with
  | IdRef w => fullPath w
  | ReplyTo r => defaultActDirect +:+ "/" +:+ defaultReplyKind +:+ "/" +:+
                 FormatUint (snId r) +:+ "@" +:+ raddr r
  end.

Definition isDirect (r : ActorRef) : bool :=
  match r with IdRef w => bool_decide (GetType w = defaultActDirect) | ReplyTo _ => true end.

Definition isCluster (r : ActorRef) : bool :=
  match r with IdRef w => bool_decide (GetType w = defaultActCluster) | ReplyTo _ => false end.

Definition isAsk (r : ActorRef) : bool :=
  match r with IdRef w => bool_decide (kind (parsed w) = defaultReplyKind) | ReplyTo _ => true end.

Definition askSnId (r : ActorRef) : Z :=
  match r with IdRef w => (ParseUint (name (parsed w))).1 | ReplyTo r => snId r end.

(** The address of the reference's route cache; a reply has none. *)
Definition routeCache (r : ActorRef) : option nat :=
  match r with IdRef w => Some (ptr w) | ReplyTo _ => None end.

(** ** The reference parser

    What [parseCache] replaced: [strings.Split] at every separator. *)

Fixpoint Split (s : string) (sep : ascii) : list string :=
  match s with
  | EmptyString => [""]
  | String c s =>
      if decide (c = sep) then "" :: Split s sep
      else match Split s sep with
           | p :: ps => String c p :: ps
           | [] => [String c ""]
           end
  end.

Definition parse_by_split (fullPath : string) : cacheParse :=
  match Split fullPath "/" with
  | [typ; kind; last] =>
      match Split last "@" with
      | name :: addr :: _ => CacheParse typ kind name addr
      | [name] => CacheParse typ kind name ""
      | [] => noParse
      end
  | _ => noParse
  end.

(** ** Lemmas *)

Definition no_byte (c : ascii) (s : string) : Prop := str_contains_byte c s = false.

Definition valid_name (s : string) : Prop := s ≠ "" ∧ no_byte "/" s ∧ no_byte "@" s.

Lemma no_byte_app c s1 s2 : no_byte c s1 → no_byte c s2 → no_byte c (s1 +:+ s2).
Proof. unfold no_byte. intros H1 H2. by rewrite str_contains_app, H1, H2. Qed.

Lemma Split_ne s c : Split s c ≠ [].
Proof. destruct s; simpl; [done|]. case_decide; [done|]. by destruct (Split s c). Qed.

Lemma Split_no_byte s c : no_byte c s → Split s c = [s].
Proof.
  unfold no_byte. induction s as [|d s IH]; simpl; [done|]. rewrite orb_false_iff.
  intros [Hd Hs]. case_bool_decide; [done|]. by rewrite decide_False, IH.
Qed.

Lemma Split_app s1 s2 c : no_byte c s1 → Split (s1 +:+ String c s2) c = s1 :: Split s2 c.
Proof.
  unfold no_byte. induction s1 as [|d s1 IH]; simpl; [by rewrite decide_True|].
  rewrite orb_false_iff. intros [Hd Hs]. case_bool_decide; [done|].
  by rewrite decide_False, IH.
Qed.

Lemma ValidateActorName_spec s : ValidateActorName s = None ↔ valid_name s.
Proof.
  unfold ValidateActorName, valid_name, no_byte. case_decide as He; [naive_solver|].
  pose proof (IndexAny_none s invalidNameChars) as Hi. unfold invalidNameChars in *.
  assert (-1 ≤ IndexAny s "/@") as Hge.
  { clear He Hi. induction s as [|d s IH]; simpl; [done|]. destruct (_ || _); [done|].
    case_decide; lia. }
  assert ((∀ c, str_contains_byte c "/@" = true → str_contains_byte c s = false) ↔
    str_contains_byte "/" s = false ∧ str_contains_byte "@" s = false) as Hc.
  { split; [by intros Hc; split; apply Hc|]. intros [H1 H2] c. simpl.
    rewrite orb_false_r, orb_true_iff, !bool_decide_eq_true. by intros [<-|<-]. }
  case_decide as Hd.
  - split; [done|]. intros (_ & H1 & H2).
    assert (IndexAny s "/@" = -1) by (by apply Hi, Hc). lia.
  - split; [|done]. intros _. split; [done|]. apply Hc, Hi. lia.
Qed.

(** The byte before the first separator, the rest after it. *)
Lemma cut_app s1 s2 c :
  no_byte c s1 →
  IndexByte (s1 +:+ String c s2) c = Z.of_nat (String.length s1) ∧
  str_take (Z.to_nat (Z.of_nat (String.length s1))) (s1 +:+ String c s2) = s1 ∧
  str_drop (Z.to_nat (Z.of_nat (String.length s1) + 1)) (s1 +:+ String c s2) = s2.
Proof.
  intros Hs. rewrite IndexByte_app by done.
  replace (Z.to_nat (Z.of_nat (String.length s1) + 1)) with (String.length s1 + 1)%nat by lia.
  rewrite str_drop_app, Nat2Z.id, str_take_app. done.
Qed.

(** [parseCache] on a string with its separators exposed. *)
Lemma parseCache_name typ k nm :
  no_byte "/" typ → no_byte "/" k → no_byte "/" nm → no_byte "@" nm →
  parseCache (typ +:+ String "/" (k +:+ String "/" nm)) = CacheParse typ k nm "".
Proof.
  intros Ht Hk Hn Ha. unfold parseCache.
  destruct (cut_app typ (k +:+ String "/" nm) "/" Ht) as (-> & -> & ->).
  rewrite decide_False by lia.
  destruct (cut_app k nm "/" Hk) as (-> & -> & ->). rewrite decide_False by lia.
  rewrite (IndexByte_none nm "/") by done. rewrite decide_False by lia.
  rewrite (IndexByte_none nm "@") by done. by rewrite decide_False by lia.
Qed.

Lemma parseCache_addr typ k nm rest :
  no_byte "/" typ → no_byte "/" k → no_byte "/" nm → no_byte "@" nm → no_byte "/" rest →
  parseCache (typ +:+ String "/" (k +:+ String "/" (nm +:+ String "@" rest)))
  = CacheParse typ k nm
      (let i := IndexByte rest "@" in
       if decide (0 ≤ i) then str_take (Z.to_nat i) rest else rest).
Proof.
  intros Ht Hk Hn Ha Hr. unfold parseCache.
  destruct (cut_app typ (k +:+ String "/" (nm +:+ String "@" rest)) "/" Ht) as (-> & -> & ->).
  rewrite decide_False by lia.
  destruct (cut_app k (nm +:+ String "@" rest) "/" Hk) as (-> & -> & ->).
  rewrite decide_False by lia.
  rewrite (IndexByte_none (nm +:+ String "@" rest) "/").
  2:{ apply no_byte_app; [done|]. by unfold no_byte. }
  rewrite decide_False by lia.
  destruct (cut_app nm rest "@" Ha) as (-> & -> & ->). by rewrite decide_True by lia.
Qed.

(** [parseCache] (actor_parse.go), which slices at byte indices and
    allocates nothing, computes on every input, well formed or hostile, what
    splitting at '/' into exactly three pieces and then at '@' computes,
    including the discarded tail after a second '@' and the all-empty result
    for any other shape. *)
Theorem parseCache_is_split (s : string) : parseCache s = parse_by_split s.
Proof.
  unfold parse_by_split.
  destruct (IndexByte_inv s "/") as [[Hi Hs]|(typ & s1 & -> & Ht & Hi)].
  { rewrite Split_no_byte by done. unfold parseCache. by rewrite Hi. }
  rewrite Split_app by done.
  destruct (IndexByte_inv s1 "/") as [[Hj Hs]|(k & s2 & -> & Hk & Hj)].
  { rewrite Split_no_byte by done. unfold parseCache.
    destruct (cut_app typ s1 "/" Ht) as (-> & -> & ->).
    rewrite decide_False by lia. by rewrite Hj. }
  rewrite Split_app by done.
  destruct (IndexByte_inv s2 "/") as [[Hl Hs]|(nm & s3 & -> & Hn & Hl)].
  - rewrite Split_no_byte by done.
    destruct (IndexByte_inv s2 "@") as [[Hm Hs2]|(nm & s3 & -> & Hn & Hm)].
    + rewrite (Split_no_byte s2) by done. by rewrite parseCache_name.
    + unfold no_byte in *. rewrite str_contains_app in Hs. simpl in Hs.
      apply orb_false_iff in Hs as [Hs1 Hs3].
      rewrite Split_app by done. rewrite parseCache_addr by done. simpl.
      destruct (IndexByte_inv s3 "@") as [[-> H3]|(a & s4 & -> & H3 & Hq)].
      * by rewrite Split_no_byte.
      * rewrite Split_app by done. destruct (cut_app a s4 "@" H3) as (-> & -> & _).
        rewrite decide_True by lia. done.
  - rewrite Split_app by done. pose proof (Split_ne s3 "/") as Hne.
    destruct (Split s3 "/"); [done|]. unfold parseCache.
    destruct (cut_app typ (k +:+ String "/" (nm +:+ String "/" s3)) "/" Ht) as (-> & -> & ->).
    rewrite decide_False by lia.
    destruct (cut_app k (nm +:+ String "/" s3) "/" Hk) as (-> & -> & ->).
    rewrite decide_False by lia. rewrite Hl. by rewrite decide_True by lia.
Qed.

Lemma direct_id_shape k nm addr :
  defaultActDirect +:+ "/" +:+ k +:+ "/" +:+ nm +:+ "@" +:+ addr
  = defaultActDirect +:+ String "/" (k +:+ String "/" (nm +:+ String "@" addr)).
Proof. done. Qed.

Lemma parse_direct k nm addr :
  no_byte "/" k → valid_name nm → no_byte "/" addr → no_byte "@" addr →
  parseCache (defaultActDirect +:+ "/" +:+ k +:+ "/" +:+ nm +:+ "@" +:+ addr)
  = CacheParse defaultActDirect k nm addr.
Proof.
  intros Hk (_ & Hn & Ha) Hr Hr2. rewrite direct_id_shape, parseCache_addr by done.
  by rewrite IndexByte_none.
Qed.

Lemma parse_cluster k nm :
  no_byte "/" k → valid_name nm →
  parseCache (defaultActCluster +:+ "/" +:+ k +:+ "/" +:+ nm)
  = CacheParse defaultActCluster k nm "".
Proof. intros Hk (_ & Hn & Ha). by apply (parseCache_name defaultActCluster k nm). Qed.

(** [C39] A reference survives the wire: for a kind and name that
    [validateKindName]/[ValidateActorName] accept and an address without
    separators, parsing the id of a direct or of a cluster reference
    ([newActorRefFromAID] of [GetId], what [RecvEnvelope] does) gives back its
    type, kind, name and address; so two such references with the same id
    agree in all of them. *)
Theorem actor_id_roundtrip (k nm addr : string) (sys p p' : nat)
    (Hk : validateKindName k = None) (Hn : ValidateActorName nm = None)
    (Ha1 : no_byte "/" addr) (Ha2 : no_byte "@" addr) :
  let direct := newActorRefFromAID (GetId (newDirectActorRef k nm addr sys p)) sys p' in
  let cluster := newActorRefFromAID (GetId (newClusterActorRef k nm sys p)) sys p' in
  (isDirect direct = true ∧ isCluster direct = false ∧ GetKind direct = k ∧
   GetName direct = nm ∧ GetDirectAddr direct = addr) ∧
  (isDirect cluster = false ∧ isCluster cluster = true ∧ GetKind cluster = k ∧
   GetName cluster = nm ∧ GetDirectAddr cluster = "").
Proof.
  apply ValidateActorName_spec in Hn.
  assert (no_byte "/" k) as Hk'.
  { assert (ValidateActorName k = None) as Hk2.
    { revert Hk. unfold validateKindName, ValidateActorName.
      repeat case_decide; done. }
    apply ValidateActorName_spec in Hk2. apply Hk2. }
  pose proof (parse_direct k nm addr Hk' Hn Ha1 Ha2) as E1.
  pose proof (parse_cluster k nm Hk' Hn) as E2.
  unfold newActorRefFromAID, newDirectActorRef, newClusterActorRef, isDirect, isCluster,
    GetType, GetKind, GetName, GetDirectAddr; cbn [GetId fullPath parsed]; cbv zeta.
  rewrite E1, E2. done.
Qed.

Lemma actor_id_roundtrip_witness :
  validateKindName "player" = None ∧ ValidateActorName "u-1001" = None ∧
  no_byte "/" "10.0.0.7:4000" ∧ no_byte "@" "10.0.0.7:4000" ∧
  isDirect (newActorRefFromAID (GetId (newDirectActorRef "player" "u-1001" "10.0.0.7:4000" 0 0)) 0 1) = true.
Proof.
  split_and!; [reflexivity..|].
  apply (actor_id_roundtrip "player" "u-1001" "10.0.0.7:4000" 0 0 1); reflexivity.
Defined.

(** A reply reference survives the wire: the id a remote node receives for
    an Ask's sender parses to a direct reference of the asking node that
    [isAsk] recognises and whose [askSnId] is the correlation id, for every
    uint64 id. *)
Theorem reply_ref_roundtrip (sn : Z) (addr : string) (sys p : nat)
    (Hsn : in_u64 sn) (Ha1 : no_byte "/" addr) (Ha2 : no_byte "@" addr) :
  let r := newReplyRef sn addr sys in
  let w := newActorRefFromAID (GetId r) sys p in
  isDirect w = isDirect r ∧ isCluster w = isCluster r ∧ isAsk w = isAsk r ∧
  askSnId w = askSnId r ∧ GetKind w = GetKind r ∧ GetName w = GetName r ∧
  GetDirectAddr w = GetDirectAddr r.
Proof.
  assert (valid_name (FormatUint sn)) as Hv.
  { split_and!.
    - intros E. pose proof (ParseUint_FormatUint sn Hsn) as Hp. by rewrite E in Hp.
    - apply FormatUint_no_byte. left. done.
    - apply FormatUint_no_byte. right. done. }
  intros r w.
  assert (parseCache (GetId r) = CacheParse defaultActDirect defaultReplyKind (FormatUint sn) addr)
    as E by (by apply parse_direct).
  unfold w, newActorRefFromAID, isDirect, isCluster, isAsk, askSnId, GetType, GetKind,
    GetName, GetDirectAddr; cbn [parsed]. rewrite E. simpl.
  by rewrite ParseUint_FormatUint.
Qed.

Lemma reply_ref_roundtrip_witness :
  in_u64 (2 ^ 64 - 1) ∧
  askSnId (newActorRefFromAID (GetId (newReplyRef (2 ^ 64 - 1) "10.0.0.7:4000" 0)) 0 1) = 2 ^ 64 - 1.
Proof.
  split; [unfold in_u64; lia|].
  apply (reply_ref_roundtrip (2 ^ 64 - 1) "10.0.0.7:4000" 0 1); [unfold in_u64; lia|reflexivity..].
Defined.

(** Why [ValidateActorName] exists: a reference built from a non-empty name
    it refuses never parses back to that name.  With a '/' in the name every
    field of a cluster reference is empty (it is neither direct nor cluster, so
    no node can activate it); otherwise an '@' cuts the name short. *)
Theorem invalid_name_unroutable (k nm : string) (sys p : nat)
    (Hk : validateKindName k = None) (Hne : nm ≠ "") (Hn : ValidateActorName nm ≠ None) :
  let r := newClusterActorRef k nm sys p in
  GetName r ≠ nm ∧
  (no_byte "/" nm ∨ (isDirect r = false ∧ isCluster r = false ∧ GetKind r = "" ∧ GetName r = "")).
Proof.
  assert (no_byte "/" k) as Hk'.
  { assert (ValidateActorName k = None) as Hk2.
    { revert Hk. unfold validateKindName, ValidateActorName.
      repeat case_decide; done. }
    apply ValidateActorName_spec in Hk2. apply Hk2. }
  intros r.
  unfold isDirect, isCluster, GetKind, GetName, GetType, r, newClusterActorRef;
    cbn [parsed]; clear r; cbv zeta.
  destruct (IndexByte_inv nm "/") as [[_ Hs]|(n1 & n2 & -> & H1 & _)].
  - split; [|by left].
    destruct (IndexByte_inv nm "@") as [[_ Ha]|(n1 & n2 & E & H1 & _)].
    { destruct Hn. by apply ValidateActorName_spec. }
    subst nm. unfold no_byte in Hs. rewrite str_contains_app in Hs.
    apply orb_false_iff in Hs as [Hs1 Hs2].
    change (defaultActCluster +:+ "/" +:+ k +:+ "/" +:+ n1 +:+ String "@" n2) with
      (defaultActCluster +:+ String "/" (k +:+ String "/" (n1 +:+ String "@" n2))).
    rewrite parseCache_addr by done. simpl.
    intros E. apply (f_equal String.length) in E. rewrite str_length_app in E. simpl in E. lia.
  - assert (parseCache (defaultActCluster +:+ "/" +:+ k +:+ "/" +:+ n1 +:+ String "/" n2)
      = noParse) as E.
    { change (defaultActCluster +:+ "/" +:+ k +:+ "/" +:+ n1 +:+ String "/" n2) with
        (defaultActCluster +:+ String "/" (k +:+ String "/" (n1 +:+ String "/" n2))).
      unfold parseCache.
      destruct (cut_app defaultActCluster (k +:+ String "/" (n1 +:+ String "/" n2)) "/" eq_refl)
        as (-> & -> & ->).
      rewrite decide_False by lia.
      destruct (cut_app k (n1 +:+ String "/" n2) "/" Hk') as (-> & -> & ->).
      rewrite decide_False by lia.
      rewrite IndexByte_app by done. by rewrite decide_True by lia. }
    rewrite E. simpl. split; [|by right]. by destruct n1.
Qed.

Lemma invalid_name_unroutable_witness :
  validateKindName "player" = None ∧ ValidateActorName "a/b" ≠ None ∧
  GetName (newClusterActorRef "player" "a/b" 0 0) ≠ "a/b".
Proof.
  split_and!; [reflexivity|discriminate|].
  apply (invalid_name_unroutable "player" "a/b" 0 0); [reflexivity|discriminate|discriminate].
Defined.
