(* ===== verification/Uuid.v ===== *)
(** * uuid/uuid.go, uuid/uuid_global.go: the id generator

    42 bits of milliseconds since the epoch, 10 bits of node id, 12 bits of
    sequence.  The clock is the environment: [nowMs] consumes the next reading
    of [time.Since(n.baseMono).Milliseconds()] from a list, and the lists a
    monotonic clock can produce are the non-decreasing ones.  [None] means the
    readings supplied ran out, i.e. the caller is still waiting. *)

From S2P Require Import Prelude.
Open Scope Z_scope.

Definition totalBits : Z := 64.
Definition nodeBits : Z := 10.
Definition stepBits : Z := 12.
Definition nodeMax : Z := u64 (Z.lxor (-1) (Z.shiftl (-1) nodeBits)).
Definition stepMax : Z := u64 (Z.lxor (-1) (Z.shiftl (-1) stepBits)).
Definition timeShift : Z := nodeBits + stepBits.
Definition nodeShift : Z := stepBits.
Definition epoch : Z := 1735689600000.

Record UUID : Type := MkUUID {
  timestamp : Z;
  node : Z;
  step : Z;
  baseWall : Z
}.

(** [NewUUID]: [None] is the "node number" error; [now] is [base.UnixMilli()]. *)
Definition NewUUID (node now : Z) : option UUID :=
  if decide (nodeMax < node) then None
  else Some (MkUUID 0 node 0 (Z.max now epoch)).

Definition nowMs (n : UUID) (elapsed : Z) : Z := (baseWall n +i64 elapsed)%go.

(** [for now <= n.timestamp { now = n.nowMs() }] *)
Fixpoint wait_next (n : UUID) (now : Z) (clock : list Z) : option (Z * list Z) :=
  if decide (now ≤ timestamp n) then
    match clock with
    | [] => None
    | e :: clock => wait_next n (nowMs n e) clock
    end
  else Some (now, clock).

Definition pack (now node step : Z) : Z :=
  Z.lor (Z.lor ((u64 now -u64 epoch) <<u64 timeShift)%go (node <<u64 nodeShift)%go) step.

Definition Generate (n : UUID) (clock : list Z) : option (Z * UUID * list Z) :=
  match clock with
  | [] => None
  | e :: clock =>
      let now := nowMs n e in
      let now := if decide (now < timestamp n) then timestamp n else now in
      if decide (timestamp n = now) then
        let step := Z.land (step n +u64 1)%go stepMax in
        let n1 := MkUUID (timestamp n) (node n) step (baseWall n) in
        if decide (step = 0) then
          '(now, clock) ← wait_next n1 now clock;
          Some (pack now (node n) step, MkUUID now (node n) step (baseWall n), clock)
        else Some (pack now (node n) step, MkUUID now (node n) step (baseWall n), clock)
      else
        Some (pack now (node n) 0, MkUUID now (node n) 0 (baseWall n), clock)
  end.

Definition MaxNodeMax : Z := nodeMax.

(** ** uuid_global.go *)

Definition ParseSortVal (id : Z) : Z :=
  Z.lor ((Z.shiftr id timeShift) <<u64 timeShift)%go
        (Z.shiftr (id <<u64 (totalBits - stepBits))%go (totalBits - stepBits)).
Definition ParseTime (id : Z) : Z := Z.shiftr id timeShift.
Definition ParseNode (id : Z) : Z :=
  Z.shiftr (id <<u64 (totalBits - timeShift))%go (totalBits - timeShift + stepBits).
Definition ParseStep (id : Z) : Z :=
  Z.shiftr (id <<u64 (totalBits - stepBits))%go (totalBits - stepBits).

(** The package variable [_uuid]: [None] until [Init]; using it before panics. *)
Definition Init (nodeId now : Z) (g : option UUID) : bool * option UUID :=
  match NewUUID nodeId now with
  | None => (false, g)
  | Some u => (true, Some u)
  end.

Definition Generate_global (g : option UUID) (clock : list Z)
    : outcome (option (Z * option UUID * list Z)) :=
  match g with
  | None => Panic
  | Some n => Ok ('(id, n, clock) ← Generate n clock; Some (id, Some n, clock))
  end.

Definition GetAskStartId (g : option UUID) : outcome Z :=
  match g with
  | None => Panic
  | Some n => Ok (node n <<u64 (totalBits - nodeBits))%go
  end.

(** [k] ids in a row. *)
Fixpoint generate_many (k : nat) (n : UUID) (clock : list Z) : option (list Z * UUID * list Z) :=
  match k with
  | O => Some ([], n, clock)
  | S k =>
      '(id, n, clock) ← Generate n clock;
      '(ids, n, clock) ← generate_many k n clock;
      Some (id :: ids, n, clock)
  end.

(** ** Packing and unpacking *)

(** The milliseconds an id can encode. *)
Definition in_time (now : Z) : Prop := epoch ≤ now < epoch + 2 ^ 42.

Lemma pack_eq now nd st :
  in_time now → 0 ≤ nd ≤ 1023 → 0 ≤ st ≤ 4095 →
  pack now nd st = (now - epoch) * 2 ^ 22 + nd * 2 ^ 12 + st.
Proof.
  unfold in_time, pack, epoch, timeShift, nodeShift, nodeBits, stepBits. intros Ht Hn Hs.
  change (2 ^ 42) with 4398046511104 in *.
  change (10 + 12) with 22.
  change (u64 1735689600000) with 1735689600000.
  rewrite (u64_id now) by word_lia. rewrite (u64_id (now - 1735689600000)) by word_lia.
  rewrite (u64_id (Z.shiftl nd 12)) by (rewrite Z.shiftl_mul_pow2 by lia; word_lia).
  rewrite u64_id.
  2:{ rewrite Z.shiftl_mul_pow2 by lia. change (2 ^ 22) with 4194304. word_lia. }
  rewrite (lor_shiftl_add _ (Z.shiftl nd 12) 22).
  2:{ lia. }
  2:{ rewrite Z.shiftl_mul_pow2 by lia. lia. }
  rewrite Z.shiftl_mul_pow2 by lia.
  replace ((now - 1735689600000) * 2 ^ 22 + nd * 2 ^ 12)
    with (Z.shiftl ((now - 1735689600000) * 2 ^ 10 + nd) 12).
  2:{ rewrite Z.shiftl_mul_pow2 by lia. lia. }
  rewrite lor_shiftl_add by lia. rewrite Z.shiftl_mul_pow2 by lia. lia.
Qed.

Lemma shl_shr_u64 x a b : 0 ≤ a → a ≤ b → b ≤ 64 →
  Z.shiftr (u64 (Z.shiftl x a)) b = (x `mod` 2 ^ (64 - a)) / 2 ^ (b - a).
Proof.
  intros Ha Hab Hb. unfold u64. rewrite Z.shiftl_mul_pow2 by lia.
  replace (2 ^ 64) with (2 ^ (64 - a) * 2 ^ a) by (rewrite <-Z.pow_add_r by lia; f_equal; lia).
  rewrite Z.mul_mod_distr_r by (try apply Z.pow_nonzero; lia).
  rewrite Z.shiftr_div_pow2 by lia.
  replace (2 ^ b) with (2 ^ (b - a) * 2 ^ a) by (rewrite <-Z.pow_add_r by lia; f_equal; lia).
  apply Z.div_mul_cancel_r; apply Z.pow_nonzero; lia.
Qed.

Lemma parse_pack now nd st :
  in_time now → 0 ≤ nd ≤ 1023 → 0 ≤ st ≤ 4095 →
  let id := pack now nd st in
  in_u64 id ∧ ParseTime id = now - epoch ∧ ParseNode id = nd ∧ ParseStep id = st.
Proof.
  intros Ht Hn Hs id. unfold id. rewrite pack_eq by done.
  unfold ParseTime, ParseNode, ParseStep, totalBits, timeShift, nodeBits, stepBits.
  unfold in_time, epoch in *. change (2 ^ 42) with 4398046511104 in *.
  rewrite !shl_shr_u64 by lia. rewrite Z.shiftr_div_pow2 by lia.
  change (2 ^ (10 + 12)) with 4194304. change (2 ^ 22) with 4194304.
  change (2 ^ (64 - (64 - (10 + 12)))) with 4194304.
  change (2 ^ (64 - (10 + 12) + 12 - (64 - (10 + 12)))) with 4096.
  change (2 ^ (64 - (64 - 12))) with 4096. change (2 ^ 12) with 4096.
  change (2 ^ (64 - 12 - (64 - 12))) with 1.
  unfold in_u64. pow_simpl. Z.div_mod_to_equations. lia.
Qed.

(** ** The generator's invariant *)

Record wf (n : UUID) : Prop := {
  wf_node : 0 ≤ node n ≤ 1023;
  wf_step : 0 ≤ step n ≤ 4095;
  wf_base : epoch ≤ baseWall n;
  wf_time : timestamp n = 0 ∨ baseWall n ≤ timestamp n
}.

(** A clock list [clock] read by [n]: non-decreasing, non-negative readings that
    stay in the 139 years the time field can hold. *)
Definition good_clock (n : UUID) (clock : list Z) : Prop :=
  StronglySorted Z.le clock ∧
  ∀ e, e ∈ clock → 0 ≤ e ∧ baseWall n + e < epoch + 2 ^ 42.

(** What has been issued is not ahead of the clock. *)
Definition behind (n : UUID) (clock : list Z) : Prop :=
  ∀ e, e ∈ clock → timestamp n ≤ baseWall n + e.

Lemma nowMs_eq n e : wf n → 0 ≤ e → baseWall n + e < epoch + 2 ^ 42 → nowMs n e = baseWall n + e.
Proof.
  intros W He Hb. pose proof (wf_base n W). unfold nowMs, epoch in *.
  change (2 ^ 42) with 4398046511104 in *. apply i64_id. word_lia.
Qed.

Lemma stepMax_land x : 0 ≤ x ≤ 4095 → Z.land (u64 (x + 1)) stepMax = if decide (x = 4095) then 0 else x + 1.
Proof.
  intros Hx. rewrite u64_id by word_lia. change stepMax with (Z.ones 12).
  rewrite Z.land_ones by lia. change (2 ^ 12) with 4096. case_decide; [by subst|].
  apply Z.mod_small. lia.
Qed.

Lemma good_clock_tail n e clock : good_clock n (e :: clock) →
  good_clock n clock ∧ (0 ≤ e ∧ baseWall n + e < epoch + 2 ^ 42) ∧ ∀ e', e' ∈ clock → e ≤ e'.
Proof.
  intros [Hs Hb]. apply StronglySorted_inv in Hs as [Hs Hall]. split_and!.
  - split; [done|]. intros. apply Hb. set_solver.
  - apply Hb. set_solver.
  - apply Hb. set_solver.
  - by apply Forall_forall.
Qed.

(** The wait ends past the last timestamp, at a time the clock has reached. *)
Lemma wait_next_spec n now clock now' clock' :
  wf n → good_clock n clock → in_time now → (∀ e, e ∈ clock → now ≤ baseWall n + e) →
  wait_next n now clock = Some (now', clock') →
  timestamp n < now' ∧ in_time now' ∧ good_clock n clock' ∧
  (∀ e, e ∈ clock' → now' ≤ baseWall n + e).
Proof.
  intros W. revert now. induction clock as [|e clock IH]; intros now G Ht Hb; simpl.
  - case_decide; [done|]. intros; simplify_eq. split_and!; try done; lia.
  - case_decide; [|intros; simplify_eq; split_and!; try done; lia].
    destruct (good_clock_tail n e clock G) as (G' & (He & Hm) & Hle).
    rewrite nowMs_eq by done. apply IH; [done| |].
    + pose proof (wf_base n W). unfold in_time. lia.
    + intros e' He'. specialize (Hle e' He'). lia.
Qed.

Lemma Generate_spec n clock id n' clock' :
  wf n → good_clock n clock → behind n clock → Generate n clock = Some (id, n', clock') →
  wf n' ∧ good_clock n' clock' ∧ behind n' clock' ∧ node n' = node n ∧ baseWall n' = baseWall n ∧
  in_time (timestamp n') ∧ id = pack (timestamp n') (node n') (step n') ∧
  (timestamp n < timestamp n' ∨ (timestamp n' = timestamp n ∧ step n < step n')).
Proof.
  intros W G B. destruct clock as [|e clock]; [done|]. unfold Generate.
  destruct (good_clock_tail n e clock G) as (G' & (He & Hm) & Hle).
  rewrite nowMs_eq by done.
  assert (timestamp n ≤ baseWall n + e) as Hbe by (apply B; set_solver).
  rewrite (decide_False (P := (baseWall n + e < timestamp n))) by lia.
  pose proof (wf_base n W) as Hbase. pose proof (wf_step n W) as Hst.
  pose proof (wf_node n W) as Hnd. pose proof (wf_time n W) as Hti.
  assert (in_time (baseWall n + e)) as Hin by (unfold in_time; lia).
  assert (∀ e', e' ∈ clock → baseWall n + e ≤ baseWall n + e') as Hle'
    by (intros e' He'; specialize (Hle e' He'); lia).
  case_decide as Ht.
  - rewrite stepMax_land by done. destruct (decide (step n = 4095)) as [Hs4|Hs4].
    + rewrite decide_True by done.
      set (n1 := MkUUID (timestamp n) (node n) 0 (baseWall n)).
      assert (wf n1) as W1 by (constructor; simpl; auto; lia).
      destruct (wait_next n1 (baseWall n + e) clock) as [[now' c']|] eqn:Ew; [|done].
      simpl. intros; simplify_eq.
      destruct (wait_next_spec n1 _ _ _ _ W1 G' Hin Hle' Ew) as (H1 & H2 & H3 & H4).
      simpl in *. split_and!; try done; [|by left].
      constructor; simpl; [done|lia|done|right; unfold in_time, epoch in *; lia].
    + rewrite decide_False by lia. intros; simplify_eq. simpl.
      split_and!; try done; [constructor; simpl; auto; lia|right; lia].
  - intros; simplify_eq. simpl.
    split_and!; try done; [constructor; simpl; auto; lia|left; lia].
Qed.

(** [C38] One generator never repeats or reorders: with a monotonic clock inside
    the 139 years of the time field, any number of [Generate] calls in a row
    returns strictly increasing ids, every one of which decodes to this
    generator's node. *)
Theorem generate_strictly_increasing (k : nat) (node0 now : Z) (n : UUID) (clock : list Z)
    (ids : list Z) (n' : UUID) (clock' : list Z)
    (Hnew : NewUUID node0 now = Some n) (Hnode : 0 ≤ node0) (Hclock : good_clock n clock)
    (Hrun : generate_many k n clock = Some (ids, n', clock')) :
  length ids = k ∧ StronglySorted Z.lt ids ∧
  (∀ id, id ∈ ids → in_u64 id ∧ ParseNode id = node0).
Proof.
  unfold NewUUID in Hnew. case_decide as Hmax; [done|]. change nodeMax with 1023 in Hmax.
  injection Hnew as <-.
  set (n0 := MkUUID 0 node0 0 (Z.max now epoch)) in *.
  assert (wf n0) as W0 by (constructor; simpl; lia).
  assert (behind n0 clock) as B0.
  { intros e He. destruct (proj2 Hclock e He). simpl in *. unfold epoch in *. lia. }
  change node0 with (node n0). clearbody n0. clear Hmax Hnode.
  (* every id issued from a state exceeds what that state has issued *)
  assert (length ids = k ∧ StronglySorted Z.lt ids ∧
    ∀ id, id ∈ ids → in_u64 id ∧ ParseNode id = node n0 ∧
      (timestamp n0 - epoch) * 2 ^ 22 + node n0 * 2 ^ 12 + step n0 < id) as (H1 & H2 & H3).
  { revert n0 clock ids W0 B0 Hclock Hrun.
    induction k as [|k IH]; intros n0 clock ids W0 B0 Hc Hrun; simpl in Hrun.
    { simplify_eq. split_and!; [done|constructor|]. by intros id ?%not_elem_of_nil. }
    destruct (Generate n0 clock) as [[[id n1] c1]|] eqn:E1; [|done]. simpl in Hrun.
    destruct (generate_many k n1 c1) as [[[ids1 n2] c2]|] eqn:E2; [|done]. simpl in Hrun.
    simplify_eq.
    destruct (Generate_spec _ _ _ _ _ W0 Hc B0 E1) as (W1 & G1 & B1 & Nd & Bw & T1 & -> & Hinc).
    destruct (IH n1 c1 ids1 W1 B1 G1 E2) as (L & S & A).
    destruct (parse_pack (timestamp n1) (node n1) (step n1) T1 (wf_node n1 W1) (wf_step n1 W1))
      as (U & _ & P & _).
    pose proof (pack_eq (timestamp n1) (node n1) (step n1) T1 (wf_node n1 W1) (wf_step n1 W1)) as Pe.
    pose proof (wf_step n0 W0). pose proof (wf_step n1 W1).
    assert ((timestamp n0 - epoch) * 2 ^ 22 + node n0 * 2 ^ 12 + step n0
      < (timestamp n1 - epoch) * 2 ^ 22 + node n1 * 2 ^ 12 + step n1) as Hlt
      by (change (2 ^ 22) with 4194304; change (2 ^ 12) with 4096; lia).
    split_and!; [simpl; lia| |].
    - constructor; [done|]. apply Forall_forall. intros i Hi. destruct (A i Hi) as (_ & _ & Hi').
      lia.
    - intros i [->|Hi]%elem_of_cons; [split_and!; [done|congruence|lia]|].
      destruct (A i Hi) as (? & ? & ?). split_and!; [done|congruence|lia]. }
  split_and!; [done|done|]. intros id Hid. destruct (H3 id Hid) as (? & ? & _). done.
Qed.

Lemma generate_strictly_increasing_witness :
  ∃ ids n' clock',
    generate_many 3 (MkUUID 0 7 0 1735689600005) [0; 0; 2] = Some (ids, n', clock') ∧
    length ids = 3%nat ∧ StronglySorted Z.lt ids.
Proof.
  eexists _, _, _. split; [vm_compute; reflexivity|].
  edestruct (generate_strictly_increasing 3 7 1735689600005 (MkUUID 0 7 0 1735689600005) [0; 0; 2])
    as (H1 & H2 & _); [reflexivity|lia| |vm_compute; reflexivity|exact (conj H1 H2)].
  split.
  - repeat (constructor; [|repeat (constructor; try lia)]). constructor.
  - intros e He. rewrite !elem_of_cons in He. simpl. unfold epoch.
    destruct He as [->|[->|[->|He]]]; [lia..|]. by apply not_elem_of_nil in He.
Defined.

(** Ids of different nodes never meet: an id issued by one generator and an
    id issued by another are different whenever their node ids are, whatever
    the clocks say; and the Ask correlation ranges [GetAskStartId, +2^54) of
    different nodes are disjoint. *)
Theorem nodes_never_collide (n m n' m' : UUID) (cn cm cn' cm' : list Z) (i j a b da db : Z)
    (Wn : wf n) (Wm : wf m) (Gn : good_clock n cn) (Gm : good_clock m cm)
    (Bn : behind n cn) (Bm : behind m cm)
    (Hn : Generate n cn = Some (i, n', cn')) (Hm : Generate m cm = Some (j, m', cm'))
    (Hne : node n ≠ node m)
    (Ha : GetAskStartId (Some n) = Ok a) (Hb : GetAskStartId (Some m) = Ok b)
    (Hda : 0 ≤ da < 2 ^ 54) (Hdb : 0 ≤ db < 2 ^ 54) :
  i ≠ j ∧ (a +u64 da)%go ≠ (b +u64 db)%go.
Proof.
  destruct (Generate_spec _ _ _ _ _ Wn Gn Bn Hn) as (Wn' & _ & _ & Nn & _ & Tn & -> & _).
  destruct (Generate_spec _ _ _ _ _ Wm Gm Bm Hm) as (Wm' & _ & _ & Nm & _ & Tm & -> & _).
  destruct (parse_pack _ _ _ Tn (wf_node n' Wn') (wf_step n' Wn')) as (_ & _ & Pn & _).
  destruct (parse_pack _ _ _ Tm (wf_node m' Wm') (wf_step m' Wm')) as (_ & _ & Pm & _).
  split; [congruence|].
  pose proof (wf_node n Wn). pose proof (wf_node m Wm).
  unfold GetAskStartId, totalBits, nodeBits in *. simplify_eq.
  rewrite !Z.shiftl_mul_pow2 by lia. change (2 ^ (64 - 10)) with 18014398509481984 in *.
  change (2 ^ 54) with 18014398509481984 in *. unfold u64. pow_simpl.
  Z.div_mod_to_equations. lia.
Qed.

Lemma nodes_never_collide_witness :
  (6 : Z) ≠ 7 ∧
  (GetAskStartId (Some (MkUUID 0 6 0 1735689600005)) = Ok (6 * 2 ^ 54)) ∧
  ((6 * 2 ^ 54) +u64 5)%go ≠ ((7 * 2 ^ 54) +u64 5)%go.
Proof.
  split_and!; [lia|reflexivity|].
  assert (∀ nd, 0 ≤ nd ≤ 1023 → wf (MkUUID 0 nd 0 1735689600005)) as W.
  { intros nd Hnd. constructor; simpl; unfold epoch; [lia|lia|lia|by left]. }
  assert (∀ nd, good_clock (MkUUID 0 nd 0 1735689600005) [3]) as G.
  { intros nd. split; [repeat constructor|]. intros e [->|[]%elem_of_nil]%elem_of_cons.
    simpl. unfold epoch. lia. }
  assert (∀ nd, behind (MkUUID 0 nd 0 1735689600005) [3]) as B.
  { intros nd e [->|[]%elem_of_nil]%elem_of_cons. simpl. lia. }
  eapply (nodes_never_collide (MkUUID 0 6 0 1735689600005) (MkUUID 0 7 0 1735689600005)
    _ _ [3] [3] _ _ _ _ (6 * 2 ^ 54) (7 * 2 ^ 54) 5 5);
    [apply W; lia|apply W; lia|apply G|apply G|apply B|apply B|reflexivity|reflexivity
    |simpl; lia|reflexivity|reflexivity|lia|lia].
Defined.

(** Decoding an issued id: [ParseTime], [ParseNode], [ParseStep] recover
    the three fields [Generate] packed, and [ParseSortVal] is the id with its
    node bits cleared, hence ordered by time and then by sequence. *)
Theorem generate_decodes (n n' : UUID) (clock clock' : list Z) (id : Z)
    (W : wf n) (G : good_clock n clock) (B : behind n clock)
    (Hgen : Generate n clock = Some (id, n', clock')) :
  ParseTime id = timestamp n' - epoch ∧ ParseNode id = node n ∧ ParseStep id = step n' ∧
  ParseSortVal id = id - node n * 2 ^ 12.
Proof.
  destruct (Generate_spec _ _ _ _ _ W G B Hgen) as (W' & _ & _ & Nd & _ & T & -> & _).
  pose proof (wf_node n' W') as Hn. pose proof (wf_step n' W') as Hs.
  destruct (parse_pack _ _ _ T Hn Hs) as (U & P1 & P2 & P3).
  split_and!; [done|congruence|done|].
  unfold ParseSortVal. fold (ParseTime (pack (timestamp n') (node n') (step n'))).
  fold (ParseStep (pack (timestamp n') (node n') (step n'))). rewrite P1, P3, <-Nd.
  rewrite pack_eq by done. unfold in_time in T.
  unfold timeShift, nodeBits, stepBits. change (10 + 12) with 22.
  rewrite u64_id by (rewrite Z.shiftl_mul_pow2 by lia; unfold epoch in *; word_lia).
  rewrite lor_shiftl_add by lia. lia.
Qed.

Lemma generate_decodes_witness :
  ∃ id n', Generate (MkUUID 1735689600006 7 4 1735689600005) [1; 3] = Some (id, n', [3]) ∧
    ParseTime id = 6 ∧ ParseNode id = 7 ∧ ParseStep id = 5.
Proof.
  eexists _, _. split; [vm_compute; reflexivity|].
  edestruct (generate_decodes (MkUUID 1735689600006 7 4 1735689600005)
    (MkUUID 1735689600006 7 5 1735689600005) [1; 3] [3])
    as (H1 & H2 & H3 & _).
  4: vm_compute; reflexivity.
  4: exact (conj H1 (conj H2 H3)).
  - constructor; simpl; unfold epoch; [lia|lia|lia|right; lia].
  - split; [repeat constructor; lia|].
    intros e [->|[->|[]%elem_of_nil]%elem_of_cons]%elem_of_cons; simpl; unfold epoch; lia.
  - intros e [->|[->|[]%elem_of_nil]%elem_of_cons]%elem_of_cons; simpl; lia.
Defined.

(** [Generate] returns: it needs one clock reading, and when the sequence
    of the current millisecond is used up it waits exactly until the clock
    passes the last issued timestamp, so any clock that advances past it ends
    the wait. *)
Theorem generate_terminates (n : UUID) (clock : list Z) (e : Z)
    (W : wf n) (G : good_clock n clock) (B : behind n clock)
    (Hin : e ∈ clock) (Hpast : timestamp n < baseWall n + e) :
  is_Some (Generate n clock).
Proof.
  assert (∀ n now clock, wf n → good_clock n clock → e ∈ clock →
    timestamp n < baseWall n + e → is_Some (wait_next n now clock)) as Hwait.
  { clear. intros n now clock W. revert now.
    induction clock as [|e1 clock IH]; intros now G Hin Hp; simpl; [by apply elem_of_nil in Hin|].
    case_decide; [|by eauto].
    destruct (good_clock_tail _ _ _ G) as (G' & (He & Hm) & _).
    apply elem_of_cons in Hin as [->|Hin]; [|by apply IH].
    rewrite nowMs_eq by done. destruct clock; simpl; rewrite decide_False by lia; by eauto. }
  destruct clock as [|e1 clock]; [by apply elem_of_nil in Hin|]. unfold Generate.
  destruct (good_clock_tail n e1 clock G) as (G' & (He & Hm) & Hle).
  rewrite nowMs_eq by done. assert (timestamp n ≤ baseWall n + e1) by (apply B; set_solver).
  rewrite (decide_False (P := (baseWall n + e1 < timestamp n))) by lia.
  case_decide as Ht; [|by eauto]. case_decide as Hs; [|by eauto].
  apply elem_of_cons in Hin as [->|Hin]; [lia|].
  set (n1 := MkUUID (timestamp n) (node n) _ (baseWall n)).
  destruct (Hwait n1 (baseWall n + e1) clock) as [[now' c'] ->]; [|done|done|done|by eauto].
  destruct W. constructor; simpl; try done. rewrite Hs. lia.
Qed.

Lemma generate_terminates_witness :
  is_Some (Generate (MkUUID 1735689600005 7 4095 1735689600005) [0; 0; 1]).
Proof.
  apply (generate_terminates _ [0; 0; 1] 1); simpl.
  - constructor; simpl; unfold epoch; [lia|lia|lia|right; lia].
  - split; [repeat constructor; lia|].
    intros e [->|[->|[->|[]%elem_of_nil]%elem_of_cons]%elem_of_cons]%elem_of_cons;
      simpl; unfold epoch; lia.
  - intros e [->|[->|[->|[]%elem_of_nil]%elem_of_cons]%elem_of_cons]%elem_of_cons; simpl; lia.
  - set_solver.
  - lia.
Defined.
