(* ===== verification/ErrCode.v ===== *)
(** * message/msg.code.go: error codes

    [Code] and [*ErrCode] as Go error values, and [errors.Is]/[errors.As] of the
    standard library over chains of wrapped errors, so that matching by code
    can be stated for any chain. *)

From S2P Require Import Prelude GoStrings.
Open Scope Z_scope.

Definition CodeErr : Z := -1.
Definition CodeActorNotFound : Z := -2.
Definition CodeAskNotRunning : Z := -3.
Definition CodeAskInvalidContext : Z := -4.
Definition CodeSystemStopping : Z := -5.

Record ErrCode : Type := MkErrCode { Code : Z; Des : string }.

#[export] Instance ErrCode_eq_dec : EqDecision ErrCode.
Proof. solve_decision. Defined.

(** Error values: a [Code], an [*ErrCode] (an address and what it points to, or
    nil), another error type's value, and the wrappers of [fmt.Errorf("%w")]
    and [errors.Join]. *)
Inductive goerror : Type :=
| ECode (c : Z)
| EErrCode (p : option (nat * ErrCode))
| EOther (id : nat)
| EWrap (id : nat) (inner : goerror)
| EJoin (id : nat) (errs : list goerror).

(** [WithErr], [WithErrCode]: the pointed-to value. *)
Definition WithErr (des : string) : ErrCode := MkErrCode CodeErr des.

Definition add_des (allDes de : string) : string :=
  if decide (allDes = "") then de else allDes +:+ String "010" "" +:+ de.

Definition WithErrCode (code : Z) (des : list string) : ErrCode :=
  MkErrCode code (foldl add_des "" des).

Definition Code_Error (c : Z) : string := "ErrCode, code:" +:+ Itoa c.

Definition ErrCode_Error (x : ErrCode) : string :=
  "ErrCode, code:" +:+ Itoa (Code x) +:+ ", des:" +:+ Des x.

(** The [Is] method of [*ErrCode]. *)
Definition ErrCode_Is (x : option (nat * ErrCode)) (target : goerror) : bool :=
  match x with
  | None => false
  | Some (_, x) =>
      match target with
      | ECode t => bool_decide (Code x = t)
      | EErrCode t => match t with Some (_, t) => bool_decide (Code x = Code t) | None => false end
      | _ => false
      end
  end.

(** *** errors.Is and errors.As

    [err == target]: Go compares the dynamic values, pointers by address. *)
Definition goerror_eqb (a b : goerror) : bool :=
  match a, b with
  | ECode c, ECode d => bool_decide (c = d)
  | EErrCode (Some (p, _)), EErrCode (Some (q, _)) => bool_decide (p = q)
  | EErrCode None, EErrCode None => true
  | EOther i, EOther j => bool_decide (i = j)
  | EWrap i _, EWrap j _ => bool_decide (i = j)
  | EJoin i _, EJoin j _ => bool_decide (i = j)
  | _, _ => false
  end.

Definition is_method (a target : goerror) : bool :=
  match a with EErrCode x => ErrCode_Is x target | _ => false end.

Fixpoint errors_Is (err target : goerror) : bool :=
  goerror_eqb err target || is_method err target ||
  match err with
  | EWrap _ e => errors_Is e target
  | EJoin _ es => existsb (λ e, errors_Is e target) es
  | _ => false
  end.

Fixpoint first_some {A B} (f : A → option B) (l : list A) : option B :=
  match l with
  | [] => None
  | a :: l => match f a with Some b => Some b | None => first_some f l end
  end.

(** [errors.As] at the types [*ErrCode] and [Code]: the first value of that type
    in the chain, depth first. *)
Fixpoint As_ErrCode (err : goerror) : option (option (nat * ErrCode)) :=
  match err with
  | EErrCode p => Some p
  | EWrap _ e => As_ErrCode e
  | EJoin _ es => first_some As_ErrCode es
  | _ => None
  end.

Fixpoint As_Code (err : goerror) : option Z :=
  match err with
  | ECode c => Some c
  | EWrap _ e => As_Code e
  | EJoin _ es => first_some As_Code es
  | _ => None
  end.

(** [CodeOf]: the code, or [None] where Go returns (0, false). *)
Definition CodeOf (err : goerror) : option Z :=
  match As_ErrCode err with
  | Some (Some (_, e)) => Some (Code e)
  | _ => As_Code err
  end.

(** ** Properties *)

(** The errors of a chain, in the order [errors.Is] visits them. *)
Fixpoint chain (err : goerror) : list goerror :=
  err :: match err with
         | EWrap _ e => chain e
         | EJoin _ es => flat_map chain es
         | _ => []
         end.

(** An error that carries code [c] itself. *)
Definition carries (c : Z) (e : goerror) : Prop :=
  match e with
  | ECode d => d = c
  | EErrCode (Some (_, x)) => Code x = c
  | _ => False
  end.

(** Induction through the lists of [EJoin]. *)
Lemma goerror_ind' (P : goerror → Prop) :
  (∀ c, P (ECode c)) → (∀ p, P (EErrCode p)) → (∀ i, P (EOther i)) →
  (∀ i e, P e → P (EWrap i e)) → (∀ i es, Forall P es → P (EJoin i es)) → ∀ e, P e.
Proof.
  intros H1 H2 H3 H4 H5. fix IH 1. intros [c|p|i|i e|i es]; [apply H1|apply H2|apply H3| |].
  - apply H4, IH.
  - apply H5. induction es; constructor; [apply IH|assumption].
Qed.

Lemma errors_Is_code err c : errors_Is err (ECode c) = true ↔ ∃ e, e ∈ chain err ∧ carries c e.
Proof.
  induction err as [d|[[p x]|]|i|i e IH|i es IH] using goerror_ind'; simpl;
    rewrite ?orb_true_iff, ?bool_decide_eq_true; simpl.
  1-4: setoid_rewrite list_elem_of_singleton; split;
    [intuition eauto; discriminate|intros (? & -> & ?); simpl in *; intuition].
  - setoid_rewrite elem_of_cons. rewrite IH. split.
    + intros (e' & ? & ?). eauto.
    + intros (e' & [->|?] & ?); [done|]. eauto.
  - setoid_rewrite elem_of_cons. rewrite existsb_exists. rewrite Forall_forall in IH.
    split.
    + intros (e' & Hin & He).
      apply (IH e') in He as (e'' & ? & ?); [|by apply list_elem_of_In].
      exists e''. split; [|done]. right. apply list_elem_of_In, in_flat_map. exists e'.
      split; [done|]. by apply list_elem_of_In.
    + intros (e'' & [->|Hin] & ?); [done|].
      apply list_elem_of_In, in_flat_map in Hin as (e' & He' & Hin).
      exists e'. split; [done|].
      apply IH; [by apply list_elem_of_In|]. exists e''. split; [|done].
      by apply list_elem_of_In.
Qed.

Lemma first_some_Some {A B} (f : A → option B) l b :
  first_some f l = Some b → ∃ a, a ∈ l ∧ f a = Some b.
Proof.
  induction l as [|a l IH]; simpl; [done|]. destruct (f a) eqn:E.
  - intros; simplify_eq. exists a. set_solver.
  - intros H. destruct (IH H) as (a' & ? & ?). exists a'. set_solver.
Qed.

Lemma first_some_None {A B} (f : A → option B) l :
  first_some f l = None ↔ ∀ a, a ∈ l → f a = None.
Proof.
  induction l as [|a l IH]; simpl; [split; [intros ? ? []%elem_of_nil|done]|].
  setoid_rewrite elem_of_cons. destruct (f a) eqn:E.
  - split; [done|]. intros H. rewrite (H a) in E by auto. done.
  - rewrite IH. split; [intros H b [->|]; auto|auto].
Qed.

Lemma As_ErrCode_chain err p : As_ErrCode err = Some p → EErrCode p ∈ chain err.
Proof.
  induction err as [d|q|i|i e IH|i es IH] using goerror_ind'; simpl; intros H; try done.
  - simplify_eq. set_solver.
  - apply elem_of_cons. auto.
  - apply elem_of_cons. right. apply first_some_Some in H as (a & Ha & Hp).
    rewrite Forall_forall in IH. apply list_elem_of_In, in_flat_map. exists a.
    split; apply list_elem_of_In; auto.
Qed.

Lemma As_Code_chain err c : As_Code err = Some c → ECode c ∈ chain err.
Proof.
  induction err as [d|q|i|i e IH|i es IH] using goerror_ind'; simpl; intros H; try done.
  - simplify_eq. set_solver.
  - apply elem_of_cons. auto.
  - apply elem_of_cons. right. apply first_some_Some in H as (a & Ha & Hp).
    rewrite Forall_forall in IH. apply list_elem_of_In, in_flat_map. exists a.
    split; apply list_elem_of_In; auto.
Qed.

Lemma As_None_chain err :
  (As_ErrCode err = None → ∀ p, EErrCode p ∉ chain err) ∧
  (As_Code err = None → ∀ c, ECode c ∉ chain err).
Proof.
  induction err as [d|q|i|i e [IH1 IH2]|i es IH] using goerror_ind'; simpl;
    split; intros H x Hx; apply elem_of_cons in Hx as [Hx|Hx]; try done;
    try (by apply elem_of_nil in Hx).
  - by apply (IH1 H x).
  - by apply (IH2 H x).
  - apply list_elem_of_In, in_flat_map in Hx as (a & Ha & Hx).
    apply list_elem_of_In in Ha, Hx. rewrite first_some_None in H.
    rewrite Forall_forall in IH. by apply (proj1 (IH a Ha) (H a Ha) x).
  - apply list_elem_of_In, in_flat_map in Hx as (a & Ha & Hx).
    apply list_elem_of_In in Ha, Hx. rewrite first_some_None in H.
    rewrite Forall_forall in IH. by apply (proj2 (IH a Ha) (H a Ha) x).
Qed.

(** Matching by code: on any chain of wrapped and joined errors,
    [errors.Is(err, Code)] holds exactly when some error of the chain is that
    [Code] or a non-nil [*ErrCode] with it, whatever its description;
    [CodeOf] returns a code only if [errors.Is] matches it, and reports "none"
    on a chain without nil [*ErrCode]s only if no code at all would match. *)
Theorem code_matching (err : goerror) :
  (∀ c, errors_Is err (ECode c) = true ↔ ∃ e, e ∈ chain err ∧ carries c e) ∧
  (∀ c, CodeOf err = Some c → errors_Is err (ECode c) = true) ∧
  (CodeOf err = None → EErrCode None ∉ chain err → ∀ c, errors_Is err (ECode c) = false).
Proof.
  split_and!; [apply errors_Is_code| |].
  - intros c H. apply errors_Is_code. unfold CodeOf in H.
    destruct (As_ErrCode err) as [[[p x]|]|] eqn:E.
    + simplify_eq. exists (EErrCode (Some (p, x))). split; [by apply As_ErrCode_chain|done].
    + exists (ECode c). split; [by apply As_Code_chain|done].
    + exists (ECode c). split; [by apply As_Code_chain|done].
  - intros H Hnil c. apply not_true_is_false. rewrite errors_Is_code. intros (e & Hin & Hc).
    unfold CodeOf in H. destruct (As_ErrCode err) as [[[p x]|]|] eqn:E; [done| |].
    + by apply Hnil, As_ErrCode_chain.
    + destruct e as [d|[[p x]|]| | |]; try done.
      * by apply (proj2 (As_None_chain err) H d).
      * by apply (proj1 (As_None_chain err) E (Some (p, x))).
Qed.

Lemma code_matching_witness :
  errors_Is (EWrap 0 (EJoin 1 [EOther 2; EErrCode (Some (3%nat, WithErr "boom"))])) (ECode CodeErr) = true.
Proof.
  apply (code_matching (EWrap 0 (EJoin 1 [EOther 2; EErrCode (Some (3%nat, WithErr "boom"))]))).
  reflexivity.
Defined.
