(* ===== verification/Config.v ===== *)
(** * config.go, config_with.go, kind_opts.go, kind_opts_with.go

    The system configuration, its functional options and the etcd key builders;
    the per-kind spawn options.  Types the program only passes around (user
    producers, grpc options, handlers, loggers) are the fields of [GoEnv].
    Durations are nanoseconds.  An option that panics is an [outcome]. *)

From S2P Require Import Prelude GoStrings ActorId.
Open Scope Z_scope.

Class GoEnv := {
  Producer : Type;
  DialOption : Type;
  CallOption : Type;
  DeadLetterHandler : Type;
  Logger : Type;
  insecureCredentials : DialOption
}.

(** Ten units for the examples. *)
Definition unit_env : GoEnv := {|
  Producer := nat; DialOption := nat; CallOption := nat; DeadLetterHandler := nat;
  Logger := nat; insecureCredentials := 0%nat |}.

Definition Second : Z := 1000000000.
Definition defaultAskTimeout : Z := Second * 3.
Definition defaultStopWaitTimeSecond : Z := 10.
Definition defaultEtcdDialTimeout : Z := Second * 10.
Definition defaultEtcdLeaseTTLSecond : Z := 10.
Definition defaultGrpcListenAddr : string := ":0".
Definition eventStreamWatchName : string := "event_stream".
Definition defaultMailboxInitSize : Z := 8.
Definition defaultMailboxMaxSize : Z := 4096.
Definition defaultRegisterTimes : nat := 3.

(** A cluster member as it is published in etcd. *)
Record tNodeState : Type := NodeState {
  NodeId : Z;
  Address : string;
  Version : string;
  Time : string;
  Kinds : list string
}.

#[export] Instance tNodeState_eq_dec : EqDecision tNodeState.
Proof. solve_decision. Defined.

Definition zeroNodeState : tNodeState := NodeState 0 "" "" "" [].

Section config.
Context `{Env : GoEnv}.

(** ** Spawn options (kind_opts.go) *)

(** [registerToCluster] and [unRegisterFromCluster] are functions that may be
    nil; the only ones the program stores there are the two defaults of
    kind_opts.go, so a field says whether it is set. *)
Record tOpts : Type := MkOpts {
  producer : Producer;
  mailboxInitSize : Z;
  mailboxMaxSize : Z;
  okind : string;
  poisonFirstOnQuit : bool;
  _self : option ActorRef;
  registerToCluster : bool;
  unRegisterFromCluster : bool
}.

Definition KindOptFunc : Type := tOpts → tOpts.

Record tKind : Type := MkKind { kproducer : Producer; kopts : list KindOptFunc }.

Definition WithOptsMailboxSize (size : Z) : KindOptFunc := λ o,
  MkOpts (producer o) size (mailboxMaxSize o) (okind o) (poisonFirstOnQuit o) (_self o)
    (registerToCluster o) (unRegisterFromCluster o).

Definition WithOptsMailboxMaxSize (size : Z) : KindOptFunc := λ o,
  MkOpts (producer o) (mailboxInitSize o) size (okind o) (poisonFirstOnQuit o) (_self o)
    (registerToCluster o) (unRegisterFromCluster o).

Definition WithOptsPoisonFirstOnQuit (b : bool) : KindOptFunc := λ o,
  MkOpts (producer o) (mailboxInitSize o) (mailboxMaxSize o) (okind o) b (_self o)
    (registerToCluster o) (unRegisterFromCluster o).

Definition WithOptsKindName (kindName : string) : KindOptFunc := λ o,
  MkOpts (producer o) (mailboxInitSize o) (mailboxMaxSize o) kindName (poisonFirstOnQuit o)
    (_self o) (registerToCluster o) (unRegisterFromCluster o).

(** [p] is the address of the reference it allocates. *)
Definition withOptsDirectSelf (name address : string) (system p : nat) : KindOptFunc := λ o,
  MkOpts (producer o) (mailboxInitSize o) (mailboxMaxSize o) (okind o) (poisonFirstOnQuit o)
    (Some (newDirectActorRef (okind o) name address system p))
    (registerToCluster o) (unRegisterFromCluster o).

Definition withOptsClusterSelf (actorRef : ActorRef) : KindOptFunc := λ o,
  MkOpts (producer o) (mailboxInitSize o) (mailboxMaxSize o) (GetKind actorRef)
    (poisonFirstOnQuit o) (Some actorRef) (registerToCluster o) (unRegisterFromCluster o).

Definition newOpts (p : Producer) (opts : list KindOptFunc) : tOpts :=
  let ret := MkOpts p defaultMailboxInitSize defaultMailboxMaxSize defaultLocalKind true None
               true true in
  let ret := foldl (λ ret opt, opt ret) ret opts in
  let ret := if decide (mailboxInitSize ret < 1) then WithOptsMailboxSize 1 ret else ret in
  if decide (mailboxMaxSize ret < mailboxInitSize ret)
  then WithOptsMailboxMaxSize (mailboxInitSize ret) ret else ret.

(** ** The configuration (config.go) *)

Record config : Type := MkConfig {
  running : Z;
  clusterName : string;
  version : string;
  clusterUrls : list string;
  askTimeout : Z;
  stopWaitTimeSecond : Z;
  etcdDialTimeout : Z;
  etcdLeaseTTLSecond : Z;
  grpcListenAddr : string;
  dialOptions : list DialOption;
  callOptions : list CallOption;
  kinds : gmap string tKind;
  state : tNodeState;
  deadLetterHandler : option DeadLetterHandler;
  logger : option Logger
}.

Definition ConfigOptFunc : Type := config → outcome config.

Definition defaultConfig (clusterName version : string) (clusterUrls : list string) : config :=
  MkConfig 0 clusterName version clusterUrls defaultAskTimeout defaultStopWaitTimeSecond
    defaultEtcdDialTimeout defaultEtcdLeaseTTLSecond defaultGrpcListenAddr
    [insecureCredentials] [] ∅ zeroNodeState None None.

(** [for _, f := range opts { f(conf) }]: stops at the first panic. *)
Fixpoint applyConfigOpts (opts : list ConfigOptFunc) (conf : config) : outcome config :=
  match opts with
  | [] => Ok conf
  | f :: opts => conf ← f conf; applyConfigOpts opts conf
  end.

Definition newConfig (clusterName version : string) (clusterUrls : list string)
    (opts : list ConfigOptFunc) : outcome config :=
  applyConfigOpts opts (defaultConfig clusterName version clusterUrls).

Definition getKinds (x : config) : list string := (map_to_list (kinds x)).*1.

(** [init]; [now] is the formatted wall-clock time. *)
Definition init (x : config) (addr : string) (nodeId : Z) (now : string) : tNodeState * config :=
  let st := NodeState nodeId addr (version x) now (getKinds x) in
  (st, MkConfig (running x) (clusterName x) (version x) (clusterUrls x) (askTimeout x)
    (stopWaitTimeSecond x) (etcdDialTimeout x) (etcdLeaseTTLSecond x) (grpcListenAddr x)
    (dialOptions x) (callOptions x) (kinds x) st (deadLetterHandler x) (logger x)).

Definition markRunning (x : config) : outcome config :=
  if decide (running x = 0) then
    Ok (MkConfig 1 (clusterName x) (version x) (clusterUrls x) (askTimeout x)
      (stopWaitTimeSecond x) (etcdDialTimeout x) (etcdLeaseTTLSecond x) (grpcListenAddr x)
      (dialOptions x) (callOptions x) (kinds x) (state x) (deadLetterHandler x) (logger x))
  else Panic.

Definition mustNotRunning (x : config) : outcome unit :=
  if decide (running x = 0) then Ok tt else Panic.

Definition getMemberPrefix (x : config) : string := "/" +:+ clusterName x +:+ "/member/".

Definition getMemberPath (x : config) (memberId : Z) : string :=
  "/" +:+ clusterName x +:+ "/member/" +:+ FormatUint memberId.

Definition getMemberExtDataPath (x : config) (subKey : string) (memberId : list Z) : string :=
  match memberId with
  | m :: _ => if decide (m = 0) then "/" +:+ clusterName x +:+ "/member_ext/" +:+ subKey
              else "/" +:+ clusterName x +:+ "/member_ext/" +:+ subKey +:+ "/" +:+ FormatUint m
  | [] => "/" +:+ clusterName x +:+ "/member_ext/" +:+ subKey
  end.

Definition getEventStreamWatchPath (x : config) : string :=
  "/" +:+ clusterName x +:+ "/" +:+ eventStreamWatchName +:+ "/".

Definition getActorRegisterName (x : config) (ref : ActorRef) : string :=
  "/" +:+ clusterName x +:+ "/" +:+ GetId ref.

(** ** The options (config_with.go) *)

Definition WithConfigAskTimeout (d : Z) : ConfigOptFunc := λ c,
  Ok (MkConfig (running c) (clusterName c) (version c) (clusterUrls c) d
    (stopWaitTimeSecond c) (etcdDialTimeout c) (etcdLeaseTTLSecond c) (grpcListenAddr c)
    (dialOptions c) (callOptions c) (kinds c) (state c) (deadLetterHandler c) (logger c)).

Definition WithConfigStopWaitTimeSecond (t : Z) : ConfigOptFunc := λ c,
  Ok (MkConfig (running c) (clusterName c) (version c) (clusterUrls c) (askTimeout c)
    t (etcdDialTimeout c) (etcdLeaseTTLSecond c) (grpcListenAddr c)
    (dialOptions c) (callOptions c) (kinds c) (state c) (deadLetterHandler c) (logger c)).

Definition WithConfigEtcdDialTimeout (d : Z) : ConfigOptFunc := λ c,
  if decide (d ≤ 0) then Panic else
  Ok (MkConfig (running c) (clusterName c) (version c) (clusterUrls c) (askTimeout c)
    (stopWaitTimeSecond c) d (etcdLeaseTTLSecond c) (grpcListenAddr c)
    (dialOptions c) (callOptions c) (kinds c) (state c) (deadLetterHandler c) (logger c)).

Definition WithConfigEtcdLeaseTTLSecond (seconds : Z) : ConfigOptFunc := λ c,
  if decide (seconds ≤ 0) then Panic else
  Ok (MkConfig (running c) (clusterName c) (version c) (clusterUrls c) (askTimeout c)
    (stopWaitTimeSecond c) (etcdDialTimeout c) seconds (grpcListenAddr c)
    (dialOptions c) (callOptions c) (kinds c) (state c) (deadLetterHandler c) (logger c)).

Definition WithConfigGrpcListenAddr (addr : string) : ConfigOptFunc := λ c,
  if decide (addr = "") then Panic else
  Ok (MkConfig (running c) (clusterName c) (version c) (clusterUrls c) (askTimeout c)
    (stopWaitTimeSecond c) (etcdDialTimeout c) (etcdLeaseTTLSecond c) addr
    (dialOptions c) (callOptions c) (kinds c) (state c) (deadLetterHandler c) (logger c)).

Definition WithConfigGrpcDialOptions (opts : list DialOption) : ConfigOptFunc := λ c,
  Ok (MkConfig (running c) (clusterName c) (version c) (clusterUrls c) (askTimeout c)
    (stopWaitTimeSecond c) (etcdDialTimeout c) (etcdLeaseTTLSecond c) (grpcListenAddr c)
    (dialOptions c ++ opts) (callOptions c) (kinds c) (state c) (deadLetterHandler c) (logger c)).

Definition WithConfigGrpcCallOptions (opts : list CallOption) : ConfigOptFunc := λ c,
  Ok (MkConfig (running c) (clusterName c) (version c) (clusterUrls c) (askTimeout c)
    (stopWaitTimeSecond c) (etcdDialTimeout c) (etcdLeaseTTLSecond c) (grpcListenAddr c)
    (dialOptions c) (callOptions c ++ opts) (kinds c) (state c) (deadLetterHandler c) (logger c)).

Definition WithConfigCallDialOptions (opts : list CallOption) : ConfigOptFunc :=
  WithConfigGrpcCallOptions opts.

Definition WithConfigKind (kindName : string) (p : Producer) (opts : list KindOptFunc)
    : ConfigOptFunc := λ c,
  _ ← mustNotRunning c;
  if decide (validateKindName kindName ≠ None) then Panic else
  if decide (kindName = defaultLocalKind ∨ kindName = defaultSystemKind ∨
             kindName = defaultReplyKind ∨ kindName = defaultWriteStreamKind) then Panic else
  match kinds c !! kindName with
  | Some _ => Panic
  | None =>
      Ok (MkConfig (running c) (clusterName c) (version c) (clusterUrls c) (askTimeout c)
        (stopWaitTimeSecond c) (etcdDialTimeout c) (etcdLeaseTTLSecond c) (grpcListenAddr c)
        (dialOptions c) (callOptions c) (<[kindName := MkKind p opts]> (kinds c)) (state c)
        (deadLetterHandler c) (logger c))
  end.

Definition WithConfigLogger (l : option Logger) : ConfigOptFunc := λ c,
  Ok (MkConfig (running c) (clusterName c) (version c) (clusterUrls c) (askTimeout c)
    (stopWaitTimeSecond c) (etcdDialTimeout c) (etcdLeaseTTLSecond c) (grpcListenAddr c)
    (dialOptions c) (callOptions c) (kinds c) (state c) (deadLetterHandler c) l).

Definition WithConfigDeadLetter (h : option DeadLetterHandler) : ConfigOptFunc := λ c,
  Ok (MkConfig (running c) (clusterName c) (version c) (clusterUrls c) (askTimeout c)
    (stopWaitTimeSecond c) (etcdDialTimeout c) (etcdLeaseTTLSecond c) (grpcListenAddr c)
    (dialOptions c) (callOptions c) (kinds c) (state c) h (logger c)).

(** The options an application can pass to [NewSystem]. *)
Inductive config_option : ConfigOptFunc → Prop :=
| co_ask d : config_option (WithConfigAskTimeout d)
| co_stop t : config_option (WithConfigStopWaitTimeSecond t)
| co_dial d : config_option (WithConfigEtcdDialTimeout d)
| co_ttl s : config_option (WithConfigEtcdLeaseTTLSecond s)
| co_addr a : config_option (WithConfigGrpcListenAddr a)
| co_dopts o : config_option (WithConfigGrpcDialOptions o)
| co_copts o : config_option (WithConfigGrpcCallOptions o)
| co_kind k p o : config_option (WithConfigKind k p o)
| co_logger l : config_option (WithConfigLogger l)
| co_dead h : config_option (WithConfigDeadLetter h).

(** ... and those it can pass to Spawn or WithConfigKind. *)
Inductive kind_option : KindOptFunc → Prop :=
| ko_size n : kind_option (WithOptsMailboxSize n)
| ko_max n : kind_option (WithOptsMailboxMaxSize n)
| ko_first b : kind_option (WithOptsPoisonFirstOnQuit b)
| ko_kind k : kind_option (WithOptsKindName k).

(** What [NewSystem] may rely on of a configuration. *)
Record config_wf (c : config) : Prop := {
  cw_dial : 0 < etcdDialTimeout c;
  cw_ttl : 0 < etcdLeaseTTLSecond c;
  cw_addr : grpcListenAddr c ≠ "";
  cw_creds : ∃ l, dialOptions c = insecureCredentials :: l;
  cw_kinds : ∀ k, is_Some (kinds c !! k) →
    validateKindName k = None ∧ k ∉ [defaultLocalKind; defaultSystemKind; defaultReplyKind;
      defaultWriteStreamKind]
}.

Lemma config_option_wf f c c' : config_option f → config_wf c → f c = Ok c' → config_wf c'.
Proof.
  intros Hf [H1 H2 H3 H4 H5] Hc. destruct Hf; unfold WithConfigAskTimeout,
    WithConfigStopWaitTimeSecond, WithConfigGrpcDialOptions, WithConfigGrpcCallOptions,
    WithConfigKind, WithConfigEtcdDialTimeout, WithConfigEtcdLeaseTTLSecond,
    WithConfigGrpcListenAddr, WithConfigLogger, WithConfigDeadLetter in *;
    try (case_decide; [done|]); try (injection Hc as <-; constructor; simpl; auto; lia).
  - injection Hc as <-. constructor; simpl; auto. destruct H4 as [l ->]. simpl. eauto.
  - destruct (mustNotRunning c); simpl in Hc; [|done].
    case_decide as Hv; [done|]. case_decide as Hr; [done|].
    destruct (kinds c !! k) eqn:Ek; [done|]. simplify_eq. constructor; simpl; eauto.
    intros k' [x Hx]. destruct (decide (k = k')) as [->|Hne].
    + split; [destruct (validateKindName k'); [by destruct Hv|done]|]. rewrite !not_elem_of_cons.
      split_and!; try (by intros ->; apply Hr; tauto). apply not_elem_of_nil.
    + rewrite lookup_insert_ne in Hx by done. eauto.
Qed.

(** [C40] Whatever options an application passes to [NewSystem], a configuration
    that is built (no option panicked) has a positive etcd dial timeout and
    lease TTL, a listen address, the default transport credentials still first
    in its dial options, and only kinds whose names can stand in an actor id
    and are not framework kinds; and every spawn option list yields a mailbox
    with 1 <= initial size <= maximal size. *)
Theorem options_wf (name ver : string) (urls : list string) (opts : list ConfigOptFunc)
    (c : config) (p : Producer) (kos : list KindOptFunc)
    (Hopts : Forall config_option opts) (Hc : newConfig name ver urls opts = Ok c) :
  config_wf c ∧
  1 ≤ mailboxInitSize (newOpts p kos) ≤ mailboxMaxSize (newOpts p kos).
Proof.
  split.
  - unfold newConfig in Hc.
    assert (config_wf (defaultConfig name ver urls)) as W.
    { constructor; simpl; [done|done|done|by eexists|]. intros k [x Hx].
      by rewrite lookup_empty in Hx. }
    revert Hc W. generalize (defaultConfig name ver urls) as c0.
    induction Hopts as [|f opts Hf _ IH]; intros c0 Hc W; simpl in Hc; [by simplify_eq|].
    destruct (f c0) as [c1|] eqn:E; [|done]. simpl in Hc.
    eapply IH; [done|]. by eapply config_option_wf.
  - unfold newOpts. simpl. repeat case_decide; simpl in *; lia.
Qed.

(** A kind is registered at most once and never under a reserved or
    unroutable name: [WithConfigKind] panics exactly when the system is already
    running, the name is empty or contains a separator, is one of the four
    framework kinds, or is taken; otherwise it adds that entry and changes
    nothing else in the table. *)
Theorem with_config_kind_spec (k : string) (p : Producer) (opts : list KindOptFunc) (c : config) :
  let bad := running c ≠ 0 ∨ ¬ valid_name k ∨
    k ∈ [defaultLocalKind; defaultSystemKind; defaultReplyKind; defaultWriteStreamKind] ∨
    is_Some (kinds c !! k) in
  (WithConfigKind k p opts c = Panic ↔ bad) ∧
  (∀ c', WithConfigKind k p opts c = Ok c' → kinds c' = <[k := MkKind p opts]> (kinds c)).
Proof.
  assert (validateKindName k = None ↔ valid_name k) as Hv.
  { rewrite <-ValidateActorName_spec. unfold validateKindName, ValidateActorName.
    repeat case_decide; done. }
  unfold WithConfigKind, mustNotRunning. rewrite !elem_of_cons, elem_of_nil.
  destruct (decide (running c = 0)) as [Hr|Hr]; simpl;
    [|by split; [split; [intros _; left|]|]].
  destruct (decide (validateKindName k ≠ None)) as [H1|H1].
  { split; [|done]. split; [|done]. intros _. right; left. by rewrite <-Hv. }
  destruct (decide (k = _ ∨ _)) as [H2|H2].
  { split; [|done]. split; [|done]. intros _. tauto. }
  destruct (kinds c !! k) as [x|] eqn:Ek.
  - split; [|done]. split; [|done]. intros _. do 3 right. by eexists.
  - split; [|by intros; simplify_eq]. split; [done|].
    intros [?|[Hn|[?|[x Hx]]]]; [done| |tauto|done].
    destruct Hn. apply Hv. clear Hv. destruct (validateKindName k); [by destruct H1|done].
Qed.
End config.

Arguments tOpts : clear implicits.
Arguments tKind : clear implicits.
Arguments config : clear implicits.

Lemma options_wf_witness :
  ∃ c : config unit_env,
    newConfig "c" "v1" [] [WithConfigKind "player" (0%nat : @Producer unit_env) []; WithConfigEtcdLeaseTTLSecond 5]
      = Ok c ∧ config_wf c.
Proof.
  eexists. split; [vm_compute; reflexivity|].
  apply (options_wf "c" "v1" []
    [WithConfigKind "player" (0%nat : @Producer unit_env) []; WithConfigEtcdLeaseTTLSecond 5]
    _ (0%nat : @Producer unit_env) []).
  - repeat constructor.
  - vm_compute; reflexivity.
Defined.
