(* ===== verification/AddrHash.v ===== *)
(** * addr_hash.go: which node owns a grain

    Rendezvous hashing: every candidate node scores
    fmix32(fnv1a(name ++ address)) and the highest score, then the smallest
    address, wins. *)

From S2P Require Import Prelude GoStrings ActorId Config.
From Stdlib Require Import Btauto.
Open Scope Z_scope.

Definition fnvOffsetBasis32 : Z := 2166136261.
Definition fnvPrime32 : Z := 16777619.

Fixpoint fnv32aAdd (h : Z) (s : string) : Z :=
  match s with
  | EmptyString => h
  | String c s => fnv32aAdd (Z.lxor h (byte_val c) *u32 fnvPrime32)%go s
  end.

Definition fnv32aStart (s : string) : Z := fnv32aAdd fnvOffsetBasis32 s.

Definition fnv32aTwo (a b : string) : Z := fnv32aAdd (fnv32aStart a) b.

Definition fmix32 (h : Z) : Z :=
  let h := Z.lxor h (Z.shiftr h 16) in
  let h := (h *u32 0x85ebca6b)%go in
  let h := Z.lxor h (Z.shiftr h 13) in
  let h := (h *u32 0xc2b2ae35)%go in
  Z.lxor h (Z.shiftr h 16).

(** Go's [<] on strings: bytewise lexicographic. *)
Fixpoint str_ltb (a b : string) : bool :=
  match a, b with
  | _, EmptyString => false
  | EmptyString, String _ _ => true
  | String c a, String d b =>
      if decide (byte_val c < byte_val d) then true
      else if decide (byte_val c = byte_val d) then str_ltb a b else false
  end.

(** One iteration over the candidates: [acc] is (maxScore, maxAddr). *)
Definition calc_step (kind : string) (nameHash : Z) (acc : Z * string) (node : tNodeState)
    : Z * string :=
  let '(maxScore, maxAddr) := acc in
  if decide (kind ∈ Kinds node) then
    if decide (Address node = "") then acc
    else
      let score := fmix32 (fnv32aAdd nameHash (Address node)) in
      if decide (maxScore < score) then (score, Address node)
      else if decide (score = maxScore ∧ (maxAddr = "" ∨ str_ltb (Address node) maxAddr = true))
           then (score, Address node) else acc
  else acc.

Definition CalcAddrByKind8Name (clusterNodes : list tNodeState) (kind name : string) : string :=
  (foldl (calc_step kind (fnv32aStart name)) (0, "") clusterNodes).2.

(** ** The specification: the maximum of a strict total order on addresses *)

Definition score (name addr : string) : Z := fmix32 (fnv32aTwo name addr).

Definition better (name a b : string) : Prop :=
  score name b < score name a ∨ (score name a = score name b ∧ str_ltb a b = true).

Definition candidate (nodes : list tNodeState) (kind a : string) : Prop :=
  a ≠ "" ∧ ∃ n, n ∈ nodes ∧ Address n = a ∧ kind ∈ Kinds n.

(** [a] owns (kind, name) among [nodes]. *)
Definition owner (nodes : list tNodeState) (kind name a : string) : Prop :=
  candidate nodes kind a ∧ ∀ b, candidate nodes kind b → b = a ∨ better name a b.

(** ** Lemmas *)

Lemma byte_val_inj c d : byte_val c = byte_val d → c = d.
Proof.
  unfold byte_val. intros E. apply N2Z.inj in E.
  by rewrite <-(Stdlib.Strings.Ascii.ascii_N_embedding c), E, Stdlib.Strings.Ascii.ascii_N_embedding.
Qed.

Lemma str_ltb_irrefl a : str_ltb a a = false.
Proof. induction a; simpl; [done|]. repeat case_decide; auto; lia. Qed.

Lemma str_ltb_trans a b c : str_ltb a b = true → str_ltb b c = true → str_ltb a c = true.
Proof.
  revert b c. induction a as [|x a IH]; intros [|y b] [|z c]; simpl; try done.
  repeat case_decide; try done; try lia. apply IH.
Qed.

Lemma str_ltb_total a b : a = b ∨ str_ltb a b = true ∨ str_ltb b a = true.
Proof.
  revert b. induction a as [|x a IH]; intros [|y b]; simpl; auto.
  destruct (Z.lt_trichotomy (byte_val x) (byte_val y)) as [|[E|]];
    repeat case_decide; auto; try lia.
  apply byte_val_inj in E as ->. destruct (IH b) as [->|[|]]; auto.
Qed.

Lemma byte_val_range c : 0 ≤ byte_val c < 256.
Proof.
  unfold byte_val. pose proof (Stdlib.Strings.Ascii.N_ascii_bounded c). lia.
Qed.

Lemma fnv32aAdd_app h s t : fnv32aAdd h (s +:+ t) = fnv32aAdd (fnv32aAdd h s) t.
Proof. revert h. induction s as [|c s IH]; intros h; simpl; [done|]. apply IH. Qed.

Lemma fnv32aAdd_range h s : in_u32 h → in_u32 (fnv32aAdd h s).
Proof. revert h. induction s as [|c s IH]; intros h Hh; simpl; [done|]. apply IH, u32_range. Qed.

Lemma lxor_shiftr_u32 x s : 0 ≤ s → in_u32 x → in_u32 (Z.lxor x (Z.shiftr x s)).
Proof.
  unfold in_u32. intros Hs Hx.
  assert (0 ≤ Z.shiftr x s) by (apply Z.shiftr_nonneg; lia).
  assert (0 ≤ Z.lxor x (Z.shiftr x s)) by (apply Z.lxor_nonneg; lia). split; [done|].
  rewrite <-(Z.mod_small (Z.lxor x (Z.shiftr x s)) (2 ^ 32)); [apply Z.mod_pos_bound; lia|].
  split; [done|]. destruct (decide (Z.lxor x (Z.shiftr x s) = 0)) as [->|]; [lia|].
  apply Z.log2_lt_pow2; [lia|].
  eapply Z.le_lt_trans; [apply Z.log2_lxor; lia|].
  assert (∀ y, 0 ≤ y < 2 ^ 32 → Z.log2 y < 32) as Hl.
  { intros y Hy. destruct (decide (y = 0)) as [->|]; [done|]. apply Z.log2_lt_pow2; lia. }
  apply Z.max_lub_lt; apply Hl; [done|]. split; [done|].
  rewrite Z.shiftr_div_pow2 by done. apply Z.le_lt_trans with x; [|lia].
  apply Z.div_le_upper_bound; [apply Z.pow_pos_nonneg; lia|].
  assert (0 < 2 ^ s) by (apply Z.pow_pos_nonneg; lia). nia.
Qed.

Lemma fmix32_range h : in_u32 h → in_u32 (fmix32 h).
Proof. intros Hh. unfold fmix32. apply lxor_shiftr_u32; [lia|]. apply u32_range. Qed.

Lemma score_nonneg name a : 0 ≤ score name a.
Proof.
  apply fmix32_range. unfold fnv32aTwo, fnv32aStart. do 2 apply fnv32aAdd_range.
  unfold in_u32, fnvOffsetBasis32. lia.
Qed.

(** *** fmix32 is invertible *)

Definition unmix32 (h : Z) : Z :=
  let h := Z.lxor h (Z.shiftr h 16) in
  let h := (h *u32 2127672349)%go in
  let h := Z.lxor (Z.lxor h (Z.shiftr h 13)) (Z.shiftr h 26) in
  let h := (h *u32 2781581891)%go in
  Z.lxor h (Z.shiftr h 16).

Lemma xorshift16_inv x : in_u32 x →
  Z.lxor (Z.lxor x (Z.shiftr x 16)) (Z.shiftr (Z.lxor x (Z.shiftr x 16)) 16) = x.
Proof.
  intros Hx. apply Z.bits_inj'. intros i Hi.
  rewrite !Z.lxor_spec, !Z.shiftr_spec, !Z.lxor_spec, !Z.shiftr_spec by lia.
  rewrite (testbit_small x 32 (i + 16 + 16)) by (try done; lia). btauto.
Qed.

Lemma xorshift13_inv x : in_u32 x →
  let y := Z.lxor x (Z.shiftr x 13) in
  Z.lxor (Z.lxor y (Z.shiftr y 13)) (Z.shiftr y 26) = x.
Proof.
  intros Hx y. apply Z.bits_inj'. intros i Hi. unfold y.
  rewrite !Z.lxor_spec, !Z.shiftr_spec, !Z.lxor_spec, !Z.shiftr_spec by lia.
  rewrite (testbit_small x 32 (i + 26 + 13)) by (try done; lia).
  replace (i + 13 + 13) with (i + 26) by lia. btauto.
Qed.

Lemma mul_inv_u32 x c d : in_u32 x → u32 (c * d) = 1 → u32 (u32 (x * c) * d) = x.
Proof.
  unfold u32. intros Hx E. rewrite Z.mul_mod_idemp_l by lia.
  rewrite <-Z.mul_assoc, <-Z.mul_mod_idemp_r, E, Z.mul_1_r by lia. by apply Z.mod_small.
Qed.

Lemma unmix32_fmix32 h : in_u32 h → unmix32 (fmix32 h) = h.
Proof.
  intros Hh. unfold unmix32, fmix32. cbv zeta.
  rewrite xorshift16_inv by apply u32_range.
  rewrite (mul_inv_u32 _ 0xc2b2ae35) by (try apply lxor_shiftr_u32; try apply u32_range; done).
  rewrite xorshift13_inv by apply u32_range.
  rewrite (mul_inv_u32 _ 0x85ebca6b) by (try apply lxor_shiftr_u32; done).
  by apply xorshift16_inv.
Qed.

(** The score is FNV-1a of the whole string, finished by a bijection:
    resuming the hash at the name gives the same value as hashing name and
    address together, [fmix32] is injective on 32-bit words, so two candidates
    tie exactly when their FNV-1a values collide. *)
Theorem score_mixing (nm a b : string) :
  fnv32aTwo nm a = fnv32aStart (nm +:+ a) ∧
  in_u32 (score nm a) ∧
  (∀ x y, in_u32 x → in_u32 y → fmix32 x = fmix32 y → x = y) ∧
  (score nm a = score nm b ↔ fnv32aStart (nm +:+ a) = fnv32aStart (nm +:+ b)).
Proof.
  assert (∀ s, in_u32 (fnv32aStart s)) as Hr.
  { intros s. apply fnv32aAdd_range. unfold in_u32, fnvOffsetBasis32. lia. }
  assert (∀ s, fnv32aTwo nm s = fnv32aStart (nm +:+ s)) as Htwo.
  { intros s. unfold fnv32aTwo, fnv32aStart. by rewrite fnv32aAdd_app. }
  assert (∀ x y, in_u32 x → in_u32 y → fmix32 x = fmix32 y → x = y) as Hinj.
  { intros x y Hx Hy E. rewrite <-(unmix32_fmix32 x Hx), E. by apply unmix32_fmix32. }
  unfold score. rewrite !Htwo. split_and!; auto using fmix32_range.
  split; [auto|by intros ->].
Qed.

(** *** The order and its maximum *)

Lemma better_irrefl nm a : ¬ better nm a a.
Proof. intros [?|[_ H]]; [lia|]. by rewrite str_ltb_irrefl in H. Qed.

Lemma better_trans nm a b c : better nm a b → better nm b c → better nm a c.
Proof.
  unfold better. intros [?|[? ?]] [?|[? ?]]; try (left; lia).
  right. split; [lia|]. by eapply str_ltb_trans.
Qed.

Lemma better_total nm a b : a = b ∨ better nm a b ∨ better nm b a.
Proof.
  unfold better. destruct (Z.lt_trichotomy (score nm a) (score nm b)) as [|[E|]]; auto.
  destruct (str_ltb_total a b) as [|[|]]; auto 6.
Qed.

Lemma candidate_app l1 l2 k a :
  candidate (l1 ++ l2) k a ↔ candidate l1 k a ∨ candidate l2 k a.
Proof. unfold candidate. set_solver. Qed.

Lemma candidate_one n k a : candidate [n] k a ↔ a ≠ "" ∧ Address n = a ∧ k ∈ Kinds n.
Proof. unfold candidate. set_solver. Qed.

(** Folding one more node keeps "score and address of the owner so far". *)
Definition fold_inv (nodes : list tNodeState) (k nm : string) (acc : Z * string) : Prop :=
  (acc = (0, "") ∧ ∀ a, ¬ candidate nodes k a) ∨
  (∃ a, acc = (score nm a, a) ∧ owner nodes k nm a).

Lemma calc_step_inv nodes n k nm acc :
  fold_inv nodes k nm acc → fold_inv (nodes ++ [n]) k nm (calc_step k (fnv32aStart nm) acc n).
Proof.
  intros Hinv. unfold calc_step. destruct acc as [ms ma].
  assert (∀ a, (k ∉ Kinds n ∨ Address n = "") →
    candidate (nodes ++ [n]) k a ↔ candidate nodes k a) as Hskip.
  { intros a Hn. rewrite candidate_app, candidate_one. naive_solver. }
  assert ((k ∉ Kinds n ∨ Address n = "") → fold_inv (nodes ++ [n]) k nm (ms, ma)) as Hsame.
  { intros Hn. destruct Hinv as [[-> H]|(a & -> & H1 & H2)]; [left|right].
    - split; [done|]. intros a. by rewrite Hskip.
    - exists a. split; [done|]. split; [by rewrite Hskip|]. intros b. rewrite Hskip by done. auto. }
  case_decide as Hk; [|auto]. case_decide as Ha; [auto|]. clear Hsame Hskip.
  fold (fnv32aTwo nm (Address n)). fold (score nm (Address n)).
  set (a' := Address n) in *.
  assert (∀ b, candidate (nodes ++ [n]) k b ↔ candidate nodes k b ∨ b = a') as Hc.
  { intros b. rewrite candidate_app, candidate_one. naive_solver. }
  assert ((∀ b, candidate nodes k b → b = a' ∨ better nm a' b) →
    fold_inv (nodes ++ [n]) k nm (score nm a', a')) as Hwin.
  { intros Hb. right. exists a'. split; [done|]. split; [apply Hc; auto|].
    intros c [?| ->]%Hc; auto. }
  destruct Hinv as [[E H]|(a & E & H1 & H2)]; injection E as -> ->.
  - pose proof (score_nonneg nm a'). repeat case_decide; try (apply Hwin; naive_solver).
    assert (score nm a' = 0) by lia. naive_solver.
  - assert (better nm a' a → fold_inv (nodes ++ [n]) k nm (score nm a', a')) as Hw.
    { intros Hb. apply Hwin. intros b [->|?]%H2; eauto using better_trans. }
    case_decide; [apply Hw; by left|]. case_decide as Hd.
    + destruct Hd as [? [->|?]]; [by destruct H1|]. apply Hw. right. split; [lia|done].
    + right. exists a. split; [done|]. split; [apply Hc; auto|].
      intros b [Hb| ->]%Hc; [auto|].
      destruct (better_total nm a a') as [->|[|[?|[? ?]]]]; auto; [lia|]. destruct Hd. auto.
Qed.

Lemma calc_inv nodes k nm :
  fold_inv nodes k nm (foldl (calc_step k (fnv32aStart nm)) (0, "") nodes).
Proof.
  induction nodes as [|n nodes IH] using rev_ind; simpl.
  - left. split; [done|]. intros a (_ & n & []%elem_of_nil & _).
  - rewrite foldl_app. simpl. by apply calc_step_inv.
Qed.

Lemma calc_owner nodes k nm :
  (CalcAddrByKind8Name nodes k nm = "" ∧ ∀ a, ¬ candidate nodes k a) ∨
  owner nodes k nm (CalcAddrByKind8Name nodes k nm).
Proof.
  unfold CalcAddrByKind8Name. destruct (calc_inv nodes k nm) as [[-> H]|(a & -> & H)]; auto.
Qed.

Lemma owner_unique nodes k nm a b : owner nodes k nm a → owner nodes k nm b → a = b.
Proof.
  intros [Ha Hab] [Hb Hba]. destruct (Hab b Hb) as [->|H1]; [done|].
  destruct (Hba a Ha) as [->|H2]; [done|].
  exfalso. eapply better_irrefl, better_trans; eauto.
Qed.

Lemma calc_none nodes k nm :
  CalcAddrByKind8Name nodes k nm = "" ↔ ∀ a, ¬ candidate nodes k a.
Proof.
  destruct (calc_owner nodes k nm) as [[E H]|[Hc H]]; [done|]. split.
  - intros E. rewrite E in Hc. by destruct Hc.
  - intros Hno. by destruct (Hno _ Hc).
Qed.

Lemma calc_some nodes k nm a :
  a ≠ "" → CalcAddrByKind8Name nodes k nm = a ↔ owner nodes k nm a.
Proof.
  intros Ha. destruct (calc_owner nodes k nm) as [[E H]|Ho].
  - rewrite E. split; [done|]. intros [Hc _]. by destruct (H a).
  - split; [by intros <-|]. intros Ho'. by eapply owner_unique.
Qed.

(** [CalcAddrByKind8Name] elects: it returns "" exactly when no node with a
    non-empty address hosts the kind, and otherwise the one candidate address
    that beats every other by (score, then smaller address).  The choice is a
    function of the set of candidates, so every node that sees the same members
    agrees, in whatever order its map yields them. *)
Theorem calc_addr_elects (nodes : list tNodeState) (k nm : string) :
  (CalcAddrByKind8Name nodes k nm = "" ↔ ∀ a, ¬ candidate nodes k a) ∧
  (∀ a, a ≠ "" → CalcAddrByKind8Name nodes k nm = a ↔ owner nodes k nm a) ∧
  (∀ nodes', (∀ a, candidate nodes' k a ↔ candidate nodes k a) →
     CalcAddrByKind8Name nodes' k nm = CalcAddrByKind8Name nodes k nm).
Proof.
  split_and!; [apply calc_none|apply calc_some|].
  intros l Hl. destruct (calc_owner nodes k nm) as [[E H]|Ho].
  - rewrite E. apply calc_none. intros a. rewrite Hl. auto.
  - apply calc_some; [by destruct Ho as [[] _]|]. destruct Ho as [Hc H].
    split; [by apply Hl|]. intros b Hb. apply H. by apply Hl.
Qed.

(** [C37] Membership changes move only what they must: when nodes leave, a grain
    whose owner stays keeps it; when nodes join, a grain either keeps its owner
    or moves to one of the joining nodes. *)
Theorem rendezvous_minimal_disruption (nodes joined : list tNodeState) (k nm : string)
    (keep : tNodeState → bool)
    (Hhost : CalcAddrByKind8Name nodes k nm ≠ "") :
  let o := CalcAddrByKind8Name nodes k nm in
  let rest := filter (λ n, keep n = true) nodes in
  (candidate rest k o → CalcAddrByKind8Name rest k nm = o) ∧
  (CalcAddrByKind8Name (nodes ++ joined) k nm = o ∨
   candidate joined k (CalcAddrByKind8Name (nodes ++ joined) k nm)).
Proof.
  intros o rest. destruct (calc_owner nodes k nm) as [[E _]|Ho]; [done|]. fold o in Ho.
  assert (∀ b, candidate rest k b → candidate nodes k b) as Hsub.
  { intros b (Hb & n & Hn & ?). split; [done|]. exists n.
    apply list_elem_of_filter in Hn as [_ Hn]. done. }
  split.
  - intros Hc. apply calc_some; [by destruct Hc|]. split; [done|].
    intros b Hb. apply Ho. auto.
  - destruct (calc_owner (nodes ++ joined) k nm) as [[_ H]|[Hc H]].
    + destruct (H o). apply candidate_app. left. apply Ho.
    + apply candidate_app in Hc as [Hc|Hc]; [left|by right].
      eapply (owner_unique nodes k nm); [|done]. split; [done|]. intros b Hb. apply H.
      apply candidate_app. by left.
Qed.

Lemma rendezvous_minimal_disruption_witness :
  let n1 := NodeState 1 "10.0.0.1:1" "" "" ["player"] in
  let n2 := NodeState 2 "10.0.0.2:1" "" "" ["player"] in
  let n3 := NodeState 3 "10.0.0.3:1" "" "" ["room"] in
  CalcAddrByKind8Name [n1; n2] "player" "u1" ≠ "" ∧
  (CalcAddrByKind8Name [n1; n2; n3] "player" "u1" = CalcAddrByKind8Name [n1; n2] "player" "u1" ∨
   candidate [n3] "player" (CalcAddrByKind8Name [n1; n2; n3] "player" "u1")).
Proof.
  intros n1 n2 n3. assert (CalcAddrByKind8Name [n1; n2] "player" "u1" ≠ "") as H
    by (vm_compute; discriminate).
  split; [exact H|].
  apply (rendezvous_minimal_disruption [n1; n2] [n3] "player" "u1" (λ _, true) H).
Defined.
