(* ===== verification/Messages.v ===== *)
(** * Messages, contexts and dead letters

    The protobuf messages the framework itself distinguishes (message/msg.pb.go),
    the context a mailbox carries (context_impl.go), its shared sentinels
    (message.go), and the record an undeliverable message becomes
    (dead_letter.go).  [U] is the type of the user's own messages. *)

From S2P Require Import Prelude.
From S2P Require Import GoStrings.
From S2P Require Import ActorId.
From S2P Require Import ErrCode.
Open Scope Z_scope.

Inductive Message (U : Type) : Type :=
| MInitialize
| MPoison
| MErrCode (e : ErrCode)
| MSubscribe (actorId eventName : string)
| MUnsubscribe (actorId eventName : string)
| MBroadcast (m : Message U)
| MUser (u : U).
Arguments MInitialize {U}.
Arguments MPoison {U}.
Arguments MErrCode {U} e.
Arguments MSubscribe {U} actorId eventName.
Arguments MUnsubscribe {U} actorId eventName.
Arguments MBroadcast {U} m.
Arguments MUser {U} u.

#[export] Instance Message_eq_dec {U} `{EqDecision U} : EqDecision (Message U).
Proof. solve_decision. Defined.

(** The type switches the framework makes. *)
Definition is_initialize {U} (m : Message U) : bool :=
  match m with MInitialize => true | _ => false end.
Definition is_poison {U} (m : Message U) : bool :=
  match m with MPoison => true | _ => false end.

(** [contextImpl], less the system it replies through. *)
Record Ctx (U : Type) : Type := NewContext {
  ctarget : ActorRef;
  csender : option ActorRef;
  cmessage : Message U;
  cmsgSnId : Z
}.
Arguments NewContext {U} ctarget csender cmessage cmsgSnId.
Arguments ctarget {U} _.
Arguments csender {U} _.
Arguments cmessage {U} _.
Arguments cmsgSnId {U} _.

#[export] Instance Ctx_eq_dec {U} `{EqDecision U} : EqDecision (Ctx U).
Proof. solve_decision. Defined.

(** The constants of dead_letter.go. *)
Definition DeadLetterReasonOverflow : string := "mailbox overflow".
Definition DeadLetterReasonStopped : string := "actor stopped".
Definition DeadLetterReasonNotFound : string := "actor not found".
Definition DeadLetterReasonNoOwner : string := "kind not hosted by any node".
Definition DeadLetterReasonUnreachable : string := "remote node unreachable".

Record DeadLetter (U : Type) : Type := MkDeadLetter {
  dTarget : ActorRef;
  dOwner : option ActorRef;
  dSender : option ActorRef;
  dMessage : Message U;
  dMsgSnId : Z;
  dReason : string
}.
Arguments MkDeadLetter {U} dTarget dOwner dSender dMessage dMsgSnId dReason.
Arguments dTarget {U} _.
Arguments dOwner {U} _.
Arguments dSender {U} _.
Arguments dMessage {U} _.
Arguments dMsgSnId {U} _.
Arguments dReason {U} _.

(** The sentinels of message.go. *)
Definition errAskInvalidContext : ErrCode :=
  WithErrCode CodeAskInvalidContext ["ask requires the owning actor handler goroutine"].
Definition errSystemStopping : ErrCode :=
  WithErrCode CodeSystemStopping ["actor system is stopping"].
Definition errActorNotFound : ErrCode :=
  WithErrCode CodeActorNotFound ["actor not found"].
Definition errKindNotInCluster : ErrCode :=
  WithErrCode CodeActorNotFound ["actor kind is not hosted by any node in the cluster"].
Definition errAskNotRunning : ErrCode :=
  WithErrCode CodeAskNotRunning
    ["ask is only allowed from a normal handler, not Started() or PreStop(); tell self a message to defer startup work"].

(** What giving a message up makes the outside see: the error an asking sender
    is told, and the dead letter. *)
Inductive report (U : Type) : Type :=
| RTell (to : ActorRef) (m : Message U)
| RDead (dl : DeadLetter U).
Arguments RTell {U} to m.
Arguments RDead {U} dl.

(** [sender != nil && sender.isAsk()], then [sender.Tell(err)]. *)
Definition fail_asker {U} (sender : option ActorRef) (e : ErrCode) : list (report U) :=
  match sender with
  | Some s => if isAsk s then [RTell s (MErrCode e)] else []
  | None => []
  end.

(** [processorMailBox.toDeadLetter] of the processor [self]. *)
Definition toDeadLetter {U} (self : ActorRef) (ctx : Ctx U) (reason : string) : list (report U) :=
  fail_asker (csender ctx) (WithErr ("ask target mailbox unavailable: " +:+ reason)) ++
  [RDead (MkDeadLetter (ctarget ctx) (Some self) (csender ctx) (cmessage ctx) (cmsgSnId ctx) reason)].
