(* ===== verification/Registry.v ===== *)
(** * registry.go: the index of actor ids

    The registry is a [safemap.ConcurrentMap]; it is modelled over any map that
    keeps the contract [MapImpl], so its theorems hold for the sharded map by
    the instance of [SafeMap.v].  A process is an identity [P] (Go compares the
    interface values, i.e. the pointers). *)

From S2P Require Import Prelude.
From S2P Require Import SafeMap.
Open Scope Z_scope.

Section registry.
Context {M P : Type} `{EqDecision P} {MI : MapImpl M string P}.
Implicit Types (r : M) (id : string) (p proc : P).

Definition lookup_proc r id : option P := m_get r id.

(** [(actual, inserted)] and the registry afterwards. *)
Definition register r id proc : (P * bool) * M :=
  let '(actual, r') := m_set_if_not_exist r id proc in
  match actual with
  | Some actual => ((actual, false), r')
  | None => ((proc, true), r')
  end.

Definition remove r id (expected : P) : M :=
  (m_remove_cb r id (λ _ actual, bool_decide (actual = Some expected))).2.

(** [rangeIt]: the entries are collected first, then the callback runs on each;
    [S] is whatever state the callback changes (the registry included). *)
Definition range_callbacks {S} (snapshot : list (string * P)) (fun_ : string → P → S → S) (s : S) : S :=
  foldl (λ s e, fun_ e.1 e.2 s) s snapshot.
Definition rangeIt {S} r (fun_ : string → P → S → S) (s : S) : S :=
  range_callbacks (m_entries r) fun_ s.

(** ** What the operations do to the index *)

Lemma lookup_proc_abs r id : m_wf r → lookup_proc r id = m_abs r !! id.
Proof. apply m_get_law. Qed.

Lemma register_abs r id proc : m_wf r →
  m_wf (register r id proc).2 ∧
  (register r id proc).1 = match m_abs r !! id with Some a => (a, false) | None => (proc, true) end ∧
  m_abs (register r id proc).2
    = match m_abs r !! id with Some _ => m_abs r | None => <[id := proc]> (m_abs r) end.
Proof.
  intros Hr. unfold register.
  destruct (m_set_if_not_exist_law r id proc Hr) as (H1 & H2 & H3).
  destruct (m_set_if_not_exist r id proc) as [a r']. simpl in *. subst a.
  by destruct (m_abs r !! id).
Qed.

Lemma remove_abs r id p : m_wf r →
  m_wf (remove r id p) ∧
  m_abs (remove r id p)
    = if decide (m_abs r !! id = Some p) then delete id (m_abs r) else m_abs r.
Proof.
  intros Hr. unfold remove.
  destruct (m_remove_cb_law r id (λ _ actual, bool_decide (actual = Some p)) Hr) as (H1 & _ & H3).
  split; [done|]. rewrite H3. destruct (decide (m_abs r !! id = Some p)).
  - by rewrite bool_decide_eq_true_2.
  - by rewrite bool_decide_eq_false_2.
Qed.

Lemma remove_lookup_ne r id p : m_wf r → m_abs (remove r id p) !! id ≠ Some p.
Proof.
  intros Hr. destruct (remove_abs r id p Hr) as [_ ->].
  destruct (decide (m_abs r !! id = Some p)); [by rewrite lookup_delete_eq|done].
Qed.

(** A callback that only appends: what it collected came from some entry. *)
Lemma rangeIt_collect {B} (g : string → P → list B → list B) (f : string → P → list B) r (b : B) :
  m_wf r → (∀ id p s, g id p s = s ++ f id p) →
  b ∈ rangeIt r g [] ↔ ∃ id p, m_abs r !! id = Some p ∧ b ∈ f id p.
Proof.
  intros W Hg. unfold rangeIt, range_callbacks.
  assert (∀ l s, b ∈ foldl (λ s e, g e.1 e.2 s) s l ↔ b ∈ s ∨ ∃ e, e ∈ l ∧ b ∈ f e.1 e.2) as H.
  { induction l as [|e l IH]; intros s; cbn [foldl]; [set_solver|]. rewrite IH, Hg. set_solver. }
  rewrite H. setoid_rewrite (m_entries_law r W). split.
  - intros [Hb|([id p] & Hin & Hb)]; [by apply elem_of_nil in Hb|].
    exists id, p. split; [by apply elem_of_map_to_list|done].
  - intros (id & p & Hin & Hb). right. exists (id, p). split; [by apply elem_of_map_to_list|done].
Qed.

(** ** A run of registrations and removals on one id *)

Inductive reg_op : Type :=
| RegRegister (p : P)
| RegRemove (p : P).

Definition reg_step id (o : reg_op) (r : M) : (option (P * bool)) * M :=
  match o with
  | RegRegister p => let '(res, r') := register r id p in (Some res, r')
  | RegRemove p => (None, remove r id p)
  end.

Fixpoint reg_run id (ops : list reg_op) (r : M) : list (option (P * bool)) * M :=
  match ops with
  | [] => ([], r)
  | o :: ops => let '(a, r1) := reg_step id o r in
                let '(l, r2) := reg_run id ops r1 in (a :: l, r2)
  end.

Lemma reg_step_wf id o r : m_wf r → m_wf (reg_step id o r).2.
Proof.
  intros Hr. destruct o as [q|q]; simpl.
  - pose proof (register_abs r id q Hr) as [Ha _]. by destruct (register r id q).
  - by apply remove_abs.
Qed.
End registry.
Arguments reg_op P : clear implicits.

Section index.
Context {M P : Type} `{EqDecision P} {MI : MapImpl M string P}.
Implicit Types (r : M) (id : string) (p : P).

Lemma reg_run_removal_free id ops r p :
  m_wf r → m_abs r !! id = Some p → Forall (λ o, ∀ q, o = RegRemove q → q ≠ p) ops →
  m_abs (reg_run id ops r).2 !! id = Some p ∧
  Forall (λ a, ∀ x, a = Some x → x = (p, false)) (reg_run id ops r).1.
Proof.
  revert r. induction ops as [|o ops IH]; intros r Hr Hp Hops; [done|].
  apply Forall_cons in Hops as [Ho Hops]. simpl.
  destruct (reg_step id o r) as [a r1] eqn:E.
  assert (m_wf r1 ∧ m_abs r1 !! id = Some p ∧ ∀ x, a = Some x → x = (p, false)) as (H1 & H2 & H3).
  { destruct o as [q|q]; simpl in E.
    - destruct (register r id q) as [res r'] eqn:E2. simplify_eq.
      destruct (register_abs r id q Hr) as (Ha & Hb & Hc). rewrite E2 in *. simpl in *.
      rewrite Hp in Hb, Hc. rewrite Hc. naive_solver.
    - simplify_eq. destruct (remove_abs r id q Hr) as [Ha Hb]. split; [done|].
      rewrite Hb, decide_False; [done|]. rewrite Hp. intros [= ->]. by eapply Ho. }
  specialize (IH r1 H1 H2 Hops). destruct (reg_run id ops r1) as [l r2]. simpl in *.
  split; [apply IH|]. constructor; [done|apply IH].
Qed.

Lemma reg_run_wf id ops r : m_wf r → m_wf (reg_run id ops r).2.
Proof.
  revert r. induction ops as [|o ops IH]; intros r Hr; [done|]. simpl.
  pose proof (reg_step_wf id o r Hr) as Ha. destruct (reg_step id o r) as [a r1].
  specialize (IH r1 Ha). by destruct (reg_run id ops r1).
Qed.

(** The index publishes one winner per id.  Registering into a free id
    inserts the process; from then on, as long as nobody removes that very
    process, every registration under the id is told about the winner and
    changes nothing, and a removal that names another activation (an old one
    finishing late) leaves the winner in place.  Removing the winner frees the
    id, and no other id is ever touched. *)
Theorem registry_single_winner (id : string) (p : P) (r : M) (ops : list (reg_op P))
    (Hr : m_wf r) (Hfree : m_abs r !! id = None)
    (Hops : Forall (λ o, ∀ q, o = RegRemove q → q ≠ p) ops) :
  let '((actual, ins), r1) := register r id p in
  actual = p ∧ ins = true ∧
  (∀ id', id' ≠ id → lookup_proc r1 id' = lookup_proc r id') ∧
  let '(results, r2) := reg_run id ops r1 in
  Forall (λ a, ∀ x, a = Some x → x = (p, false)) results ∧
  lookup_proc r2 id = Some p ∧
  lookup_proc (remove r1 id p) id = None.
Proof.
  destruct (register_abs r id p Hr) as (H1 & H2 & H3). rewrite Hfree in H2, H3.
  destruct (register r id p) as [[a b] r1]. simpl in *. injection H2 as -> ->.
  assert (m_abs r1 !! id = Some p) as Hp by (by rewrite H3, lookup_insert_eq).
  split_and!; [done..| |].
  - intros id' Hne. rewrite !lookup_proc_abs, H3 by done. by rewrite lookup_insert_ne.
  - pose proof (reg_run_removal_free id ops r1 p H1 Hp Hops) as [Ha Hb].
    pose proof (reg_run_wf id ops r1 H1) as Hwf.
    destruct (reg_run id ops r1) as [l r2]. simpl in *.
    split_and!; [done|by rewrite lookup_proc_abs|].
    destruct (remove_abs r1 id p H1) as [Hw Hx]. rewrite lookup_proc_abs, Hx by done.
    by rewrite decide_True, lookup_delete_eq.
Qed.
End index.

(** The registry of the program: a string-keyed [ConcurrentMap], here with the
    FNV hash for [maphash]. *)
Definition newRegistry {P} : list (gmap string P) := ConcurrentMap.create.

#[export] Instance registry_map {P} : MapImpl (list (gmap string P)) string P :=
  ConcurrentMap.cmap_impl (K := string) (V := P) ConcurrentMap.stringFnv32.

Lemma registry_wf {P} : m_wf (newRegistry (P := P)).
Proof. apply ConcurrentMap.create_spec. Qed.

Lemma registry_single_winner_witness :
  let id := "direct/local/a@h:1" in
  let ops := [RegRegister 2%nat; RegRemove 3%nat; RegRegister 4%nat] in
  m_abs (newRegistry (P := nat)) !! id = None ∧
  lookup_proc (reg_run id ops (register newRegistry id 1%nat).2).2 id = Some 1%nat.
Proof.
  intros id ops.
  assert (m_abs (newRegistry (P := nat)) !! id = None) as Hfree by (vm_compute; reflexivity).
  assert (Forall (λ o, ∀ q, o = RegRemove q → q ≠ 1%nat) ops) as Hops
    by (repeat constructor; naive_solver).
  split; [exact Hfree|].
  pose proof (registry_single_winner id 1%nat newRegistry ops registry_wf Hfree Hops) as H.
  destruct (register (newRegistry (P := nat)) id 1%nat) as [[a i] r1].
  destruct H as (_ & _ & _ & H). cbn [snd]. destruct (reg_run id ops r1) as [l r2]. apply H.
Defined.
