(* ===== verification/Scheduler.v ===== *)
(** * One actor: mailbox, scheduler, execution gate and lifecycle

    The concurrent behaviour of one [processorMailBox] (processor_mailbox.go,
    processor_scheduler.go, processor_lifecycle.go, execution.go,
    execution_gate.go), as a small-step machine.  Every goroutine that touches
    the processor is a [thread]: the drainers, the senders inside [send], and
    the callers of [poison] and [init].  Its [pc] says which shared access of
    the code it performs next; one step performs that access and the
    goroutine-local code up to the next one.  Code run with the execution
    permit ([lifecycleState], [clusterRegistrationOwned] are read and written
    only there) is grouped into one step between two accesses that other
    goroutines can see.  User code ([Started], [Receive], [PreStop], the two
    registration functions) is a pc at which the environment chooses what
    happens: return, an error, panic, [runtime.Goexit], or a call of [Ask].
    Whatever else user code does to its own actor (a Tell to itself, Poison)
    is a sender or poisoner thread interleaved with it. *)

From S2P Require Import Prelude.
From S2P Require Import Queue.
From S2P Require Import SafeMap.
From S2P Require Import Registry.
From S2P Require Import ActorId.
From S2P Require Import ErrCode.
From S2P Require Import Messages.
Open Scope Z_scope.

Inductive callKind : Type := callStart | callReceive | callStop.
Inductive drainState : Type := drainIdle | drainRunning | drainStopped.
Inductive actorLifecycle : Type :=
| actorInitializing
| actorStarting
| actorStarted
| actorStopping
| actorStopped.

#[export] Instance callKind_eq_dec : EqDecision callKind.
Proof. solve_decision. Defined.
#[export] Instance drainState_eq_dec : EqDecision drainState.
Proof. solve_decision. Defined.
#[export] Instance actorLifecycle_eq_dec : EqDecision actorLifecycle.
Proof. solve_decision. Defined.

(** What a call does when [enter], [leave] or [schedule] returns. *)
Inductive after_enter (U : Type) : Type :=
| KInvoke (c : Ctx U)
| KStopIfIdle
| KResume.
Arguments KInvoke {U} c.
Arguments KStopIfIdle {U}.
Arguments KResume {U}.

Inductive after_leave : Type := KInvoked | KStopLeft | KSuspend.
Inductive after_sched : Type := SDone | SInvoked | SSub.

(** The next shared access of a goroutine. *)
Inductive pc (U : Type) : Type :=
(* drain *)
| PLoop | PPop | PReady | PReadyUnf
(* executionGate.enter: take the permit, set the call, publish the owner *)
| PEnter (k : after_enter U) | PEnterCall (k : after_enter U) | PEnterOwner (k : after_enter U)
(* stopIfIdle *)
| PIdleStatus | PIdleLen | PIdleUnf
(* invoke *)
| PAdd (c : Ctx U) | PDispatch (c : Ctx U)
(* poison, schedule *)
| PPoison (k : after_sched) | PSchedule (k : after_sched)
(* lifecycle.start, Receive *)
| PRegister | PStarted | PReceive
(* lifecycle.stop *)
| PStop (k : after_leave) | PPreStop (k : after_leave) | PUnregister (k : after_leave)
| PStopped (k : after_leave) | PRemove (k : after_leave)
| PDrain (k : after_leave) | PDrained (k : after_leave) (c : Ctx U)
(* executionGate.leave: revoke the owner, clear the call, give the permit back *)
| PLeaveOwner (k : after_leave) | PLeaveCall (k : after_leave) | PLeavePermit (k : after_leave)
(* the deferred part of invoke *)
| PSub | PSubReady
(* finishDraining *)
| PFinish | PFinLen | PFinReady | PFinReadyUnf
(* blocked in awaitReply *)
| PAwait
(* send *)
| PSend (c : Ctx U) | PReject (c : Ctx U) (reason : string)
| PDone.
Arguments PLoop {U}. Arguments PPop {U}. Arguments PReady {U}. Arguments PReadyUnf {U}.
Arguments PEnter {U} k. Arguments PEnterCall {U} k. Arguments PEnterOwner {U} k.
Arguments PIdleStatus {U}. Arguments PIdleLen {U}. Arguments PIdleUnf {U}.
Arguments PAdd {U} c. Arguments PDispatch {U} c. Arguments PPoison {U} k.
Arguments PSchedule {U} k. Arguments PRegister {U}. Arguments PStarted {U}.
Arguments PReceive {U}. Arguments PStop {U} k. Arguments PPreStop {U} k.
Arguments PUnregister {U} k. Arguments PStopped {U} k. Arguments PRemove {U} k.
Arguments PDrain {U} k. Arguments PDrained {U} k c. Arguments PLeaveOwner {U} k.
Arguments PLeaveCall {U} k. Arguments PLeavePermit {U} k. Arguments PSub {U}.
Arguments PSubReady {U}. Arguments PFinish {U}. Arguments PFinLen {U}.
Arguments PFinReady {U}. Arguments PFinReadyUnf {U}. Arguments PAwait {U}.
Arguments PSend {U} c. Arguments PReject {U} c reason. Arguments PDone {U}.

(** The fields of [execution] a drainer keeps, and whether [runtime.Goexit] is
    unwinding it.  A sender's or poisoner's copy of them is never read. *)
Record thread (U : Type) : Type := Thread {
  tpc : pc U;
  drainOwnershipTransferred : bool;
  callKind_ : callKind;
  exiting : bool
}.
Arguments Thread {U} tpc drainOwnershipTransferred callKind_ exiting.
Arguments tpc {U} _.
Arguments drainOwnershipTransferred {U} _.
Arguments callKind_ {U} _.
Arguments exiting {U} _.

(** What happened, in order: the observable history of the processor. *)
Inductive event (U : Type) : Type :=
| EPush (c : Ctx U) (r : PushResult)       (* a mailbox.Push returned r *)
| EDispatch (c : Ctx U)                    (* execution.invoke began with c *)
| ERegister | EStarted | EStartedOk        (* registerToCluster, Started called, Started returned *)
| EReceive (c : Ctx U)                     (* Receive called with c *)
| EClosed | EPreStop | EUnregister | ERemoved
| EDrained (c : Ctx U)                     (* popped by the cleanup of stop *)
| ERejected (c : Ctx U)                    (* refused by Push *)
| EReport (r : report U).                  (* what toDeadLetter emits *)
Arguments EPush {U} c r. Arguments EDispatch {U} c. Arguments ERegister {U}.
Arguments EStarted {U}. Arguments EStartedOk {U}. Arguments EReceive {U} c.
Arguments EClosed {U}. Arguments EPreStop {U}. Arguments EUnregister {U}.
Arguments ERemoved {U}. Arguments EDrained {U} c. Arguments ERejected {U} c.
Arguments EReport {U} r.

(** The state the goroutines share. *)
Record shared (U Q M : Type) : Type := Shared {
  mailbox : Q;
  drainStatus : drainState;
  unfinishedCalls : Z;
  executionPermit : bool;        (* the permit is in the channel *)
  executionOwnerID : Z;
  executingCall : option nat;    (* the drainer whose execution it points to *)
  lifecycleState : actorLifecycle;
  stopRequested : bool;
  clusterRegistrationOwned : bool;
  registry : M;
  history : list (event U)
}.
Arguments Shared {U Q M} _ _ _ _ _ _ _ _ _ _ _.
Arguments mailbox {U Q M} _.
Arguments drainStatus {U Q M} _.
Arguments unfinishedCalls {U Q M} _.
Arguments executionPermit {U Q M} _.
Arguments executionOwnerID {U Q M} _.
Arguments executingCall {U Q M} _.
Arguments lifecycleState {U Q M} _.
Arguments stopRequested {U Q M} _.
Arguments clusterRegistrationOwned {U Q M} _.
Arguments registry {U Q M} _.
Arguments history {U Q M} _.

Record state (U Q M : Type) : Type := State {
  sh : shared U Q M;
  threads : list (thread U)
}.
Arguments State {U Q M} _ _.
Arguments sh {U Q M} _.
Arguments threads {U Q M} _.

(** What the environment decides at a step. *)
Inductive choice : Type :=
| CStep        (* no choice to make *)
| CReturn      (* user code returns (with a nil error), or an Ask's wait ends *)
| CError       (* a registration function returns an error *)
| CPanic
| CGoexit
| CAsk.        (* user code calls Ask *)

#[export] Instance choice_eq_dec : EqDecision choice.
Proof. solve_decision. Defined.

Inductive label (U : Type) : Type :=
| LStep (i : nat) (ch : choice)     (* goroutine i moves *)
| LSend (c : Ctx U)                 (* somebody calls send(c) *)
| LPoison                           (* somebody calls poison() *)
| LRegister (id : string) (p : nat) (* another processor registers under id *)
| LRemove (id : string) (p : nat).  (* ... or deregisters *)
Arguments LStep {U} i ch.
Arguments LSend {U} c.
Arguments LPoison {U}.
Arguments LRegister {U} id p.
Arguments LRemove {U} id p.

Section setters.
Context {U Q M : Type}.
Implicit Types s : shared U Q M.

Definition set_mailbox (x : Q) s := let 'Shared _ b c d e f g h i j k := s in
  Shared x b c d e f g h i j k.
Definition set_status x s := let 'Shared a _ c d e f g h i j k := s in
  Shared a x c d e f g h i j k : shared U Q M.
Definition set_unfinished x s := let 'Shared a b _ d e f g h i j k := s in
  Shared a b x d e f g h i j k : shared U Q M.
Definition set_permit x s := let 'Shared a b c _ e f g h i j k := s in
  Shared a b c x e f g h i j k : shared U Q M.
Definition set_owner x s := let 'Shared a b c d _ f g h i j k := s in
  Shared a b c d x f g h i j k : shared U Q M.
Definition set_call x s := let 'Shared a b c d e _ g h i j k := s in
  Shared a b c d e x g h i j k : shared U Q M.
Definition set_lifecycle x s := let 'Shared a b c d e f _ h i j k := s in
  Shared a b c d e f x h i j k : shared U Q M.
Definition set_stopRequested x s := let 'Shared a b c d e f g _ i j k := s in
  Shared a b c d e f g x i j k : shared U Q M.
Definition set_owned x s := let 'Shared a b c d e f g h _ j k := s in
  Shared a b c d e f g h x j k : shared U Q M.
Definition set_registry (x : M) s := let 'Shared a b c d e f g h i _ k := s in
  Shared a b c d e f g h i x k : shared U Q M.
Definition emit (l : list (event U)) s := let 'Shared a b c d e f g h i j k := s in
  Shared a b c d e f g h i j (k ++ l) : shared U Q M.
End setters.

Section scheduler.
Context {U Q M : Type} {BQ : BoundedQueue Q (Ctx U)} {MI : MapImpl M string nat}.

(** What does not change during the processor's life: its reference [self], its
    identity [me] in the registry, whether registerToCluster and
    unRegisterFromCluster are set; and [goid], the goroutine id the runtime
    gives the i-th goroutine ([routine.Goid], package timandy/routine). *)
Variables (self : ActorRef) (me : nat) (hasRegister hasUnregister : bool) (goid : nat → Z).
Implicit Types (s : shared U Q M) (t : thread U) (c : Ctx U) (q : Q).

Definition with_pc t (p : pc U) : thread U :=
  Thread p (drainOwnershipTransferred t) (callKind_ t) (exiting t).
Definition with_kind t (k : callKind) : thread U :=
  Thread (tpc t) (drainOwnershipTransferred t) k (exiting t).
Definition with_exit t : thread U :=
  Thread (tpc t) (drainOwnershipTransferred t) (callKind_ t) true.

(** [go s.drain()]: a fresh [execution], its callKind still the zero value. *)
Definition new_drainer : thread U := Thread PLoop false callStart false.

(** [schedule]: the CAS, and the goroutine it starts on success. *)
Definition schedule s : shared U Q M * list (thread U) :=
  if decide (drainStatus s = drainIdle) then (set_status drainRunning s, [new_drainer])
  else (s, []).

(** [currentExecution] evaluated by the goroutine with id [g]. *)
Definition currentExecution s (g : Z) : option nat :=
  let ownerID := executionOwnerID s in
  if decide (ownerID = 0 ∨ ownerID ≠ g) then None else executingCall s.

(** The checks [BaseActor.Ask] makes before it suspends: the error it returns
    at once, or the execution it will suspend. *)
Definition Ask_check (kind_of : nat → callKind) s (g : Z) : ErrCode + nat :=
  match currentExecution s g with
  | None => inl errAskInvalidContext
  | Some call => if decide (kind_of call ≠ callReceive) then inl errAskNotRunning else inr call
  end.

(** [suspend], called by the goroutine itself: hand draining over on the first
    Ask of this call, then leave the gate. *)
Definition suspend t : thread U * list (thread U) :=
  if drainOwnershipTransferred t then (with_pc t (PLeaveOwner KSuspend), [])
  else (Thread (PLeaveOwner KSuspend) true (callKind_ t) (exiting t), [new_drainer]).

(** Where [invoke] returns to: with the ownership gone, or while Goexit
    unwinds, the drainer is left; otherwise the loop goes on. *)
Definition after_invoke t : pc U :=
  if exiting t || drainOwnershipTransferred t then PFinish else PLoop.

Definition enter_to (k : after_enter U) : pc U :=
  match k with KInvoke c => PDispatch c | KStopIfIdle => PIdleStatus | KResume => PReceive end.
Definition leave_to (k : after_leave) : pc U :=
  match k with KInvoked => PSub | KStopLeft => PFinish | KSuspend => PAwait end.
Definition sched_to t (k : after_sched) : pc U :=
  match k with SDone => PDone | SInvoked => PLeaveOwner KInvoked | SSub => after_invoke t end.

(** Calling [Ask] from user code at [t]: refused without a state change, or a
    suspension of the caller's own execution. *)
Definition do_ask (kind_of : nat → callKind) s (i : nat) t
    : option (shared U Q M * thread U * list (thread U)) :=
  match Ask_check kind_of s (goid i) with
  | inl _ => Some (s, t, [])
  | inr call => if decide (call = i) then let '(t', new) := suspend t in Some (s, t', new)
                else None
  end.

(** Entering [execution.invoke] with the permit held: the message decides
    between the framework's own signals and the user's Receive. *)
Definition dispatch s t c : shared U Q M * thread U :=
  let s := emit [EDispatch c] s in
  if bool_decide (ctarget c = self) && is_initialize (cmessage c) then
    let t := with_kind t callStart in
    if decide (lifecycleState s = actorInitializing) then
      let s := set_lifecycle actorStarting s in
      if hasRegister then (emit [ERegister] s, with_pc t PRegister)
      else (emit [EStarted] s, with_pc t PStarted)
    else (s, with_pc t (PLeaveOwner KInvoked))
  else if bool_decide (ctarget c = self) && is_poison (cmessage c) then (s, with_pc t (PPoison SInvoked))
  else (emit [EReceive c] s, with_pc (with_kind t callReceive) PReceive).

(** The head of [lifecycle.stop], up to the end of [mailbox.Close]. *)
Definition stop_begin s t (k : after_leave) : shared U Q M * thread U :=
  match lifecycleState s with
  | actorStopped | actorStopping => (s, with_pc t (PLeaveOwner k))
  | l =>
      let s := set_mailbox (q_close (mailbox s)) (set_lifecycle actorStopping s) in
      let t := with_kind t callStop in
      if decide (l = actorStarted) then (emit [EClosed; EPreStop] s, with_pc t (PPreStop k))
      else (emit [EClosed] s, with_pc t (PUnregister k))
  end.

Definition reports (l : list (report U)) : list (event U) := EReport <$> l.

(** ** The steps, function by function

    Each definition below is one function of the source: the access the
    goroutine performs at [tpc t], its new local state, and the goroutines it
    starts; [None] when it is blocked or the choice does not apply. *)

Definition result : Type := option (shared U Q M * thread U * list (thread U)).

Definition go s t (p : pc U) : result := Some (s, with_pc t p, []).

(** [drain] (its loop and the [stopReady] of an empty mailbox). *)
Definition drain_step s t (ch : choice) : result :=
  match tpc t, ch with
  | PLoop, CStep => go s t (if decide (drainStatus s = drainStopped) then PFinish else PPop)
  | PPop, CStep =>
      match q_pop (mailbox s) with
      | Ok (Some c, q) => go (set_mailbox q s) t (PAdd c)
      | Ok (None, q) => go (set_mailbox q s) t PReady
      | Panic => None
      end
  | PReady, CStep => go s t (if stopRequested s then PReadyUnf else PFinish)
  | PReadyUnf, CStep =>
      if decide (unfinishedCalls s = 0)
      then Some (s, with_pc (with_kind t callStop) (PEnter KStopIfIdle), [])
      else go s t PFinish
  | _, _ => None
  end.

(** [executionGate.enter] and [leave]; sending to the full permit channel
    would block. *)
Definition enter_step (i : nat) s t (ch : choice) : result :=
  match tpc t, ch with
  | PEnter k, CStep => if executionPermit s then go (set_permit false s) t (PEnterCall k) else None
  | PEnterCall k, CStep => go (set_call (Some i) s) t (PEnterOwner k)
  | PEnterOwner k, CStep => go (set_owner (goid i) s) t (enter_to k)
  | _, _ => None
  end.

Definition leave_step s t (ch : choice) : result :=
  match tpc t, ch with
  | PLeaveOwner k, CStep => go (set_owner 0 s) t (PLeaveCall k)
  | PLeaveCall k, CStep => go (set_call None s) t (PLeavePermit k)
  | PLeavePermit k, CStep =>
      if executionPermit s then None else go (set_permit true s) t (leave_to k)
  | _, _ => None
  end.

(** [stopIfIdle], after it entered the gate. *)
Definition stopIfIdle_step s t (ch : choice) : result :=
  match tpc t, ch with
  | PIdleStatus, CStep =>
      go s t (if decide (drainStatus s = drainStopped) then PLeaveOwner KStopLeft else PIdleLen)
  | PIdleLen, CStep =>
      go s t (if decide (q_len (mailbox s) = 0) then PIdleUnf else PLeaveOwner KStopLeft)
  | PIdleUnf, CStep =>
      go s t (if decide (unfinishedCalls s = 0) then PStop KStopLeft else PLeaveOwner KStopLeft)
  | _, _ => None
  end.

(** [mailboxScheduler.invoke]: the accounting around [execution.invoke]. *)
Definition invoke_step s t (ch : choice) : result :=
  match tpc t, ch with
  | PAdd c, CStep => go (set_unfinished (unfinishedCalls s +i32 1)%go s) t (PEnter (KInvoke c))
  | PDispatch c, CStep => let '(s', t') := dispatch s t c in Some (s', t', [])
  | PSub, CStep =>
      let remaining := (unfinishedCalls s +i32 -1)%go in
      go (set_unfinished remaining s) t
        (if drainOwnershipTransferred t && bool_decide (remaining = 0) then PSubReady else after_invoke t)
  | PSubReady, CStep => go s t (if stopRequested s then PSchedule SSub else after_invoke t)
  | _, _ => None
  end.

(** [processorMailBox.poison]. *)
Definition poison_step s t (ch : choice) : result :=
  match tpc t, ch with
  | PPoison k, CStep => go (set_stopRequested true s) t (PSchedule k)
  | _, _ => None
  end.

Definition schedule_step s t (ch : choice) : result :=
  match tpc t, ch with
  | PSchedule k, CStep => let '(s', new) := schedule s in Some (s', with_pc t (sched_to t k), new)
  | _, _ => None
  end.

(** [lifecycle.start] past its phase check: registerToCluster, then Started;
    an error, a panic or Goexit leaves through the deferred [stop]. *)
Definition start_step (kind_of : nat → callKind) (i : nat) s t (ch : choice) : result :=
  match tpc t, ch with
  | PRegister, CReturn => go (emit [EStarted] (set_owned true s)) t PStarted
  | PRegister, (CError | CPanic) => go s t (PStop KInvoked)
  | PRegister, CGoexit => go s (with_exit t) (PStop KInvoked)
  | PStarted, CReturn =>
      go (emit [EStartedOk] (set_lifecycle actorStarted s)) t (PLeaveOwner KInvoked)
  | PStarted, CPanic => go s t (PStop KInvoked)
  | PStarted, CGoexit => go s (with_exit t) (PStop KInvoked)
  | PStarted, CAsk => do_ask kind_of s i t
  | _, _ => None
  end.

(** Receive; a panic is recovered by [execution.invoke].  An Ask that suspended
    resumes through the gate. *)
Definition receive_step (kind_of : nat → callKind) (i : nat) s t (ch : choice) : result :=
  match tpc t, ch with
  | PReceive, (CReturn | CPanic) => go s t (PLeaveOwner KInvoked)
  | PReceive, CGoexit => go s (with_exit t) (PLeaveOwner KInvoked)
  | PReceive, CAsk => do_ask kind_of s i t
  | PAwait, CReturn => go s t (PEnter KResume)
  | _, _ => None
  end.

(** [lifecycle.stop]: PreStop, then the two deferred functions, unregister and
    cleanup.  A panic or an error of unRegisterFromCluster goes on like a
    return. *)
Definition stop_step (kind_of : nat → callKind) (i : nat) s t (ch : choice) : result :=
  match tpc t, ch with
  | PStop k, CStep => let '(s', t') := stop_begin s t k in Some (s', t', [])
  | PPreStop k, (CReturn | CPanic) => go s t (PUnregister k)
  | PPreStop k, CGoexit => go s (with_exit t) (PUnregister k)
  | PPreStop _, CAsk => do_ask kind_of s i t
  | PUnregister k, CStep =>
      go (if clusterRegistrationOwned s && hasUnregister then emit [EUnregister] s else s) t (PStopped k)
  | PUnregister k, CGoexit =>
      if clusterRegistrationOwned s && hasUnregister
      then go (emit [EUnregister] s) (with_exit t) (PStopped k) else None
  | PStopped k, CStep => go (set_status drainStopped (set_lifecycle actorStopped s)) t (PRemove k)
  | PRemove k, CStep =>
      go (emit [ERemoved] (set_registry (remove (registry s) (GetId self) me) s)) t (PDrain k)
  | PDrain k, CStep =>
      match q_pop (mailbox s) with
      | Ok (Some c, q) => go (set_mailbox q s) t (PDrained k c)
      | Ok (None, q) => go (set_mailbox q s) t (PLeaveOwner k)
      | Panic => None
      end
  | PDrained k c, CStep =>
      go (emit (EDrained c :: reports (toDeadLetter self c DeadLetterReasonStopped)) s) t (PDrain k)
  | _, _ => None
  end.

(** [finishDraining]. *)
Definition finish_step s t (ch : choice) : result :=
  match tpc t, ch with
  | PFinish, CStep =>
      if drainOwnershipTransferred t then go s t PDone
      else if decide (drainStatus s = drainRunning) then go (set_status drainIdle s) t PFinLen
      else go s t PDone
  | PFinLen, CStep => go s t (if decide (0 < q_len (mailbox s)) then PSchedule SDone else PFinReady)
  | PFinReady, CStep => go s t (if stopRequested s then PFinReadyUnf else PDone)
  | PFinReadyUnf, CStep =>
      go s t (if decide (unfinishedCalls s = 0) then PSchedule SDone else PDone)
  | _, _ => None
  end.

(** [processorMailBox.send]. *)
Definition send_step s t (ch : choice) : result :=
  match tpc t, ch with
  | PSend c, CStep =>
      match q_push (mailbox s) c with
      | Ok (PushOK, q) => go (emit [EPush c PushOK] (set_mailbox q s)) t (PSchedule SDone)
      | Ok (PushOverflow, q) =>
          go (emit [EPush c PushOverflow] (set_mailbox q s)) t (PReject c DeadLetterReasonOverflow)
      | Ok (PushClosed, q) =>
          go (emit [EPush c PushClosed] (set_mailbox q s)) t (PReject c DeadLetterReasonStopped)
      | Panic => None
      end
  | PReject c reason, CStep =>
      go (emit (ERejected c :: reports (toDeadLetter self c reason)) s) t PDone
  | _, _ => None
  end.

(** A step of goroutine [i]. *)
Definition tstep (kind_of : nat → callKind) (i : nat) s t (ch : choice) : result :=
  match tpc t with
  | PLoop | PPop | PReady | PReadyUnf => drain_step s t ch
  | PEnter _ | PEnterCall _ | PEnterOwner _ => enter_step i s t ch
  | PIdleStatus | PIdleLen | PIdleUnf => stopIfIdle_step s t ch
  | PAdd _ | PDispatch _ | PSub | PSubReady => invoke_step s t ch
  | PPoison _ => poison_step s t ch
  | PSchedule _ => schedule_step s t ch
  | PRegister | PStarted => start_step kind_of i s t ch
  | PReceive | PAwait => receive_step kind_of i s t ch
  | PStop _ | PPreStop _ | PUnregister _ | PStopped _ | PRemove _ | PDrain _ | PDrained _ _ =>
      stop_step kind_of i s t ch
  | PLeaveOwner _ | PLeaveCall _ | PLeavePermit _ => leave_step s t ch
  | PFinish | PFinLen | PFinReady | PFinReadyUnf => finish_step s t ch
  | PSend _ | PReject _ _ => send_step s t ch
  | PDone => None
  end.

Definition kind_of (ths : list (thread U)) (i : nat) : callKind :=
  from_option callKind_ callStart (ths !! i).

Definition exec (l : label U) (st : state U Q M) : option (state U Q M) :=
  let 'State s ths := st in
  match l with
  | LStep i ch =>
      match ths !! i with
      | None => None
      | Some t =>
          match tstep (kind_of ths) i s t ch with
          | None => None
          | Some (s', t', new) => Some (State s' (<[i := t']> ths ++ new))
          end
      end
  | LSend c => Some (State s (ths ++ [Thread (PSend c) false callStart false]))
  | LPoison => Some (State s (ths ++ [Thread (PPoison SDone) false callStart false]))
  | LRegister id p =>
      if decide (p = me) then None
      else Some (State (set_registry (register (registry s) id p).2 s) ths)
  | LRemove id p =>
      if decide (p = me) then None
      else Some (State (set_registry (remove (registry s) id p) s) ths)
  end.

(** [initializeScheduling] on a fresh mailbox, the registration, and the
    spawner's goroutine about to call [proc.init()]. *)
Definition msgInit (snId : Z) : Ctx U := NewContext self (Some self) MInitialize snId.

Definition initial (q0 : Q) (r0 : M) (snId : Z) : option (state U Q M) :=
  match q_push q0 (msgInit snId) with
  | Ok (PushOK, q) =>
      let r := (register r0 (GetId self) me).2 in
      Some (State (Shared q drainIdle 0 true 0 None actorInitializing false false r
                     [EPush (msgInit snId) PushOK])
                  [Thread (PSchedule SDone) false callStart false])
  | _ => None
  end.

(** A mailbox fresh from [ringbuffer.New]. *)
Definition fresh_mailbox (q0 : Q) : Prop :=
  q_wf q0 ∧ ∃ n, 1 ≤ n ∧ q_abs q0 = QState [] n false.

Inductive reachable : state U Q M → Prop :=
| reach_init q0 r0 snId st :
    fresh_mailbox q0 → m_wf r0 → m_abs r0 !! GetId self = None →
    initial q0 r0 snId = Some st → reachable st
| reach_step st l st' : reachable st → exec l st = Some st' → reachable st'.

Fixpoint run (ls : list (label U)) (st : state U Q M) : option (state U Q M) :=
  match ls with
  | [] => Some st
  | l :: ls => match exec l st with Some st' => run ls st' | None => None end
  end.

Lemma run_reachable ls st st' : reachable st → run ls st = Some st' → reachable st'.
Proof.
  revert st. induction ls as [|l ls IH]; simpl; intros st Hr E; [by simplify_eq|].
  destruct (exec l st) as [st1|] eqn:E1; [|done]. eapply IH; [|done]. by econstructor.
Qed.
End scheduler.
