(* ===== verification/SchedulerInv.v ===== *)
(** * The invariants of the scheduler machine

    Counting arguments over the goroutines of [Scheduler.v] (who holds the
    permit, who is inside a call, who owns draining), the ownership discipline
    of the execution gate, the conservation of messages and the lifecycle
    protocol, each preserved by every step. *)

From S2P Require Import Prelude.
From S2P Require Import Queue.
From S2P Require Import SafeMap.
From S2P Require Import Registry.
From S2P Require Import ActorId.
From S2P Require Import ErrCode.
From S2P Require Import Messages.
From S2P Require Import Scheduler.
Open Scope Z_scope.

(** ** Roles of a goroutine, read off its pc *)

Section roles.
Context {U : Type}.
Implicit Types (p : pc U) (t : thread U).

(** It has taken the execution permit and not given it back. *)
Definition holds p : bool :=
  match p with
  | PEnterCall _ | PEnterOwner _ | PIdleStatus | PIdleLen | PIdleUnf | PDispatch _
  | PPoison SInvoked | PSchedule SInvoked | PRegister | PStarted | PReceive
  | PStop _ | PPreStop _ | PUnregister _ | PStopped _ | PRemove _ | PDrain _ | PDrained _ _
  | PLeaveOwner _ | PLeaveCall _ | PLeavePermit _ => true
  | _ => false
  end.

(** It has published itself as the owner of the gate. *)
Definition published p : bool :=
  match p with
  | PEnterCall _ | PEnterOwner _ | PLeaveCall _ | PLeavePermit _ => false
  | _ => holds p
  end.

(** It is between [unfinishedCalls.Add(1)] and [Add(-1)]. *)
Definition in_call p : bool :=
  match p with
  | PEnter (KInvoke _ | KResume) | PEnterCall (KInvoke _ | KResume)
  | PEnterOwner (KInvoke _ | KResume) | PDispatch _
  | PPoison SInvoked | PSchedule SInvoked | PRegister | PStarted | PReceive
  | PStop KInvoked | PPreStop KInvoked | PUnregister KInvoked | PStopped KInvoked
  | PRemove KInvoked | PDrain KInvoked | PDrained KInvoked _
  | PLeaveOwner (KInvoked | KSuspend) | PLeaveCall (KInvoked | KSuspend)
  | PLeavePermit (KInvoked | KSuspend) | PAwait | PSub => true
  | _ => false
  end.

(** It is running the loop of [drain], not yet past the CAS of finishDraining. *)
Definition drain_pc p : bool :=
  match p with
  | PSchedule SDone | PPoison SDone | PPoison SSub | PFinLen | PFinReady | PFinReadyUnf
  | PSend _ | PReject _ _ | PDone => false
  | _ => true
  end.

Definition owns t : bool := negb (drainOwnershipTransferred t) && drain_pc (tpc t).

(** It has popped this message and not yet dispatched or dead-lettered it. *)
Definition inhand p : list (Ctx U) :=
  match p with
  | PAdd c | PEnter (KInvoke c) | PEnterCall (KInvoke c) | PEnterOwner (KInvoke c)
  | PDispatch c | PDrained _ c => [c]
  | _ => []
  end.

(** User code of the actor is running on it. *)
Definition in_user_code p : bool :=
  match p with PRegister | PStarted | PReceive | PPreStop _ | PUnregister _ => true | _ => false end.
End roles.

Definition b2z (b : bool) : Z := if b then 1 else 0.
Definition count {U} (f : thread U → bool) (ths : list (thread U)) : Z :=
  sum_of (λ t, b2z (f t)) ths.

Lemma b2z_bounds b : 0 ≤ b2z b ≤ 1.
Proof. destruct b; simpl; lia. Qed.

Section counting.
Context {U : Type}.
Implicit Types (t : thread U) (ths new : list (thread U)) (f : thread U → bool).

Lemma count_step f ths new i t t' :
  ths !! i = Some t →
  count f (<[i := t']> ths ++ new) = count f ths - b2z (f t) + b2z (f t') + count f new.
Proof. intros Hi. unfold count. by rewrite sum_of_app, (sum_of_insert _ _ _ t). Qed.

Lemma count_snoc f ths t : count f (ths ++ [t]) = count f ths + b2z (f t).
Proof. unfold count. rewrite sum_of_app. unfold sum_of. simpl. lia. Qed.

Lemma count_bounds f ths : 0 ≤ count f ths ≤ Z.of_nat (length ths).
Proof. apply sum_of_bounds. intros. apply b2z_bounds. Qed.

Lemma count_nil f : count f [] = 0.
Proof. done. Qed.
Lemma count_one f t : count f [t] = b2z (f t).
Proof. unfold count, sum_of. simpl. lia. Qed.

Lemma count_unique f ths i j t1 t2 :
  count f ths ≤ 1 → ths !! i = Some t1 → ths !! j = Some t2 →
  f t1 = true → f t2 = true → i = j.
Proof.
  intros Hc Hi Hj H1 H2. destruct (decide (i = j)) as [|Hne]; [done|].
  pose proof (sum_of_two (λ t, b2z (f t)) ths i j t1 t2 (λ t, proj1 (b2z_bounds (f t))) Hi Hj Hne).
  unfold count in Hc. cbv beta in H. rewrite H1, H2 in H. change (b2z true) with 1 in H. lia.
Qed.

Lemma count_zero_elem f ths i t : count f ths = 0 → ths !! i = Some t → f t = false.
Proof.
  intros Hc Hi.
  pose proof (sum_of_elem (λ t, b2z (f t)) ths i t (λ t, proj1 (b2z_bounds (f t))) Hi) as H.
  unfold count in Hc. cbv beta in H. destruct (f t) eqn:E; [|done].
  change (b2z true) with 1 in H. lia.
Qed.

Lemma count_pos_elem f ths : 0 < count f ths → ∃ i t, ths !! i = Some t ∧ f t = true.
Proof.
  intros H. destruct (sum_of_pos_elem _ _ H) as (i & t & Hi & Ht). exists i, t.
  split; [done|]. by destruct (f t).
Qed.

Lemma count_elem_pos f ths i t : ths !! i = Some t → f t = true → 1 ≤ count f ths.
Proof.
  intros Hi Ht.
  pose proof (sum_of_elem (λ t, b2z (f t)) ths i t (λ t, proj1 (b2z_bounds (f t))) Hi) as H.
  unfold count. cbv beta in H. rewrite Ht in H. exact H.
Qed.
End counting.

Definition t_holds {U} (t : thread U) : bool := holds (tpc t).
Definition t_in_call {U} (t : thread U) : bool := in_call (tpc t).

(** Unfolding a step down to the code of its function. *)
Ltac unfold_step H :=
  unfold Scheduler.tstep, drain_step, enter_step, leave_step, stopIfIdle_step, invoke_step, poison_step,
    schedule_step, start_step, receive_step, stop_step, finish_step, send_step, go in H.
Ltac unfold_step_goal :=
  unfold Scheduler.tstep, drain_step, enter_step, leave_step, stopIfIdle_step, invoke_step, poison_step,
    schedule_step, start_step, receive_step, stop_step, finish_step, send_step, go.

(** [pc_cases p ch] splits on the pc, its continuation and the choice, keeping
    the combinations the machine has; [step_cases H] then splits the step [H]
    into the code's branches. *)
Ltac pc_cases p ch H :=
  destruct p, ch; simpl in H; try discriminate H;
  repeat match goal with
  | k : after_enter _ |- _ => destruct k
  | k : after_leave |- _ => destruct k
  | k : after_sched |- _ => destruct k
  end.
Ltac step_cases H :=
  unfold_step H; unfold dispatch, stop_begin, schedule, do_ask, suspend, after_invoke in H;
  simpl in H; repeat (case_match; simplify_eq/=; try done); simplify_eq/=.

Section invariants.
Context {U Q M : Type} {BQ : BoundedQueue Q (Ctx U)} {MI : MapImpl M string nat}.
Variables (self : ActorRef) (me : nat) (hasRegister hasUnregister : bool) (goid : nat → Z).
Implicit Types (s : shared U Q M) (t : thread U) (c : Ctx U) (st : state U Q M).

Local Abbreviation tstep := (tstep self me hasRegister hasUnregister goid).
Local Abbreviation exec := (exec self me hasRegister hasUnregister goid).
Local Abbreviation reachable := (reachable self me hasRegister hasUnregister goid).

(** ** Counting *)

(** What a goroutine's own fields satisfy at each pc. *)
Definition local_ok t : Prop :=
  match tpc t with
  | PReceive | PAwait | PEnter KResume | PEnterCall KResume | PEnterOwner KResume =>
      callKind_ t = callReceive
  | PLeaveOwner KSuspend | PLeaveCall KSuspend | PLeavePermit KSuspend =>
      callKind_ t = callReceive ∧ drainOwnershipTransferred t = true
  | PRegister | PStarted => callKind_ t = callStart
  | PPreStop (KInvoked | KStopLeft) => callKind_ t = callStop
  | PSubReady | PSchedule SSub => drainOwnershipTransferred t = true
  | PPoison SSub
  | PStop KSuspend | PPreStop KSuspend | PUnregister KSuspend | PStopped KSuspend
  | PRemove KSuspend | PDrain KSuspend | PDrained KSuspend _ => False
  | _ => True
  end ∧
  match tpc t with
  | PReceive | PAwait | PEnter KResume | PEnterCall KResume | PEnterOwner KResume
  | PLeaveOwner (KInvoked | KSuspend) | PLeaveCall (KInvoked | KSuspend)
  | PLeavePermit (KInvoked | KSuspend) | PSub | PSubReady | PSchedule SSub | PFinish | PDone => True
  | _ => drainOwnershipTransferred t = false
  end ∧
  match tpc t with
  | PAwait | PEnter KResume | PEnterCall KResume | PEnterOwner KResume =>
      drainOwnershipTransferred t = true
  | _ => True
  end.


(** *** What one step does to the goroutines' own fields *)

Lemma Ask_check_own kof s i : (∀ call, currentExecution s (goid i) = Some call → call = i) →
  ∀ call, Ask_check kof s (goid i) = inr call → call = i ∧ kof i = callReceive.
Proof.
  intros Hown call. unfold Ask_check. destruct (currentExecution s (goid i)) as [j|] eqn:E; [|done].
  destruct (decide (kof j ≠ callReceive)); [done|]. intros [= <-].
  rewrite (Hown j eq_refl) in *. split; [done|]. by destruct (decide (kof i = callReceive)).
Qed.

Lemma do_ask_cases kof s i t s' t' new :
  do_ask goid kof s i t = Some (s', t', new) →
  (s' = s ∧ t' = t ∧ new = []) ∨
  (s' = s ∧ kof i = callReceive ∧ (t', new) = suspend t).
Proof.
  unfold do_ask, Ask_check. destruct (currentExecution s (goid i)) as [j|].
  - destruct (decide (kof j ≠ callReceive)) as [|Hk].
    + intros [= <- <- <-]. auto.
    + destruct (decide (j = i)) as [->|]; [|done]. destruct (suspend t) as [t1 n1].
      intros [= <- <- <-]. right. split_and!; [done| |done].
      by destruct (decide (kof i = callReceive)).
  - intros [= <- <- <-]. auto.
Qed.

Ltac local_done :=
  unfold local_ok, after_invoke in *; simpl in *; destruct_and?; subst;
  rewrite ?orb_true_r; repeat case_match; split_and?; try done; try congruence;
  try (rewrite orb_true_r in *; done).

Lemma suspend_local t t' new :
  (t', new) = suspend t → callKind_ t = callReceive → local_ok t' ∧ Forall local_ok new.
Proof.
  destruct t as [p [] k ex]; unfold suspend; simpl; intros [= -> ->] Hk;
    (split; [local_done|repeat constructor; local_done]).
Qed.

(** Ask suspends only from Receive; anywhere else it is refused. *)
Lemma tstep_ask kof i s t s' t' new :
  tstep kof i s t CAsk = Some (s', t', new) → local_ok t → kof i = callKind_ t →
  (s' = s ∧ t' = t ∧ new = []) ∨ (s' = s ∧ tpc t = PReceive ∧ (t', new) = suspend t).
Proof.
  intros H Hl Hk. destruct t as [p tr k ex].
  assert (do_ask goid kof s i (Thread p tr k ex) = Some (s', t', new)) as Ha
    by (destruct p; simpl in H; try discriminate H; exact H).
  apply do_ask_cases in Ha as [(-> & -> & ->)|(-> & Hr & Hs)]; [by left|]. right.
  split_and!; [done| |done].
  destruct p; simpl in *; try done; destruct Hl as [Hl _]; simpl in Hl; [congruence|].
  destruct k0; try done; congruence.
Qed.

Lemma tstep_local kof i s t ch s' t' new :
  tstep kof i s t ch = Some (s', t', new) → local_ok t → kof i = callKind_ t →
  local_ok t' ∧ Forall local_ok new.
Proof.
  intros H Hl Hk. destruct (decide (ch = CAsk)) as [->|Hne].
  - destruct (tstep_ask _ _ _ _ _ _ _ H Hl Hk) as [(-> & -> & ->)|(-> & Hp & Hs)].
    + by split; [|constructor].
    + eapply suspend_local; [exact Hs|]. destruct t as [p tr k ex]. simpl in *. subst p. apply Hl.
  - destruct t as [p tr k ex]. destruct tr; pc_cases p ch H; step_cases H.
    all: (split; [local_done|repeat constructor; local_done]).
Qed.

(** *** What one step does to the counts *)

Definition status_moves s s' (o o' : Z) : Prop :=
  (drainStatus s' = drainStatus s ∧ o' = o) ∨
  (drainStatus s = drainIdle ∧ drainStatus s' = drainRunning ∧ o' = o + 1) ∨
  (drainStatus s = drainRunning ∧ drainStatus s' = drainIdle ∧ o = 1 ∧ o' = 0) ∨
  (drainStatus s' = drainStopped ∧ o' = o) ∨
  (drainStatus s ≠ drainRunning ∧ drainStatus s' = drainStatus s ∧ o = 1 ∧ o' = 0).

Definition calls_move s s' (a a' : Z) : Prop :=
  (unfinishedCalls s' = unfinishedCalls s ∧ a' = a) ∨
  unfinishedCalls s' = i32 (unfinishedCalls s + (a' - a)).

Definition counts_ok s s' t t' (new : list (thread U)) : Prop :=
  b2z (executionPermit s') + b2z (t_holds t') + count t_holds new
    = b2z (executionPermit s) + b2z (t_holds t) ∧
  calls_move s s' (b2z (t_in_call t)) (b2z (t_in_call t') + count t_in_call new) ∧
  status_moves s s' (b2z (owns t)) (b2z (owns t') + count owns new).

Ltac counts_done :=
  unfold counts_ok, calls_move, status_moves, after_invoke, t_holds, t_in_call, owns, count, sum_of in *;
  simpl in *; unfold b2z; simpl; rewrite ?orb_true_r; simpl;
  repeat case_match; simplify_eq/=; split_and!; first [lia|auto 10].

Lemma suspend_counts s t t' new :
  (t', new) = suspend t → tpc t = PReceive → counts_ok s s t t' new.
Proof.
  destruct t as [p [] k ex]; unfold suspend; simpl; intros [= -> ->] ->; counts_done.
Qed.

Lemma shared_eta s :
  s = Shared (mailbox s) (drainStatus s) (unfinishedCalls s) (executionPermit s)
    (executionOwnerID s) (executingCall s) (lifecycleState s) (stopRequested s)
    (clusterRegistrationOwned s) (registry s) (history s).
Proof. by destruct s. Qed.

Lemma tstep_counts kof i s t ch s' t' new :
  tstep kof i s t ch = Some (s', t', new) → local_ok t → kof i = callKind_ t →
  counts_ok s s' t t' new.
Proof.
  intros H Hl Hk. destruct (decide (ch = CAsk)) as [->|Hne].
  - destruct (tstep_ask _ _ _ _ _ _ _ H Hl Hk) as [(-> & -> & ->)|(-> & Hp & Hs)]; [counts_done|].
    by eapply suspend_counts.
  - destruct t as [p tr k ex].
    destruct s, tr; pc_cases p ch H; step_cases H; destruct Hl as (Hl1 & Hl2 & Hl3); simpl in *; try done.
    all: counts_done.
Qed.
End invariants.
Arguments tstep_counts {U Q M BQ MI self me hasRegister hasUnregister goid kof i s t ch s' t' new} _ _ _.
Arguments tstep_local {U Q M BQ MI self me hasRegister hasUnregister goid kof i s t ch s' t' new} _ _ _.
Arguments tstep_ask {U Q M BQ MI self me hasRegister hasUnregister goid kof i s t s' t' new} _ _ _.
