(* ===== verification/SchedulerCount.v ===== *)
(** * Reachable states count correctly

    The first invariant of the scheduler machine: one permit, the number of
    calls under way in [unfinishedCalls], and the number of drainers the status
    announces. *)

From S2P Require Import Prelude.
From S2P Require Import Queue.
From S2P Require Import SafeMap.
From S2P Require Import Registry.
From S2P Require Import ActorId.
From S2P Require Import Messages.
From S2P Require Import Scheduler.
From S2P Require Import SchedulerInv.
Open Scope Z_scope.

Section invariants.
Context {U Q M : Type} {BQ : BoundedQueue Q (Ctx U)} {MI : MapImpl M string nat}.
Variables (self : ActorRef) (me : nat) (hasRegister hasUnregister : bool) (goid : nat → Z).
Implicit Types (s : shared U Q M) (t : thread U) (c : Ctx U) (st : state U Q M).

Local Abbreviation tstep := (tstep self me hasRegister hasUnregister goid).
Local Abbreviation exec := (exec self me hasRegister hasUnregister goid).
Local Abbreviation reachable := (reachable self me hasRegister hasUnregister goid).

(** ** The counting invariant *)

Record inv_count st : Prop := {
  ic_permit : b2z (executionPermit (sh st)) + count t_holds (threads st) = 1;
  ic_calls : unfinishedCalls (sh st) = i32 (count t_in_call (threads st));
  ic_owner : match drainStatus (sh st) with
             | drainIdle => count owns (threads st) = 0
             | drainRunning => count owns (threads st) = 1
             | drainStopped => count owns (threads st) ≤ 1
             end;
  ic_local : ∀ i t, threads st !! i = Some t → local_ok t
}.


Lemma local_lookup_step ths i t' new :
  (∀ j t, ths !! j = Some t → local_ok t) → local_ok t' → Forall local_ok new →
  ∀ j t, (<[i := t']> ths ++ new) !! j = Some t → local_ok t.
Proof.
  intros Hths Ht' Hnew j t Hj. apply lookup_app_Some in Hj as [Hj|[_ Hj]].
  - apply list_lookup_insert_Some in Hj as [(_ & -> & _)|[_ Hj]]; eauto.
  - rewrite Forall_forall in Hnew. apply Hnew. by eapply list_elem_of_lookup_2.
Qed.

Lemma exec_step_inv i ch st st' :
  exec (LStep i ch) st = Some st' → ∃ t t' new, threads st !! i = Some t ∧
    tstep (kind_of (threads st)) i (sh st) t ch = Some (sh st', t', new) ∧
    threads st' = <[i := t']> (threads st) ++ new ∧ kind_of (threads st) i = callKind_ t.
Proof.
  destruct st as [s ths]. simpl. destruct (ths !! i) as [t|] eqn:Hi; [|done].
  destruct (tstep _ i s t ch) as [[[s' t'] new]|] eqn:E; [|done].
  intros [= <-]. exists t, t', new. split_and!; [done|done|done|].
  unfold kind_of. by rewrite Hi.
Qed.

(** A step that only adds a goroutine outside every role. *)
Lemma exec_env_inv l st st' :
  exec l st = Some st' → (∀ i ch, l ≠ LStep i ch) →
  (∃ p, sh st' = sh st ∧ threads st' = threads st ++ [Thread p false callStart false] ∧
        ((∃ c, p = PSend c) ∨ p = PPoison SDone)) ∨
  (threads st' = threads st ∧ ∃ r, sh st' = set_registry r (sh st) ∧
     (m_wf (registry (sh st)) → m_wf r ∧
        (m_abs r !! GetId self = Some me ↔ m_abs (registry (sh st)) !! GetId self = Some me))).
Proof.
  destruct st as [s ths]. intros E Hl. destruct l as [i ch|c| |id p|id p]; simpl in E.
  - by destruct (Hl i ch).
  - simplify_eq/=. left. eauto 10.
  - simplify_eq/=. left. eauto 10.
  - destruct (decide (p = me)); simplify_eq/=. right. split; [done|]. eexists. split; [done|].
    intros Hr. destruct (register_abs (registry s) id p Hr) as (H1 & _ & H3). split; [done|].
    rewrite H3. destruct (m_abs (registry s) !! id) eqn:Hid; [done|].
    destruct (decide (id = GetId self)) as [->|]; [rewrite lookup_insert_eq; split; congruence|].
    by rewrite lookup_insert_ne.
  - destruct (decide (p = me)); simplify_eq/=. right. split; [done|]. eexists. split; [done|].
    intros Hr. destruct (remove_abs (registry s) id p Hr) as [H1 H2]. split; [done|].
    rewrite H2. case_decide; [|done].
    destruct (decide (id = GetId self)) as [->|]; [rewrite lookup_delete_eq; split; congruence|].
    by rewrite lookup_delete_ne.
Qed.

Lemma set_registry_fields r s :
  mailbox (set_registry r s) = mailbox s ∧ drainStatus (set_registry r s) = drainStatus s ∧
  unfinishedCalls (set_registry r s) = unfinishedCalls s ∧
  executionPermit (set_registry r s) = executionPermit s ∧
  executionOwnerID (set_registry r s) = executionOwnerID s ∧
  executingCall (set_registry r s) = executingCall s ∧
  lifecycleState (set_registry r s) = lifecycleState s ∧
  stopRequested (set_registry r s) = stopRequested s ∧
  clusterRegistrationOwned (set_registry r s) = clusterRegistrationOwned s ∧
  history (set_registry r s) = history s.
Proof. by destruct s. Qed.

Lemma label_cases (l : label U) : (∃ i ch, l = LStep i ch) ∨ (∀ i ch, l ≠ LStep i ch).
Proof. destruct l; [left; eauto|right; done..]. Qed.

Lemma exec_inv_count l st st' : inv_count st → exec l st = Some st' → inv_count st'.
Proof.
  intros [H1 H2 H3 H4] E. destruct (label_cases l) as [(i & ch & ->)|Hl].
  - destruct (exec_step_inv _ _ _ _ E) as (t & t' & new & Hi & Ht & Hths & Hk).
    destruct (tstep_counts Ht (H4 i t Hi) Hk) as (C1 & C2 & C3).
    destruct (tstep_local Ht (H4 i t Hi) Hk) as [L1 L2].
    pose proof (count_step t_holds _ new i t t' Hi) as S1.
    pose proof (count_step t_in_call _ new i t t' Hi) as S2.
    pose proof (count_step owns _ new i t t' Hi) as S3.
    constructor; rewrite ?Hths.
    + lia.
    + rewrite S2. destruct C2 as [[-> Hc]| ->].
      * rewrite H2. f_equal. lia.
      * rewrite H2, i32_i32_add. f_equal. lia.
    + pose proof (count_bounds owns (threads st)).
      pose proof (count_bounds owns (<[i:=t']> (threads st) ++ new)).
      rewrite S3 in *. destruct C3 as [[-> ?]|[(E1 & -> & ?)|[(E1 & -> & ?)|[[-> ?]|(E1 & -> & ?)]]]];
        destruct (drainStatus (sh st)); try done; try lia;
        pose proof (count_bounds owns new); destruct (owns t); simpl in *; lia.
    + by apply local_lookup_step.
  - destruct (exec_env_inv _ _ _ E Hl) as [(p & Hs & Hths & Hp)|(Hths & r & Hs & _)].
    + constructor; rewrite ?Hs, ?Hths, ?count_snoc;
        [destruct Hp as [[c ->]| ->]; simpl; unfold t_holds, t_in_call, owns; simpl;
           rewrite ?Z.add_0_r; assumption..|].
      intros j t Hj. apply lookup_app_Some in Hj as [Hj|[_ Hj]]; [eauto|].
      apply list_lookup_singleton_Some in Hj as [_ <-]. by destruct Hp as [[c ->]| ->].
    + destruct (set_registry_fields r (sh st)) as (_ & F1 & F2 & F3 & _).
      constructor; rewrite ?Hs, ?Hths, ?F1, ?F2, ?F3; assumption.
Qed.

Lemma initial_spec q0 r0 snId st :
  fresh_mailbox q0 → initial self me q0 r0 snId = Some st →
  ∃ q n, q_wf q ∧ 1 ≤ n ∧ q_abs q = QState [msgInit self snId] n false ∧
    st = State (Shared q drainIdle 0 true 0 None actorInitializing false false
                  (register r0 (GetId self) me).2 [EPush (msgInit self snId) PushOK])
               [Thread (PSchedule SDone) false callStart false].
Proof.
  intros [Hq (n & Hn & Ha)] E. unfold initial in E.
  destruct (q_push_law q0 (msgInit self snId) Hq) as (q & Hp & Hw & Hq').
  rewrite Hp, Ha in E. unfold spec_push in E, Hq'. simpl in E. rewrite Ha in Hq'. simpl in Hq'.
  rewrite decide_True in E by lia. rewrite decide_True in Hq' by lia. simpl in *.
  injection E as <-. by exists q, n.
Qed.

Lemma reachable_inv_count st : reachable st → inv_count st.
Proof.
  induction 1 as [q0 r0 snId st Hf _ _ E|st l st' _ IH E]; [|by eapply exec_inv_count].
  destruct (initial_spec _ _ _ _ Hf E) as (q & n & _ & _ & _ & ->).
  constructor; simpl; try done. intros i t Hi. apply list_lookup_singleton_Some in Hi as [_ <-]. done.
Qed.
End invariants.
Arguments reachable_inv_count {U Q M BQ MI self me hasRegister hasUnregister goid st} _.
Arguments exec_step_inv {U Q M BQ MI self me hasRegister hasUnregister goid i ch st st'} _.
Arguments exec_env_inv {U Q M BQ MI self me hasRegister hasUnregister goid l st st'} _ _.
Arguments initial_spec {U Q M BQ MI self me q0 r0 snId st} _ _.
