(* ===== verification/SchedulerGate.v ===== *)
(** * The execution gate

    What the gate's three fields show at each stage of [enter] and [leave], and
    that every step of a goroutine keeps it. *)

From S2P Require Import Prelude.
From S2P Require Import Queue.
From S2P Require Import SafeMap.
From S2P Require Import RingBuffer.
From S2P Require Import Registry.
From S2P Require Import ActorId.
From S2P Require Import ErrCode.
From S2P Require Import Messages.
From S2P Require Import Scheduler.
From S2P Require Import SchedulerInv.
From S2P Require Import SchedulerCount.
Open Scope Z_scope.

Section gate.
Context {U Q M : Type} {BQ : BoundedQueue Q (Ctx U)} {MI : MapImpl M string nat}.
Variables (self : ActorRef) (me : nat) (hasRegister hasUnregister : bool) (goid : nat → Z).
Implicit Types (s : shared U Q M) (t : thread U) (c : Ctx U) (st : state U Q M).

Local Abbreviation tstep := (tstep self me hasRegister hasUnregister goid).
Local Abbreviation exec := (exec self me hasRegister hasUnregister goid).
Local Abbreviation reachable := (reachable self me hasRegister hasUnregister goid).

(** What the gate shows while goroutine [i] is at [p]. *)
Definition gate_ok (i : nat) (p : pc U) s : Prop :=
  match p with
  | PEnterCall _ | PLeavePermit _ => executionOwnerID s = 0 ∧ executingCall s = None
  | PEnterOwner _ | PLeaveCall _ => executionOwnerID s = 0 ∧ executingCall s = Some i
  | _ => holds p = true → executionOwnerID s = goid i ∧ executingCall s = Some i
  end.

Definition gate_free s : Prop :=
  executionPermit s = true → executionOwnerID s = 0 ∧ executingCall s = None.

Record inv_gate st : Prop := {
  ig_free : gate_free (sh st);
  ig_holder : ∀ i t, threads st !! i = Some t → gate_ok i (tpc t) (sh st)
}.

Definition gate_step i s s' t t' (new : list (thread U)) : Prop :=
  gate_ok i (tpc t') s' ∧ gate_free s' ∧ Forall (λ t, holds (tpc t) = false) new ∧
  (executionPermit s = false → holds (tpc t) = false →
   executionOwnerID s' = executionOwnerID s ∧ executingCall s' = executingCall s).

Ltac gate_done :=
  unfold gate_step, gate_ok, gate_free, after_invoke in *; simpl in *;
  repeat case_match; simplify_eq/=; split_and!; repeat constructor; naive_solver.

Lemma suspend_gate i s t t' new :
  (t', new) = suspend t → holds (tpc t) = true → executionPermit s = false →
  gate_free s → gate_ok i (tpc t) s → tpc t = PReceive → gate_step i s s t t' new.
Proof.
  destruct t as [p [] k ex]; unfold suspend; simpl; intros [= -> ->] Hh Hp Hf Hg ->; gate_done.
Qed.

Lemma tstep_gate kof i s t ch s' t' new :
  tstep kof i s t ch = Some (s', t', new) → local_ok t → kof i = callKind_ t →
  (holds (tpc t) = true → executionPermit s = false) →
  gate_free s → gate_ok i (tpc t) s → gate_step i s s' t t' new.
Proof.
  intros H Hl Hk Hperm Hf Hg. destruct (decide (ch = CAsk)) as [->|Hne].
  - destruct (tstep_ask H Hl Hk) as [(-> & -> & ->)|(-> & Hp & Hs)]; [split_and!; auto|].
    assert (holds (tpc t) = true) as Hh by (by rewrite Hp). by eapply suspend_gate; auto.
  - destruct t as [p tr k ex].
    destruct s, tr; pc_cases p ch H; step_cases H; destruct Hl as (Hl1 & Hl2 & Hl3); simpl in *; try done.
    all: gate_done.
Qed.
End gate.
Arguments tstep_gate {U Q M BQ MI self me hasRegister hasUnregister goid kof i s t ch s' t' new} _ _ _ _ _ _.
Arguments gate_ok {U Q M} goid i p s.
Arguments inv_gate {U Q M} goid st.
Arguments ig_free {U Q M goid st} _.
Arguments ig_holder {U Q M goid st} _.
