(* ===== verification/SchedulerSafety.v ===== *)
(** * Mutual exclusion and identity

    Who holds the permit is the one whose execution and goroutine id the gate
    publishes, and nobody else's.  Hence user code of an actor is serialised,
    and a successful [currentExecution] returns the caller's own execution. *)

From S2P Require Import Prelude.
From S2P Require Import Queue.
From S2P Require Import SafeMap.
From S2P Require Import RingBuffer.
From S2P Require Import Registry.
From S2P Require Import ActorId.
From S2P Require Import ErrCode.
From S2P Require Import Messages.
From S2P Require Import Scheduler.
From S2P Require Import SchedulerInv.
From S2P Require Import SchedulerCount.
From S2P Require Import SchedulerGate.
Open Scope Z_scope.

Section gate.
Context {U Q M : Type} {BQ : BoundedQueue Q (Ctx U)} {MI : MapImpl M string nat}.
Variables (self : ActorRef) (me : nat) (hasRegister hasUnregister : bool) (goid : nat → Z).
Implicit Types (s : shared U Q M) (t : thread U) (c : Ctx U) (st : state U Q M).

Local Abbreviation tstep := (tstep self me hasRegister hasUnregister goid).
Local Abbreviation exec := (exec self me hasRegister hasUnregister goid).
Local Abbreviation reachable := (reachable self me hasRegister hasUnregister goid).

Lemma holds_unique st i j ti tj :
  inv_count st → threads st !! i = Some ti → threads st !! j = Some tj →
  holds (tpc ti) = true → holds (tpc tj) = true → i = j.
Proof.
  intros [H1 _ _ _] Hi Hj Hti Htj. apply (count_unique t_holds (threads st) i j ti tj); [|done..].
  pose proof (b2z_bounds (executionPermit (sh st))). lia.
Qed.

Lemma holder_permit st i t :
  inv_count st → threads st !! i = Some t → holds (tpc t) = true → executionPermit (sh st) = false.
Proof.
  intros [H1 _ _ _] Hi Hh. pose proof (count_elem_pos t_holds _ i t Hi Hh).
  destruct (executionPermit (sh st)); [|done]. simpl in H1. lia.
Qed.

Lemma gate_ok_idle i p s : holds p = false → gate_ok goid i p s.
Proof. intros H. destruct p; simpl in *; try done; congruence. Qed.

Lemma gate_ok_frame i p s s' :
  executionOwnerID s' = executionOwnerID s → executingCall s' = executingCall s →
  gate_ok goid i p s → gate_ok goid i p s'.
Proof. unfold gate_ok. by intros -> ->. Qed.

Lemma exec_inv_gate l st st' :
  inv_count st → inv_gate goid st → exec l st = Some st' → inv_gate goid st'.
Proof.
  intros HC [G1 G2] E. destruct (label_cases l) as [(i & ch & ->)|Hl].
  - destruct (exec_step_inv E) as (t & t' & new & Hi & Ht & Hths & Hk).
    assert (holds (tpc t) = true → executionPermit (sh st) = false) as Hp by (by apply holder_permit with i).
    destruct (tstep_gate Ht (ic_local _ HC i t Hi) Hk Hp G1 (G2 i t Hi))
      as (S1 & S2 & S3 & S4).
    constructor; [done|]. intros j u Hj. rewrite Hths in Hj.
    apply lookup_app_Some in Hj as [Hj|[_ Hj]].
    + apply list_lookup_insert_Some in Hj as [(<- & <- & _)|[Hne Hj]]; [done|].
      destruct (holds (tpc u)) eqn:Hu; [|by apply gate_ok_idle].
      destruct (holds (tpc t)) eqn:Ht'; [by destruct (Hne (holds_unique st i j t u HC Hi Hj Ht' Hu))|].
      destruct S4 as [E1 E2]; [by apply holder_permit with j u|done|].
      apply (gate_ok_frame j _ (sh st)); auto.
    + apply gate_ok_idle. rewrite Forall_forall in S3. apply S3. by eapply list_elem_of_lookup_2.
  - destruct (exec_env_inv E Hl) as [(p & Hs & Hths & Hp)|(Hths & r & Hs & _)].
    + constructor; rewrite Hs, ?Hths; [done|]. intros j u Hj.
      apply lookup_app_Some in Hj as [Hj|[_ Hj]]; [eauto|].
      apply list_lookup_singleton_Some in Hj as [_ <-]. apply gate_ok_idle.
      by destruct Hp as [[c ->]| ->].
    + destruct (set_registry_fields r (sh st)) as (_ & _ & _ & F1 & F2 & F3 & _).
      constructor; rewrite Hs.
      * unfold gate_free. by rewrite F1, F2, F3.
      * rewrite Hths. intros j u Hj. apply (gate_ok_frame j _ (sh st)); auto.
Qed.

Lemma reachable_inv_gate st : reachable st → inv_gate goid st.
Proof.
  induction 1 as [q0 r0 snId st Hf _ _ E|st l st' Hr IH E].
  - destruct (initial_spec Hf E) as (q & n & _ & _ & _ & ->). constructor; [done|].
    intros i t Hi. apply list_lookup_singleton_Some in Hi as [_ <-]. done.
  - eapply exec_inv_gate; [|done..]. by eapply reachable_inv_count.
Qed.

Lemma published_gate st i t :
  inv_gate goid st → threads st !! i = Some t → published (tpc t) = true →
  executionOwnerID (sh st) = goid i ∧ executingCall (sh st) = Some i.
Proof.
  intros HG Hi Hp. pose proof (ig_holder HG i t Hi) as H.
  destruct (tpc t); simpl in *; try done; by apply H.
Qed.

Lemma in_user_code_published (p : pc U) : in_user_code p = true → published p = true.
Proof. by destruct p. Qed.

Lemma published_holds (p : pc U) : published p = true → holds p = true.
Proof. by destruct p. Qed.

(** A nonzero owner is a goroutine that has published itself. *)
Lemma owner_published st :
  inv_count st → inv_gate goid st → executionOwnerID (sh st) ≠ 0 →
  ∃ i t, threads st !! i = Some t ∧ published (tpc t) = true.
Proof.
  intros HC HG Hne. destruct (executionPermit (sh st)) eqn:Hp.
  - by destruct (ig_free HG Hp).
  - pose proof (ic_permit _ HC) as H. rewrite Hp in H. simpl in H.
    destruct (count_pos_elem t_holds (threads st)) as (i & t & Hi & Ht); [lia|].
    exists i, t. split; [done|]. pose proof (ig_holder HG i t Hi) as Hg.
    unfold t_holds in Ht. destruct (tpc t); simpl in *; try done; by destruct Hg.
Qed.

Section identity.
Hypothesis goid_nonzero : ∀ i, goid i ≠ 0.

Lemma currentExecution_spec st g call :
  reachable st →
  currentExecution (sh st) g = Some call ↔
    goid call = g ∧ ∃ t, threads st !! call = Some t ∧ published (tpc t) = true.
Proof.
  intros Hr. pose proof (reachable_inv_count Hr) as HC. pose proof (reachable_inv_gate st Hr) as HG.
  unfold currentExecution. split.
  - destruct (decide (_ ∨ _)) as [|Hn]; [done|]. intros Hc.
    destruct (owner_published st HC HG) as (i & t & Hi & Ht); [tauto|].
    destruct (published_gate st i t HG Hi Ht) as [E1 E2]. simplify_eq.
    split; [|eauto]. destruct (decide (goid call = g)); [done|]. exfalso. apply Hn. right. congruence.
  - intros (<- & t & Hi & Ht). destruct (published_gate st call t HG Hi Ht) as [-> E2].
    rewrite decide_False; [done|]. intros [H|H]; [by eapply goid_nonzero|done].
Qed.

End identity.
End gate.
Arguments reachable_inv_gate {U Q M BQ MI self me hasRegister hasUnregister goid st} _.
Arguments currentExecution_spec {U Q M BQ MI self me hasRegister hasUnregister goid} _ st g call _.
