(* ===== verification/SchedulerFifo.v ===== *)
(** * Conservation and order of messages

    Every message a Push accepted is, at any moment, in exactly one place: in
    the mailbox, in the hand of the draining goroutine, or already dispatched
    or drained, in the order of acceptance. *)

From S2P Require Import Prelude.
From S2P Require Import Queue.
From S2P Require Import SafeMap.
From S2P Require Import Registry.
From S2P Require Import ActorId.
From S2P Require Import Messages.
From S2P Require Import Scheduler.
From S2P Require Import SchedulerInv.
From S2P Require Import SchedulerCount.
Open Scope Z_scope.

(** The messages accepted by Push, and those taken out of the hand. *)
Definition accepted {U} (h : list (event U)) : list (Ctx U) :=
  omap (λ e, match e with EPush c PushOK => Some c | _ => None end) h.
Definition taken {U} (h : list (event U)) : list (Ctx U) :=
  omap (λ e, match e with EDispatch c | EDrained c => Some c | _ => None end) h.
Definition items {U Q M} {BQ : BoundedQueue Q (Ctx U)} (s : shared U Q M) : list (Ctx U) :=
  qs_items (q_abs (mailbox s)).
Definition t_inhand {U} (t : thread U) : list (Ctx U) := inhand (tpc t).

Section fifo.
Context {U Q M : Type} {BQ : BoundedQueue Q (Ctx U)} {MI : MapImpl M string nat}.
Variables (self : ActorRef) (me : nat) (hasRegister hasUnregister : bool) (goid : nat → Z).
Implicit Types (s : shared U Q M) (t : thread U) (c : Ctx U) (st : state U Q M).

Local Abbreviation tstep := (tstep self me hasRegister hasUnregister goid).
Local Abbreviation exec := (exec self me hasRegister hasUnregister goid).
Local Abbreviation reachable := (reachable self me hasRegister hasUnregister goid).

Record inv_fifo st : Prop := {
  if_wf : q_wf (mailbox (sh st));
  if_order : accepted (history (sh st))
    = taken (history (sh st)) ++ concat (t_inhand <$> threads st) ++ items (sh st)
}.

Lemma accepted_reports (l : list (report U)) : accepted (reports l) = [].
Proof. by induction l. Qed.
Lemma taken_reports (l : list (report U)) : taken (reports l) = [].
Proof. by induction l. Qed.
Lemma accepted_app (h1 h2 : list (event U)) : accepted (h1 ++ h2) = accepted h1 ++ accepted h2.
Proof. apply omap_app. Qed.
Lemma taken_app (h1 h2 : list (event U)) : taken (h1 ++ h2) = taken h1 ++ taken h2.
Proof. apply omap_app. Qed.
Lemma accepted_cons (e : event U) h : accepted (e :: h) = accepted [e] ++ accepted h.
Proof. apply (accepted_app [e] h). Qed.
Lemma taken_cons (e : event U) h : taken (e :: h) = taken [e] ++ taken h.
Proof. apply (taken_app [e] h). Qed.

(** What a step of one goroutine moves: [d] is what it adds to the history. *)
Definition fifo_step s s' t t' (new : list (thread U)) : Prop :=
  q_wf (mailbox s') ∧ Forall (λ t, t_inhand t = []) new ∧
  ∃ d, history s' = history s ++ d ∧
    ((t_inhand t = [] ∧ t_inhand t' = [] ∧ taken d = [] ∧ items s' = items s ++ accepted d) ∨
     (owns t = true ∧ accepted d = [] ∧
      t_inhand t ++ items s = taken d ++ t_inhand t' ++ items s')).

Lemma fifo_step_history s s' t t' new d :
  q_wf (mailbox s') → Forall (λ t, t_inhand t = []) new → history s' = history s ++ d →
  ((t_inhand t = [] ∧ t_inhand t' = [] ∧ taken d = [] ∧ items s' = items s ++ accepted d) ∨
   (owns t = true ∧ accepted d = [] ∧
    t_inhand t ++ items s = taken d ++ t_inhand t' ++ items s')) →
  fifo_step s s' t t' new.
Proof. intros. split_and!; eauto. Qed.

Ltac fifo_done :=
  first [apply (fifo_step_history _ _ _ _ _ []); [|repeat constructor|by rewrite app_nil_r|]
        |eapply fifo_step_history; [|repeat constructor|simpl; rewrite <-?app_assoc; reflexivity|]];
  unfold t_inhand, items, owns, after_invoke in *; simpl in *;
  rewrite ?accepted_cons, ?taken_cons, ?accepted_reports, ?taken_reports, ?app_nil_r in *; simpl in *;
  try done;
  repeat case_match; simplify_eq/=;
  first [left; split_and!; congruence|right; split_and!; congruence].

Lemma suspend_fifo s t t' new :
  q_wf (mailbox s) → (t', new) = suspend t → tpc t = PReceive → fifo_step s s t t' new.
Proof.
  intros W. destruct t as [p [] k ex]; unfold suspend; simpl; intros [= -> ->] ->; fifo_done.
Qed.

Lemma tstep_fifo kof i s t ch s' t' new :
  tstep kof i s t ch = Some (s', t', new) → local_ok t → kof i = callKind_ t →
  q_wf (mailbox s) → fifo_step s s' t t' new.
Proof.
  intros H Hl Hk W. destruct (decide (ch = CAsk)) as [->|Hne].
  - destruct (tstep_ask H Hl Hk) as [(-> & -> & ->)|(-> & Hp & Hs)].
    + destruct t as [p tr k ex]. destruct p; simpl in H; try discriminate H; fifo_done.
    + by eapply suspend_fifo.
  - destruct t as [p tr k ex]. pose proof (q_close_inv (mailbox s) W) as (?&?&?).
    destruct s, tr; pc_cases p ch H; step_cases H; destruct Hl as (Hl1 & Hl2 & Hl3); simpl in *; try done.
    all: queue_facts; fifo_done.
Qed.
End fifo.
Arguments tstep_fifo {U Q M BQ MI self me hasRegister hasUnregister goid kof i s t ch s' t' new} _ _ _ _.
