(* ===== verification/SchedulerOrder.v ===== *)
(** * First in, first out, nothing lost

    The conservation invariant of [SchedulerFifo.v] holds in every reachable
    state. *)

From S2P Require Import Prelude.
From S2P Require Import Queue.
From S2P Require Import SafeMap.
From S2P Require Import Registry.
From S2P Require Import ActorId.
From S2P Require Import Messages.
From S2P Require Import Scheduler.
From S2P Require Import SchedulerInv.
From S2P Require Import SchedulerCount.
From S2P Require Import SchedulerFifo.
Open Scope Z_scope.

(** Concatenating a list of lists of which all but the [i]-th are empty. *)
Lemma concat_only {A} (l : list (list A)) i x :
  l !! i = Some x → (∀ j y, l !! j = Some y → j ≠ i → y = []) → concat l = x.
Proof.
  revert i. induction l as [|y l IH]; intros i Hi Hne; [done|].
  assert (∀ l' : list (list A), (∀ j z, l' !! j = Some z → z = []) → concat l' = []) as Hnil.
  { induction l' as [|z l' IH']; intros H; [done|]. simpl.
    rewrite (H 0%nat z), IH'; [done| |done]. intros j. apply (H (S j)). }
  destruct i as [|i]; simpl in *.
  - simplify_eq. rewrite Hnil, app_nil_r; [done|]. intros j z Hj. by apply (Hne (S j) z).
  - rewrite (Hne 0%nat y), (IH i); [done..| |done|lia]. intros j z Hj Hji. apply (Hne (S j) z); [done|lia].
Qed.

Section order.
Context {U Q M : Type} {BQ : BoundedQueue Q (Ctx U)} {MI : MapImpl M string nat}.
Variables (self : ActorRef) (me : nat) (hasRegister hasUnregister : bool) (goid : nat → Z).
Implicit Types (s : shared U Q M) (t : thread U) (c : Ctx U) (st : state U Q M).

Local Abbreviation exec := (exec self me hasRegister hasUnregister goid).
Local Abbreviation reachable := (reachable self me hasRegister hasUnregister goid).

Lemma inhand_owns t : local_ok t → t_inhand t ≠ [] → owns t = true.
Proof.
  destruct t as [p tr k ex]. intros (_ & Hl & _) H. unfold t_inhand, owns in *. simpl in *.
  destruct p; simpl in *; try done; try (by rewrite Hl);
    repeat case_match; simplify_eq/=; done.
Qed.

Lemma owns_unique st i j ti tj :
  inv_count st → threads st !! i = Some ti → threads st !! j = Some tj →
  owns ti = true → owns tj = true → i = j.
Proof.
  intros [_ _ H3 _] Hi Hj Ho1 Ho2. apply (count_unique owns (threads st) i j ti tj); [|done..].
  destruct (drainStatus (sh st)); lia.
Qed.

Lemma concat_inhand st i t :
  inv_count st → threads st !! i = Some t → owns t = true →
  concat (t_inhand <$> threads st) = t_inhand t.
Proof.
  intros HC Hi Ho. apply (concat_only _ i); [by rewrite list_lookup_fmap, Hi|].
  intros j y Hj Hne. rewrite list_lookup_fmap in Hj.
  destruct (threads st !! j) as [u|] eqn:Hu; [|done]. simplify_eq/=.
  destruct (decide (t_inhand u = [])) as [|Hn]; [done|]. exfalso. apply Hne.
  apply (owns_unique st j i u t); auto. apply inhand_owns; [|done]. by eapply ic_local.
Qed.

Lemma concat_new (new : list (thread U)) :
  Forall (λ t, t_inhand t = []) new → concat (t_inhand <$> new) = [].
Proof. induction 1 as [|t new Ht _ IH]; [done|]. rewrite fmap_cons. cbn. by rewrite Ht, IH. Qed.

Lemma concat_insert_same (ths : list (thread U)) i t t' :
  ths !! i = Some t → t_inhand t' = t_inhand t → t_inhand <$> <[i := t']> ths = t_inhand <$> ths.
Proof.
  intros Hi E. rewrite list_fmap_insert, E. apply list_insert_id. by rewrite list_lookup_fmap, Hi.
Qed.

Lemma concat_insert_owner st i t t' :
  inv_count st → threads st !! i = Some t → owns t = true →
  concat (t_inhand <$> <[i := t']> (threads st)) = t_inhand t'.
Proof.
  intros HC Hi Ho. rewrite list_fmap_insert.
  assert (i < length (t_inhand <$> threads st))%nat as Hlen.
  { rewrite length_fmap. by eapply lookup_lt_Some. }
  apply (concat_only _ i); [by apply list_lookup_insert_eq|].
  intros j y Hj Hne. rewrite list_lookup_insert_ne, list_lookup_fmap in Hj by done.
  destruct (threads st !! j) as [u|] eqn:Hu; [|done]. simplify_eq/=.
  destruct (decide (t_inhand u = [])) as [|Hn]; [done|]. exfalso. apply Hne.
  apply (owns_unique st j i u t); auto. apply inhand_owns; [|done]. by eapply ic_local.
Qed.

Lemma exec_inv_fifo l st st' :
  inv_count st → inv_fifo st → exec l st = Some st' → inv_fifo st'.
Proof.
  intros HC [F1 F2] E. destruct (label_cases l) as [(i & ch & ->)|Hl].
  - destruct (exec_step_inv E) as (t & t' & new & Hi & Ht & Hths & Hk).
    destruct (tstep_fifo Ht (ic_local _ HC i t Hi) Hk F1) as (S1 & S2 & d & Hd & Hcase).
    constructor; [done|].
    rewrite Hd, accepted_app, taken_app, F2, Hths, fmap_app, concat_app, (concat_new new S2), app_nil_r.
    destruct Hcase as [(I1 & I2 & D1 & D2)|(Ho & D1 & D2)].
    + rewrite (concat_insert_same _ _ t) by congruence. rewrite D1, D2, app_nil_r. by rewrite !app_assoc.
    + rewrite (concat_inhand st i t HC Hi Ho), (concat_insert_owner st i t t' HC Hi Ho), D1, app_nil_r.
      rewrite D2. by rewrite !app_assoc.
  - destruct (exec_env_inv E Hl) as [(p & Hs & Hths & Hp)|(Hths & r & Hs & _)].
    + constructor; rewrite Hs; [done|]. rewrite Hths, F2, fmap_app, concat_app.
      by destruct Hp as [[c ->]| ->]; rewrite app_nil_r.
    + destruct (set_registry_fields r (sh st)) as (E1 & _ & _ & _ & _ & _ & _ & _ & _ & E2).
      constructor; unfold items; rewrite Hs, E1; [done|]. by rewrite E2, Hths.
Qed.

Lemma reachable_inv_fifo st : reachable st → inv_fifo st.
Proof.
  induction 1 as [q0 r0 snId st Hf _ _ E|st l st' Hr IH E].
  - destruct (initial_spec Hf E) as (q & n & W & _ & A & ->). constructor; [done|].
    unfold items. simpl. by rewrite A.
  - eapply exec_inv_fifo; [|done..]. by eapply reachable_inv_count.
Qed.
End order.
Arguments reachable_inv_fifo {U Q M BQ MI self me hasRegister hasUnregister goid st} _.
