(* ===== verification/SchedulerLife.v ===== *)
(** * The lifecycle protocol of one actor

    [proto] is the specification: an automaton over the observable events that
    says in which order an actor's hooks, its cluster registration and its
    removal may happen.  The invariant below ties its phase to the lifecycle
    state of the code and to where the draining goroutine is. *)

From S2P Require Import Prelude.
From S2P Require Import Queue.
From S2P Require Import SafeMap.
From S2P Require Import Registry.
From S2P Require Import ActorId.
From S2P Require Import Messages.
From S2P Require Import Scheduler.
From S2P Require Import SchedulerInv.
From S2P Require Import SchedulerCount.
From S2P Require Import SchedulerFifo.
Open Scope Z_scope.

(** [o]: this node holds the actor's cluster registration. *)
Inductive phase : Type :=
| PhNew                     (* nothing dispatched yet *)
| PhActivated               (* Initialize dispatched *)
| PhRegistering             (* registerToCluster called *)
| PhBooting (o : bool)      (* Started called *)
| PhLive (o : bool)         (* Started returned *)
| PhClosing (o : bool)      (* mailbox closed, PreStop due *)
| PhEnded (o : bool)        (* hooks done, registration to be given back if o *)
| PhGone.                   (* removed from the registry *)

Definition proto {U} (self : ActorRef) (hasRegister hasUnregister : bool)
    (p : phase) (e : event U) : option phase :=
  match e, p with
  | (EPush _ _ | ERejected _ | EReport _), _ => Some p
  | EDispatch c, PhNew =>
      if bool_decide (ctarget c = self) && is_initialize (cmessage c) then Some PhActivated else None
  | EDispatch _, PhLive _ => Some p
  | ERegister, PhActivated => if hasRegister then Some PhRegistering else None
  | EStarted, PhActivated => if hasRegister then None else Some (PhBooting false)
  | EStarted, PhRegistering => Some (PhBooting true)
  | EStartedOk, PhBooting o => Some (PhLive o)
  | EReceive _, PhLive _ => Some p
  | EClosed, PhRegistering => Some (PhEnded false)
  | EClosed, PhBooting o => Some (PhEnded o)
  | EClosed, PhLive o => Some (PhClosing o)
  | EPreStop, PhClosing o => Some (PhEnded o)
  | EUnregister, PhEnded true => if hasUnregister then Some (PhEnded false) else None
  | ERemoved, PhEnded o => if o && hasUnregister then None else Some PhGone
  | EDrained _, PhGone => Some PhGone
  | _, _ => None
  end.

(** The phase after a history; [None] when the protocol was broken. *)
Definition proto_run {U} self hasRegister hasUnregister (h : list (event U)) : option phase :=
  foldl (λ p e, p ≫= λ p, proto self hasRegister hasUnregister p e) (Some PhNew) h.

Section life.
Context {U Q M : Type} {BQ : BoundedQueue Q (Ctx U)} {MI : MapImpl M string nat}.
Variables (self : ActorRef) (me : nat) (hasRegister hasUnregister : bool) (goid : nat → Z).
Implicit Types (s : shared U Q M) (t : thread U) (c : Ctx U) (st : state U Q M).

Local Abbreviation tstep := (tstep self me hasRegister hasUnregister goid).
Local Abbreviation ph s := (proto_run self hasRegister hasUnregister (history s)).

Definition okrun s : Prop := lifecycleState s = actorInitializing ∨ lifecycleState s = actorStarted.

(** What the lifecycle is while a goroutine is at a pc; [n] calls are under way. *)
Definition life_ok (n : Z) s t : Prop :=
  let l := lifecycleState s in
  let o := clusterRegistrationOwned s in
  match tpc t with
  | PLoop => okrun s ∨ l = actorStopped
  | PFinish => drainOwnershipTransferred t = true ∨ okrun s ∨ l = actorStopped
  | PPop | PAdd _ | PEnter (KInvoke _) | PEnterCall (KInvoke _) | PEnterOwner (KInvoke _)
  | PDispatch _ => okrun s
  | PReady | PReadyUnf | PEnter KStopIfIdle | PEnterCall KStopIfIdle | PEnterOwner KStopIfIdle
  | PIdleStatus | PIdleLen | PIdleUnf => l = actorStarted
  | PStop KStopLeft => l = actorStarted ∧ n = 0
  | PRegister => l = actorStarting ∧ ph s = Some PhRegistering ∧ o = false
  | PStarted => l = actorStarting ∧ ph s = Some (PhBooting o)
  | PStop _ => l = actorStarting ∧
      (ph s = Some PhRegistering ∧ o = false ∨ ph s = Some (PhBooting o))
  | PPreStop _ | PUnregister _ => l = actorStopping ∧ ph s = Some (PhEnded o)
  | PStopped _ => l = actorStopping ∧ ∃ o, ph s = Some (PhEnded o) ∧ o && hasUnregister = false
  | PRemove _ => l = actorStopped ∧ ∃ o, ph s = Some (PhEnded o) ∧ o && hasUnregister = false
  | PDrain _ | PDrained _ _ => l = actorStopped ∧ ph s = Some PhGone
  | PPoison SInvoked | PSchedule SInvoked | PReceive | PAwait
  | PEnter KResume | PEnterCall KResume | PEnterOwner KResume
  | PLeaveOwner KSuspend | PLeaveCall KSuspend | PLeavePermit KSuspend => l = actorStarted
  | PLeaveOwner _ | PLeaveCall _ | PLeavePermit _ | PSub => l = actorStarted ∨ l = actorStopped
  | _ => True
  end.

Record life_global s : Prop := {
  lg_status : drainStatus s = drainStopped ↔ lifecycleState s = actorStopped;
  lg_idle : drainStatus s = drainIdle → okrun s;
  lg_init : lifecycleState s = actorInitializing →
    ph s = Some PhNew ∧ taken (history s) = [] ∧ clusterRegistrationOwned s = false;
  lg_started : lifecycleState s = actorStarted → ph s = Some (PhLive (clusterRegistrationOwned s));
  lg_proto : is_Some (ph s);
  lg_closed : qs_closed (q_abs (mailbox s)) = true ↔
    lifecycleState s = actorStopping ∨ lifecycleState s = actorStopped
}.

Lemma proto_run_app (h1 h2 : list (event U)) :
  proto_run self hasRegister hasUnregister (h1 ++ h2) =
  foldl (λ p e, p ≫= λ p, proto self hasRegister hasUnregister p e)
    (proto_run self hasRegister hasUnregister h1) h2.
Proof. apply foldl_app. Qed.

Lemma proto_reports (p : option phase) (l : list (report U)) :
  foldl (λ p e, p ≫= λ p, proto self hasRegister hasUnregister p e) p (reports l) = p.
Proof.
  revert p. induction l as [|r l IH]; intros p; [done|].
  change (reports (r :: l)) with (EReport r :: reports l). cbn [foldl]. rewrite IH. by destruct p.
Qed.

(** Most steps leave everything the protocol speaks of as it is. *)
Definition core s : drainState * actorLifecycle * option phase * bool * bool * list (Ctx U) :=
  (drainStatus s, lifecycleState s, ph s, clusterRegistrationOwned s,
   qs_closed (q_abs (mailbox s)), taken (history s)).

Lemma life_global_same s s' : core s' = core s → life_global s → life_global s'.
Proof.
  unfold core. intros [= E1 E2 E3 E4 E5 E6] [G1 G2 G3 G4 G5 G6].
  constructor; unfold okrun in *; rewrite ?E1, ?E2, ?E3, ?E4, ?E5, ?E6; assumption.
Qed.

Lemma life_ok_same n n' s s' t :
  core s' = core s → (n = 0 → n' = 0) → life_ok n s t → life_ok n' s' t.
Proof.
  unfold core. intros [= E1 E2 E3 E4 E5 E6] Hn. unfold life_ok, okrun.
  clear me goid MI. rewrite E2, E3, E4. repeat case_match; naive_solver.
Qed.

(** Which pcs change it. *)
Definition plain (p : pc U) : bool :=
  match p with
  | PSchedule _ | PDispatch _ | PRegister | PStarted | PStop _ | PUnregister _ | PStopped _
  | PRemove _ | PDrained _ _ | PFinish => false
  | _ => true
  end.

Lemma ph_emit s d : proto_run self hasRegister hasUnregister (history s ++ d) =
  foldl (λ p e, p ≫= λ p, proto self hasRegister hasUnregister p e) (ph s) d.
Proof. apply proto_run_app. Qed.

Lemma ph_silent (h : list (event U)) e l :
  match e with EPush _ _ | ERejected _ => True | _ => False end →
  proto_run self hasRegister hasUnregister (h ++ e :: reports l) =
  proto_run self hasRegister hasUnregister h.
Proof.
  intros He. rewrite proto_run_app. cbn [foldl]. rewrite proto_reports.
  destruct e; try done; by destruct (proto_run _ _ _ h).
Qed.

Lemma ph_push (h : list (event U)) c r :
  proto_run self hasRegister hasUnregister (h ++ [EPush c r]) =
  proto_run self hasRegister hasUnregister h.
Proof. apply (ph_silent h (EPush c r) []). done. Qed.

Lemma taken_silent (h : list (event U)) e l :
  match e with EPush _ _ | ERejected _ => True | _ => False end →
  taken (h ++ e :: reports l) = taken h.
Proof.
  intros He. rewrite taken_app. change (e :: reports l) with ([e] ++ reports l).
  rewrite taken_app, taken_reports, app_nil_r. destruct e; try done; by rewrite app_nil_r.
Qed.

Lemma taken_push (h : list (event U)) c r : taken (h ++ [EPush c r]) = taken h.
Proof. apply (taken_silent h (EPush c r) []). done. Qed.

#[local] Arguments taken : simpl never.
#[local] Arguments proto_run : simpl never.
#[local] Arguments reports : simpl never.
#[local] Arguments toDeadLetter : simpl never.

Ltac core_done :=
  unfold core; cbn; rewrite ?ph_push, ?taken_push, ?ph_silent, ?taken_silent by done; congruence.

Lemma tstep_core kof i s t ch s' t' new :
  tstep kof i s t ch = Some (s', t', new) → q_wf (mailbox s) → plain (tpc t) = true → ch ≠ CAsk →
  core s' = core s ∧ new = [].
Proof.
  intros H W Hp Hne. destruct t as [p tr k ex].
  destruct s; pc_cases p ch H; step_cases H.
  all: queue_facts; split; [core_done|reflexivity].
Qed.

(** The first message an owner can take is the Initialize of the spawner. *)
Definition first_message s t : Prop :=
  lifecycleState s = actorInitializing → owns t = true →
  ∃ snId l, t_inhand t ++ items s = msgInit self snId :: l.

Definition life_step (n' : Z) s' t' (new : list (thread U)) : Prop :=
  life_global s' ∧ life_ok n' s' t' ∧ Forall (life_ok n' s') new.

Ltac life_auto :=
  unfold life_ok, okrun, after_invoke, first_message, items, t_inhand, owns in *; simpl in *;
  repeat case_match; simplify_eq/=; try done; try tauto; try naive_solver.

Lemma tstep_plain_ok kof i s t ch s' t' new n n' :
  tstep kof i s t ch = Some (s', t', new) → local_ok t → q_wf (mailbox s) → life_global s →
  plain (tpc t) = true → ch ≠ CAsk → life_ok n s t → first_message s t →
  (unfinishedCalls s = 0 → n = 0) → (n = 0 → t_in_call t' = false → n' = 0) → life_ok n' s t'.
Proof.
  intros H Hl W [G1 _ _ _ _ _] Hp Hne HL Hf Hn Hn'. destruct t as [p tr k ex].
  destruct tr; pc_cases p ch H; step_cases H; destruct Hl as (Hl1 & Hl2 & Hl3); simpl in *; try done.
  all: queue_facts; try (unfold life_ok, okrun; simpl; tauto).
  all: try (destruct HL as [HL|HL];
    [destruct (Hf HL eq_refl) as (?&?&?); unfold items, t_inhand in *; simpl in *; congruence|exact HL]).
  all: unfold life_ok, okrun, after_invoke in *; simpl in *;
    rewrite ?orb_true_r in *; repeat (case_match; simplify_eq/=); try done; try tauto.
  destruct HL as [|HL]; [done|]. apply G1 in HL. congruence.
Qed.
End life.
Arguments life_ok {U Q M} self hasRegister hasUnregister n s t.
Arguments life_global {U Q M BQ} self hasRegister hasUnregister s.
Arguments life_step {U Q M BQ} self hasRegister hasUnregister n' s' t' new.
Arguments first_message {U Q M BQ} self s t.
Arguments tstep_core {U Q M BQ MI self me hasRegister hasUnregister goid kof i s t ch s' t' new} _ _ _ _.
Arguments tstep_plain_ok {U Q M BQ MI self me hasRegister hasUnregister goid kof i s t ch s' t' new n n'} _ _ _ _ _ _ _ _ _ _.
