(* ===== verification/SchedulerProto.v ===== *)
(** * The steps that move the lifecycle

    Dispatching Initialize, the hooks, the stop sequence and the drain status:
    each keeps the invariant of [SchedulerLife.v]. *)

From S2P Require Import Prelude.
From S2P Require Import Queue.
From S2P Require Import SafeMap.
From S2P Require Import Registry.
From S2P Require Import ActorId.
From S2P Require Import Messages.
From S2P Require Import Scheduler.
From S2P Require Import SchedulerInv.
From S2P Require Import SchedulerCount.
From S2P Require Import SchedulerFifo.
From S2P Require Import SchedulerLife.
Open Scope Z_scope.

Section life.
Context {U Q M : Type} {BQ : BoundedQueue Q (Ctx U)} {MI : MapImpl M string nat}.
Variables (self : ActorRef) (me : nat) (hasRegister hasUnregister : bool) (goid : nat → Z).
Implicit Types (s : shared U Q M) (t : thread U) (c : Ctx U) (st : state U Q M).

Local Abbreviation tstep := (tstep self me hasRegister hasUnregister goid).
Local Abbreviation ph s := (proto_run self hasRegister hasUnregister (history s)).

Local Abbreviation life_ok := (life_ok self hasRegister hasUnregister).
Local Abbreviation life_global := (life_global self hasRegister hasUnregister).
Local Abbreviation life_step := (life_step self hasRegister hasUnregister).
Local Abbreviation first_message := (first_message self).
#[local] Arguments taken : simpl never.
#[local] Arguments proto_run : simpl never.
#[local] Arguments reports : simpl never.
#[local] Arguments toDeadLetter : simpl never.

Lemma bool_cases (b : bool) : b = true ∨ b = false.
Proof. destruct b; auto. Qed.

(** The phase after emitting [d]. *)
Lemma ph_next (h : list (event U)) d p :
  proto_run self hasRegister hasUnregister h = Some p →
  proto_run self hasRegister hasUnregister (h ++ d) =
  foldl (λ p e, p ≫= λ p, proto self hasRegister hasUnregister p e) (Some p) d.
Proof. intros E. unfold proto_run in *. by rewrite foldl_app, E. Qed.

(** The global part at a state whose lifecycle and phase are known. *)
Lemma global_intro s l p :
  lifecycleState s = l → ph s = Some p →
  (drainStatus s = drainStopped ↔ l = actorStopped) →
  (drainStatus s = drainIdle → l = actorInitializing ∨ l = actorStarted) →
  (l = actorInitializing → p = PhNew ∧ taken (history s) = [] ∧ clusterRegistrationOwned s = false) →
  (l = actorStarted → p = PhLive (clusterRegistrationOwned s)) →
  (qs_closed (q_abs (mailbox s)) = true ↔ l = actorStopping ∨ l = actorStopped) →
  life_global s.
Proof.
  intros <- Hp H1 H2 H3 H4 H5. constructor; rewrite ?Hp; try done.
  - intros Hi. destruct (H3 Hi) as (-> & ? & ?). done.
  - intros Hi. by rewrite (H4 Hi).
Qed.

(** Applying it: the phase first, then the book-keeping. *)
Ltac global_by l p :=
  apply (global_intro _ l p); simpl; [done| |first [done|tauto|intuition congruence]..].

Lemma tstep_schedule_life kof i s t s' t' new n n' k :
  tstep kof i s t CStep = Some (s', t', new) → tpc t = PSchedule k → local_ok t →
  life_global s → life_ok n s t → life_step n' s' t' new.
Proof.
  intros H Hp Hl G HL. destruct t as [p tr ck ex]. simpl in Hp. subst p.
  unfold_step H; unfold schedule in H. simpl in H.
  destruct (decide (drainStatus s = drainIdle)) as [Hi|Hi]; simplify_eq/=.
  - pose proof (lg_idle _ _ _ _ G Hi) as Hok. destruct G as [G1 G2 G3 G4 G5 G6], s; simpl in *.
    assert (lifecycleState ≠ actorStopped) by (intros E; apply G1 in E; congruence).
    split_and!; [constructor; unfold okrun in *; simpl in *; try done; tauto| |].
    + destruct k; unfold SchedulerLife.life_ok; simpl; [done|left; exact HL|].
      destruct Hl as [Hl _]; simpl in Hl. subst tr.
      unfold after_invoke. simpl. rewrite orb_true_r. by left.
    + constructor; [|constructor]. by left.
  - split_and!; [done| |constructor].
    destruct k; unfold SchedulerLife.life_ok; simpl; [done|left; exact HL|].
    destruct Hl as [Hl _]; simpl in Hl. subst tr.
      unfold after_invoke. simpl. rewrite orb_true_r. by left.
Qed.

Lemma tstep_finish_life kof i s t s' t' new n n' :
  tstep kof i s t CStep = Some (s', t', new) → tpc t = PFinish →
  life_global s → life_ok n s t → life_step n' s' t' new.
Proof.
  intros H Hp G HL. destruct t as [p tr ck ex]. simpl in Hp. subst p.
  unfold_step H. destruct tr; simpl in H; simplify_eq/=.
  - split_and!; [exact G|exact I|constructor].
  - destruct (decide (drainStatus s = drainRunning)) as [Hi|Hi]; simplify_eq/=; [|split_and!; [exact G|exact I|constructor]].
    destruct G as [G1 G2 G3 G4 G5 G6], s; simpl in *.
    destruct HL as [|HL]; [done|]. unfold okrun in *. simpl in *.
    assert (lifecycleState ≠ actorStopped) by (intros E; apply G1 in E; congruence).
    split_and!; [|exact I|constructor]. constructor; unfold okrun; simpl in *; try done; tauto.
Qed.

Lemma tstep_dispatch_life kof i s t s' t' new n n' c :
  tstep kof i s t CStep = Some (s', t', new) → tpc t = PDispatch c → local_ok t →
  life_global s → life_ok n s t → first_message s t → drainStatus s ≠ drainIdle →
  life_step n' s' t' new.
Proof.
  intros H Hp (_ & Hl & _) G HL Hf Hbusy. destruct t as [p tr ck ex]. simpl in Hp. subst p.
  simpl in Hl. subst tr. unfold SchedulerLife.first_message, t_inhand, owns in Hf. simpl in Hf.
  destruct G as [G1 G2 G3 G4 G5 G6], s; simpl in *. destruct HL as [HL|HL]; simpl in HL; subst.
  - destruct (G3 eq_refl) as (P1 & P2 & ->). destruct (Hf eq_refl eq_refl) as (sn & l & [= -> _]).
    unfold_step H; unfold dispatch in H. simpl in H.
    rewrite bool_decide_eq_true_2 in H by done. simpl in H.
    assert (∀ d p, foldl (λ p e, p ≫= λ p, proto self hasRegister hasUnregister p e)
      (Some PhNew) d = Some p → proto_run self hasRegister hasUnregister (history ++ d) = Some p) as Hd.
    { intros d p <-. by apply ph_next. }
    assert (bool_decide (self = self) = true) as Hself by (by apply bool_decide_eq_true_2).
    destruct (bool_cases hasRegister) as [Hreg|Hreg]; rewrite Hreg in H;
      simpl in H; injection H as <- <- <-; rewrite <-?app_assoc; simpl.
    + split_and!; [|split_and!; [done| |done]|constructor].
      * global_by actorStarting PhRegistering. apply Hd. simpl. by rewrite Hself, ?Hreg; simpl; rewrite ?Hreg.
      * apply Hd. simpl. by rewrite Hself, ?Hreg; simpl; rewrite ?Hreg.
    + split_and!; [|split_and!; [done|]|constructor].
      * global_by actorStarting (PhBooting false). apply Hd. simpl. by rewrite Hself, ?Hreg; simpl; rewrite ?Hreg.
      * apply Hd. simpl. by rewrite Hself, ?Hreg; simpl; rewrite ?Hreg.
  - pose proof (G4 eq_refl) as P1. unfold_step H; unfold dispatch in H. simpl in H.
    assert (∀ d, foldl (λ p e, p ≫= λ p, proto self hasRegister hasUnregister p e)
      (Some (PhLive clusterRegistrationOwned)) d = Some (PhLive clusterRegistrationOwned) →
      proto_run self hasRegister hasUnregister (history ++ d) = Some (PhLive clusterRegistrationOwned)) as Hd.
    { intros d <-. by apply ph_next. }
    repeat case_match; simplify_eq/=; rewrite <-?app_assoc; simpl.
    all: split_and!; [|unfold SchedulerLife.life_ok; simpl; first [done|by left]|constructor].
    all: global_by actorStarted (PhLive clusterRegistrationOwned); by apply Hd.
Qed.

Ltac thread_fields t p Hp := destruct t as [p ? ? ?]; simpl in Hp; subst p.

Lemma tstep_start_life kof i s t ch s' t' new n n' :
  tstep kof i s t ch = Some (s', t', new) → tpc t = PRegister ∨ tpc t = PStarted → ch ≠ CAsk →
  life_global s → life_ok n s t → drainStatus s ≠ drainIdle → life_step n' s' t' new.
Proof.
  intros H Hp Hne G HL Hbusy. destruct t as [p tr ck ex]. simpl in Hp.
  destruct Hp as [-> | ->]; simpl in HL.
  - destruct HL as (HL & P & Ho). unfold_step H.
    destruct ch; simpl in H; try done; simplify_eq/=.
    1: { destruct G as [G1 G2 G3 G4 G5 G6], s; simpl in *; subst.
      split_and!; [|split; [done|]|constructor].
      - global_by actorStarting (PhBooting true). by rewrite (ph_next _ _ _ P).
      - simpl. by rewrite (ph_next _ _ _ P). }
    all: split_and!; [exact G|split; [exact HL|left; done]|constructor].
  - destruct HL as (HL & P). unfold_step H.
    destruct ch; simpl in H; try done; simplify_eq/=.
    1: { destruct G as [G1 G2 G3 G4 G5 G6], s; simpl in *; subst.
      split_and!; [|by left|constructor].
      global_by actorStarted (PhLive clusterRegistrationOwned). by rewrite (ph_next _ _ _ P). }
    all: split_and!; [exact G|split; [exact HL|right; done]|constructor].
Qed.

Lemma tstep_stop_life kof i s t s' t' new n n' k :
  tstep kof i s t CStep = Some (s', t', new) → tpc t = PStop k → local_ok t → q_wf (mailbox s) →
  life_global s → life_ok n s t → drainStatus s ≠ drainIdle → life_step n' s' t' new.
Proof.
  intros H Hp Hl W G HL Hbusy. destruct t as [p tr ck ex]. simpl in Hp. subst p.
  destruct (q_close_inv (mailbox s) W) as (_ & _ & C).
  destruct G as [G1 G2 G3 G4 G5 G6], s; simpl in *.
  unfold_step H; unfold stop_begin in H. destruct k; simpl in *; [| |by destruct Hl].
  - destruct HL as (HL & HP). simpl in HL, HP. subst lifecycleState. simpl in H. simplify_eq/=.
    assert (proto_run self hasRegister hasUnregister (history ++ [EClosed]) =
      Some (PhEnded clusterRegistrationOwned)) as P.
    { destruct HP as [[P ->]|P]; by rewrite (ph_next _ _ _ P). }
    split_and!; [|split; [done|exact P]|constructor].
    by global_by actorStopping (PhEnded clusterRegistrationOwned).
  - destruct HL as (HL & Hz). simpl in HL. subst lifecycleState. simpl in H. simplify_eq/=. pose proof (G4 eq_refl) as P0.
    assert (proto_run self hasRegister hasUnregister (history ++ [EClosed; EPreStop]) =
      Some (PhEnded clusterRegistrationOwned)) as P by (by rewrite (ph_next _ _ _ P0)).
    split_and!; [|split; [done|exact P]|constructor].
    by global_by actorStopping (PhEnded clusterRegistrationOwned).
Qed.

Lemma tstep_unregister_life kof i s t ch s' t' new n n' k :
  tstep kof i s t ch = Some (s', t', new) → tpc t = PUnregister k →
  life_global s → life_ok n s t → drainStatus s ≠ drainIdle → life_step n' s' t' new.
Proof.
  intros H Hp G HL Hbusy. destruct t as [p tr ck ex]. simpl in Hp. subst p.
  destruct HL as (HL & P). unfold_step H.
  assert (∃ b : bool, s' = (if b then emit [EUnregister] s else s) ∧ tpc t' = PStopped k ∧ new = [] ∧
    b = clusterRegistrationOwned s && hasUnregister) as (b & -> & Hp' & -> & Hb).
  { exists (clusterRegistrationOwned s && hasUnregister). destruct ch; simpl in H; try done.
    - by simplify_eq.
    - destruct (clusterRegistrationOwned s && hasUnregister); [|done]. by simplify_eq. }
  clear H. destruct t' as [p' ? ? ?]. simpl in Hp'. subst p'.
  destruct G as [G1 G2 G3 G4 G5 G6], s; simpl in *. subst lifecycleState.
  destruct b; simpl in *.
  - symmetry in Hb. apply andb_true_iff in Hb as [-> Hu].
    assert (proto_run self hasRegister hasUnregister (history ++ [EUnregister]) =
      Some (PhEnded false)) as P' by (rewrite (ph_next _ _ _ P); simpl; by rewrite Hu).
    split_and!; [|split; [done|by exists false]|constructor].
    by global_by actorStopping (PhEnded false).
  - split_and!; [|split; [done|by exists clusterRegistrationOwned]|constructor].
    by global_by actorStopping (PhEnded clusterRegistrationOwned).
Qed.

Lemma tstep_stopped_life kof i s t s' t' new n n' k :
  tstep kof i s t CStep = Some (s', t', new) → tpc t = PStopped k ∨ tpc t = PRemove k →
  life_global s → life_ok n s t → life_step n' s' t' new.
Proof.
  intros H Hp G HL. destruct t as [p tr ck ex]. simpl in Hp.
  destruct G as [G1 G2 G3 G4 G5 G6], s.
  destruct Hp as [-> | ->]; destruct HL as (HL & o & P & Ho); simpl in *;
    subst lifecycleState; unfold_step H; simpl in H; simplify_eq/=.
  - split_and!; [|split; [done|by exists o]|constructor].
    by global_by actorStopped (PhEnded o).
  - assert (proto_run self hasRegister hasUnregister (history ++ [ERemoved]) = Some PhGone) as P'
      by (rewrite (ph_next _ _ _ P); simpl; by rewrite Ho).
    split_and!; [|split; [done|exact P']|constructor].
    by global_by actorStopped PhGone.
Qed.

Lemma tstep_drained_life kof i s t s' t' new n n' k c :
  tstep kof i s t CStep = Some (s', t', new) → tpc t = PDrained k c →
  life_global s → life_ok n s t → life_step n' s' t' new.
Proof.
  intros H Hp G HL. destruct t as [p tr ck ex]. simpl in Hp. subst p.
  destruct G as [G1 G2 G3 G4 G5 G6], s. destruct HL as (HL & P); simpl in *.
  subst lifecycleState. unfold_step H. simpl in H. simplify_eq/=.
  assert (proto_run self hasRegister hasUnregister
    (history ++ EDrained c :: reports (toDeadLetter self c DeadLetterReasonStopped)) = Some PhGone) as P'
    by (rewrite (ph_next _ _ _ P); simpl; by rewrite proto_reports).
  split_and!; [|split; [done|exact P']|constructor].
  by global_by actorStopped PhGone.
Qed.

(** ** The step as a whole *)

Lemma tstep_choice kof i s t ch s' t' new :
  tstep kof i s t ch = Some (s', t', new) → plain (tpc t) = false → ch ≠ CAsk →
  ch = CStep ∨ tpc t = PRegister ∨ tpc t = PStarted ∨ ∃ k, tpc t = PUnregister k.
Proof.
  intros H Hp Hne. destruct t as [p tr ck ex]. destruct p, ch; simpl in *; try done; eauto 6.
Qed.

Lemma owner_pc t : local_ok t → plain (tpc t) = false →
  (∃ k, tpc t = PSchedule k) ∨ tpc t = PFinish ∨ owns t = true.
Proof.
  intros (_ & Hl & _). destruct t as [p tr ck ex]. unfold owns. simpl in *.
  destruct p; simpl in *; intros; try done; eauto; right; right; by rewrite Hl.
Qed.

Lemma tstep_life kof i s t ch s' t' new n n' :
  tstep kof i s t ch = Some (s', t', new) → local_ok t → kof i = callKind_ t →
  q_wf (mailbox s) → life_global s → life_ok n s t → first_message s t →
  (unfinishedCalls s = 0 → n = 0) → (n = 0 → t_in_call t' = false → n' = 0) →
  (owns t = true → drainStatus s ≠ drainIdle) → life_step n' s' t' new.
Proof.
  intros H Hl Hk W G HL Hf Hn Hn' Hbusy. destruct (decide (ch = CAsk)) as [->|Hne].
  { destruct (tstep_ask H Hl Hk) as [(-> & -> & ->)|(-> & Hp & Hs)].
    - split_and!; [exact G| |constructor]. destruct t as [p tr ck ex].
      destruct p; simpl in H; try done.
    - destruct t as [p tr ck ex]. simpl in Hp. subst p. unfold suspend in Hs. simpl in Hs.
      destruct tr; injection Hs as -> ->; (split_and!; [exact G|exact HL|]).
      + constructor.
      + constructor; [left; right; exact HL|constructor]. }
  destruct (plain (tpc t)) eqn:Hp.
  { destruct (tstep_core H W Hp Hne) as [Hc ->].
    split_and!; [eapply life_global_same; [exact Hc|exact G]| |constructor].
    eapply life_ok_same; [exact Hc| |exact (tstep_plain_ok H Hl W G Hp Hne HL Hf Hn Hn')]. done. }
  destruct (owner_pc t Hl Hp) as [[k Hk']|[Hk'|Ho]].
  - destruct (tstep_choice _ _ _ _ _ _ _ _ H Hp Hne) as [->|[E|[E|[? E]]]]; [|congruence..].
    by eapply tstep_schedule_life.
  - destruct (tstep_choice _ _ _ _ _ _ _ _ H Hp Hne) as [->|[E|[E|[? E]]]]; [|congruence..].
    by eapply tstep_finish_life.
  - specialize (Hbusy Ho).
    destruct (tstep_choice _ _ _ _ _ _ _ _ H Hp Hne) as [->|[E|[E|[? E]]]].
    + destruct (tpc t) as [] eqn:Hpc; try done.
      * by eapply tstep_dispatch_life.
      * by eapply tstep_schedule_life.
      * destruct t; simpl in *; by subst.
      * destruct t; simpl in *; by subst.
      * by eapply tstep_stop_life.
      * by eapply tstep_unregister_life.
      * eapply tstep_stopped_life; eauto.
      * eapply tstep_stopped_life; eauto.
      * by eapply tstep_drained_life.
      * by eapply tstep_finish_life.
    + eapply tstep_start_life; eauto.
    + eapply tstep_start_life; eauto.
    + eapply tstep_unregister_life; eauto.
Qed.

(** ** What a step does to the other goroutines *)

(** A call under way outside the owner keeps the lifecycle out of its phases
    of change. *)
Lemma nonowner_lifecycle n s u :
  local_ok u → owns u = false → t_in_call u = true → life_ok n s u →
  lifecycleState s = actorStarted ∨ lifecycleState s = actorStopped.
Proof.
  intros (Hl1 & Hl & _) Ho Hc HL. destruct u as [p tr ck ex]. unfold owns, t_in_call in *. simpl in *.
  destruct p; simpl in *; try done; repeat case_match; simplify_eq/=; try done; auto.
Qed.

Lemma nonowner_frame n n' s s' u :
  local_ok u → owns u = false → life_ok n s u →
  (t_in_call u = true → lifecycleState s' = lifecycleState s) → life_ok n' s' u.
Proof.
  intros (Hl1 & Hl & _) Ho HL Hs. destruct u as [p tr ck ex]. unfold owns, t_in_call in *. simpl in *.
  unfold SchedulerLife.life_ok in *. simpl in *.
  destruct p; simpl in *; try done; repeat case_match; simplify_eq/=; try done; auto;
    try (rewrite Hs by done; done).
  by destruct tr; [left|].
Qed.

(** The lifecycle moves only out of the transient states, or when an idle
    started actor begins to stop. *)
Lemma tstep_lifecycle kof i s t ch s' t' new n :
  tstep kof i s t ch = Some (s', t', new) → local_ok t → kof i = callKind_ t →
  q_wf (mailbox s) → life_ok n s t →
  lifecycleState s' = lifecycleState s ∨
  (lifecycleState s ≠ actorStarted ∧ lifecycleState s ≠ actorStopped) ∨ tpc t = PStop KStopLeft.
Proof.
  intros H Hl Hk W HL. destruct (decide (ch = CAsk)) as [->|Hne].
  { destruct (tstep_ask H Hl Hk) as [(-> & -> & ->)|(-> & Hp & Hs)]; auto. }
  destruct (plain (tpc t)) eqn:Hp.
  { destruct (tstep_core H W Hp Hne) as [Hc _]. left. unfold core in Hc. congruence. }
  destruct t as [p tr ck ex], s; destruct p, ch; simpl in *; try done;
    try (destruct k; [| |by destruct Hl]); try (by right; right);
    unfold_step H; unfold dispatch, stop_begin, schedule in H; simpl in H;
    unfold SchedulerLife.life_ok in HL; simpl in HL;
    repeat (case_match; simplify_eq/=; try done); simplify_eq/=; auto;
    right; left; destruct_and?; split; congruence.
Qed.

(** The steps of a goroutine that does not own draining. *)
Lemma tstep_nonowner kof i s t ch s' t' new :
  tstep kof i s t ch = Some (s', t', new) → local_ok t → kof i = callKind_ t →
  q_wf (mailbox s) → owns t = false →
  lifecycleState s' = lifecycleState s ∧ ph s' = ph s ∧
  clusterRegistrationOwned s' = clusterRegistrationOwned s ∧
  (t_in_call t' = true → t_in_call t = true).
Proof.
  intros H Hl Hk W Ho. destruct (decide (ch = CAsk)) as [->|Hne].
  { destruct (tstep_ask H Hl Hk) as [(-> & -> & ->)|(-> & Hp & Hs)]; [done|].
    destruct t as [p tr ck ex]. simpl in *. subst p. split_and!; done. }
  assert (t_in_call t' = true → t_in_call t = true) as Hc.
  { destruct t as [p tr ck ex], s; destruct tr; pc_cases p ch H; step_cases H;
      destruct Hl as (Hl1 & Hl2 & Hl3); unfold owns, t_in_call, after_invoke in *; simpl in *; try done;
      repeat case_match; simplify_eq/=; done. }
  split_and!; [..|exact Hc].
  all: destruct (plain (tpc t)) eqn:Hp;
    [destruct (tstep_core H W Hp Hne) as [E _]; unfold core in E; congruence|].
  all: destruct (owner_pc t Hl Hp) as [[k Hk']|[Hk'|Ho']]; [| |congruence].
  all: destruct (tstep_choice _ _ _ _ _ _ _ _ H Hp Hne) as [->|[E|[E|[? E]]]]; [|congruence..].
  all: destruct t as [p tr ck ex], s; simpl in *; subst p;
    unfold_step H; unfold schedule in H; simpl in H;
    repeat (case_match; simplify_eq/=); done.
Qed.
End life.
Arguments tstep_life {U Q M BQ MI self me hasRegister hasUnregister goid kof i s t ch s' t' new n n'} _ _ _ _ _ _ _ _ _ _.
Arguments tstep_lifecycle {U Q M BQ MI self me hasRegister hasUnregister goid kof i s t ch s' t' new n} _ _ _ _ _.
Arguments tstep_nonowner {U Q M BQ MI self me hasRegister hasUnregister goid kof i s t ch s' t' new} _ _ _ _ _.
