(* ===== verification/SchedulerReach.v ===== *)
(** * The lifecycle invariant in every reachable state *)

From S2P Require Import Prelude.
From S2P Require Import Queue.
From S2P Require Import SafeMap.
From S2P Require Import Registry.
From S2P Require Import ActorId.
From S2P Require Import Messages.
From S2P Require Import Scheduler.
From S2P Require Import SchedulerInv.
From S2P Require Import SchedulerCount.
From S2P Require Import SchedulerFifo.
From S2P Require Import SchedulerOrder.
From S2P Require Import SchedulerLife.
From S2P Require Import SchedulerProto.
Open Scope Z_scope.

(** Fewer than 2^31 goroutines have ever touched the processor, so that the
    int32 counter of unfinished calls has not wrapped. *)
Definition bounded {U Q M} (st : state U Q M) : Prop := Z.of_nat (length (threads st)) < 2 ^ 31.

(** The same of the goroutines that are inside an unfinished call now. *)
Definition fits {U Q M} (st : state U Q M) : Prop := count t_in_call (threads st) < 2 ^ 31.

Lemma bounded_fits {U Q M} (st : state U Q M) : bounded st → fits st.
Proof. unfold bounded, fits. pose proof (count_bounds t_in_call (threads st)). lia. Qed.

Section reach.
Context {U Q M : Type} {BQ : BoundedQueue Q (Ctx U)} {MI : MapImpl M string nat}.
Variables (self : ActorRef) (me : nat) (hasRegister hasUnregister : bool) (goid : nat → Z).
Implicit Types (s : shared U Q M) (t : thread U) (c : Ctx U) (st : state U Q M).

Local Abbreviation exec := (exec self me hasRegister hasUnregister goid).
Local Abbreviation reachable := (reachable self me hasRegister hasUnregister goid).
Local Abbreviation tstep := (tstep self me hasRegister hasUnregister goid).
Local Abbreviation ph s := (proto_run self hasRegister hasUnregister (history s)).

Local Abbreviation life_ok := (life_ok self hasRegister hasUnregister).
Local Abbreviation life_global := (life_global self hasRegister hasUnregister).
Local Abbreviation life_step := (life_step self hasRegister hasUnregister).
Local Abbreviation first_message := (first_message self).
#[local] Arguments taken : simpl never.
#[local] Arguments proto_run : simpl never.
#[local] Arguments reports : simpl never.
#[local] Arguments toDeadLetter : simpl never.

Record inv_life st : Prop := {
  il_global : life_global (sh st);
  il_threads : ∀ i t, threads st !! i = Some t →
    life_ok (count t_in_call (threads st)) (sh st) t;
  il_head : ∃ snId l, accepted (history (sh st)) = msgInit self snId :: l
}.

Lemma exec_length l st st' : exec l st = Some st' → (length (threads st) ≤ length (threads st'))%nat.
Proof.
  intros E. destruct (label_cases l) as [(i & ch & ->)|Hl].
  - destruct (exec_step_inv E) as (t & t' & new & _ & _ & -> & _). rewrite length_app, length_insert. lia.
  - destruct (exec_env_inv E Hl) as [(p & _ & -> & _)|(-> & _)]; rewrite ?length_app; lia.
Qed.

Lemma bounded_step l st st' : exec l st = Some st' → bounded st' → bounded st.
Proof. unfold bounded. intros E%exec_length. lia. Qed.

Lemma unfinished_exact st :
  inv_count st → fits st → unfinishedCalls (sh st) = count t_in_call (threads st).
Proof.
  intros HC Hb. rewrite (ic_calls _ HC). apply i32_id. unfold fits in Hb.
  pose proof (count_bounds t_in_call (threads st)). unfold in_i32. lia.
Qed.

(** An owner of a fresh processor can only take Initialize. *)
Lemma owner_first st i t :
  inv_count st → inv_fifo st → inv_life st → threads st !! i = Some t → first_message (sh st) t.
Proof.
  intros HC HF HLi Hi Hinit Ho. destruct (il_head _ HLi) as (sn & l & E).
  exists sn, l. rewrite <-E, (if_order _ HF).
  rewrite (proj1 (proj2 (lg_init _ _ _ _ (il_global _ HLi) Hinit))).
  by rewrite (concat_inhand st i t HC Hi Ho).
Qed.

Lemma owner_busy st i t :
  inv_count st → threads st !! i = Some t → owns t = true → drainStatus (sh st) ≠ drainIdle.
Proof.
  intros HC Hi Ho Hs. pose proof (ic_owner _ HC) as H. rewrite Hs in H.
  pose proof (count_elem_pos owns _ i t Hi Ho). lia.
Qed.

Lemma accepted_grows s s' t t' new :
  fifo_step s s' t t' new → ∃ l, accepted (history s') = accepted (history s) ++ l.
Proof. intros (_ & _ & d & -> & _). rewrite accepted_app. eauto. Qed.

(** The only goroutines a step starts are fresh drainers. *)
Lemma tstep_drainers kof i s t ch s' t' new :
  tstep kof i s t ch = Some (s', t', new) → new = [] ∨ new = [new_drainer].
Proof.
  intros H. destruct t as [p tr ck ex].
  destruct p, ch; simpl in H; try discriminate H; step_cases H; auto.
Qed.

Lemma new_not_in_call kof i s t ch s' t' new :
  tstep kof i s t ch = Some (s', t', new) → local_ok t → kof i = callKind_ t →
  count t_in_call new = 0.
Proof.
  intros Ht Lt Hk. destruct (tstep_drainers _ _ _ _ _ _ _ _ Ht) as [-> | ->]; done.
Qed.

Lemma life_ok_eq n n' s s' u :
  lifecycleState s' = lifecycleState s → ph s' = ph s →
  clusterRegistrationOwned s' = clusterRegistrationOwned s → (n = 0 → n' = 0) →
  life_ok n s u → life_ok n' s' u.
Proof.
  clear me goid MI. intros E1 E2 E3 Hn. unfold SchedulerLife.life_ok, okrun.
  rewrite E1, E2, E3. repeat case_match; tauto.
Qed.

(** The other goroutines' part of a step of [i]. *)
Lemma frame_life st i ch t s' t' new j u :
  inv_count st → inv_fifo st → inv_life st → threads st !! i = Some t →
  tstep (kind_of (threads st)) i (sh st) t ch = Some (s', t', new) →
  kind_of (threads st) i = callKind_ t → threads st !! j = Some u → j ≠ i →
  life_ok (count t_in_call (<[i := t']> (threads st) ++ new)) s' u.
Proof.
  intros HC HF HLi Hi Ht Hk Hj Hne. set (n := count t_in_call (threads st)).
  pose proof (ic_local _ HC i t Hi) as Lt. pose proof (ic_local _ HC j u Hj) as Lu.
  pose proof (il_threads _ HLi j u Hj) as Hu. pose proof (il_threads _ HLi i t Hi) as HLt.
  destruct (owns t) eqn:Ho.
  - assert (owns u = false) as Hou.
    { destruct (owns u) eqn:E; [|done]. by destruct (Hne (owns_unique st j i u t HC Hj Hi E Ho)). }
    eapply nonowner_frame; [exact Lu|exact Hou|exact Hu|]. intros Hcall.
    destruct (tstep_lifecycle Ht Lt Hk (if_wf _ HF) HLt) as [|[[H1 H2]|Hp]]; [done| |].
    + by destruct (nonowner_lifecycle _ _ _ _ _ _ Lu Hou Hcall Hu).
    + exfalso. unfold SchedulerLife.life_ok in HLt. rewrite Hp in HLt. destruct HLt as [_ Hz].
      pose proof (count_elem_pos t_in_call _ j u Hj Hcall). lia.
  - destruct (tstep_nonowner Ht Lt Hk (if_wf _ HF) Ho) as (E1 & E2 & E3 & Hcall).
    apply (life_ok_eq n _ (sh st)); [done..| |done]. intros Hz.
    destruct (tstep_counts Ht Lt Hk) as (_ & C2 & _).
    rewrite (count_step t_in_call _ _ i t t' Hi).
    assert (t_in_call t = false) as Hin by (by eapply (count_zero_elem t_in_call)).
    assert (t_in_call t' = false) as Hin'.
    { destruct (t_in_call t') eqn:E; [|done]. rewrite Hcall in Hin; done. }
    fold n. rewrite Hz, Hin, Hin'. rewrite (new_not_in_call _ _ _ _ _ _ _ _ Ht Lt Hk). done.
Qed.

Lemma exec_inv_life l st st' :
  inv_count st → inv_fifo st → inv_life st → exec l st = Some st' → fits st → inv_life st'.
Proof.
  intros HC HF HLi E Hb. destruct (label_cases l) as [(i & ch & ->)|Hl].
  - destruct (exec_step_inv E) as (t & t' & new & Hi & Ht & Hths & Hk).
    pose proof (ic_local _ HC i t Hi) as Lt.
    pose proof (new_not_in_call _ _ _ _ _ _ _ _ Ht Lt Hk) as Hnew.
    pose proof (count_step t_in_call _ new i t t' Hi) as Hcs.
    pose proof (count_bounds t_in_call (threads st)) as Hcb.
    assert (life_step (count t_in_call (threads st')) (sh st') t' new) as (S1 & S2 & S3).
    { apply (tstep_life (n := count t_in_call (threads st)) Ht Lt Hk (if_wf _ HF)).
      - apply HLi.
      - by apply (il_threads _ HLi i).
      - by apply owner_first with i.
      - by rewrite unfinished_exact.
      - intros Hz Hc. rewrite Hths, Hcs, Hz, Hnew, Hc.
        by rewrite (count_zero_elem t_in_call _ i t Hz Hi).
      - by apply owner_busy with i. }
    constructor; [exact S1| |].
    + intros j u Hj. rewrite Hths in Hj. apply lookup_app_Some in Hj as [Hj|[_ Hj]].
      * apply list_lookup_insert_Some in Hj as [(<- & <- & _)|[Hne Hj]]; [done|].
        rewrite Hths. by eapply frame_life.
      * rewrite Forall_forall in S3. apply S3. by eapply list_elem_of_lookup_2.
    + destruct (accepted_grows _ _ _ _ _ (tstep_fifo Ht Lt Hk (if_wf _ HF))) as [l' ->].
      destruct (il_head _ HLi) as (sn & l & ->). by exists sn, (l ++ l').
  - destruct HLi as [L1 L2 L3].
    destruct (exec_env_inv E Hl) as [(p & Hs & Hths & Hp)|(Hths & r & Hs & _)].
    + constructor; rewrite Hs; [done| |done]. rewrite Hths, count_snoc.
      assert (t_in_call (Thread p false callStart false : thread U) = false) as ->
        by (by destruct Hp as [[c ->]| ->]).
      simpl. rewrite Z.add_0_r. intros j u Hj. apply lookup_app_Some in Hj as [Hj|[_ Hj]]; [eauto|].
      apply list_lookup_singleton_Some in Hj as [_ <-]. by destruct Hp as [[c ->]| ->].
    + destruct (set_registry_fields r (sh st)) as (F1 & F2 & _ & _ & _ & _ & F3 & _ & F4 & F5).
      constructor; rewrite Hs, ?Hths, ?F5; [|intros j u Hj|done].
      * eapply life_global_same; [|exact L1]. unfold core. by rewrite F1, F2, F3, F4, F5.
      * apply (life_ok_eq (count t_in_call (threads st)) _ (sh st)); rewrite ?F5; eauto.
Qed.

Lemma reachable_inv_life st : reachable st → bounded st → inv_life st.
Proof.
  induction 1 as [q0 r0 snId st Hf _ _ E|st l st' Hr IH E]; intros Hb.
  - destruct (initial_spec Hf E) as (q & n & W & _ & A & ->). constructor; simpl.
    + constructor; unfold okrun; simpl; try done; try tauto; rewrite ?A; simpl; try done.
      * split; [done|]. by intros [|].
    + intros i t Hi. apply list_lookup_singleton_Some in Hi as [_ <-]. done.
    + by exists snId, [].
  - eapply exec_inv_life; [by eapply reachable_inv_count|by eapply reachable_inv_fifo| |done|].
    + apply IH. by eapply bounded_step.
    + apply bounded_fits. by eapply bounded_step.
Qed.
End reach.
Arguments reachable_inv_life {U Q M BQ MI self me hasRegister hasUnregister goid st} _ _.
