(* ===== verification/SchedulerEnd.v ===== *)
(** * The end of an actor, and the wakeups that lead there

    After the removal from the registry nothing is left behind; and a drainer
    never parks while there is work: whoever made the work visible is still
    about to call [schedule]. *)

From S2P Require Import Prelude.
From S2P Require Import Queue.
From S2P Require Import SafeMap.
From S2P Require Import Registry.
From S2P Require Import ActorId.
From S2P Require Import Messages.
From S2P Require Import Scheduler.
From S2P Require Import SchedulerInv.
From S2P Require Import SchedulerCount.
From S2P Require Import SchedulerFifo.
From S2P Require Import SchedulerOrder.
From S2P Require Import SchedulerLife.
From S2P Require Import SchedulerProto.
From S2P Require Import SchedulerReach.
Open Scope Z_scope.

Section end_.
Context {U Q M : Type} {BQ : BoundedQueue Q (Ctx U)} {MI : MapImpl M string nat}.
Variables (self : ActorRef) (me : nat) (hasRegister hasUnregister : bool) (goid : nat → Z).
Implicit Types (s : shared U Q M) (t : thread U) (c : Ctx U) (st : state U Q M).

Local Abbreviation exec := (exec self me hasRegister hasUnregister goid).
Local Abbreviation reachable := (reachable self me hasRegister hasUnregister goid).
Local Abbreviation tstep := (tstep self me hasRegister hasUnregister goid).
Local Abbreviation ph s := (proto_run self hasRegister hasUnregister (history s)).

Local Abbreviation life_ok := (life_ok self hasRegister hasUnregister).
Local Abbreviation life_global := (life_global self hasRegister hasUnregister).
Local Abbreviation life_step := (life_step self hasRegister hasUnregister).
Local Abbreviation first_message := (first_message self).
#[local] Arguments taken : simpl never.
#[local] Arguments proto_run : simpl never.
#[local] Arguments reports : simpl never.
#[local] Arguments toDeadLetter : simpl never.


Definition draining (p : pc U) : bool :=
  match p with PDrain _ | PDrained _ _ => true | _ => false end.
Definition removing (p : pc U) : bool := match p with PRemove _ => true | _ => false end.

(** ** The last phase *)

Lemma proto_gone (d : list (event U)) p :
  ERemoved ∉ d →
  foldl (λ p e, p ≫= λ p, proto self hasRegister hasUnregister p e) p d = Some PhGone →
  p = Some PhGone.
Proof.
  revert p. induction d as [|e d IH]; intros p Hd H; [done|]. simpl in H.
  apply IH in H; [|set_solver]. destruct p as [p|]; [|done]. simpl in H.
  destruct e, p; simpl in H; repeat case_match; try done. set_solver.
Qed.

Lemma proto_from_gone (d : list (event U)) p :
  foldl (λ p e, p ≫= λ p, proto self hasRegister hasUnregister p e) (Some PhGone) d = Some p →
  p = PhGone.
Proof.
  assert (∀ d : list (event U), foldl (λ p e, p ≫= λ p, proto self hasRegister hasUnregister p e) None d = None)
    as Hn by (induction d0; simpl; auto).
  induction d as [|e d IH]; simpl; intros H; [congruence|].
  destruct e; simpl in H; try (by rewrite Hn in H); by apply IH.
Qed.

Definition end_step s s' t t' : Prop :=
  (lifecycleState s' = actorStopped → lifecycleState s = actorStopped ∨ removing (tpc t') = true) ∧
  (items s' ≠ [] → qs_closed (q_abs (mailbox s)) = true → items s ≠ []) ∧
  (draining (tpc t) = true → items s' = [] ∨ draining (tpc t') = true) ∧
  ∃ d, history s' = history s ++ d ∧
    ((removing (tpc t) = true ∧ draining (tpc t') = true ∧
      registry s' = remove (registry s) (GetId self) me) ∨
     (removing (tpc t) = false ∧ registry s' = registry s ∧ ERemoved ∉ d)).

Lemma not_removed_reports e (l : list (report U)) : e ≠ ERemoved → ERemoved ∉ e :: reports l.
Proof.
  intros He. apply not_elem_of_cons. split; [done|].
  intros (r & ? & _)%list_elem_of_fmap. done.
Qed.

Lemma end_step_intro s s' t t' d :
  (lifecycleState s' = actorStopped → lifecycleState s = actorStopped ∨ removing (tpc t') = true) →
  (items s' ≠ [] → qs_closed (q_abs (mailbox s)) = true → items s ≠ []) →
  (draining (tpc t) = true → items s' = [] ∨ draining (tpc t') = true) →
  history s' = history s ++ d →
  ((removing (tpc t) = true ∧ draining (tpc t') = true ∧
      registry s' = remove (registry s) (GetId self) me) ∨
     (removing (tpc t) = false ∧ registry s' = registry s ∧ ERemoved ∉ d)) →
  end_step s s' t t'.
Proof. intros. split_and!; eauto. Qed.

Ltac end_done :=
  first [apply (end_step_intro _ _ _ _ []); [| | |by rewrite app_nil_r|]
        |eapply end_step_intro; [| | |simpl; rewrite <-?app_assoc; reflexivity|]];
  unfold items in *; simpl in *;
  first [done|auto; fail|congruence|
    by (intros; left; congruence)|
    by (right; split_and!; [done|done|first [by apply not_removed_reports|set_solver]])|
    by (left; split_and!)].

Lemma tstep_end kof i s t ch s' t' new :
  tstep kof i s t ch = Some (s', t', new) → local_ok t → kof i = callKind_ t →
  q_wf (mailbox s) → end_step s s' t t'.
Proof.
  intros H Hl Hk W. destruct (decide (ch = CAsk)) as [->|Hne].
  - destruct (tstep_ask H Hl Hk) as [(-> & -> & ->)|(-> & Hp & Hs)].
    + destruct t as [p tr k ex]. destruct p; simpl in H; try discriminate H; end_done.
    + destruct t as [p [] k ex]; simpl in Hp; subst p; unfold suspend in Hs; simpl in Hs;
        injection Hs as -> ->; end_done.
  - destruct t as [p tr k ex]. pose proof (q_close_inv (mailbox s) W) as (?&?&?).
    destruct s; destruct p, ch; simpl in H; try discriminate H; step_cases H; simpl in *.
    all: queue_facts.
    all: end_done.
Qed.

(** A goroutine with a property either moves or stays. *)
Lemma witness_step st i t t' new (f : thread U → bool) :
  threads st !! i = Some t → f t' = f t ∨ f t' = true →
  (∃ j u, threads st !! j = Some u ∧ f u = true) →
  ∃ j u, (<[i := t']> (threads st) ++ new) !! j = Some u ∧ f u = true.
Proof.
  intros Hi Hf (j & u & Hj & Hu). pose proof (lookup_lt_Some _ _ _ Hi) as Hlt.
  destruct (decide (j = i)) as [->|Hne].
  - exists i, t'. rewrite lookup_app_l by (by rewrite length_insert).
    rewrite list_lookup_insert_eq by done. split; [done|]. simplify_eq. destruct Hf; congruence.
  - exists j, u. rewrite lookup_app_l by (rewrite length_insert; by eapply lookup_lt_Some).
    by rewrite list_lookup_insert_ne.
Qed.

Lemma witness_new st i t t' new (f : thread U → bool) :
  threads st !! i = Some t → f t' = true →
  ∃ j u, (<[i := t']> (threads st) ++ new) !! j = Some u ∧ f u = true.
Proof.
  intros Hi Hf. pose proof (lookup_lt_Some _ _ _ Hi) as Hlt. exists i, t'.
  rewrite lookup_app_l by (by rewrite length_insert). by rewrite list_lookup_insert_eq.
Qed.

Lemma witness_other st i t t' new (f : thread U → bool) :
  threads st !! i = Some t → f t = false →
  (∃ j u, threads st !! j = Some u ∧ f u = true) →
  ∃ j u, (<[i := t']> (threads st) ++ new) !! j = Some u ∧ f u = true.
Proof.
  intros Hi Hf (j & u & Hj & Hu). exists j, u.
  assert (j ≠ i) by (intros ->; simplify_eq; congruence).
  rewrite lookup_app_l by (rewrite length_insert; by eapply lookup_lt_Some).
  by rewrite list_lookup_insert_ne.
Qed.

Lemma witness_snoc (ths : list (thread U)) v (f : thread U → bool) :
  (∃ j u, ths !! j = Some u ∧ f u = true) → ∃ j u, (ths ++ [v]) !! j = Some u ∧ f u = true.
Proof. intros (j & u & Hj & Hu). exists j, u. by rewrite lookup_app_l by (by eapply lookup_lt_Some). Qed.

Record inv_end st : Prop := {
  ie_wf : m_wf (registry (sh st));
  ie_gone_stopped : ph (sh st) = Some PhGone → lifecycleState (sh st) = actorStopped;
  ie_gone : ph (sh st) = Some PhGone → m_abs (registry (sh st)) !! GetId self ≠ Some me;
  ie_present : ph (sh st) ≠ Some PhGone → m_abs (registry (sh st)) !! GetId self = Some me;
  ie_stopped : lifecycleState (sh st) = actorStopped →
    ph (sh st) = Some PhGone ∨
    ∃ i t, threads st !! i = Some t ∧ removing (tpc t) = true;
  ie_drained : ph (sh st) = Some PhGone → items (sh st) = [] ∨
    ∃ i t, threads st !! i = Some t ∧ draining (tpc t) = true
}.

Lemma draining_gone st i t : inv_life self hasRegister hasUnregister st → threads st !! i = Some t →
  draining (tpc t) = true → ph (sh st) = Some PhGone.
Proof.
  intros HL Hi Hd. pose proof (il_threads _ _ _ _ HL i t Hi) as H. unfold SchedulerLife.life_ok in H.
  destruct (tpc t); simpl in *; try done; by destruct H.
Qed.

Lemma removing_not_gone st i t : inv_life self hasRegister hasUnregister st → threads st !! i = Some t →
  removing (tpc t) = true → ph (sh st) ≠ Some PhGone.
Proof.
  intros HL Hi Hd. pose proof (il_threads _ _ _ _ HL i t Hi) as H. unfold SchedulerLife.life_ok in H.
  destruct (tpc t); simpl in *; try done; destruct H as (_ & o & -> & _); done.
Qed.

Lemma gone_closed s :
  life_global s → lifecycleState s = actorStopped → qs_closed (q_abs (mailbox s)) = true.
Proof. intros G E. apply (lg_closed _ _ _ _ G). auto. Qed.

Lemma life_draining n s t : life_ok n s t → draining (tpc t) = true →
  lifecycleState s = actorStopped ∧ ph s = Some PhGone.
Proof. unfold SchedulerLife.life_ok. destruct (tpc t); simpl; done. Qed.

(** A step of the environment: a message posted, or another actor's change of
    the registry. *)
Lemma exec_inv_end_env l st st' : inv_end st → (∀ i ch, l ≠ LStep i ch) → exec l st = Some st' → inv_end st'.
Proof.
  intros [E1 E0 E2 E3 E4 E5] Hl E.
  destruct (exec_env_inv E Hl) as [(p & Hs & Hths & Hp)|(Hths & r & Hs & Hr)].
  - constructor; rewrite Hs, ?Hths; try done.
    + intros HS. destruct (E4 HS) as [|Hw]; [by left|right].
      by apply (witness_snoc _ _ (λ t, removing (tpc t))).
    + intros P. destruct (E5 P) as [|Hw]; [by left|right].
      by apply (witness_snoc _ _ (λ t, draining (tpc t))).
  - destruct (set_registry_fields r (sh st)) as (F1 & F2 & _ & _ & _ & _ & F3 & _ & F4 & F5).
    destruct (Hr E1) as [Wr Hiff].
    assert (registry (set_registry r (sh st)) = r) as Fr by (by destruct (sh st)).
    constructor; unfold items; rewrite Hs, ?Hths, ?F5, ?F3, ?F1, ?Fr; try done.
    + intros P. rewrite Hiff. auto.
    + intros P. rewrite Hiff. auto.
Qed.

Lemma exec_inv_end l st st' :
  inv_count st → inv_fifo st → inv_life self hasRegister hasUnregister st →
  inv_life self hasRegister hasUnregister st' → inv_end st → exec l st = Some st' → inv_end st'.
Proof.
  intros HC HF HL HL' [E1 E0 E2 E3 E4 E5] E. destruct (label_cases l) as [(i & ch & ->)|Hl].
  - destruct (exec_step_inv E) as (t & t' & new & Hi & Ht & Hths & Hk).
    pose proof (ic_local _ HC i t Hi) as Lt. pose proof (if_wf _ HF) as W.
    pose proof (il_threads _ _ _ _ HL i t Hi) as HLt.
    assert (threads st' !! i = Some t') as Hi'.
    { rewrite Hths. pose proof (lookup_lt_Some _ _ _ Hi).
      rewrite lookup_app_l by (by rewrite length_insert). by apply list_lookup_insert_eq. }
    pose proof (il_threads _ _ _ _ HL' i t' Hi') as HLt'.
    destruct (tstep_end _ _ _ _ _ _ _ _ Ht Lt Hk W) as (T1 & T2 & T3 & d & Hd & T4).
    assert (ph (sh st) = Some PhGone → ph (sh st') = Some PhGone) as Hkeep.
    { intros P. destruct (lg_proto _ _ _ _ (il_global _ _ _ _ HL')) as [p Hp].
      rewrite Hd, (ph_next _ _ _ _ _ _ P) in Hp. apply proto_from_gone in Hp as Hp'. subst p.
      by rewrite Hd, (ph_next _ _ _ _ _ _ P). }
    destruct T4 as [(R1 & R2 & R3)|(R1 & R2 & R3)].
    + destruct (life_draining _ _ _ HLt' R2) as [S1 S2].
      destruct (remove_abs (registry (sh st)) (GetId self) me E1) as [Wr _].
      constructor; rewrite ?R3; try done; try (intros; by rewrite S2 in * ).
      * intros _. by apply remove_lookup_ne.
      * intros _. by left.
      * intros _. right. exists i, t'. done.
    + assert (ph (sh st') = Some PhGone → ph (sh st) = Some PhGone) as Hback.
      { intros P. rewrite Hd, proto_run_app in P. by apply proto_gone in P. }
      constructor; rewrite ?R2; [done|..].
      * intros P. destruct (tstep_lifecycle Ht Lt Hk W HLt) as [->|[[_ H]|Hp]]; [auto| |].
        -- by destruct (H (E0 (Hback P))).
        -- unfold SchedulerLife.life_ok in HLt. rewrite Hp in HLt. destruct HLt as [HLt _].
           rewrite E0 in HLt by auto. done.
      * auto.
      * auto.
      * intros HS. rewrite Hths. destruct (T1 HS) as [HS'|Hr].
        -- destruct (E4 HS') as [|Hw]; [left; auto|]. right.
           by apply (witness_other st i t t' new (λ t, removing (tpc t)) Hi).
        -- right. by apply (witness_new st i t t' new (λ t, removing (tpc t)) Hi).
      * intros P. rewrite Hths. specialize (Hback P).
        assert (qs_closed (q_abs (mailbox (sh st))) = true) as Hcl
          by (apply gone_closed; [apply HL|by apply E0]).
        destruct (decide (items (sh st') = [])) as [|Hne]; [by left|right].
        destruct (E5 Hback) as [H0|Hw]; [by destruct (T2 Hne Hcl)|].
        apply (witness_step st i t t' new (λ t, draining (tpc t)) Hi); [|done].
        destruct (draining (tpc t)) eqn:Hdr; [|by destruct (draining (tpc t')); auto].
        by destruct (T3 eq_refl); [|right].
  - by apply (exec_inv_end_env l st).
Qed.

Lemma reachable_inv_end st : reachable st → bounded st → inv_end st.
Proof.
  induction 1 as [q0 r0 snId st Hf Hw Hfree E|st l st' Hr IH E]; intros Hb.
  - destruct (initial_spec Hf E) as (q & n & W & _ & A & ->).
    destruct (register_abs r0 (GetId self) me Hw) as (H1 & _ & H3). rewrite Hfree in H3.
    constructor; simpl; try done. intros _. by rewrite H3, lookup_insert_eq.
  - pose proof (bounded_step self me hasRegister hasUnregister goid l st st' E Hb) as Hb0.
    eapply exec_inv_end; [by eapply reachable_inv_count|by eapply reachable_inv_fifo|
      by apply (reachable_inv_life Hr)| |by apply IH|exact E].
    eapply reachable_inv_life; [|exact Hb]. by eapply reach_step.
Qed.
End end_.
Arguments reachable_inv_end {U Q M BQ MI self me hasRegister hasUnregister goid st} _ _.
