(* ===== verification/SchedulerWake.v ===== *)
(** * No lost wakeup

    While the drain status is idle, a message in the mailbox, or a stop that
    could be carried out, always has a goroutine that has yet to call
    [schedule] or is just re-checking after parking. *)

From S2P Require Import Prelude.
From S2P Require Import Queue.
From S2P Require Import SafeMap.
From S2P Require Import Registry.
From S2P Require Import ActorId.
From S2P Require Import Messages.
From S2P Require Import Scheduler.
From S2P Require Import SchedulerInv.
From S2P Require Import SchedulerCount.
From S2P Require Import SchedulerFifo.
From S2P Require Import SchedulerOrder.
From S2P Require Import SchedulerLife.
From S2P Require Import SchedulerProto.
From S2P Require Import SchedulerReach.
From S2P Require Import SchedulerEnd.
Open Scope Z_scope.

Section wake.
Context {U Q M : Type} {BQ : BoundedQueue Q (Ctx U)} {MI : MapImpl M string nat}.
Variables (self : ActorRef) (me : nat) (hasRegister hasUnregister : bool) (goid : nat → Z).
Implicit Types (s : shared U Q M) (t : thread U) (c : Ctx U) (st : state U Q M).

Local Abbreviation exec := (exec self me hasRegister hasUnregister goid).
Local Abbreviation reachable := (reachable self me hasRegister hasUnregister goid).
Local Abbreviation tstep := (tstep self me hasRegister hasUnregister goid).
Local Abbreviation ph s := (proto_run self hasRegister hasUnregister (history s)).

Local Abbreviation inv_life := (inv_life self hasRegister hasUnregister).
Local Abbreviation inv_end := (inv_end self me hasRegister hasUnregister).
Local Abbreviation life_ok := (life_ok self hasRegister hasUnregister).
Local Abbreviation life_global := (life_global self hasRegister hasUnregister).
Local Abbreviation life_step := (life_step self hasRegister hasUnregister).
Local Abbreviation first_message := (first_message self).
#[local] Arguments taken : simpl never.
#[local] Arguments proto_run : simpl never.
#[local] Arguments reports : simpl never.
#[local] Arguments toDeadLetter : simpl never.



(** About to schedule, or about to look at the mailbox once more. *)
Definition wake_mail (p : pc U) : bool :=
  match p with PSchedule _ | PFinLen => true | _ => false end.

(** About to schedule, or about to look whether a stop is due. *)
Definition wake_stop (p : pc U) : bool :=
  match p with
  | PSchedule _ | PFinLen | PFinReady | PFinReadyUnf | PSubReady => true
  | _ => false
  end.

Record inv_wake st : Prop := {
  iw_mail : drainStatus (sh st) = drainIdle → items (sh st) ≠ [] →
    ∃ i t, threads st !! i = Some t ∧ wake_mail (tpc t) = true;
  iw_stop : drainStatus (sh st) = drainIdle → stopRequested (sh st) = true →
    count t_in_call (threads st) = 0 →
    ∃ i t, threads st !! i = Some t ∧ wake_stop (tpc t) = true
}.

Definition wake_step (n n' : Z) s s' t t' : Prop :=
  (drainStatus s' = drainIdle → items s' ≠ [] → wake_mail (tpc t') = true ∨
     (drainStatus s = drainIdle ∧ items s ≠ [] ∧ wake_mail (tpc t) = false)) ∧
  (drainStatus s' = drainIdle → stopRequested s' = true → n' = 0 → wake_stop (tpc t') = true ∨
     (drainStatus s = drainIdle ∧ stopRequested s = true ∧ n = 0 ∧ wake_stop (tpc t) = false)).

(** The mailbox is read as non-empty exactly when it is. *)
Lemma len_items s : q_wf (mailbox s) → q_len (mailbox s) = Z.of_nat (length (items s)).
Proof. intros W. by apply q_len_inv. Qed.

Lemma tstep_wake kof i s t ch s' t' new n n' :
  tstep kof i s t ch = Some (s', t', new) → local_ok t → kof i = callKind_ t →
  q_wf (mailbox s) → unfinishedCalls s = n →
  n' = n - b2z (t_in_call t) + b2z (t_in_call t') → 0 ≤ n →
  (owns t = true → drainStatus s ≠ drainIdle) → wake_step n n' s s' t t'.
Proof.
  intros H Hl Hk W Hu Hn' Hn Hbusy. destruct (decide (ch = CAsk)) as [->|Hne].
  { destruct (tstep_ask H Hl Hk) as [(-> & -> & ->)|(-> & Hp & Hs)].
    - destruct t as [p tr ck ex]. destruct p; simpl in H; try discriminate H;
        unfold wake_step, t_in_call in *; simpl in *; subst n n'; split; intros; right; split_and!; try done; lia.
    - destruct t as [p [] k ex]; simpl in Hp; subst p; unfold suspend in Hs; simpl in Hs;
        injection Hs as -> ->; unfold wake_step, t_in_call in *; simpl in *; subst n n'; split;
        intros; right; split_and!; try done; lia. }
  destruct t as [p tr ck ex]. pose proof (q_close_inv (mailbox s) W) as (?&?&?).
  pose proof (len_items s W) as Hlen.
  destruct s, tr; pc_cases p ch H; step_cases H; destruct Hl as (Hl1 & Hl2 & Hl3); simpl in *; try done.
  all: queue_facts; unfold wake_step, items, t_in_call, owns, after_invoke in *; simpl in *.
  all: split; intros; simpl in *; try (left; done).
  all: try (right; split_and!; first [done|congruence|lia]).
  all: try (exfalso; apply Hbusy; done).
  all: try congruence.
  - assert (n = 1) as -> by lia. done.
  - destruct (qs_items (q_abs mailbox)); [done|]. simpl in *. lia.
Qed.

Lemma exec_inv_wake l st st' :
  inv_count st → inv_fifo st → inv_wake st → fits st → exec l st = Some st' → inv_wake st'.
Proof.
  intros HC HF [W1 W2] Hb E. destruct (label_cases l) as [(i & ch & ->)|Hl].
  - destruct (exec_step_inv E) as (t & t' & new & Hi & Ht & Hths & Hk).
    pose proof (ic_local _ HC i t Hi) as Lt.
    pose proof (count_bounds t_in_call (threads st)) as Hcb.
    pose proof (count_step t_in_call _ new i t t' Hi) as Hcs.
    rewrite (new_not_in_call _ _ _ _ _ _ _ _ _ _ _ _ _ Ht Lt Hk), Z.add_0_r in Hcs.
    destruct (tstep_wake _ _ _ _ _ _ _ _ _ _ Ht Lt Hk (if_wf _ HF) (unfinished_exact st HC Hb) eq_refl)
      as [T1 T2]; [lia|intros Ho; by eapply owner_busy|].
    constructor; rewrite Hths.
    + intros Hs Hit. destruct (T1 Hs Hit) as [Hw|(H1 & H2 & H3)].
      * by apply (witness_new st i t t' new (λ t, wake_mail (tpc t))).
      * apply (witness_other st i t t' new (λ t, wake_mail (tpc t)) Hi); auto.
    + intros Hs Hst Hz. rewrite Hcs in Hz. destruct (T2 Hs Hst Hz) as [Hw|(H1 & H2 & H3 & H4)].
      * by apply (witness_new st i t t' new (λ t, wake_stop (tpc t))).
      * apply (witness_other st i t t' new (λ t, wake_stop (tpc t)) Hi); auto.
  - destruct (exec_env_inv E Hl) as [(p & Hs & Hths & Hp)|(Hths & r & Hs & Hr)].
    + constructor; rewrite Hs, Hths.
      * intros Ha Hi. by apply (witness_snoc _ _ (λ t, wake_mail (tpc t))), W1.
      * rewrite count_snoc.
        assert (t_in_call (Thread p false callStart false : thread U) = false) as ->
          by (by destruct Hp as [[c ->]| ->]).
        simpl. rewrite Z.add_0_r. intros. by apply (witness_snoc _ _ (λ t, wake_stop (tpc t))), W2.
    + destruct (set_registry_fields r (sh st)) as (F1 & F2 & _ & _ & _ & _ & _ & F3 & _).
      constructor; unfold items; by rewrite Hs, Hths, ?F1, ?F2, ?F3.
Qed.

Lemma reachable_inv_wake st : reachable st → bounded st → inv_wake st.
Proof.
  induction 1 as [q0 r0 snId st Hf _ _ E|st l st' Hr IH E]; intros Hb.
  - destruct (initial_spec Hf E) as (q & n & W & _ & A & ->). constructor; simpl; [|done].
    intros _ _. by exists 0%nat, (Thread (PSchedule SDone) false callStart false).
  - pose proof (bounded_step self me hasRegister hasUnregister goid l st st' E Hb) as Hb0.
    eapply exec_inv_wake; [by eapply reachable_inv_count|by eapply reachable_inv_fifo|
      by apply IH|by apply bounded_fits|exact E].
Qed.

(** ** What holds of a state whose counter has never wrapped *)

Record sound st : Prop := {
  so_reach : reachable st;
  so_life : inv_life st;
  so_end : inv_end st;
  so_wake : inv_wake st
}.

Lemma reachable_sound st : reachable st → bounded st → sound st.
Proof.
  intros Hr Hb. constructor; [done|by apply (reachable_inv_life Hr)|by apply (reachable_inv_end Hr)|
    by apply reachable_inv_wake].
Qed.

(** A step keeps it as long as the calls under way fit the counter. *)
Lemma sound_step l st st' : sound st → fits st → exec l st = Some st' → sound st'.
Proof.
  intros [Hr HL HE HW] Hf E.
  pose proof (reachable_inv_count Hr) as HC. pose proof (reachable_inv_fifo Hr) as HF.
  pose proof (exec_inv_life self me hasRegister hasUnregister goid l st st' HC HF HL E Hf) as HL'.
  constructor; [by econstructor|done|by eapply exec_inv_end|by eapply exec_inv_wake].
Qed.
End wake.
Arguments reachable_inv_wake {U Q M BQ MI self me hasRegister hasUnregister goid st} _ _.
