(* ===== verification/SchedulerLetters.v ===== *)
(** * Every message is accounted for

    Refused messages and dead letters: what a Push refuses is reported by its
    sender, what the cleanup of stop pops is reported by the drainer, and
    nothing else is. *)

From S2P Require Import Prelude.
From S2P Require Import Queue.
From S2P Require Import SafeMap.
From S2P Require Import Registry.
From S2P Require Import ActorId.
From S2P Require Import Messages.
From S2P Require Import Scheduler.
From S2P Require Import SchedulerInv.
From S2P Require Import SchedulerCount.
From S2P Require Import SchedulerFifo.
From S2P Require Import SchedulerOrder.
From S2P Require Import SchedulerLife.
From S2P Require Import SchedulerProto.
From S2P Require Import SchedulerReach.
From S2P Require Import SchedulerEnd.
From S2P Require Import SchedulerWake.
Open Scope Z_scope.

Section letters.
Context {U Q M : Type} {BQ : BoundedQueue Q (Ctx U)} {MI : MapImpl M string nat}.
Variables (self : ActorRef) (me : nat) (hasRegister hasUnregister : bool) (goid : nat → Z).
Implicit Types (s : shared U Q M) (t : thread U) (c : Ctx U) (st : state U Q M).

Local Abbreviation exec := (exec self me hasRegister hasUnregister goid).
Local Abbreviation reachable := (reachable self me hasRegister hasUnregister goid).
Local Abbreviation tstep := (tstep self me hasRegister hasUnregister goid).
Local Abbreviation ph s := (proto_run self hasRegister hasUnregister (history s)).

Local Abbreviation life_ok := (life_ok self hasRegister hasUnregister).
Local Abbreviation life_global := (life_global self hasRegister hasUnregister).
Local Abbreviation life_step := (life_step self hasRegister hasUnregister).
Local Abbreviation first_message := (first_message self).
#[local] Arguments taken : simpl never.
#[local] Arguments proto_run : simpl never.
#[local] Arguments reports : simpl never.
#[local] Arguments toDeadLetter : simpl never.




(** The messages a Push was asked to take, those it refused, those its caller
    gave up, and those dispatched or drained. *)
Definition pushed (h : list (event U)) : list (Ctx U) :=
  omap (λ e, match e with EPush c _ => Some c | _ => None end) h.
Definition refused (h : list (event U)) : list (Ctx U) :=
  omap (λ e, match e with EPush c (PushOverflow | PushClosed) => Some c | _ => None end) h.
Definition rejected (h : list (event U)) : list (Ctx U) :=
  omap (λ e, match e with ERejected c => Some c | _ => None end) h.
Definition dispatched (h : list (event U)) : list (Ctx U) :=
  omap (λ e, match e with EDispatch c => Some c | _ => None end) h.
Definition drained (h : list (event U)) : list (Ctx U) :=
  omap (λ e, match e with EDrained c => Some c | _ => None end) h.
Definition received (h : list (event U)) : list (Ctx U) :=
  omap (λ e, match e with EReceive c => Some c | _ => None end) h.

(** The messages carried by the emitted dead letters. *)
Definition letters (h : list (event U)) : list (Ctx U) :=
  omap (λ e, match e with
             | EReport (RDead dl) => Some (NewContext (dTarget dl) (dSender dl) (dMessage dl) (dMsgSnId dl))
             | _ => None end) h.

(** The refused message its sender still has to give up. *)
Definition pending (t : thread U) : list (Ctx U) :=
  match tpc t with PReject c _ => [c] | _ => [] end.

Definition letter_step s s' t t' (new : list (thread U)) : Prop :=
  Forall (λ t, pending t = []) new ∧
  ∃ d, history s' = history s ++ d ∧
    pending t ++ refused d = rejected d ++ pending t' ∧
    letters d = rejected d ++ drained d ∧ (rejected d = [] ∨ drained d = []) ∧
    received d `sublist_of` dispatched d.

Lemma letter_step_intro s s' t t' new d :
  Forall (λ t, pending t = []) new → history s' = history s ++ d →
  pending t ++ refused d = rejected d ++ pending t' →
  letters d = rejected d ++ drained d → (rejected d = [] ∨ drained d = []) →
  received d `sublist_of` dispatched d → letter_step s s' t t' new.
Proof. intros. split_and!; eauto. exists d. auto 10. Qed.

Lemma reports_facts c reason :
  refused (reports (toDeadLetter self c reason)) = [] ∧
  rejected (reports (toDeadLetter self c reason)) = [] ∧
  drained (reports (toDeadLetter self c reason)) = [] ∧
  dispatched (reports (toDeadLetter self c reason)) = [] ∧
  received (reports (toDeadLetter self c reason)) = [] ∧
  letters (reports (toDeadLetter self c reason)) = [c].
Proof.
  unfold toDeadLetter, fail_asker. destruct c as [tg [sd|] m sn]; simpl; [|done].
  destruct (isAsk sd); done.
Qed.

#[local] Arguments toDeadLetter : simpl never.
#[local] Arguments reports : simpl never.

Ltac letter_done :=
  first [apply (letter_step_intro _ _ _ _ _ []); [repeat constructor|by rewrite app_nil_r|..]
        |eapply letter_step_intro; [repeat constructor|simpl; rewrite <-?app_assoc; reflexivity|..]];
  unfold after_invoke; simpl; try (repeat case_match; done); 
    try (by left); try (by right); try apply sublist_nil_l; try reflexivity.

Lemma tstep_letters kof i s t ch s' t' new :
  tstep kof i s t ch = Some (s', t', new) → local_ok t → kof i = callKind_ t →
  letter_step s s' t t' new.
Proof.
  intros H Hl Hk. destruct (decide (ch = CAsk)) as [->|Hne].
  { destruct (tstep_ask H Hl Hk) as [(-> & -> & ->)|(-> & Hp & Hs)].
    - destruct t as [p tr ck ex]. destruct p; simpl in H; try discriminate H; letter_done.
    - destruct t as [p [] k ex]; simpl in Hp; subst p; unfold suspend in Hs; simpl in Hs;
        injection Hs as -> ->; letter_done. }
  destruct t as [p tr ck ex].
  destruct s, tr; pc_cases p ch H; step_cases H; destruct Hl as (Hl1 & Hl2 & Hl3); simpl in *; try done.
  all: try (letter_done; fail).
  all: match goal with |- context [reports (toDeadLetter _ ?c ?r)] =>
    destruct (reports_facts c r) as (R1 & R2 & R3 & R4 & R5 & R6) end.
  all: eapply letter_step_intro; [repeat constructor|reflexivity|..].
  all: match goal with |- context [?e :: reports ?l] => change (e :: reports l) with ([e] ++ reports l) end.
  all: unfold refused, rejected, drained, dispatched, received, letters in *;
    rewrite ?omap_app, ?R1, ?R2, ?R3, ?R4, ?R5, ?R6; simpl; try done; auto.
Qed.

(** ** In every reachable state *)

Record inv_letters st : Prop := {
  in_refused : refused (history (sh st)) ≡ₚ
    rejected (history (sh st)) ++ concat (pending <$> threads st);
  in_letters : letters (history (sh st)) ≡ₚ
    rejected (history (sh st)) ++ drained (history (sh st));
  in_received : received (history (sh st)) `sublist_of` dispatched (history (sh st))
}.

Lemma concat_insert_perm (ths : list (thread U)) i t t' :
  ths !! i = Some t →
  pending t ++ concat (pending <$> <[i := t']> ths) ≡ₚ pending t' ++ concat (pending <$> ths).
Proof.
  revert i. induction ths as [|u ths IH]; intros i Hi; [done|]. destruct i as [|i]; simpl in *.
  - simplify_eq. rewrite !app_assoc, (Permutation_app_comm (pending t)). done.
  - specialize (IH i Hi). rewrite !app_assoc, (Permutation_app_comm (pending t)),
      (Permutation_app_comm (pending t')), <-!app_assoc. by rewrite IH.
Qed.

Lemma perm_step {A} (R C C' rf rj p p' : list A) :
  p ++ rf = rj ++ p' → p ++ C' ≡ₚ p' ++ C → (R ++ C) ++ rf ≡ₚ (R ++ rj) ++ C'.
Proof.
  intros H1 H2. apply (Permutation_app_inv_l p).
  rewrite (Permutation_app_swap_app p (R ++ C)), (Permutation_app_swap_app p (R ++ rj)), H1, H2.
  rewrite <-!app_assoc. apply Permutation_app_head. rewrite (Permutation_app_comm C). by rewrite <-app_assoc.
Qed.

Lemma concat_pending_nil (new : list (thread U)) :
  Forall (λ t, pending t = []) new → concat (pending <$> new) = [].
Proof. induction 1 as [|t new Ht _ IH]; [done|]. rewrite fmap_cons. cbn. by rewrite Ht, IH. Qed.

Lemma exec_inv_letters l st st' :
  inv_count st → inv_letters st → exec l st = Some st' → inv_letters st'.
Proof.
  intros HC [N1 N2 N3] E. destruct (label_cases l) as [(i & ch & ->)|Hl].
  - destruct (exec_step_inv E) as (t & t' & new & Hi & Ht & Hths & Hk).
    destruct (tstep_letters _ _ _ _ _ _ _ _ Ht (ic_local _ HC i t Hi) Hk)
      as (L1 & d & Hd & L2 & L3 & L4 & L5).
    constructor; rewrite Hd; unfold refused, rejected, drained, dispatched, received, letters in *;
      rewrite !omap_app.
    + rewrite Hths, fmap_app, concat_app, (concat_pending_nil new L1), app_nil_r, N1.
      exact (perm_step _ _ _ _ _ _ _ L2 (concat_insert_perm (threads st) i t t' Hi)).
    + rewrite N2, L3, <-!app_assoc. apply Permutation_app_head. rewrite !app_assoc.
      apply Permutation_app_tail, Permutation_app_comm.
    + by apply sublist_app.
  - destruct HC as [_ _ _ _], (exec_env_inv E Hl) as [(p & Hs & Hths & Hp)|(Hths & r & Hs & _)].
    + constructor; rewrite Hs; [|done..]. rewrite N1, Hths, fmap_app, concat_app.
      by destruct Hp as [[c ->]| ->]; rewrite app_nil_r.
    + destruct (set_registry_fields r (sh st)) as (_ & _ & _ & _ & _ & _ & _ & _ & _ & F).
      constructor; by rewrite Hs, F, ?Hths.
Qed.

Lemma reachable_inv_letters st : reachable st → inv_letters st.
Proof.
  induction 1 as [q0 r0 snId st Hf _ _ E|st l st' Hr IH E].
  - destruct (initial_spec Hf E) as (q & n & _ & _ & _ & ->). by constructor.
  - eapply exec_inv_letters; [by eapply reachable_inv_count|done..].
Qed.

Lemma pushed_split (h : list (event U)) : pushed h ≡ₚ accepted h ++ refused h.
Proof.
  unfold pushed, accepted, refused. induction h as [|e h IH]; [done|].
  destruct e as [c []| | | | | | | | | | | |]; csimpl; rewrite IH; try done;
    by rewrite Permutation_middle.
Qed.

Lemma taken_split (h : list (event U)) : taken h ≡ₚ dispatched h ++ drained h.
Proof.
  unfold taken, dispatched, drained. induction h as [|e h IH]; [done|].
  destruct e; csimpl; rewrite IH; try done. by rewrite Permutation_middle.
Qed.

Lemma dispatched_taken (h : list (event U)) : dispatched h `sublist_of` taken h.
Proof.
  unfold taken, dispatched. induction h as [|e h IH]; [done|].
  destruct e; csimpl; try done; by constructor.
Qed.
End letters.
Arguments reachable_inv_letters {U Q M BQ MI self me hasRegister hasUnregister goid st} _.
