(* ===== verification/SchedulerThms.v ===== *)
(** * What the scheduler guarantees

    The properties of one actor's mailbox, scheduler, gate and lifecycle, for
    every interleaving of drainers, senders and poisoners, over any mailbox
    that keeps the [BoundedQueue] contract and any registry map that keeps
    [MapImpl].  The last part runs the machine with the ring buffer and the
    sharded map. *)

From S2P Require Import Prelude.
From S2P Require Import Queue.
From S2P Require Import SafeMap.
From S2P Require Import Registry.
From S2P Require Import ActorId.
From S2P Require Import Messages.
From S2P Require Import Scheduler.
From S2P Require Import SchedulerInv.
From S2P Require Import SchedulerCount.
From S2P Require Import SchedulerFifo.
From S2P Require Import SchedulerOrder.
From S2P Require Import SchedulerLife.
From S2P Require Import SchedulerProto.
From S2P Require Import SchedulerReach.
From S2P Require Import SchedulerEnd.
From S2P Require Import SchedulerWake.
From S2P Require Import SchedulerLetters.
From S2P Require Import SchedulerGate.
From S2P Require Import SchedulerSafety.
From S2P Require Import RingBuffer.
From S2P Require Import ErrCode.
Open Scope Z_scope.

Section theorems.
Context {U Q M : Type} {BQ : BoundedQueue Q (Ctx U)} {MI : MapImpl M string nat}.
Variables (self : ActorRef) (me : nat) (hasRegister hasUnregister : bool) (goid : nat → Z).
Implicit Types (s : shared U Q M) (t : thread U) (c : Ctx U) (st : state U Q M).

Local Abbreviation exec := (exec self me hasRegister hasUnregister goid).
Local Abbreviation reachable := (reachable self me hasRegister hasUnregister goid).
Local Abbreviation tstep := (tstep self me hasRegister hasUnregister goid).
Local Abbreviation ph s := (proto_run self hasRegister hasUnregister (history s)).

Local Abbreviation life_ok := (life_ok self hasRegister hasUnregister).
Local Abbreviation life_global := (life_global self hasRegister hasUnregister).
Local Abbreviation life_step := (life_step self hasRegister hasUnregister).
Local Abbreviation first_message := (first_message self).
Local Abbreviation sound := (sound self me hasRegister hasUnregister goid).
Local Abbreviation reachable_sound := (reachable_sound self me hasRegister hasUnregister goid).
#[local] Arguments taken : simpl never.
#[local] Arguments proto_run : simpl never.
#[local] Arguments reports : simpl never.
#[local] Arguments toDeadLetter : simpl never.





(** ** Progress *)

Lemma tstep_progress kof i s t :
  tpc t ≠ PDone → (∀ k, tpc t = PEnter k → executionPermit s = true) →
  (holds (tpc t) = true → executionPermit s = false) → q_wf (mailbox s) →
  ∃ ch r, ch ≠ CAsk ∧ tstep kof i s t ch = Some r.
Proof.
  intros Hd He Hh W. destruct (tpc t) as [] eqn:Hp; try done.
  all: try (exists CStep; unfold_step_goal; rewrite Hp; cbn; by (eexists; split)).
  all: try (exists CReturn; unfold_step_goal; rewrite Hp; cbn; by (eexists; split)).
  all: exists CStep; unfold_step_goal; rewrite Hp; cbn.
  all: try (destruct (q_pop_law (mailbox s) W) as (q & -> & _);
    destruct (spec_pop (q_abs (mailbox s))) as [[]]; by (eexists; split)).
  all: try (destruct (q_push_law (mailbox s) c W) as (q & -> & _);
    destruct (spec_push c (q_abs (mailbox s))) as [[]]; by (eexists; split)).
  all: try (rewrite (He _ eq_refl); by (eexists; split)).
  all: try (rewrite Hh by done; by (eexists; split)).
  all: repeat case_match; by (eexists; split).
Qed.

(** ** What the protocol means *)

Definition phase_facts (p : phase) (h : list (event U)) : Prop :=
  match p with
  | PhNew | PhActivated | PhRegistering => (EStarted ∉ h) ∧ (EStartedOk ∉ h) ∧ (EPreStop ∉ h) ∧ (EClosed ∉ h)
  | PhBooting _ => (EStartedOk ∉ h) ∧ (EPreStop ∉ h) ∧ (EClosed ∉ h)
  | PhLive _ => (EStartedOk ∈ h) ∧ (EPreStop ∉ h) ∧ (EClosed ∉ h)
  | PhClosing _ => (EStartedOk ∈ h) ∧ (EPreStop ∉ h)
  | _ => True
  end.

Lemma proto_facts (h : list (event U)) p : proto_run self hasRegister hasUnregister h = Some p → phase_facts p h.
Proof.
  revert p. induction h as [|e h IH] using rev_ind; intros p H.
  - unfold proto_run in H. simpl in H. simplify_eq. simpl. set_solver.
  - rewrite proto_run_app in H. simpl in H.
    destruct (proto_run self hasRegister hasUnregister h) as [p0|]; [|done].
    specialize (IH p0 eq_refl). simpl in H.
    destruct e, p0; simpl in *; repeat case_match; simplify_eq/=; try done; set_solver.
Qed.

Lemma proto_prefix (h1 h2 : list (event U)) e :
  is_Some (proto_run self hasRegister hasUnregister (h1 ++ e :: h2)) →
  ∃ p p', proto_run self hasRegister hasUnregister h1 = Some p ∧
    proto self hasRegister hasUnregister p e = Some p'.
Proof.
  rewrite proto_run_app. simpl. destruct (proto_run _ _ _ h1) as [p|]; simpl; intros [x Hx].
  - exists p. destruct (proto self hasRegister hasUnregister p e) as [p'|]; [by exists p'|].
    exfalso. clear -Hx. induction h2; simpl in *; [done|]. auto.
  - exfalso. clear -Hx. induction h2; simpl in *; [done|]. auto.
Qed.

(** ** Helpers *)

Lemma concat_fmap_nil {A B} (f : A → list B) (l : list A) :
  (∀ i a, l !! i = Some a → f a = []) → concat (f <$> l) = [].
Proof.
  induction l as [|a l IH]; intros H; [done|]. rewrite fmap_cons. cbn.
  rewrite (H 0%nat a), IH; [done| |done]. intros i. apply (H (S i)).
Qed.

Lemma concat_inhand_nil (l : list (thread U)) :
  (∀ i t, l !! i = Some t → t_inhand t = []) → concat (t_inhand <$> l) = [].
Proof. apply concat_fmap_nil. Qed.

Lemma inhand_one st :
  inv_count st → (length (concat (t_inhand <$> threads st)) ≤ 1)%nat.
Proof.
  intros HC. destruct (decide (0 < count owns (threads st))) as [Hp|Hp].
  - destruct (count_pos_elem _ _ Hp) as (i & t & Hi & Ho).
    rewrite (concat_inhand st i t HC Hi Ho). unfold t_inhand.
    destruct (tpc t); simpl; try lia; by repeat case_match; simpl; lia.
  - rewrite concat_inhand_nil; [simpl; lia|]. intros i t Hi.
    destruct (decide (t_inhand t = [])) as [|Hn]; [done|].
    pose proof (inhand_owns t (ic_local _ HC i t Hi) Hn) as Ho.
    pose proof (count_elem_pos owns _ i t Hi Ho). lia.
Qed.

Lemma closed_refuses (q : Q) c : q_wf q → qs_closed (q_abs q) = true →
  ∃ q', q_push q c = Ok (PushClosed, q').
Proof.
  intros W C. destruct (q_push_law q c W) as (q' & E & _). exists q'.
  unfold spec_push in E. by rewrite C in E.
Qed.

(** [C6] User code of an actor is serialised.  In every reachable state at most
    one goroutine runs Started, Receive, PreStop or a registration function of
    the processor (suspended Asks excluded); it holds the execution permit, and
    no other goroutine holds it. *)
Theorem actor_serialised (st : state U Q M) (i : nat) (t : thread U)
    (Hr : reachable st) (Hi : threads st !! i = Some t) (Ht : in_user_code (tpc t) = true) :
  executionPermit (sh st) = false ∧
  (∀ j u, threads st !! j = Some u → holds (tpc u) = true → j = i) ∧
  (∀ j u, threads st !! j = Some u → in_user_code (tpc u) = true → j = i).
Proof.
  pose proof (reachable_inv_count Hr) as HC.
  assert (∀ p : pc U, in_user_code p = true → holds p = true) as Huh.
  { intros p Hp. by apply published_holds, in_user_code_published. }
  split_and!.
  - apply holder_permit with i t; auto.
  - intros j u Hj Hu. apply (holds_unique st j i u t); auto.
  - intros j u Hj Hu. apply (holds_unique st j i u t); auto.
Qed.

(** [C15] Ask is admitted exactly where the documentation says.  In every
    reachable state, with [kind_of] the callKinds of its goroutines: the
    goroutine running Receive passes the check and gets its own execution back;
    one running Started or PreStop is refused with [errAskNotRunning]; a
    goroutine id that is not the current owner's (a child goroutine, another
    actor's handler) is refused with [errAskInvalidContext]. *)
Theorem ask_admission (st : state U Q M) (Hr : reachable st)
    (goid_nonzero : ∀ i, goid i ≠ 0) :
  let check := Ask_check (kind_of (threads st)) (sh st) in
  (∀ i t, threads st !! i = Some t → tpc t = PReceive → check (goid i) = inr i) ∧
  (∀ i t, threads st !! i = Some t →
     tpc t = PStarted ∨ (∃ k, tpc t = PPreStop k) → check (goid i) = inl errAskNotRunning) ∧
  (∀ g, (∀ i t, threads st !! i = Some t → holds (tpc t) = true → goid i ≠ g) →
     check g = inl errAskInvalidContext).
Proof.
  intros check. pose proof (reachable_inv_count Hr) as HC.
  assert (∀ i t, threads st !! i = Some t → published (tpc t) = true →
    check (goid i) = if decide (callKind_ t ≠ callReceive) then inl errAskNotRunning else inr i) as Hpub.
  { intros i t Hi Hp. unfold check, Ask_check, kind_of.
    rewrite (proj2 (currentExecution_spec goid_nonzero st (goid i) i Hr)) by eauto. by rewrite Hi. }
  split_and!.
  - intros i t Hi Hp. rewrite (Hpub i t) by (rewrite ?Hp; done).
    destruct (ic_local _ HC i t Hi) as [Hk _]. rewrite Hp in Hk. by rewrite decide_False by auto.
  - intros i t Hi Hp. rewrite (Hpub i t) by (first [exact Hi|destruct Hp as [->|[k ->]]; done]).
    destruct (ic_local _ HC i t Hi) as [Hk _].
    rewrite decide_True; [done|]. destruct Hp as [Hp|[k Hp]]; rewrite Hp in Hk; [congruence|].
    destruct k; [congruence..|done].
  - intros g Hg. unfold check, Ask_check.
    destruct (currentExecution (sh st) g) as [call|] eqn:E; [|done].
    apply (currentExecution_spec goid_nonzero st g call Hr) in E as (<- & t & Hi & Ht).
    exfalso. by eapply Hg, eq_refl; [|apply published_holds].
Qed.

(** The accounts balance.  [unfinishedCalls] is, in int32 arithmetic, the
    number of calls under way, suspended ones included; the drain status is
    idle when nobody drains and running when exactly one goroutine does; and at
    no time do two goroutines drain the mailbox. *)
Theorem drain_accounting (st : state U Q M) (Hr : reachable st) :
  unfinishedCalls (sh st) = i32 (count t_in_call (threads st)) ∧
  (drainStatus (sh st) = drainIdle → ∀ i t, threads st !! i = Some t → owns t = false) ∧
  (drainStatus (sh st) = drainRunning → ∃ i t, threads st !! i = Some t ∧ owns t = true) ∧
  (∀ i j ti tj, threads st !! i = Some ti → threads st !! j = Some tj →
     owns ti = true → owns tj = true → i = j).
Proof.
  pose proof (reachable_inv_count Hr) as HC. split_and!.
  - apply HC.
  - intros Hs i t Hi. destruct (owns t) eqn:Ho; [|done].
    by destruct (owner_busy st i t HC Hi Ho).
  - intros Hs. pose proof (ic_owner _ HC) as H. rewrite Hs in H. apply count_pos_elem. lia.
  - intros i j ti tj Hi Hj. by apply (owns_unique st i j).
Qed.

(** [C14] Messages are conserved and handled in order.  At every moment the
    sequence of accepted messages is the sequence dispatched (or drained by
    stop), then the at most one message in the drainer's hand, then the
    mailbox; what Receive has seen is a subsequence of what was accepted; and
    the mailbox is well-formed, so neither Push nor Pop can panic. *)
Theorem fifo_conservation (st : state U Q M) (Hr : reachable st) :
  accepted (history (sh st))
    = taken (history (sh st)) ++ concat (t_inhand <$> threads st) ++ items (sh st) ∧
  (length (concat (t_inhand <$> threads st)) ≤ 1)%nat ∧
  received (history (sh st)) `sublist_of` accepted (history (sh st)) ∧
  (∀ c, q_push (mailbox (sh st)) c ≠ Panic ∧ q_pop (mailbox (sh st)) ≠ Panic).
Proof.
  pose proof (reachable_inv_count Hr) as HC. destruct (reachable_inv_fifo Hr) as [F1 F2].
  split_and!; [done|by apply inhand_one| |intros c; by apply q_never_panics].
  rewrite F2. etrans; [apply (in_received _ (reachable_inv_letters Hr))|].
  etrans; [apply dispatched_taken|]. apply sublist_inserts_r. reflexivity.
Qed.

(** [C7] The lifecycle protocol.  Whatever the interleaving and whatever user
    code does (errors, panics, Goexit), the history of an actor is a run of the
    automaton [proto]: Initialize first, registration before Started, Started
    at most once, Receive only between the return of Started and the closing of
    the mailbox, PreStop at most once and only after Started returned, the
    cluster registration given back (if held) before the removal from the
    registry, and dead-lettering of what is left only after it. *)
Theorem lifecycle_protocol (st : state U Q M) (Hr : reachable st) (Hb : bounded st) :
  let h := history (sh st) in
  is_Some (proto_run self hasRegister hasUnregister h) ∧
  (∀ h1 h2 c, h = h1 ++ EReceive c :: h2 → (EStartedOk ∈ h1) ∧ (EClosed ∉ h1)) ∧
  (∀ h1 h2, h = h1 ++ EStarted :: h2 → (EStarted ∉ h1)) ∧
  (∀ h1 h2, h = h1 ++ EPreStop :: h2 → (EStartedOk ∈ h1) ∧ (EPreStop ∉ h1)).
Proof.
  intros h. pose proof (lg_proto _ _ _ _ (il_global _ _ _ _ (reachable_inv_life Hr Hb))) as HP.
  fold h in HP. split_and!; [done|..].
  all: intros h1 h2; intros; subst h;
    match goal with E : history _ = _ |- _ => rewrite E in HP end;
    apply proto_prefix in HP as (p & p' & H1 & H2); apply proto_facts in H1;
    destruct p; simpl in *; repeat case_match; simplify_eq/=; try done; set_solver.
Qed.

(** ** Nothing is left undone *)

(** Every goroutine is finished or waits for the reply of an Ask. *)
Definition quiescent st : Prop :=
  ∀ i t, threads st !! i = Some t → tpc t = PDone ∨ tpc t = PAwait.

Lemma quiescent_no (f : thread U → bool) st :
  quiescent st → (∀ t, tpc t = PDone ∨ tpc t = PAwait → f t = false) →
  ¬ ∃ i t, threads st !! i = Some t ∧ f t = true.
Proof. intros Hq Hf (i & t & Hi & Ht). rewrite Hf in Ht; [done|eauto]. Qed.

Lemma quiescent_owns st i t :
  inv_count st → quiescent st → threads st !! i = Some t → owns t = false.
Proof.
  intros HC Hq Hi. destruct (ic_local _ HC i t Hi) as (_ & _ & Hl).
  unfold owns. destruct (Hq i t Hi) as [Hp|Hp]; rewrite Hp in *; simpl in *; [by rewrite andb_false_r|].
  by rewrite Hl.
Qed.

Lemma quiescent_status st :
  inv_count st → quiescent st → drainStatus (sh st) ≠ drainRunning.
Proof.
  intros HC Hq Hs. pose proof (ic_owner _ HC) as H. rewrite Hs in H.
  destruct (count_pos_elem owns (threads st)) as (i & t & Hi & Ho); [lia|].
  by rewrite (quiescent_owns st i t HC Hq Hi) in Ho.
Qed.

Lemma quiescent_items st :
  sound st → quiescent st → items (sh st) = [].
Proof.
  intros Hso Hq. pose proof (so_reach _ _ _ _ _ _ Hso) as Hr. pose proof (reachable_inv_count Hr) as HC.
  destruct (decide (items (sh st) = [])) as [|Hne]; [done|exfalso].
  destruct (drainStatus (sh st)) eqn:Hs.
  - eapply (quiescent_no (λ t, wake_mail (tpc t))); [exact Hq|by intros t [-> | ->]|].
    by apply (iw_mail _ (so_wake _ _ _ _ _ _ Hso)).
  - by apply (quiescent_status st HC Hq).
  - pose proof (so_life _ _ _ _ _ _ Hso) as HL. pose proof (so_end _ _ _ _ _ _ Hso) as HE.
    apply (lg_status _ _ _ _ (il_global _ _ _ _ HL)) in Hs.
    destruct (ie_stopped _ _ _ _ _ HE Hs) as [P|Hw].
    + destruct (ie_drained _ _ _ _ _ HE P) as [|Hw]; [done|].
      eapply (quiescent_no (λ t, draining (tpc t))); [exact Hq|by intros t [-> | ->]|exact Hw].
    + eapply (quiescent_no (λ t, removing (tpc t))); [exact Hq|by intros t [-> | ->]|exact Hw].
Qed.

(** What a quiescent machine has done with a stop request ... *)
Lemma quiescent_stopped st : sound st → quiescent st →
  stopRequested (sh st) = true → (∀ i t, threads st !! i = Some t → tpc t = PDone) →
  lifecycleState (sh st) = actorStopped ∧
  (∀ c, ∃ q, q_push (mailbox (sh st)) c = Ok (PushClosed, q)) ∧
  lookup_proc (registry (sh st)) (GetId self) ≠ Some me.
Proof.
  intros Hso Hq Hst Hdone. pose proof (so_reach _ _ _ _ _ _ Hso) as Hr. pose proof (reachable_inv_count Hr) as HC.
  pose proof (reachable_inv_fifo Hr) as HF. pose proof (quiescent_items st Hso Hq) as Hit.
  pose proof (so_life _ _ _ _ _ _ Hso) as HL. pose proof (so_end _ _ _ _ _ _ Hso) as HE.
  assert (drainStatus (sh st) = drainStopped) as Hs.
  { destruct (drainStatus (sh st)) eqn:Hs; [|by destruct (quiescent_status st HC Hq)|done]. exfalso.
    eapply (quiescent_no (λ t, wake_stop (tpc t))); [exact Hq|by intros t [-> | ->]|].
    apply (iw_stop _ (so_wake _ _ _ _ _ _ Hso)); [done..|]. apply sum_of_zero.
    intros t (i & Hi)%list_elem_of_lookup. unfold t_in_call. by rewrite (Hdone i t Hi). }
  apply (lg_status _ _ _ _ (il_global _ _ _ _ HL)) in Hs as HS. split_and!; [done| |].
  - intros c. by apply closed_refuses, gone_closed with self hasRegister hasUnregister; [apply HF|apply HL|].
  - rewrite lookup_proc_abs by apply HE. apply HE.
    destruct (ie_stopped _ _ _ _ _ HE HS) as [|Hw]; [done|exfalso].
    eapply (quiescent_no (λ t, removing (tpc t))); [exact Hq|by intros t [-> | ->]|exact Hw].
Qed.

(** ... and with the messages. *)
Lemma quiescent_handled st : sound st → quiescent st →
  pushed (history (sh st)) ≡ₚ dispatched (history (sh st)) ++ letters (history (sh st)).
Proof.
  intros Hso Hq. pose proof (so_reach _ _ _ _ _ _ Hso) as Hr.
  pose proof (reachable_inv_fifo Hr) as HF. pose proof (reachable_inv_letters Hr) as HN.
  rewrite pushed_split, (if_order _ HF), (quiescent_items st Hso Hq), app_nil_r.
  rewrite (in_refused _ HN), (in_letters _ HN), taken_split.
  assert (concat (t_inhand <$> threads st) = []) as ->.
  { apply concat_inhand_nil. intros i t Hi. unfold t_inhand. by destruct (Hq i t Hi) as [-> | ->]. }
  assert (concat (pending <$> threads st) = []) as ->.
  { apply concat_fmap_nil. intros i t Hi. unfold pending. by destruct (Hq i t Hi) as [-> | ->]. }
  rewrite !app_nil_r, <-app_assoc. apply Permutation_app_head, Permutation_app_comm.
Qed.

(** [C4] No wakeup is lost.  When nothing can move any more but the suspended
    Asks, the mailbox is empty and everything accepted has been dispatched or
    drained; if moreover a stop was requested and no Ask is suspended, the actor
    has stopped, its mailbox refuses messages and it is out of the registry. *)
Theorem no_lost_wakeup (st : state U Q M) (Hr : reachable st) (Hb : bounded st) (Hq : quiescent st) :
  items (sh st) = [] ∧
  accepted (history (sh st)) = taken (history (sh st)) ∧
  (stopRequested (sh st) = true → (∀ i t, threads st !! i = Some t → tpc t = PDone) →
   lifecycleState (sh st) = actorStopped ∧
   (∀ c, ∃ q, q_push (mailbox (sh st)) c = Ok (PushClosed, q)) ∧
   lookup_proc (registry (sh st)) (GetId self) ≠ Some me).
Proof.
  pose proof (reachable_inv_fifo Hr) as HF. pose proof (reachable_sound st Hr Hb) as Hso.
  pose proof (quiescent_items st Hso Hq) as Hit. split_and!; [done| |by apply quiescent_stopped].
  rewrite (if_order _ HF), Hit, app_nil_r.
  assert (concat (t_inhand <$> threads st) = []) as ->; [|by rewrite app_nil_r].
  apply concat_inhand_nil. intros i t Hi. unfold t_inhand. by destruct (Hq i t Hi) as [-> | ->].
Qed.

(** [C5] No message disappears.  Once the machine is quiescent, every message
    that was ever handed to the mailbox, accepted or not, has been either
    dispatched to the actor or reported in exactly one dead letter that carries
    its target, sender, message and id. *)
Theorem nothing_lost (st : state U Q M) (Hr : reachable st) (Hb : bounded st) (Hq : quiescent st) :
  pushed (history (sh st)) ≡ₚ dispatched (history (sh st)) ++ letters (history (sh st)).
Proof. apply quiescent_handled; [by apply reachable_sound|done]. Qed.

(** The machine cannot deadlock.  Every unfinished goroutine can take its
    next step, except one waiting for the execution permit; and then another
    goroutine holds the permit and can step. *)
Theorem gate_progress (st : state U Q M) (i : nat) (t : thread U)
    (Hr : reachable st) (Hi : threads st !! i = Some t) (Ht : tpc t ≠ PDone) :
  (∃ ch st', ch ≠ CAsk ∧ exec (LStep i ch) st = Some st') ∨
  ((∃ k, tpc t = PEnter k) ∧
   ∃ j u ch st', j ≠ i ∧ threads st !! j = Some u ∧ holds (tpc u) = true ∧
     ch ≠ CAsk ∧ exec (LStep j ch) st = Some st').
Proof.
  pose proof (reachable_inv_count Hr) as HC. pose proof (if_wf _ (reachable_inv_fifo Hr)) as W.
  assert (∀ j u, threads st !! j = Some u → tpc u ≠ PDone →
    (∀ k, tpc u = PEnter k → executionPermit (sh st) = true) →
    ∃ ch st', ch ≠ CAsk ∧ exec (LStep j ch) st = Some st') as Hgo.
  { intros j u Hj Hu He. destruct (tstep_progress (kind_of (threads st)) j (sh st) u) as (ch & [[s' t'] new] & Hch & E);
      [done..| |done|].
    - intros Hh. by apply (holder_permit st j u).
    - exists ch. destruct st as [s ths]. simpl in *. rewrite Hj, E. by eexists. }
  destruct (decide (executionPermit (sh st) = true)) as [Hp|Hp]; [left; by eapply Hgo|].
  assert (executionPermit (sh st) = false) as Hp' by (by destruct (executionPermit (sh st))).
  destruct (tpc t) eqn:E; try (left; eapply Hgo; [done|congruence|intros k' E'; congruence]).
  right. split; [eauto|]. pose proof (ic_permit _ HC) as H1. rewrite Hp' in H1. simpl in H1.
  destruct (count_pos_elem t_holds (threads st)) as (j & u & Hj & Hu); [lia|].
  unfold t_holds in Hu.
  destruct (Hgo j u Hj) as (ch & st' & Hch & E'); [by intros E'; rewrite E' in Hu|by intros k' E'; rewrite E' in Hu|].
  exists j, u, ch, st'. split_and!; [|done..]. intros ->. simplify_eq. by rewrite E in Hu.
Qed.

(** Stopped is final.  Once the lifecycle says stopped, no user code of
    the actor runs or will run, every further Push is refused, and no step of
    anybody changes the lifecycle again. *)
Theorem stopped_is_final (st : state U Q M) (Hr : reachable st) (Hb : bounded st)
    (Hs : lifecycleState (sh st) = actorStopped) :
  (∀ i t, threads st !! i = Some t → in_user_code (tpc t) = false) ∧
  (∀ c, ∃ q, q_push (mailbox (sh st)) c = Ok (PushClosed, q)) ∧
  (∀ l st', exec l st = Some st' → lifecycleState (sh st') = actorStopped).
Proof.
  pose proof (reachable_inv_count Hr) as HC. pose proof (reachable_inv_fifo Hr) as HF.
  pose proof (reachable_inv_life Hr Hb) as HL. split_and!.
  - intros i t Hi. pose proof (il_threads _ _ _ _ HL i t Hi) as H. unfold life_ok in H.
    rewrite Hs in H. destruct (tpc t); simpl in *; try done; naive_solver.
  - intros c. by apply closed_refuses, gone_closed with self hasRegister hasUnregister; [apply HF|apply HL|].
  - intros l st' E. destruct (label_cases l) as [(i & ch & ->)|Hl].
    + destruct (exec_step_inv E) as (t & t' & new & Hi & Ht & Hths & Hk).
      pose proof (il_threads _ _ _ _ HL i t Hi) as HLt.
      destruct (tstep_lifecycle Ht (ic_local _ HC i t Hi) Hk (if_wf _ HF) HLt) as [->|[[_ H]|Hp]]; [done..|].
      unfold life_ok in HLt. rewrite Hp in HLt. destruct HLt as [HLt _]. congruence.
    + destruct (exec_env_inv E Hl) as [(p & -> & _)|(_ & r & -> & _)]; [done|].
      by destruct (set_registry_fields r (sh st)) as (_ & _ & _ & _ & _ & _ & -> & _).
Qed.
End theorems.

(** ** The machine on the program's own mailbox and registry

    A concrete actor: the ring buffer with ceilings 1 and 2, the sharded map, a
    cluster registration, goroutine ids 1, 2, 3, ... *)
Module Demo.

Definition self : ActorRef := newClusterActorRef "player" "u1" 0 7.
Definition zero_ctx : Ctx nat := NewContext self None (MUser 0%nat) 0.
#[export] Instance demo_queue : BoundedQueue (Ring.RingBuffer (Ctx nat)) (Ctx nat) :=
  Ring.ring_queue zero_ctx.
Definition goid (i : nat) : Z := Z.of_nat i + 1.
Definition demo_state : Type := state nat (Ring.RingBuffer (Ctx nat)) (list (gmap string nat)).

Definition ring0 : Ring.RingBuffer (Ctx nat) :=
  match Ring.New zero_ctx 1 2 with Ok rb => rb | Panic => Ring.MkRing [] 0 0 0 0 0 false end.

Definition start : option demo_state := initial self 5 ring0 newRegistry 100.

Definition demo_exec := exec (M := list (gmap string nat)) (Q := Ring.RingBuffer (Ctx nat)) self 5 true true goid.
Definition demo_run := run (M := list (gmap string nat)) (Q := Ring.RingBuffer (Ctx nat)) self 5 true true goid.
Definition demo_reachable := reachable (M := list (gmap string nat)) (Q := Ring.RingBuffer (Ctx nat)) self 5 true true goid.

Definition steps (i n : nat) : list (label nat) := replicate n (LStep i CStep).
Definition msg (n : nat) : Ctx nat := NewContext self None (MUser n) (Z.of_nat n).

(** Boot: the spawner schedules, the drainer registers and starts the actor. *)
Definition boot : list (label nat) :=
  steps 0 1 ++ steps 1 7 ++ [LStep 1 CReturn; LStep 1 CReturn] ++ steps 1 4.

(** Two messages; the first handler suspends in an Ask, a successor takes the
    second; then poison, the reply, and the stop. *)
Definition serve : list (label nat) :=
  [LSend (msg 1)] ++ steps 2 2 ++ [LSend (msg 2)] ++ steps 3 2 ++ steps 1 7.
Definition suspend_ : list (label nat) := [LStep 1 CAsk] ++ steps 1 3.
Definition successor : list (label nat) := steps 4 7.
Definition finish : list (label nat) :=
  [LStep 4 CPanic] ++ steps 4 7 ++
  [LPoison] ++ steps 5 2 ++ [LStep 1 CReturn] ++ steps 1 3 ++ [LStep 1 CReturn] ++ steps 1 5.

Definition stop_ : list (label nat) :=
  steps 1 2 ++ steps 4 5 ++ steps 6 11 ++ [LSend (msg 3); LStep 6 CReturn] ++ steps 6 8 ++ steps 7 2.

Definition at_ (ls : list (label nat)) : option demo_state :=
  match start with Some st => demo_run ls st | None => None end.

Lemma ring0_fresh : fresh_mailbox ring0.
Proof.
  destruct (Ring.New_spec zero_ctx 1 2) as (rb & E & W & C & L & _ & MX); [lia..|].
  unfold ring0. rewrite E. split; [exact W|]. exists 2. split; [lia|].
  simpl. unfold Ring.abs. by rewrite C, L, MX.
Qed.

Lemma at_reachable ls st : at_ ls = Some st → demo_reachable st.
Proof.
  unfold at_. destruct start as [st0|] eqn:E; [|done]. intros H.
  eapply run_reachable; [|exact H].
  apply (reach_init self 5 true true goid ring0 newRegistry 100 st0 ring0_fresh registry_wf);
    [vm_compute; reflexivity|exact E].
Qed.

(** Reading a computed state: the pcs of its goroutines. *)
Definition pcs (ls : list (label nat)) : option (list (pc nat)) :=
  match at_ ls with Some st => Some (tpc <$> threads st) | None => None end.

Lemma pcs_at ls l : pcs ls = Some l →
  ∃ st, at_ ls = Some st ∧ demo_reachable st ∧ tpc <$> threads st = l.
Proof.
  unfold pcs. destruct (at_ ls) as [st|] eqn:E; [|done]. intros [= <-].
  exists st. split_and!; [done|by eapply at_reachable|done].
Qed.

Lemma thread_at (st : demo_state) l i p : tpc <$> threads st = l → l !! i = Some p →
  ∃ t, threads st !! i = Some t ∧ tpc t = p.
Proof.
  intros <- H. rewrite list_lookup_fmap in H. destruct (threads st !! i) as [t|]; [|done].
  simplify_eq/=. eauto.
Qed.

Lemma bounded_at (st : demo_state) l : tpc <$> threads st = l → Z.of_nat (length l) < 2 ^ 31 → bounded st.
Proof. intros <-. unfold bounded. by rewrite length_fmap. Qed.

Lemma all_done (st : demo_state) n : tpc <$> threads st = replicate n PDone →
  ∀ i t, threads st !! i = Some t → tpc t = PDone.
Proof.
  intros E i t Hi. assert ((tpc <$> threads st) !! i = Some (tpc t)) as H
    by (by rewrite list_lookup_fmap, Hi).
  rewrite E in H. by apply lookup_replicate in H as [-> _].
Qed.

Definition everything : list (label nat) := boot ++ serve ++ suspend_ ++ successor ++ finish ++ stop_.

Lemma pcs_serving : pcs (boot ++ serve) = Some [PDone; PReceive; PDone; PDone].
Proof. vm_compute. reflexivity. Qed.
Lemma pcs_handed_over : pcs (boot ++ serve ++ suspend_ ++ steps 4 4)
  = Some [PDone; PAwait; PDone; PDone; PEnterCall (KInvoke (msg 2))].
Proof. vm_compute. reflexivity. Qed.
Lemma pcs_everything : pcs everything = Some (replicate 8 PDone).
Proof. vm_compute. reflexivity. Qed.
End Demo.

Import Demo.

Lemma actor_serialised_witness : ∃ st : demo_state, at_ (boot ++ serve) = Some st ∧
  executionPermit (sh st) = false ∧
  ∀ j u, threads st !! j = Some u → in_user_code (tpc u) = true → j = 1%nat.
Proof.
  destruct (pcs_at _ _ pcs_serving) as (st & E & Hr & Hp).
  destruct (thread_at st _ 1 PReceive Hp eq_refl) as (t & Hi & Ht).
  exists st. split; [exact E|].
  destruct (actor_serialised self 5 true true goid st 1 t Hr Hi) as (H1 & _ & H3);
    [by rewrite Ht|]. split; [exact H1|exact H3].
Defined.

Lemma ask_admission_witness : ∃ st : demo_state, at_ (boot ++ serve) = Some st ∧
  Ask_check (kind_of (threads st)) (sh st) (goid 1) = inr 1%nat.
Proof.
  destruct (pcs_at _ _ pcs_serving) as (st & E & Hr & Hp).
  destruct (thread_at st _ 1 PReceive Hp eq_refl) as (t & Hi & Ht).
  exists st. split; [exact E|].
  assert (∀ i, goid i ≠ 0) as Hg by (intros i; unfold goid; lia).
  destruct (ask_admission self 5 true true goid st Hr Hg) as (H1 & _). by apply (H1 1%nat t).
Defined.

Lemma drain_accounting_witness : ∃ st : demo_state,
  at_ (boot ++ serve ++ suspend_ ++ steps 4 4) = Some st ∧
  unfinishedCalls (sh st) = i32 (count t_in_call (threads st)).
Proof.
  destruct (pcs_at _ _ pcs_handed_over) as (st & E & Hr & Hp).
  exists st. split; [exact E|]. apply (drain_accounting self 5 true true goid st Hr).
Defined.

Lemma fifo_conservation_witness : ∃ st : demo_state,
  at_ (boot ++ serve ++ suspend_ ++ steps 4 4) = Some st ∧
  accepted (history (sh st))
    = taken (history (sh st)) ++ concat (t_inhand <$> threads st) ++ items (sh st).
Proof.
  destruct (pcs_at _ _ pcs_handed_over) as (st & E & Hr & Hp).
  exists st. split; [exact E|]. apply (fifo_conservation self 5 true true goid st Hr).
Defined.

Lemma lifecycle_protocol_witness : ∃ st : demo_state, at_ everything = Some st ∧
  is_Some (proto_run self true true (history (sh st))).
Proof.
  destruct (pcs_at _ _ pcs_everything) as (st & E & Hr & Hp).
  assert (bounded st) as Hb by (apply (bounded_at st _ Hp); done).
  exists st. split; [exact E|]. apply (lifecycle_protocol self 5 true true goid st Hr Hb).
Defined.

Lemma no_lost_wakeup_witness : ∃ st : demo_state, at_ everything = Some st ∧
  items (sh st) = [] ∧ lifecycleState (sh st) = actorStopped ∧
  lookup_proc (registry (sh st)) (GetId self) ≠ Some 5%nat.
Proof.
  destruct (pcs_at _ _ pcs_everything) as (st & E & Hr & Hp).
  assert (bounded st) as Hb by (apply (bounded_at st _ Hp); done).
  assert (quiescent st) as Hq by (intros i t Hi; left; by apply (all_done st 8 Hp i)).
  assert (option_map (λ st : demo_state, stopRequested (sh st)) (at_ everything) = Some true) as Hs
    by (vm_compute; reflexivity).
  rewrite E in Hs. injection Hs as Hs. exists st. split; [exact E|].
  destruct (no_lost_wakeup self 5 true true goid st Hr Hb Hq) as (H1 & _ & H3).
  destruct (H3 Hs (all_done st 8 Hp)) as (H4 & _ & H6). split; [exact H1|]. split; [exact H4|exact H6].
Defined.

Lemma nothing_lost_witness : ∃ st : demo_state, at_ everything = Some st ∧
  pushed (history (sh st)) ≡ₚ dispatched (history (sh st)) ++ letters (history (sh st)).
Proof.
  destruct (pcs_at _ _ pcs_everything) as (st & E & Hr & Hp).
  assert (bounded st) as Hb by (apply (bounded_at st _ Hp); done).
  assert (quiescent st) as Hq by (intros i t Hi; left; by apply (all_done st 8 Hp i)).
  exists st. split; [exact E|]. apply (nothing_lost self 5 true true goid st Hr Hb Hq).
Defined.

Lemma gate_progress_witness : ∃ st : demo_state,
  at_ (boot ++ serve ++ suspend_ ++ steps 4 4) = Some st ∧
  ∃ ch st', ch ≠ CAsk ∧ demo_exec (LStep 4 ch) st = Some st'.
Proof.
  destruct (pcs_at _ _ pcs_handed_over) as (st & E & Hr & Hp).
  destruct (thread_at st _ 4 _ Hp eq_refl) as (t & Hi & Ht).
  exists st. split; [exact E|].
  destruct (gate_progress self 5 true true goid st 4 t Hr Hi) as [H|[[k Hk] _]];
    [by rewrite Ht|exact H|congruence].
Defined.

Lemma stopped_is_final_witness : ∃ st : demo_state, at_ everything = Some st ∧
  lifecycleState (sh st) = actorStopped ∧
  ∀ c, ∃ q, q_push (mailbox (sh st)) c = Ok (PushClosed, q).
Proof.
  destruct (pcs_at _ _ pcs_everything) as (st & E & Hr & Hp).
  assert (bounded st) as Hb by (apply (bounded_at st _ Hp); done).
  assert (option_map (λ st : demo_state, lifecycleState (sh st)) (at_ everything) = Some actorStopped)
    as Hs by (vm_compute; reflexivity).
  rewrite E in Hs. injection Hs as Hs. exists st. split; [exact E|]. split; [exact Hs|].
  apply (stopped_is_final self 5 true true goid st Hr Hb Hs).
Defined.
