(* ===== verification/SchedulerSettle.v ===== *)
(** * The scheduler machine comes to rest

    The other invariants speak of any moment of a run, or of its end; here is
    the proof that it ends.  Left to themselves (nobody sends or poisons any
    more, and the handlers ask at most [n] times) the goroutines of a processor
    take a bounded number of steps, whatever their order, and the only way they
    can stop moving is that all of them have returned. *)

From S2P Require Import Prelude.
From S2P Require Import Queue.
From S2P Require Import SafeMap.
From S2P Require Import Registry.
From S2P Require Import ActorId.
From S2P Require Import Messages.
From S2P Require Import Scheduler.
From S2P Require Import SchedulerInv.
From S2P Require Import SchedulerCount.
From S2P Require Import SchedulerFifo.
From S2P Require Import SchedulerOrder.
From S2P Require Import SchedulerLife.
From S2P Require Import SchedulerReach.
From S2P Require Import SchedulerEnd.
From S2P Require Import SchedulerWake.
From S2P Require Import SchedulerLetters.
From S2P Require Import SchedulerThms.
Open Scope Z_scope.

(** ** The measure *)

(** What a goroutine may still bring about: every live one counts, more if it
    will push a message, end a call or start a drainer. *)
Definition thread_work {U} (p : pc U) : Z :=
  match p with
  | PDone => 0
  | PSend _ => 10
  | PAdd _ => 8
  | PEnter (KInvoke _) | PEnterCall (KInvoke _) | PEnterOwner (KInvoke _) | PDispatch _
  | PPoison SInvoked => 7
  | PSchedule SInvoked => 6
  | PDrained KStopLeft _ => 2
  | PDrained _ _ => 5
  | PEnter KResume | PEnterCall KResume | PEnterOwner KResume
  | PRegister | PStarted | PReceive | PAwait | PSub
  | PStop (KInvoked | KSuspend) | PPreStop (KInvoked | KSuspend) | PUnregister (KInvoked | KSuspend)
  | PStopped (KInvoked | KSuspend) | PRemove (KInvoked | KSuspend) | PDrain (KInvoked | KSuspend)
  | PLeaveOwner (KInvoked | KSuspend) | PLeaveCall (KInvoked | KSuspend)
  | PLeavePermit (KInvoked | KSuspend) => 4
  | PPoison SSub => 4
  | PSubReady | PSchedule SSub => 3
  | PPoison SDone => 2
  | _ => 1
  end.

(** What the drainers branch on: an empty mailbox, no call under way, a
    requested stop, a stopped scheduler. *)
Record flags : Type := Flags { fempty : bool; fzero : bool; fstop : bool; fdead : bool }.

(** How far a goroutine is from its next piece of work, or from its end.  A
    drainer that gives up draining may start another, which counts only when
    there is something left for that one to do. *)
Definition rank {U} (f : flags) (p : pc U) : Z :=
  let again := negb (fdead f) && (negb (fempty f) || fzero f && fstop f) in
  let exit_ := if again then 30 else 0 in
  let tail := if negb (fempty f) && negb (fdead f) then 60 else 0 in
  match p with
  | PFinReadyUnf => if fzero f && negb (fstop f) && negb (fdead f) then 53 else exit_ + 1
  | PFinReady => exit_ + 2 | PFinLen => exit_ + 3 | PFinish => exit_ + 4
  | PLeavePermit KStopLeft => exit_ + 5
  | PLeaveCall KStopLeft => exit_ + 6
  | PLeaveOwner KStopLeft => exit_ + 7
  | PDrain KStopLeft => 38 | PRemove KStopLeft => 39
  | PSchedule SDone => if fdead f then 0 else 22
  | PLoop => 21 | PPop => 20
  | PReady => tail + 19 | PReadyUnf => tail + 18
  | PEnter KStopIfIdle => tail + 17 | PEnterCall KStopIfIdle => tail + 16
  | PEnterOwner KStopIfIdle => tail + 15
  | PIdleStatus => tail + 14 | PIdleLen => tail + 13 | PIdleUnf => tail + 12
  | PStop KStopLeft => tail + 11 | PPreStop KStopLeft => tail + 10
  | PUnregister KStopLeft => tail + 9 | PStopped KStopLeft => tail + 8
  | PLeaveOwner KSuspend => 29 | PLeaveCall KSuspend => 28 | PLeavePermit KSuspend => 27
  | PAwait => 26
  | PEnter KResume => 25 | PEnterCall KResume => 24 | PEnterOwner KResume => 23
  | PReceive => 22
  | PRegister => 20 | PStarted => 19
  | PStop _ => 18 | PPreStop _ => 17 | PUnregister _ => 16 | PStopped _ => 15
  | PRemove _ => 14 | PDrain _ => 13
  | PLeaveOwner _ => 12 | PLeaveCall _ => 11 | PLeavePermit _ => 10
  | PEnter (KInvoke _) => 4 | PEnterCall (KInvoke _) => 3 | PEnterOwner (KInvoke _) => 2 | PDispatch _ => 1
  | PSubReady => 1
  | _ => 0
  end.

Lemma thread_work_nonneg {U} (p : pc U) : 0 ≤ thread_work p.
Proof. destruct p; simpl; try lia; repeat case_match; lia. Qed.

Lemma rank_bounds {U} (f : flags) (p : pc U) : 0 ≤ rank f p ≤ 79 * thread_work p.
Proof.
  destruct f as [[] [] [] []], p; simpl; repeat case_match; lia.
Qed.

Section settle.
Context {U Q M : Type} {BQ : BoundedQueue Q (Ctx U)} {MI : MapImpl M string nat}.
Variables (self : ActorRef) (me : nat) (hasRegister hasUnregister : bool) (goid : nat → Z).
Implicit Types (s : shared U Q M) (t : thread U) (c : Ctx U) (st : state U Q M).

Local Abbreviation tstep := (tstep self me hasRegister hasUnregister goid).
Local Abbreviation exec := (exec self me hasRegister hasUnregister goid).
Local Abbreviation run := (run self me hasRegister hasUnregister goid).
Local Abbreviation reachable := (reachable self me hasRegister hasUnregister goid).
Local Abbreviation sound := (sound self me hasRegister hasUnregister goid).
Local Abbreviation life_ok := (life_ok self hasRegister hasUnregister).
Local Abbreviation inv_life := (inv_life self hasRegister hasUnregister).
#[local] Arguments reports : simpl never.
#[local] Arguments toDeadLetter : simpl never.

Definition shared_work s : Z :=
  8 * Z.of_nat (length (items s)) + b2z (negb (bool_decide (drainStatus s = drainStopped))).

Definition shared_flags s : flags :=
  Flags (bool_decide (items s = [])) (bool_decide (unfinishedCalls s = 0)) (stopRequested s)
    (bool_decide (drainStatus s = drainStopped)).

Definition works (ths : list (thread U)) : Z := sum_of (λ t, thread_work (tpc t)) ths.
Definition ranks (f : flags) (ths : list (thread U)) : Z := sum_of (λ t, rank f (tpc t)) ths.

(** One step: an Ask adds at most the drainer it starts; any other step brings
    work to an end, or leaves the work and what the drainers branch on as they
    were and gets nearer. *)
Definition settles_step (ch : choice) s s' t t' (new : list (thread U)) : Prop :=
  let w := thread_work (tpc t) + shared_work s in
  let w' := thread_work (tpc t') + works new + shared_work s' in
  if decide (ch = CAsk) then w' ≤ w + 1
  else w' < w ∨
       w' = w ∧ shared_flags s' = shared_flags s ∧
       rank (shared_flags s) (tpc t') + ranks (shared_flags s) new < rank (shared_flags s) (tpc t).

Lemma after_invoke_work t : thread_work (after_invoke t) = 1.
Proof. unfold after_invoke. by destruct (_ || _). Qed.

(** An Ask changes no shared field. *)
Lemma ask_settles kof i s t s' t' new :
  tstep kof i s t CAsk = Some (s', t', new) → local_ok t → kof i = callKind_ t →
  settles_step CAsk s s' t t' new.
Proof.
  intros H Hl Hk. unfold settles_step. rewrite decide_True by done.
  destruct (tstep_ask H Hl Hk) as [(-> & -> & ->)|(-> & Hp & Hs)]; [unfold works, sum_of; simpl; lia|].
  rewrite Hp. destruct t as [p [] k ex]; unfold suspend in Hs; simpl in Hs; simplify_eq; simpl; unfold works, sum_of; simpl; lia.
Qed.

(** What the lifecycle rules out at the pcs where the measure needs it. *)
Lemma stopping_pc n s t : life_ok n s t →
  (drainStatus s = drainStopped ↔ lifecycleState s = actorStopped) →
  (tpc t = PStop KStopLeft → lifecycleState s = actorStarted) ∧
  (∀ k, tpc t = PStopped k → drainStatus s ≠ drainStopped).
Proof.
  unfold SchedulerLife.life_ok. intros HL HS. split; [intros E|intros k E]; rewrite E in HL.
  - by destruct HL.
  - intros ?%HS. destruct HL. congruence.
Qed.

Lemma tstep_settles kof i s t ch s' t' new n :
  tstep kof i s t ch = Some (s', t', new) → local_ok t → kof i = callKind_ t → life_ok n s t →
  (drainStatus s = drainStopped ↔ lifecycleState s = actorStopped) → q_wf (mailbox s) →
  settles_step ch s s' t t' new.
Proof.
  intros H Hl Hk HL HS W. destruct (decide (ch = CAsk)) as [->|Hch]; [by eapply ask_settles|].
  destruct (stopping_pc _ _ _ HL HS) as [H1 H2]. clear HL HS Hk.
  destruct t as [p tr k ex], s as [q ds uc pm oi ec lc sr co rg h].
  pose proof (q_close_inv q W) as (Wc&Ic&_). pose proof (q_len_law q W) as Hlen. unfold spec_len in Hlen.
  destruct tr; pc_cases p ch H; step_cases H; destruct Hl as (Hl1 & Hl2 & Hl3); simpl in *; try done.
  all: try specialize (H1 eq_refl); try specialize (H2 _ eq_refl); try done.
  all: queue_facts; unfold settles_step, shared_work, works, ranks, items, sum_of; simpl.
  all: rewrite ?after_invoke_work, ?decide_False by done.
  all: try (by (repeat match goal with E : qs_items _ = _ |- _ => rewrite E end; rewrite ?length_app; simpl; left; lia)).
  all: unfold shared_flags, items; simpl; rewrite ?Ic; repeat match goal with E : q_abs _ = q_abs _ |- _ => rewrite E in * end.
  all: destruct (qs_items (q_abs q)) eqn:?; simpl in *; try lia.
  all: repeat case_bool_decide; simplify_eq/=; try done; try (right; split_and!; [lia|done|first [lia|destruct sr; simpl in *; lia]]).
  all: left; lia.
Qed.

(** ** A run spends it *)

Definition work st : Z := works (threads st) + shared_work (sh st).

(** What is left of the measure when [n] more Asks may come. *)
Definition potential (n : Z) st : Z :=
  let b := work st + 2 * n in 40 * b * b + ranks (shared_flags (sh st)) (threads st).

(** The number of steps it allows. *)
Definition settle_bound (n : Z) st : Z := let b := work st + 2 * n in 40 * b * b + 79 * b.

Lemma ranks_bounds f (ths : list (thread U)) : 0 ≤ ranks f ths ≤ 79 * works ths.
Proof.
  unfold ranks, works, sum_of. induction ths as [|t ths IH]; simpl; [lia|].
  pose proof (rank_bounds f (tpc t)). lia.
Qed.

Lemma works_bounds st : 0 ≤ works (threads st) ≤ work st.
Proof.
  unfold work, shared_work. pose proof (ranks_bounds (shared_flags (sh st)) (threads st)).
  pose proof (b2z_bounds (negb (bool_decide (drainStatus (sh st) = drainStopped)))). lia.
Qed.

Lemma potential_bounds n st : 0 ≤ n → 0 ≤ potential n st ≤ settle_bound n st.
Proof.
  intros Hn. pose proof (works_bounds st). pose proof (ranks_bounds (shared_flags (sh st)) (threads st)).
  unfold potential, settle_bound. nia.
Qed.

Lemma works_step (ths new : list (thread U)) i t t' : ths !! i = Some t →
  works (<[i := t']> ths ++ new) = works ths - thread_work (tpc t) + thread_work (tpc t') + works new.
Proof. intros Hi. unfold works. by rewrite sum_of_app, (sum_of_insert _ _ _ t). Qed.

Lemma ranks_step f (ths new : list (thread U)) i t t' : ths !! i = Some t →
  ranks f (<[i := t']> ths ++ new) = ranks f ths - rank f (tpc t) + rank f (tpc t') + ranks f new.
Proof. intros Hi. unfold ranks. by rewrite sum_of_app, (sum_of_insert _ _ _ t). Qed.

(** The Asks of a run, and the labels that are a goroutine's own step. *)
Definition ask_of (l : label U) : Z := match l with LStep _ CAsk => 1 | _ => 0 end.
Definition asks (ls : list (label U)) : Z := sum_of ask_of ls.
Definition own_step (l : label U) : Prop := match l with LStep _ _ => True | _ => False end.

Lemma asks_nonneg ls : 0 ≤ asks ls.
Proof.
  unfold asks, sum_of. induction ls as [|l ls IH]; simpl; [lia|].
  assert (0 ≤ ask_of l) by (destruct l as [? []| | | |]; simpl; lia). lia.
Qed.

(** The unfinished calls are among the live goroutines. *)
Lemma in_call_work st : count t_in_call (threads st) ≤ work st.
Proof.
  pose proof (works_bounds st) as [_ Hw]. etrans; [|exact Hw]. apply sum_of_le.
  intros t. unfold t_in_call. destruct (tpc t); simpl; repeat case_match; simpl; lia.
Qed.

(** The work that can still come about is smaller than the counter can hold. *)
Definition room n st : Prop := work st + 2 * n < 2 ^ 31.

Lemma room_fits n st : 0 ≤ n → room n st → fits st.
Proof. intros Hn H. pose proof (in_call_work st). unfold room, fits in *. lia. Qed.

(** One step of a goroutine: the measure decreases, the room remains. *)
Lemma exec_potential i ch st st' n :
  sound st → room n st → exec (LStep i ch) st = Some st' → 0 ≤ n → ask_of (LStep i ch) ≤ n →
  potential (n - ask_of (LStep i ch)) st' < potential n st ∧ room (n - ask_of (LStep i ch)) st' ∧ sound st'.
Proof.
  intros Hso Hm E Hn Ha. pose proof (so_reach _ _ _ _ _ _ Hso) as Hr. pose proof (so_life _ _ _ _ _ _ Hso) as HL.
  destruct (exec_step_inv E) as (t & t' & new & Hi & Ht & Hths & Hk).
  pose proof (tstep_settles _ _ _ _ _ _ _ _ _ Ht (ic_local _ (reachable_inv_count Hr) i t Hi) Hk
    (il_threads _ _ _ _ HL i t Hi) (lg_status _ _ _ _ (il_global _ _ _ _ HL)) (if_wf _ (reachable_inv_fifo Hr))) as HS.
  pose proof (works_step _ new i t t' Hi) as Ew. rewrite <-Hths in Ew.
  assert (sound st') as Hso' by (by apply (sound_step _ _ _ _ _ (LStep i ch) st); [|apply (room_fits n)|]).
  unfold settles_step in HS. pose proof (works_bounds st') as Hw'. pose proof (works_bounds st) as Hw.
  pose proof (ranks_bounds (shared_flags (sh st')) (threads st')) as Hr'.
  pose proof (ranks_bounds (shared_flags (sh st)) (threads st)) as Hr0.
  pose proof (ranks_step (shared_flags (sh st)) _ new i t t' Hi) as Er. rewrite <-Hths in Er.
  assert (work st' = work st + (thread_work (tpc t') + works new + shared_work (sh st') -
    (thread_work (tpc t) + shared_work (sh st)))) as Ww by (unfold work; lia).
  split; [clear Hm|split; [|done]].
  - unfold potential. destruct (decide (ch = CAsk)) as [->|Hch]; [simpl in *; nia|].
    assert (ask_of (LStep i ch) = 0) as -> by (by destruct ch).
    destruct HS as [HS|(HS & Hf & HR)]; [nia|]. rewrite Hf in *.
    assert (work st' = work st) as -> by lia. lia.
  - unfold room in *. destruct (decide (ch = CAsk)) as [->|Hch]; [simpl in *; lia|].
    assert (ask_of (LStep i ch) = 0) as -> by (by destruct ch). lia.
Qed.

Lemma run_potential ls st st' n :
  sound st → room n st → Forall own_step ls → asks ls ≤ n → run ls st = Some st' →
  Z.of_nat (length ls) + potential (n - asks ls) st' ≤ potential n st ∧
  room (n - asks ls) st' ∧ sound st'.
Proof.
  revert st n. induction ls as [|l ls IH]; intros st n Hso Hroom Hown Hn E.
  - injection E as <-. change (asks []) with 0. rewrite Z.sub_0_r. simpl. split_and!; [lia|done|done].
  - apply Forall_cons in Hown as [Hl Hown]. cbn [Scheduler.run] in E.
    destruct (exec l st) as [st1|] eqn:E1; [|done].
    change (asks (l :: ls)) with (ask_of l + asks ls) in *. pose proof (asks_nonneg ls) as Ha.
    assert (0 ≤ ask_of l) as Hl0 by (destruct l as [? []| | | |]; simpl; lia).
    destruct l as [i ch| | | |]; try done.
    destruct (exec_potential i ch st st1 n Hso Hroom E1 ltac:(lia) ltac:(lia)) as (Hp & Hm & Hso1).
    destruct (IH st1 (n - ask_of (LStep i ch)) Hso1 Hm Hown ltac:(lia) E) as (H1 & H2 & H3).
    rewrite Z.sub_add_distr. split_and!; [cbn [length]; lia|done|done].
Qed.

(** ** It ends with every goroutine returned *)

Definition all_returned st : Prop := ∀ i t, threads st !! i = Some t → tpc t = PDone.

(** Nobody can move, except into another Ask. *)
Definition stuck st : Prop := ∀ i ch st', exec (LStep i ch) st = Some st' → ch = CAsk.

Definition live t : bool := match tpc t with PDone => false | _ => true end.

Lemma moves_or_returned st : reachable st →
  all_returned st ∨ ∃ i ch st', ch ≠ CAsk ∧ exec (LStep i ch) st = Some st'.
Proof.
  intros Hr. destruct (decide (count live (threads st) = 0))
    as [H0|H0].
  - left. intros i t Hi. pose proof (count_zero_elem _ _ i t H0 Hi) as Hl. unfold live in Hl. by destruct (tpc t).
  - right. destruct (count_pos_elem live (threads st))
      as (i & t & Hi & Ht).
    { pose proof (count_bounds live (threads st)). lia. }
    destruct (gate_progress self me hasRegister hasUnregister goid st i t Hr Hi) as
      [(ch & st' & Hch & E)|(_ & j & u & ch & st' & _ & _ & _ & Hch & E)]; [|by exists i, ch, st'|by exists j, ch, st'].
    unfold live in Ht. by intros E; rewrite E in Ht.
Qed.

Lemma stuck_returned st : reachable st → stuck st → all_returned st.
Proof.
  intros Hr Hs i t Hi. destruct (moves_or_returned st Hr) as [Hd|(j & ch & st' & Hch & E)]; [by apply (Hd i)|].
  by destruct (Hch (Hs _ _ _ E)).
Qed.

(** A goroutine's own step other than an Ask. *)
Definition quiet (l : label U) : bool :=
  match l with LStep _ CAsk => false | LStep _ _ => true | _ => false end.

Lemma quiet_steps ls : Forall (λ l, quiet l = true) ls → Forall own_step ls ∧ asks ls = 0.
Proof.
  unfold asks, sum_of. induction 1 as [|l ls Hl _ [IH1 IH2]]; [done|].
  destruct l as [i []| | | |]; try done; (split; [by constructor|]; cbn; by rewrite IH2).
Qed.

Lemma settle_from st n : 0 ≤ n → sound st → room n st →
  ∃ ls st', Forall own_step ls ∧ asks ls = 0 ∧ run ls st = Some st' ∧ all_returned st'.
Proof.
  intros Hn Hr Hroom.
  destruct (runs_end exec quiet (λ l, quiet l = true) (λ st, sound st ∧ room n st) (potential n))
    with (final := all_returned) (s := st) as (ls & st' & Hq & E & Hd); [| | |done|].
  - intros s _. apply (potential_bounds n s Hn).
  - intros l s s' [Hs Hm] Hl E. rewrite Hl. destruct l as [i ch| | | |]; try done.
    assert (ask_of (LStep i ch) = 0) as H0 by (by destruct ch).
    destruct (exec_potential i ch s s' n Hs Hm E Hn ltac:(lia)) as (Hp & Hm' & Hs').
    rewrite H0, Z.sub_0_r in *. split; [done|lia].
  - intros s [Hs _]. destruct (moves_or_returned s (so_reach _ _ _ _ _ _ Hs)) as [|(i & ch & s' & Hch & E)]; [by left|right].
    exists (LStep i ch), s'. split_and!; [by destruct ch..|done].
  - destruct (quiet_steps ls) as [H1 H2]; [by eapply Forall_impl; [exact Hq|intros l []]|].
    by exists ls, st'.
Qed.

Lemma returned_quiescent st : all_returned st → quiescent st.
Proof. intros H i t Hi. left. by apply (H i). Qed.

(** [C1] The scheduler comes to rest.  Take any moment at which fewer than 2^31
    goroutines have touched the processor and from which the handlers call Ask
    at most [n] times and nobody else sends or poisons any more, where the work
    at hand ([work]: 8 for a queued message, at most 10 for a goroutine that has
    not returned, 1 for a processor that is not stopped) plus 2 for every Ask to
    come is below 2^31, the range of the int32
    counter of unfinished calls: a mailbox of the default 4096 messages counts
    32768.  From there the goroutines of the processor take at most
    [settle_bound n] steps, in whatever order the runtime runs them and whatever
    the handlers return; they stop only when all of them have returned; every
    partial run can be finished; and then the mailbox is empty, every message is
    dispatched or dead-lettered, and a requested stop has stopped the actor and
    removed it from the registry. *)
Theorem scheduler_settles (st : state U Q M) (n : Z) (Hr : reachable st) (Hb : bounded st)
    (Hn : 0 ≤ n) (Hroom : work st + 2 * n < 2 ^ 31) :
  (∀ ls st', Forall own_step ls → asks ls ≤ n → run ls st = Some st' →
     Z.of_nat (length ls) ≤ settle_bound n st ∧
     (stuck st' → all_returned st') ∧
     (∃ ls2 st2, Forall own_step ls2 ∧ asks ls2 = 0 ∧ run ls2 st' = Some st2 ∧ all_returned st2)) ∧
  (∀ ls st', Forall own_step ls → asks ls ≤ n → run ls st = Some st' → all_returned st' →
     items (sh st') = [] ∧
     pushed (history (sh st')) ≡ₚ dispatched (history (sh st')) ++ letters (history (sh st')) ∧
     (stopRequested (sh st') = true → lifecycleState (sh st') = actorStopped ∧
        lookup_proc (registry (sh st')) (GetId self) ≠ Some me)).
Proof.
  pose proof (reachable_sound self me hasRegister hasUnregister goid st Hr Hb) as Hso.
  split; intros ls st' Hown Ha E; destruct (run_potential ls st st' n Hso Hroom Hown Ha E) as (H1 & H2 & H3).
  - pose proof (potential_bounds n st Hn). pose proof (potential_bounds (n - asks ls) st' ltac:(lia)).
    split_and!; [lia|apply stuck_returned, H3|].
    by apply (settle_from st' (n - asks ls)); [lia|..].
  - intros Hall. pose proof (returned_quiescent st' Hall) as Hd.
    split_and!; [by apply (quiescent_items self me hasRegister hasUnregister goid)|
                 by apply (quiescent_handled self me hasRegister hasUnregister goid)|].
    intros Hst. destruct (quiescent_stopped self me hasRegister hasUnregister goid st' H3 Hd Hst) as (? & _ & ?); done.
Qed.
End settle.

Import Demo.

(** Two queued messages, a handler running and a poison: whatever happens next,
    at most 19,299 steps, and the actor can be run to its end. *)
Lemma scheduler_settles_witness : ∃ st : demo_state, at_ (boot ++ serve ++ [LPoison]) = Some st ∧
  (∀ ls st', Forall own_step ls → asks ls ≤ 3 → demo_run ls st = Some st' → Z.of_nat (length ls) ≤ 19299) ∧
  ∃ ls st', demo_run ls st = Some st' ∧ all_returned st'.
Proof.
  assert (option_map (settle_bound 3) (at_ (boot ++ serve ++ [LPoison])) = Some 19299) as Hb
    by (vm_compute; reflexivity).
  assert (option_map (λ st : demo_state, length (threads st)) (at_ (boot ++ serve ++ [LPoison])) = Some 5%nat)
    as Hl by (vm_compute; reflexivity).
  assert (option_map work (at_ (boot ++ serve ++ [LPoison])) = Some 15) as Hw by (vm_compute; reflexivity).
  destruct (at_ (boot ++ serve ++ [LPoison])) as [st|] eqn:E; [|discriminate Hb].
  injection Hb as Hb. injection Hl as Hl. injection Hw as Hw.
  exists st. split; [reflexivity|].
  destruct (scheduler_settles self 5 true true goid st 3 (at_reachable _ _ E)) as [H1 _];
    [unfold bounded; rewrite Hl; reflexivity|discriminate|rewrite Hw; reflexivity|]. split.
  - intros ls st' Hls Ha Hrun. rewrite <-Hb. apply (H1 ls st' Hls Ha Hrun).
  - destruct (H1 [] st) as (_ & _ & ls2 & st2 & _ & _ & Hrun & Hd); [constructor|discriminate|reflexivity|].
    exists ls2, st2. split; [exact Hrun|exact Hd].
Defined.
