(* ===== verification/SchedulerMoves.v ===== *)
(** * What one step of the scheduler machine hands on

    The view from outside the actor: which message a step takes in, begins to
    handle or gives up on (and whom it tells), what becomes of the handler
    running on the goroutine, and that messages change place without being
    copied.  ReentryThms.v builds on it for several actors. *)

From S2P Require Import Prelude.
From S2P Require Import Queue.
From S2P Require Import SafeMap.
From S2P Require Import Registry.
From S2P Require Import ActorId.
From S2P Require Import Messages.
From S2P Require Import Scheduler.
From S2P Require Import SchedulerInv.
From S2P Require Import SchedulerCount.
From S2P Require Import SchedulerFifo.
From S2P Require Import SchedulerOrder.
From S2P Require Import SchedulerReach.
From S2P Require Import SchedulerLetters.
From S2P Require Import SchedulerSettle.
Open Scope Z_scope.

(** Where the handler of a goroutine is: no handler, running (or about to run
    on after an Ask), or giving the permit back for an Ask and waiting. *)
Inductive hstage : Type := SNone | SRunning | SAsking.

Definition stage_of {U} (p : pc U) : hstage :=
  match p with
  | PReceive | PEnter KResume | PEnterCall KResume | PEnterOwner KResume => SRunning
  | PAwait | PLeaveOwner KSuspend | PLeaveCall KSuspend | PLeavePermit KSuspend => SAsking
  | _ => SNone
  end.

(** The message a sender has yet to push, and the one a drainer is about to
    dispatch. *)
Definition posting {U} (p : pc U) : list (Ctx U) :=
  match p with PSend c => [c] | _ => [] end.
Definition dispatching {U} (p : pc U) : list (Ctx U) :=
  match p with PDispatch c => [c] | _ => [] end.

Definition reports_of {U} (d : list (event U)) : list (report U) :=
  omap (λ e, match e with EReport r => Some r | _ => None end) d.

Lemma reports_of_reports {U} (l : list (report U)) : reports_of (reports l) = l.
Proof. unfold reports_of, reports. induction l as [|r l IH]; [done|]. cbn. by rewrite IH. Qed.

Section moves.
Context {U Q M : Type} {BQ : BoundedQueue Q (Ctx U)} {MI : MapImpl M string nat}.
Variables (self : ActorRef) (me : nat) (hasRegister hasUnregister : bool) (goid : nat → Z).
Implicit Types (s : shared U Q M) (t : thread U) (c : Ctx U) (st : state U Q M) (p : pc U).
Local Abbreviation tstep := (tstep self me hasRegister hasUnregister goid).
Local Abbreviation exec := (exec self me hasRegister hasUnregister goid).
Local Abbreviation reachable := (reachable self me hasRegister hasUnregister goid).

#[local] Arguments reports : simpl never.
#[local] Arguments toDeadLetter : simpl never.

(** What a step adds to the history. *)
Definition hands_on p p' (d : list (event U)) : Prop :=
  posting p = pushed d ++ posting p' ∧ dispatched d = dispatching p ∧
  (reports_of d = [] ∧ letters d = [] ∨
   stage_of p = SNone ∧ ∃ c reason, reports_of d = toDeadLetter self c reason ∧ letters d = [c]).

(** What it does to the handler of its goroutine. *)
Definition stage_moves p (ch : choice) p' : Prop :=
  match p, ch with
  | PReceive, CAsk => stage_of p' ≠ SNone
  | PReceive, _ => stage_of p' = SNone
  | PAwait, _ => stage_of p' = SRunning
  | PDispatch c, _ => p' = PReceive ∨
      stage_of p' = SNone ∧ is_initialize (cmessage c) || is_poison (cmessage c) = true
  | _, _ => stage_of p' = stage_of p
  end.

Definition move s t ch s' t' : Prop :=
  stage_moves (tpc t) ch (tpc t') ∧
  (registry s' = registry s ∨ registry s' = remove (registry s) (GetId self) me) ∧
  ∃ d, history s' = history s ++ d ∧ hands_on (tpc t) (tpc t') d.

Lemma move_intro s t ch s' t' d : stage_moves (tpc t) ch (tpc t') →
  (registry s' = registry s ∨ registry s' = remove (registry s) (GetId self) me) →
  history s' = history s ++ d → hands_on (tpc t) (tpc t') d → move s t ch s' t'.
Proof. intros. split_and!; eauto. Qed.

Lemma hands_on_letter p p' c reason e :
  posting p = [] → posting p' = [] → dispatching p = [] → stage_of p = SNone → e = ERejected c ∨ e = EDrained c →
  hands_on p p' (e :: reports (toDeadLetter self c reason)).
Proof.
  intros H1 H2 H3 H4 He. unfold hands_on. rewrite H1, H2, H3.
  destruct (reports_facts self c reason) as (_ & _ & _ & R4 & _ & R6).
  assert (pushed (reports (toDeadLetter self c reason)) = []) as R7.
  { unfold reports, toDeadLetter, fail_asker. destruct (csender c) as [sd|]; [destruct (isAsk sd)|]; done. }
  pose proof (reports_of_reports (toDeadLetter self c reason)) as R8.
  unfold pushed, dispatched, letters, reports_of in *.
  destruct He as [-> | ->]; csimpl; rewrite R7, R4, R6, R8; (split; [done|]; split; [done|]; right; eauto 6).
Qed.

Ltac move_done :=
  first [apply (move_intro _ _ _ _ _ []); [| |by rewrite app_nil_r|]
        |eapply move_intro; [| |simpl; rewrite <-?app_assoc; reflexivity|]];
  unfold after_invoke; simpl; repeat case_match; simplify_eq/=;
  first [done|by left|by right|by apply hands_on_letter; auto
        |by (split_and!; [done|done|by left])
        |by (right; split; [done|];
             match goal with H : _ && _ = true |- _ => apply andb_prop in H as [_ ->] end; rewrite ?orb_true_r)
        |auto].

(** Whatever was dispatched or given up had been handed in. *)
Lemma dispatched_pushed st c : reachable st → c ∈ dispatched (history (sh st)) → c ∈ pushed (history (sh st)).
Proof.
  intros Hr Hc. rewrite (pushed_split (history (sh st))). apply elem_of_app. left.
  rewrite (if_order _ (reachable_inv_fifo Hr)). apply elem_of_app. left.
  eapply elem_of_sublist; [exact Hc|apply dispatched_taken].
Qed.

Lemma letters_pushed st c : reachable st → c ∈ letters (history (sh st)) → c ∈ pushed (history (sh st)).
Proof.
  intros Hr. pose proof (reachable_inv_letters Hr) as [N1 N2 _]. rewrite N2, (pushed_split (history (sh st))), !elem_of_app.
  intros [H|H]; [right|left].
  - rewrite N1. apply elem_of_app. by left.
  - rewrite (if_order _ (reachable_inv_fifo Hr)). apply elem_of_app. left.
    rewrite (taken_split (history (sh st))). apply elem_of_app. by right.
Qed.

(** Reporting a dead letter brings work to an end. *)
Lemma reports_cost kof i s t ch s' t' new d :
  tstep kof i s t ch = Some (s', t', new) → history s' = history s ++ d → reports_of d ≠ [] →
  thread_work (tpc t') + works new + shared_work s' < thread_work (tpc t) + shared_work s.
Proof.
  intros H Hd Hr.
  assert ((∃ k c, tpc t = PDrained k c) ∨ (∃ c r, tpc t = PReject c r)) as Hp.
  { destruct (tpc t) eqn:Ep; eauto; exfalso; apply Hr; clear Hr.
    all: destruct t as [p tr k' ex], s as [q ds uc pm oi ec lc sr co rg h]; simpl in Ep; subst p.
    all: destruct ch; simpl in H; try discriminate H; step_cases H; simpl in *.
    all: try done; try (rewrite <-?app_assoc in Hd; simpl in Hd).
    all: first [apply app_inv_head in Hd; by subst d
               |assert (d = []) as -> by (by apply (app_inv_head h); rewrite app_nil_r); done]. }
  destruct Hp as [(k & c & Hp)|(c & r & Hp)]; destruct t as [p tr k' ex], s as [q ds uc pm oi ec lc sr co rg h];
    simpl in Hp; subst p; destruct ch; simpl in H; try discriminate H; step_cases H;
    unfold works, sum_of, shared_work, items; simpl; try lia. destruct k; lia.
Qed.
(** ** Messages change place *)

Context (wt : Ctx U → Z).
Hypothesis wt_nonneg : ∀ c, 0 ≤ wt c.

(** The weight of the messages a goroutine carries and of those in the mailbox. *)
Definition carried p : Z := sum_of wt (posting p ++ inhand p).
Definition carries (ths : list (thread U)) : Z := sum_of (λ t, carried (tpc t)) ths.
Definition waiting s : Z := sum_of wt (items s).

Definition carry_step s s' t t' (new : list (thread U)) : Prop :=
  carried (tpc t') + carries new + waiting s' + sum_of wt (dispatching (tpc t))
    ≤ carried (tpc t) + waiting s.

Ltac carry_done :=
  unfold carry_step, carries, carried, waiting, items, after_invoke in *; simpl in *;
  repeat case_match; simplify_eq/=;
  repeat match goal with E : qs_items (q_abs _) = _ |- _ => rewrite E in * | E : q_abs _ = _ |- _ => rewrite E in * end;
  rewrite ?sum_of_app; simpl;
  repeat match goal with |- context [wt ?c] => lazymatch goal with
    | _ : 0 ≤ wt c |- _ => fail | _ => pose proof (wt_nonneg c) end end; lia.

(** One case analysis of the step gives both. *)
Lemma tstep_shows kof i s t ch s' t' new :
  tstep kof i s t ch = Some (s', t', new) → local_ok t → kof i = callKind_ t → q_wf (mailbox s) →
  move s t ch s' t' ∧ carry_step s s' t t' new.
Proof.
  intros H Hl Hk W. destruct (decide (ch = CAsk)) as [->|Hne].
  - destruct (tstep_ask H Hl Hk) as [(-> & -> & ->)|(-> & Hp & Hs)].
    + destruct t as [p tr k ex]. destruct p; simpl in H; try discriminate H; (split; [move_done|carry_done]).
    + destruct t as [p [] k ex]; simpl in Hp; subst p; unfold suspend in Hs; simpl in Hs;
        injection Hs as -> ->; (split; [move_done|carry_done]).
  - destruct t as [p tr k ex]. pose proof (q_close_inv (mailbox s) W) as (?&?&?).
    destruct s, tr; pc_cases p ch H; step_cases H; destruct Hl as (Hl1 & Hl2 & Hl3); simpl in *; try done.
    all: split; [move_done|queue_facts; carry_done].
Qed.
End moves.
