(* ===== verification/Spawn.v ===== *)
(** * Spawning: one construction per id at a time

    [processorCreator] (processor_spawn.go) and the two spawn policies,
    [spawnNewProcessor] and [getOrSpawnProcessor], as a small-step machine over
    any number of concurrent callers.  The bookkeeping mutex protects two short
    sections, each one step here; the slot mutex is held across the user's
    producer.  A producer is user code: its end is a step of its own, with
    whatever outcome, at whatever time or never, and a spawn it makes itself is
    one more caller.  Slots and processors are heap objects, named by numbers. *)

From S2P Require Import Prelude.
From S2P Require Import SafeMap.
From S2P Require Import Registry.
Open Scope Z_scope.

(** [processorCreationSlot]. *)
Record slot : Type := Slot { slocked : bool; users : Z }.

(** Which function is running. *)
Inductive policy : Type := SpawnNew | GetOrSpawn.

(** What it returned, or that the producer panicked through it. *)
Inductive spawn_result : Type :=
| RProc (p : nat)
| RNameExists
| RPanicked.

Inductive spc : Type :=
| SLookup0                          (* getOrSpawn's lookup before any lock *)
| SReserve                          (* creator.lock: find or make the slot, users++ *)
| SWait (k : nat)                   (* slot.mu.Lock *)
| SLookup (k : nat)                 (* the lookup under the reservation *)
| SBuild (k : nat)                  (* inside buildProcessor: the user's producer runs *)
| SRegister (k : nat) (p : nat)
| SInit (k : nat) (p : nat)         (* proc.init() *)
| SUnlock (k : nat) (r : spawn_result)   (* creator.unlock: slot.mu.Unlock *)
| SRelease (k : nat) (r : spawn_result)  (* ... users--, drop the slot at 0 *)
| SReturned (r : spawn_result).

Record caller : Type := Caller { cid : string; cpolicy : policy; cpc : spc }.

Inductive spawn_event : Type :=
| EBuilt (id : string) (p : nat)
| EPublished (id : string) (p : nat)
| EUnused (id : string) (p : nat)   (* built, but somebody else was registered *)
| EInited (p : nat).

Record spawner (M : Type) : Type := Spawner {
  procs : M;
  active : gmap string nat;
  slots : list slot;
  fresh : nat;
  callers : list caller;
  log : list spawn_event
}.
Arguments Spawner {M} _ _ _ _ _ _.
Arguments procs {M} _.
Arguments active {M} _.
Arguments slots {M} _.
Arguments fresh {M} _.
Arguments callers {M} _.
Arguments log {M} _.

Section spawn.
Context {M : Type} {MI : MapImpl M string nat}.
Implicit Types (x : spawner M) (c : caller).

(** [creator.lock] up to [c.mu.Unlock()]: the slot's number. *)
Definition reserve (id : string) (act : gmap string nat) (sl : list slot)
    : nat * gmap string nat * list slot :=
  match act !! id with
  | Some k =>
      match sl !! k with
      | Some s => (k, act, <[k := Slot (slocked s) (users s + 1)]> sl)
      | None => (k, act, sl)
      end
  | None => (length sl, <[id := length sl]> act, sl ++ [Slot false 1])
  end.

(** The [c.mu] section of [creator.unlock]. *)
Definition release (id : string) (k : nat) (act : gmap string nat) (sl : list slot)
    : gmap string nat * list slot :=
  match sl !! k with
  | Some s =>
      let n := users s - 1 in
      (if decide (n = 0) then delete id act else act, <[k := Slot (slocked s) n]> sl)
  | None => (act, sl)
  end.

Definition set_locked (k : nat) (b : bool) (sl : list slot) : list slot :=
  match sl !! k with Some s => <[k := Slot b (users s)]> sl | None => sl end.

(** A step of caller [i]; none while its producer runs. *)
Definition spawn_step (i : nat) x : option (spawner M) :=
  let 'Spawner r act sl fr cs lg := x in
  match cs !! i with
  | None => None
  | Some c =>
      let id := cid c in
      let at_ p := <[i := Caller id (cpolicy c) p]> cs in
      match cpc c with
      | SLookup0 =>
          match lookup_proc r id with
          | Some p => Some (Spawner r act sl fr (at_ (SReturned (RProc p))) lg)
          | None => Some (Spawner r act sl fr (at_ SReserve) lg)
          end
      | SReserve =>
          let '(k, act', sl') := reserve id act sl in
          Some (Spawner r act' sl' fr (at_ (SWait k)) lg)
      | SWait k =>
          match sl !! k with
          | Some s => if slocked s then None
                      else Some (Spawner r act (set_locked k true sl) fr (at_ (SLookup k)) lg)
          | None => None
          end
      | SLookup k =>
          match lookup_proc r id, cpolicy c with
          | Some _, SpawnNew => Some (Spawner r act sl fr (at_ (SUnlock k RNameExists)) lg)
          | Some p, GetOrSpawn => Some (Spawner r act sl fr (at_ (SUnlock k (RProc p))) lg)
          | None, _ => Some (Spawner r act sl fr (at_ (SBuild k)) lg)
          end
      | SBuild _ => None
      | SRegister k p =>
          let '((actual, ins), r') := register r id p in
          if ins then Some (Spawner r' act sl fr (at_ (SInit k p)) (lg ++ [EPublished id p]))
          else
            let res := match cpolicy c with SpawnNew => RNameExists | GetOrSpawn => RProc actual end in
            Some (Spawner r' act sl fr (at_ (SUnlock k res)) (lg ++ [EUnused id p]))
      | SInit k p => Some (Spawner r act sl fr (at_ (SUnlock k (RProc p))) (lg ++ [EInited p]))
      | SUnlock k res => Some (Spawner r act (set_locked k false sl) fr (at_ (SRelease k res)) lg)
      | SRelease k res =>
          let '(act', sl') := release id k act sl in
          Some (Spawner r act' sl' fr (at_ (SReturned res)) lg)
      | SReturned _ => None
      end
  end.

(** The producer of caller [i] ends: it panics, through [buildProcessor] and the
    deferred unlock, or returns, and [buildProcessor] with it. *)
Definition producer_ends (i : nat) (panics : bool) x : option (spawner M) :=
  let 'Spawner r act sl fr cs lg := x in
  match cs !! i with
  | Some (Caller id pol (SBuild k)) =>
      let at_ p := <[i := Caller id pol p]> cs in
      if panics then Some (Spawner r act sl fr (at_ (SUnlock k RPanicked)) lg)
      else Some (Spawner r act sl (S fr) (at_ (SRegister k fr)) (lg ++ [EBuilt id fr]))
  | _ => None
  end.

Inductive spawn_label : Type :=
| LCaller (i : nat)
| LProducer (i : nat) (panics : bool)
| LCall (pol : policy) (id : string)    (* somebody calls a spawn function *)
| LStop (id : string) (p : nat).        (* a stopping processor deregisters *)

Definition spawn_exec (l : spawn_label) x : option (spawner M) :=
  match l with
  | LCaller i => spawn_step i x
  | LProducer i panics => producer_ends i panics x
  | LCall pol id =>
      let 'Spawner r act sl fr cs lg := x in
      let p := match pol with SpawnNew => SReserve | GetOrSpawn => SLookup0 end in
      Some (Spawner r act sl fr (cs ++ [Caller id pol p]) lg)
  | LStop id p =>
      let 'Spawner r act sl fr cs lg := x in
      Some (Spawner (remove r id p) act sl fr cs lg)
  end.

Definition spawn_initial (r0 : M) : spawner M := Spawner r0 ∅ [] 0 [] [].

Inductive spawn_reachable (r0 : M) : spawner M → Prop :=
| sr_init : spawn_reachable r0 (spawn_initial r0)
| sr_step x l x' : spawn_reachable r0 x → spawn_exec l x = Some x' → spawn_reachable r0 x'.

Fixpoint spawn_run (ls : list spawn_label) x : option (spawner M) :=
  match ls with
  | [] => Some x
  | l :: ls => match spawn_exec l x with Some x' => spawn_run ls x' | None => None end
  end.

Lemma spawn_run_reachable r0 ls x x' :
  spawn_reachable r0 x → spawn_run ls x = Some x' → spawn_reachable r0 x'.
Proof.
  revert x. induction ls as [|l ls IH]; simpl; intros x Hr E; [by simplify_eq|].
  destruct (spawn_exec l x) as [x1|] eqn:E1; [|done]. eapply IH; [|done]. by econstructor.
Qed.

(** ** Who uses which slot *)

Definition slot_of (p : spc) : option nat :=
  match p with
  | SWait k | SLookup k | SBuild k | SRegister k _ | SInit k _ | SUnlock k _ | SRelease k _ => Some k
  | _ => None
  end.
Definition inside (p : spc) : option nat :=
  match p with
  | SLookup k | SBuild k | SRegister k _ | SInit k _ | SUnlock k _ => Some k
  | _ => None
  end.
Definition absent (p : spc) : bool := match p with SBuild _ | SRegister _ _ => true | _ => false end.

Definition uses (k : nat) c : bool := bool_decide (slot_of (cpc c) = Some k).
Definition locks (k : nat) c : bool := bool_decide (inside (cpc c) = Some k).
Definition tally (f : caller → bool) (cs : list caller) : Z :=
  sum_of (λ c, if f c then 1 else 0) cs.

Record spawn_inv x : Prop := {
  sv_wf : m_wf (procs x);
  sv_slots : ∀ k s, slots x !! k = Some s →
    users s = tally (uses k) (callers x) ∧ (if slocked s then 1 else 0) = tally (locks k) (callers x);
  sv_caller : ∀ i c k, callers x !! i = Some c → slot_of (cpc c) = Some k →
    active x !! cid c = Some k;
  sv_active : ∀ id k, active x !! id = Some k → ∃ s, slots x !! k = Some s ∧ 0 < users s;
  sv_inj : ∀ id1 id2 k, active x !! id1 = Some k → active x !! id2 = Some k → id1 = id2;
  sv_absent : ∀ i c, callers x !! i = Some c → absent (cpc c) = true →
    m_abs (procs x) !! cid c = None;
  sv_log : ∀ id p, EUnused id p ∉ log x
}.

(** ** Tallies *)

Lemma tally_insert f cs i c c' : cs !! i = Some c →
  tally f (<[i := c']> cs) = tally f cs - (if f c then 1 else 0) + (if f c' then 1 else 0).
Proof. apply sum_of_insert. Qed.

Lemma tally_snoc f cs c : tally f (cs ++ [c]) = tally f cs + (if f c then 1 else 0).
Proof. unfold tally. rewrite sum_of_app. unfold sum_of. simpl. lia. Qed.

Lemma flag_bounds (b : bool) : 0 ≤ (if b then 1 else 0) ≤ 1.
Proof. destruct b; lia. Qed.

Lemma tally_nonneg f cs : 0 ≤ tally f cs.
Proof. apply sum_of_bounds. intros c. apply flag_bounds. Qed.

Lemma tally_elem f cs i c : cs !! i = Some c → f c = true → 1 ≤ tally f cs.
Proof.
  intros Hi Hf.
  pose proof (sum_of_elem (λ c, if f c then 1 else 0) cs i c (λ c, proj1 (flag_bounds (f c))) Hi) as H.
  cbv beta in H. rewrite Hf in H. exact H.
Qed.

Lemma tally_two f cs i j c d :
  cs !! i = Some c → cs !! j = Some d → i ≠ j → f c = true → f d = true → 2 ≤ tally f cs.
Proof.
  intros Hi Hj Hne Hc Hd.
  pose proof (sum_of_two (λ c, if f c then 1 else 0) cs i j c d (λ c, proj1 (flag_bounds (f c))) Hi Hj Hne) as H.
  cbv beta in H. rewrite Hc, Hd in H. exact H.
Qed.

Lemma tally_none f cs : (∀ i c, cs !! i = Some c → f c = false) → tally f cs = 0.
Proof. intros H. apply sum_of_zero. intros c (i & Hi)%list_elem_of_lookup. by rewrite (H i c Hi). Qed.

Lemma inside_slot p k : inside p = Some k → slot_of p = Some k.
Proof. by destruct p. Qed.
Lemma absent_inside p : absent p = true → ∃ k, inside p = Some k.
Proof. destruct p; simpl; try done; eauto. Qed.

(** Inside an id's reservation there is one caller. *)
Lemma inside_unique x i j c d k k' :
  spawn_inv x → callers x !! i = Some c → callers x !! j = Some d →
  inside (cpc c) = Some k → inside (cpc d) = Some k' → cid c = cid d → i = j.
Proof.
  intros V Hi Hj Hk Hk' Hid.
  pose proof (sv_caller _ V i c k Hi (inside_slot _ _ Hk)) as A1.
  pose proof (sv_caller _ V j d k' Hj (inside_slot _ _ Hk')) as A2.
  rewrite Hid in A1. simplify_eq. destruct (decide (i = j)) as [|Hne]; [done|].
  destruct (sv_active _ V _ _ A1) as (s & Hs & _). destruct (sv_slots _ V _ _ Hs) as [_ HL].
  pose proof (tally_two (locks k) (callers x) i j c d Hi Hj Hne) as H.
  unfold locks in H at 1 2. rewrite !bool_decide_eq_true_2 in H by done.
  specialize (H eq_refl eq_refl). destruct (slocked s); lia.
Qed.

(** *** Steps that keep a caller in its slot *)

Lemma inv_move x i c p r' fr' lg' :
  spawn_inv x → callers x !! i = Some c →
  slot_of p = slot_of (cpc c) → inside p = inside (cpc c) → m_wf r' →
  (∀ j d, j ≠ i → callers x !! j = Some d → absent (cpc d) = true → m_abs r' !! cid d = None) →
  (absent p = true → m_abs r' !! cid c = None) →
  (∀ id q, EUnused id q ∉ lg') →
  spawn_inv (Spawner r' (active x) (slots x) fr' (<[i := Caller (cid c) (cpolicy c) p]> (callers x)) lg').
Proof.
  intros V Hi Hs Hin Hr Ho Hab Hlg. destruct V as [V1 V2 V3 V4 V5 V6 V7].
  constructor; simpl; [done| |intros j d k Hj Hk|done|done|intros j d Hj Hd|done].
  - intros k s Hk. destruct (V2 k s Hk) as [H1 H2].
    rewrite !(tally_insert _ _ _ c) by done. unfold uses, locks in *. simpl. rewrite Hs, Hin. lia.
  - apply list_lookup_insert_Some in Hj as [(<- & <- & _)|[_ Hj]]; simpl in *; [|eauto].
    apply (V3 i c k Hi). congruence.
  - apply list_lookup_insert_Some in Hj as [(<- & <- & _)|[Hne Hj]]; simpl in *; eauto.
Qed.

(** What a caller that waits for slot [k] counts as, and that it is not inside. *)
Lemma waiter_uses c k k' : uses k' (Caller (cid c) (cpolicy c) (SWait k)) = bool_decide (k = k').
Proof. unfold uses. simpl. apply bool_decide_ext. naive_solver. Qed.

Lemma waiter_tally x i c k k' : callers x !! i = Some c → cpc c = SReserve →
  let cs := <[i := Caller (cid c) (cpolicy c) (SWait k)]> (callers x) in
  tally (uses k') cs = tally (uses k') (callers x) + (if bool_decide (k = k') then 1 else 0) ∧
  tally (locks k') cs = tally (locks k') (callers x).
Proof.
  intros Hi Hp cs. unfold cs. rewrite !(tally_insert _ _ _ c) by done. rewrite waiter_uses.
  assert (uses k' c = false) as -> by by unfold uses; rewrite Hp.
  assert (locks k' c = false) as -> by by unfold locks; rewrite Hp.
  unfold locks at 2. simpl. lia.
Qed.

Lemma waiter_absent x i c k : spawn_inv x →
  ∀ j d, <[i := Caller (cid c) (cpolicy c) (SWait k)]> (callers x) !! j = Some d →
    absent (cpc d) = true → m_abs (procs x) !! cid d = None.
Proof.
  intros V j d Hj Hd. apply list_lookup_insert_Some in Hj as [(<- & <- & _)|[_ Hj]]; [done|].
  by apply (sv_absent _ V j).
Qed.

(** A caller joins the slot that is already there for its id, *)
Lemma join_inv x i c k s :
  spawn_inv x → callers x !! i = Some c → cpc c = SReserve →
  active x !! cid c = Some k → slots x !! k = Some s →
  spawn_inv (Spawner (procs x) (active x) (<[k := Slot (slocked s) (users s + 1)]> (slots x)) (fresh x)
    (<[i := Caller (cid c) (cpolicy c) (SWait k)]> (callers x)) (log x)).
Proof.
  intros V Hi Hp A Hs. pose proof (waiter_absent x i c k V) as Hab. destruct V as [V1 V2 V3 V4 V5 V6 V7].
  pose proof (lookup_lt_Some _ _ _ Hs) as Hlt.
  constructor; simpl; [done| |intros j d k' Hj Hk'|intros id k' Hk'|done|done|done].
  - intros k' s' Hk'. destruct (waiter_tally x i c k k' Hi Hp) as [-> ->].
    apply list_lookup_insert_Some in Hk' as [(<- & <- & _)|[Hne Hk']].
    + rewrite bool_decide_eq_true_2 by done. simpl. destruct (V2 _ _ Hs). split; lia.
    + rewrite bool_decide_eq_false_2 by done. destruct (V2 _ _ Hk'). split; lia.
  - apply list_lookup_insert_Some in Hj as [(<- & <- & _)|[_ Hj]]; simpl in *; [|eauto]. congruence.
  - destruct (V4 _ _ Hk') as (s' & Hs' & ?). destruct (decide (k' = k)) as [->|].
    + exists (Slot (slocked s) (users s + 1)). rewrite list_lookup_insert_eq by done.
      split; [done|]. simpl. simplify_eq. lia.
    + exists s'. by rewrite list_lookup_insert_ne.
Qed.

(** ... or makes a new one, which nobody uses yet. *)
Lemma new_slot_unused x : spawn_inv x → let k := length (slots x) in
  (∀ id, active x !! id ≠ Some k) ∧ tally (uses k) (callers x) = 0 ∧ tally (locks k) (callers x) = 0.
Proof.
  intros V k. assert (∀ id, active x !! id ≠ Some k) as Hfresh.
  { intros id H. destruct (sv_active _ V _ _ H) as (s & Hs & _). apply lookup_lt_Some in Hs. lia. }
  assert (∀ j d, callers x !! j = Some d → slot_of (cpc d) ≠ Some k) as Hno.
  { intros j d Hj H. by destruct (Hfresh _ (sv_caller _ V _ _ _ Hj H)). }
  split_and!; [done|apply tally_none..]; intros j d Hj; unfold uses, locks; apply bool_decide_eq_false;
    [by apply (Hno j)|]. intros H%inside_slot. by apply (Hno j d).
Qed.

Lemma new_slot_inv x i c :
  spawn_inv x → callers x !! i = Some c → cpc c = SReserve → active x !! cid c = None →
  let k := length (slots x) in
  spawn_inv (Spawner (procs x) (<[cid c := k]> (active x)) (slots x ++ [Slot false 1]) (fresh x)
    (<[i := Caller (cid c) (cpolicy c) (SWait k)]> (callers x)) (log x)).
Proof.
  intros V Hi Hp A k. pose proof (waiter_absent x i c k V) as Hab.
  destruct (new_slot_unused x V) as (Hfresh & U0 & L0). fold k in Hfresh, U0, L0.
  destruct V as [V1 V2 V3 V4 V5 V6 V7].
  constructor; simpl; [done| |intros j d k' Hj Hk'|intros id k' Hk'|intros id1 id2 k' H1 H2|done|done].
  - intros k' s' Hk'. destruct (waiter_tally x i c k k' Hi Hp) as [-> ->].
    apply lookup_app_Some in Hk' as [Hk'|[Hge Hk']].
    + rewrite bool_decide_eq_false_2 by (apply lookup_lt_Some in Hk'; lia).
      destruct (V2 _ _ Hk'). split; lia.
    + apply list_lookup_singleton_Some in Hk' as [Hz <-]. assert (k' = k) as -> by lia.
      rewrite bool_decide_eq_true_2 by done. simpl. lia.
  - apply list_lookup_insert_Some in Hj as [(<- & <- & _)|[_ Hj]]; simpl in *.
    + simplify_eq. by rewrite lookup_insert_eq.
    + pose proof (V3 _ _ _ Hj Hk') as H. rewrite lookup_insert_ne; [done|]. congruence.
  - destruct (decide (id = cid c)) as [->|].
    + rewrite lookup_insert_eq in Hk'. simplify_eq. exists (Slot false 1).
      rewrite lookup_app_r by lia. by rewrite Nat.sub_diag.
    + rewrite lookup_insert_ne in Hk' by done. destruct (V4 _ _ Hk') as (s & Hs & ?).
      exists s. rewrite lookup_app_l; [done|]. by eapply lookup_lt_Some.
  - destruct (decide (id1 = cid c)) as [->|], (decide (id2 = cid c)) as [->|]; try done;
      rewrite ?lookup_insert_eq, ?lookup_insert_ne in * by done; simplify_eq; [| |eauto].
    + by destruct (Hfresh id2).
    + by destruct (Hfresh id1).
Qed.

Lemma reserve_inv x i c act' sl' k :
  spawn_inv x → callers x !! i = Some c → cpc c = SReserve →
  reserve (cid c) (active x) (slots x) = (k, act', sl') →
  spawn_inv (Spawner (procs x) act' sl' (fresh x)
    (<[i := Caller (cid c) (cpolicy c) (SWait k)]> (callers x)) (log x)).
Proof.
  intros V Hi Hp E. unfold reserve in E. destruct (active x !! cid c) as [k0|] eqn:A.
  - destruct (sv_active _ V _ _ A) as (s & Hs & _). rewrite Hs in E. simplify_eq. by apply join_inv.
  - injection E as <- <- <-. by apply new_slot_inv.
Qed.

(** *** The slot mutex and the release *)

Lemma set_locked_inv x i c k (b : bool) (p : spc) :
  spawn_inv x → callers x !! i = Some c → slot_of (cpc c) = Some k →
  slot_of p = Some k → absent p = false →
  (inside p = if b then Some k else None) → (inside (cpc c) = if b then None else Some k) →
  (∀ s, slots x !! k = Some s → slocked s = negb b) →
  spawn_inv (Spawner (procs x) (active x) (set_locked k b (slots x)) (fresh x)
    (<[i := Caller (cid c) (cpolicy c) p]> (callers x)) (log x)).
Proof.
  intros V Hi Hc Hp Hab Hin Hin' Hb. destruct V as [V1 V2 V3 V4 V5 V6 V7].
  destruct (V4 _ _ (V3 _ _ _ Hi Hc)) as (s & Hs & Hpos). specialize (Hb s Hs).
  pose proof (lookup_lt_Some _ _ _ Hs) as Hlt. unfold set_locked. rewrite Hs.
  constructor; simpl; [done| |intros j d k' Hj Hk'|intros id k' Hk'|done|intros j d Hj Hd|done].
  - intros k' s' Hk'. rewrite !(tally_insert _ _ _ c) by done. unfold uses, locks. simpl.
    rewrite Hc, Hp, Hin, Hin'. fold (uses k') (locks k').
    apply list_lookup_insert_Some in Hk' as [(<- & <- & _)|[Hne Hk']].
    + destruct (V2 _ _ Hs) as [H1 H2]. rewrite Hb in H2. simpl. split; [lia|].
      destruct b; simpl in *; repeat case_bool_decide; try done; lia.
    + destruct (V2 _ _ Hk') as [H1 H2]. split; [lia|].
      destruct b; repeat case_bool_decide; simplify_eq; lia.
  - apply list_lookup_insert_Some in Hj as [(<- & <- & _)|[_ Hj]]; simpl in *; [|eauto].
    apply (V3 i c k' Hi). congruence.
  - destruct (V4 _ _ Hk') as (s' & Hs' & ?). destruct (decide (k' = k)) as [->|].
    + exists (Slot b (users s)). rewrite list_lookup_insert_eq by done. by simplify_eq.
    + exists s'. by rewrite list_lookup_insert_ne.
  - apply list_lookup_insert_Some in Hj as [(<- & <- & _)|[Hne Hj]]; simpl in *; [congruence|eauto].
Qed.

Lemma release_inv x i c k r act' sl' :
  spawn_inv x → callers x !! i = Some c → cpc c = SRelease k r →
  release (cid c) k (active x) (slots x) = (act', sl') →
  spawn_inv (Spawner (procs x) act' sl' (fresh x)
    (<[i := Caller (cid c) (cpolicy c) (SReturned r)]> (callers x)) (log x)).
Proof.
  intros V Hi Hp E. destruct V as [V1 V2 V3 V4 V5 V6 V7].
  pose proof (V3 i c k Hi ltac:(by rewrite Hp)) as A.
  destruct (V4 _ _ A) as (s & Hs & Hpos). unfold release in E. rewrite Hs in E. simplify_eq.
  pose proof (lookup_lt_Some _ _ _ Hs) as Hlt. destruct (V2 _ _ Hs) as [HU HL].
  constructor; simpl; [done| |intros j d k' Hj Hk'|intros id k' Hk'|intros id1 id2 k' H1 H2|intros j d Hj Hd|done].
  - intros k' s' Hk'. rewrite !(tally_insert _ _ _ c) by done. unfold uses, locks. simpl. rewrite Hp. simpl.
    fold (uses k') (locks k'). apply list_lookup_insert_Some in Hk' as [(<- & <- & _)|[Hne Hk']].
    + simpl. repeat case_bool_decide; try done; split; lia.
    + destruct (V2 _ _ Hk'). repeat case_bool_decide; simplify_eq; split; lia.
  - apply list_lookup_insert_Some in Hj as [(<- & <- & _)|[Hne Hj]]; simpl in *; [done|].
    pose proof (V3 _ _ _ Hj Hk') as H. case_decide as Hz; [|done].
    destruct (decide (cid d = cid c)) as [Hid|Hid]; [|by rewrite lookup_delete_ne].
    exfalso. rewrite Hid, A in H. injection H as <-.
    pose proof (tally_two (uses k) (callers x) i j c d Hi Hj ltac:(congruence)) as H2.
    unfold uses in H2 at 1 2. rewrite Hp in H2. rewrite !bool_decide_eq_true_2 in H2 by done.
    specialize (H2 eq_refl eq_refl). lia.
  - case_decide as Hz.
    + destruct (decide (id = cid c)) as [->|Hid]; [by rewrite lookup_delete_eq in Hk'|].
      rewrite lookup_delete_ne in Hk' by done. destruct (V4 _ _ Hk') as (s' & Hs' & ?).
      exists s'. rewrite list_lookup_insert_ne; [done|]. intros <-. by destruct Hid; eapply V5.
    + destruct (V4 _ _ Hk') as (s' & Hs' & ?). destruct (decide (k' = k)) as [->|].
      * exists (Slot (slocked s) (users s - 1)). rewrite list_lookup_insert_eq by done. simpl.
        split; [done|]. pose proof (tally_nonneg (uses k) (callers x)). lia.
      * exists s'. by rewrite list_lookup_insert_ne.
  - case_decide; [|eauto]. apply lookup_delete_Some in H1 as [_ H1], H2 as [_ H2]. eauto.
  - apply list_lookup_insert_Some in Hj as [(<- & <- & _)|[Hne Hj]]; simpl in *; [done|eauto].
Qed.

(** *** Every step *)

Lemma caller_step_inv x i x' : spawn_inv x → spawn_step i x = Some x' → spawn_inv x'.
Proof.
  intros V E. destruct x as [r act sl fr cs lg]. simpl in E.
  destruct (cs !! i) as [c|] eqn:Hi; [|done].
  set (x := Spawner r act sl fr cs lg) in *.
  assert (∀ p r' fr' lg', slot_of p = slot_of (cpc c) → inside p = inside (cpc c) → m_wf r' →
    (∀ j d, j ≠ i → cs !! j = Some d → absent (cpc d) = true → m_abs r' !! cid d = None) →
    (absent p = true → m_abs r' !! cid c = None) → (∀ id q, EUnused id q ∉ lg') →
    spawn_inv (Spawner r' act sl fr' (<[i := Caller (cid c) (cpolicy c) p]> cs) lg')) as Hmove.
  { intros. by apply (inv_move x i c). }
  assert (∀ j d, j ≠ i → cs !! j = Some d → absent (cpc d) = true → m_abs r !! cid d = None) as Hoth.
  { intros j d _ Hj. by apply (sv_absent _ V j d). }
  pose proof (sv_wf _ V) as W. pose proof (sv_log _ V) as HL. simpl in W, HL.
  assert (∀ e, (∀ id q, e ≠ EUnused id q) → ∀ id q, EUnused id q ∉ lg ++ [e]) as Hlg.
  { intros e He id q [?|H%list_elem_of_singleton]%elem_of_app; [by eapply HL|by eapply He]. }
  destruct (cpc c) as [| |k|k|k|k p|k p|k res|k res|res] eqn:Hp; [..|done].
  - destruct (lookup_proc r (cid c)); simplify_eq; by apply Hmove.
  - destruct (reserve (cid c) act sl) as [[k act'] sl'] eqn:ER. simplify_eq. by apply (reserve_inv x).
  - destruct (sl !! k) as [s|] eqn:Hs; [|done]. destruct (slocked s) eqn:Hl; simplify_eq.
    apply (set_locked_inv x i c k true); try done; rewrite ?Hp; try done. intros s' Hs'. by simplify_eq/=.
  - rewrite lookup_proc_abs in E by done.
    destruct (m_abs r !! cid c) eqn:Ha; [destruct (cpolicy c)|]; simplify_eq; by apply Hmove.
  - done.
  - destruct (register_abs r (cid c) p W) as (R1 & R2 & R3).
    assert (m_abs r !! cid c = None) as Ha by (apply (sv_absent _ V i c Hi); by rewrite Hp).
    rewrite Ha in R2, R3. destruct (register r (cid c) p) as [[actual ins] r'].
    simpl in *. simplify_eq. apply Hmove; try done; [|by apply Hlg].
    intros j d Hne Hj Hd. rewrite R3, lookup_insert_ne; [by apply (Hoth j)|].
    intros Hid. apply Hne. destruct (absent_inside _ Hd) as [k' Hk'].
    apply (inside_unique x j i d c k' k V Hj Hi Hk'); [by rewrite Hp|done].
  - simplify_eq. apply Hmove; try done. by apply Hlg.
  - simplify_eq. apply (set_locked_inv x i c k false); try done; rewrite ?Hp; try done.
    intros s' Hs'. destruct (sv_slots _ V _ _ Hs') as [_ HT].
    assert (1 ≤ tally (locks k) cs) as H1.
    { apply (tally_elem _ _ i c Hi). unfold locks. rewrite Hp. by apply bool_decide_eq_true_2. }
    simpl in HT. destruct (slocked s'); [done|lia].
  - destruct (release (cid c) k act sl) as [act' sl'] eqn:ER. simplify_eq. by apply (release_inv x i c k).
Qed.

Lemma producer_ends_inv x i panics x' : spawn_inv x → producer_ends i panics x = Some x' → spawn_inv x'.
Proof.
  intros V E. destruct x as [r act sl fr cs lg]. simpl in E.
  destruct (cs !! i) as [[id pol [| | | |k| | | | |]]|] eqn:Hi; try done.
  assert (∀ p fr' lg', slot_of p = Some k → inside p = Some k → (∀ id q, EUnused id q ∉ lg') →
    spawn_inv (Spawner r act sl fr' (<[i := Caller id pol p]> cs) lg')) as Hmove.
  { intros p fr' lg' Hs Hin HL. apply (inv_move (Spawner r act sl fr cs lg) i _ p r fr' lg' V Hi); try done.
    - apply V.
    - intros j d _ Hj. by apply (sv_absent _ V j d).
    - intros _. by apply (sv_absent _ V i _ Hi). }
  destruct panics; injection E as <-; apply Hmove; try done; [apply V|].
  intros id' q [H|H%list_elem_of_singleton]%elem_of_app; [by apply (sv_log _ V id' q)|done].
Qed.

Lemma spawn_exec_inv l x x' : spawn_inv x → spawn_exec l x = Some x' → spawn_inv x'.
Proof.
  intros V E. destruct l as [i|i panics|pol id|id p].
  - by eapply caller_step_inv.
  - by eapply producer_ends_inv.
  - destruct x as [r act sl fr cs lg], V as [V1 V2 V3 V4 V5 V6 V7]. simpl in *. simplify_eq.
    constructor; simpl in *; [done| |intros j d k Hj Hk|done|done|intros j d Hj Hd|done].
    + intros k s Hk. rewrite !tally_snoc. destruct (V2 k s Hk).
      destruct pol; unfold uses at 2, locks at 2; simpl; rewrite !Z.add_0_r; done.
    + apply lookup_app_Some in Hj as [Hj|[_ Hj]]; [eauto|].
      apply list_lookup_singleton_Some in Hj as [_ <-]. by destruct pol.
    + apply lookup_app_Some in Hj as [Hj|[_ Hj]]; [eauto|].
      apply list_lookup_singleton_Some in Hj as [_ <-]. by destruct pol.
  - destruct x as [r act sl fr cs lg], V as [V1 V2 V3 V4 V5 V6 V7]. simpl in *. simplify_eq.
    destruct (remove_abs r id p V1) as [W ER].
    constructor; simpl in *; try done. intros j d Hj Hd. rewrite ER. case_decide; [|eauto].
    destruct (decide (id = cid d)) as [->|]; [by rewrite lookup_delete_eq|].
    rewrite lookup_delete_ne by done. eauto.
Qed.

Lemma spawn_reachable_inv r0 x : m_wf r0 → spawn_reachable r0 x → spawn_inv x.
Proof.
  intros W. induction 1 as [|x l x' _ IH E]; [|by eapply spawn_exec_inv].
  constructor; simpl; try done; set_solver.
Qed.

(** [C21] One construction per id at a time, none in vain.  For any number of
    concurrent SpawnNamed and getOrSpawn calls, interleaved with actors leaving
    the registry: two callers are never inside the reservation of the same id,
    the producer for an id runs only while the id is free, and the processor it
    builds is the one that gets registered (a duplicate never constructs an
    unused actor). *)
Theorem spawn_exclusive (r0 : M) x (Hr0 : m_wf r0) (Hr : spawn_reachable r0 x) :
  (∀ i j c d k k', callers x !! i = Some c → callers x !! j = Some d →
     inside (cpc c) = Some k → inside (cpc d) = Some k' → cid c = cid d → i = j) ∧
  (∀ i c k, callers x !! i = Some c → cpc c = SBuild k → lookup_proc (procs x) (cid c) = None) ∧
  (∀ i c k p, callers x !! i = Some c → cpc c = SRegister k p →
     (register (procs x) (cid c) p).1 = (p, true)) ∧
  (∀ id p, EUnused id p ∉ log x).
Proof.
  pose proof (spawn_reachable_inv r0 x Hr0 Hr) as V. split_and!.
  - intros i j c d k k' Hi Hj. by apply inside_unique with (x := x).
  - intros i c k Hi Hp. rewrite lookup_proc_abs by apply V.
    apply (sv_absent _ V i c Hi). by rewrite Hp.
  - intros i c k p Hi Hp. destruct (register_abs (procs x) (cid c) p (sv_wf _ V)) as (_ & -> & _).
    by rewrite (sv_absent _ V i c Hi) by (by rewrite Hp).
  - apply V.
Qed.

Lemma caller_free x i c : callers x !! i = Some c → (∀ r, cpc c ≠ SReturned r) → (∀ k, cpc c ≠ SWait k) →
  (∀ k, cpc c ≠ SBuild k) → ∃ x', spawn_exec (LCaller i) x = Some x'.
Proof.
  intros Hi Hne Hw Hb. destruct x as [r act sl fr cs lg]. simpl in *. rewrite Hi.
  destruct (cpc c) as [| |k|k|k|k p|k p|k res|k res|res] eqn:Hp; try (by eexists).
  - destruct (lookup_proc _ _); by eexists.
  - destruct (reserve _ _ _) as [[? ?] ?]. by eexists.
  - by destruct (Hw k).
  - destruct (lookup_proc _ _), (cpolicy c); by eexists.
  - by destruct (Hb k).
  - destruct (register _ _ _) as [[? []] ?]; by eexists.
  - destruct (release _ _ _ _). by eexists.
  - by destruct (Hne res).
Qed.

Lemma producer_free x i c k : callers x !! i = Some c → cpc c = SBuild k →
  ∃ x', spawn_exec (LProducer i false) x = Some x'.
Proof.
  intros Hi Hk. destruct x as [r act sl fr cs lg], c as [id pol p]. simpl in *. subst p.
  rewrite Hi. by eexists.
Qed.

(** A caller that has not returned can step, or is in its producer, or waits for
    the slot of its id, whose holder can step or is in its producer. *)
Definition moves x (i : nat) : Prop := ∃ x', spawn_exec (LCaller i) x = Some x'.
Definition producing x (i : nat) (c : caller) (k : nat) : Prop := callers x !! i = Some c ∧ cpc c = SBuild k.

Lemma holder_moves x i c : callers x !! i = Some c → (∀ r, cpc c ≠ SReturned r) → (∀ k, cpc c ≠ SWait k) →
  moves x i ∨ ∃ k, producing x i c k.
Proof.
  intros Hi Hne Hw. destruct (cpc c) as [| |k|k|k|k p|k p|k res|k res|res] eqn:Hp;
    try (left; apply (caller_free x i c Hi); rewrite Hp; done).
  right. exists k. by split.
Qed.

Lemma caller_moves x i c : spawn_inv x → callers x !! i = Some c → (∀ r, cpc c ≠ SReturned r) →
  moves x i ∨ (∃ k, producing x i c k) ∨
  ∃ k j d, cpc c = SWait k ∧ callers x !! j = Some d ∧ inside (cpc d) = Some k ∧ cid d = cid c ∧
    (moves x j ∨ producing x j d k).
Proof.
  intros V Hi Hne. destruct (cpc c) as [| |k|k|k|k p|k p|k res|k res|res] eqn:Hp;
    try (destruct (holder_moves x i c Hi) as [H|H]; [by rewrite Hp|by rewrite Hp|by left|by right; left]).
  pose proof (sv_caller _ V i c k Hi ltac:(by rewrite Hp)) as Hk.
  destruct (sv_active _ V _ _ Hk) as (s & Hs & _).
  destruct (sv_slots _ V _ _ Hs) as [_ HT]. destruct (slocked s) eqn:Hl.
  - right; right. destruct (sum_of_pos_elem (λ c, if locks k c then 1 else 0) (callers x)) as (j & d & Hj & Hd).
    { fold (tally (locks k) (callers x)). lia. }
    destruct (locks k d) eqn:Hd'; [|lia]. apply bool_decide_eq_true in Hd'.
    exists k, j, d. do 3 (split; [done|]). split.
    { apply (sv_inj _ V _ _ k); [|done]. apply (sv_caller _ V j d k Hj). by apply inside_slot. }
    destruct (holder_moves x j d Hj) as [H|[k' [_ H]]];
      [by intros r Hr'; rewrite Hr' in Hd'|by intros k' Hk'; rewrite Hk' in Hd'|by left|].
    right. split; [done|]. rewrite H in Hd'. cbn in Hd'. congruence.
  - left. destruct x as [r act sl fr cs lg]. unfold moves. simpl in *. rewrite Hi, Hp, Hs, Hl. by eexists.
Qed.

(** Reservations do not leak.  A slot counts exactly the callers that hold or
    wait for it, and when all callers have returned no slot is left. *)
Theorem spawn_slots (r0 : M) x (Hr0 : m_wf r0) (Hr : spawn_reachable r0 x) :
  (∀ id k, active x !! id = Some k →
     ∃ s, slots x !! k = Some s ∧ users s = tally (uses k) (callers x) ∧ 0 < users s) ∧
  ((∀ i c, callers x !! i = Some c → ∃ r, cpc c = SReturned r) → active x = ∅).
Proof.
  pose proof (spawn_reachable_inv r0 x Hr0 Hr) as V.
  split.
  - intros id k Hk. destruct (sv_active _ V _ _ Hk) as (s & Hs & ?). exists s.
    destruct (sv_slots _ V _ _ Hs). done.
  - intros Hall. apply map_empty. intros id. destruct (active x !! id) as [k|] eqn:Hk; [|done].
    destruct (sv_active _ V _ _ Hk) as (s & Hs & Hpos). destruct (sv_slots _ V _ _ Hs) as [HU _].
    rewrite (tally_none (uses k)) in HU; [lia|]. intros i c Hi. unfold uses.
    destruct (Hall i c Hi) as [r ->]. by apply bool_decide_eq_false_2.
Qed.

(** ** Every spawn returns *)

(** The steps a caller still has to take. *)
Definition caller_rank (c : caller) : Z :=
  match cpc c with
  | SLookup0 => 9 | SReserve => 8 | SWait _ => 7 | SLookup _ => 6 | SBuild _ => 5
  | SRegister _ _ => 4 | SInit _ _ => 3 | SUnlock _ _ => 2 | SRelease _ _ => 1 | SReturned _ => 0
  end.
Definition spawn_rank x : Z := sum_of caller_rank (callers x).

Definition caller_step (l : spawn_label) : bool :=
  match l with LCaller _ | LProducer _ _ => true | _ => false end.
Definition no_new_call (l : spawn_label) : Prop := match l with LCall _ _ => False | _ => True end.
Definition all_spawned x : Prop := ∀ i c, callers x !! i = Some c → ∃ r, cpc c = SReturned r.

Lemma caller_rank_bounds c : 0 ≤ caller_rank c ≤ 9.
Proof. unfold caller_rank. destruct (cpc c); lia. Qed.

Lemma spawn_rank_step l x x' : no_new_call l → spawn_exec l x = Some x' →
  spawn_rank x' + (if caller_step l then 1 else 0) ≤ spawn_rank x.
Proof.
  intros Hl E. destruct x as [r act sl fr cs lg].
  assert (∀ i c p, cs !! i = Some c → callers x' = <[i := Caller (cid c) (cpolicy c) p]> cs →
      caller_rank (Caller (cid c) (cpolicy c) p) < caller_rank c →
      sum_of caller_rank (callers x') + 1 ≤ sum_of caller_rank cs) as Hto.
  { intros i c p Hi -> Hlt. rewrite (sum_of_insert _ _ _ c) by done. lia. }
  unfold caller_rank in Hto. unfold spawn_rank. destruct l as [i|i b|pol id|id p]; [| |done|].
  - simpl in *. destruct (cs !! i) as [c|] eqn:Hi; [|done]. specialize (Hto i c).
    destruct (cpc c) eqn:Hp; repeat case_match; simplify_eq/=; eapply Hto; try reflexivity; try done; lia.
  - simpl in *. destruct (cs !! i) as [[id pol []]|] eqn:Hi; try done. specialize (λ p, Hto i _ p Hi) as Hto'.
    destruct b; injection E as <-; (eapply Hto'; [reflexivity|simpl; lia]).
  - simpl in *. simplify_eq. simpl. lia.
Qed.

(** Some caller has a step left: its own, or its producer's end. *)
Lemma spawn_moves x : spawn_inv x →
  all_spawned x ∨ ∃ l x', caller_step l = true ∧ no_new_call l ∧ spawn_exec l x = Some x'.
Proof.
  intros V. assert (∀ i c k, producing x i c k → ∃ l x', caller_step l = true ∧ no_new_call l ∧ spawn_exec l x = Some x') as Hp.
  { intros i c k [Hi Hk]. destruct (producer_free x i c k Hi Hk) as [x' E]. by exists (LProducer i false), x'. }
  assert (∀ i, moves x i → ∃ l x', caller_step l = true ∧ no_new_call l ∧ spawn_exec l x = Some x') as Hm.
  { intros i [x' E]. by exists (LCaller i), x'. }
  destruct (decide (0 < spawn_rank x)) as [Hpos|Hpos].
  - right. destruct (sum_of_pos_elem _ _ Hpos) as (i & c & Hi & Hc).
    destruct (caller_moves x i c V Hi) as [H|[[k H]|(k & j & d & _ & _ & _ & _ & [H|H])]]; eauto.
    intros r Hr. unfold caller_rank in Hc. rewrite Hr in Hc. lia.
  - left. intros i c Hi.
    pose proof (sum_of_elem caller_rank (callers x) i c (λ c, proj1 (caller_rank_bounds c)) Hi) as H.
    unfold spawn_rank in Hpos. unfold caller_rank in H at 1. destruct (cpc c); try lia. by eexists.
Qed.

(** [C22] Every spawn returns, unless a producer of its own id does not.  However
    the callers are interleaved with each other, with the producers (which return
    or panic whenever they like, may never end, and may spawn themselves: one
    more caller) and with actors that leave the registry: the callers under way
    take at most nine steps each, the end of their producer included.  When none
    of them can move, each has returned, or is inside its own producer, or waits
    for the reservation of its id while another caller is inside the producer for
    that very id; so nothing but a producer still running ever holds a spawn up,
    never a lost lock, and only callers of the same id; a producer that spawns its
    own id is among those held up.  If all producers end, all return. *)
Theorem spawn_returns (r0 : M) x (Hr0 : m_wf r0) (Hr : spawn_reachable r0 x) :
  (∀ ls x', Forall no_new_call ls → spawn_run ls x = Some x' →
     own_steps caller_step ls ≤ 9 * Z.of_nat (length (callers x))) ∧
  ((∀ i, ¬ moves x i) → ∀ i c, callers x !! i = Some c →
     (∃ r, cpc c = SReturned r) ∨ (∃ k, cpc c = SBuild k) ∨
     ∃ k j d, cpc c = SWait k ∧ callers x !! j = Some d ∧ cpc d = SBuild k ∧ cid d = cid c) ∧
  (∃ ls x', Forall (λ l, caller_step l = true ∧ no_new_call l) ls ∧ spawn_run ls x = Some x' ∧ all_spawned x').
Proof.
  pose proof (spawn_reachable_inv r0 x Hr0 Hr) as V.
  assert (∀ x, spawn_inv x → 0 ≤ spawn_rank x) as Hpos
    by (intros ? _; apply sum_of_nonneg; intros c; apply caller_rank_bounds).
  assert (∀ l x x', spawn_inv x → no_new_call l → spawn_exec l x = Some x' →
    spawn_inv x' ∧ spawn_rank x' + (if caller_step l then 1 else 0) ≤ spawn_rank x) as Hstep
    by (intros l y y' Vy Hl E; split; [by eapply spawn_exec_inv|by apply spawn_rank_step]).
  split_and!.
  - intros ls x' Hls E.
    destruct (runs_bounded spawn_exec caller_step no_new_call spawn_inv spawn_rank Hstep ls x x' V Hls E) as [V' Hle].
    pose proof (Hpos x' V'). enough (spawn_rank x ≤ 9 * Z.of_nat (length (callers x))) by lia.
    unfold spawn_rank. apply sum_of_upper. intros c. apply caller_rank_bounds.
  - intros Hs i c Hi. assert ((∃ r, cpc c = SReturned r) ∨ ∀ r, cpc c ≠ SReturned r) as [H|H]
      by (destruct (cpc c); (by left; eexists) || by right); [by left|right].
    destruct (caller_moves x i c V Hi H) as [Hm|[[k [_ Hp]]|(k & j & d & Hw & Hj & _ & Hid & [Hm|[_ Hp]])]].
    + by destruct (Hs i).
    + left. by exists k.
    + by destruct (Hs j).
    + right. by exists k, j, d.
  - by apply (runs_end spawn_exec caller_step no_new_call spawn_inv spawn_rank Hpos Hstep all_spawned spawn_moves).
Qed.
End spawn.

(** ** A concrete run *)

(** An explicit spawn and a cluster activation race for one id; the loser
    waits in the reservation and reuses the winner's processor. *)
Definition race : list spawn_label :=
  [LCall SpawnNew "g/k/a"; LCall GetOrSpawn "g/k/a";
   LCaller 1; LCaller 0; LCaller 1;                (* both reserve the slot *)
   LCaller 0; LCaller 0; LProducer 0 false;        (* 0 locks, looks up, builds *)
   LCaller 0; LCaller 0; LCaller 0;                (* registers, init, unlock *)
   LCaller 1; LCaller 1; LCaller 1;                (* 1 locks, finds it, unlocks *)
   LCaller 0; LCaller 1].

Definition race_prefix : list spawn_label := take 8 race.

Definition run_from_empty (ls : list spawn_label) : option (spawner _) :=
  spawn_run ls (spawn_initial (newRegistry (P := nat))).

Lemma run_from_empty_reachable ls x :
  run_from_empty ls = Some x → spawn_reachable newRegistry x.
Proof. apply spawn_run_reachable. constructor. Qed.

Lemma race_outcome :
  option_map (λ x, (map cpc (callers x), log x, active x)) (run_from_empty race) =
  Some ([SReturned (RProc 0); SReturned (RProc 0)],
        [EBuilt "g/k/a" 0; EPublished "g/k/a" 0; EInited 0], ∅).
Proof. vm_compute. reflexivity. Qed.

Definition demo_spawner (ls : list spawn_label) : spawner (list (gmap string nat)) :=
  default (spawn_initial newRegistry) (run_from_empty ls).

Lemma demo_spawner_reachable ls :
  match run_from_empty ls with Some _ => true | None => false end = true →
  spawn_reachable newRegistry (demo_spawner ls).
Proof. intros H. apply (run_from_empty_reachable ls). by apply some_default. Qed.

Lemma spawn_exclusive_witness :
  let x := demo_spawner race_prefix in
  callers x !! 0%nat = Some (Caller "g/k/a" SpawnNew (SRegister 0 0)) ∧
  (register (procs x) "g/k/a" 0%nat).1 = (0%nat, true).
Proof.
  intros x.
  assert (spawn_reachable newRegistry x) as Hr
    by (apply demo_spawner_reachable; vm_compute; reflexivity).
  assert (callers x !! 0%nat = Some (Caller "g/k/a" SpawnNew (SRegister 0 0))) as Hc
    by (vm_compute; reflexivity).
  split; [exact Hc|].
  destruct (spawn_exclusive newRegistry x registry_wf Hr) as (_ & _ & H & _).
  exact (H 0%nat _ 0%nat 0%nat Hc eq_refl).
Defined.

Lemma spawn_slots_witness : active (demo_spawner race) = ∅.
Proof.
  assert (spawn_reachable newRegistry (demo_spawner race)) as Hr
    by (apply demo_spawner_reachable; vm_compute; reflexivity).
  destruct (spawn_slots newRegistry (demo_spawner race) registry_wf Hr) as (_ & H).
  assert (callers (demo_spawner race) = [Caller "g/k/a" SpawnNew (SReturned (RProc 0));
    Caller "g/k/a" GetOrSpawn (SReturned (RProc 0))]) as E by (vm_compute; reflexivity).
  apply H. intros i c Hi. rewrite E in Hi.
  destruct i as [|[|i]]; cbn in Hi; try discriminate Hi; injection Hi as <-; eexists; reflexivity.
Defined.

(** A producer that spawns its own id: its caller stays in the producer and the
    nested call in the reservation, for ever, the slot mutex not being
    reentrant. *)
Definition own_id : list spawn_label :=
  [LCall SpawnNew "g/k/a"; LCaller 0; LCaller 0; LCaller 0; LCall GetOrSpawn "g/k/a"; LCaller 1; LCaller 1].

Lemma own_id_blocks : let x := demo_spawner own_id in
  map cpc (callers x) = [SBuild 0; SWait 0] ∧ spawn_step 0 x = None ∧ spawn_step 1 x = None.
Proof. vm_compute. auto. Qed.

(** Both callers of the race under way: 18 steps and both have a result; and
    the self-spawning producer: the nested call waits for it. *)
Lemma spawn_returns_witness : let x := demo_spawner race_prefix in
  (∀ ls x', Forall no_new_call ls → spawn_run ls x = Some x' → own_steps caller_step ls ≤ 18) ∧
  (∃ ls x', spawn_run ls x = Some x' ∧ all_spawned x') ∧
  ∃ k j d, SWait 0 = SWait k ∧ callers (demo_spawner own_id) !! j = Some d ∧ cpc d = SBuild k ∧ cid d = "g/k/a".
Proof.
  intros x. assert (spawn_reachable newRegistry x) as Hr
    by (apply demo_spawner_reachable; vm_compute; reflexivity).
  assert (length (callers x) = 2%nat) as Hl by (vm_compute; reflexivity).
  destruct (spawn_returns newRegistry x registry_wf Hr) as (H1 & _ & ls & x' & _ & H2 & H3).
  rewrite Hl in H1. split; [exact H1|]. split; [exists ls, x'; split; [exact H2|exact H3]|].
  assert (spawn_reachable newRegistry (demo_spawner own_id)) as Hr'
    by (apply demo_spawner_reachable; vm_compute; reflexivity).
  destruct (spawn_returns newRegistry (demo_spawner own_id) registry_wf Hr') as (_ & H & _).
  destruct (H ltac:(intros [|[|i]] [x'' E]; vm_compute in E; discriminate E) 1%nat
    (Caller "g/k/a" GetOrSpawn (SWait 0)) ltac:(vm_compute; reflexivity)) as [[r Hc]|[[k Hc]|Hc]];
    [discriminate Hc|discriminate Hc|exact Hc].
Defined.
