(* ===== verification/Etcd.v ===== *)
(** * etcd, as the program uses it

    etcd is a service: what provider_etcd.go calls is a parameter, the class
    [EtcdClient], with the documented effect of each call on the key space as
    its laws.  A call may fail, and a transaction whose commit failed may have
    been applied all the same (the answer was lost).  [sim_etcd] is a concrete
    client whose failures are scripted. *)

From S2P Require Import Prelude.
From S2P Require Import GoStrings.
Open Scope Z_scope.

Record entry : Type := Entry { evalue : string; elease : Z }.

#[export] Instance entry_eq_dec : EqDecision entry.
Proof. solve_decision. Defined.

Abbreviation keyspace := (gmap string entry).

(** The two comparisons and the two operations the program builds. *)
Inductive Cmp : Type :=
| CreateRevisionIsZero (key : string)
| ValueIs (key val : string).

Inductive Op : Type :=
| OpPut (key val : string) (lease : Z)
| OpDelete (key : string).

Record Txn : Type := MkTxn { tIf : Cmp; tThen : Op }.

Definition cmp_holds (c : Cmp) (m : keyspace) : bool :=
  match c with
  | CreateRevisionIsZero key => bool_decide (m !! key = None)
  | ValueIs key val => bool_decide (evalue <$> m !! key = Some val)
  end.

Definition apply_op (o : Op) (m : keyspace) : keyspace :=
  match o with
  | OpPut key val lease => <[key := Entry val lease]> m
  | OpDelete key => delete key m
  end.

Definition apply_txn (t : Txn) (m : keyspace) : keyspace :=
  if cmp_holds (tIf t) m then apply_op (tThen t) m else m.

(** The keys bound to a lease go with it. *)
Definition without_lease (lease : Z) (m : keyspace) : keyspace :=
  filter (λ kv, elease kv.2 ≠ lease) m.

Definition with_prefix (p : string) (m : keyspace) : keyspace :=
  filter (λ kv, has_prefix p kv.1 = true) m.

(** The state [E] holds the key space and whatever decides which calls fail. *)
Class EtcdClient (E : Type) := {
  store : E → keyspace;
  revision : E → Z;
  Commit : Txn → E → option bool * E;             (* None: an error *)
  Put : string → string → Z → E → bool * E;       (* key, value, lease *)
  Delete : string → E → bool * E;
  Get : string → E → option (option string) * E;
  GetPrefix : string → E → option (list (string * string) * Z) * E;
  Grant : Z → E → option Z * E;                   (* ttl; the lease *)
  Revoke : Z → E → bool * E;
  Commit_law : ∀ t e, let '(r, e') := Commit t e in
    match r with
    | Some b => b = cmp_holds (tIf t) (store e) ∧ store e' = apply_txn t (store e)
    | None => store e' = store e ∨ store e' = apply_txn t (store e)
    end;
  Put_law : ∀ k v l e, let '(ok, e') := Put k v l e in
    store e' = <[k := Entry v l]> (store e) ∨ (ok = false ∧ store e' = store e);
  Delete_law : ∀ k e, let '(ok, e') := Delete k e in
    store e' = delete k (store e) ∨ (ok = false ∧ store e' = store e);
  Get_law : ∀ k e, let '(r, e') := Get k e in
    store e' = store e ∧ ∀ v, r = Some v → v = evalue <$> store e !! k;
  GetPrefix_law : ∀ p e, let '(r, e') := GetPrefix p e in
    store e' = store e ∧
    ∀ kvs rev, r = Some (kvs, rev) →
      rev = revision e ∧ list_to_map kvs = evalue <$> with_prefix p (store e) ∧ NoDup kvs.*1;
  Grant_law : ∀ ttl e, let '(r, e') := Grant ttl e in
    store e' = store e ∧
    ∀ l, r = Some l → l ≠ 0 ∧ ∀ k v, store e !! k = Some v → elease v ≠ l;
  Revoke_law : ∀ l e, let '(ok, e') := Revoke l e in
    store e' = without_lease l (store e) ∨ (ok = false ∧ store e' = store e)
}.

(** ** A scripted client *)

Inductive fate : Type := Answered | Failed | AnswerLost.

Record sim : Type := Sim { skeys : keyspace; srev : Z; sfates : list fate; slease : Z }.

Definition sim_call (e : sim) (f : keyspace → keyspace) : bool * sim :=
  let 'Sim m r fs l := e in
  match fs with
  | Failed :: fs => (false, Sim m r fs l)
  | AnswerLost :: fs => (false, Sim (f m) (r + 1) fs l)
  | Answered :: fs => (true, Sim (f m) (r + 1) fs l)
  | [] => (true, Sim (f m) (r + 1) [] l)
  end.

Definition sim_read {A} (e : sim) (a : A) : option A * sim :=
  let 'Sim m r fs l := e in
  match fs with
  | [] => (Some a, e)
  | Answered :: fs => (Some a, Sim m r fs l)
  | _ :: fs => (None, Sim m r fs l)
  end.

Definition sim_commit (t : Txn) (e : sim) : option bool * sim :=
  let '(ok, e') := sim_call e (apply_txn t) in
  (if ok then Some (cmp_holds (tIf t) (skeys e)) else None, e').

(** Leases count up from above every lease in use. *)
Definition sim_next_lease (e : sim) : Z :=
  foldr (λ kv n, Z.max (elease kv.2 + 1) n) (Z.max 1 (slease e)) (map_to_list (skeys e)).

Definition sim_grant (e : sim) : option Z * sim :=
  let l := sim_next_lease e in
  let '(r, e') := sim_read e l in
  (r, Sim (skeys e') (srev e') (sfates e') (l + 1)).

Lemma sim_call_store e f : let '(ok, e') := sim_call e f in
  skeys e' = f (skeys e) ∨ (ok = false ∧ skeys e' = skeys e).
Proof. destruct e as [m r [|[] fs] l]; simpl; auto. Qed.

Lemma sim_read_store {A} e (a : A) :
  skeys (sim_read e a).2 = skeys e ∧ ∀ b, (sim_read e a).1 = Some b → b = a.
Proof. destruct e as [m r [|[] fs] l]; simpl; naive_solver. Qed.

Lemma sim_next_lease_fresh e :
  1 ≤ sim_next_lease e ∧ ∀ k v, skeys e !! k = Some v → elease v < sim_next_lease e.
Proof.
  unfold sim_next_lease.
  assert (∀ l : list (string * entry), let n := foldr (λ kv n, Z.max (elease kv.2 + 1) n) (Z.max 1 (slease e)) l in
    1 ≤ n ∧ ∀ kv, kv ∈ l → elease kv.2 < n) as H.
  { induction l as [|kv l [IH1 IH2]]; simpl; [split; [lia|set_solver]|].
    split; [lia|]. intros kv' [->|Hin]%elem_of_cons; [lia|]. specialize (IH2 _ Hin). lia. }
  destruct (H (map_to_list (skeys e))) as [H1 H2]. split; [done|].
  intros k v Hk. apply (H2 (k, v)). by apply elem_of_map_to_list.
Qed.

#[export] Program Instance sim_etcd : EtcdClient sim := {|
  store := skeys;
  revision := srev;
  Commit := sim_commit;
  Put k v l e := sim_call e <[k := Entry v l]>;
  Delete k e := sim_call e (delete k);
  Get k e := sim_read e (evalue <$> skeys e !! k);
  GetPrefix p e := sim_read e (map_to_list (evalue <$> with_prefix p (skeys e)), srev e);
  Grant ttl e := sim_grant e;
  Revoke l e := sim_call e (without_lease l)
|}.
Next Obligation.
  intros t e. unfold sim_commit. destruct e as [m r [|[] fs] l]; simpl; auto.
Qed.
Next Obligation. intros k v l e. apply sim_call_store. Qed.
Next Obligation. intros k e. apply sim_call_store. Qed.
Next Obligation.
  intros k e. pose proof (sim_read_store e (evalue <$> skeys e !! k)) as [H1 H2].
  destruct (sim_read e _) as [r e']. simpl in *. split; [done|]. intros v ->. by apply H2.
Qed.
Next Obligation.
  intros p e. pose proof (sim_read_store e (map_to_list (evalue <$> with_prefix p (skeys e)), srev e)) as [H1 H2].
  destruct (sim_read e _) as [r e']. simpl in *. split; [done|]. intros kvs rev ->.
  specialize (H2 _ eq_refl). simplify_eq.
  split_and!; [done|by rewrite list_to_map_to_list|apply NoDup_fst_map_to_list].
Qed.
Next Obligation.
  intros ttl e. unfold sim_grant. pose proof (sim_read_store e (sim_next_lease e)) as [H1 H2].
  destruct (sim_read e _) as [r e']. simpl in *. split; [done|]. intros l ->.
  specialize (H2 _ eq_refl) as ->. destruct (sim_next_lease_fresh e) as [H3 H4].
  split; [lia|]. intros k v Hk. specialize (H4 k v Hk). lia.
Qed.
Next Obligation. intros l e. apply sim_call_store. Qed.
