(* ===== verification/Provider.v ===== *)
(** * provider_etcd.go: membership, leases and watches

    One node's etcd provider as a state-passing machine over any [EtcdClient].
    [env n] is what the rest of the cluster does to etcd before the provider's
    [n]-th call, so every theorem holds for any interleaving with other nodes.
    Go's iteration order over a map is [map_range], a fresh order per loop. *)

From S2P Require Import Prelude.
From S2P Require Import GoStrings.
From S2P Require Import ActorId.
From S2P Require Import Config.
From S2P Require Import Uuid.
From S2P Require Import Etcd.
Open Scope Z_scope.

(** encoding/json on a member record. *)
Class JsonCodec := {
  json_Marshal : tNodeState → string;
  json_Unmarshal : string → option tNodeState;
  json_ok : tNodeState → Prop;                  (* e.g. its strings are UTF-8 *)
  json_roundtrip : ∀ s, json_ok s → json_Unmarshal (json_Marshal s) = Some s
}.

(** What ranging over [nodeMap] yields: the [n]-th loop's order is arbitrary. *)
Class MapRange := {
  map_range : nat → gmap string tNodeState → list (string * tNodeState);
  map_range_perm : ∀ n m, map_range n m ≡ₚ map_to_list m
}.

Inductive EventType : Type := EvPUT | EvDELETE.

(** [nodesSnapshot]. *)
Record nodesSnapshot : Type := MkSnapshot { sversion : Z; snodes : list tNodeState }.

(** What the provider makes happen outside itself. *)
Inductive provider_effect : Type :=
| PForceStop
| PMembersChanged           (* clusterMemberChangedListener *)
| PSystemInit (id : Z)      (* system.init *)
| PCallback (op : EventType) (key val : string).  (* the f of a watch *)

(** The members of tNodeState that the program relies on being distinct are its
    id and its address. *)
Record provider : Type := MkProvider {
  leaseId : Z;
  client : bool;                 (* client != nil *)
  cancelFunc : bool;             (* cancelFunc != nil *)
  stopping : bool;
  localProviderVersion : Z;
  nodeMap : gmap string tNodeState;
  nodes : option nodesSnapshot;
  ranges : nat                   (* loops over nodeMap so far *)
}.

Definition set_lease l x := MkProvider l (client x) (cancelFunc x) (stopping x) (localProviderVersion x) (nodeMap x) (nodes x) (ranges x).
Definition set_client b x := MkProvider (leaseId x) b (cancelFunc x) (stopping x) (localProviderVersion x) (nodeMap x) (nodes x) (ranges x).
Definition set_cancel b x := MkProvider (leaseId x) (client x) b (stopping x) (localProviderVersion x) (nodeMap x) (nodes x) (ranges x).
Definition set_stopping b x := MkProvider (leaseId x) (client x) (cancelFunc x) b (localProviderVersion x) (nodeMap x) (nodes x) (ranges x).
Definition set_version v x := MkProvider (leaseId x) (client x) (cancelFunc x) (stopping x) v (nodeMap x) (nodes x) (ranges x).
Definition set_nodeMap m x := MkProvider (leaseId x) (client x) (cancelFunc x) (stopping x) (localProviderVersion x) m (nodes x) (ranges x).

Definition newProvider : provider := MkProvider 0 false false false 0 ∅ None 0.

(** "The member id is the last path segment." *)
Definition member_id (key : string) : string :=
  let i := LastIndexByte key "/" in
  if decide (0 ≤ i) then str_drop (Z.to_nat (i + 1)) key else key.

Section provider.
Context `{Env : GoEnv} {Json : JsonCodec} {Range : MapRange} {E : Type} {Etcd : EtcdClient E}.
Implicit Types (x : provider) (e : E) (cfg : config Env).

(** ** The member table *)

Definition applyMemberLocked (op : EventType) (key value : string) x : provider :=
  let x := set_version (localProviderVersion x +i64 1)%go x in
  let key := member_id key in
  match op with
  | EvDELETE => set_nodeMap (delete key (nodeMap x)) x
  | EvPUT =>
      match json_Unmarshal value with
      | None => set_nodeMap (delete key (nodeMap x)) x
      | Some a => set_nodeMap (<[key := a]> (nodeMap x)) x
      end
  end.

Definition publishNodesLocked x : provider :=
  MkProvider (leaseId x) (client x) (cancelFunc x) (stopping x) (localProviderVersion x) (nodeMap x)
    (Some (MkSnapshot (localProviderVersion x) (map_range (ranges x) (nodeMap x)).*2)) (S (ranges x)).

Definition parseWatch (op : EventType) (key value : string) x : provider :=
  publishNodesLocked (applyMemberLocked op key value x).

Definition GetNodesVersion x : Z := localProviderVersion x.

Definition GetNodes x : list tNodeState * Z :=
  match nodes x with
  | Some snap => (snodes snap, sversion snap)
  | None => ([], localProviderVersion x)
  end.

(** The locked section of [loadMembers]: the whole batch, then one publication. *)
Definition applyMembers (kvs : list (string * string)) x : provider :=
  publishNodesLocked (foldl (λ x kv, applyMemberLocked EvPUT kv.1 kv.2 x) x kvs).

Definition loadMembers cfg x e : option Z * provider * E :=
  match GetPrefix (getMemberPrefix cfg) e with
  | (None, e) => (None, x, e)
  | (Some (kvs, rev), e) => (Some rev, applyMembers kvs x, e)
  end.

(** ** Locks *)

Definition setTxn (key val : string) x e : bool * E :=
  match Commit (MkTxn (CreateRevisionIsZero key) (OpPut key val (leaseId x))) e with
  | (None, e) => (false, e)          (* logged: an etcd error, not a lost race *)
  | (Some succeeded, e) => (succeeded, e)
  end.

Definition removeTxn (key val : string) x e : bool * E :=
  match Commit (MkTxn (ValueIs key val) (OpDelete key)) e with
  | (None, e) => (false, e)
  | (Some succeeded, e) => (succeeded, e)
  end.

(** ** Claiming a node id *)

Definition registerRounds : nat := 16.

Definition freeNodeIds x : list Z :=
  filter (λ id, nodeMap x !! FormatUint id = None) (seqZ 1 MaxNodeMax).

Inductive register_error : Type := AllIdsInUse | LoadFailed | LostRace.

Definition register_result : Type := Z + register_error.

(** The loop of [register], [rounds] left.  [env n] is what happens to etcd
    before the [n]-th call, [rand n] the candidate drawn, [now n] the time
    written into the record. *)
Fixpoint register_loop (env : nat → E → E) (rand : nat → list Z → Z) (now : nat → string)
    (rounds : nat) (n : nat) (addr : string) cfg x e
    : register_result * config Env * provider * E * list provider_effect :=
  match rounds with
  | O => (inr LostRace, cfg, x, e, [])
  | S rounds =>
      match freeNodeIds x with
      | [] => (inr AllIdsInUse, cfg, x, e, [])
      | free =>
          let id := rand n free in
          let key := getMemberPath cfg id in
          let '(st, cfg) := init cfg addr id (now n) in
          let s := json_Marshal st in
          match setTxn key s x (env n e) with
          | (false, e) =>
              match loadMembers cfg x (env (S n) e) with
              | (None, x, e) => (inr LoadFailed, cfg, x, e, [])
              | (Some _, x, e) => register_loop env rand now rounds (S (S n)) addr cfg x e
              end
          | (true, e) => (inl id, cfg, parseWatch EvPUT key s x, e, [PSystemInit id])
          end
      end
  end.

Definition register (env : nat → E → E) (rand : nat → list Z → Z) (now : nat → string) (n : nat)
    (addr : string) cfg x e : register_result * config Env * provider * E * list provider_effect :=
  register_loop env rand now registerRounds n addr cfg x e.

(** ** Starting and stopping *)

(** [releaseEtcd]; a failing Revoke or Close is only logged. *)
Definition releaseEtcd (revokeLease : bool) x e : provider * E :=
  let x := if cancelFunc x then set_cancel false x else x in
  let '(x, e) :=
    if client x && negb (bool_decide (leaseId x = 0)) then
      let e := if revokeLease then (Revoke (leaseId x) e).2 else e in
      (set_lease 0 x, e)
    else (x, e) in
  (if client x then set_client false x else x, e).

Definition stop_provider (revokeLease : bool) x e : provider * E :=
  releaseEtcd revokeLease (set_stopping true x) e.

Inductive start_error : Type :=
| CannotConnect | GrantFailed | KeepAliveFailed | FirstLoadFailed | RegisterFailed (r : register_error).

(** [start]: [connects] and [keeps] are whether clientv3.New and KeepAlive
    succeed.  The deferred release runs on every failure after the connection. *)
Definition start (env : nat → E → E) (rand : nat → list Z → Z) (now : nat → string)
    (connects keeps : bool) (addr : string) cfg x e
    : (Z + start_error) * config Env * provider * E * list provider_effect :=
  let x := publishNodesLocked (set_nodeMap ∅ (set_version 1 x)) in
  let failed err cfg x e effs := let '(x, e) := releaseEtcd true x e in (inr err, cfg, x, e, effs) in
  if negb connects then (inr CannotConnect, cfg, x, e, []) else
  let x := set_client true x in
  match Grant (etcdLeaseTTLSecond cfg) (env 0%nat e) with
  | (None, e) => failed GrantFailed cfg x e []
  | (Some lease, e) =>
      let x := set_cancel true (set_lease lease x) in
      if negb keeps then failed KeepAliveFailed cfg x e [] else
      match loadMembers cfg x (env 1%nat e) with
      | (None, x, e) => failed FirstLoadFailed cfg x e []
      | (Some rev, x, e) =>
          match register env rand now 2 addr cfg x e with
          | (inr err, cfg, x, e, effs) => failed (RegisterFailed err) cfg x e effs
          | (inl id, cfg, x, e, effs) => (inl rev, cfg, x, e, effs)  (* watchMembers(rev), keepAlive *)
          end
      end
  end.

(** ** The background goroutines *)

(** What a watch channel yields: a batch of events, or a terminal error. *)
Inductive WatchResponse : Type :=
| WEvents (evs : list (EventType * string * string))
| WErr.

(** [stopSystemOnWatchLoss] and the tail of [keepAlive]. *)
Definition stopSystemOnWatchLoss x : list provider_effect :=
  if stopping x then [] else [PForceStop].

(** The goroutine of [watchMembers] over the responses the channel yields before
    it closes. *)
Fixpoint watchMembers (wch : list WatchResponse) x : provider * list provider_effect :=
  match wch with
  | [] => (x, stopSystemOnWatchLoss x)
  | WErr :: _ => (x, stopSystemOnWatchLoss x)
  | WEvents evs :: wch =>
      let x := foldl (λ x ev, parseWatch ev.1.1 ev.1.2 ev.2 x) x evs in
      let '(x, effs) := watchMembers wch x in (x, PMembersChanged :: effs)
  end.

(** [keepAlive]: it drains the channel and acts when it closes. *)
Fixpoint keepAlive (ticks : nat) x : list provider_effect :=
  match ticks with
  | S ticks => keepAlive ticks x
  | O => if stopping x then [] else [PForceStop]
  end.

(** [watchEventStream] and [WatchNodeExtData]: the current entries as puts, then
    every event until the watch ends; a lost watch is only logged. *)
Fixpoint watch_callbacks (wch : list WatchResponse) : list provider_effect :=
  match wch with
  | [] | WErr :: _ => []
  | WEvents evs :: wch => map (λ ev, PCallback ev.1.1 ev.1.2 ev.2) evs ++ watch_callbacks wch
  end.

Definition watchEventStream (prefix : string) (wch : list WatchResponse) e
    : option (list provider_effect) * E :=
  match GetPrefix prefix e with
  | (None, e) => (None, e)
  | (Some (kvs, _), e) =>
      (Some (map (λ kv, PCallback EvPUT kv.1 kv.2) kvs ++ watch_callbacks wch), e)
  end.

Definition registerEventStream (path val : string) x e : bool * E := Put path val (leaseId x) e.
Definition unregisterEventStream (path : string) e : bool * E := Delete path e.

(** ** Per-node extension data *)

(** [rsp.Kvs] has at most the one key; an absent one reads as "". *)
Definition GetNodeExtData (subKey : string) cfg e : option string * E :=
  match Get (getMemberExtDataPath cfg subKey [NodeId (state cfg)]) e with
  | (None, e) => (None, e)
  | (Some (Some v), e) => (Some v, e)
  | (Some None, e) => (Some "", e)
  end.

Definition SetNodeExtData (subKey val : string) cfg x e : bool * E :=
  Put (getMemberExtDataPath cfg subKey [NodeId (state cfg)]) val (leaseId x) e.

Definition RemoveNodeExtData (subKey : string) cfg e : bool * E :=
  Delete (getMemberExtDataPath cfg subKey [NodeId (state cfg)]) e.

Definition WatchNodeExtData (subKey : string) (wch : list WatchResponse) cfg e
    : option (list provider_effect) * E :=
  watchEventStream (getMemberExtDataPath cfg subKey []) wch e.
End provider.

#[global] Arguments applyMemberLocked : simpl never.
#[global] Arguments publishNodesLocked : simpl never.
#[global] Arguments applyMembers : simpl never.
#[global] Arguments parseWatch : simpl never.
