(* ===== verification/ProviderView.v ===== *)
(** * The member table a node ends up with

    The history of the member prefix is a list of events; a load at revision
    [n] returns the store after the first [n] of them, a watch from [n + 1]
    delivers the rest in order. *)

From S2P Require Import Prelude.
From S2P Require Import GoStrings.
From S2P Require Import ActorId.
From S2P Require Import Config.
From S2P Require Import Provider.
Open Scope Z_scope.

Definition member_event : Type := EventType * string * string.

Definition ev_key (ev : member_event) : string := ev.1.2.

(** The key space an event history leaves. *)
Definition replay_event (m : gmap string string) (ev : member_event) : gmap string string :=
  match ev.1.1 with EvPUT => <[ev_key ev := ev.2]> m | EvDELETE => delete (ev_key ev) m end.

Definition replay (hist : list member_event) : gmap string string := foldl replay_event ∅ hist.

(** Keys written below a prefix with no further separator. *)
Definition flat (p key : string) : Prop := ∃ id, key = p +:+ id ∧ no_byte "/" id.

(** The prefix of a flat key ends in the separator. *)
Lemma member_id_flat q id : no_byte "/" id → member_id ((q +:+ "/") +:+ id) = id.
Proof.
  intros Hid. unfold member_id. rewrite str_app_assoc. change ("/" +:+ id) with (String "/" id).
  rewrite LastIndexByte_app by done. rewrite decide_True by lia.
  replace (Z.to_nat (Z.of_nat (String.length q) + 1)) with (String.length q + 1)%nat by lia.
  by rewrite str_drop_app.
Qed.

Lemma str_app_inj p a b : p +:+ a = p +:+ b → a = b.
Proof. induction p as [|c p IH]; simpl; [done|]. intros H. injection H. auto. Qed.

Section view.
Context `{Json : JsonCodec} {Range : MapRange}.
Implicit Types (x : provider) (hist : list member_event).

Definition record_of (v : option string) : option tNodeState := v ≫= json_Unmarshal.

(** What one change does to the table: the id it names, and only that. *)
Lemma applyMemberLocked_nodeMap op key v x id :
  nodeMap (applyMemberLocked op key v x) !! id =
    if decide (id = member_id key)
    then match op with EvPUT => json_Unmarshal v | EvDELETE => None end
    else nodeMap x !! id.
Proof.
  unfold applyMemberLocked. destruct op; simpl; [destruct (json_Unmarshal v)|]; simpl; case_decide; subst;
    by rewrite ?lookup_insert_eq, ?lookup_delete_eq, ?lookup_insert_ne, ?lookup_delete_ne by done.
Qed.

Lemma parseWatch_nodeMap op key v x :
  nodeMap (parseWatch op key v x) = nodeMap (applyMemberLocked op key v x).
Proof. done. Qed.

(** A table agrees with a store on the keys satisfying [P]. *)
Definition agrees (p : string) (P : string → Prop) (m : gmap string string) x : Prop :=
  ∀ id, P (p +:+ id) → nodeMap x !! id = record_of (m !! (p +:+ id)).

Section prefix.
Context (q : string).
Local Abbreviation p := (q +:+ "/").

Lemma flat_id key id : flat p key → (id = member_id key ↔ p +:+ id = key).
Proof.
  intros (id' & -> & Hid). rewrite member_id_flat by done. split; [by intros ->|apply str_app_inj].
Qed.

Lemma replay_event_flat hist : Forall (λ ev, flat p (ev_key ev)) hist →
  ∀ m, (∀ k, is_Some (m !! k) → flat p k) → ∀ k, is_Some (foldl replay_event m hist !! k) → flat p k.
Proof.
  induction 1 as [|ev hist Hev _ IH]; intros m Hm k; simpl; [apply Hm|]. apply IH. clear k.
  intros k. unfold replay_event. destruct ev.1.1.
  - destruct (decide (k = ev_key ev)) as [->|]; [done|]. rewrite lookup_insert_ne by done. apply Hm.
  - rewrite lookup_delete_is_Some. intros [_ ?]. by apply Hm.
Qed.

(** One event keeps a table that agrees with the store before it in agreement
    with the store after it, and repairs its own key. *)
Lemma parseWatch_agrees (P : string → Prop) m x ev : flat p (ev_key ev) → agrees p P m x →
  agrees p (λ k, P k ∨ k = ev_key ev) (replay_event m ev) (parseWatch ev.1.1 (ev_key ev) ev.2 x).
Proof.
  intros Hf Hx id Hid. rewrite parseWatch_nodeMap, applyMemberLocked_nodeMap.
  unfold replay_event. destruct (decide (id = member_id (ev_key ev))) as [E|E].
  - apply (flat_id _ _ Hf) in E. rewrite E.
    destruct ev.1.1; by rewrite ?lookup_insert_eq, ?lookup_delete_eq.
  - assert (p +:+ id ≠ ev_key ev) as Hne by (intros H; by apply E, (flat_id _ _ Hf)).
    destruct Hid as [Hid|]; [|done]. rewrite (Hx id Hid).
    destruct ev.1.1; by rewrite ?lookup_insert_ne, ?lookup_delete_ne by done.
Qed.

(** Replaying every event from a point on repairs every key they touch. *)
Lemma events_agree hist : Forall (λ ev, flat p (ev_key ev)) hist →
  ∀ m x (P : string → Prop), agrees p P m x →
  agrees p (λ k, P k ∨ k ∈ map ev_key hist) (foldl replay_event m hist)
    (foldl (λ x ev, parseWatch ev.1.1 ev.1.2 ev.2 x) x hist).
Proof.
  induction 1 as [|ev hist Hev _ IH]; intros m x P HP; simpl.
  - intros id [H|H]; [by apply HP|by apply not_elem_of_nil in H].
  - intros id Hid. eapply IH; [by apply (parseWatch_agrees P)|].
    rewrite elem_of_cons in Hid. tauto.
Qed.

(** A load overwrites what the store holds and keeps the rest. *)
Lemma applyMembers_nodeMap (m : gmap string string) kvs x id :
  (∀ k, is_Some (m !! k) → flat p k) → NoDup kvs.*1 → list_to_map kvs = m →
  nodeMap (applyMembers kvs x) !! id =
    match m !! (p +:+ id) with Some v => json_Unmarshal v | None => nodeMap x !! id end.
Proof.
  unfold applyMembers, publishNodesLocked. simpl. intros Hm Hnd <-. revert x Hm Hnd.
  induction kvs as [|[k v] kvs IH]; intros x Hm Hnd; simpl; [by rewrite lookup_empty|].
  apply NoDup_cons in Hnd as [Hk Hnd]. simpl in *.
  assert (flat p k) as Hf by (apply Hm; rewrite lookup_insert_eq; eauto).
  rewrite IH; [|intros k' Hk'; apply Hm; destruct (decide (k' = k)) as [->|];
    by rewrite ?lookup_insert_eq, ?lookup_insert_ne by done|done].
  rewrite applyMemberLocked_nodeMap. destruct (decide (id = member_id k)) as [E|E].
  - apply (flat_id _ _ Hf) in E. rewrite E, lookup_insert_eq.
    by rewrite (not_elem_of_list_to_map_1 (M := gmap string) kvs k Hk).
  - assert (p +:+ id ≠ k) by (intros H; by apply E, (flat_id _ _ Hf)). by rewrite lookup_insert_ne.
Qed.

(** ** What start does to the table before the watch takes over *)

Inductive member_op : Type :=
| MLoad (n : nat) (kvs : list (string * string))  (* a reload at revision n *)
| MOwn (ev : member_event).                       (* register's own PUT *)

Definition member_step x (o : member_op) : provider :=
  match o with
  | MLoad _ kvs => applyMembers kvs x
  | MOwn ev => parseWatch ev.1.1 ev.1.2 ev.2 x
  end.

(** The answer of a Get at revision [n]. *)
Definition snapshot_at hist (n : nat) (kvs : list (string * string)) : Prop :=
  NoDup kvs.*1 ∧ list_to_map kvs = replay (take n hist).

Definition op_ok hist (n0 : nat) (o : member_op) : Prop :=
  match o with
  | MLoad n kvs => (n0 ≤ n)%nat ∧ snapshot_at hist n kvs
  | MOwn ev => ev ∈ drop n0 hist
  end.

Lemma replay_untouched l m k : k ∉ map ev_key l → foldl replay_event m l !! k = m !! k.
Proof.
  revert m. induction l as [|ev l IH]; simpl; intros m Hk; [done|]. apply not_elem_of_cons in Hk as [H1 H2].
  rewrite IH by done. unfold replay_event. destruct ev.1.1; by rewrite ?lookup_insert_ne, ?lookup_delete_ne by done.
Qed.

Lemma replay_split hist n0 n : (n0 ≤ n)%nat →
  replay (take n hist) = foldl replay_event (replay (take n0 hist)) (take (n - n0) (drop n0 hist)).
Proof.
  intros H. unfold replay. rewrite <-foldl_app. f_equal.
  rewrite <-(take_drop n0 (take n hist)) at 1. rewrite take_take, Nat.min_l by done. f_equal.
  rewrite skipn_firstn_comm. done.
Qed.

Lemma replay_later hist n0 n k : (n0 ≤ n)%nat → k ∉ map ev_key (drop n0 hist) →
  replay (take n hist) !! k = replay (take n0 hist) !! k.
Proof.
  intros Hn Hk. rewrite (replay_split hist n0 n Hn). apply replay_untouched.
  intros H. apply Hk. rewrite <-(take_drop (n - n0) (drop n0 hist)), map_app. apply elem_of_app. by left.
Qed.

Lemma replay_flat hist n k : Forall (λ ev, flat p (ev_key ev)) hist →
  is_Some (replay (take n hist) !! k) → flat p k.
Proof.
  intros Hf. apply (replay_event_flat (take n hist)); [by apply Forall_take|].
  intros k'. rewrite lookup_empty. by intros [? ?].
Qed.

Lemma member_step_agrees hist n0 o x : Forall (λ ev, flat p (ev_key ev)) hist → op_ok hist n0 o →
  agrees p (λ k, k ∉ map ev_key (drop n0 hist)) (replay (take n0 hist)) x →
  agrees p (λ k, k ∉ map ev_key (drop n0 hist)) (replay (take n0 hist)) (member_step x o).
Proof.
  intros Hf Ho Hx id Hid. destruct o as [n kvs|ev]; cbn [member_step op_ok] in *.
  - destruct Ho as [Hn [Hnd Hl]].
    rewrite (applyMembers_nodeMap _ kvs x id (λ k, replay_flat hist n k Hf) Hnd Hl).
    rewrite (replay_later hist n0 n) by done.
    destruct (replay (take n0 hist) !! (p +:+ id)) eqn:E; simpl; [done|]. by rewrite (Hx id Hid), E.
  - rewrite parseWatch_nodeMap, applyMemberLocked_nodeMap, decide_False; [by apply Hx|].
    intros E. apply Hid. apply flat_id in E.
    + rewrite E. by apply (list_elem_of_fmap_2 ev_key).
    + rewrite Forall_forall in Hf. apply Hf.
      rewrite <-(take_drop n0 hist). apply elem_of_app. by right.
Qed.

(** ** Publication *)

(** The snapshot is of the current table, at the current version. *)
Definition published x : Prop :=
  ∃ l, nodes x = Some (MkSnapshot (localProviderVersion x) l) ∧ l ≡ₚ (map_to_list (nodeMap x)).*2.

Lemma publish_published x : published (publishNodesLocked x).
Proof. eexists. split; [done|]. simpl. apply fmap_Permutation, map_range_perm. Qed.

Lemma member_step_published x o : published (member_step x o).
Proof. destruct o; apply publish_published. Qed.

Lemma watch_published hist x : published x →
  published (foldl (λ x ev, parseWatch ev.1.1 ev.1.2 ev.2 x) x hist).
Proof. revert x. induction hist as [|ev hist IH]; simpl; [done|]. intros x _. apply IH, publish_published. Qed.

Lemma watchMembers_events (batches : list (list member_event)) x :
  (watchMembers (map WEvents batches) x).1 =
  foldl (λ x ev, parseWatch ev.1.1 ev.1.2 ev.2 x) x (concat batches).
Proof.
  revert x. induction batches as [|b batches IH]; intros x; simpl; [done|].
  rewrite foldl_app, <-IH. by destruct (watchMembers _ _).
Qed.
End prefix.

(** Loads, reloads and own registrations, the first of which saw [n0] events: the
    table is right on every key the watch has nothing more to say about. *)
Lemma loads_agree (q : string) hist (n0 : nat) kvs0 (ops : list member_op) x :
  Forall (λ ev, flat (q +:+ "/") (ev_key ev)) hist →
  nodeMap x = ∅ → snapshot_at hist n0 kvs0 → Forall (op_ok hist n0) ops →
  let x1 := foldl member_step (applyMembers kvs0 x) ops in
  agrees (q +:+ "/") (λ k, k ∉ map ev_key (drop n0 hist)) (replay (take n0 hist)) x1 ∧ published x1.
Proof.
  intros Hflat Hx [Hnd Hl] Hops x1. subst x1.
  assert (agrees (q +:+ "/") (λ k, k ∉ map ev_key (drop n0 hist)) (replay (take n0 hist)) (applyMembers kvs0 x) ∧
    published (applyMembers kvs0 x)) as H0.
  { split; [|apply publish_published]. intros id _.
    rewrite (applyMembers_nodeMap q _ kvs0 x id (λ k, replay_flat q hist n0 k Hflat) Hnd Hl).
    unfold record_of. destruct (replay (take n0 hist) !! _); simpl; [done|]. by rewrite Hx, lookup_empty. }
  revert H0. generalize (applyMembers kvs0 x) as y.
  induction Hops as [|o ops Ho _ IH]; intros y [HA HP]; simpl; [done|]. apply IH. split.
  - by apply member_step_agrees.
  - apply member_step_published.
Qed.

(** A node that has loaded, registered and watched the whole of [hist]. *)
Definition caught_up (q : string) hist x : Prop :=
  ∃ n0 kvs0 ops batches x0, Forall (λ ev, flat (q +:+ "/") (ev_key ev)) hist ∧
    nodeMap x0 = ∅ ∧ snapshot_at hist n0 kvs0 ∧ Forall (op_ok hist n0) ops ∧
    concat batches = drop n0 hist ∧
    x = (watchMembers (map WEvents batches) (foldl member_step (applyMembers kvs0 x0) ops)).1.

Lemma caught_up_view q hist x : caught_up q hist x →
  (∀ id, nodeMap x !! id = replay hist !! ((q +:+ "/") +:+ id) ≫= json_Unmarshal) ∧ published x.
Proof.
  intros (n0 & kvs0 & ops & batches & x0 & Hflat & Hx & Hfirst & Hops & Hwatch & ->).
  rewrite watchMembers_events, Hwatch.
  destruct (loads_agree q hist n0 kvs0 ops x0 Hflat Hx Hfirst Hops) as [H1 H2].
  split; [|by apply watch_published].
  assert (Forall (λ ev, flat (q +:+ "/") (ev_key ev)) (drop n0 hist)) as Hd by by apply Forall_drop.
  pose proof (events_agree q (drop n0 hist) Hd _ _ _ H1) as HA.
  assert (foldl replay_event (replay (take n0 hist)) (drop n0 hist) = replay hist) as Hr.
  { unfold replay. rewrite <-foldl_app. by rewrite take_drop. }
  rewrite Hr in HA. intros id. apply HA.
  destruct (decide ((q +:+ "/") +:+ id ∈ map ev_key (drop n0 hist))); auto.
Qed.

(** [C19] Every node ends up with the true member set.  Take any history of the
    member keys; let the first load see its first [n0] events, let registration
    reload any number of times at later revisions and add its own record, and
    let the watch, started right after the FIRST load, deliver the rest in
    whatever batches.  Then the table is exactly the key space at the end, each
    record decoded and malformed ones absent (no departed node lingers although
    a reload never deletes), and GetNodes hands out precisely that set paired
    with the current version. *)
Theorem member_view_converges (q : string) (hist : list member_event) (n0 : nat) kvs0
    (ops : list member_op) (batches : list (list member_event)) x
    (Hflat : Forall (λ ev, flat (q +:+ "/") (ev_key ev)) hist)
    (Hx : nodeMap x = ∅) (Hfirst : snapshot_at hist n0 kvs0)
    (Hops : Forall (op_ok hist n0) ops) (Hwatch : concat batches = drop n0 hist) :
  let x1 := foldl member_step (applyMembers kvs0 x) ops in
  let '(x2, effs) := watchMembers (map WEvents batches) x1 in
  (∀ id, nodeMap x2 !! id = replay hist !! ((q +:+ "/") +:+ id) ≫= json_Unmarshal) ∧
  (GetNodes x2).1 ≡ₚ (map_to_list (nodeMap x2)).*2 ∧
  (GetNodes x2).2 = GetNodesVersion x2.
Proof.
  intros x1. destruct (watchMembers (map WEvents batches) x1) as [x2 effs] eqn:E.
  destruct (caught_up_view q hist x2) as [H1 (l & Hl & Hp)].
  { exists n0, kvs0, ops, batches, x. split_and!; try done. fold x1. by rewrite E. }
  split; [done|]. unfold GetNodes, GetNodesVersion. by rewrite Hl.
Qed.
End view.

(** ** Concrete parameters *)

(** A codec that keeps a member's id and address, written id@address. *)
Definition demo_Marshal (s : tNodeState) : string := FormatUint (NodeId s) +:+ "@" +:+ Address s.

Definition demo_Unmarshal (v : string) : option tNodeState :=
  let i := IndexByte v "@" in
  if decide (0 ≤ i) then
    match ParseUint (str_take (Z.to_nat i) v) with
    | (n, None) => Some (NodeState n (str_drop (Z.to_nat i + 1) v) "" "" [])
    | _ => None
    end
  else None.

Definition demo_ok (s : tNodeState) : Prop :=
  in_u64 (NodeId s) ∧ s = NodeState (NodeId s) (Address s) "" "" [].

Lemma demo_roundtrip s : demo_ok s → demo_Unmarshal (demo_Marshal s) = Some s.
Proof.
  intros [Hid Hs]. unfold demo_Unmarshal, demo_Marshal.
  change ("@" +:+ Address s) with (String "@" (Address s)).
  rewrite IndexByte_app by (apply FormatUint_no_byte; right; by vm_compute).
  rewrite decide_True, Nat2Z.id, str_take_app, ParseUint_FormatUint by (done || lia).
  rewrite str_drop_app. simpl. by rewrite Hs at 3.
Qed.

Definition demo_json : JsonCodec := {|
  json_Marshal := demo_Marshal; json_Unmarshal := demo_Unmarshal;
  json_ok := demo_ok; json_roundtrip := demo_roundtrip |}.

Definition demo_range : MapRange := {|
  map_range _ m := map_to_list m; map_range_perm _ m := reflexivity _ |}.

(** Node 3 was there at the first load and leaves before the reload; nodes 4
    and 7 join, 9 writes garbage. *)
Definition demo_hist : list member_event :=
  [(EvPUT, "/c/member/3", "3@a:1"); (EvPUT, "/c/member/4", "4@b:1");
   (EvDELETE, "/c/member/3", ""); (EvPUT, "/c/member/9", "??"); (EvPUT, "/c/member/7", "7@d:1")].

Definition demo_kvs (n : nat) : list (string * string) := map_to_list (replay (take n demo_hist)).

Lemma demo_snapshot n : snapshot_at demo_hist n (demo_kvs n).
Proof. split; [apply NoDup_fst_map_to_list|apply list_to_map_to_list]. Qed.

Lemma member_view_converges_witness :
  let _ := demo_json in let _ := demo_range in
  let x := foldl member_step (applyMembers (demo_kvs 1) newProvider)
             [MLoad 4 (demo_kvs 4); MOwn (EvPUT, "/c/member/7", "7@d:1")] in
  let x2 := (watchMembers (map WEvents [take 2 (drop 1 demo_hist); drop 3 demo_hist]) x).1 in
  is_Some (nodeMap x !! "3") ∧ nodeMap x2 !! "3" = None ∧
  nodeMap x2 !! "7" = Some (NodeState 7 "d:1" "" "" []).
Proof.
  intros J R x x2.
  pose proof (member_view_converges (Json := J) (Range := R) "/c/member" demo_hist 1 (demo_kvs 1)
    [MLoad 4 (demo_kvs 4); MOwn (EvPUT, "/c/member/7", "7@d:1")]
    [take 2 (drop 1 demo_hist); drop 3 demo_hist] newProvider) as H.
  cbv zeta in H. fold x in H. split; [by vm_compute; eexists|].
  assert (x2 = (watchMembers (map WEvents [take 2 (drop 1 demo_hist); drop 3 demo_hist]) x).1) as E by done.
  clearbody x2. destruct (watchMembers _ x) as [y effs]. simpl in E. subst y.
  destruct H as [H _].
  - repeat apply Forall_cons_2; [..|by apply Forall_nil_2];
      [exists "3"|exists "4"|exists "3"|exists "9"|exists "7"]; by split.
  - reflexivity.
  - apply demo_snapshot.
  - apply Forall_cons_2; [split; [lia|apply demo_snapshot]|].
    apply Forall_cons_2; [|by apply Forall_nil_2]. apply list_elem_of_lookup. by exists 3%nat.
  - reflexivity.
  - split; [rewrite (H "3")|rewrite (H "7")]; vm_compute; reflexivity.
Defined.
