(* ===== verification/ProviderThms.v ===== *)
(** * Claiming a node id, starting and stopping

    The theorems about the control flow of provider_etcd.go: [register]'s claim
    loop, [start] with its release on failure, and the teardown. *)

From S2P Require Import Prelude.
From S2P Require Import GoStrings.
From S2P Require Import Config.
From S2P Require Import Uuid.
From S2P Require Import Etcd.
From S2P Require Import Provider.
From S2P Require Import ProviderView.
Open Scope Z_scope.

Section thms.
Context `{Env : GoEnv} {Json : JsonCodec} {Range : MapRange} {E : Type} {Etcd : EtcdClient E}.
Implicit Types (x : provider) (e : E) (cfg : config Env).

(** ** The two locks on etcd *)

Lemma setTxn_spec key val x e : let '(ok, e') := setTxn key val x e in
  if ok then store e !! key = None ∧ store e' = <[key := Entry val (leaseId x)]> (store e)
  else store e' = store e ∨ (store e !! key = None ∧ store e' = <[key := Entry val (leaseId x)]> (store e)).
Proof.
  unfold setTxn. pose proof (Commit_law (MkTxn (CreateRevisionIsZero key) (OpPut key val (leaseId x))) e) as H.
  destruct (Commit _ e) as [[b|] e']; unfold apply_txn in H; simpl in H.
  - destruct H as [-> H]. case_bool_decide; auto.
  - case_bool_decide; tauto.
Qed.

Lemma removeTxn_spec key val x e : let '(ok, e') := removeTxn key val x e in
  if ok then evalue <$> store e !! key = Some val ∧ store e' = delete key (store e)
  else store e' = store e ∨ (evalue <$> store e !! key = Some val ∧ store e' = delete key (store e)).
Proof.
  unfold removeTxn. pose proof (Commit_law (MkTxn (ValueIs key val) (OpDelete key)) e) as H.
  destruct (Commit _ e) as [[b|] e']; unfold apply_txn in H; simpl in H.
  - destruct H as [-> H]. case_bool_decide; auto.
  - case_bool_decide; tauto.
Qed.

(** ** register *)

Lemma loadMembers_fields cfg x e : let '(r, x', e') := loadMembers cfg x e in
  leaseId x' = leaseId x ∧ client x' = client x ∧ cancelFunc x' = cancelFunc x ∧ stopping x' = stopping x.
Proof.
  unfold loadMembers. destruct (GetPrefix _ e) as [[[kvs rev]|] e']; [|done].
  unfold applyMembers, publishNodesLocked. simpl. revert x.
  induction kvs as [|kv kvs IH]; intros x; simpl; [done|]. destruct (IH (applyMemberLocked EvPUT kv.1 kv.2 x)) as (-> & -> & -> & ->).
  unfold applyMemberLocked. destruct (json_Unmarshal _); done.
Qed.

Lemma freeNodeIds_spec x id : id ∈ freeNodeIds x ↔ nodeMap x !! FormatUint id = None ∧ 1 ≤ id ≤ MaxNodeMax.
Proof.
  unfold freeNodeIds. rewrite list_elem_of_filter, elem_of_seqZ.
  change MaxNodeMax with 1023. intuition lia.
Qed.

Lemma parseWatch_lease op key v x : leaseId (parseWatch op key v x) = leaseId x.
Proof.
  unfold parseWatch, applyMemberLocked. destruct op; [|done]. by destruct (json_Unmarshal v).
Qed.

(** What a successful claim means, [l] being the lease it was made with. *)
Definition claimed (l : Z) (addr : string) (id : Z) cfg cfg' x' e' : Prop :=
  1 ≤ id ≤ MaxNodeMax ∧ leaseId x' = l ∧
  NodeId (state cfg') = id ∧ Address (state cfg') = addr ∧
  (∃ e0, store e0 !! getMemberPath cfg id = None ∧
     store e' = <[getMemberPath cfg id := Entry (json_Marshal (state cfg')) l]> (store e0)) ∧
  (json_ok (state cfg') →
     state cfg' ∈ (GetNodes x').1 ∧ nodeMap x' !! FormatUint id = Some (state cfg')).

Lemma member_id_path cfg id : in_u64 id → member_id (getMemberPath cfg id) = FormatUint id.
Proof.
  intros Hid. unfold getMemberPath.
  assert ("/" +:+ clusterName cfg +:+ "/member/" +:+ FormatUint id
    = (("/" +:+ clusterName cfg +:+ "/member") +:+ "/") +:+ FormatUint id) as ->.
  { by rewrite !str_app_assoc. }
  apply member_id_flat. apply FormatUint_no_byte. left. by vm_compute.
Qed.

Lemma claim_step cfg addr id now x e st cfg' e' :
  1 ≤ id ≤ MaxNodeMax → init cfg addr id now = (st, cfg') →
  setTxn (getMemberPath cfg id) (json_Marshal st) x e = (true, e') →
  claimed (leaseId x) addr id cfg cfg' (parseWatch EvPUT (getMemberPath cfg id) (json_Marshal st) x) e'.
Proof.
  intros Hid Hi Hs. pose proof (setTxn_spec (getMemberPath cfg id) (json_Marshal st) x e) as H.
  rewrite Hs in H. destruct H as [H1 H2]. unfold init in Hi. simplify_eq/=.
  split; [done|]. split; [apply parseWatch_lease|]. do 2 (split; [done|]). split; [by exists e|].
  intros Hok.
  assert (nodeMap (parseWatch EvPUT (getMemberPath cfg id) (json_Marshal (NodeState id addr (version cfg) now (getKinds cfg))) x)
    !! FormatUint id = Some (NodeState id addr (version cfg) now (getKinds cfg))) as Hn.
  { rewrite parseWatch_nodeMap, applyMemberLocked_nodeMap, member_id_path.
    - by rewrite decide_True, json_roundtrip.
    - change MaxNodeMax with 1023 in Hid. unfold in_u64. lia. }
  split; [|done]. destruct (publish_published (applyMemberLocked EvPUT (getMemberPath cfg id)
    (json_Marshal (NodeState id addr (version cfg) now (getKinds cfg))) x)) as (l & Hl & Hp).
  unfold GetNodes, parseWatch in *. rewrite Hl. simpl. rewrite Hp.
  apply list_elem_of_fmap. exists (FormatUint id, NodeState id addr (version cfg) now (getKinds cfg)).
  split; [done|]. by apply elem_of_map_to_list.
Qed.

(** What [register] returns and leaves, whatever the interference. *)
Definition register_outcome addr cfg x (out : register_result * config Env * provider * E * list provider_effect) : Prop :=
  let '(r, cfg', x', e', effs) := out in
  match r with
  | inl id => claimed (leaseId x) addr id cfg cfg' x' e' ∧ effs = [PSystemInit id]
  | inr err => effs = [] ∧ leaseId x' = leaseId x ∧
      (err = AllIdsInUse → ∀ id, 1 ≤ id ≤ MaxNodeMax → is_Some (nodeMap x' !! FormatUint id))
  end.

Lemma register_spec (env : nat → E → E) (rand : nat → list Z → Z) (now : nat → string) (n : nat)
    (addr : string) cfg x e (Hrand : ∀ k l, l ≠ [] → rand k l ∈ l) :
  register_outcome addr cfg x (register env rand now n addr cfg x e).
Proof.
  unfold register, register_outcome. generalize registerRounds as rounds. intros rounds.
  assert (∀ cfg0 cfg, clusterName cfg = clusterName cfg0 → ∀ n x e,
    let '(r, cfg', x', e', effs) := register_loop env rand now rounds n addr cfg x e in
    match r with
    | inl id => claimed (leaseId x) addr id cfg0 cfg' x' e' ∧ effs = [PSystemInit id]
    | inr err => effs = [] ∧ leaseId x' = leaseId x ∧
        (err = AllIdsInUse → ∀ id, 1 ≤ id ≤ MaxNodeMax → is_Some (nodeMap x' !! FormatUint id))
    end) as H; [|by apply H].
  clear n cfg x e. induction rounds as [|rounds IH]; intros cfg0 cfg Hcfg n x e; [done|]; cbn [register_loop].
  destruct (freeNodeIds x) as [|i l] eqn:Hfree.
  { split_and!; [done..|]. intros _ id Hid. destruct (nodeMap x !! FormatUint id) eqn:Hn; [done|].
    assert (id ∈ freeNodeIds x) as Hin by (by apply freeNodeIds_spec). rewrite Hfree in Hin.
    by apply not_elem_of_nil in Hin. }
  pose proof (Hrand n (i :: l) ltac:(done)) as Hin. rewrite <-Hfree in Hin at 2.
  apply freeNodeIds_spec in Hin as [_ Hid]. set (id := rand n (i :: l)) in *.
  cbv zeta. destruct (init cfg addr id (now n)) as [st cfg'] eqn:Hinit.
  assert (getMemberPath cfg id = getMemberPath cfg0 id) as Hpath by (unfold getMemberPath; by rewrite Hcfg).
  destruct (setTxn (getMemberPath cfg id) (json_Marshal st) x (env n e)) as [[] e1] eqn:Hs.
  - split; [|done]. pose proof (claim_step cfg addr id (now n) x (env n e) st cfg' e1 Hid Hinit Hs) as H.
    destruct H as (H1 & H2 & H3 & H4 & (e0 & H5 & H6) & H7). rewrite Hpath in H5, H6.
    do 4 (split; [done|]). split; [by exists e0|done].
  - pose proof (loadMembers_fields cfg' x (env (S n) e1)) as Hl.
    destruct (loadMembers cfg' x (env (S n) e1)) as [[[rev|] x2] e2]; destruct Hl as [Hl _]; [|by rewrite Hl].
    specialize (IH cfg0 cfg' ltac:(unfold init in Hinit; by simplify_eq/=) (S (S n)) x2 e2).
    rewrite Hl in IH. exact IH.
Qed.

(** [rounds] rounds make at most two calls each: the interference from the call
    after them on has no influence. *)
Lemma register_loop_calls (env env' : nat → E → E) (rand : nat → list Z → Z) (now : nat → string) rounds :
  ∀ n addr cfg x e, (∀ k, (n ≤ k < n + 2 * rounds)%nat → env' k = env k) →
  register_loop env' rand now rounds n addr cfg x e = register_loop env rand now rounds n addr cfg x e.
Proof.
  induction rounds as [|rounds IH]; intros n addr cfg x e Henv; cbn [register_loop]; [done|].
  destruct (freeNodeIds x) as [|i l]; [done|]. cbv zeta. destruct (init cfg addr _ (now n)) as [st cfg'].
  rewrite (Henv n), (Henv (S n)) by lia. destruct (setTxn _ _ x (env n e)) as [[] e1]; [done|].
  destruct (loadMembers cfg' x (env (S n) e1)) as [[[rev|] x2] e2]; [|done].
  apply IH. intros k Hk. apply Henv. lia.
Qed.

(** [C28] Claiming a node id is exclusive and bounded.  Whatever the other nodes
    do to etcd between any two calls, and whichever free id is drawn: on success
    the id lies in 1..1023, its key was ABSENT at the instant of the commit and
    now holds this node's record under this node's lease, and the node already
    counts itself among its own members; the error "all node ids are in use" is
    only reported on a table that shows every id taken; an error never
    initialises the system.  [register] makes at most 32 etcd calls (16 rounds
    of two): the [k]-th call happens after [env k], and any other interference
    that agrees on the first 32 gives the same run. *)
Theorem register_claims_free_id (env : nat → E → E) (rand : nat → list Z → Z) (now : nat → string)
    (n : nat) (addr : string) cfg x e
    (Hrand : ∀ k l, l ≠ [] → rand k l ∈ l) :
  (let '(r, cfg', x', e', effs) := register env rand now n addr cfg x e in
   match r with
   | inl id => claimed (leaseId x) addr id cfg cfg' x' e' ∧ effs = [PSystemInit id]
   | inr err => effs = [] ∧ leaseId x' = leaseId x ∧
       (err = AllIdsInUse → ∀ id, 1 ≤ id ≤ MaxNodeMax → is_Some (nodeMap x' !! FormatUint id))
   end) ∧
  (∀ env', (∀ k, (n ≤ k < n + 32)%nat → env' k = env k) →
     register env' rand now n addr cfg x e = register env rand now n addr cfg x e).
Proof.
  split; [exact (register_spec env rand now n addr cfg x e Hrand)|].
  intros env' Henv. apply register_loop_calls. exact Henv.
Qed.

(** ** start *)

Lemma releaseEtcd_fields b x e : let '(x', e') := releaseEtcd b x e in
  client x' = false ∧ cancelFunc x' = false ∧ stopping x' = stopping x ∧
  leaseId x' = (if client x then 0 else leaseId x) ∧
  e' = (if client x && negb (bool_decide (leaseId x = 0)) && b then (Revoke (leaseId x) e).2 else e).
Proof.
  unfold releaseEtcd. destruct x as [l c cf st v m ns r]; simpl.
  destruct cf, c, b; simpl; try done; case_bool_decide; simpl; subst; done.
Qed.

(** The lease [l] was granted on the way and has been given up. *)
Definition gave_up (ttl l : Z) (e' : E) : Prop :=
  l ≠ 0 ∧ (∃ e0, (Grant ttl e0).1 = Some l) ∧ ∃ e1, e' = (Revoke l e1).2.

Lemma register_lease env rand now n addr cfg x e :
  let '(r, cfg', x', e', effs) := register env rand now n addr cfg x e in
  leaseId x' = leaseId x ∧ client x' = client x ∧ cancelFunc x' = cancelFunc x.
Proof.
  unfold register. generalize registerRounds as rounds. intros rounds. revert n cfg x e.
  induction rounds as [|rounds IH]; intros n cfg x e; [done|]; cbn [register_loop].
  destruct (freeNodeIds x) as [|i l]; [done|]. cbv zeta. destruct (init cfg addr _ (now n)) as [st cfg'].
  destruct (setTxn _ _ x (env n e)) as [[] e1].
  - unfold parseWatch, applyMemberLocked. by destruct (json_Unmarshal _).
  - pose proof (loadMembers_fields cfg' x (env (S n) e1)) as Hl.
    destruct (loadMembers cfg' x (env (S n) e1)) as [[[rev|] x2] e2]; destruct Hl as (H1 & H2 & H3 & _); [|done].
    specialize (IH (S (S n)) cfg' x2 e2).
    destruct (register_loop _ _ _ _ _ _ _ _ _) as [[[[r c] x3] e3] ef]. by rewrite <-H1, <-H2, <-H3.
Qed.

(** [C20] Starting leaves all or nothing behind.  Under any interference and any
    failures: if [start] succeeds the client, the lease and the keepalive are in
    place and a node id is claimed under exactly that lease; if it fails, at
    whichever point, nothing of it keeps running: the keepalive is cancelled,
    the client closed, the lease forgotten, and a lease it had been granted was
    handed to Revoke, so a half-started node does not stay published. *)
Theorem start_all_or_nothing (env : nat → E → E) (rand : nat → list Z → Z) (now : nat → string)
    (connects keeps : bool) (addr : string) cfg e (Hrand : ∀ k l, l ≠ [] → rand k l ∈ l) :
  let '(r, cfg', x', e', effs) := start env rand now connects keeps addr cfg newProvider e in
  match r with
  | inl rev => client x' = true ∧ cancelFunc x' = true ∧ leaseId x' ≠ 0 ∧
      ∃ id, claimed (leaseId x') addr id cfg cfg' x' e' ∧ effs = [PSystemInit id]
  | inr err => client x' = false ∧ cancelFunc x' = false ∧ leaseId x' = 0 ∧ effs = [] ∧
      (err = CannotConnect ∨ err = GrantFailed ∨ ∃ l, gave_up (etcdLeaseTTLSecond cfg) l e')
  end.
Proof.
  unfold start. destruct connects; simpl; [|by auto 10].
  set (x0 := set_client true _).
  destruct (Grant (etcdLeaseTTLSecond cfg) (env 0%nat e)) as [[lease|] e1] eqn:Hg.
  2: { pose proof (releaseEtcd_fields true x0 e1) as H. destruct (releaseEtcd true x0 e1).
    destruct H as (H1 & H2 & _ & H3 & _). by auto 10. }
  pose proof (Grant_law (etcdLeaseTTLSecond cfg) (env 0%nat e)) as Hlaw. rewrite Hg in Hlaw.
  destruct Hlaw as [_ Hlaw]. destruct (Hlaw lease eq_refl) as [Hnz _].
  assert (∀ err cfg2 x2 e2, client x2 = true → leaseId x2 = lease →
    let '(r, cfg', x', e', effs) := (let '(x, e) := releaseEtcd true x2 e2 in
      (inr err : Z + start_error, cfg2 : config Env, x, e, [] : list provider_effect)) in
    r = inr err ∧ client x' = false ∧ cancelFunc x' = false ∧ leaseId x' = 0 ∧ effs = [] ∧
    gave_up (etcdLeaseTTLSecond cfg) lease e') as Hrel.
  { intros err cfg2 x2 e2 Hc Hl. pose proof (releaseEtcd_fields true x2 e2) as H.
    destruct (releaseEtcd true x2 e2) as [x3 e3]. rewrite Hc, Hl in H.
    rewrite bool_decide_eq_false_2 in H by done. destruct H as (H1 & H2 & _ & H3 & H4).
    do 5 (split; [done|]). split; [done|]. split; [exists (env 0%nat e); by rewrite Hg|by exists e2]. }
  assert (∀ (P : Prop) e', gave_up (etcdLeaseTTLSecond cfg) lease e' →
    P ∨ ∃ l, gave_up (etcdLeaseTTLSecond cfg) l e') as Hup by eauto.
  destruct keeps; simpl.
  2: { specialize (Hrel KeepAliveFailed cfg (set_cancel true (set_lease lease x0)) e1 eq_refl eq_refl).
    destruct (releaseEtcd true _ _). destruct Hrel as (_ & H1 & H2 & H3 & H4 & H5). by auto 10. }
  set (x1 := set_cancel true _).
  pose proof (loadMembers_fields cfg x1 (env 1%nat e1)) as Hl.
  destruct (loadMembers cfg x1 (env 1%nat e1)) as [[[rev|] x2] e2]; destruct Hl as (L1 & L2 & L3 & _).
  - pose proof (register_spec env rand now 2 addr cfg x2 e2 Hrand) as HR. unfold register_outcome in HR.
    pose proof (register_lease env rand now 2 addr cfg x2 e2) as HL.
    destruct (register env rand now 2 addr cfg x2 e2) as [[[[[id|err] cfg3] x3] e3] ef].
    + destruct HL as (-> & -> & ->). rewrite L1, L2, L3. split_and!; try done. exists id. by rewrite L1 in HR.
    + destruct HL as (H1 & H2 & _), HR as [-> _].
      specialize (Hrel (RegisterFailed err) cfg3 x3 e3 ltac:(by rewrite H2, L2) ltac:(by rewrite H1, L1)).
      destruct (releaseEtcd true x3 e3). destruct Hrel as (_ & H3 & H4 & H5 & H6 & H7). by auto 10.
  - specialize (Hrel FirstLoadFailed cfg x2 e2 L2 L1). destruct (releaseEtcd true x2 e2).
    destruct Hrel as (_ & H3 & H4 & H5 & H6 & H7). by auto 10.
Qed.

(** Teardown is deliberate, complete and repeatable.  [stop] cancels the
    keepalive, closes the client and touches etcd only by revoking its own
    lease, and only when told to (an undrained node leaves every key in place to
    expire); stopping again changes nothing; afterwards no end of a watch and no
    closed keepalive channel stops the system again, whereas before it every one
    of them does. *)
Theorem teardown (b : bool) x e (wch : list WatchResponse) (ticks : nat) :
  let '(x', e') := stop_provider b x e in
  client x' = false ∧ cancelFunc x' = false ∧ (client x = true → leaseId x' = 0) ∧
  (b = false → e' = e) ∧
  (b = true → client x = true → leaseId x ≠ 0 → e' = (Revoke (leaseId x) e).2) ∧
  (∀ b', stop_provider b' x' e' = (x', e')) ∧
  PForceStop ∉ (watchMembers wch x').2 ∧ keepAlive ticks x' = [] ∧
  (stopping x = false →
     last (watchMembers wch x).2 = Some PForceStop ∧ keepAlive ticks x = [PForceStop]).
Proof.
  assert (∀ wch y, stopping (watchMembers wch y).1 = stopping y ∧
    (stopping y = true → PForceStop ∉ (watchMembers wch y).2) ∧
    (stopping y = false → last (watchMembers wch y).2 = Some PForceStop)) as Hw.
  { clear. induction wch as [|[evs|] wch IH]; intros y; simpl; unfold stopSystemOnWatchLoss.
    - split_and!; [done| |]; intros ->; [apply not_elem_of_nil|done].
    - assert (∀ evs y, stopping (foldl (λ x ev, parseWatch ev.1.1 ev.1.2 ev.2 x) y evs) = stopping y) as Hf.
      { clear. induction evs as [|[[op k] v] evs IH]; intros y; simpl; [done|]. rewrite IH.
        unfold parseWatch, applyMemberLocked. destruct op; [|done]. by destruct (json_Unmarshal v). }
      specialize (IH (foldl (λ x ev, parseWatch ev.1.1 ev.1.2 ev.2 x) y evs)). rewrite Hf in IH.
      destruct (watchMembers _ _) as [z effs]. simpl in *. destruct IH as (H1 & H2 & H3). split_and!; [done| |].
      + intros Hs [?|?]%elem_of_cons; [done|by apply H2].
      + intros Hs. specialize (H3 Hs). by destruct effs.
    - split_and!; [done| |]; intros ->; [apply not_elem_of_nil|done]. }
  assert (∀ n y, keepAlive n y = if stopping y then [] else [PForceStop]) as Hk by by induction n.
  unfold stop_provider. pose proof (releaseEtcd_fields b (set_stopping true x) e) as H.
  destruct (releaseEtcd b (set_stopping true x) e) as [x' e']. simpl in H. destruct H as (H1 & H2 & H3 & H4 & H5).
  split_and!; try done.
  - intros Hc. by rewrite H4, Hc.
  - intros ->. by rewrite H5, andb_false_r.
  - intros -> Hc Hl. by rewrite H5, Hc, bool_decide_eq_false_2.
  - intros b'. destruct x' as [l c cf s v m ns r]. simpl in *. subst. done.
  - by apply Hw.
  - by rewrite Hk, H3.
  - intros Hs. split; [by apply Hw|]. by rewrite Hk, Hs.
Qed.
End thms.

(** ** A node boots while another takes the id it was about to claim *)

Definition demo_cfg : config unit_env := defaultConfig (Env := unit_env) "c" "" [].
Definition demo_rand (k : nat) (l : list Z) : Z := default 0 (head l).
Definition demo_now (k : nat) : string := "".

(** Before the provider's third call a rival commits id 1. *)
Definition demo_rival (k : nat) (e : sim) : sim :=
  if decide (k = 2%nat) then
    (sim_commit (MkTxn (CreateRevisionIsZero "/c/member/1") (OpPut "/c/member/1" "1@rival:1" 99)) e).2
  else e.

Lemma demo_rand_in k l : l ≠ [] → demo_rand k l ∈ l.
Proof. destruct l as [|z l]; [done|]. intros _. simpl. apply elem_of_cons. by left. Qed.

Definition demo_start (fates : list fate) :=
  start (Env := unit_env) (Json := demo_json) (Range := demo_range)
    demo_rival demo_rand demo_now true true "me:1" demo_cfg newProvider (Sim ∅ 1 fates 0).

Lemma start_all_or_nothing_witness :
  (let '(r, cfg', x', e', effs) := demo_start [] in effs = [PSystemInit 2] ∧ client x' = true) ∧
  (let '(r, cfg', x', e', effs) := demo_start [Answered; Failed] in
   r = inr FirstLoadFailed ∧ client x' = false ∧ leaseId x' = 0).
Proof.
  pose proof (λ fates, start_all_or_nothing (Env := unit_env) (Json := demo_json) (Range := demo_range)
    demo_rival demo_rand demo_now true true "me:1" demo_cfg (Sim ∅ 1 fates 0) demo_rand_in) as H.
  split.
  - specialize (H []). change (start demo_rival demo_rand demo_now true true "me:1" demo_cfg newProvider _)
      with (demo_start []) in H.
    assert (match demo_start [] with (inl _, _, _, _, effs) => effs = [PSystemInit 2] | _ => False end) as E
      by (vm_compute; reflexivity).
    destruct (demo_start []) as [[[[[rev|err] cfg'] x'] e'] effs]; [|done]. subst effs. by destruct H as [? _].
  - specialize (H [Answered; Failed]).
    change (start demo_rival demo_rand demo_now true true "me:1" demo_cfg newProvider _)
      with (demo_start [Answered; Failed]) in H.
    assert ((demo_start [Answered; Failed]).1.1.1.1 = inr FirstLoadFailed) as E by (vm_compute; reflexivity).
    destruct (demo_start [Answered; Failed]) as [[[[r cfg'] x'] e'] effs]. simpl in E. subst r.
    destruct H as (H1 & _ & H2 & _). done.
Defined.

Lemma register_claims_free_id_witness :
  let '(r, cfg', x', e', effs) :=
    register (Env := unit_env) (Json := demo_json) (Range := demo_range)
      demo_rival demo_rand demo_now 2 "me:1" demo_cfg newProvider (Sim ∅ 1 [] 0) in
  r = inl 2 ∧ store e' !! "/c/member/2" = Some (Entry "2@me:1" 0) ∧
  nodeMap x' !! "2" = Some (NodeState 2 "me:1" "" "" []).
Proof.
  destruct (register_claims_free_id (Env := unit_env) (Json := demo_json) (Range := demo_range)
    demo_rival demo_rand demo_now 2 "me:1" demo_cfg newProvider (Sim ∅ 1 [] 0) demo_rand_in) as [H _].
  assert (match register (Env := unit_env) (Json := demo_json) (Range := demo_range)
      demo_rival demo_rand demo_now 2 "me:1" demo_cfg newProvider (Sim ∅ 1 [] 0) with
    (inl id, cfg', _, e', _) => id = 2 ∧ state cfg' = NodeState 2 "me:1" "" "" [] ∧
      store e' !! "/c/member/2" = Some (Entry "2@me:1" 0) | _ => False end) as E
    by (vm_compute; repeat split).
  destruct (register _ _ _ _ _ _ _ _) as [[[[[id|err] cfg'] x'] e'] effs]; [|done].
  destruct E as (-> & E & E3). destruct H as [(_ & _ & _ & _ & _ & H) _]. rewrite E in H.
  split_and!; [done|done|]. apply H. split; [done|by vm_compute].
Defined.

Lemma teardown_witness :
  let x := MkProvider 7 true true false 1 ∅ None 0 in
  let '(x', e') := stop_provider true x (Sim {["/c/member/2" := Entry "2@me:1" 7]} 1 [] 0) in
  store e' = ∅ ∧ leaseId x' = 0 ∧ keepAlive 3 x' = [].
Proof.
  intros x.
  pose proof (teardown (Json := demo_json) (Range := demo_range) true x
    (Sim {["/c/member/2" := Entry "2@me:1" 7]} 1 [] 0) [] 3) as H.
  destruct (stop_provider _ x _) as [x' e'].
  destruct H as (_ & _ & H1 & _ & H2 & _ & _ & H3 & _).
  rewrite (H2 eq_refl eq_refl) by done. split_and!; [by vm_compute|by apply H1|done].
Defined.
