(* ===== verification/GrainLock.v ===== *)
(** * The single-activation lock of a grain

    [defaultRegisterToCluster] and [defaultUnregisterFromCluster]
    (kind_opts.go) over the transactions of provider_etcd.go, and the cluster of
    nodes that compete for the keys.  The two functions are programs of etcd
    calls: [reg_run] runs one to its end, and a step of the cluster runs one
    call of one activation's program, so the calls of all activations, the
    leases that end and everybody else's traffic interleave in any order. *)

From S2P Require Import Prelude.
From S2P Require Import GoStrings.
From S2P Require Import ActorId.
From S2P Require Import Config.
From S2P Require Import Etcd.
From S2P Require Import Provider.
From S2P Require Import ProviderView.
From S2P Require Import ProviderThms.
Open Scope Z_scope.

(** A call of the provider, and what a register function goes on to do with
    its answer; the value returned is whether the error is nil. *)
Inductive reg_call : Type :=
| CallSetTxn (key val : string)
| CallRemoveTxn (key val : string).

Inductive reg_prog : Type :=
| RegReturn (ok : bool)
| RegCall (c : reg_call) (k : bool → reg_prog).

(** The attempts of [defaultRegisterToCluster]; the pauses between them are
    part of the interleaving. *)
Fixpoint register_attempts (attempts : nat) (key val : string) : reg_prog :=
  match attempts with
  | O => RegReturn false
  | S attempts =>
      RegCall (CallSetTxn key val) (λ ok, if ok then RegReturn true else register_attempts attempts key val)
  end.

Section lock.
Context `{Env : GoEnv} {E : Type} {Etcd : EtcdClient E}.
Implicit Types (x : provider) (e : E) (cfg : config Env) (ref : ActorRef).

Definition defaultRegisterToCluster cfg ref : reg_prog :=
  if decide (GetKind ref ∈ Kinds (state cfg))
  then register_attempts defaultRegisterTimes (getActorRegisterName cfg ref) (Address (state cfg))
  else RegReturn true.

Definition defaultUnregisterFromCluster cfg ref : reg_prog :=
  if decide (GetKind ref ∈ Kinds (state cfg))
  then RegCall (CallRemoveTxn (getActorRegisterName cfg ref) (Address (state cfg))) RegReturn
  else RegReturn true.

Definition reg_do (c : reg_call) x e : bool * E :=
  match c with
  | CallSetTxn key val => setTxn key val x e
  | CallRemoveTxn key val => removeTxn key val x e
  end.

(** The whole function, when the rest of the cluster does [env n] to etcd
    before its [n]-th call. *)
Fixpoint reg_run (env : nat → E → E) (n : nat) (p : reg_prog) x e : bool * E :=
  match p with
  | RegReturn ok => (ok, e)
  | RegCall c k => let '(ok, e) := reg_do c x (env n e) in reg_run env (S n) (k ok) x e
  end.

(** ** One activation

    [actorLifecycleState.start] and [stop], as far as the registration goes:
    Started runs only once the registration has returned nil, which sets
    [clusterRegistrationOwned]; the stop of an owner unregisters it, after
    PreStop; a refused activation stops without unregistering. *)

Inductive act_phase : Type :=
| Registering (p : reg_prog)
| Running                          (* from Started to the end of PreStop *)
| Unregistering (p : reg_prog)
| Ended.

Definition act_next cfg ref x (ph : act_phase) e : act_phase * E :=
  match ph with
  | Registering (RegCall c k) => let '(ok, e) := reg_do c x e in (Registering (k ok), e)
  | Registering (RegReturn owned) => (if owned then Running else Ended, e)
  | Running => (Unregistering (defaultUnregisterFromCluster cfg ref), e)
  | Unregistering (RegCall c k) => let '(ok, e) := reg_do c x e in (Unregistering (k ok), e)
  | Unregistering (RegReturn _) | Ended => (Ended, e)
  end.

(** ** The cluster *)

(** A node: its provider (whose lease the transactions carry), its
    configuration, whether etcd still knows the lease, and the activations it
    has begun, in order. *)
Record gnode : Type := GNode {
  gprov : provider;
  gcfg : config Env;
  galive : bool;
  gacts : list (ActorRef * act_phase)
}.

Definition gaddr (n : gnode) : string := Address (state (gcfg n)).
Definition gentry (n : gnode) : entry := Entry (gaddr n) (leaseId (gprov n)).

(** The ids and the keys of grains: cluster actors and direct ones. *)
Definition grain_id (id : string) : Prop :=
  ∃ rest, id = defaultActCluster +:+ "/" +:+ rest ∨ id = defaultActDirect +:+ "/" +:+ rest.

Definition grain_key (cluster id : string) : string := "/" +:+ cluster +:+ "/" +:+ id.

Inductive gstep (cluster : string) : E * list gnode → E * list gnode → Prop :=
| gs_activate e ns i n ref :                         (* a processor runs start *)
    ns !! i = Some n → grain_id (GetId ref) →
    gstep cluster (e, ns)
      (e, <[i := GNode (gprov n) (gcfg n) (galive n)
                   (gacts n ++ [(ref, Registering (defaultRegisterToCluster (gcfg n) ref))])]> ns)
| gs_act e ns i n a ref ph ph' e' :                  (* an activation's next step *)
    ns !! i = Some n → gacts n !! a = Some (ref, ph) →
    act_next (gcfg n) ref (gprov n) ph e = (ph', e') →
    gstep cluster (e, ns)
      (e', <[i := GNode (gprov n) (gcfg n) (galive n) (<[a := (ref, ph')]> (gacts n))]> ns)
| gs_expire e ns i n e' :                            (* revoked, or not renewed in time *)
    ns !! i = Some n → store e' = without_lease (leaseId (gprov n)) (store e) →
    gstep cluster (e, ns) (e', <[i := GNode (gprov n) (gcfg n) false (gacts n)]> ns)
| gs_other e ns e' :                                 (* members, event streams, other clusters *)
    (∀ id, grain_id id → store e' !! grain_key cluster id = store e !! grain_key cluster id) →
    gstep cluster (e, ns) (e', ns).

Inductive greachable (cluster : string) (e0 : E) (ns0 : list gnode) : E * list gnode → Prop :=
| gr_init : greachable cluster e0 ns0 (e0, ns0)
| gr_step s s' : greachable cluster e0 ns0 s → gstep cluster s s' → greachable cluster e0 ns0 s'.

(** Nodes of one cluster differ in lease and in address, and start without
    activations. *)
Definition booted (cluster : string) (ns : list gnode) : Prop :=
  NoDup (map (λ n, leaseId (gprov n)) ns) ∧ NoDup (map gaddr ns) ∧
  Forall (λ n, clusterName (gcfg n) = cluster ∧ gacts n = []) ns.

(** Node [n]'s [a]-th activation runs the grain [ref], of a kind [n] hosts. *)
Definition runs (n : gnode) (a : nat) (ref : ActorRef) : Prop :=
  gacts n !! a = Some (ref, Running) ∧ GetKind ref ∈ Kinds (state (gcfg n)).

(** ** The invariant: a live owner's key holds its own entry *)

Definition phase_ok cfg ref (ph : act_phase) : Prop :=
  match ph with
  | Registering p =>
      p = RegReturn true ∨
      ∃ m, p = register_attempts m (getActorRegisterName cfg ref) (Address (state cfg))
  | Unregistering p => p = defaultUnregisterFromCluster cfg ref ∨ ∃ b, p = RegReturn b
  | _ => True
  end.

(** The activation has won its key and has not given it up yet. *)
Definition holds (n : gnode) (ra : ActorRef * act_phase) : Prop :=
  GetKind ra.1 ∈ Kinds (state (gcfg n)) ∧
  match ra.2 with
  | Registering (RegReturn true) | Running | Unregistering (RegCall _ _) => True
  | _ => False
  end.

Record lock_inv (cluster : string) (s : E * list gnode) : Prop := {
  li_act : ∀ i n a ref ph, s.2 !! i = Some n → gacts n !! a = Some (ref, ph) →
    grain_id (GetId ref) ∧ phase_ok (gcfg n) ref ph;
  li_entry : ∀ i n a ra, s.2 !! i = Some n → galive n = true → gacts n !! a = Some ra → holds n ra →
    store s.1 !! grain_key cluster (GetId ra.1) = Some (gentry n);
  li_once : ∀ i n a b ra rb, s.2 !! i = Some n → galive n = true →
    gacts n !! a = Some ra → gacts n !! b = Some rb → holds n ra → holds n rb →
    GetId ra.1 = GetId rb.1 → a = b;
  li_cluster : ∀ i n, s.2 !! i = Some n → clusterName (gcfg n) = cluster;
  li_lease : NoDup (map (λ n, leaseId (gprov n)) s.2);
  li_addr : NoDup (map gaddr s.2)
}.

Lemma NoDup_map_lookup {A B} (f : A → B) l i j a b :
  NoDup (map f l) → l !! i = Some a → l !! j = Some b → f a = f b → i = j.
Proof.
  intros Hnd Hi Hj Hf. eapply (NoDup_lookup (map f l) i j (f a)); [done| |].
  - by rewrite list_lookup_fmap, Hi.
  - rewrite list_lookup_fmap, Hj. simpl. by rewrite Hf.
Qed.

Lemma map_insert_same {A B} (f : A → B) l i a a' :
  l !! i = Some a → f a' = f a → map f (<[i := a']> l) = map f l.
Proof.
  intros Hi Hf. change (f <$> <[i := a']> l = f <$> l). rewrite list_fmap_insert.
  apply list_insert_id. by rewrite list_lookup_fmap, Hi, Hf.
Qed.

(** What one step of an activation does to its key: nothing, take it while it
    is free, or, as its owner, delete the node's own entry. *)
Lemma act_next_spec cfg x ref ph e n : gcfg n = cfg → gprov n = x → phase_ok cfg ref ph →
  let '(ph', e') := act_next cfg ref x ph e in
  let key := grain_key (clusterName cfg) (GetId ref) in
  phase_ok cfg ref ph' ∧
  ((store e' = store e ∧ (holds n (ref, ph') → holds n (ref, ph))) ∨
   (store e !! key = None ∧ store e' = <[key := gentry n]> (store e)) ∨
   (holds n (ref, ph) ∧ ¬ holds n (ref, ph') ∧ evalue <$> store e !! key = Some (gaddr n) ∧
    store e' = delete key (store e))).
Proof.
  intros <- <- Hok. destruct ph as [p| |p|]; simpl in *.
  - destruct Hok as [->|[[|m] ->]]; simpl; [by auto..|].
    set (key := getActorRegisterName _ _).
    pose proof (setTxn_spec key (Address (state (gcfg n))) (gprov n) e) as H.
    destruct (setTxn _ _ _ e) as [[] e']; cbv beta iota zeta; (split; [simpl; eauto|]); [by right; left|].
    destruct H as [H|H]; [left|by right; left]. split; [done|]. unfold holds. simpl. by destruct m.
  - split; [by left|]. left. split; [done|]. unfold holds. simpl. tauto.
  - destruct p as [b|c k]; [simpl; split; [done|left]; by split; [|intros []]|]. destruct Hok as [Hok|[b Hok]]; [|done].
    unfold defaultUnregisterFromCluster in Hok. case_decide as Hk; [|done]. injection Hok as -> ->. simpl.
    set (key := getActorRegisterName _ _).
    pose proof (removeTxn_spec key (Address (state (gcfg n))) (gprov n) e) as H.
    destruct (removeTxn _ _ _ e) as [ok e']. cbv beta iota zeta. split; [simpl; eauto|].
    assert (store e' = store e ∨ (evalue <$> store e !! key = Some (gaddr n) ∧ store e' = delete key (store e)))
      as [H'|[H1 H2]] by (destruct ok; tauto).
    + left. split; [done|]. by intros [].
    + right; right. split; [done|]. split; [by intros []|done].
  - by auto.
Qed.

(** A step of one node that keeps its lease, its configuration and the
    others' entries. *)
Lemma lock_inv_insert cluster e e' ns i n alive acts :
  let n' := GNode (gprov n) (gcfg n) alive acts in
  lock_inv cluster (e, ns) → ns !! i = Some n →
  (∀ a ref ph, acts !! a = Some (ref, ph) → grain_id (GetId ref) ∧ phase_ok (gcfg n) ref ph) →
  (alive = true → ∀ a ra, acts !! a = Some ra → holds n ra →
     store e' !! grain_key cluster (GetId ra.1) = Some (gentry n)) →
  (alive = true → ∀ a b ra rb, acts !! a = Some ra → acts !! b = Some rb → holds n ra → holds n rb →
     GetId ra.1 = GetId rb.1 → a = b) →
  (∀ j m a ra, j ≠ i → ns !! j = Some m → galive m = true → gacts m !! a = Some ra → holds m ra →
     store e' !! grain_key cluster (GetId ra.1) = Some (gentry m)) →
  lock_inv cluster (e', <[i := n']> ns).
Proof.
  intros n' [H1 H2 H3 H4 H5 H6] Hi Hk Hown Honce Hoth. constructor; simpl in *.
  - intros j m a ref ph Hj. apply list_lookup_insert_Some in Hj as [(<- & <- & _)|[_ Hj]]; [apply Hk|eauto].
  - intros j m a ra Hj. apply list_lookup_insert_Some in Hj as [(<- & <- & _)|[Hne Hj]]; [|eauto].
    intros Hal Ha Hh. exact (Hown Hal a ra Ha Hh).
  - intros j m a b ra rb Hj. apply list_lookup_insert_Some in Hj as [(<- & <- & _)|[Hne Hj]]; [|eauto].
    intros Hal. exact (Honce Hal a b ra rb).
  - intros j m Hj. apply list_lookup_insert_Some in Hj as [(<- & <- & _)|[_ Hj]]; [exact (H4 i n Hi)|eauto].
  - by rewrite (map_insert_same _ _ _ n).
  - by rewrite (map_insert_same _ _ _ n).
Qed.

Lemma grain_key_inj cluster id id' : grain_key cluster id = grain_key cluster id' → id = id'.
Proof. unfold grain_key. intros H. by repeat apply (inj _) in H. Qed.

Lemma gs_activate_inv cluster e ns i n ref : lock_inv cluster (e, ns) → ns !! i = Some n → grain_id (GetId ref) →
  lock_inv cluster (e, <[i := GNode (gprov n) (gcfg n) (galive n)
                        (gacts n ++ [(ref, Registering (defaultRegisterToCluster (gcfg n) ref))])]> ns).
Proof.
  intros V Hi Hg.
  assert (phase_ok (gcfg n) ref (Registering (defaultRegisterToCluster (gcfg n) ref)) ∧
          ¬ holds n (ref, Registering (defaultRegisterToCluster (gcfg n) ref))) as [Hok Hno].
  { unfold defaultRegisterToCluster, holds. case_decide; (split; [unfold phase_ok; eauto|]); simpl; tauto. }
  assert (∀ a ra, (gacts n ++ [(ref, Registering (defaultRegisterToCluster (gcfg n) ref))]) !! a = Some ra →
    holds n ra → gacts n !! a = Some ra) as Hold.
  { intros a ra [Ha|[_ Ha]]%lookup_app_Some; [done|]. apply list_lookup_singleton_Some in Ha as [_ <-]. done. }
  apply (lock_inv_insert cluster e); [done..| | | |].
  - intros a r ph [Ha|[_ Ha]]%lookup_app_Some; [by apply (li_act _ _ V i n a)|].
    apply list_lookup_singleton_Some in Ha as [_ [= <- <-]]. done.
  - intros Hal a ra Ha Hh. apply (li_entry _ _ V i n a); eauto.
  - intros Hal a b ra rb Ha Hb Ha' Hb'. apply (li_once _ _ V i n); eauto.
  - intros j m a ra _. apply (li_entry _ _ V).
Qed.

Lemma gs_act_inv cluster e ns i n a ref ph ph' e' : lock_inv cluster (e, ns) → ns !! i = Some n →
  gacts n !! a = Some (ref, ph) → act_next (gcfg n) ref (gprov n) ph e = (ph', e') →
  lock_inv cluster (e', <[i := GNode (gprov n) (gcfg n) (galive n) (<[a := (ref, ph')]> (gacts n))]> ns).
Proof.
  intros V Hi Ha Hs. destruct (li_act _ _ V i n a ref ph Hi Ha) as [Hg Hok].
  pose proof (act_next_spec (gcfg n) (gprov n) ref ph e n eq_refl eq_refl Hok) as H. rewrite Hs in H.
  rewrite (li_cluster _ _ V i n Hi) in H. set (key := grain_key cluster (GetId ref)) in *.
  destruct H as [Hok' H].
  (* entries of the other activations, and of this one, survive *)
  assert (∀ j m b rb, ns !! j = Some m → galive m = true → gacts m !! b = Some rb → holds m rb →
    (j, b) ≠ (i, a) → store e' !! grain_key cluster (GetId rb.1) = Some (gentry m)) as Hkeep.
  { intros j m b rb Hj Hm Hb Hh Hne. pose proof (li_entry _ _ V j m b rb Hj Hm Hb Hh) as HE. simpl in HE.
    destruct H as [[-> _]|[[Hn ->]|(Hha & _ & Hv & ->)]]; [done| |].
    - rewrite lookup_insert_ne; [done|]. intros Heq. unfold key in *. congruence.
    - destruct (decide (grain_key cluster (GetId rb.1) = key)) as [Heq|]; [|by rewrite lookup_delete_ne].
      destruct Hne. rewrite Heq in HE. rewrite HE in Hv. injection Hv as Hv.
      assert (j = i) as -> by (by apply (NoDup_map_lookup gaddr ns j i m n (li_addr _ _ V))).
      rewrite Hi in Hj. injection Hj as <-. f_equal. apply grain_key_inj in Heq.
      by apply (li_once _ _ V i n b a rb (ref, ph)). }
  assert (galive n = true → holds n (ref, ph') →
    (holds n (ref, ph) ∨ store e !! key = None) ∧ store e' !! key = Some (gentry n)) as Hown.
  { intros Hal Hh. destruct H as [[-> Hh']|[[Hn ->]|(_ & Hh' & _)]]; [| |done].
    - split; [by left; auto|]. apply (li_entry _ _ V i n a (ref, ph)); auto.
    - split; [by right|]. by rewrite lookup_insert_eq. }
  apply (lock_inv_insert cluster e); [done..| | | |].
  - intros b r p Hb. apply list_lookup_insert_Some in Hb as [(<- & [= <- <-] & _)|[_ Hb]]; [done|].
    by apply (li_act _ _ V i n b).
  - intros Hal b rb Hb Hh. apply list_lookup_insert_Some in Hb as [(<- & <- & _)|[Hne Hb]]; [by apply Hown|].
    apply (Hkeep i n b rb); [done..|congruence].
  - assert (galive n = true → ∀ b rb, a ≠ b → gacts n !! b = Some rb → holds n rb → holds n (ref, ph') →
      GetId ref = GetId rb.1 → False) as Hone.
    { intros Hal b rb Hne Hb Hhb Hh' Heq. destruct (Hown Hal Hh') as [[Hh|Hn] _].
      - by apply Hne, (li_once _ _ V i n a b (ref, ph) rb).
      - pose proof (li_entry _ _ V i n b rb Hi Hal Hb Hhb) as HE. simpl in HE. unfold key in Hn. congruence. }
    intros Hal b c rb rc Hb Hc Hhb Hhc Heq.
    apply list_lookup_insert_Some in Hb as [(<- & <- & _)|[Hne Hb]];
    apply list_lookup_insert_Some in Hc as [(<- & <- & _)|[Hne' Hc]]; [done| | |].
    + exfalso. by apply (Hone Hal c rc).
    + exfalso. by apply (Hone Hal b rb).
    + by apply (li_once _ _ V i n b c rb rc).
  - intros j m b rb Hne Hj Hm Hb Hh. apply (Hkeep j m b rb); [done..|congruence].
Qed.

Lemma gstep_inv cluster s s' : lock_inv cluster s → gstep cluster s s' → lock_inv cluster s'.
Proof.
  intros V Hstep.
  destruct Hstep as [e ns i n ref Hi Hg|e ns i n a ref ph ph' e' Hi Ha Hs|e ns i n e' Hi He|e ns e' He].
  - by apply gs_activate_inv.
  - by eapply gs_act_inv.
  - apply (lock_inv_insert cluster e); [done..| | | |]; [by intros a r ph; apply (li_act _ _ V i n a)|done|done|].
    intros j m a ra Hne Hj Hal Ha Hh. pose proof (li_entry _ _ V j m a ra Hj Hal Ha Hh) as HE. simpl in HE.
    rewrite He. unfold without_lease. apply map_lookup_filter_Some. split; [done|]. simpl. intros Hl.
    apply Hne. by apply (NoDup_map_lookup (λ n, leaseId (gprov n)) ns j i m n (li_lease _ _ V)).
  - destruct V as [V1 V2 V3 V4 V5 V6]. constructor; simpl in *; try done.
    intros i n a [ref ph] Hi Hal Ha Hh. rewrite He; [eauto|]. simpl. by apply (V1 i n a ref ph).
Qed.

Lemma greachable_inv cluster e0 ns0 s : booted cluster ns0 → greachable cluster e0 ns0 s → lock_inv cluster s.
Proof.
  intros (H1 & H2 & H3). induction 1 as [|s s' _ IH Hs]; [|by eapply gstep_inv].
  rewrite Forall_forall in H3.
  assert (∀ i n, ns0 !! i = Some n → clusterName (gcfg n) = cluster ∧ gacts n = []) as H4.
  { intros i n Hi. apply H3. by eapply list_elem_of_lookup_2. }
  constructor; simpl; [| | | |done|done]; intros i n; intros; destruct (H4 i n) as [? Hn]; try done;
    by rewrite Hn in *.
Qed.

Lemma runs_entry cluster s i n a ref : lock_inv cluster s → s.2 !! i = Some n → galive n = true →
  runs n a ref → store s.1 !! grain_key cluster (GetId ref) = Some (gentry n).
Proof. intros V Hi Hal [Ha Hk]. by apply (li_entry _ _ V i n a (ref, Running)). Qed.

(** [C8] A grain runs once.  Nodes of one cluster, with distinct leases and
    addresses, run the register and unregister functions of kind_opts.go call by
    call, in any interleaving with each other, with leases that end and with
    other traffic, and any call may fail or lose its answer.  In every reachable
    state: of the activations on nodes whose lease lives, of a kind their node
    hosts (another kind registers nowhere), at most one in the whole cluster
    runs a given actor id; the key "/cluster/id" of a running one carries the
    node's own address and lease; and no step of another node, an expired former
    owner that unregisters late included, takes that entry away. *)
Theorem single_activation (cluster : string) (e0 : E) (ns0 : list gnode) e ns
    (Hboot : booted cluster ns0) (Hr : greachable cluster e0 ns0 (e, ns)) :
  (∀ i j n m a b ref ref', ns !! i = Some n → ns !! j = Some m → galive n = true → galive m = true →
     runs n a ref → runs m b ref' → GetId ref = GetId ref' → i = j ∧ a = b) ∧
  (∀ i n a ref, ns !! i = Some n → galive n = true → runs n a ref →
     store e !! ("/" +:+ cluster +:+ "/" +:+ GetId ref) = Some (Entry (Address (state (gcfg n))) (leaseId (gprov n)))) ∧
  (∀ i n a ref e' ns', ns !! i = Some n → galive n = true → runs n a ref →
     gstep cluster (e, ns) (e', ns') → ns' !! i = Some n →
     store e' !! ("/" +:+ cluster +:+ "/" +:+ GetId ref) = Some (Entry (Address (state (gcfg n))) (leaseId (gprov n)))).
Proof.
  pose proof (greachable_inv _ _ _ _ Hboot Hr) as V. split_and!.
  - intros i j n m a b ref ref' Hi Hj Hn Hm Hra Hrb Heq.
    pose proof (runs_entry _ _ _ _ _ _ V Hi Hn Hra) as E1. pose proof (runs_entry _ _ _ _ _ _ V Hj Hm Hrb) as E2.
    rewrite Heq, E2 in E1. injection E1 as Ha _.
    assert (j = i) as -> by by apply (NoDup_map_lookup gaddr ns j i m n (li_addr _ _ V)).
    simpl in *. rewrite Hi in Hj. injection Hj as <-. split; [done|]. destruct Hra, Hrb.
    by apply (li_once _ _ V i n a b (ref, Running) (ref', Running)).
  - intros i n a ref. apply (runs_entry _ _ i n a ref V).
  - intros i n a ref e' ns' Hi Hn Hrun Hs Hi'.
    exact (runs_entry _ _ i n a ref (gstep_inv _ _ _ V Hs) Hi' Hn Hrun).
Qed.

(** ** What one registration does *)

Lemma register_attempts_spec (env : nat → E → E) attempts n key val x e :
  let '(ok, e') := reg_run env n (register_attempts attempts key val) x e in
  (ok = true → ∃ e1, store e1 !! key = None ∧ store e' = <[key := Entry val (leaseId x)]> (store e1)) ∧
  ((∀ k e1, store (env k e1) !! key = store e1 !! key) → is_Some (store e !! key) →
     ok = false ∧ store e' !! key = store e !! key).
Proof.
  revert n e. induction attempts as [|attempts IH]; intros n e; simpl; [done|].
  pose proof (setTxn_spec key val x (env n e)) as H.
  destruct (setTxn key val x (env n e)) as [[] e1]; simpl.
  - destruct H as [H1 H2]. split; [intros _; by eexists|]. intros Henv [v Hv]. rewrite Henv, Hv in H1. done.
  - specialize (IH (S n) e1). destruct (reg_run env (S n) (register_attempts attempts key val) x e1) as [ok e'].
    destruct IH as [IH1 IH2]. split; [done|]. intros Henv Hp.
    assert (store e1 !! key = store e !! key) as E1.
    { rewrite <-(Henv n e). rewrite <-(Henv n e) in Hp. destruct H as [->|[Hn _]]; [done|].
      rewrite Hn in Hp. by destruct Hp. }
    rewrite <-E1. apply IH2; [done|]. by rewrite E1.
Qed.

(** Registering a grain.  A kind this node does not host registers
    trivially and never talks to etcd.  Otherwise success means that at the
    instant of the winning attempt the grain's key was absent and now carries
    this node's address under its lease, and a key that exists, whoever wrote
    it, makes all three attempts fail and stays as it is. *)
Theorem register_default_spec (env : nat → E → E) cfg ref x e :
  let key := getActorRegisterName cfg ref in
  let '(ok, e') := reg_run env 0 (defaultRegisterToCluster cfg ref) x e in
  if decide (GetKind ref ∈ Kinds (state cfg)) then
    (ok = true → ∃ e1, store e1 !! key = None ∧
       store e' = <[key := Entry (Address (state cfg)) (leaseId x)]> (store e1)) ∧
    ((∀ k e1, store (env k e1) !! key = store e1 !! key) → is_Some (store e !! key) →
       ok = false ∧ store e' !! key = store e !! key)
  else ok = true ∧ e' = e.
Proof.
  intros key. unfold defaultRegisterToCluster. case_decide; [apply register_attempts_spec|done].
Qed.
End lock.

(** ** A concrete cluster *)

Definition lock_key : string := "/c/cluster/player/7".
Definition player_cfg (addr : string) : config unit_env :=
  MkConfig 1 "c" "v" [] 0 0 1 1 ":0" [] [] ∅ (NodeState 1 addr "v" "" ["player"]) None None.
Definition player_ref : ActorRef := newClusterActorRef "player" "7" 0 0.
Definition player_prov (lease : Z) : provider := MkProvider lease true true false 1 ∅ None 0.
Definition node_a (alive : bool) (acts : list (ActorRef * act_phase)) : gnode :=
  GNode (player_prov 7) (player_cfg "a:1") alive acts.
Definition node_b (acts : list (ActorRef * act_phase)) : gnode :=
  GNode (player_prov 8) (player_cfg "b:1") true acts.
Definition two_nodes : list gnode := [node_a true []; node_b []].

Lemma two_nodes_booted : booted "c" two_nodes.
Proof. split_and!; [vm_compute; repeat constructor; set_solver..|]. by repeat constructor. Qed.

Lemma player_ref_grain : grain_id (GetId player_ref).
Proof. exists "player/7". by left. Qed.

(** Node a wins the grain and runs it, its lease expires, node b takes the
    grain over, and node a, still running, unregisters late: node b keeps the
    lock. *)
Definition reg_a : act_phase := Registering (defaultRegisterToCluster (player_cfg "a:1") player_ref).
Definition reg_b : act_phase := Registering (defaultRegisterToCluster (player_cfg "b:1") player_ref).
Definition unreg_a : act_phase := Unregistering (defaultUnregisterFromCluster (player_cfg "a:1") player_ref).
Definition grain_at (ph : act_phase) : list (ActorRef * act_phase) := [(player_ref, ph)].
Definition taken (addr : string) (lease : Z) (r : Z) : sim := Sim {[lock_key := Entry addr lease]} r [] 0.

Lemma takeover_reachable :
  greachable "c" (Sim ∅ 1 [] 0) two_nodes
    (taken "b:1" 8 4,
     [node_a false (grain_at (Unregistering (RegReturn false))); node_b (grain_at Running)]).
Proof.
  apply (gr_step _ _ _ (taken "b:1" 8 3, [node_a false (grain_at unreg_a); node_b (grain_at Running)])).
  2: by apply (gs_act "c" _ [node_a false (grain_at unreg_a); node_b (grain_at Running)] 0%nat
       (node_a false (grain_at unreg_a)) 0%nat player_ref unreg_a).
  apply (gr_step _ _ _ (taken "b:1" 8 3, [node_a false (grain_at Running); node_b (grain_at Running)])).
  2: by apply (gs_act "c" _ [node_a false (grain_at Running); node_b (grain_at Running)] 0%nat
       (node_a false (grain_at Running)) 0%nat player_ref Running).
  apply (gr_step _ _ _ (taken "b:1" 8 3, [node_a false (grain_at Running);
    node_b (grain_at (Registering (RegReturn true)))])).
  2: by apply (gs_act "c" _ [node_a false (grain_at Running); node_b (grain_at (Registering (RegReturn true)))] 1%nat
       (node_b (grain_at (Registering (RegReturn true)))) 0%nat player_ref (Registering (RegReturn true))).
  apply (gr_step _ _ _ (Sim ∅ 2 [] 0, [node_a false (grain_at Running); node_b (grain_at reg_b)])).
  2: by apply (gs_act "c" _ [node_a false (grain_at Running); node_b (grain_at reg_b)] 1%nat
       (node_b (grain_at reg_b)) 0%nat player_ref reg_b).
  apply (gr_step _ _ _ (Sim ∅ 2 [] 0, [node_a false (grain_at Running); node_b []])).
  2: by apply (gs_activate "c" _ [node_a false (grain_at Running); node_b []] 1%nat (node_b []) player_ref eq_refl
       player_ref_grain).
  apply (gr_step _ _ _ (taken "a:1" 7 2, [node_a true (grain_at Running); node_b []])).
  2: by apply (gs_expire "c" _ [node_a true (grain_at Running); node_b []] 0%nat (node_a true (grain_at Running))).
  apply (gr_step _ _ _ (taken "a:1" 7 2, [node_a true (grain_at (Registering (RegReturn true))); node_b []])).
  2: by apply (gs_act "c" _ [node_a true (grain_at (Registering (RegReturn true))); node_b []] 0%nat
       (node_a true (grain_at (Registering (RegReturn true)))) 0%nat player_ref (Registering (RegReturn true))).
  apply (gr_step _ _ _ (Sim ∅ 1 [] 0, [node_a true (grain_at reg_a); node_b []])).
  2: by apply (gs_act "c" _ [node_a true (grain_at reg_a); node_b []] 0%nat (node_a true (grain_at reg_a)) 0%nat
       player_ref reg_a).
  eapply gr_step; [apply gr_init|].
  by apply (gs_activate "c" _ two_nodes 0%nat (node_a true []) player_ref eq_refl player_ref_grain).
Qed.

Lemma single_activation_witness : ∃ (e : sim) ns,
  greachable "c" (Sim ∅ 1 [] 0) two_nodes (e, ns) ∧
  store e !! lock_key = Some (Entry "b:1" 8).
Proof.
  eexists _, _. split; [exact takeover_reachable|].
  destruct (single_activation "c" _ two_nodes _ _ two_nodes_booted takeover_reachable) as (_ & H & _).
  apply (H 1%nat (node_b (grain_at Running)) 0%nat player_ref eq_refl eq_refl).
  split; [done|]. vm_compute. by left.
Defined.

Lemma register_default_spec_witness :
  let '(ok, e') := reg_run (λ _, id) 0 (defaultRegisterToCluster (player_cfg "a:1") player_ref) (player_prov 7) (Sim ∅ 1 [Failed] 0) in
  ok = true ∧ ∃ e1 : sim, store e1 !! lock_key = None ∧ store e' = <[lock_key := Entry "a:1" 7]> (store e1).
Proof.
  pose proof (register_default_spec (λ _, id) (player_cfg "a:1") player_ref (player_prov 7) (Sim ∅ 1 [Failed] 0)) as H.
  assert ((reg_run (λ _, id) 0 (defaultRegisterToCluster (player_cfg "a:1") player_ref) (player_prov 7) (Sim ∅ 1 [Failed] 0)).1 = true) as E
    by (vm_compute; reflexivity).
  destruct (reg_run _ _ _ _ _) as [ok e']. simpl in E. subst ok. split; [done|].
  rewrite decide_True in H by (vm_compute; set_solver). by apply H.
Defined.

Lemma sim_setTxn_present key v p (m : keyspace) r l : is_Some (m !! key) →
  setTxn key v p (Sim m r [] l) = (false, Sim m (r + 1) [] l).
Proof.
  intros [w Hw]. unfold setTxn. simpl. unfold sim_commit, sim_call, apply_txn. simpl. rewrite Hw. done.
Qed.

Lemma sim_setTxn_lost key v p (m : keyspace) r l : m !! key = None →
  setTxn key v p (Sim m r [AnswerLost] l) = (false, Sim (<[key := Entry v (leaseId p)]> m) (r + 1) [] l).
Proof.
  intros Hm. unfold setTxn. simpl. unfold sim_commit, sim_call, apply_txn. simpl. rewrite Hm. done.
Qed.

(** A lost answer orphans the lock.  When the first commit of an activation
    is applied but its answer is lost, which etcd permits, the retries run into
    the node's own entry: the registration reports failure, so the activation
    stops without owning the key and never unregisters it, and from then on no
    node can activate the grain, this one included, for as long as the entry's
    lease lives. *)
Theorem ambiguous_commit_orphans_lock (m : keyspace) (r l : Z) (p : provider) :
  m !! lock_key = None →
  let '(ok, e') := reg_run (λ _, id) 0 (defaultRegisterToCluster (player_cfg "a:1") player_ref) p (Sim m r [AnswerLost] l) in
  ok = false ∧ store e' !! lock_key = Some (Entry "a:1" (leaseId p)) ∧
  ∀ p', (reg_run (λ _, id) 0 (defaultRegisterToCluster (player_cfg "a:1") player_ref) p' e').1 = false.
Proof.
  intros Hm.
  assert (∀ p' (e : sim), let '(ok, e') := reg_run (λ _, id) 0 (defaultRegisterToCluster (player_cfg "a:1") player_ref) p' e in
    is_Some (store e !! lock_key) → ok = false ∧ store e' !! lock_key = store e !! lock_key) as Hfail.
  { intros p' e. pose proof (register_attempts_spec (λ _, id) defaultRegisterTimes 0 lock_key "a:1" p' e) as H.
    unfold defaultRegisterToCluster. rewrite decide_True by (vm_compute; set_solver).
    change (getActorRegisterName (player_cfg "a:1") player_ref) with lock_key.
    change (Address (state (player_cfg "a:1"))) with "a:1".
    destruct (reg_run _ _ _ _ _) as [ok e']. destruct H as [_ H]. intros. by apply H. }
  assert (∃ e2 : sim, store e2 !! lock_key = Some (Entry "a:1" (leaseId p)) ∧
    reg_run (λ _, id) 0 (defaultRegisterToCluster (player_cfg "a:1") player_ref) p (Sim m r [AnswerLost] l) = (false, e2)) as (e2 & H2 & ->).
  { unfold defaultRegisterToCluster. rewrite decide_True by (vm_compute; set_solver).
    change (getActorRegisterName (player_cfg "a:1") player_ref) with lock_key.
    change (Address (state (player_cfg "a:1"))) with "a:1". cbn [reg_run reg_do register_attempts defaultRegisterTimes id].
    rewrite (sim_setTxn_lost lock_key "a:1" p m r l Hm).
    set (m1 := <[lock_key := _]> m).
    assert (m1 !! lock_key = Some (Entry "a:1" (leaseId p))) as H1 by (unfold m1; by rewrite lookup_insert_eq).
    do 2 (cbn [reg_run reg_do register_attempts id]; rewrite sim_setTxn_present by by rewrite H1). eexists. split; [|reflexivity]. exact H1. }
  split_and!; [done..|]. intros p'. specialize (Hfail p' e2).
  destruct (reg_run _ _ _ p' e2) as [ok e']. apply Hfail. by eexists.
Qed.

Lemma ambiguous_commit_orphans_lock_witness :
  let '(ok, e') := reg_run (λ _, id) 0 (defaultRegisterToCluster (player_cfg "a:1") player_ref) (player_prov 7) (Sim ∅ 1 [AnswerLost] 0) in
  ok = false ∧ store e' !! lock_key = Some (Entry "a:1" 7).
Proof.
  pose proof (ambiguous_commit_orphans_lock ∅ 1 0 (player_prov 7) eq_refl) as H.
  destruct (reg_run _ _ _ _ _) as [ok e']. destruct H as (H1 & H2 & _). done.
Defined.
