(* ===== verification/Membership.v ===== *)
(** * The membership interface

    What the routing resolver relies on of the cluster provider ([iProvider]'s
    GetNodes and GetNodesVersion, provider.go): a snapshot paired with its
    version, a version counter that may run ahead of it, and a history in which
    snapshot versions never fall and one version means one node set. *)

From S2P Require Import Prelude.
From S2P Require Import Config.
From S2P Require Import Provider.
From S2P Require Import ProviderView.
Open Scope Z_scope.

Class Membership (P : Type) := {
  ms_nodes : P → list tNodeState * Z;         (* GetNodes *)
  ms_version : P → Z;                         (* GetNodesVersion *)
  ms_event : Type;
  ms_step : ms_event → P → option P;
  ms_ok : P → Prop;
  ms_hint_law : ∀ p, ms_ok p → (ms_nodes p).2 ≤ ms_version p;
  ms_step_ok : ∀ ev p p', ms_ok p → ms_step ev p = Some p' → ms_ok p';
  ms_step_mono : ∀ ev p p', ms_ok p → ms_step ev p = Some p' → (ms_nodes p).2 ≤ (ms_nodes p').2;
  ms_step_pair : ∀ ev p p', ms_ok p → ms_step ev p = Some p' →
    (ms_nodes p).2 = (ms_nodes p').2 → (ms_nodes p).1 ≡ₚ (ms_nodes p').1
}.

(** ** The etcd provider keeps it

    The version counter is bumped and the table changed first, the snapshot is
    stored after; readers take no lock, so both instants are events. *)

Section provider.
Context {Json : JsonCodec} {Range : MapRange}.

Inductive provider_event : Type :=
| PApply (op : EventType) (key value : string)
| PPublish.

(** Runs are below 2^63 - 1 membership changes. *)
Definition provider_step (ev : provider_event) (x : provider) : option provider :=
  match ev with
  | PApply op key value =>
      if decide (localProviderVersion x + 1 < 2 ^ 63)
      then Some (applyMemberLocked op key value x) else None
  | PPublish => Some (publishNodesLocked x)
  end.

Definition provider_ok (x : provider) : Prop :=
  0 ≤ localProviderVersion x < 2 ^ 63 ∧
  ∃ snap, nodes x = Some snap ∧ sversion snap ≤ localProviderVersion x ∧
    (sversion snap = localProviderVersion x → snodes snap ≡ₚ (map_to_list (nodeMap x)).*2).

Lemma applyMemberLocked_version op key value x :
  localProviderVersion (applyMemberLocked op key value x) = i64 (localProviderVersion x + 1) ∧
  nodes (applyMemberLocked op key value x) = nodes x.
Proof. unfold applyMemberLocked. destruct op; [destruct (json_Unmarshal value)|]; done. Qed.

#[export] Program Instance provider_membership : Membership provider := {|
  ms_nodes := GetNodes;
  ms_version := GetNodesVersion;
  ms_step := provider_step;
  ms_ok := provider_ok
|}.
Next Obligation.
  intros x (_ & snap & Hs & Hle & _). unfold GetNodes, GetNodesVersion. by rewrite Hs.
Qed.
Next Obligation.
  intros ev x x' (Hr & snap & Hs & Hle & Heq) E. destruct ev as [op key v|]; simpl in E.
  - case_decide as Hb; [|done]. injection E as <-. unfold provider_ok.
    destruct (applyMemberLocked_version op key v x) as [-> ->]. rewrite i64_id by (unfold in_i64; lia).
    split; [lia|]. exists snap. split_and!; [done|lia|lia].
  - injection E as <-. destruct (publish_published x) as (l & Hl & Hp). split; [done|].
    exists (MkSnapshot (localProviderVersion x) l). split_and!; [done|simpl; lia|done].
Qed.
Next Obligation.
  intros ev x x' (Hr & snap & Hs & Hle & Heq) E. unfold GetNodes. rewrite Hs. destruct ev as [op key v|]; simpl in E.
  - case_decide; [|done]. injection E as <-. destruct (applyMemberLocked_version op key v x) as [_ ->].
    by rewrite Hs.
  - injection E as <-. done.
Qed.
Next Obligation.
  intros ev x x' (Hr & snap & Hs & Hle & Heq) E. unfold GetNodes. rewrite Hs. destruct ev as [op key v|]; simpl in E.
  - case_decide; [|done]. injection E as <-. destruct (applyMemberLocked_version op key v x) as [_ ->].
    by rewrite Hs.
  - injection E as <-. simpl. intros Hv. rewrite (Heq Hv). symmetry.
    apply fmap_Permutation, map_range_perm.
Qed.
End provider.
