(* ===== verification/Routing.v ===== *)
(** * routing_resolver.go: where a message goes

    One system's resolver as a small-step machine over any number of concurrent
    [resolve] calls.  Generations are heap objects named by their index; the
    tiny route cache of a reference is found by the reference object itself
    ([ActorRef] carries its address), and other systems' resolvers may store
    their own entries in it.  [hist] and [floor] are ghost: the snapshots the
    provider has handed out, and the snapshot version when a call began. *)

From stdpp Require Import functions.
From S2P Require Import Prelude.
From S2P Require Import GoStrings.
From S2P Require Import ActorId.
From S2P Require Import Config.
From S2P Require Import AddrHash.
From S2P Require Import Membership.
Open Scope Z_scope.

Record resolvedRoute : Type := Route { raddress : string; rstream : option ActorRef }.

Record cachedActorRoute : Type := Cached { cresolver : nat; cversion : Z; croute : resolvedRoute }.

(** [actorRouteCache]. *)
Record route_cache : Type := Cache { centry : option cachedActorRoute; cmu : bool }.

(** [routingGeneration]. *)
Record generation : Type := Gen {
  gversion : Z;
  gnodes : list tNodeState;
  gstreams : gmap string ActorRef
}.

Inductive rpc : Type :=
| RBegin
| RHint                                        (* provider.GetNodesVersion *)
| RPeek (v : Z)                                (* r.generation.Load *)
| RRefresh (v : Z)                             (* refreshMu.Lock *)
| RRecheck (v : Z)                             (* Load again, under the lock *)
| RFetch (cur : option nat)                    (* provider.GetNodes *)
| RPublish (cur : option nat) (ns : list tNodeState) (sv : Z)  (* compare, r.generation.Store *)
| RCached (g : nat)                            (* cache.entry.Load *)
| RMiss (g : nat)                              (* resolveMiss: cache.mu.Lock *)
| RMissed (g : nat)                            (* Load again, under cache.mu *)
| RCompute (g : nat)                           (* the owner *)
| RStreamLoad (g : nat) (address : string)     (* g.streams.Load *)
| RStreamStore (g : nat) (address : string) (ref : ActorRef)   (* LoadOrStore *)
| RWrite (g : nat) (r : resolvedRoute)         (* the guarded entry.Store *)
| RDone (r : resolvedRoute).

Record rcall : Type := RCall { target : ActorRef; floor : Z; pc : rpc }.

Section routing.
Context {P : Type} {MS : Membership P}.
(** The system that resolves: its address, its identity, its resolver. *)
Context (addr : string) (sys me : nat).

Record rstate : Type := RState {
  prov : P;
  gens : list generation;
  current : option nat;
  refreshMu : bool;
  caches : ActorRef → route_cache;
  heap : nat;
  rcalls : list rcall;
  hist : list (list tNodeState * Z)
}.

Definition with_calls (s : rstate) (cs : list rcall) : rstate :=
  RState (prov s) (gens s) (current s) (refreshMu s) (caches s) (heap s) cs (hist s).
Definition with_refreshMu (s : rstate) (b : bool) : rstate :=
  RState (prov s) (gens s) (current s) b (caches s) (heap s) (rcalls s) (hist s).
Definition with_cache (s : rstate) (a : ActorRef) (c : route_cache) : rstate :=
  RState (prov s) (gens s) (current s) (refreshMu s) (<[a := c]> (caches s)) (heap s) (rcalls s) (hist s).
Definition with_gen (s : rstate) (g : generation) : rstate :=
  RState (prov s) (gens s ++ [g]) (Some (length (gens s))) (refreshMu s) (caches s) (heap s) (rcalls s) (hist s).
Definition with_stream (s : rstate) (k : nat) (g : generation) : rstate :=
  RState (prov s) (<[k := g]> (gens s)) (current s) (refreshMu s) (caches s) (heap s) (rcalls s) (hist s).
Definition with_heap (s : rstate) : rstate :=
  RState (prov s) (gens s) (current s) (refreshMu s) (caches s) (S (heap s)) (rcalls s) (hist s).

(** [entry != nil && entry.resolver == r && entry.version == generation.version]. *)
Definition cache_hit (c : route_cache) (v : Z) : option resolvedRoute :=
  match centry c with
  | Some e => if decide (cresolver e = me ∧ cversion e = v) then Some (croute e) else None
  | None => None
  end.

(** "An older in-flight resolution must not roll the shared route back." *)
Definition may_store (c : route_cache) (v : Z) : bool :=
  match centry c with
  | Some e => bool_decide (cresolver e ≠ me ∨ cversion e ≤ v)
  | None => true
  end.

Definition unlock (c : route_cache) : route_cache := Cache (centry c) false.

(** The stream reference of [streamRef]. *)
Definition stream_ref (address : string) (p : nat) : ActorRef :=
  newDirectActorRef defaultWriteStreamKind address addr sys p.

(** A loaded generation pointer, dereferenced. *)
Definition deref (s : rstate) (cur : option nat) : option (nat * generation) :=
  match cur with
  | Some k => match gens s !! k with Some g => Some (k, g) | None => None end
  | None => None
  end.

(** One step of call [i], which is [c]. *)
Definition rstep (i : nat) (c : rcall) (s : rstate) : option rstate :=
  let t := target c in
  let to s p := Some (with_calls s (<[i := RCall t (floor c) p]> (rcalls s))) in
  let cached := match routeCache t with Some _ => true | None => false end in
  match pc c with
  | RBegin =>
      if isDirect t && bool_decide (GetDirectAddr t = addr)
      then to s (RDone (Route (GetDirectAddr t) None)) else to s RHint
  | RHint => to s (RPeek (ms_version (prov s)))
  | RPeek v =>
      match deref s (current s) with
      | Some (k, g) => if decide (v ≤ gversion g) then to s (RCached k) else to s (RRefresh v)
      | None => to s (RRefresh v)
      end
  | RRefresh v => if refreshMu s then None else to (with_refreshMu s true) (RRecheck v)
  | RRecheck v =>
      match deref s (current s) with
      | Some (k, g) => if decide (v ≤ gversion g)
                       then to (with_refreshMu s false) (RCached k) else to s (RFetch (current s))
      | None => to s (RFetch (current s))
      end
  | RFetch cur => let '(ns, sv) := ms_nodes (prov s) in to s (RPublish cur ns sv)
  | RPublish cur ns sv =>
      match deref s cur with
      | Some (k, g) =>
          if decide (sv ≤ gversion g) then to (with_refreshMu s false) (RCached k)
          else to (with_refreshMu (with_gen s (Gen sv ns ∅)) false) (RCached (length (gens s)))
      | None => to (with_refreshMu (with_gen s (Gen sv ns ∅)) false) (RCached (length (gens s)))
      end
  | RCached k =>
      match gens s !! k with
      | None => None
      | Some g =>
          match (if cached then cache_hit (caches s t) (gversion g) else None) with
          | Some r => to s (RDone r)
          | None => if cached then to s (RMiss k) else to s (RCompute k)
          end
      end
  | RMiss k => if cmu (caches s t) then None
               else to (with_cache s t (Cache (centry (caches s t)) true)) (RMissed k)
  | RMissed k =>
      match gens s !! k with
      | None => None
      | Some g =>
          match cache_hit (caches s t) (gversion g) with
          | Some r => to (with_cache s t (unlock (caches s t))) (RDone r)
          | None => to s (RCompute k)
          end
      end
  | RCompute k =>
      match gens s !! k with
      | None => None
      | Some g =>
          let finish s r := to (if cached then with_cache s t (unlock (caches s t)) else s) (RDone r) in
          let next address :=
            if (isDirect t || negb (bool_decide (address = ""))) && negb (bool_decide (address = addr))
            then to s (RStreamLoad k address) else to s (RWrite k (Route address None)) in
          if isDirect t then next (GetDirectAddr t)
          else if isCluster t then next (CalcAddrByKind8Name (gnodes g) (GetKind t) (GetName t))
          else finish s (Route "" None)
      end
  | RStreamLoad k address =>
      match gens s !! k with
      | None => None
      | Some g =>
          match gstreams g !! address with
          | Some ref => to s (RWrite k (Route address (Some ref)))
          | None => to (with_heap s) (RStreamStore k address (stream_ref address (heap s)))
          end
      end
  | RStreamStore k address ref =>
      match gens s !! k with
      | None => None
      | Some g =>
          match gstreams g !! address with
          | Some actual => to s (RWrite k (Route address (Some actual)))
          | None => to (with_stream s k (Gen (gversion g) (gnodes g) (<[address := ref]> (gstreams g))))
                       (RWrite k (Route address (Some ref)))
          end
      end
  | RWrite k r =>
      match gens s !! k with
      | None => None
      | Some g =>
          if cached then
            let c0 := caches s t in
            let e := if may_store c0 (gversion g) then Some (Cached me (gversion g) r) else centry c0 in
            to (with_cache s t (Cache e false)) (RDone r)
          else to s (RDone r)
      end
  | RDone _ => None
  end.

Inductive rlabel : Type :=
| LCall (t : ActorRef)                              (* somebody resolves [t] *)
| LStep (i : nat)
| LMembers (ev : ms_event)                          (* the provider's watch *)
| LForeign (t : ActorRef) (e : cachedActorRoute).   (* another system's resolver stores *)

Definition rexec (l : rlabel) (s : rstate) : option rstate :=
  match l with
  | LCall t => Some (with_calls s (rcalls s ++ [RCall t (ms_nodes (prov s)).2 RBegin]))
  | LStep i => match rcalls s !! i with Some c => rstep i c s | None => None end
  | LMembers ev =>
      match ms_step ev (prov s) with
      | Some p => Some (RState p (gens s) (current s) (refreshMu s) (caches s) (heap s) (rcalls s)
                          (hist s ++ [ms_nodes p]))
      | None => None
      end
  | LForeign t e =>
      if decide (cresolver e ≠ me ∧ cmu (caches s t) = false)
      then Some (with_cache s t (Cache (Some e) false)) else None
  end.

Definition rinitial (p : P) : rstate :=
  RState p [] None false (λ _, Cache None false) 0 [] [ms_nodes p].

Inductive rreachable (p : P) : rstate → Prop :=
| rr_init : rreachable p (rinitial p)
| rr_step s l s' : rreachable p s → rexec l s = Some s' → rreachable p s'.

Fixpoint rrun (ls : list rlabel) (s : rstate) : option rstate :=
  match ls with
  | [] => Some s
  | l :: ls => match rexec l s with Some s' => rrun ls s' | None => None end
  end.

Lemma rrun_reachable p ls s s' : rreachable p s → rrun ls s = Some s' → rreachable p s'.
Proof.
  revert s. induction ls as [|l ls IH]; simpl; intros s Hr E; [by simplify_eq|].
  destruct (rexec l s) as [s1|] eqn:E1; [|done]. eapply IH; [|done]. by econstructor.
Qed.

(** ** The specification: the route of a target over one node set *)

Definition owner_address (ns : list tNodeState) (t : ActorRef) : string :=
  if isDirect t then GetDirectAddr t
  else if isCluster t then CalcAddrByKind8Name ns (GetKind t) (GetName t) else "".

Definition remote_route (ns : list tNodeState) (t : ActorRef) : bool :=
  (isDirect t || isCluster t && negb (bool_decide (owner_address ns t = ""))) &&
  negb (bool_decide (owner_address ns t = addr)).

Definition route_ok (ns : list tNodeState) (t : ActorRef) (r : resolvedRoute) : Prop :=
  raddress r = owner_address ns t ∧
  match rstream r with
  | Some ref => remote_route ns t = true ∧ ∃ p, ref = stream_ref (raddress r) p
  | None => remote_route ns t = false
  end.
End routing.
