(* ===== verification/RoutingThms.v ===== *)
(** * Routes are right, and never roll back

    The invariant of the resolver machine and its two theorems. *)

From stdpp Require Import functions.
From S2P Require Import Prelude.
From S2P Require Import GoStrings.
From S2P Require Import ActorId.
From S2P Require Import Config.
From S2P Require Import AddrHash.
From S2P Require Import Membership.
From S2P Require Import Routing.
Open Scope Z_scope.

Section thms.
Context {P : Type} {MS : Membership P} (addr : string) (sys me : nat).
Local Abbreviation rstate := (rstate (P := P)).
Local Abbreviation route_ok := (route_ok addr sys).
Local Abbreviation stream_ref := (stream_ref addr sys).
Local Abbreviation rexec := (rexec addr sys me).
Local Abbreviation rstep := (rstep addr sys me).
Implicit Types (s : rstate) (c : rcall) (t : ActorRef).

(** A route that was right at some snapshot no older than the call. *)
Definition routed s c (r : resolvedRoute) : Prop :=
  ∃ ns v, (ns, v) ∈ hist s ∧ floor c ≤ v ∧ route_ok ns (target c) r.

Definition at_gen s c (k : nat) (Q : generation → Prop) : Prop :=
  ∃ g, gens s !! k = Some g ∧ floor c ≤ gversion g ∧ Q g.

Definition call_ok s c : Prop :=
  floor c ≤ (ms_nodes (prov s)).2 ∧
  match pc c with
  | RBegin | RHint | RFetch _ => True
  | RPeek v | RRefresh v | RRecheck v => floor c ≤ v
  | RPublish _ ns sv => (ns, sv) ∈ hist s ∧ floor c ≤ sv
  | RCached k | RMiss k | RMissed k | RCompute k => at_gen s c k (λ _, True)
  | RStreamLoad k a => at_gen s c k (λ g, remote_route addr (gnodes g) (target c) = true ∧
      a = owner_address (gnodes g) (target c))
  | RStreamStore k a ref => at_gen s c k (λ g, remote_route addr (gnodes g) (target c) = true ∧
      a = owner_address (gnodes g) (target c)) ∧ ∃ p, ref = stream_ref a p
  | RWrite k r => at_gen s c k (λ g, route_ok (gnodes g) (target c) r)
  | RDone r => routed s c r
  end.

(** Everything but the calls. *)
Record glob_ok s : Prop := {
  go_ok : ms_ok (prov s);
  go_hist : ms_nodes (prov s) ∈ hist s;
  go_gens : ∀ k g, gens s !! k = Some g → (gnodes g, gversion g) ∈ hist s ∧
    ∀ a ref, gstreams g !! a = Some ref → ∃ p, ref = stream_ref a p;
  go_cur : ∀ k, current s = Some k → is_Some (gens s !! k);
  go_cache : ∀ t e, centry (caches s t) = Some e → cresolver e = me →
    ∃ ns, (ns, cversion e) ∈ hist s ∧ route_ok ns t (croute e)
}.

(** The refresh lock: its holder, and what it loaded. *)
Definition refreshing (p : rpc) : bool :=
  match p with RRecheck _ | RFetch _ | RPublish _ _ _ => true | _ => false end.
Definition loaded (p : rpc) : option (option nat) :=
  match p with RFetch cur | RPublish cur _ _ => Some cur | _ => None end.
Definition holders (cs : list rcall) : Z := sum_of (λ c, if refreshing (pc c) then 1 else 0) cs.

Record rinv s : Prop := {
  ri_glob : glob_ok s;
  ri_calls : ∀ i c, rcalls s !! i = Some c → call_ok s c;
  ri_lock : (if refreshMu s then 1 else 0) = holders (rcalls s);
  ri_loaded : ∀ i c cur, rcalls s !! i = Some c → loaded (pc c) = Some cur → cur = current s
}.

(** What later states keep of earlier ones. *)
Record rle s s' : Prop := {
  rl_prov : (ms_nodes (prov s)).2 ≤ (ms_nodes (prov s')).2;
  rl_hist : ∀ x, x ∈ hist s → x ∈ hist s';
  rl_gens : ∀ k g, gens s !! k = Some g →
    ∃ g', gens s' !! k = Some g' ∧ gversion g' = gversion g ∧ gnodes g' = gnodes g ∧
          gstreams g ⊆ gstreams g'
}.

Lemma rle_refl s s' : prov s' = prov s → hist s' = hist s → gens s' = gens s → rle s s'.
Proof. intros E1 E2 E3. constructor; rewrite ?E1, ?E2, ?E3; [done|done|]. intros k g Hg. by exists g. Qed.

Lemma at_gen_mono s s' c k (Q : generation → Prop) :
  rle s s' → (∀ g g', gnodes g' = gnodes g → Q g → Q g') → at_gen s c k Q → at_gen s' c k Q.
Proof.
  intros H HQ (g & Hg & Hf & Hq). destruct (rl_gens _ _ H k g Hg) as (g' & Hg' & Hv & Hn & _).
  exists g'. rewrite Hv. split_and!; [done|done|by apply (HQ g g')].
Qed.

Lemma call_ok_mono s s' c : rle s s' → call_ok s c → call_ok s' c.
Proof.
  intros H [H1 H2]. split; [pose proof (rl_prov _ _ H); lia|].
  destruct (pc c); try done.
  - destruct H2. split; [by apply (rl_hist _ _ H)|done].
  - by eapply at_gen_mono.
  - by eapply at_gen_mono.
  - by eapply at_gen_mono.
  - by eapply at_gen_mono.
  - eapply at_gen_mono; [done| |done]. by intros ? ? ->.
  - destruct H2 as [H2 H3]. split; [|done]. eapply at_gen_mono; [done| |done]. by intros ? ? ->.
  - eapply at_gen_mono; [done| |done]. by intros ? ? ->.
  - destruct H2 as (ns & v & Hh & Hf & Hr). exists ns, v. split_and!; [by apply (rl_hist _ _ H)|done|done].
Qed.

(** Assembling a step of call [i] from its effect [s1] on the shared state. *)
Lemma rinv_call s s1 i c p :
  rinv s → rcalls s !! i = Some c → rle s s1 → glob_ok s1 →
  call_ok s1 (RCall (target c) (floor c) p) →
  (if refreshMu s1 then 1 else 0) - (if refreshMu s then 1 else 0)
    = (if refreshing p then 1 else 0) - (if refreshing (pc c) then 1 else 0) →
  (∀ cur, loaded p = Some cur → cur = current s1) →
  current s1 = current s ∨ refreshing (pc c) = true →
  rinv (with_calls s1 (<[i := RCall (target c) (floor c) p]> (rcalls s))).
Proof.
  intros V Hi Hle Hg Hc Hlk Hld Hcur. constructor; simpl; [by destruct Hg; constructor| | |].
  - intros j d Hj. apply list_lookup_insert_Some in Hj as [(<- & <- & _)|[_ Hj]]; [done|].
    apply (call_ok_mono s s1); [done|]. by apply (ri_calls _ V j).
  - unfold holders. rewrite (sum_of_insert _ _ _ c) by done. simpl.
    pose proof (ri_lock _ V) as HL. unfold holders in HL. lia.
  - intros j d cur Hj Hd. apply list_lookup_insert_Some in Hj as [(<- & <- & _)|[Hne Hj]]; [by apply Hld|].
    rewrite (ri_loaded _ V j d cur Hj Hd). destruct Hcur as [->|Hr]; [done|].
    exfalso. pose proof (sum_of_two (λ c, if refreshing (pc c) then 1 else 0) (rcalls s) i j c d) as H2.
    cbv beta in H2. rewrite Hr in H2. assert (refreshing (pc d) = true) as Hd' by by destruct (pc d).
    rewrite Hd' in H2. pose proof (ri_lock _ V) as HL. unfold holders in HL.
    specialize (H2 ltac:(intros a; destruct (refreshing (pc a)); lia) Hi Hj ltac:(done)).
    destruct (refreshMu s); lia.
Qed.

(** ** The shared effects *)

Lemma glob_same s s1 : glob_ok s → prov s1 = prov s → hist s1 = hist s → gens s1 = gens s →
  current s1 = current s → caches s1 = caches s → glob_ok s1.
Proof.
  intros [H1 H2 H3 H4 H5] E1 E2 E3 E4 E5. constructor; rewrite ?E1, ?E2, ?E3, ?E4, ?E5; done.
Qed.

(** Publishing a generation made of a snapshot the provider handed out. *)
Lemma glob_publish s b ns sv : glob_ok s → (ns, sv) ∈ hist s →
  glob_ok (with_refreshMu (with_gen s (Gen sv ns ∅)) b) ∧
  rle s (with_refreshMu (with_gen s (Gen sv ns ∅)) b).
Proof.
  intros [H1 H2 H3 H4 H5] Hin. split; constructor; simpl; try done.
  - intros k g Hg. apply lookup_app_Some in Hg as [Hg|[Hge Hg]]; [eauto|].
    apply list_lookup_singleton_Some in Hg as [_ <-]. simpl. split; [done|]. intros a ref. by rewrite lookup_empty.
  - intros k [= <-]. exists (Gen sv ns ∅). rewrite lookup_app_r by done. by rewrite Nat.sub_diag.
  - intros k g Hg. exists g. split; [by apply lookup_app_l_Some|done].
Qed.

(** Changing one cache: the entry it had, or one of this resolver's that is right. *)
Lemma glob_cache s t e b : glob_ok s →
  (∀ x, e = Some x → cresolver x = me → centry (caches s t) = Some x ∨
     ∃ ns, (ns, cversion x) ∈ hist s ∧ route_ok ns t (croute x)) →
  glob_ok (with_cache s t (Cache e b)).
Proof.
  intros [H1 H2 H3 H4 H5] He. constructor; simpl; try done. intros t' x Hx Hme.
  destruct (decide (t' = t)) as [->|Hne].
  - rewrite fn_lookup_insert in Hx. simpl in Hx. destruct (He x Hx Hme) as [H|H]; [by apply H5|done].
  - rewrite fn_lookup_insert_ne in Hx by done. by apply H5.
Qed.

(** Adding a stream reference to a generation. *)
Lemma glob_stream s k g a p : glob_ok s → gens s !! k = Some g → gstreams g !! a = None →
  let s1 := with_stream s k (Gen (gversion g) (gnodes g) (<[a := stream_ref a p]> (gstreams g))) in
  glob_ok s1 ∧ rle s s1.
Proof.
  intros [H1 H2 H3 H4 H5] Hg Ha. destruct (H3 k g Hg) as [Hh Hs].
  split; constructor; simpl; try done.
  - intros k' g' Hg'. apply list_lookup_insert_Some in Hg' as [(<- & <- & _)|[_ Hg']]; [|eauto].
    simpl. split; [done|]. intros a' ref Hr. destruct (decide (a' = a)) as [->|].
    + rewrite lookup_insert_eq in Hr. simplify_eq. by exists p.
    + rewrite lookup_insert_ne in Hr by done. eauto.
  - intros k' Hk'. destruct (decide (k' = k)) as [->|].
    + rewrite list_lookup_insert_eq by (by eapply lookup_lt_Some). done.
    + rewrite list_lookup_insert_ne by done. by apply H4.
  - intros k' g' Hg'. destruct (decide (k' = k)) as [->|].
    + simplify_eq. eexists. rewrite list_lookup_insert_eq by (by eapply lookup_lt_Some).
      split_and!; [done|done|done|]. by apply insert_subseteq.
    + exists g'. by rewrite list_lookup_insert_ne.
Qed.

Lemma deref_spec s cur k g : deref s cur = Some (k, g) → cur = Some k ∧ gens s !! k = Some g.
Proof. unfold deref. destruct cur as [k'|]; [|done]. destruct (gens s !! k') eqn:E; [|done]. by intros [= -> ->]. Qed.

Lemma cache_hit_spec (k : route_cache) v r : cache_hit me k v = Some r →
  ∃ e, centry k = Some e ∧ cresolver e = me ∧ cversion e = v ∧ croute e = r.
Proof.
  unfold cache_hit. destruct (centry k) as [e|]; [|done]. case_decide as H; [|done].
  intros [= <-]. exists e. tauto.
Qed.

Lemma hit_routed s c g r : glob_ok s → floor c ≤ gversion g →
  cache_hit me (caches s (target c)) (gversion g) = Some r → routed s c r.
Proof.
  intros V Hf (e & He & Hme & Hv & Hr)%cache_hit_spec.
  destruct (go_cache _ V _ _ He Hme) as (ns & Hin & Hok). exists ns, (cversion e).
  rewrite Hv in *. by rewrite <-Hr.
Qed.

(** ** Every step keeps the invariant *)

(** [route_ok] for the route a call is about to write or return. *)
Lemma route_none ns t : remote_route addr ns t = false → route_ok ns t (Route (owner_address ns t) None).
Proof. by split. Qed.

Lemma remote_route_direct ns t : isDirect t = true →
  remote_route addr ns t = negb (bool_decide (GetDirectAddr t = addr)).
Proof. intros Ht. unfold remote_route, owner_address. by rewrite Ht. Qed.

Lemma remote_route_cluster ns t : isDirect t = false → isCluster t = true →
  remote_route addr ns t = negb (bool_decide (owner_address ns t = "")) && negb (bool_decide (owner_address ns t = addr)).
Proof. intros H1 H2. unfold remote_route. by rewrite H1, H2. Qed.

(** One step of call [i], by the function of the source it belongs to. *)
Section one_step.
Context (i : nat) (c : rcall) (s : rstate).
Hypothesis V : rinv s.
Hypothesis Hi : rcalls s !! i = Some c.
Abbreviation moves s1 p := (with_calls s1 (<[i := RCall (target c) (floor c) p]> (rcalls s))).

Lemma step_to s1 p s' : s' = moves s1 p →
  rle s s1 → glob_ok s1 → call_ok s1 (RCall (target c) (floor c) p) →
  (if refreshMu s1 then 1 else 0) - (if refreshMu s then 1 else 0)
    = (if refreshing p then 1 else 0) - (if refreshing (pc c) then 1 else 0) →
  (∀ cur, loaded p = Some cur → cur = current s1) →
  current s1 = current s ∨ refreshing (pc c) = true → rinv s' ∧ rle s s'.
Proof.
  intros -> Hle Hg Hc Hlk Hld Hcur. split; [by apply rinv_call|]. destruct Hle as [L1 L2 L3]. by constructor.
Qed.

(** ... that only moves the call, *)
Lemma step_pure p s' : s' = moves s p → refreshing p = refreshing (pc c) →
  call_ok s (RCall (target c) (floor c) p) →
  (∀ cur, loaded p = Some cur → cur = current s) → rinv s' ∧ rle s s'.
Proof.
  intros -> Hr Hc Hld. apply (step_to s p _); try done; [by apply rle_refl|apply V|rewrite Hr; lia|by left].
Qed.

(** ... that takes or gives back the refresh lock, *)
Lemma step_mu b p s' : s' = moves (with_refreshMu s b) p →
  (if b then 1 else 0) - (if refreshMu s then 1 else 0)
    = (if refreshing p then 1 else 0) - (if refreshing (pc c) then 1 else 0) →
  call_ok s (RCall (target c) (floor c) p) →
  (∀ cur, loaded p = Some cur → cur = current s) → rinv s' ∧ rle s s'.
Proof.
  intros -> Hlk Hc Hld. apply (step_to (with_refreshMu s b) p _); try done;
    [by apply rle_refl|by apply (glob_same s); [apply V|..]|by left].
Qed.

(** ... or that changes the target's cache. *)
Lemma step_cache e b p s' : s' = moves (with_cache s (target c) (Cache e b)) p →
  (∀ x, e = Some x → cresolver x = me → centry (caches s (target c)) = Some x ∨
     ∃ ns, (ns, cversion x) ∈ hist s ∧ route_ok ns (target c) (croute x)) →
  refreshing p = refreshing (pc c) → call_ok s (RCall (target c) (floor c) p) →
  loaded p = None → rinv s' ∧ rle s s'.
Proof.
  intros -> He Hr Hc Hld. apply (step_to (with_cache s (target c) (Cache e b)) p _); try done;
    [by apply rle_refl|by apply glob_cache, He; apply V|simpl; rewrite Hr; lia|by rewrite Hld|by left].
Qed.

Lemma lock_held : refreshing (pc c) = true → refreshMu s = true.
Proof.
  intros Hr. pose proof (sum_of_elem (λ c, if refreshing (pc c) then 1 else 0) (rcalls s) i c) as H.
  cbv beta in H. rewrite Hr in H. pose proof (ri_lock _ V) as HL. unfold holders in HL.
  specialize (H ltac:(intros a; destruct (refreshing (pc a)); lia) Hi). destruct (refreshMu s); [done|lia].
Qed.

Lemma call_here : call_ok s c.
Proof. by apply (ri_calls _ V i). Qed.

Lemma snapshot_here : ms_nodes (prov s) ∈ hist s.
Proof. apply (go_hist _ (ri_glob _ V)). Qed.

(** A generation no older than the call, found under its pointer. *)
Lemma at_gen_deref cur k g v : deref s cur = Some (k, g) → v ≤ gversion g → floor c ≤ v →
  at_gen s c k (λ _, True).
Proof. intros [_ Hg]%deref_spec Hv Hf. exists g. split_and!; [done|lia|done]. Qed.

Abbreviation kept s' := (rinv s' ∧ rle s s').
Abbreviation step_keeps := (∀ s', rstep i c s = Some s' → kept s').

(** [resolve] up to the generation. *)
Lemma step_begin : pc c = RBegin → step_keeps.
Proof.
  intros Hp s' E. pose proof call_here as [Hfl _]. unfold Routing.rstep in E. rewrite Hp in E.
  destruct (isDirect (target c) && bool_decide (GetDirectAddr (target c) = addr)) eqn:Hd; simplify_eq.
  - apply andb_true_iff in Hd as [Hd Ha]. eapply step_pure; [reflexivity|by rewrite Hp| |done]. split; [done|]. simpl.
    pose proof snapshot_here as Hh. destruct (ms_nodes (prov s)) as [ns v] eqn:Hm. exists ns, v.
    split_and!; [done|done|]. simpl. split; simpl.
    + unfold owner_address. by rewrite Hd.
    + by rewrite remote_route_direct, Ha by done.
  - eapply step_pure; [reflexivity|by rewrite Hp|by split|done].
Qed.

(** [currentGeneration]: the hint, the load, and the load again under the lock. *)
Lemma step_hint : pc c = RHint → step_keeps.
Proof.
  intros Hp s' E. pose proof call_here as [Hfl _]. unfold Routing.rstep in E. rewrite Hp in E. simplify_eq.
  eapply step_pure; [reflexivity|by rewrite Hp| |done]. split; [done|]. simpl.
  pose proof (ms_hint_law _ (go_ok _ (ri_glob _ V))). lia.
Qed.

Lemma step_peek v : pc c = RPeek v → step_keeps.
Proof.
  intros Hp s' E. pose proof call_here as [Hfl Hv]. unfold Routing.rstep in E. rewrite Hp in E, Hv. cbn in Hv.
  destruct (deref s (current s)) as [[k g]|] eqn:Hd; [case_decide|]; simplify_eq;
    (eapply step_pure; [reflexivity|by rewrite Hp|split; [done|]|done]); try done.
  by eapply at_gen_deref.
Qed.

Lemma step_refresh v : pc c = RRefresh v → step_keeps.
Proof.
  intros Hp s' E. pose proof call_here as [Hfl Hv]. unfold Routing.rstep in E. rewrite Hp in E, Hv. cbn in Hv.
  destruct (refreshMu s) eqn:Hm; simplify_eq. eapply (step_mu true); [reflexivity|by rewrite Hm, Hp|by split|done].
Qed.

Lemma step_recheck v : pc c = RRecheck v → step_keeps.
Proof.
  intros Hp s' E. pose proof call_here as [Hfl Hv]. unfold Routing.rstep in E. rewrite Hp in E, Hv. cbn in Hv.
  pose proof lock_held as Hheld. rewrite Hp in Hheld. specialize (Hheld eq_refl).
  destruct (deref s (current s)) as [[k g]|] eqn:Hd; [case_decide|]; simplify_eq.
  - eapply (step_mu false); [reflexivity|by rewrite Hheld, Hp| |done]. split; [done|]. by eapply at_gen_deref.
  - eapply step_pure; [reflexivity|by rewrite Hp|by split|]. by intros cur [= <-].
  - eapply step_pure; [reflexivity|by rewrite Hp|by split|]. by intros cur [= <-].
Qed.

Lemma step_fetch cur : pc c = RFetch cur → step_keeps.
Proof.
  intros Hp s' E. pose proof call_here as [Hfl _]. pose proof snapshot_here as Hh.
  unfold Routing.rstep in E. rewrite Hp in E. destruct (ms_nodes (prov s)) as [ns sv] eqn:Hm. simplify_eq.
  eapply step_pure; [reflexivity|by rewrite Hp| |].
  - split; [by rewrite Hm|]. done.
  - intros cur' [= <-]. apply (ri_loaded _ V i c cur Hi). by rewrite Hp.
Qed.

Lemma step_publish cur ns sv : pc c = RPublish cur ns sv → step_keeps.
Proof.
  intros Hp s' E. pose proof call_here as [Hfl Hpc]. unfold Routing.rstep in E. rewrite Hp in E, Hpc.
  pose proof lock_held as Hheld. rewrite Hp in Hheld. specialize (Hheld eq_refl). destruct Hpc as [Hin Hsv].
  destruct (glob_publish s false ns sv (ri_glob _ V) Hin) as [Hg1 Hl1].
  assert (s' = moves (with_refreshMu (with_gen s (Gen sv ns ∅)) false) (RCached (length (gens s))) → kept s') as Hnew.
  { intros E'. eapply step_to; [exact E'|done|done| |by rewrite Hheld, Hp|done|right; by rewrite Hp].
    split; [done|]. exists (Gen sv ns ∅). simpl. rewrite lookup_app_r, Nat.sub_diag by done. done. }
  destruct (deref s cur) as [[k g]|] eqn:Hd; [case_decide|]; simplify_eq; [|by apply Hnew..].
  eapply (step_mu false); [reflexivity|by rewrite Hheld, Hp| |done]. split; [done|]. by eapply at_gen_deref.
Qed.

(** The two looks at the cache. *)
Lemma step_cached k : pc c = RCached k → step_keeps.
Proof.
  intros Hp s' E. pose proof call_here as [Hfl Hpc]. unfold Routing.rstep in E. rewrite Hp in E, Hpc.
  destruct Hpc as (g & Hg & Hf & _). rewrite Hg in E. destruct (routeCache (target c)).
  - destruct (cache_hit me (caches s (target c)) (gversion g)) as [r|] eqn:Hh; simplify_eq;
      (eapply step_pure; [reflexivity|by rewrite Hp|split; [done|]|done]); [|by exists g].
    by apply (hit_routed s c g); [apply V|..].
  - simplify_eq. eapply step_pure; [reflexivity|by rewrite Hp|split; [done|]|done]. by exists g.
Qed.

Lemma step_miss k : pc c = RMiss k → step_keeps.
Proof.
  intros Hp s' E. pose proof call_here as [Hfl Hpc]. unfold Routing.rstep in E. rewrite Hp in E, Hpc.
  destruct (cmu (caches s (target c))); simplify_eq.
  eapply (step_cache (centry (caches s (target c))) true); [reflexivity|intros x; by left|by rewrite Hp|by split|done].
Qed.

Lemma step_missed k : pc c = RMissed k → step_keeps.
Proof.
  intros Hp s' E. pose proof call_here as [Hfl Hpc]. unfold Routing.rstep in E. rewrite Hp in E, Hpc.
  destruct Hpc as (g & Hg & Hf & _). rewrite Hg in E.
  destruct (cache_hit me (caches s (target c)) (gversion g)) as [r|] eqn:Hh; simplify_eq.
  - eapply (step_cache (centry (caches s (target c))) false); [reflexivity|intros x; by left|by rewrite Hp| |done].
    split; [done|]. by apply (hit_routed s c g); [apply V|..].
  - eapply step_pure; [reflexivity|by rewrite Hp|split; [done|]|done]. by exists g.
Qed.

(** [resolveMiss]: the owner, its stream, the guarded store. *)
Lemma step_compute k : pc c = RCompute k → step_keeps.
Proof.
  intros Hp s' E. pose proof call_here as [Hfl Hpc]. unfold Routing.rstep in E. rewrite Hp in E, Hpc.
  destruct Hpc as (g & Hg & Hf & _). rewrite Hg in E.
  assert (∀ a, a = owner_address (gnodes g) (target c) →
    remote_route addr (gnodes g) (target c) = (isDirect (target c) || negb (bool_decide (a = ""))) && negb (bool_decide (a = addr)) →
    (if (isDirect (target c) || negb (bool_decide (a = ""))) && negb (bool_decide (a = addr))
     then Some (moves s (RStreamLoad k a)) else Some (moves s (RWrite k (Route a None)))) = Some s' → kept s') as Hnext.
  { intros a Ha Hr E'. rewrite <-Hr in E'.
    destruct (remote_route addr (gnodes g) (target c)) eqn:Hrr; simplify_eq;
      (eapply step_pure; [reflexivity|by rewrite Hp|split; [done|]; exists g; by split_and!|done]). }
  destruct (isDirect (target c)) eqn:Hd; [|destruct (isCluster (target c)) eqn:Hcl].
  - apply (Hnext (GetDirectAddr (target c))); [unfold owner_address; by rewrite Hd|by rewrite remote_route_direct|done].
  - assert (owner_address (gnodes g) (target c) = CalcAddrByKind8Name (gnodes g) (GetKind (target c)) (GetName (target c))) as Ho
      by (unfold owner_address; by rewrite Hd, Hcl).
    apply (Hnext (CalcAddrByKind8Name (gnodes g) (GetKind (target c)) (GetName (target c))));
      [done|by rewrite remote_route_cluster, Ho by done|done].
  - assert (routed s c (Route "" None)) as Hrt.
    { exists (gnodes g), (gversion g). destruct (go_gens _ (ri_glob _ V) k g Hg) as [Hin _]. split_and!; [done|done|].
      split; unfold remote_route, owner_address; simpl; by rewrite Hd, Hcl. }
    destruct (routeCache (target c)); simplify_eq.
    + eapply (step_cache (centry (caches s (target c))) false); [reflexivity|intros x; by left|by rewrite Hp|by split|done].
    + eapply step_pure; [reflexivity|by rewrite Hp|by split|done].
Qed.

(** A stream reference found in the generation. *)
Lemma found_stream k g a ref : gens s !! k = Some g → floor c ≤ gversion g → gstreams g !! a = Some ref →
  remote_route addr (gnodes g) (target c) = true → a = owner_address (gnodes g) (target c) →
  at_gen s c k (λ g, route_ok (gnodes g) (target c) (Route a (Some ref))).
Proof.
  intros Hg Hf Hs Hr Ha. exists g. split_and!; [done|done|]. simpl. split; simpl; [done|]. split; [done|].
  destruct (go_gens _ (ri_glob _ V) k g Hg) as [_ H]. by apply H.
Qed.

Lemma step_stream_load k a : pc c = RStreamLoad k a → step_keeps.
Proof.
  intros Hp s' E. pose proof call_here as [Hfl Hpc]. unfold Routing.rstep in E. rewrite Hp in E, Hpc.
  destruct Hpc as (g & Hg & Hf & Hr & Ha). rewrite Hg in E.
  destruct (gstreams g !! a) as [ref|] eqn:Hs; simplify_eq.
  - eapply step_pure; [reflexivity|by rewrite Hp|split; [done|]|done]. by eapply found_stream.
  - eapply (step_to (with_heap s)); [reflexivity|by apply rle_refl|by apply (glob_same s); [apply V|..]| |simpl; rewrite Hp; simpl; lia|done|by left].
    split; [done|]. simpl. split; [by exists g|by eexists].
Qed.

Lemma step_stream_store k a ref : pc c = RStreamStore k a ref → step_keeps.
Proof.
  intros Hp s' E. pose proof call_here as [Hfl Hpc]. unfold Routing.rstep in E. rewrite Hp in E, Hpc.
  destruct Hpc as [(g & Hg & Hf & Hr & Ha) [p ->]]. rewrite Hg in E.
  destruct (gstreams g !! a) as [ref'|] eqn:Hs; simplify_eq.
  - eapply step_pure; [reflexivity|by rewrite Hp|split; [done|]|done]. by eapply found_stream.
  - destruct (glob_stream s k g _ p (ri_glob _ V) Hg Hs) as [Hg1 Hl1].
    eapply step_to; [reflexivity|done|done| |simpl; rewrite Hp; simpl; lia|done|by left].
    split; [done|]. unfold at_gen. simpl.
    rewrite list_lookup_insert_eq by (by eapply lookup_lt_Some). eexists.
    split_and!; [done|done|]. simpl. split; simpl; [done|]. split; [done|by eexists].
Qed.

Lemma step_write k r : pc c = RWrite k r → step_keeps.
Proof.
  intros Hp s' E. pose proof call_here as [Hfl Hpc]. unfold Routing.rstep in E. rewrite Hp in E, Hpc.
  destruct Hpc as (g & Hg & Hf & Hr). rewrite Hg in E.
  destruct (go_gens _ (ri_glob _ V) k g Hg) as [Hin _].
  assert (routed s c r) as Hrt by (by exists (gnodes g), (gversion g)).
  destruct (routeCache (target c)); simplify_eq; [|by (eapply step_pure; [reflexivity|rewrite Hp|..])].
  eapply step_cache; [reflexivity| |by rewrite Hp|by split|done].
  intros x Hx Hme. destruct (may_store me (caches s (target c)) (gversion g)); [|by left].
  simplify_eq. right. by exists (gnodes g).
Qed.

Lemma step_kept : step_keeps.
Proof.
  destruct (pc c) eqn:Hp; eauto using step_begin, step_hint, step_peek, step_refresh, step_recheck, step_fetch,
    step_publish, step_cached, step_miss, step_missed, step_compute, step_stream_load, step_stream_store, step_write.
  unfold Routing.rstep. by rewrite Hp.
Qed.
End one_step.

Lemma rstep_inv i c s s' : rinv s → rcalls s !! i = Some c → rstep i c s = Some s' →
  rinv s' ∧ rle s s'.
Proof. intros V Hi. by apply step_kept. Qed.

Lemma rexec_inv l s s' : rinv s → rexec l s = Some s' → rinv s' ∧ rle s s'.
Proof.
  intros V E. destruct l as [t|i|ev|t e]; simpl in E.
  - injection E as <-. split; [|by apply rle_refl]. destruct V as [G V1 V2 V3]. constructor; simpl.
    + by apply (glob_same s).
    + intros j c Hj. apply lookup_app_Some in Hj as [Hj|[_ Hj]]; [by apply (V1 j)|].
      apply list_lookup_singleton_Some in Hj as [_ <-]. done.
    + unfold holders in *. rewrite sum_of_app, <-V2. unfold sum_of. simpl. lia.
    + intros j c cur Hj. apply lookup_app_Some in Hj as [Hj|[_ Hj]]; [by apply (V3 j)|].
      by apply list_lookup_singleton_Some in Hj as [_ <-].
  - destruct (rcalls s !! i) as [c|] eqn:Hi; [|done]. by apply (rstep_inv i c).
  - destruct (ms_step ev (prov s)) as [p|] eqn:Hs; [|done]. injection E as <-.
    destruct V as [[G1 G2 G3 G4 G5] V1 V2 V3]. simpl.
    assert (∀ x, x ∈ hist s → x ∈ hist s ++ [ms_nodes p]) as Hmono by (intros; apply elem_of_app; by left).
    assert (rle s (RState p (gens s) (current s) (refreshMu s) (caches s) (heap s) (rcalls s) (hist s ++ [ms_nodes p])))
      as Hle.
    { constructor; simpl; [by eapply ms_step_mono|done|]. intros k g Hg. by exists g. }
    split; [|done]. constructor; simpl; [|intros i c Hi; by apply (call_ok_mono s), (V1 i)|done|done].
    constructor; simpl; [by eapply ms_step_ok|apply elem_of_app; right; by apply list_elem_of_singleton| |done|].
    + intros k g Hg. destruct (G3 k g Hg). by split; [apply Hmono|].
    + intros t e He Hme. destruct (G5 t e He Hme) as (ns & Hin & Hok). exists ns. by split; [apply Hmono|].
  - case_decide as Hd; [|done]. injection E as <-. split; [|by apply rle_refl].
    destruct V as [G V1 V2 V3]. constructor; simpl; [|done|done|done].
    apply glob_cache; [done|]. intros x [= <-] ?. by destruct Hd.
Qed.

Lemma rreachable_inv p s : ms_ok p → rreachable addr sys me p s → rinv s.
Proof.
  intros Hp. induction 1 as [|s l s' _ IH E]; [|by apply (rexec_inv l s s' IH E)].
  constructor; simpl; [|done|done|done]. constructor; simpl; try done. by apply list_elem_of_singleton.
Qed.

(** [C9] A resolved route is the route.  Whatever generations and caches the
    calls share and however they interleave with membership changes and with
    other systems writing the same reference's cache: every route [resolve]
    returns is the uncached one (owner by rendezvous hash, local and unhosted
    destinations without a stream, any other with the stream reference of
    exactly that address) over ONE snapshot the provider published, and that
    snapshot is no older than the one current when the call began. *)
Theorem resolve_correct (p : P) s (Hp : ms_ok p) (Hr : rreachable addr sys me p s) :
  ∀ i c r, rcalls s !! i = Some c → pc c = RDone r →
    ∃ ns v, (ns, v) ∈ hist s ∧ floor c ≤ v ∧ route_ok ns (target c) r.
Proof.
  intros i c r Hi Hpc. destruct (ri_calls _ (rreachable_inv p s Hp Hr) i c Hi) as [_ H].
  rewrite Hpc in H. exact H.
Qed.

(** *** What a step changes of the generation pointer and the caches *)

Lemma rstep_current i c s s' : rstep i c s = Some s' →
  current s' = current s ∨
  ∃ cur ns sv, pc c = RPublish cur ns sv ∧ (∀ k g, deref s cur = Some (k, g) → gversion g < sv) ∧
    current s' = Some (length (gens s)) ∧ gens s' !! length (gens s) = Some (Gen sv ns ∅).
Proof.
  intros E. assert ((∀ cur ns sv, pc c ≠ RPublish cur ns sv) → current s' = current s) as Hother.
  { intros Hne. unfold Routing.rstep in E. repeat (case_match; simplify_eq/=; try done). all: by edestruct Hne. }
  destruct (pc c) as [| |v|v|v|cur|cur ns sv|k|k|k|k|k a|k a ref|k r|r] eqn:Hp; try (left; by apply Hother).
  unfold Routing.rstep in E. rewrite Hp in E. clear Hother.
  assert (current s' = current s ∨ ((∀ k g, deref s cur = Some (k, g) → gversion g < sv) ∧
    current s' = Some (length (gens s)) ∧ gens s' = gens s ++ [Gen sv ns ∅])) as [H|(H1 & H2 & H3)].
  { destruct (deref s cur) as [[k g]|]; [case_decide|]; simplify_eq/=; [by left| |]; right; split_and!; try done.
    intros k' g' ?. simplify_eq. lia. }
  - by left.
  - right. exists cur, ns, sv. split_and!; [done..|]. by rewrite H3, lookup_app_r, Nat.sub_diag.
Qed.

Lemma rstep_caches i c s s' t : rstep i c s = Some s' →
  centry (caches s' t) = centry (caches s t) ∨
  ∃ k r g, pc c = RWrite k r ∧ t = target c ∧ may_store me (caches s t) (gversion g) = true ∧
    centry (caches s' t) = Some (Cached me (gversion g) r).
Proof.
  unfold Routing.rstep. intros E.
  assert (∀ e b, e = centry (caches s (target c)) →
    centry (<[target c := Cache e b]> (caches s) t) = centry (caches s t)) as Hsame.
  { intros e b ->. destruct (decide (t = target c)) as [->|];
      [by rewrite fn_lookup_insert|by rewrite fn_lookup_insert_ne]. }
  destruct (pc c) as [| |v|v|v|cur|cur ns sv|k|k|k|k|k a|k a ref|k r|r] eqn:Hp.
  14: {
    destruct (gens s !! k) as [g|]; [|done]. destruct (routeCache (target c)); simplify_eq/=; [|by left].
    destruct (decide (t = target c)) as [->|]; [|left; by rewrite fn_lookup_insert_ne].
    rewrite fn_lookup_insert. simpl. destruct (may_store me (caches s (target c)) (gversion g)) eqn:Hm; [|by left].
    right. by exists k, r, g. }
  all: left; repeat case_match; simplify_eq/=; first [done|by apply Hsame].
Qed.

(** [C26] Nothing rolls back.  In every reachable state and for every next step:
    the published generation's version never falls, a generation keeps its
    version, its node set and every stream reference it has handed out, and a
    reference's shared cache entry is never replaced by an older one of the same
    resolver, however late an in-flight resolution finishes. *)
Theorem routes_never_roll_back (p : P) s l s' (Hp : ms_ok p) (Hr : rreachable addr sys me p s)
    (E : rexec l s = Some s') :
  (∀ k g, current s = Some k → gens s !! k = Some g →
     ∃ k' g', current s' = Some k' ∧ gens s' !! k' = Some g' ∧ gversion g ≤ gversion g') ∧
  (∀ k g, gens s !! k = Some g →
     ∃ g', gens s' !! k = Some g' ∧ gversion g' = gversion g ∧ gnodes g' = gnodes g ∧
           gstreams g ⊆ gstreams g') ∧
  (∀ t e e', centry (caches s t) = Some e → cresolver e = me →
     centry (caches s' t) = Some e' → cresolver e' = me → cversion e ≤ cversion e').
Proof.
  pose proof (rreachable_inv p s Hp Hr) as V. destruct (rexec_inv l s s' V E) as [_ Hle].
  assert (∀ k g, current s = Some k → gens s !! k = Some g → current s' = current s →
    ∃ k' g', current s' = Some k' ∧ gens s' !! k' = Some g' ∧ gversion g ≤ gversion g') as Hstay.
  { intros k g Hk Hg Hc. destruct (rl_gens _ _ Hle k g Hg) as (g' & Hg' & Hv & _).
    exists k, g'. rewrite Hc, Hv. done. }
  split_and!; [|apply (rl_gens _ _ Hle)|].
  - intros k g Hk Hg. destruct l as [t|i|ev|t e]; simpl in E.
    + simplify_eq. by apply (Hstay k g).
    + destruct (rcalls s !! i) as [c|] eqn:Hi; [|done].
      destruct (rstep_current i c s s' E) as [Hc|(cur & ns & sv & Hpc & Hlt & Hc & Hn)]; [by apply (Hstay k g)|].
      eexists _, _. split_and!; [exact Hc|exact Hn|]. simpl. apply Z.lt_le_incl, (Hlt k g).
      rewrite (ri_loaded _ V i c cur Hi) by (by rewrite Hpc). unfold deref. by rewrite Hk, Hg.
    + destruct (ms_step ev (prov s)); simplify_eq. by apply (Hstay k g).
    + case_decide; simplify_eq. by apply (Hstay k g).
  - intros t e e' He Hme He' Hme'. destruct l as [t0|i|ev|t0 e0]; simpl in E.
    + simplify_eq/=; lia.
    + destruct (rcalls s !! i) as [c|] eqn:Hi; [|done].
      destruct (rstep_caches i c s s' t E) as [Hc|(k & r & g & _ & _ & Hm & Hc)]; rewrite Hc in He'; [by simplify_eq|].
      injection He' as <-. simpl. unfold may_store in Hm. rewrite He in Hm. apply bool_decide_eq_true in Hm.
      by destruct Hm.
    + destruct (ms_step ev (prov s)); simplify_eq/=; lia.
    + case_decide as Hd; simplify_eq/=. destruct (decide (t = t0)) as [->|Hne].
      * rewrite fn_lookup_insert in He'. simpl in He'. simplify_eq. by destruct Hd.
      * rewrite fn_lookup_insert_ne in He' by done. simplify_eq; lia.
Qed.
End thms.
