(* ===== verification/RoutingDemo.v ===== *)
(** * A concrete resolution

    The resolver over the etcd provider's membership: a remote direct target is
    resolved while a member joins between the version hint and the snapshot. *)

From stdpp Require Import functions.
From S2P Require Import Prelude.
From S2P Require Import ActorId.
From S2P Require Import Provider.
From S2P Require Import ProviderView.
From S2P Require Import Membership.
From S2P Require Import Routing.
From S2P Require Import RoutingThms.
Open Scope Z_scope.

#[local] Existing Instance demo_json.
#[local] Existing Instance demo_range.

Definition demo_members : provider := publishNodesLocked (set_nodeMap ∅ (set_version 1 newProvider)).

Lemma demo_members_ok : ms_ok demo_members.
Proof.
  split; [done|]. eexists. split; [reflexivity|]. split; [done|]. intros _. by vm_compute.
Qed.

Definition remote_target : ActorRef := newDirectActorRef "local" "x" "b:1" 0 1.

Definition resolve_once : list rlabel :=
  [LCall remote_target; LStep 0; LStep 0; LStep 0;
   LMembers (PApply EvPUT "/c/member/4" "4@b:1"); LMembers PPublish] ++ replicate 11 (LStep 0).

Definition node4_leaves : rlabel (P := provider) := LMembers (PApply EvDELETE "/c/member/4" "").

Definition resolved (ls : list (rlabel (P := provider))) : option (rstate (P := provider)) :=
  rrun "a:1" 0 0 ls (rinitial demo_members).

Lemma resolved_reachable ls s : resolved ls = Some s → rreachable "a:1" 0 0 demo_members s.
Proof. apply rrun_reachable. constructor. Qed.

Lemma resolve_correct_witness :
  ∃ s c r, resolved resolve_once = Some s ∧ rcalls s !! 0%nat = Some c ∧ pc c = RDone r ∧
    ∃ ns v, (ns, v) ∈ hist s ∧ floor c ≤ v ∧ route_ok "a:1" 0 ns (target c) r.
Proof.
  destruct (resolved resolve_once) as [s|] eqn:E; [|by vm_compute in E].
  assert (option_map (λ s, pc <$> rcalls s !! 0%nat) (resolved resolve_once) =
    Some (Some (RDone (Route "b:1" (Some (stream_ref "a:1" 0 "b:1" 0)))))) as Hpc by (vm_compute; reflexivity).
  rewrite E in Hpc. simpl in Hpc. destruct (rcalls s !! 0%nat) as [c|] eqn:Hc; [|done]. injection Hpc as Hpc.
  exists s, c, (Route "b:1" (Some (stream_ref "a:1" 0 "b:1" 0))). split_and!; [done..|].
  by apply (resolve_correct "a:1" 0 0 demo_members s demo_members_ok (resolved_reachable _ _ E) 0%nat).
Defined.

Lemma routes_never_roll_back_witness :
  ∃ s s' g, resolved resolve_once = Some s ∧
    rexec (P := provider) "a:1" 0 0 node4_leaves s = Some s' ∧
    gens s !! 0%nat = Some g ∧ ∃ g', gens s' !! 0%nat = Some g' ∧ gversion g' = gversion g.
Proof.
  destruct (resolved resolve_once) as [s|] eqn:E; [|by vm_compute in E].
  assert (option_map (λ s, match rexec "a:1" 0 0 node4_leaves s with Some _ => bool_decide (is_Some (gens s !! 0%nat)) | None => false end)
    (resolved resolve_once) = Some true) as Hg by (vm_compute; reflexivity).
  rewrite E in Hg. cbn [option_map] in Hg. apply (inj Some) in Hg.
  destruct (rexec "a:1" 0 0 node4_leaves s) as [s'|] eqn:Es in Hg; [|discriminate Hg].
  apply bool_decide_eq_true in Hg as [g Hgen].
  exists s, s', g. split; [reflexivity|]. split; [exact Es|]. split; [exact Hgen|].
  destruct (routes_never_roll_back "a:1" 0 0 demo_members s _ s' demo_members_ok (resolved_reachable _ _ E) Es)
    as (_ & H & _).
  destruct (H 0%nat g Hgen) as (g' & H1 & H2 & _). exists g'. split; [exact H1|exact H2].
Defined.
