(* ===== verification/RoutingSettle.v ===== *)
(** * Every resolve returns

    The two locks of the resolver ([refreshMu] and the mutex of a reference's
    cache) are held by calls that can go on, and a call never goes back: the
    calls under way need a bounded number of steps and never get stuck. *)

From stdpp Require Import functions.
From S2P Require Import Prelude.
From S2P Require Import ActorId.
From S2P Require Import Membership.
From S2P Require Import Provider.
From S2P Require Import ProviderView.
From S2P Require Import Routing.
From S2P Require Import RoutingThms.
From S2P Require Import RoutingDemo.
Open Scope Z_scope.

(** The steps a call still has to take. *)
Definition call_rank (p : rpc) : Z :=
  match p with
  | RBegin => 14 | RHint => 13 | RPeek _ => 12 | RRefresh _ => 11 | RRecheck _ => 10 | RFetch _ => 9
  | RPublish _ _ _ => 8 | RCached _ => 7 | RMiss _ => 6 | RMissed _ => 5 | RCompute _ => 4
  | RStreamLoad _ _ => 3 | RStreamStore _ _ _ => 2 | RWrite _ _ => 1 | RDone _ => 0
  end.

Lemma call_rank_bounds p : 0 ≤ call_rank p ≤ 14.
Proof. destruct p; simpl; lia. Qed.

(** The call holds the mutex of [t]'s cache. *)
Definition holds_cache (t : ActorRef) (c : rcall) : bool :=
  bool_decide (target c = t) &&
  match routeCache (target c), pc c with
  | Some _, (RMissed _ | RCompute _ | RStreamLoad _ _ | RStreamStore _ _ _ | RWrite _ _) => true
  | _, _ => false
  end.

(** Only a reference that has a cache takes its mutex. *)
Definition miss_ok (c : rcall) : bool :=
  match pc c, routeCache (target c) with (RMiss _ | RMissed _), None => false | _, _ => true end.

Definition flag (b : bool) : Z := if b then 1 else 0.

Section settle.
Context {P : Type} {MS : Membership P} (addr : string) (sys me : nat).
Local Abbreviation rstate := (rstate (P := P)).
Local Abbreviation rexec := (rexec addr sys me).
Local Abbreviation rstep := (rstep addr sys me).
Local Abbreviation rrun := (rrun addr sys me).
Local Abbreviation rinv := (rinv addr sys me).
Implicit Types (s : rstate) (c : rcall) (t : ActorRef).

Definition cache_holders t (cs : list rcall) : Z := sum_of (λ c, flag (holds_cache t c)) cs.

Record cache_locks s : Prop := {
  cl_mu : ∀ t, flag (cmu (caches s t)) = cache_holders t (rcalls s);
  cl_miss : ∀ i c, rcalls s !! i = Some c → miss_ok c = true
}.

Definition resolve_rank s : Z := sum_of (λ c, call_rank (pc c)) (rcalls s).

Lemma flag_nonneg b : 0 ≤ flag b.
Proof. by destruct b. Qed.

Lemma holder_locked s i c : cache_locks s → rcalls s !! i = Some c → holds_cache (target c) c = true →
  cmu (caches s (target c)) = true.
Proof.
  intros HL Hi Hh. pose proof (cl_mu _ HL (target c)) as H0. unfold cache_holders in H0.
  pose proof (sum_of_elem (λ d, flag (holds_cache (target c) d)) (rcalls s) i c (λ d, flag_nonneg _) Hi) as H.
  cbv beta in H. rewrite Hh in H. destruct (cmu (caches s (target c))); [done|]. simpl in *. lia.
Qed.

(** One step: the call moves on, and takes or gives back its own cache's mutex. *)
Lemma rstep_effect i c s s' : rstep i c s = Some s' →
  (holds_cache (target c) c = true → cmu (caches s (target c)) = true) → miss_ok c = true →
  ∃ p, rcalls s' = <[i := RCall (target c) (floor c) p]> (rcalls s) ∧ call_rank p < call_rank (pc c) ∧
    miss_ok (RCall (target c) (floor c) p) = true ∧
    ∀ t, flag (cmu (caches s' t)) - flag (cmu (caches s t)) =
         flag (holds_cache t (RCall (target c) (floor c) p)) - flag (holds_cache t c).
Proof.
  intros E Hh Hm. unfold holds_cache, miss_ok in *. rewrite bool_decide_eq_true_2 in Hh by done.
  unfold Routing.rstep in E.
  destruct (pc c) eqn:Hp, (routeCache (target c)) eqn:Hrc; simpl in Hh; repeat (case_match; simplify_eq/=; try done).
  all: simplify_eq/=; first [specialize (Hh eq_refl)|clear Hh].
  all: eexists; split; [reflexivity|]; split; [simpl; lia|]; split; [simpl; by rewrite ?Hrc|]; intros t; simpl.
  all: destruct (decide (target c = t)) as [<-|Hne];
    [rewrite ?bool_decide_eq_true_2 by done|rewrite ?bool_decide_eq_false_2 by done].
  all: rewrite ?fn_lookup_insert, ?fn_lookup_insert_ne by done; simpl; rewrite ?Hrc; simpl; try (rewrite Hh; simpl).
  all: try match goal with H : cmu _ = false |- _ => rewrite H; simpl end; lia.
Qed.

Lemma rexec_locks l s s' : cache_locks s → rexec l s = Some s' → cache_locks s'.
Proof.
  intros V E. destruct l as [t|i|ev|t e]; simpl in E.
  - injection E as <-. constructor; simpl.
    + intros t'. rewrite (cl_mu _ V). unfold cache_holders. rewrite sum_of_app. unfold sum_of at 3. simpl.
      unfold holds_cache at 3. simpl. destruct (routeCache t); rewrite andb_false_r; simpl; lia.
    + intros i c [Hi|[_ Hi]]%lookup_app_Some; [by apply (cl_miss _ V i)|].
      by apply list_lookup_singleton_Some in Hi as [_ <-].
  - destruct (rcalls s !! i) as [c|] eqn:Hi; [|done].
    destruct (rstep_effect i c s s' E (holder_locked s i c V Hi) (cl_miss _ V i c Hi)) as (p & Hc & _ & Hm & Hf).
    constructor; rewrite Hc.
    + intros t. unfold cache_holders. rewrite (sum_of_insert _ _ _ c) by done.
      specialize (Hf t). pose proof (cl_mu _ V t) as H. unfold cache_holders in H. lia.
    + intros j d Hj. apply list_lookup_insert_Some in Hj as [(_ & <- & _)|[_ Hj]]; [done|by apply (cl_miss _ V j)].
  - destruct (ms_step ev (prov s)); [|done]. injection E as <-. by destruct V.
  - case_decide as Hd; [|done]. injection E as <-. constructor; simpl; [|apply (cl_miss _ V)].
    intros t'. rewrite <-(cl_mu _ V). destruct (decide (t = t')) as [<-|Hne].
    + rewrite fn_lookup_insert. simpl. by rewrite (proj2 Hd).
    + by rewrite fn_lookup_insert_ne.
Qed.

Lemma rreachable_locks p s : rreachable addr sys me p s → cache_locks s.
Proof. induction 1 as [|s l s' _ IH E]; [by constructor|by eapply rexec_locks]. Qed.

(** ** Nobody waits for nobody *)

(** A call that does not wait for a lock moves. *)
Lemma call_free s i c : rinv s → rcalls s !! i = Some c → (∀ r, pc c ≠ RDone r) →
  (∀ v, pc c = RRefresh v → refreshMu s = false) →
  (∀ k, pc c = RMiss k → cmu (caches s (target c)) = false) → ∃ s', rexec (LStep i) s = Some s'.
Proof.
  intros V Hi Hd Hmu Hcm. simpl. rewrite Hi. destruct (ri_calls _ _ _ _ V i c Hi) as [_ Hok].
  unfold Routing.rstep. destruct (pc c) eqn:Hp.
  all: try (destruct Hok as (g0 & Hg & _); rewrite Hg).
  all: try (destruct Hok as [(g0 & Hg & _) _]; rewrite Hg).
  all: try (by destruct (Hd _ eq_refl)).
  all: try rewrite (Hmu _ eq_refl); try rewrite (Hcm _ eq_refl).
  all: repeat case_match; eauto.
Qed.

Definition all_resolved s : Prop := ∀ i c, rcalls s !! i = Some c → ∃ r, pc c = RDone r.

Lemma refresher_moves s j d : rinv s → rcalls s !! j = Some d → refreshing (pc d) = true →
  ∃ s', rexec (LStep j) s = Some s'.
Proof. intros V Hj Hd. apply (call_free s j d V Hj); intros x E; by rewrite E in Hd. Qed.

Lemma cache_holder_moves s t j d : rinv s → rcalls s !! j = Some d → holds_cache t d = true →
  ∃ s', rexec (LStep j) s = Some s'.
Proof.
  intros V Hj Hd. apply (call_free s j d V Hj); intros x E; unfold holds_cache in Hd; rewrite E in Hd;
    by destruct (routeCache (target d)); rewrite andb_false_r in Hd.
Qed.

Lemma resolve_moves s : rinv s → cache_locks s → all_resolved s ∨ ∃ i s', rexec (LStep i) s = Some s'.
Proof.
  intros V VL. destruct (decide (0 < resolve_rank s)) as [Hp|Hp].
  - right. destruct (sum_of_pos_elem _ _ Hp) as (i & c & Hi & Hc).
    destruct (refreshMu s) eqn:Hmu.
    { destruct (sum_of_pos_elem (λ c, if refreshing (pc c) then 1 else 0) (rcalls s)) as (j & d & Hj & Hd).
      { pose proof (ri_lock _ _ _ _ V) as H. rewrite Hmu in H. unfold holders in H. lia. }
      exists j. apply (refresher_moves s j d V Hj). by destruct (refreshing (pc d)). }
    destruct (cmu (caches s (target c))) eqn:Hcm.
    { destruct (sum_of_pos_elem (λ d, flag (holds_cache (target c) d)) (rcalls s)) as (j & d & Hj & Hd).
      { pose proof (cl_mu _ VL (target c)) as H. rewrite Hcm in H. unfold cache_holders in H. simpl in H. lia. }
      exists j. apply (cache_holder_moves s (target c) j d V Hj). by destruct (holds_cache _ d). }
    exists i. apply (call_free s i c V Hi); [|done..]. intros r E. rewrite E in Hc. simpl in Hc. lia.
  - left. intros i c Hi.
    pose proof (sum_of_elem (λ c, call_rank (pc c)) (rcalls s) i c (λ c, proj1 (call_rank_bounds _)) Hi) as H.
    unfold resolve_rank in Hp. cbv beta in H. destruct (pc c); cbn in H; try lia. by eexists.
Qed.

(** ** The theorem *)

Definition call_step (l : rlabel (P := P)) : bool := match l with LStep _ => true | _ => false end.
Definition no_new_call (l : rlabel (P := P)) : Prop := match l with LCall _ => False | _ => True end.

Lemma resolve_rank_step l s s' : cache_locks s → no_new_call l → rexec l s = Some s' →
  resolve_rank s' + (if call_step l then 1 else 0) ≤ resolve_rank s.
Proof.
  intros V Hl E. destruct l as [t|i|ev|t e]; simpl in E; [done| | |].
  - destruct (rcalls s !! i) as [c|] eqn:Hi; [|done].
    destruct (rstep_effect i c s s' E (holder_locked s i c V Hi) (cl_miss _ V i c Hi)) as (p & Hc & Hr & _).
    unfold resolve_rank. rewrite Hc, (sum_of_insert _ _ _ c) by done. simpl. lia.
  - destruct (ms_step ev (prov s)); [|done]. injection E as <-. unfold resolve_rank. simpl. lia.
  - case_decide; [|done]. injection E as <-. unfold resolve_rank. simpl. lia.
Qed.

(** [C27] Every resolve returns.  Whatever generations and caches the calls
    share, and however membership changes and other systems' stores fall between
    their steps: the calls under way take at most fourteen steps each, they are
    stuck only when all have returned, and they can be run to that point at any
    time (no call waits for a lock whose holder cannot go on). *)
Theorem resolve_returns (p : P) s (Hp : ms_ok p) (Hr : rreachable addr sys me p s) :
  (∀ ls s', Forall no_new_call ls → rrun ls s = Some s' →
     own_steps call_step ls ≤ 14 * Z.of_nat (length (rcalls s))) ∧
  ((∀ i s', rexec (LStep i) s ≠ Some s') → all_resolved s) ∧
  (∃ ls s', Forall (λ l, call_step l = true ∧ no_new_call l) ls ∧ rrun ls s = Some s' ∧ all_resolved s').
Proof.
  pose proof (rreachable_inv _ _ _ p s Hp Hr) as V. pose proof (rreachable_locks p s Hr) as VL.
  set (inv s := rinv s ∧ cache_locks s).
  assert (∀ s, inv s → 0 ≤ resolve_rank s) as Hpos
    by (intros ? _; apply sum_of_nonneg; intros c; apply call_rank_bounds).
  assert (∀ l s s', inv s → no_new_call l → rexec l s = Some s' →
    inv s' ∧ resolve_rank s' + (if call_step l then 1 else 0) ≤ resolve_rank s) as Hstep.
  { intros l y y' [V1 V2] Hl E. split; [split|by apply resolve_rank_step].
    - by destruct (rexec_inv _ _ _ l y y' V1 E).
    - by eapply rexec_locks. }
  split_and!.
  - intros ls s' Hls E.
    destruct (runs_bounded rexec call_step no_new_call inv resolve_rank Hstep ls s s' (conj V VL) Hls E) as [V' Hle].
    pose proof (Hpos s' V'). enough (resolve_rank s ≤ 14 * Z.of_nat (length (rcalls s))) by lia.
    apply sum_of_upper. intros c. apply call_rank_bounds.
  - intros Hs. destruct (resolve_moves s V VL) as [|(i & s' & E)]; [done|by destruct (Hs i s')].
  - apply (runs_end rexec call_step no_new_call inv resolve_rank Hpos Hstep all_resolved); [|done].
    intros y [V1 V2]. destruct (resolve_moves y V1 V2) as [|(i & y' & E)]; [by left|right].
    by exists (LStep i), y'.
Qed.
End settle.

#[local] Existing Instance demo_json.
#[local] Existing Instance demo_range.

(** Two calls race for one reference: one is inside the miss, the other waits
    for the same generation; whatever follows, 28 steps and both have a route. *)
Definition two_calls : list (rlabel (P := provider)) :=
  [LCall remote_target; LCall remote_target] ++ replicate 8 (LStep 0) ++ replicate 3 (LStep 1).

Lemma resolve_returns_witness : ∃ s, resolved two_calls = Some s ∧ length (rcalls s) = 2%nat ∧
  (∀ ls s', Forall no_new_call ls → rrun "a:1" 0 0 ls s = Some s' → own_steps call_step ls ≤ 28) ∧
  ∃ ls s', rrun "a:1" 0 0 ls s = Some s' ∧ all_resolved s'.
Proof.
  assert (option_map (λ s, length (rcalls s)) (resolved two_calls) = Some 2%nat) as Hl by (vm_compute; reflexivity).
  destruct (resolved two_calls) as [s|] eqn:E; [|discriminate Hl]. injection Hl as Hl.
  exists s. split; [reflexivity|]. split; [exact Hl|].
  destruct (resolve_returns "a:1" 0 0 demo_members s demo_members_ok (resolved_reachable _ _ E))
    as (H1 & _ & ls & s' & _ & H2 & H3).
  split; [|exists ls, s'; split; [exact H2|exact H3]].
  intros ls' s'' Hls Hrun. specialize (H1 ls' s'' Hls Hrun). rewrite Hl in H1. exact H1.
Defined.
