(* ===== verification/Owners.v ===== *)
(** * The cluster agrees on a grain's owner

    Provider.v, AddrHash.v and Routing.v together: the nodes of a cluster each
    load and watch the member keys on their own, in their own batches and map
    order; once they have seen the same history they route every grain to the
    same node, which serves it itself. *)

From S2P Require Import Prelude.
From S2P Require Import GoStrings.
From S2P Require Import ActorId.
From S2P Require Import Config.
From S2P Require Import AddrHash.
From S2P Require Import Provider.
From S2P Require Import ProviderView.
From S2P Require Import Routing.
Open Scope Z_scope.

Section owners.
Context {Json : JsonCodec} {Range : MapRange}.
Implicit Types (x : provider) (hist : list member_event).

(** The member records in etcd at the end of a history. *)
Definition members hist : list tNodeState := omap json_Unmarshal (map_to_list (replay hist)).*2.

Lemma elem_of_members hist n : n ∈ members hist ↔ ∃ key v, replay hist !! key = Some v ∧ json_Unmarshal v = Some n.
Proof.
  unfold members. rewrite list_elem_of_omap. split.
  - intros (v & Hv & Hn). apply list_elem_of_fmap in Hv as ([key v'] & -> & Hin).
    apply elem_of_map_to_list in Hin. by exists key, v'.
  - intros (key & v & Hk & Hn). exists v. split; [|done]. apply list_elem_of_fmap. exists (key, v).
    split; [done|]. by apply elem_of_map_to_list.
Qed.

(** What a node that has caught up hands out is those records. *)
Lemma caught_up_nodes q hist x n : caught_up q hist x → n ∈ (GetNodes x).1 ↔ n ∈ members hist.
Proof.
  intros H. pose proof H as (n0 & _ & _ & _ & _ & Hflat & _).
  destruct (caught_up_view q hist x H) as [Hv (l & Hl & Hp)]. unfold GetNodes. rewrite Hl. cbn [fst snodes].
  rewrite Hp, elem_of_members, list_elem_of_fmap. split.
  - intros ([id n'] & -> & Hin). apply elem_of_map_to_list in Hin. rewrite Hv in Hin.
    apply bind_Some in Hin as (v & Hk & Hd). by exists ((q +:+ "/") +:+ id), v.
  - intros (key & v & Hk & Hd).
    assert (flat (q +:+ "/") key) as (id & -> & _).
    { pose proof (replay_flat q hist (length hist) key Hflat) as Hf. rewrite take_ge in Hf by lia. by apply Hf. }
    exists (id, n). split; [done|]. apply elem_of_map_to_list. rewrite Hv, Hk. done.
Qed.

Lemma caught_up_candidate q hist x k a : caught_up q hist x →
  candidate (GetNodes x).1 k a ↔ candidate (members hist) k a.
Proof.
  intros H. unfold candidate. split; intros (Ha & n & Hn & Hn'); (split; [done|]); exists n;
    (split; [by apply (caught_up_nodes q hist x n H)|done]).
Qed.

(** [C10] The cluster agrees on every grain's owner.  Take any history of the member
    keys and any grain.  There is one address such that every node whose watch has
    delivered that history routes the grain there, however its own loads, reloads
    and watch batches went and in whatever order its map yields the members: the
    node with that address, and no other, serves the grain itself, every other
    node sends it over its stream to that address.  The address is that of a
    member record that hosts the kind, and it is empty, so that every node
    reports the kind as not in the cluster, exactly when there is none. *)
Theorem cluster_agrees_on_owner (q : string) hist (k nm : string) :
  ∃ o,
    (∀ x addr sys t r, caught_up q hist x →
       isDirect t = false → isCluster t = true → GetKind t = k → GetName t = nm →
       route_ok addr sys (GetNodes x).1 t r →
       raddress r = o ∧
       match rstream r with
       | None => o = "" ∨ o = addr
       | Some s => o ≠ "" ∧ o ≠ addr ∧ ∃ p, s = stream_ref addr sys o p
       end) ∧
    (o ≠ "" → ∃ n, n ∈ members hist ∧ Address n = o ∧ k ∈ Kinds n) ∧
    (o = "" ↔ ∀ n, n ∈ members hist → Address n ≠ "" → k ∉ Kinds n).
Proof.
  exists (CalcAddrByKind8Name (members hist) k nm).
  destruct (calc_addr_elects (members hist) k nm) as (Hnone & Hsome & Hset). split; [|split].
  - intros x addr sys t r Hx Hd Hc <- <- [Ha Hs]. unfold owner_address in Ha. rewrite Hd, Hc in Ha.
    assert (CalcAddrByKind8Name (GetNodes x).1 (GetKind t) (GetName t)
            = CalcAddrByKind8Name (members hist) (GetKind t) (GetName t)) as E.
    { apply Hset. intros a. by eapply caught_up_candidate. }
    unfold remote_route, owner_address in Hs. rewrite Hd, Hc in Hs. rewrite E in Ha, Hs. rewrite Ha in *.
    split; [done|]. cbn [orb andb] in Hs.
    destruct (rstream r) as [s|]; [destruct Hs as [Hs [p ->]]|]; repeat case_bool_decide; try done; auto.
    split_and!; try done. by exists p.
  - intros Ho. destruct (Hsome _ Ho) as [H _]. destruct (H eq_refl) as [(_ & n & Hn & Ha & Hk) _]. by exists n.
  - rewrite Hnone. split.
    + intros H n Hn Ha Hk. apply (H (Address n)). split; [done|]. by exists n.
    + intros H a (Ha & n & Hn & <- & Hk). by apply (H n).
Qed.
End owners.

(** ** A concrete cluster

    A codec that keeps a member's address, every member hosting "player".  Node
    a:1 loads before anything is written and watches it all in one batch; node
    b:1 loads late. *)

Definition kind_Unmarshal (v : string) : option tNodeState :=
  if decide (v = "") then None else Some (NodeState 0 v "" "" ["player"]).

Lemma kind_roundtrip s : (Address s ≠ "" ∧ s = NodeState 0 (Address s) "" "" ["player"]) →
  kind_Unmarshal (Address s) = Some s.
Proof. intros [Ha Hs]. unfold kind_Unmarshal. rewrite decide_False by done. by rewrite <-Hs. Qed.

Definition kind_json : JsonCodec := {|
  json_Marshal := Address; json_Unmarshal := kind_Unmarshal;
  json_ok s := Address s ≠ "" ∧ s = NodeState 0 (Address s) "" "" ["player"];
  json_roundtrip := kind_roundtrip |}.

Definition join_hist : list member_event :=
  [(EvPUT, "/c/member/3", "a:1"); (EvPUT, "/c/member/4", "b:1"); (EvPUT, "/c/member/9", "c:1");
   (EvDELETE, "/c/member/9", "")].

Definition early : provider :=
  (watchMembers (Json := kind_json) (Range := demo_range) (map WEvents [join_hist])
     (applyMembers (Json := kind_json) (Range := demo_range) [] newProvider)).1.
Definition late_kvs : list (string * string) := map_to_list (replay (take 3 join_hist)).
Definition late : provider :=
  (watchMembers (Json := kind_json) (Range := demo_range) (map WEvents [drop 3 join_hist])
     (applyMembers (Json := kind_json) (Range := demo_range) late_kvs newProvider)).1.

Lemma join_flat : Forall (λ ev, flat ("/c/member" +:+ "/") (ev_key ev)) join_hist.
Proof.
  repeat apply Forall_cons_2; [..|by apply Forall_nil_2];
    [exists "3"|exists "4"|exists "9"|exists "9"]; by split.
Qed.

Lemma early_caught_up : caught_up (Json := kind_json) (Range := demo_range) "/c/member" join_hist early.
Proof.
  exists 0%nat, [], [], [join_hist], newProvider.
  split_and!; [apply join_flat|done| |by apply Forall_nil_2|done|done].
  split; [constructor|reflexivity].
Qed.

Lemma late_caught_up : caught_up (Json := kind_json) (Range := demo_range) "/c/member" join_hist late.
Proof.
  exists 3%nat, late_kvs, [], [drop 3 join_hist], newProvider.
  split_and!; [apply join_flat|done| |by apply Forall_nil_2|done|done].
  split; [apply NoDup_fst_map_to_list|apply list_to_map_to_list].
Qed.

Definition grain7 : ActorRef := newClusterActorRef "player" "7" 0 1.
Definition route_over (addr : string) (ns : list tNodeState) : resolvedRoute :=
  Route (owner_address ns grain7)
    (if remote_route addr ns grain7 then Some (stream_ref addr 0 (owner_address ns grain7) 0) else None).

Lemma route_over_ok addr ns : route_ok addr 0 ns grain7 (route_over addr ns).
Proof. split; [done|]. cbn. destruct (remote_route addr ns grain7); [split; [done|by eexists]|done]. Qed.

Lemma cluster_agrees_on_owner_witness :
  raddress (route_over "a:1" (GetNodes early).1) = raddress (route_over "b:1" (GetNodes late).1) ∧
  raddress (route_over "a:1" (GetNodes early).1) = "b:1".
Proof.
  destruct (cluster_agrees_on_owner (Json := kind_json) (Range := demo_range) "/c/member" join_hist "player" "7")
    as (o & H & _).
  destruct (H early "a:1" 0%nat grain7 _ early_caught_up eq_refl eq_refl eq_refl eq_refl
    (route_over_ok "a:1" _)) as [E1 _].
  destruct (H late "b:1" 0%nat grain7 _ late_caught_up eq_refl eq_refl eq_refl eq_refl
    (route_over_ok "b:1" _)) as [E2 _].
  split; [rewrite E1, E2; reflexivity|]. vm_compute. reflexivity.
Defined.
