(* ===== verification/Ask.v ===== *)
(** * Asks in flight: the pending table

    [registerAsk], [deliverReply], [cancelAsk] (system.go), [wakePendingAsks]
    (system_life.go) and the life of one Ask ([askImpl], [awaitReply],
    request_helper.go), as a small-step machine over any number of askers,
    repliers and shutdowns.  A channel has capacity one; each map operation is
    atomic under its shard lock.  Registration holds the admission lock shared,
    so it is one step; the closing snapshot holds it exclusively but reads the
    table one shard at a time, while replies and cancellations go on removing
    entries.  (A registration that meets the closing snapshot is refused here at
    once, in the code after the unlock: nothing else can tell.)  The correlation
    id beside a channel and [delivered] are ghost. *)

From S2P Require Import Prelude.
From S2P Require Import GoStrings.
From S2P Require Import ErrCode.
From S2P Require Import Messages.
From S2P Require Import SafeMap.
Open Scope Z_scope.

(** How an awaited Ask ends. *)
Inductive await_result (U : Type) : Type :=
| Got (resp : Message U)
| TimedOut.
Arguments Got {U} resp.
Arguments TimedOut {U}.

(** The reply as [awaitReply] decodes it: [is_T] is the type switch on the
    requested type, [as_error] the one on [error].  The framework's sentinels
    come first, whatever [T] is. *)
Definition decodeReply {U} (is_T : Message U → bool) (as_error : Message U → option string)
    (resp : Message U) : Message U + ErrCode :=
  match resp with
  | MPoison => inr (WithErr "ask reply poisoned")
  | MErrCode e => inr e
  | m => if is_T m then inl m
         else match as_error m with
              | Some text => inr (WithErr text)
              | None => inr (WithErr "msg type err")
              end
  end.

Definition awaitReply {U} (is_T : Message U → bool) (as_error : Message U → option string)
    (r : await_result U) : Message U + ErrCode :=
  match r with
  | Got resp => decodeReply is_T as_error resp
  | TimedOut => inr (WithErr "ask reply timeout")
  end.

Section ask.
Context {U M : Type} {MI : MapImpl M Z nat}.

Inductive athread : Type :=
| AReg (sn : Z)                          (* registerAsk *)
| AWait (sn : Z) (ch : nat)              (* sent; blocked in awaitReply *)
| AFinish (sn : Z) (r : await_result U)  (* the deferred cancelAsk *)
| ADone (sn : Z) (r : await_result U)
| ARefused (sn : Z)                      (* errSystemStopping, nothing sent *)
| DPop (sn : Z) (m : Message U)          (* deliverReply: pending.Pop *)
| DSend (sn : Z) (ch : nat) (m : Message U)  (* ... the non-blocking send *)
| DDone
| WClose                                 (* wakePendingAsks: close registration *)
| WScan (shard : nat) (replies : list nat)  (* ... the shards before [shard] read *)
| WSend (l : list nat)                   (* ... one non-blocking send each *)
| WDone.

Record astate : Type := AState {
  table : M;
  chans : list (Z * option (Message U));
  closed : bool;
  askId : Z;
  athreads : list athread;
  delivered : list (Z * Message U)
}.

(** [select { case ch <- msg: default: }] on a channel of capacity one. *)
Definition trySend (ch : nat) (m : Message U) (cs : list (Z * option (Message U)))
    : list (Z * option (Message U)) :=
  match cs !! ch with
  | Some (sn, None) => <[ch := (sn, Some m)]> cs
  | _ => cs
  end.

(** [registerAsk]: the channel, or nil when registration is closed. *)
Definition registerAsk (sn : Z) (s : astate) : option nat * astate :=
  if closed s then (None, s)
  else (Some (length (chans s)),
        AState (m_set (table s) sn (length (chans s))).2 (chans s ++ [(sn, None)]) false
          (askId s) (athreads s) (delivered s)).

Definition cancelAsk (sn : Z) (s : astate) : astate :=
  AState (m_remove (table s) sn) (chans s) (closed s) (askId s) (athreads s) (delivered s).

Definition nextSnId (s : astate) : Z := u64 (askId s + 1).

Definition set_thread (i : nat) (t : athread) (s : astate) : astate :=
  AState (table s) (chans s) (closed s) (askId s) (<[i := t]> (athreads s)) (delivered s).
Definition set_chans (cs : list (Z * option (Message U))) (s : astate) : astate :=
  AState (table s) cs (closed s) (askId s) (athreads s) (delivered s).

(** A step of [wakePendingAsks]: close registration, read the shards, then one
    non-blocking send each. *)
Definition wakePendingAsks (i : nat) (s : astate) : option astate :=
  match athreads s !! i with
  | Some WClose =>
      Some (set_thread i (WScan 0 [])
        (AState (table s) (chans s) true (askId s) (athreads s) (delivered s)))
  | Some (WScan j l) =>
      if decide (j < m_shards M)%nat
      then Some (set_thread i (WScan (S j) (l ++ (m_scan (table s) j).*2)) s)
      else Some (set_thread i (WSend l) s)
  | Some (WSend []) => Some (set_thread i WDone s)
  | Some (WSend (ch :: l)) =>
      Some (set_thread i (WSend l) (set_chans (trySend ch (MErrCode errSystemStopping) (chans s)) s))
  | _ => None
  end.

(** A step of thread [i]; [timeout] is the choice of a waiting asker. *)
Definition astep (i : nat) (timeout : bool) (s : astate) : option astate :=
  match athreads s !! i with
  | Some (AReg sn) =>
      match registerAsk sn s with
      | (Some ch, s) => Some (set_thread i (AWait sn ch) s)
      | (None, s) => Some (set_thread i (ARefused sn) s)
      end
  | Some (AWait sn ch) =>
      match chans s !! ch with
      | Some (sn', Some m) =>
          if timeout then Some (set_thread i (AFinish sn TimedOut) s)
          else Some (set_thread i (AFinish sn (Got m)) (set_chans (<[ch := (sn', None)]> (chans s)) s))
      | _ => if timeout then Some (set_thread i (AFinish sn TimedOut) s) else None
      end
  | Some (AFinish sn r) => Some (set_thread i (ADone sn r) (cancelAsk sn s))
  | Some (DPop sn m) =>
      match m_pop (table s) sn with
      | (Some ch, t) => Some (set_thread i (DSend sn ch m)
          (AState t (chans s) (closed s) (askId s) (athreads s) (delivered s)))
      | (None, t) => Some (set_thread i DDone
          (AState t (chans s) (closed s) (askId s) (athreads s) (delivered s)))
      end
  | Some (DSend sn ch m) => Some (set_thread i DDone (set_chans (trySend ch m (chans s)) s))
  | Some (WClose | WScan _ _ | WSend _) => wakePendingAsks i s
  | Some (ADone _ _ | ARefused _ | DDone | WDone) | None => None
  end.

Inductive alabel : Type :=
| LAsk                                   (* a new Ask takes the next id *)
| LTell                                  (* so does any other message *)
| LDeliver (sn : Z) (m : Message U)      (* some reply arrives, wanted or not *)
| LWake                                  (* shutdown *)
| LRun (i : nat) (timeout : bool).

(** Runs stay below the wrap of the id counter. *)
Definition aexec (l : alabel) (s : astate) : option astate :=
  match l with
  | LAsk =>
      if decide (askId s + 1 < 2 ^ 64)
      then Some (AState (table s) (chans s) (closed s) (nextSnId s)
                   (athreads s ++ [AReg (nextSnId s)]) (delivered s))
      else None
  | LTell =>
      if decide (askId s + 1 < 2 ^ 64)
      then Some (AState (table s) (chans s) (closed s) (nextSnId s) (athreads s) (delivered s))
      else None
  | LDeliver sn m =>
      Some (AState (table s) (chans s) (closed s) (askId s) (athreads s ++ [DPop sn m])
              (delivered s ++ [(sn, m)]))
  | LWake => Some (AState (table s) (chans s) (closed s) (askId s) (athreads s ++ [WClose]) (delivered s))
  | LRun i timeout => astep i timeout s
  end.

Definition ainitial (t : M) (start : Z) : astate := AState t [] false start [] [].

Inductive areachable (t : M) (start : Z) : astate → Prop :=
| ar_init : areachable t start (ainitial t start)
| ar_step s l s' : areachable t start s → aexec l s = Some s' → areachable t start s'.

Fixpoint arun (ls : list alabel) (s : astate) : option astate :=
  match ls with
  | [] => Some s
  | l :: ls => match aexec l s with Some s' => arun ls s' | None => None end
  end.

Lemma arun_reachable t start ls s s' :
  areachable t start s → arun ls s = Some s' → areachable t start s'.
Proof.
  revert s. induction ls as [|l ls IH]; simpl; intros s Hr E; [by simplify_eq|].
  destruct (aexec l s) as [s1|] eqn:E1; [|done]. eapply IH; [|done]. by econstructor.
Qed.
End ask.
Arguments athread U : clear implicits.
Arguments astate U M : clear implicits.
Arguments alabel U : clear implicits.
