(* ===== verification/AskThms.v ===== *)
(** * Every Ask ends once, with a reply meant for it

    The invariant of the pending-table machine and its theorems. *)

From S2P Require Import Prelude.
From S2P Require Import GoStrings.
From S2P Require Import ErrCode.
From S2P Require Import Messages.
From S2P Require Import SafeMap.
From S2P Require Import Ask.
Open Scope Z_scope.

Section thms.
Context {U M : Type} {MI : MapImpl M Z nat}.
Local Abbreviation astate := (astate U M).
Implicit Types (s : astate) (t : athread U).

Definition asker_sn t : option Z :=
  match t with
  | AReg sn | AWait sn _ | AFinish sn _ | ADone sn _ | ARefused sn => Some sn
  | _ => None
  end.

Definition stop_msg : Message U := MErrCode errSystemStopping.

(** What may legitimately come out of the channel of [sn]. *)
Definition meant s (sn : Z) (m : Message U) : Prop := (sn, m) ∈ delivered s ∨ m = stop_msg.

(** Somebody is about to fill a channel. *)
Definition replying s (sn : Z) (ch : nat) : Prop := ∃ j m, athreads s !! j = Some (DSend sn ch m).
Definition wakes s t (sn : Z) (ch : nat) : Prop :=
  match t with
  | WSend l => ch ∈ l
  | WScan k l => ch ∈ l ∨ (k ≤ m_shard M sn)%nat ∧ m_abs (table s) !! sn = Some ch
  | _ => False
  end.
Definition waking s (sn : Z) (ch : nat) : Prop := ∃ j t, athreads s !! j = Some t ∧ wakes s t sn ch.

(** A waiter's channel is filled, about to be filled, or still findable. *)
Definition covered s (sn : Z) (ch : nat) : Prop :=
  (∃ m, chans s !! ch = Some (sn, Some m)) ∨ replying s sn ch ∨
  (if closed s then waking s sn ch else m_abs (table s) !! sn = Some ch).

Definition thread_ok s t : Prop :=
  match t with
  | AWait sn ch => (∃ c, chans s !! ch = Some (sn, c)) ∧ covered s sn ch
  | AFinish sn (Got m) | ADone sn (Got m) => meant s sn m
  | DPop sn m => (sn, m) ∈ delivered s
  | DSend sn ch m => (sn, m) ∈ delivered s ∧ ∃ c, chans s !! ch = Some (sn, c)
  | _ => True
  end.

Record ainv s : Prop := {
  ai_wf : m_wf (table s);
  ai_id : 0 ≤ askId s < 2 ^ 64;
  ai_sn : ∀ i t sn, athreads s !! i = Some t → asker_sn t = Some sn → sn ≤ askId s;
  ai_uniq : ∀ i j t u sn, athreads s !! i = Some t → athreads s !! j = Some u →
    asker_sn t = Some sn → asker_sn u = Some sn → i = j;
  ai_table : ∀ sn ch, m_abs (table s) !! sn = Some ch → ∃ c, chans s !! ch = Some (sn, c);
  ai_chan : ∀ ch sn m, chans s !! ch = Some (sn, Some m) → meant s sn m;
  ai_thread : ∀ i t, athreads s !! i = Some t → thread_ok s t
}.

(** *** Filling a channel *)

Lemma trySend_lookup ch m (cs : list (Z * option (Message U))) k :
  trySend ch m cs !! k = if decide (k = ch)
    then (λ p, (p.1, Some (default m p.2))) <$> cs !! k else cs !! k.
Proof.
  unfold trySend. destruct (cs !! ch) as [[sn [m'|]]|] eqn:E; case_decide as H; subst; try done.
  - by rewrite E.
  - by rewrite E, list_lookup_insert_eq by (by eapply lookup_lt_Some).
  - by rewrite list_lookup_insert_ne.
  - by rewrite E.
Qed.

(** What a step keeps for the threads that do not take it. *)
Record alater s s' (i : nat) (old : athread U) : Prop := {
  al_deliv : ∀ x, x ∈ delivered s → x ∈ delivered s';
  al_chan : ∀ ch sn c, chans s !! ch = Some (sn, c) → ∃ c', chans s' !! ch = Some (sn, c');
  al_cover : ∀ sn ch, asker_sn old ≠ Some sn → (∃ c, chans s !! ch = Some (sn, c)) →
    covered s sn ch → covered s' sn ch
}.

Lemma thread_ok_later s s' i old t : alater s s' i old →
  (∀ sn, asker_sn t = Some sn → asker_sn old ≠ Some sn) → thread_ok s t → thread_ok s' t.
Proof.
  intros [L1 L2 L3] Hne Ht. destruct t as [sn|sn ch|sn [m|]|sn [m|]|sn|sn m|sn ch m| | |k l|l|]; simpl in *; auto.
  - destruct Ht as [[c Hc] Hcov]. split; [by eapply L2|]. apply L3; eauto.
  - destruct Ht as [Ht|Ht]; [left; auto|by right].
  - destruct Ht as [Ht|Ht]; [left; auto|by right].
  - destruct Ht as [Ht [c Hc]]. split; [auto|by eapply L2].
Qed.

(** Assembling a step of thread [i] from [old] to [new]. *)
Lemma ainv_step s s' i old new :
  ainv s → athreads s !! i = Some old → athreads s' = <[i := new]> (athreads s) → askId s' = askId s →
  asker_sn new = asker_sn old → alater s s' i old →
  m_wf (table s') →
  (∀ sn ch, m_abs (table s') !! sn = Some ch → ∃ c, chans s' !! ch = Some (sn, c)) →
  (∀ ch sn m, chans s' !! ch = Some (sn, Some m) → meant s' sn m) →
  thread_ok s' new → ainv s'.
Proof.
  intros V Hi Et Eid Esn L Hwf Htab Hch Hnew. destruct V as [V1 V2 V3 V4 V5 V6 V7].
  constructor; rewrite ?Et, ?Eid; try done.
  - intros j t sn Hj Ht. apply list_lookup_insert_Some in Hj as [(<- & <- & _)|[_ Hj]]; [|eauto].
    rewrite Esn in Ht. eauto.
  - intros j k t u sn Hj Hk Ht Hu.
    apply list_lookup_insert_Some in Hj as [(<- & <- & _)|[_ Hj]], Hk as [(<- & <- & _)|[_ Hk]]; try done;
      rewrite ?Esn in *; eauto.
  - intros j t Hj. apply list_lookup_insert_Some in Hj as [(<- & <- & _)|[Hne Hj]]; [done|].
    apply (thread_ok_later s s' i old); [done| |by apply (V7 j)].
    intros sn Ht Ho. by apply Hne, (V4 i j old t sn).
Qed.

(** A covered waiter stays covered while others' threads move on, channels only
    fill, and its entry stays (or becomes a reply in flight). *)
Lemma covered_later s s' i old new sn ch :
  athreads s !! i = Some old → athreads s' = <[i := new]> (athreads s) →
  (closed s = true → closed s' = true) →
  (∀ m, chans s !! ch = Some (sn, Some m) → ∃ m', chans s' !! ch = Some (sn, Some m')) →
  (∀ m, old = DSend sn ch m → ∃ m', chans s' !! ch = Some (sn, Some m')) →
  (wakes s old sn ch → wakes s' new sn ch ∨ ∃ m', chans s' !! ch = Some (sn, Some m')) →
  (m_abs (table s) !! sn = Some ch →
     m_abs (table s') !! sn = Some ch ∨ ∃ m, new = DSend sn ch m) →
  (closed s = false → closed s' = true → m_abs (table s') !! sn = Some ch → wakes s' new sn ch) →
  covered s sn ch → covered s' sn ch.
Proof.
  intros Hi Et Hcl Hfill Hds Hws Htab Hclose Hcov.
  assert (Hlt : (i < length (athreads s))%nat) by (by eapply lookup_lt_Some).
  assert (Hnew : athreads s' !! i = Some new) by (by rewrite Et, list_lookup_insert_eq).
  assert (Hreply : (∃ m, new = DSend sn ch m) → covered s' sn ch)
    by (intros [m ->]; right; left; by exists i, m).
  destruct Hcov as [[m Hm]|[(j & m & Hj)|Hrest]].
  - left. by eapply Hfill.
  - destruct (decide (j = i)) as [->|Hne].
    + left. apply (Hds m). congruence.
    + right. left. exists j, m. by rewrite Et, list_lookup_insert_ne.
  - destruct (closed s) eqn:Hc.
    + assert (Hw : waking s' sn ch → covered s' sn ch) by (intros H; right; right; by rewrite Hcl).
      destruct Hrest as (j & t & Hj & Ht). destruct (decide (j = i)) as [->|Hne].
      * destruct (Hws ltac:(congruence)) as [H|H]; [apply Hw; by exists i, new|by left].
      * assert (athreads s' !! j = Some t) as Hj' by by rewrite Et, list_lookup_insert_ne.
        destruct t as [| | | | | | | | |k l|l|]; try done; [|apply Hw; by exists j, (WSend l)].
        destruct Ht as [Ht|[Hk Ht]]; [apply Hw; exists j, (WScan k l); split; [done|by left]|].
        destruct (Htab Ht) as [H|H]; [|by apply Hreply].
        apply Hw. exists j, (WScan k l). split; [done|by right].
    + destruct (Htab Hrest) as [H|H]; [|by apply Hreply].
      right; right. destruct (closed s') eqn:Hc'; [|done]. exists i, new. split; [done|by apply Hclose].
Qed.

(** Steps that touch neither the channels nor the table. *)
Lemma ainv_local s i old new :
  ainv s → athreads s !! i = Some old → asker_sn new = asker_sn old →
  (∀ sn ch m, old ≠ DSend sn ch m) → (∀ sn ch, wakes s old sn ch → wakes s new sn ch) →
  thread_ok s new → ainv (set_thread i new s).
Proof.
  intros V Hi Hsn H1 H2 Hnew.
  assert (Hcov : ∀ sn ch, covered s sn ch → covered (set_thread i new s) sn ch).
  { intros sn ch. apply (covered_later s _ i old new); try done; eauto; simpl.
    - intros m Hd. by destruct (H1 sn ch m).
    - congruence. }
  apply (ainv_step s _ i old new); try done; [|by apply V..|].
  - constructor; [done|eauto|]. intros sn ch _ _. apply Hcov.
  - destruct new as [sn|sn ch|sn [m|]|sn [m|]|sn|sn m|sn ch m| | |k l|l|]; simpl in *; try done.
    destruct Hnew as [Hex Hc]. split; [done|by apply Hcov].
Qed.

Lemma set_thread_athreads i t s : athreads (set_thread i t s) = <[i := t]> (athreads s).
Proof. done. Qed.

(** registerAsk. *)
Lemma ainv_register s i sn : ainv s → athreads s !! i = Some (AReg sn) → closed s = false →
  ainv (set_thread i (AWait sn (length (chans s)))
    (AState (m_set (table s) sn (length (chans s))).2 (chans s ++ [(sn, None)]) false
       (askId s) (athreads s) (delivered s))).
Proof.
  intros V Hi Hc. destruct (m_set_law (table s) sn (length (chans s)) (ai_wf _ V)) as (W & _ & HT).
  assert (Hnew : (chans s ++ [(sn, @None (Message U))]) !! length (chans s) = Some (sn, None))
    by (rewrite lookup_app_r, Nat.sub_diag by done; done).
  assert (Hold : ∀ ch p, chans s !! ch = Some p → (chans s ++ [(sn, None)]) !! ch = Some p)
    by (intros ch p Hp; by apply lookup_app_l_Some).
  apply (ainv_step s _ i (AReg sn) (AWait sn (length (chans s)))); try done; simpl.
  - constructor; simpl; [done|intros ch sn' c Hch; eexists; by apply Hold|].
    intros sn' ch Hne Hex. simpl in Hne.
    apply (covered_later s _ i (AReg sn) (AWait sn (length (chans s)))); try done; simpl.
    + by rewrite Hc.
    + intros m Hm. eexists. by apply Hold.
    + intros Ht. left. rewrite HT, lookup_insert_ne; [done|congruence].
  - intros sn' ch. rewrite HT. destruct (decide (sn' = sn)) as [->|].
    + rewrite lookup_insert_eq. intros [= <-]. by eexists.
    + rewrite lookup_insert_ne by done. intros Ht. destruct (ai_table _ V sn' ch Ht) as [c ?]. eexists. by apply Hold.
  - intros ch sn' m Hch. apply lookup_app_Some in Hch as [Hch|[_ Hch]]; [by apply (ai_chan _ V ch)|].
    by apply list_lookup_singleton_Some in Hch as [_ ?].
  - split; [by eexists|]. right; right. simpl. by rewrite HT, lookup_insert_eq.
Qed.

(** deliverReply's Pop that finds the entry. *)
Lemma ainv_pop s i sn m ch : ainv s → athreads s !! i = Some (DPop sn m) →
  m_abs (table s) !! sn = Some ch →
  ainv (set_thread i (DSend sn ch m)
    (AState (m_pop (table s) sn).2 (chans s) (closed s) (askId s) (athreads s) (delivered s))).
Proof.
  intros V Hi Hch. destruct (m_pop_law (table s) sn (ai_wf _ V)) as (W & _ & HT).
  apply (ainv_step s _ i (DPop sn m) (DSend sn ch m)); try done; simpl.
  - constructor; simpl; [done|eauto|]. intros sn' ch' _ Hex.
    apply (covered_later s _ i (DPop sn m) (DSend sn ch m)); try done; simpl; eauto.
    + intros Ht. rewrite HT. destruct (decide (sn' = sn)) as [->|].
      * right. exists m. congruence.
      * left. by rewrite lookup_delete_ne.
    + congruence.
  - intros sn' ch'. rewrite HT. intros [_ Ht]%lookup_delete_Some. by apply (ai_table _ V).
  - apply (ai_chan _ V).
  - split; [apply (ai_thread _ V i _ Hi)|]. by apply (ai_table _ V).
Qed.

(** cancelAsk, by the Ask that owns the id. *)
Lemma ainv_cancel s i sn r : ainv s → athreads s !! i = Some (AFinish sn r) →
  ainv (set_thread i (ADone sn r) (cancelAsk sn s)).
Proof.
  intros V Hi. destruct (m_remove_law (table s) sn (ai_wf _ V)) as (W & HT).
  apply (ainv_step s _ i (AFinish sn r) (ADone sn r)); try done; simpl.
  - constructor; simpl; [done|eauto|]. intros sn' ch' Hne Hex. simpl in Hne.
    apply (covered_later s _ i (AFinish sn r) (ADone sn r)); try done; simpl; eauto.
    + intros Ht. left. rewrite HT, lookup_delete_ne; [done|congruence].
    + congruence.
  - intros sn' ch'. rewrite HT. intros [_ Ht]%lookup_delete_Some. by apply (ai_table _ V).
  - apply (ai_chan _ V).
  - apply (ai_thread _ V i _ Hi).
Qed.

(** A non-blocking send on one channel, by a replier or by the shutdown. *)
Lemma ainv_send s i old new ch m :
  ainv s → athreads s !! i = Some old → asker_sn old = None → asker_sn new = None →
  (∀ sn c, chans s !! ch = Some (sn, c) → meant s sn m) →
  ((∃ sn, old = DSend sn ch m ∧ new = DDone) ∨ ∃ l, old = WSend (ch :: l) ∧ new = WSend l) →
  ainv (set_thread i new (set_chans (trySend ch m (chans s)) s)).
Proof.
  intros V Hi Ho Hn Hmeant Hkind.
  assert (Hfill : ∀ k sn c, chans s !! k = Some (sn, c) →
    trySend ch m (chans s) !! k = Some (sn, if decide (k = ch) then Some (default m c) else c)).
  { intros k sn c Hk. rewrite trySend_lookup, Hk. by case_decide. }
  apply (ainv_step s _ i old new); try done; simpl; [by rewrite Hn, Ho| |by apply V| | |].
  - constructor; simpl; [done|intros k sn c Hk; eexists; by apply Hfill|].
    intros sn k _ Hex. apply (covered_later s _ i old new); try done; simpl.
    + intros x Hx. rewrite (Hfill _ _ _ Hx). case_decide; by eexists.
    + intros x ->. destruct Hkind as [(sn' & [= <- <- <-] & _)|(l & [=] & _)].
      destruct Hex as [c Hex]. rewrite (Hfill _ _ _ Hex), decide_True by done. by eexists.
    + intros Hw. destruct Hkind as [(sn' & -> & _)|(l' & -> & ->)]; [done|].
      apply elem_of_cons in Hw as [->|Hin]; [|by left]. right.
      destruct Hex as [c Hex]. rewrite (Hfill _ _ _ Hex), decide_True by done. by eexists.
    + by left.
    + congruence.
  - intros sn k Hk. destruct (ai_table _ V sn k Hk) as [c Hc]. eexists. by apply Hfill.
  - intros k sn x. rewrite trySend_lookup. case_decide as Hk; [|apply (ai_chan _ V)]. subst k.
    destruct (chans s !! ch) as [[sn' [y|]]|] eqn:E; simpl; intros [= <- <-].
    + by apply (ai_chan _ V ch).
    + by eapply Hmeant.
  - destruct Hkind as [(sn' & -> & ->)|(l' & -> & ->)]; done.
Qed.

(** A waiter takes the message out of its own channel. *)
Lemma ainv_take s i sn ch m : ainv s → athreads s !! i = Some (AWait sn ch) →
  chans s !! ch = Some (sn, Some m) →
  ainv (set_thread i (AFinish sn (Got m)) (set_chans (<[ch := (sn, None)]> (chans s)) s)).
Proof.
  intros V Hi Hch.
  assert (Hkeep : ∀ k sn' c, chans s !! k = Some (sn', c) →
    ∃ c', <[ch := (sn, None)]> (chans s) !! k = Some (sn', c') ∧ (k ≠ ch → c' = c)).
  { intros k sn' c Hk. destruct (decide (k = ch)) as [->|].
    - rewrite list_lookup_insert_eq by (by eapply lookup_lt_Some). simplify_eq. by eexists.
    - rewrite list_lookup_insert_ne by done. by eexists. }
  apply (ainv_step s _ i (AWait sn ch) (AFinish sn (Got m))); try done; simpl; [|by apply V|..].
  - constructor; simpl; [done| |].
    + intros k sn' c Hk. destruct (Hkeep k sn' c Hk) as (c' & H & _). by eexists.
    + intros sn' k Hne [c Hk]. simpl in Hne. assert (k ≠ ch) as Hk' by (intros ->; congruence).
      apply (covered_later s _ i (AWait sn ch) (AFinish sn (Got m))); try done; simpl; [|by left|congruence].
      intros x Hx. destruct (Hkeep k sn' _ Hx) as (c' & H & E). rewrite (E Hk') in H. by eexists.
  - intros sn' k Hk. destruct (ai_table _ V sn' k Hk) as [c Hc].
    destruct (Hkeep k sn' c Hc) as (c' & H & _). by eexists.
  - intros k sn' x Hx. apply list_lookup_insert_Some in Hx as [(_ & [=] & _)|[_ Hx]]. by apply (ai_chan _ V k).
  - by apply (ai_chan _ V ch).
Qed.

(** deliverReply's Pop that finds nothing. *)
Lemma ainv_pop_none s i sn m : ainv s → athreads s !! i = Some (DPop sn m) →
  m_abs (table s) !! sn = None →
  ainv (set_thread i DDone
    (AState (m_pop (table s) sn).2 (chans s) (closed s) (askId s) (athreads s) (delivered s))).
Proof.
  intros V Hi Hch. destruct (m_pop_law (table s) sn (ai_wf _ V)) as (W & HP & HT).
  assert (HT' : m_abs (m_pop (table s) sn).2 = m_abs (table s)) by (by rewrite HT, delete_id).
  apply (ainv_step s _ i (DPop sn m) DDone); try done; simpl.
  - constructor; simpl; [done|eauto|]. intros sn' k _ Hex.
    apply (covered_later s _ i (DPop sn m) DDone); try done; simpl; eauto; [|congruence].
    rewrite HT'. by left.
  - rewrite HT'. apply (ai_table _ V).
  - apply (ai_chan _ V).
Qed.

(** wakePendingAsks closes registration: every entry is in a shard it has yet to read. *)
Lemma ainv_close s i : ainv s → athreads s !! i = Some WClose →
  ainv (set_thread i (WScan 0 [])
    (AState (table s) (chans s) true (askId s) (athreads s) (delivered s))).
Proof.
  intros V Hi. apply (ainv_step s _ i WClose (WScan 0 [])); try done; simpl;
    [|by apply V|by apply (ai_table _ V)|by apply (ai_chan _ V)].
  constructor; simpl; [done|eauto|]. intros sn k _ Hex.
  apply (covered_later s _ i WClose (WScan 0 [])); try done; simpl; eauto.
  intros _ _ Hk. right. split; [lia|done].
Qed.

(** ... and reads them one by one. *)
Lemma wakes_scan s j l sn ch : m_wf (table s) →
  wakes s (WScan j l) sn ch → wakes s (WScan (S j) (l ++ (m_scan (table s) j).*2)) sn ch.
Proof.
  intros W [H|[Hj Ht]]; simpl; [left; apply elem_of_app; by left|].
  destruct (decide (m_shard M sn = j)) as [E|E]; [left|right; split; [lia|done]].
  apply elem_of_app. right. apply list_elem_of_fmap. exists (sn, ch). split; [done|].
  by apply m_scan_law.
Qed.

Lemma wakes_scanned s j l sn ch : (m_shards M ≤ j)%nat →
  wakes s (WScan j l) sn ch → wakes s (WSend l) sn ch.
Proof. intros Hj [H|[H _]]; [done|]. pose proof (m_shard_law sn). lia. Qed.

Lemma astep_inv i b s s' : ainv s → astep i b s = Some s' → ainv s'.
Proof.
  intros V E. unfold astep, wakePendingAsks in E. destruct (athreads s !! i) as [t|] eqn:Hi; [|done].
  pose proof (ai_thread _ V i t Hi) as Ht.
  destruct t as [sn|sn ch|sn r|sn r|sn|sn m|sn ch m| | |j l|[|ch l]|]; try done.
  - unfold registerAsk in E. destruct (closed s) eqn:Hc; simplify_eq.
    + by apply (ainv_local s i (AReg sn)).
    + by apply ainv_register.
  - destruct Ht as [[c Hch] Hcov]. rewrite Hch in E.
    assert (Htime : ainv (set_thread i (AFinish sn TimedOut) s)) by by apply (ainv_local s i (AWait sn ch)).
    destruct c as [m|]; destruct b; simplify_eq; try done. by apply ainv_take.
  - simplify_eq. by apply ainv_cancel.
  - destruct (m_pop_law (table s) sn (ai_wf _ V)) as (_ & HP & _).
    pose proof (ainv_pop s i sn m) as Hpop. pose proof (ainv_pop_none s i sn m V Hi) as Hnone.
    destruct (m_pop (table s) sn) as [o tb]. simpl in *. subst o.
    destruct (m_abs (table s) !! sn) as [ch|] eqn:Hch; simplify_eq; [by apply Hpop|by apply Hnone].
  - simplify_eq. destruct Ht as [Hd _]. apply (ainv_send s i (DSend sn ch m)); try done; [|left; by exists sn].
    intros sn' c Hc. destruct (ai_thread _ V i _ Hi) as [_ [c' Hc']]. left. congruence.
  - simplify_eq. by apply ainv_close.
  - case_decide as Hj; simplify_eq; apply (ainv_local s i (WScan j l)); try done; intros sn ch.
    + by apply wakes_scan, V.
    + by apply wakes_scanned, Nat.nlt_ge.
  - simplify_eq. apply (ainv_local s i (WSend [])); try done. by intros sn ch ?%elem_of_nil.
  - simplify_eq. apply (ainv_send s i (WSend (ch :: l))); try done; [by right|]. right. by exists l.
Qed.

Lemma ainv_spawn s t aid deliv :
  ainv s → askId s ≤ aid < 2 ^ 64 →
  (∀ x, x ∈ delivered s → x ∈ deliv) →
  (∀ sn, asker_sn t = Some sn → askId s < sn ≤ aid) →
  (∀ s', delivered s' = deliv → thread_ok s' t) →
  ainv (AState (table s) (chans s) (closed s) aid (athreads s ++ [t]) deliv).
Proof.
  intros V Ha Hd Hsn Ht. pose proof V as [V1 V2 V3 V4 V5 V6 V7]. set (s' := AState _ _ _ _ _ _).
  assert (Hmeant : ∀ sn m, meant s sn m → meant s' sn m) by (intros sn m [H|H]; [left; by apply Hd|by right]).
  assert (Hold : ∀ j u, athreads s !! j = Some u → athreads s' !! j = Some u) by (intros; by apply lookup_app_l_Some).
  constructor; simpl; [done|lia| | |done|intros ch sn m Hm; by eapply Hmeant, V6|].
  - intros j u sn Hj Hu. apply lookup_app_Some in Hj as [Hj|[_ Hj]].
    + specialize (V3 j u sn Hj Hu). lia.
    + apply list_lookup_singleton_Some in Hj as [_ <-]. specialize (Hsn sn Hu). lia.
  - intros j k u v sn Hj Hk Hu Hv.
    apply lookup_app_Some in Hj as [Hj|[? Hj]], Hk as [Hk|[? Hk]]; [by eapply V4| | |].
    + apply list_lookup_singleton_Some in Hk as [_ <-]. specialize (V3 j u sn Hj Hu). specialize (Hsn sn Hv). lia.
    + apply list_lookup_singleton_Some in Hj as [_ <-]. specialize (V3 k v sn Hk Hv). specialize (Hsn sn Hu). lia.
    + apply list_lookup_singleton_Some in Hj as [? <-], Hk as [? <-]. lia.
  - intros j u Hj. apply lookup_app_Some in Hj as [Hj|[_ Hj]]; [|apply list_lookup_singleton_Some in Hj as [_ <-]; by apply Ht].
    specialize (V7 j u Hj). destruct u as [sn|sn ch|sn [m|]|sn [m|]|sn|sn m|sn ch m| | |k l|l|]; simpl in *; auto.
    + destruct V7 as [Hex Hcov]. split; [done|]. destruct Hcov as [H|[(k & m & Hk)|H]]; [by left|right; left|right; right].
      * exists k, m. by apply Hold.
      * simpl. destruct (closed s); [|done]. destruct H as (k & l & Hk & Hl). exists k, l. split; [by apply Hold|exact Hl].
    + destruct V7 as [H1 H2]. split; [by apply Hd|done].
Qed.

Lemma ainv_tell s aid : ainv s → askId s ≤ aid < 2 ^ 64 →
  ainv (AState (table s) (chans s) (closed s) aid (athreads s) (delivered s)).
Proof.
  intros [V1 V2 V3 V4 V5 V6 V7] Ha. constructor; simpl; try done; [lia|].
  intros i t sn Hi Hs. specialize (V3 i t sn Hi Hs). lia.
Qed.

Lemma aexec_inv l s s' : ainv s → aexec l s = Some s' → ainv s'.
Proof.
  intros V E. destruct l as [| |sn m| |i b]; simpl in E.
  - case_decide as Hb; [|done]. injection E as <-. pose proof (ai_id _ V) as Hid.
    unfold nextSnId. rewrite u64_id by (unfold in_u64; lia). apply ainv_spawn; try done; [lia|].
    intros sn [= <-]. lia.
  - case_decide as Hb; [|done]. injection E as <-. pose proof (ai_id _ V) as Hid.
    unfold nextSnId. rewrite u64_id by (unfold in_u64; lia). apply ainv_tell; [done|lia].
  - injection E as <-. apply ainv_spawn; try done.
    + pose proof (ai_id _ V). lia.
    + intros x Hx. apply elem_of_app. by left.
    + intros s' Hs. simpl. rewrite Hs. apply elem_of_app. right. by apply list_elem_of_singleton.
  - injection E as <-. apply ainv_spawn; try done. pose proof (ai_id _ V). lia.
  - by eapply astep_inv.
Qed.

Lemma areachable_inv (tb0 : M) start s :
  m_wf tb0 → m_abs tb0 = ∅ → 0 ≤ start < 2 ^ 64 → areachable tb0 start s → ainv s.
Proof.
  intros W He Hs. induction 1 as [|s l s' _ IH E]; [|by eapply aexec_inv].
  constructor; simpl; try done. intros sn ch. rewrite He, lookup_empty. done.
Qed.

(** An entry of the table belongs to an Ask that has not finished. *)
Definition attended s : Prop := ∀ sn ch, m_abs (table s) !! sn = Some ch →
  ∃ i t, athreads s !! i = Some t ∧ ((∃ ch', t = AWait sn ch') ∨ ∃ r, t = AFinish sn r).

Lemma attended_step s s' i old new :
  attended s → athreads s !! i = Some old → athreads s' = <[i := new]> (athreads s) →
  (∀ sn ch, m_abs (table s') !! sn = Some ch → m_abs (table s) !! sn = Some ch ∨ ∃ ch', new = AWait sn ch') →
  (∀ sn ch ch', old = AWait sn ch → m_abs (table s') !! sn = Some ch' → ∃ r, new = AFinish sn r) →
  (∀ sn r ch, old = AFinish sn r → m_abs (table s') !! sn ≠ Some ch) → attended s'.
Proof.
  intros A Hi Et Htab Hw Hf sn ch Hch.
  assert (Hnew : athreads s' !! i = Some new) by (rewrite Et, list_lookup_insert_eq; [done|by eapply lookup_lt_Some]).
  destruct (Htab sn ch Hch) as [Hold|[ch' ->]]; [|by exists i, (AWait sn ch'); eauto].
  destruct (A sn ch Hold) as (j & t & Hj & Ht). destruct (decide (j = i)) as [->|Hne].
  - assert (t = old) as -> by congruence. destruct Ht as [[ch' ->]|[r ->]].
    + destruct (Hw sn ch' ch eq_refl Hch) as [r ->]. exists i, (AFinish sn r). eauto.
    + by destruct (Hf sn r ch eq_refl).
  - exists j, t. by rewrite Et, list_lookup_insert_ne.
Qed.

Lemma attended_exec l s s' : ainv s → attended s → aexec l s = Some s' → attended s'.
Proof.
  intros V A E. assert (Hspawn : ∀ aid t deliv, attended (AState (table s) (chans s) (closed s) aid (athreads s ++ [t]) deliv)).
  { intros aid t deliv sn ch Hch. destruct (A sn ch Hch) as (i & u & Hi & Hu). exists i, u.
    split; [by apply lookup_app_l_Some|done]. }
  destruct l as [| |sn m| |i b]; simpl in E;
    [case_decide; simplify_eq; apply Hspawn|by case_decide; simplify_eq|simplify_eq; apply Hspawn..|].
  unfold astep, wakePendingAsks in E. destruct (athreads s !! i) as [t|] eqn:Hi; [|done].
  pose proof (ai_wf _ V) as W.
  destruct t as [sn|sn ch|sn r|sn r|sn|sn m|sn ch m| | |j l|[|ch l]|]; try done.
  - unfold registerAsk in E. destruct (closed s); simplify_eq;
      (eapply (attended_step s _ i (AReg sn)); [exact A|exact Hi|reflexivity|..]; simpl; [|done..]); [by left|].
    intros sn' ch. destruct (m_set_law (table s) sn (length (chans s)) W) as (_ & _ & ->).
    destruct (decide (sn' = sn)) as [->|]; [right; by eexists|]. rewrite lookup_insert_ne by done. by left.
  - destruct (chans s !! ch) as [[sn' [m|]]|]; destruct b; simplify_eq;
      (eapply (attended_step s _ i (AWait sn ch)); [exact A|exact Hi|reflexivity|..]; simpl; [by left| |done]);
      intros sn0 c0 c1 [= <- <-] _; by eexists.
  - simplify_eq. eapply (attended_step s _ i (AFinish sn r)); [exact A|exact Hi|reflexivity|..]; simpl; [|done|].
    + intros sn' ch. destruct (m_remove_law (table s) sn W) as (_ & ->). intros [_ H]%lookup_delete_Some. by left.
    + intros sn' r' ch [= <- <-]. destruct (m_remove_law (table s) sn W) as (_ & ->). by rewrite lookup_delete_eq.
  - destruct (m_pop_law (table s) sn W) as (_ & _ & HT). destruct (m_pop (table s) sn) as [[ch|] tb]; simpl in HT; simplify_eq;
      (eapply (attended_step s _ i (DPop sn m)); [exact A|exact Hi|reflexivity|..]; simpl; [|done..]);
      intros sn' ch'; rewrite HT; intros [_ H]%lookup_delete_Some; by left.
  - simplify_eq. eapply (attended_step s _ i (DSend sn ch m)); [exact A|exact Hi|reflexivity|..]; simpl; [by left|done..].
  - simplify_eq. eapply (attended_step s _ i WClose); [exact A|exact Hi|reflexivity|..]; simpl; [by left|done..].
  - case_decide; simplify_eq; (eapply (attended_step s _ i (WScan j l)); [exact A|exact Hi|reflexivity|..]; simpl; [by left|done..]).
  - simplify_eq. eapply (attended_step s _ i (WSend [])); [exact A|exact Hi|reflexivity|..]; simpl; [by left|done..].
  - simplify_eq. eapply (attended_step s _ i (WSend (ch :: l))); [exact A|exact Hi|reflexivity|..]; simpl; [by left|done..].
Qed.

(** [C18] An Ask gets its own reply, or none.  For any number of concurrent Asks,
    replies (duplicated, late, for unknown ids), cancellations and shutdowns:
    no two Asks share a correlation id; what an Ask takes from its channel is a
    reply that was delivered under its own id or the shutdown notice, nothing
    meant for another; it takes at most one; and an entry of the pending table
    always belongs to an Ask still in flight, so finished and refused Asks leak
    nothing and the table is empty when all have returned. *)
Theorem ask_reply_meant (tb0 : M) (start : Z) s
    (Hwf : m_wf tb0) (Hempty : m_abs tb0 = ∅) (Hstart : 0 ≤ start < 2 ^ 64)
    (Hr : areachable tb0 start s) :
  (∀ i j t u sn, athreads s !! i = Some t → athreads s !! j = Some u →
     asker_sn t = Some sn → asker_sn u = Some sn → i = j) ∧
  (∀ i sn m, athreads s !! i = Some (ADone sn (Got m)) →
     (sn, m) ∈ delivered s ∨ m = MErrCode errSystemStopping) ∧
  (∀ sn, is_Some (m_abs (table s) !! sn) →
     ∃ i t, athreads s !! i = Some t ∧ asker_sn t = Some sn ∧ (∀ r, t ≠ ADone sn r)) ∧
  ((∀ i t, athreads s !! i = Some t → (∀ sn ch, t ≠ AWait sn ch) ∧ (∀ sn r, t ≠ AFinish sn r)) →
     m_abs (table s) = ∅).
Proof.
  pose proof (areachable_inv tb0 start s Hwf Hempty Hstart Hr) as V.
  assert (A : attended s).
  { clear V. induction Hr as [|s l s' Hr' IH E].
    - intros sn ch. simpl. rewrite Hempty, lookup_empty. done.
    - apply (attended_exec l s s'); [|exact IH|exact E]. by apply (areachable_inv tb0 start). }
  split_and!.
  - apply (ai_uniq _ V).
  - intros i sn m Hi. apply (ai_thread _ V i _ Hi).
  - intros sn [ch Hch]. destruct (A sn ch Hch) as (i & t & Hi & [[ch' ->]|[r ->]]); eexists i, _; by split_and!.
  - intros Hall. apply map_empty. intros sn. destruct (m_abs (table s) !! sn) as [ch|] eqn:Hch; [|done].
    destruct (A sn ch Hch) as (i & t & Hi & Ht). destruct (Hall i t Hi) as [H1 H2].
    destruct Ht as [[ch' ->]|[r ->]]; [by destruct (H1 sn ch')|by destruct (H2 sn r)].
Qed.

(** [C17] Shutdown strands nobody.  Once the waiting Asks have been snapshotted,
    a new Ask is refused at once, and every waiting Ask can take a message from
    its channel now or a replier or the waking shutdown is about to fill that
    very channel; repliers and the shutdown never block, so a second, late or
    unwanted reply cannot hang the replying actor either. *)
Theorem shutdown_strands_nobody (tb0 : M) (start : Z) s
    (Hwf : m_wf tb0) (Hempty : m_abs tb0 = ∅) (Hstart : 0 ≤ start < 2 ^ 64)
    (Hr : areachable tb0 start s) :
  (∀ i t, athreads s !! i = Some t →
     (∃ sn m, t = DPop sn m) ∨ (∃ sn ch m, t = DSend sn ch m) ∨ t = WClose ∨ (∃ k l, t = WScan k l) ∨ (∃ l, t = WSend l) →
     ∃ s', aexec (LRun i false) s = Some s') ∧
  (closed s = true →
     (∀ i sn, athreads s !! i = Some (AReg sn) →
        ∃ s', aexec (LRun i false) s = Some s' ∧ athreads s' !! i = Some (ARefused sn)) ∧
     (∀ i sn ch, athreads s !! i = Some (AWait sn ch) →
        (∃ s' m, aexec (LRun i false) s = Some s' ∧ athreads s' !! i = Some (AFinish sn (Got m))) ∨
        replying s sn ch ∨ waking s sn ch)).
Proof.
  pose proof (areachable_inv tb0 start s Hwf Hempty Hstart Hr) as V.
  assert (Hset : ∀ i t u c, athreads s !! i = Some u → athreads (set_thread i t (set_chans c s)) !! i = Some t).
  { intros i t u c Hi. simpl. rewrite list_lookup_insert_eq; [done|by eapply lookup_lt_Some]. }
  split.
  - intros i t Hi Ht. simpl. unfold astep, wakePendingAsks. rewrite Hi.
    destruct Ht as [(sn & m & ->)|[(sn & ch & m & ->)|[->|[(k & l & ->)|[[|ch l] ->]]]]]; [|by eexists|by eexists| |by eexists|by eexists].
    + destruct (m_pop (table s) sn) as [[ch|] tb]; by eexists.
    + case_decide; by eexists.
  - intros Hc. split.
    + intros i sn Hi. simpl. unfold astep, registerAsk. rewrite Hi, Hc. eexists. split; [reflexivity|].
      simpl. rewrite list_lookup_insert_eq; [done|by eapply lookup_lt_Some].
    + intros i sn ch Hi. destruct (ai_thread _ V i _ Hi) as [_ [[m Hm]|[H|H]]]; [left|by right; left|].
      * simpl. unfold astep. rewrite Hi, Hm. eexists _, m. split; [reflexivity|]. by eapply Hset.
      * rewrite Hc in H. by right; right.
Qed.
End thms.

(** ** A concrete shutdown

    The program's table: a [ConcurrentMap] keyed by [intFnv32].  Two Asks wait;
    a reply to the first, a duplicate of it, and a shutdown race. *)

Definition newPending : list (gmap Z nat) := ConcurrentMap.create.

#[export] Instance pending_map : MapImpl (list (gmap Z nat)) Z nat :=
  ConcurrentMap.cmap_impl (K := Z) (V := nat) ConcurrentMap.intFnv32.

Lemma newPending_wf : m_wf newPending ∧ m_abs newPending = ∅.
Proof. split; [apply ConcurrentMap.create_spec|by vm_compute]. Qed.

Definition busy_shutdown : list (alabel nat) :=
  [LAsk; LRun 0 false; LTell; LAsk; LRun 1 false;            (* ids 8 and 10, both waiting *)
   LDeliver 8 (MUser 5%nat); LDeliver 8 (MUser 6%nat);
   LRun 2 false; LRun 3 false;                        (* the duplicate finds nothing *)
   LWake; LRun 4 false]                               (* closed *)
  ++ replicate 33 (LRun 4 false) ++                   (* 32 shards; id 10 in the snapshot *)
  [LRun 2 false; LRun 0 false; LRun 0 false].         (* 8 takes its reply and returns *)

Definition run_asks (ls : list (alabel nat)) : option (astate nat _) := arun ls (ainitial newPending 7).

Lemma run_asks_reachable ls s : run_asks ls = Some s → areachable newPending 7 s.
Proof. apply arun_reachable. constructor. Qed.

Lemma ask_reply_meant_witness :
  ∃ s, run_asks busy_shutdown = Some s ∧ athreads s !! 0%nat = Some (ADone 8 (Got (MUser 5%nat))) ∧
    ((8, MUser 5%nat) ∈ delivered s ∨ MUser 5%nat = MErrCode errSystemStopping).
Proof.
  destruct (run_asks busy_shutdown) as [s|] eqn:E; [|by vm_compute in E].
  assert (option_map (λ s, athreads s !! 0%nat) (run_asks busy_shutdown) = Some (Some (ADone 8 (Got (MUser 5%nat)))))
    as H0 by (vm_compute; reflexivity).
  rewrite E in H0. apply (inj Some) in H0.
  exists s. split; [reflexivity|]. split; [exact H0|].
  destruct (ask_reply_meant newPending 7 s (proj1 newPending_wf) (proj2 newPending_wf) ltac:(lia)
    (run_asks_reachable _ _ E)) as (_ & H & _).
  exact (H 0%nat 8 (MUser 5%nat) H0).
Defined.

Lemma shutdown_strands_nobody_witness :
  ∃ s, run_asks busy_shutdown = Some s ∧ athreads s !! 1%nat = Some (AWait 10 1) ∧
    ((∃ s' m, aexec (LRun 1 false) s = Some s' ∧ athreads s' !! 1%nat = Some (AFinish 10 (Got m))) ∨
     replying s 10 1 ∨ waking s 10 1).
Proof.
  destruct (run_asks busy_shutdown) as [s|] eqn:E; [|by vm_compute in E].
  assert (option_map (λ s, (athreads s !! 1%nat, closed s)) (run_asks busy_shutdown) = Some (Some (AWait 10 1), true))
    as H0 by (vm_compute; reflexivity).
  rewrite E in H0. apply (inj Some) in H0. pose proof (f_equal fst H0) as H1. pose proof (f_equal snd H0) as H2.
  exists s. split; [reflexivity|]. split; [exact H1|].
  destruct (shutdown_strands_nobody newPending 7 s (proj1 newPending_wf) (proj2 newPending_wf) ltac:(lia)
    (run_asks_reachable _ _ E)) as (_ & H).
  exact (proj2 (H H2) 1%nat 10 1%nat H1).
Defined.
