(* ===== verification/System.v ===== *)
(** * system.go, system_envelope.go, system_cluster.go: sending

    What one send decides and does, as functions on the node's state: routing a
    message to a mailbox, a pending reply, another node's stream or the dead
    letters; activating grains on demand; what a remote envelope may cause; and
    which grains a membership change stops.  [resolve] is the routing resolver at
    that instant (Routing.v says what it returns); [builds] is whether a user's
    producer returns for a grain or panics. *)

From S2P Require Import Prelude.
From S2P Require Import GoStrings.
From S2P Require Import ActorId.
From S2P Require Import ErrCode.
From S2P Require Import Config.
From S2P Require Import AddrHash.
From S2P Require Import Messages.
From S2P Require Import SafeMap.
From S2P Require Import Registry.
From S2P Require Import Routing.
Open Scope Z_scope.

(** A node: its registry, the processors it has built (their [self], by
    number), whether it drains, the last message id, and which processors are
    outbound stream writers, with the reference and the address each was built
    with (newStreamWriterActor). *)
Record node (M : Type) : Type := Node {
  nregistry : M;
  nprocs : list ActorRef;
  ndraining : bool;
  naskId : Z;
  nwriters : gmap nat (ActorRef * string)
}.
Arguments Node {M} _ _ _ _ _.
Arguments nregistry {M} _.
Arguments nprocs {M} _.
Arguments ndraining {M} _.
Arguments naskId {M} _.
Arguments nwriters {M} _.

(** How one send ends. *)
Inductive disposition (U : Type) : Type :=
| DMail (p : nat) (ctx : Ctx U)           (* proc.send *)
| DReply (sn : Z) (m : Message U)         (* deliverReply *)
| DIgnored                                (* a poison for an actor that is not running *)
| DNilTarget
| DDead (dl : DeadLetter U) (notify : option (ActorRef * ErrCode))
| DPanicked.                              (* a user's producer, or a nil stream reference *)
Arguments DMail {U} p ctx.
Arguments DReply {U} sn m.
Arguments DIgnored {U}.
Arguments DNilTarget {U}.
Arguments DDead {U} dl notify.
Arguments DPanicked {U}.

Inductive effect (U : Type) : Type :=
| EMail (p : nat) (ctx : Ctx U)
| EReply (sn : Z) (m : Message U)
| EPoison (p : nat)
| EDead (dl : DeadLetter U)
| EForeign (to : ActorRef) (m : Message U)  (* Tell on a reference of another system *)
| EPanic.
Arguments EMail {U} p ctx.
Arguments EReply {U} sn m.
Arguments EPoison {U} p.
Arguments EDead {U} dl.
Arguments EForeign {U} to m.
Arguments EPanic {U}.

(** remote.Envelope, less its header. *)
Record Envelope : Type := MkEnvelope {
  Sender : string; Target : string; MsgSnId : Z; MsgName : string; Content : string
}.

(** The protobuf registry and decoder. *)
Class ProtoCodec (U : Type) := {
  MessageName : Message U → string;
  FindMessageByName : string → bool;
  Unmarshal : string → string → option (Message U);      (* type name, content *)
  Marshal : Message U → option string;
  Unmarshal_name : ∀ nm c m, FindMessageByName nm = true → Unmarshal nm c = Some m → MessageName m = nm
}.

Section system.
Context `{Env : GoEnv} {U M : Type} {MI : MapImpl M string nat}.
Context (me : nat) (addr : string) (cfg : config Env).
Context (resolve : ActorRef → resolvedRoute) (builds : ActorRef → bool).
Implicit Types (n : node M) (target : ActorRef) (sender : option ActorRef) (msg : Message U).

Definition set_registry (r : M) n : node M := Node r (nprocs n) (ndraining n) (naskId n) (nwriters n).

Definition nextSnId n : Z * node M :=
  let sn := u64 (naskId n + 1) in (sn, Node (nregistry n) (nprocs n) (ndraining n) sn (nwriters n)).

Definition selfOf n (p : nat) (default_ : ActorRef) : ActorRef := default default_ (nprocs n !! p).

(** [getOrSpawnProcessor] as its callers see it (Spawn.v: one construction per
    id); [writer] is what the framework's own producer of a stream writer builds
    it with, and [None] is a producer that panics. *)
Definition getOrSpawn (ok : bool) (self : ActorRef) (writer : option (ActorRef * string)) n
    : option nat * node M :=
  match lookup_proc (nregistry n) (GetId self) with
  | Some p => (Some p, n)
  | None =>
      if ok then
        let p := length (nprocs n) in
        let '((actual, _), r) := register (nregistry n) (GetId self) p in
        (Some actual, Node r (nprocs n ++ [self]) (ndraining n) (naskId n)
                        (match writer with Some w => <[p := w]> (nwriters n) | None => nwriters n end))
      else (None, n)
  end.

(** [None] when the activation panicked. *)
Definition ensureClusterKindActorExist (ref : ActorRef) n : option bool * node M :=
  if ndraining n then (Some false, n)
  else match kinds cfg !! GetKind ref with
  | None => (Some false, n)
  | Some kind =>
      match lookup_proc (nregistry n) (GetId ref) with
      | Some _ => (Some true, n)
      | None =>
          match getOrSpawn (builds ref) ref None n with
          | (Some _, n) => (Some true, n)
          | (None, n) => (None, n)
          end
      end
  end.

(** [sender != nil && sender.isAsk()]. *)
Definition asking sender (e : ErrCode) : option (ActorRef * ErrCode) :=
  match sender with Some s => if isAsk s then Some (s, e) else None | None => None end.

Definition sendToLocal target msg sender (msgSnId : Z) n : disposition U * node M :=
  if isAsk target then (DReply (askSnId target) msg, n)
  else
    let deliver n :=
      match lookup_proc (nregistry n) (GetId target) with
      | Some p => (DMail p (NewContext (selfOf n p target) sender msg msgSnId), n)
      | None => (DDead (MkDeadLetter target None sender msg msgSnId DeadLetterReasonNotFound)
                   (asking sender errActorNotFound), n)
      end in
    match lookup_proc (nregistry n) (GetId target) with
    | Some _ => deliver n
    | None =>
        if is_poison msg then (DIgnored, n)
        else if isCluster target then
          match ensureClusterKindActorExist target n with
          | (None, n) => (DPanicked, n)
          | (Some true, n) => deliver n
          | (Some false, n) =>
              (DDead (MkDeadLetter target None sender msg msgSnId DeadLetterReasonNotFound)
                 (asking sender errActorNotFound), n)
          end
        else deliver n
    end.

Definition sendToRemote (route : resolvedRoute) target msg sender (msgSnId : Z) n
    : disposition U * node M :=
  match rstream route with
  | None => (DPanicked, n)
  | Some stream =>
      match lookup_proc (nregistry n) (GetId stream) with
      | Some p => (DMail p (NewContext target sender msg msgSnId), n)
      | None =>
          match getOrSpawn true
                  (newDirectActorRef (GetKind stream) (GetName stream) addr me (length (nprocs n)))
                  (Some (stream, raddress route)) n with
          | (Some p, n) => (DMail p (NewContext target sender msg msgSnId), n)
          | (None, n) => (DPanicked, n)
          end
      end
  end.

Definition route_send (target : option ActorRef) msg sender (msgSnId : Z) n : disposition U * node M :=
  match target with
  | None => (DNilTarget, n)
  | Some target =>
      if isDirect target then
        if decide (GetDirectAddr target = addr) then sendToLocal target msg sender msgSnId n
        else sendToRemote (resolve target) target msg sender msgSnId n
      else
        match lookup_proc (nregistry n) (GetId target) with
        | Some p => (DMail p (NewContext (selfOf n p target) sender msg msgSnId), n)
        | None =>
            let route := resolve target in
            if decide (raddress route = "") then
              (DDead (MkDeadLetter target None sender msg msgSnId DeadLetterReasonNoOwner)
                 (asking sender errKindNotInCluster), n)
            else if decide (raddress route = addr) then sendToLocal target msg sender msgSnId n
            else sendToRemote route target msg sender msgSnId n
        end
  end.

(** [emitDeadLetter], the end of every [EDead]: the configured handler, whose
    panic is recovered ([run] says whether it panics), or a warning. *)
Inductive dead_letter_fate : Type := DLHandled | DLHandlerPanicked | DLWarned.
Definition emitDeadLetter (run : DeadLetterHandler → DeadLetter U → bool) (dl : DeadLetter U) : dead_letter_fate :=
  match deadLetterHandler cfg with
  | Some h => if run h dl then DLHandlerPanicked else DLHandled
  | None => DLWarned
  end.

(** The effect of a disposition, the notification of the asker apart. *)
Definition effects_of (d : disposition U) : list (effect U) :=
  match d with
  | DMail p c => [EMail p c]
  | DReply sn m => [EReply sn m]
  | DIgnored | DNilTarget => []
  | DDead dl _ => [EDead dl]
  | DPanicked => [EPanic]
  end.

(** The body of [tellWithSender], [tell_] standing for the Tell it makes on an
    asking sender it has to fail. *)
Definition send_body (tell_ : ActorRef → Message U → node M → list (effect U) * node M)
    (target : option ActorRef) msg sender (msgSnId : Z) n : list (effect U) * node M :=
  match route_send target msg sender msgSnId n with
  | (DDead dl (Some (s, e)), n) =>
      let '(effs, n) := if decide (GetSystem s = me) then tell_ s (MErrCode e) n
                        else ([EForeign s (MErrCode e)], n) in
      (effs ++ [EDead dl], n)
  | (d, n) => (effects_of d, n)
  end.

(** [tell]: no sender, so nothing is left to notify. *)
Definition tell (target : option ActorRef) msg n : list (effect U) * node M :=
  let '(sn, n) := nextSnId n in
  let '(d, n) := route_send target msg None sn n in (effects_of d, n).

Definition tellWithSender (target : option ActorRef) msg sender (msgSnId : Z) n
    : list (effect U) * node M :=
  send_body (λ s m n, tell (Some s) m n) target msg sender msgSnId n.

(** [Tell] of a reference. *)
Definition Tell (ref : ActorRef) msg n : list (effect U) * node M :=
  if decide (GetSystem ref = me) then tell (Some ref) msg n else ([EForeign ref msg], n).

Definition Poison (ref : ActorRef) n : list (effect U) * node M :=
  match lookup_proc (nregistry n) (GetId ref) with
  | Some p => ([EPoison p], n)
  | None => tell (Some ref) MPoison n
  end.

(** ** Contexts *)

Definition Reply (c : Ctx U) (m : Message U) n : list (effect U) * node M :=
  match csender c with
  | Some (ReplyTo r) =>
      if decide (rsystem r = me ∧ raddr r = addr) then ([EReply (snId r) m], n)
      else tellWithSender (csender c) m (Some (ctarget c)) (cmsgSnId c) n
  | _ => tellWithSender (csender c) m (Some (ctarget c)) (cmsgSnId c) n
  end.

Definition Forward (c : Ctx U) (target : option ActorRef) n : list (effect U) * node M :=
  tellWithSender target (cmessage c) (csender c) (cmsgSnId c) n.

(** ** Spawning and naming *)

Inductive spawn_error : Type := SErrInvalidName (e : name_error) | SErrNameExists | SProducerPanicked.

(** [SpawnNamed]; [ok] is whether the user's producer returns, [q] the address
    of the reference it allocates.  [spawnNewProcessor] is Spawn.v's, seen as one
    step. *)
Definition SpawnNamed (p : Producer) (name : string) (opts : list KindOptFunc) (ok : bool) (q : nat) n
    : (ActorRef + spawn_error) * node M :=
  match ValidateActorName name with
  | Some e => (inr (SErrInvalidName e), n)
  | None =>
      match _self (newOpts p (opts ++ [withOptsDirectSelf name addr me q])) with
      | None => (inr SProducerPanicked, n)
      | Some self =>
          match lookup_proc (nregistry n) (GetId self) with
          | Some _ => (inr SErrNameExists, n)
          | None =>
              match getOrSpawn ok self None n with
              | (Some _, n) => (inl self, n)
              | (None, n) => (inr SProducerPanicked, n)
              end
          end
      end
  end.

(** [Spawn]: a generated name; any error is a panic. *)
Definition Spawn (p : Producer) (uuid : Z) (opts : list KindOptFunc) (ok : bool) (q : nat) n
    : outcome ActorRef * node M :=
  match SpawnNamed p (FormatUint uuid) opts ok q n with
  | (inl ref, n) => (Ok ref, n)
  | (inr _, n) => (Panic, n)
  end.

Definition GetClusterActorRef (kind name : string) (q : nat) : outcome ActorRef :=
  match validateKindName kind, ValidateActorName name with
  | None, None => Ok (newClusterActorRef kind name me q)
  | _, _ => Panic
  end.

(** ** The event stream's front door (system_eventstream.go) *)

Definition Subscribe (eventStream ref : ActorRef) (event : string) n : list (effect U) * node M :=
  tell (Some eventStream) (MSubscribe (GetId ref) event) n.
Definition Unsubscribe (eventStream ref : ActorRef) (event : string) n : list (effect U) * node M :=
  tell (Some eventStream) (MUnsubscribe (GetId ref) event) n.
Definition PublishLocal (eventStream : ActorRef) msg n : list (effect U) * node M :=
  tell (Some eventStream) msg n.
Definition PublishGlobal (eventStream : ActorRef) msg n : list (effect U) * node M :=
  tell (Some eventStream) (MBroadcast msg) n.

(** ** A membership change (system_cluster.go) *)

Definition clusterMemberChanged (clusterNodes : list tNodeState) n : list (effect U) :=
  rangeIt (nregistry n) (λ key v effs,
    match nprocs n !! v with
    | None => effs
    | Some self =>
        if isDirect self then effs
        else
          let newAddr := CalcAddrByKind8Name clusterNodes (GetKind self) (GetName self) in
          if bool_decide (newAddr ≠ "") && bool_decide (newAddr ≠ addr) then effs ++ [EPoison v] else effs
    end) [].

(** ** Inbound (system_envelope.go) *)

Context {Codec : ProtoCodec U}.

Definition msgNameInitialize : string := MessageName (U := U) MInitialize.

Definition RecvEnvelope (envelope : option Envelope) (p : nat) n : list (effect U) * node M :=
  match envelope with
  | None => ([], n)
  | Some env =>
      if decide (MsgName env = msgNameInitialize) then ([], n)
      else if negb (FindMessageByName (MsgName env)) then ([], n)
      else match Unmarshal (MsgName env) (Content env) with
      | None => ([], n)
      | Some bodyMsg =>
          if decide (Target env = "") then ([], n)
          else
            let sender := if decide (Sender env = "") then None
                          else Some (newActorRefFromAID (Sender env) me p) in
            tellWithSender (Some (newActorRefFromAID (Target env) me (S p))) bodyMsg sender (MsgSnId env) n
      end
  end.
End system.
