(* ===== verification/SystemThms.v ===== *)
(** * What a send does, on every branch

    The theorems about System.v.  The route is only assumed to be what the
    resolver's theorem gives: [route_ok] over some node set. *)

From S2P Require Import Prelude.
From S2P Require Import GoStrings.
From S2P Require Import ActorId.
From S2P Require Import ErrCode.
From S2P Require Import Config.
From S2P Require Import AddrHash.
From S2P Require Import Messages.
From S2P Require Import SafeMap.
From S2P Require Import Registry.
From S2P Require Import Routing.
From S2P Require Import System.
Open Scope Z_scope.

Section thms.
Context `{Env : GoEnv} {U M : Type} {MI : MapImpl M string nat}.
Context (me : nat) (addr : string) (cfg : config Env).
Context (resolve : ActorRef → resolvedRoute) (builds : ActorRef → bool).
Implicit Types (n : node M) (target : ActorRef) (sender : option ActorRef) (msg : Message U).
Local Abbreviation route_send := (route_send me addr cfg resolve builds).
Local Abbreviation sendToLocal := (sendToLocal cfg builds).
Local Abbreviation sendToRemote := (sendToRemote me addr).
Local Abbreviation tellWithSender := (tellWithSender me addr cfg resolve builds).
Local Abbreviation tell := (tell me addr cfg resolve builds).
Local Abbreviation ensure := (ensureClusterKindActorExist cfg builds).

Definition reg n : gmap string nat := m_abs (nregistry n).

(** ** Activation *)

Lemma getOrSpawn_spec ok self w n : m_wf (nregistry n) →
  let '(r, n') := getOrSpawn ok self w n in
  m_wf (nregistry n') ∧ ndraining n' = ndraining n ∧
  match reg n !! GetId self with
  | Some p => r = Some p ∧ n' = n
  | None => if ok then r = Some (length (nprocs n)) ∧ nprocs n' = nprocs n ++ [self] ∧
                       reg n' = <[GetId self := length (nprocs n)]> (reg n) ∧
                       nwriters n' = match w with Some w => <[length (nprocs n) := w]> (nwriters n) | None => nwriters n end
            else r = None ∧ n' = n
  end.
Proof.
  intros W. unfold getOrSpawn, reg. rewrite lookup_proc_abs by done.
  destruct (m_abs (nregistry n) !! GetId self) eqn:E; [done|]. destruct ok; [|done].
  destruct (register_abs (nregistry n) (GetId self) (length (nprocs n)) W) as (H1 & H2 & H3).
  rewrite E in H2, H3. destruct (register _ _ _) as [[a b] r]. simpl in *. injection H2 as -> ->. done.
Qed.

(** When and how a grain is activated. *)
Lemma ensure_spec ref n : m_wf (nregistry n) →
  let '(r, n') := ensure ref n in
  m_wf (nregistry n') ∧
  if ndraining n || bool_decide (kinds cfg !! GetKind ref = None) then r = Some false ∧ n' = n
  else match reg n !! GetId ref with
  | Some p => r = Some true ∧ n' = n
  | None => if builds ref then r = Some true ∧ nprocs n' = nprocs n ++ [ref] ∧ ndraining n' = ndraining n ∧
                               reg n' = <[GetId ref := length (nprocs n)]> (reg n) ∧ nwriters n' = nwriters n
            else r = None ∧ n' = n
  end.
Proof.
  intros W. unfold ensureClusterKindActorExist. destruct (ndraining n) eqn:Hd; simpl; [done|].
  destruct (kinds cfg !! GetKind ref); [rewrite bool_decide_eq_false_2 by done|by rewrite bool_decide_eq_true_2].
  rewrite lookup_proc_abs by done. pose proof (getOrSpawn_spec (builds ref) ref None n W) as H.
  unfold reg in *. destruct (m_abs (nregistry n) !! GetId ref); [done|].
  destruct (getOrSpawn (builds ref) ref None n) as [[p|] n']; destruct (builds ref);
    destruct H as (H1 & H2 & H3 & H4); try done. destruct H4 as (H4 & H5 & H6). by rewrite H2.
Qed.

(** ** The outcome of a send *)

(** The dead letter and the notification of a message nothing can take. *)
Definition undeliverable target msg sender (sn : Z) (reason : string) (e : ErrCode)
    (d : disposition U) : Prop :=
  d = DDead (MkDeadLetter target None sender msg sn reason) (asking sender e).

(** An outbound stream writer is registered under the reference of its node's
    stream, and was built for that node's address. *)
Definition writers_ok n : Prop := ∀ a p, valid_name a →
  reg n !! GetId (stream_ref addr me a 0) = Some p →
  (p < length (nprocs n))%nat ∧ ∃ router, nwriters n !! p = Some (router, a).

(** The message went to the target's own mailbox on this node: [target] is one
    of this node's direct actors, or runs here, or is a grain this node owns. *)
Definition mailed_here target n (p : nat) (c : Ctx U) n' : Prop :=
  reg n' !! GetId target = Some p ∧ ctarget c = selfOf n' p target ∧
  if isDirect target then GetDirectAddr target = addr
  else reg n !! GetId target = Some p ∨ raddress (resolve target) = addr.

(** It went, target and all, to the writer of the stream to the target's node:
    [a], the address in a direct reference or the owner's. *)
Definition mailed_away target n (p : nat) (c : Ctx U) n' : Prop :=
  let a := raddress (resolve target) in
  ctarget c = target ∧ a ≠ addr ∧
  (if isDirect target then GetDirectAddr target = a else a ≠ "" ∧ reg n !! GetId target = None) ∧
  (valid_name a → valid_name addr →
     reg n' !! GetId (stream_ref addr me a 0) = Some p ∧
     (writers_ok n → ∃ router, nwriters n' !! p = Some (router, a))).

(** Every disposition of a message to an existing reference, and what must hold
    of the node for it. *)
Definition send_ok target msg sender (sn : Z) n (d : disposition U) n' : Prop :=
  match d with
  | DMail p c => cmessage c = msg ∧ csender c = sender ∧ cmsgSnId c = sn ∧
      (mailed_here target n p c n' ∨ mailed_away target n p c n')
  | DReply k m => isAsk target = true ∧ k = askSnId target ∧ m = msg ∧ n' = n
  | DIgnored => msg = MPoison ∧ reg n !! GetId target = None ∧ n' = n
  | DNilTarget => False
  | DDead dl notify => n' = n ∧ reg n !! GetId target = None ∧
      (undeliverable target msg sender sn DeadLetterReasonNoOwner errKindNotInCluster d ∧
         isDirect target = false ∧ raddress (resolve target) = "" ∨
       undeliverable target msg sender sn DeadLetterReasonNotFound errActorNotFound d ∧
         (isCluster target = false ∨ ndraining n = true ∨ kinds cfg !! GetKind target = None))
  | DPanicked => builds target = false ∧ isCluster target = true ∧ n' = n
  end.

(** The message is for this node. *)
Definition local_target target : Prop :=
  if isDirect target then GetDirectAddr target = addr else raddress (resolve target) = addr.

Lemma mailed_local target n p n' c : local_target target → reg n' !! GetId target = Some p →
  ctarget c = selfOf n' p target → mailed_here target n p c n'.
Proof. unfold local_target, mailed_here. destruct (isDirect target); auto. Qed.

Lemma sendToLocal_ok target msg sender sn n : m_wf (nregistry n) → local_target target →
  let '(d, n') := sendToLocal target msg sender sn n in
  m_wf (nregistry n') ∧ send_ok target msg sender sn n d n'.
Proof.
  intros W Hloc. unfold System.sendToLocal. destruct (isAsk target) eqn:Ha; [done|].
  rewrite lookup_proc_abs by done. fold (reg n). destruct (reg n !! GetId target) as [p|] eqn:Hp.
  { split; [done|]. simpl. split_and!; try done. left. by apply mailed_local. }
  destruct (is_poison msg) eqn:Hpo. { destruct msg; done. }
  destruct (isCluster target) eqn:Hc.
  2: { split; [done|]. simpl. split_and!; [done..|]. right. split; [done|by left]. }
  pose proof (ensure_spec target n W) as H. destruct (ensure target n) as [r n'].
  destruct H as [W' H]. rewrite Hp in H.
  destruct (ndraining n || bool_decide (kinds cfg !! GetKind target = None)) eqn:Hd.
  { destruct H as [-> ->]. split; [done|]. simpl. split_and!; [done..|]. right. split; [done|right].
    apply orb_true_iff in Hd as [Hd|Hd%bool_decide_eq_true]; auto. }
  destruct (builds target) eqn:Hb.
  - destruct H as (-> & H1 & H2 & H3 & _). rewrite lookup_proc_abs by done. fold (reg n').
    rewrite H3, lookup_insert_eq. split; [done|]. simpl. split_and!; try done.
    left. apply mailed_local; [done| |done]. by rewrite H3, lookup_insert_eq.
  - destruct H as [-> ->]. split; [done|]. done.
Qed.

(** The reference a stream writer is spawned with is the stream's own. *)
Lemma stream_ref_id a p q : valid_name a → valid_name addr →
  newDirectActorRef (GetKind (stream_ref addr me a p)) (GetName (stream_ref addr me a p)) addr me q
  = stream_ref addr me a q.
Proof.
  intros Ha (_ & H1 & H2). unfold stream_ref, GetKind, GetName, newDirectActorRef at 2 3. cbn [parsed].
  by rewrite parse_direct.
Qed.

Lemma sendToRemote_ok target msg sender sn n ns : m_wf (nregistry n) →
  route_ok addr me ns target (resolve target) → raddress (resolve target) ≠ addr →
  (if isDirect target then True else raddress (resolve target) ≠ "" ∧ reg n !! GetId target = None) →
  let '(d, n') := sendToRemote (resolve target) target msg sender sn n in
  m_wf (nregistry n') ∧ send_ok target msg sender sn n d n'.
Proof.
  intros W [Ha Hs] Hne Hdir. unfold System.sendToRemote.
  set (route := resolve target) in *. set (a := raddress route) in *.
  assert (if isDirect target then GetDirectAddr target = a else a ≠ "" ∧ reg n !! GetId target = None) as Hdir'.
  { unfold owner_address in Ha. by destruct (isDirect target). }
  destruct (rstream route) as [stream|].
  - destruct Hs as (_ & p0 & ->).
    assert (∀ p n', m_wf (nregistry n') → (valid_name a → valid_name addr →
        reg n' !! GetId (stream_ref addr me a 0) = Some p ∧
        (writers_ok n → ∃ router, nwriters n' !! p = Some (router, a))) →
      m_wf (nregistry n') ∧ send_ok target msg sender sn n (DMail p (NewContext target sender msg sn)) n') as Hgo.
    { intros p n' W' H. split; [done|]. simpl. split_and!; try done. right. by split_and!. }
    rewrite lookup_proc_abs by done. fold (reg n).
    destruct (reg n !! GetId (stream_ref addr me a p0)) as [p|] eqn:Hp.
    { apply Hgo; [done|]. intros Hv _. change (GetId (stream_ref addr me a p0)) with (GetId (stream_ref addr me a 0)) in Hp.
      split; [done|]. intros Hw. by apply Hw. }
    set (self := newDirectActorRef _ _ addr me _).
    pose proof (getOrSpawn_spec true self (Some (stream_ref addr me a p0, a)) n W) as H.
    assert (valid_name a → valid_name addr → GetId self = GetId (stream_ref addr me a 0)) as Hid.
    { intros. unfold self. by rewrite stream_ref_id. }
    clearbody self.
    destruct (getOrSpawn true self _ n) as [r n']. destruct H as (W' & _ & H).
    destruct (reg n !! GetId self) as [p|] eqn:Hq.
    + destruct H as [-> ->]. apply Hgo; [done|]. intros H1 H2. rewrite Hid in Hq by done.
      split; [done|]. intros Hw. by apply Hw.
    + destruct H as (-> & H2 & H3 & H4). apply Hgo; [done|]. intros H5 H6. rewrite Hid in H3 by done.
      rewrite H3, H4, !lookup_insert_eq. split; [done|]. by eexists.
  - exfalso. fold a in Ha. unfold remote_route, owner_address in *. rewrite <-Ha in Hs.
    destruct (isDirect target); simpl in *.
    + by rewrite bool_decide_eq_false_2 in Hs.
    + destruct (isCluster target); simpl in *; [|by destruct Hdir].
      rewrite (bool_decide_eq_false_2 (a = addr)) in Hs by done.
      by rewrite (bool_decide_eq_false_2 (a = "")) in Hs by apply Hdir.
Qed.

Lemma route_send_ok target msg sender sn n : m_wf (nregistry n) →
  (∀ t, ∃ ns, route_ok addr me ns t (resolve t)) →
  let '(d, n') := route_send (Some target) msg sender sn n in
  m_wf (nregistry n') ∧ send_ok target msg sender sn n d n'.
Proof.
  intros W Hres. unfold System.route_send.
  destruct (Hres target) as [ns Hr]. destruct (isDirect target) eqn:Hd.
  - case_decide as Ha; [apply sendToLocal_ok; [done|]; unfold local_target; by rewrite Hd|].
    apply (sendToRemote_ok _ _ _ _ _ ns); try done; [|by rewrite Hd].
    destruct Hr as [-> _]. unfold owner_address. by rewrite Hd.
  - rewrite lookup_proc_abs by done. fold (reg n). destruct (reg n !! GetId target) as [p|] eqn:Hp.
    { split; [done|]. simpl. split_and!; try done. left. unfold mailed_here. rewrite Hd. by auto. }
    case_decide as He. { split; [done|]. simpl. split_and!; [done..|]. left. by split. }
    case_decide as Ha; [apply sendToLocal_ok; [done|]; unfold local_target; by rewrite Hd|].
    apply (sendToRemote_ok _ _ _ _ _ ns); try done. by rewrite Hd.
Qed.

(** Sends keep the stream writers' index, for a target that is a parsed id and
    addresses that can stand in one. *)
Lemma stream_ref_inj a a' p p' : valid_name a → valid_name a' → valid_name addr →
  GetId (stream_ref addr me a p) = GetId (stream_ref addr me a' p') → a = a'.
Proof.
  intros Ha Ha' (_ & H1 & H2) H. unfold stream_ref, newDirectActorRef, GetId in H. cbn [fullPath] in H.
  apply (f_equal parseCache) in H. rewrite !parse_direct in H by done. by injection H.
Qed.

Lemma writers_ok_ensure ref n : m_wf (nregistry n) → writers_ok n → valid_name addr →
  (∃ id sys q, ref = newActorRefFromAID id sys q) → isCluster ref = true →
  writers_ok (ensure ref n).2.
Proof.
  intros W Hw (_ & Ha1 & Ha2) (id & sys & q & ->) Hc. set (ref := newActorRefFromAID id sys q) in *.
  pose proof (ensure_spec ref n W) as H. destruct (ensure ref n) as [r n'].
  destruct H as [_ H]. cbn [snd]. destruct (ndraining n || _); [by destruct H as [_ ->]|].
  destruct (reg n !! GetId ref); [by destruct H as [_ ->]|]. destruct (builds ref); [|by destruct H as [_ ->]].
  destruct H as (_ & H1 & _ & H3 & H4). intros a p Ha. rewrite H1, H3, H4, length_app. rewrite lookup_insert_ne.
  { intros Hp. destruct (Hw a p Ha Hp). split; [lia|done]. }
  intros Heq. change (GetId ref) with id in Heq. unfold ref in Hc. rewrite Heq in Hc.
  unfold isCluster, newActorRefFromAID, GetType in Hc. cbn [parsed] in Hc.
  unfold stream_ref, newDirectActorRef, GetId in Hc. cbn [fullPath] in Hc. by rewrite parse_direct in Hc.
Qed.

Lemma writers_ok_remote route t msg sender sn n p0 : m_wf (nregistry n) → writers_ok n → valid_name addr →
  valid_name (raddress route) → rstream route = Some (stream_ref addr me (raddress route) p0) →
  writers_ok (sendToRemote route t msg sender sn n).2.
Proof.
  intros W Hw Hv Ha Hs. unfold System.sendToRemote. rewrite Hs, stream_ref_id by done.
  destruct (lookup_proc _ _); [done|].
  set (self := stream_ref addr me (raddress route) (length (nprocs n))).
  pose proof (getOrSpawn_spec true self (Some (stream_ref addr me (raddress route) p0, raddress route)) n W) as H.
  destruct (getOrSpawn true self _ n) as [r n']. destruct H as (_ & _ & H).
  assert (writers_ok n') as Hw'; [|by destruct r].
  destruct (reg n !! GetId self); [by destruct H as [_ ->]|]. destruct H as (_ & H2 & H3 & H4).
  intros a p Hva. rewrite H2, H3, H4, length_app. cbn [length].
  intros [[Hid <-]|[_ Hp]]%lookup_insert_Some.
  - split; [lia|]. rewrite lookup_insert_eq. apply stream_ref_inj in Hid as ->; [|done..]. by eexists.
  - destruct (Hw a p Hva Hp) as [Hlt Hr]. split; [lia|]. by rewrite lookup_insert_ne by lia.
Qed.

(** ** The sender and the message travel together *)

(** A disposition that carries its message and sender along, and a dead letter
    that tells its asker why. *)
Definition faithful msg sender (sn : Z) (d : disposition U) : Prop :=
  match d with
  | DMail _ c => cmessage c = msg ∧ csender c = sender ∧ cmsgSnId c = sn
  | DDead dl notify =>
      dReason dl = DeadLetterReasonNoOwner ∧ notify = asking sender errKindNotInCluster ∨
      dReason dl = DeadLetterReasonNotFound ∧ notify = asking sender errActorNotFound
  | _ => True
  end.

Lemma sendToLocal_faithful t msg sender sn n :
  faithful msg sender sn (sendToLocal t msg sender sn n).1.
Proof.
  unfold System.sendToLocal. destruct (isAsk t); [done|].
  assert (∀ n, faithful msg sender sn
    (match lookup_proc (nregistry n) (GetId t) with
     | Some p => (DMail p (NewContext (selfOf n p t) sender msg sn), n)
     | None => (DDead (MkDeadLetter t None sender msg sn DeadLetterReasonNotFound)
                  (asking sender errActorNotFound), n)
     end).1) as H.
  { intros n'. destruct (lookup_proc _ _); [done|by right]. }
  pose proof (H n) as Hn. destruct (lookup_proc (nregistry n) (GetId t)) as [p|]; [exact Hn|].
  destruct (is_poison msg); [done|]. destruct (isCluster t); [|exact Hn].
  destruct (ensure t n) as [[[|]|] n']; [apply H|by right|done].
Qed.

Lemma sendToRemote_faithful route t msg sender sn n :
  faithful msg sender sn (sendToRemote route t msg sender sn n).1.
Proof.
  unfold System.sendToRemote. destruct (rstream route) as [stream|]; [|done].
  destruct (lookup_proc _ _); [done|]. by destruct (getOrSpawn _ _ _ n) as [[p|] n'].
Qed.

Lemma route_send_faithful t msg sender sn n :
  faithful msg sender sn (route_send (Some t) msg sender sn n).1.
Proof.
  unfold System.route_send. destruct (isDirect t).
  - case_decide; [apply sendToLocal_faithful|apply sendToRemote_faithful].
  - destruct (lookup_proc _ _); [done|]. case_decide; [by left|].
    case_decide; [apply sendToLocal_faithful|apply sendToRemote_faithful].
Qed.

(** Without a sender there is no asker to fail, hence no further Tell. *)
Lemma route_send_no_notice (target : option ActorRef) msg sn n dl nt n' :
  route_send target msg None sn n = (DDead dl nt, n') → nt = None.
Proof.
  destruct target as [t|]; [|done]. pose proof (route_send_faithful t msg None sn n) as H.
  intros E. rewrite E in H. by destruct H as [[_ H]|[_ H]].
Qed.

(** A send without a sender is its one disposition. *)
Lemma tell_effects (target : option ActorRef) msg sn n :
  tellWithSender target msg None sn n =
    (effects_of (route_send target msg None sn n).1, (route_send target msg None sn n).2).
Proof.
  unfold System.tellWithSender, send_body. destruct (route_send target msg None sn n) as [d n'] eqn:E.
  destruct d as [| | | |dl nt|]; try done. by rewrite (route_send_no_notice _ _ _ _ _ _ _ E).
Qed.


(** ** No stray activation *)

(** The processors a send builds. *)
Lemma getOrSpawn_built ok self w n : m_wf (nregistry n) →
  ∃ l, nprocs (getOrSpawn ok self w n).2 = nprocs n ++ l ∧ ∀ r, r ∈ l → r = self.
Proof.
  intros W. pose proof (getOrSpawn_spec ok self w n W) as H. destruct (getOrSpawn ok self w n) as [r n'].
  destruct H as (_ & _ & H). simpl. destruct (reg n !! GetId self); [destruct H as [_ ->]|destruct ok].
  - exists []. split; [by rewrite app_nil_r|]. by intros r' ?%not_elem_of_nil.
  - destruct H as (_ & -> & _). exists [self]. split; [done|]. by intros r' ?%list_elem_of_singleton.
  - destruct H as [_ ->]. exists []. split; [by rewrite app_nil_r|]. by intros r' ?%not_elem_of_nil.
Qed.

(** [C24] What must not start a grain, does not.  A poison for a grain that is not
    running, any message while the node drains, and any message for a kind this
    node was not configured with leave every grain unactivated: the only
    processors such a send can build are this node's outbound streams. *)
Theorem no_stray_activation target msg sender (sn : Z) n (W : m_wf (nregistry n))
    (Hres : ∀ t, ∃ ns, route_ok addr me ns t (resolve t))
    (Hcase : msg = MPoison ∨ ndraining n = true ∨ kinds cfg !! GetKind target = None) :
  ∃ l, nprocs (route_send (Some target) msg sender sn n).2 = nprocs n ++ l ∧
    ∀ r, r ∈ l → ∃ a p q, r = newDirectActorRef (GetKind (stream_ref addr me a p)) (GetName (stream_ref addr me a p)) addr me q.
Proof.
  assert (∃ l, nprocs n = nprocs n ++ l ∧ ∀ r, r ∈ l → ∃ a p q,
    r = newDirectActorRef (GetKind (stream_ref addr me a p)) (GetName (stream_ref addr me a p)) addr me q) as Hnone.
  { exists []. split; [by rewrite app_nil_r|]. by intros r ?%not_elem_of_nil. }
  assert (∃ l, nprocs (sendToLocal target msg sender sn n).2 = nprocs n ++ l ∧ ∀ r, r ∈ l → ∃ a p q,
    r = newDirectActorRef (GetKind (stream_ref addr me a p)) (GetName (stream_ref addr me a p)) addr me q) as Hloc.
  { unfold System.sendToLocal. destruct (isAsk target); [done|].
    destruct (lookup_proc (nregistry n) (GetId target)) eqn:E; [done|].
    destruct (is_poison msg) eqn:Hp; [done|]. destruct (isCluster target); [|done].
    pose proof (ensure_spec target n W) as H. destruct (ensure target n) as [r n']. destruct H as [_ H].
    assert (ndraining n || bool_decide (kinds cfg !! GetKind target = None) = true) as Hoff.
    { destruct Hcase as [->|[->| ->]]; [done|done|]. by rewrite bool_decide_eq_true_2, orb_true_r. }
    rewrite Hoff in H. by destruct H as [-> ->]. }
  assert (∃ l, nprocs (sendToRemote (resolve target) target msg sender sn n).2 = nprocs n ++ l ∧ ∀ r, r ∈ l → ∃ a p q,
    r = newDirectActorRef (GetKind (stream_ref addr me a p)) (GetName (stream_ref addr me a p)) addr me q) as Hrem.
  { unfold System.sendToRemote. destruct (Hres target) as (ns & _ & Hs).
    destruct (rstream (resolve target)) as [stream|]; [|done]. destruct Hs as (_ & p & ->).
    destruct (lookup_proc _ _); [done|].
    pose proof (getOrSpawn_built true (newDirectActorRef (GetKind (stream_ref addr me (raddress (resolve target)) p))
      (GetName (stream_ref addr me (raddress (resolve target)) p)) addr me (length (nprocs n)))
      (Some (stream_ref addr me (raddress (resolve target)) p, raddress (resolve target))) n W) as (l & Hl & Hin).
    destruct (getOrSpawn _ _ _ n) as [[q|] n']; exists l; (split; [done|]); intros r Hr;
      by exists (raddress (resolve target)), p, (length (nprocs n)); apply Hin. }
  unfold System.route_send. destruct (isDirect target); [by case_decide|].
  destruct (lookup_proc _ _); [done|]. do 2 (case_decide; [done|]). done.
Qed.

(** [C32] Activation on demand.  The first message for a grain that this node
    owns and hosts activates it and reaches its mailbox; the next message to the
    same reference reaches the same mailbox and changes nothing. *)
Theorem activation_on_demand target msg msg2 sender (sn sn2 : Z) n (W : m_wf (nregistry n))
    (Hcl : isDirect target = false) (Hc : isCluster target = true) (Hask : isAsk target = false)
    (Hfree : reg n !! GetId target = None) (Hown : raddress (resolve target) = addr) (Haddr : addr ≠ "")
    (Hd : ndraining n = false) (Hk : kinds cfg !! GetKind target ≠ None)
    (Hb : builds target = true) (Hm : is_poison msg = false) :
  let p := length (nprocs n) in
  let '(d, n1) := route_send (Some target) msg sender sn n in
  d = DMail p (NewContext target sender msg sn) ∧
  reg n1 = <[GetId target := p]> (reg n) ∧ nprocs n1 = nprocs n ++ [target] ∧
  route_send (Some target) msg2 sender sn2 n1 = (DMail p (NewContext target sender msg2 sn2), n1).
Proof.
  intros p. unfold System.route_send at 1, System.sendToLocal. rewrite Hcl, Hask.
  rewrite lookup_proc_abs by done. fold (reg n). rewrite Hfree, Hown.
  rewrite decide_False by done. rewrite decide_True by done. rewrite Hm, Hc.
  pose proof (ensure_spec target n W) as H. destruct (ensure target n) as [r n1]. destruct H as [W1 H].
  rewrite Hd, bool_decide_eq_false_2, Hfree, Hb in H by done. simpl in H. destruct H as (-> & H1 & H2 & H3 & _).
  rewrite lookup_proc_abs by done. fold (reg n1). rewrite H3, lookup_insert_eq. unfold selfOf.
  assert (nprocs n1 !! length (nprocs n) = Some target) as Hself by (by rewrite H1, lookup_app_r, Nat.sub_diag).
  rewrite Hself. split_and!; try done.
  unfold System.route_send. rewrite Hcl, lookup_proc_abs by done. fold (reg n1).
  rewrite H3, lookup_insert_eq. unfold selfOf. by rewrite Hself.
Qed.

(** The reply shortcut is the routed reply.  Replying to an Ask of this very
    system bypasses routing; the effect is the one the routed path has, for every
    message and state. *)
Theorem reply_fast_path (c : Ctx U) (m : Message U) n :
  Reply me addr cfg resolve builds c m n =
    tellWithSender (csender c) m (Some (ctarget c)) (cmsgSnId c) n.
Proof.
  unfold Reply. destruct (csender c) as [[w|r]|]; [done| |done]. case_decide as H; [|done]. destruct H as [Hs Ha].
  unfold System.tellWithSender, send_body, System.route_send. simpl. by rewrite decide_True.
Qed.

(** ** A membership change *)

(** [C33] Exactly the grains that moved are stopped.  After a membership change
    the node poisons a registered processor if and only if it is a grain whose
    owner under the new node set exists and is another node; direct actors and
    grains whose kind no node hosts any more keep running. *)
Theorem member_change_stops_moved (ns : list tNodeState) n (p : nat) (W : m_wf (nregistry n)) :
  EPoison p ∈ clusterMemberChanged (U := U) addr ns n ↔
  ∃ id self, reg n !! id = Some p ∧ nprocs n !! p = Some self ∧ isDirect self = false ∧
    CalcAddrByKind8Name ns (GetKind self) (GetName self) ≠ "" ∧
    CalcAddrByKind8Name ns (GetKind self) (GetName self) ≠ addr.
Proof.
  unfold clusterMemberChanged.
  set (f := λ (_ : string) v, match nprocs n !! v with
    | Some self =>
        if negb (isDirect self) &&
           bool_decide (CalcAddrByKind8Name ns (GetKind self) (GetName self) ≠ "") &&
           bool_decide (CalcAddrByKind8Name ns (GetKind self) (GetName self) ≠ addr)
        then [EPoison (U := U) v] else []
    | None => [] end).
  rewrite (rangeIt_collect _ f (nregistry n)); [|done|].
  - unfold f. split.
    + intros (id & v & Hv & Hin). destruct (nprocs n !! v) as [self|] eqn:Hp; [|by apply elem_of_nil in Hin].
      destruct (_ && _) eqn:Hs; [|by apply elem_of_nil in Hin].
      apply list_elem_of_singleton in Hin as [= ->].
      apply andb_true_iff in Hs as [[H1%negb_true_iff H2%bool_decide_eq_true]%andb_true_iff H3%bool_decide_eq_true].
      by exists id, self.
    + intros (id & self & Hv & Hp & H1 & H2 & H3). exists id, p. split; [done|].
      rewrite Hp, H1, !bool_decide_eq_true_2 by done. by left.
  - intros id v effs. unfold f. destruct (nprocs n !! v) as [self|]; [|by rewrite app_nil_r].
    destruct (isDirect self); [by rewrite app_nil_r|]. cbn [negb andb].
    destruct (_ && _); [done|by rewrite app_nil_r].
Qed.

(** ** Inbound envelopes *)

Context {Codec : ProtoCodec U}.

(** A remote node cannot start, restart or confuse an actor.  An envelope
    that is missing, names the framework's own Initialize, names no registered
    type, does not decode or has no target has no effect at all; any other is one
    ordinary send of a message that is not Initialize, from no sender when the
    envelope names none. *)
Theorem envelope_untrusted (env : option Envelope) (p : nat) n :
  let '(effs, n') := RecvEnvelope me addr cfg resolve builds env p n in
  (effs = [] ∧ n' = n ∧
     match env with
     | None => True
     | Some e => MsgName e = msgNameInitialize (U := U) ∨ FindMessageByName (MsgName e) = false ∨
                 Unmarshal (MsgName e) (Content e) = None (A := Message U) ∨ Target e = ""
     end) ∨
  ∃ e m, env = Some e ∧ Unmarshal (MsgName e) (Content e) = Some m ∧ m ≠ MInitialize ∧ Target e ≠ "" ∧
    (effs, n') = tellWithSender (Some (newActorRefFromAID (Target e) me (S p))) m
                   (if decide (Sender e = "") then None else Some (newActorRefFromAID (Sender e) me p))
                   (MsgSnId e) n.
Proof.
  destruct env as [e|]; simpl; [|by left].
  case_decide as Hi; [left; split_and!; auto|]. destruct (FindMessageByName (MsgName e)) eqn:Hf; simpl; [|left; split_and!; auto].
  destruct (Unmarshal (MsgName e) (Content e)) as [m|] eqn:Hu; [|left; split_and!; auto].
  case_decide as Ht; [left; split_and!; auto|].
  destruct (System.tellWithSender _ _ _ _ _ _ m _ (MsgSnId e) n) as [effs n'] eqn:E. right.
  exists e, m. split_and!; try done. intros ->. apply Hi. symmetry. by apply Unmarshal_name with (Content e).
Qed.
End thms.
