(* ===== verification/SystemDemo.v ===== *)
(** * A concrete node

    Node a:1 hosts the kind "player"; its members are itself and b:1. *)

From S2P Require Import Prelude.
From S2P Require Import GoStrings.
From S2P Require Import ActorId.
From S2P Require Import ErrCode.
From S2P Require Import Config.
From S2P Require Import AddrHash.
From S2P Require Import Messages.
From S2P Require Import SafeMap.
From S2P Require Import Registry.
From S2P Require Import Routing.
From S2P Require Import System.
From S2P Require Import SystemThms.
Open Scope Z_scope.

(** The uncached route over a node set. *)
Definition uncached (addr : string) (sys : nat) (ns : list tNodeState) (t : ActorRef) : resolvedRoute :=
  Route (owner_address ns t)
    (if remote_route addr ns t then Some (stream_ref addr sys (owner_address ns t) 0) else None).

Lemma uncached_ok addr sys ns t : route_ok addr sys ns t (uncached addr sys ns t).
Proof.
  split; [done|]. simpl. destruct (remote_route addr ns t) eqn:E; [|done]. split; [done|by eexists].
Qed.

Definition game_cfg : config unit_env :=
  MkConfig 1 "c" "v" [] 0 10 1 1 ":0" [] [] {["player" := MkKind (Env := unit_env) 0%nat []]}
    (NodeState 1 "a:1" "v" "" ["player"]) None None.
Definition game_members : list tNodeState :=
  [NodeState 1 "a:1" "v" "" ["player"]; NodeState 2 "b:1" "v" "" ["lobby"]].
Definition game_route : ActorRef → resolvedRoute := uncached "a:1" 0 game_members.

Lemma game_route_ok t : ∃ ns, route_ok "a:1" 0 ns t (game_route t).
Proof. exists game_members. apply uncached_ok. Qed.

Definition fresh_node (drain : bool) : node (list (gmap string nat)) := Node newRegistry [] drain 100 ∅.
Lemma fresh_wf drain : m_wf (nregistry (fresh_node drain)).
Proof. apply registry_wf. Qed.

Definition player7 : ActorRef := newClusterActorRef "player" "7" 0 1.
Definition gone : ActorRef := newDirectActorRef "local" "x" "a:1" 0 2.
Definition asker : ActorRef := newReplyRef 55 "a:1" 0.
Definition yes (_ : ActorRef) : bool := true.
Definition hello : Message nat := MUser 1%nat.


Lemma no_stray_activation_witness :
  nprocs (route_send 0 "a:1" game_cfg game_route yes (Some player7) (MPoison (U := nat)) None 55 (fresh_node false)).2 = [] ∧
  ∃ l, nprocs (route_send 0 "a:1" game_cfg game_route yes (Some player7) hello None 55 (fresh_node true)).2 = [] ++ l.
Proof.
  split; [vm_compute; reflexivity|].
  destruct (no_stray_activation 0 "a:1" game_cfg game_route yes player7 hello None 55 (fresh_node true)
    (fresh_wf true) game_route_ok (or_intror (or_introl eq_refl))) as (l & H & _).
  exists l. exact H.
Defined.

Lemma activation_on_demand_witness :
  let '(d, n1) := route_send 0 "a:1" game_cfg game_route yes (Some player7) hello None 55 (fresh_node false) in
  d = DMail 0 (NewContext player7 None hello 55) ∧
  route_send 0 "a:1" game_cfg game_route yes (Some player7) (MPoison (U := nat)) None 56 n1 =
    (DMail 0 (NewContext player7 None MPoison 56), n1).
Proof.
  pose proof (activation_on_demand 0 "a:1" game_cfg game_route yes player7 hello MPoison None 55 56 (fresh_node false)
    (fresh_wf false) ltac:(vm_compute; reflexivity) ltac:(vm_compute; reflexivity) ltac:(vm_compute; reflexivity)
    ltac:(vm_compute; reflexivity) ltac:(vm_compute; reflexivity) ltac:(done) eq_refl
    ltac:(vm_compute; discriminate) eq_refl eq_refl) as H.
  cbv zeta in H.
  destruct (route_send 0 "a:1" game_cfg game_route yes (Some player7) hello None 55 (fresh_node false)) as [d n1].
  destruct H as (H1 & _ & _ & H4). split; [exact H1|exact H4].
Defined.

(** The node after [player7] was activated, and a membership that lost it. *)
Definition hosting : node (list (gmap string nat)) :=
  (route_send 0 "a:1" game_cfg game_route yes (Some player7) hello None 55 (fresh_node false)).2.

Lemma hosting_wf : m_wf (nregistry hosting).
Proof.
  pose proof (route_send_ok 0 "a:1" game_cfg game_route yes player7 hello None 55 (fresh_node false)
    (fresh_wf false) game_route_ok) as H.
  unfold hosting. destruct (route_send _ _ _ _ _ _ _ _ _ _) as [d n1]. apply H.
Qed.

Lemma member_change_stops_moved_witness :
  EPoison 0 ∈ clusterMemberChanged (U := nat) "a:1" [NodeState 2 "b:1" "v" "" ["player"]] hosting.
Proof.
  apply (member_change_stops_moved "a:1" [NodeState 2 "b:1" "v" "" ["player"]] hosting 0%nat hosting_wf).
  exists (GetId player7), player7. split_and!; vm_compute; (reflexivity || discriminate).
Defined.

(** A codec with one user type beside Initialize. *)
Definition game_name (m : Message nat) : string :=
  if is_initialize m then "message.Initialize" else "game.Hello".
Definition game_decode (nm c : string) : option (Message nat) :=
  if decide (nm = "game.Hello") then Some (MUser (String.length c))
  else if decide (nm = "message.Initialize") then Some MInitialize else None.

Lemma game_decode_name nm c m : true = true → game_decode nm c = Some m → game_name m = nm.
Proof. intros _. unfold game_decode. repeat case_decide; intros; simplify_eq; done. Qed.

#[export] Instance game_codec : ProtoCodec nat := {|
  MessageName := game_name;
  FindMessageByName _ := true;
  Unmarshal := game_decode;
  Marshal m := Some EmptyString;
  Unmarshal_name := game_decode_name
|}.

Lemma envelope_untrusted_witness :
  RecvEnvelope (U := nat) 0 "a:1" game_cfg game_route yes
    (Some (MkEnvelope "" (GetId player7) 9 "message.Initialize" "")) 3 hosting = ([], hosting).
Proof.
  pose proof (envelope_untrusted (U := nat) 0 "a:1" game_cfg game_route yes
    (Some (MkEnvelope "" (GetId player7) 9 "message.Initialize" "")) 3 hosting) as H.
  destruct (RecvEnvelope _ _ _ _ _ _ _ _) as [effs n'].
  destruct H as [(-> & -> & _)|(e & m & He & Hu & Hm & _)]; [reflexivity|].
  injection He as <-. vm_compute in Hu. by injection Hu as <-.
Defined.
