(* ===== verification/EventStream.v ===== *)
(** * event_stream.go: publish and subscribe across the cluster

    The event stream actor of one node: its local subscribers, its view of which
    nodes subscribe to an event, and the etcd registrations that keep the views
    of all nodes together.  Handlers run one at a time (the actor's mailbox); the
    provider's watch goroutine calls [parseWatchEventStream] between them, which
    touches only [eventStreamMaps], a lock-protected map.  An inner per-event map
    is created once and never dropped, so nesting the maps is faithful. *)

From S2P Require Import Prelude.
From S2P Require Import GoStrings.
From S2P Require Import ActorId.
From S2P Require Import Messages.
From S2P Require Import SafeMap.
Open Scope Z_scope.

Inductive watchOp : Type := watchPut | watchDelete.

Record eventStream : Type := EventStream {
  esSelf : ActorRef;
  esSystem : nat;
  nodeId : Z;
  eventStreamPrefix : string;
  eventStreamMaps : gmap string (gmap Z ActorRef);
  sub : gmap string (gmap string ActorRef)
}.

Definition set_maps (m : gmap string (gmap Z ActorRef)) (x : eventStream) : eventStream :=
  EventStream (esSelf x) (esSystem x) (nodeId x) (eventStreamPrefix x) m (sub x).
Definition set_sub (m : gmap string (gmap string ActorRef)) (x : eventStream) : eventStream :=
  EventStream (esSelf x) (esSystem x) (nodeId x) (eventStreamPrefix x) (eventStreamMaps x) m.

(** What a handler makes happen: a tell, or a call to etcd. *)
Inductive es_effect (U : Type) : Type :=
| ETell (to : ActorRef) (m : Message U)
| ERegister (path val : string)
| EUnregister (path : string).
Arguments ETell {U} to m.
Arguments ERegister {U} path val.
Arguments EUnregister {U} path.

Definition newEventStream (self : ActorRef) (system : nat) (nodeId : Z) (prefix : string) : eventStream :=
  EventStream self system nodeId prefix ∅ ∅.

Section stream.
Context {U : Type} (MessageName : Message U → string).
Implicit Types (x : eventStream).

(** [strings.ReplaceAll(prefix + "/" + eventName + "/" + Itoa(nodeId), "//", "/")]. *)
Definition getEventNamePath (eventName : string) x : string :=
  collapse_pairs "/" (eventStreamPrefix x +:+ "/" +:+ eventName +:+ "/" +:+ Itoa (i64 (nodeId x))).

(** [eventStreamMaps.GetOrCreate(eventName).Set(node, ref)]. *)
Definition map_set (eventName : string) (node : Z) (ref : ActorRef) x : eventStream :=
  let '(inner, m) := RWMap.GetOrCreate (eventStreamMaps x) eventName (λ _, RWMap.NewRWMap) in
  set_maps (<[eventName := RWMap.Set_ inner node ref]> m) x.

Definition map_delete (eventName : string) (node : Z) x : eventStream :=
  match RWMap.Get (eventStreamMaps x) eventName with
  | Some actors => set_maps (<[eventName := RWMap.Delete actors node]> (eventStreamMaps x)) x
  | None => x
  end.

(** [ok] is whether etcd accepted the call; a refusal is only logged. *)
Definition registerEventStream (eventName : string) (ok : bool) x : list (es_effect U) * eventStream :=
  ([ERegister (getEventNamePath eventName x) (GetId (esSelf x))],
   if ok then map_set eventName (nodeId x) (esSelf x) x else x).

Definition unregisterEventStream (eventName : string) (ok : bool) x : list (es_effect U) * eventStream :=
  ([EUnregister (getEventNamePath eventName x)],
   if ok then map_delete eventName (nodeId x) x else x).

Definition subscribe (actorId eventName : string) (ok : bool) (p : nat) x : list (es_effect U) * eventStream :=
  let '(effs, x) :=
    match sub x !! eventName with
    | Some _ => ([], x)
    | None => registerEventStream eventName ok (set_sub (<[eventName := ∅]> (sub x)) x)
    end in
  (effs, set_sub (<[eventName := <[actorId := newActorRefFromAID actorId (esSystem x) p]>
                                   (default ∅ (sub x !! eventName))]> (sub x)) x).

Definition unsubscribe (actorId eventName : string) (ok : bool) x : list (es_effect U) * eventStream :=
  match sub x !! eventName with
  | None => ([], x)
  | Some m =>
      match m !! actorId with
      | None => ([], x)
      | Some _ =>
          let m := delete actorId m in
          let x := set_sub (<[eventName := m]> (sub x)) x in
          if decide (size m = 0%nat)
          then unregisterEventStream eventName ok (set_sub (delete eventName (sub x)) x)
          else ([], x)
      end
  end.

Definition getActorsByEventFromEventStream (event : Message U) x : list ActorRef :=
  match RWMap.Get (eventStreamMaps x) (MessageName event) with
  | None => []
  | Some actors => (map_to_list actors).*2
  end.

Definition broadcastPublish (msg : Message U) x : list (es_effect U) :=
  map (λ ref, ETell ref msg) (getActorsByEventFromEventStream msg x).

Definition onPublish (msg : Message U) x : list (es_effect U) :=
  map (λ ref, ETell ref msg) (map_to_list (default ∅ (sub x !! MessageName msg))).*2.

Definition Receive (m : Message U) (ok : bool) (p : nat) x : list (es_effect U) * eventStream :=
  match m with
  | MSubscribe actorId eventName => subscribe actorId eventName ok p x
  | MUnsubscribe actorId eventName => unsubscribe actorId eventName ok x
  | MBroadcast m => (broadcastPublish m x, x)
  | m => (onPublish m x, x)
  end.

Inductive watch_error : Type := ErrLen | ErrNodeId | ErrActorId.

Definition parseWatchEventStream (op : watchOp) (key value : string) (p : nat) x
    : option watch_error * eventStream :=
  let key := TrimPrefix key "/" in
  match SplitN 4 key "/" with
  | [_; _; eventName; node] =>
      match Atoi node with
      | (_, Some _) => (Some ErrNodeId, x)
      | (n, None) =>
          match op with
          | watchDelete => (None, map_delete eventName (u64 n) x)
          | watchPut =>
              let actorRef := newActorRefFromAID value (esSystem x) p in
              if decide (GetKind actorRef = "" ∨ GetName actorRef = "") then (Some ErrActorId, x)
              else (None, map_set eventName (u64 n) actorRef x)
          end
      end
  | _ => (Some ErrLen, x)
  end.

(** [Started]: a failed watch poisons the actor itself. *)
Definition Started (watch_ok : bool) x : list (es_effect U) :=
  if watch_ok then [] else [ETell (esSelf x) MPoison].
End stream.
