(* ===== verification/EventStreamThms.v ===== *)
(** * Theorems on the event stream

    One node: the subscriber table is the set the Subscribe/Unsubscribe history
    describes, and a local publish tells each member once.  The cluster: nodes
    handle messages and consume the etcd watch in any interleaving; once a
    node has consumed what was sent to it, its broadcast addresses exactly the
    nodes that have a subscriber. *)

From S2P Require Import Prelude.
From S2P Require Import GoStrings.
From S2P Require Import ActorId.
From S2P Require Import Messages.
From S2P Require Import SafeMap.
From S2P Require Import Config.
From S2P Require Import EventStream.
Open Scope Z_scope.

(** ** The etcd path of a registration *)

Definition seg (s : string) : Prop := s ≠ "" ∧ no_byte "/" s.

Lemma collapse_plain s t : no_byte "/" s → collapse_pairs "/" (s +:+ t) = s +:+ collapse_pairs "/" t.
Proof.
  unfold no_byte. induction s as [|d s IH]; [done|].
  cbn [str_contains_byte]. rewrite orb_false_iff. intros [Hd Hs]. case_bool_decide; [done|].
  cbn [String.app]. rewrite <-IH by done.
  destruct (s +:+ t) as [|e r] eqn:E; [done|].
  cbn [collapse_pairs]. rewrite decide_False by (intros [? _]; congruence). by rewrite <-E.
Qed.

Lemma collapse_sep s t : seg s →
  collapse_pairs "/" (String "/" (s +:+ t)) = String "/" (s +:+ collapse_pairs "/" t).
Proof.
  intros [Hne Hs]. rewrite <-collapse_plain by done. destruct s as [|d s]; [done|].
  unfold no_byte in Hs. cbn [str_contains_byte] in Hs. apply orb_false_iff in Hs as [Hd _].
  case_bool_decide; [done|]. cbn [String.app collapse_pairs].
  by rewrite decide_False by (intros [_ ?]; congruence).
Qed.

Lemma collapse_seps s t : seg s →
  collapse_pairs "/" (String "/" (String "/" (s +:+ t))) = String "/" (s +:+ collapse_pairs "/" t).
Proof. intros [Hne Hs]. cbn [collapse_pairs]. rewrite decide_True by done. by rewrite collapse_plain. Qed.

Lemma SplitN_seg n s t : no_byte "/" s →
  SplitN (S (S n)) (s +:+ String "/" t) "/" = s :: SplitN (S n) t "/".
Proof.
  intros Hs. destruct (cut_app s t "/" Hs) as (E1 & E2 & E3). cbn [SplitN]. rewrite E1.
  rewrite decide_True by lia. rewrite E2.
  replace (Z.to_nat (Z.of_nat (String.length s)) + 1)%nat
    with (Z.to_nat (Z.of_nat (String.length s) + 1)) by lia.
  by rewrite E3.
Qed.

Lemma FormatUint_seg n : in_u64 n → seg (FormatUint n).
Proof.
  intros Hn. split; [|by apply FormatUint_no_byte; left].
  intros E. pose proof (ParseUint_FormatUint n Hn) as Hp. by rewrite E in Hp.
Qed.

Lemma Atoi_Itoa n : 0 ≤ n < 2 ^ 63 → Atoi (Itoa n) = (n, None).
Proof.
  intros Hn. unfold Itoa. rewrite decide_False by lia.
  assert (in_u64 n) as Hu by (unfold in_u64; lia).
  pose proof (ParseUint_FormatUint n Hu) as Hp. unfold Atoi.
  pose proof (FormatUint_no_byte n "-") as H1. pose proof (FormatUint_no_byte n "+") as H2.
  destruct (FormatUint n) as [|c r] eqn:E; [done|].
  cbn [str_contains_byte] in H1, H2.
  assert (bool_decide (c = "-"%char) = false) as E1
    by (specialize (H1 ltac:(left; done)); by apply orb_false_iff in H1 as [? _]).
  assert (bool_decide (c = "+"%char) = false) as E2
    by (specialize (H2 ltac:(left; done)); by apply orb_false_iff in H2 as [? _]).
  apply bool_decide_eq_false in E1, E2. rewrite !decide_False by done. rewrite Hp.
  by rewrite decide_False by lia.
Qed.

Definition es_prefix (cluster : string) : string := "/" +:+ cluster +:+ "/" +:+ eventStreamWatchName +:+ "/".

Section stream.
Context {U : Type} (MessageName : Message U → string).
Implicit Types (x : eventStream).

Definition path_of (cluster e : string) (k : Z) : string :=
  "/" +:+ cluster +:+ "/" +:+ eventStreamWatchName +:+ "/" +:+ e +:+ "/" +:+ FormatUint k.

Lemma getEventNamePath_eq cluster e x :
  seg cluster → seg e → 0 ≤ nodeId x < 2 ^ 63 → eventStreamPrefix x = es_prefix cluster →
  getEventNamePath e x = path_of cluster e (nodeId x).
Proof.
  intros Hc He Hk Hp. unfold getEventNamePath. rewrite Hp. unfold es_prefix, path_of.
  rewrite i64_id by word_lia. unfold Itoa. rewrite decide_False by lia.
  rewrite !str_app_assoc.
  change ("/" +:+ cluster +:+ ?t) with (String "/" (cluster +:+ t)).
  rewrite collapse_sep by done. do 2 f_equal.
  change ("/" +:+ eventStreamWatchName +:+ ?t) with (String "/" (eventStreamWatchName +:+ t)).
  rewrite collapse_sep by done. do 2 f_equal.
  change ("/" +:+ "/" +:+ e +:+ ?t) with (String "/" (String "/" (e +:+ t))).
  rewrite collapse_seps by done. do 2 f_equal.
  assert (seg (FormatUint (nodeId x))) as Hs by (apply FormatUint_seg; unfold in_u64; lia).
  change ("/" +:+ FormatUint (nodeId x)) with (String "/" (FormatUint (nodeId x))).
  rewrite <-(str_app_nil (FormatUint (nodeId x))), collapse_sep by done.
  done.
Qed.

Lemma split_path cluster e k : seg cluster → seg e →
  SplitN 4 (TrimPrefix (path_of cluster e k) "/") "/"
  = [cluster; eventStreamWatchName; e; FormatUint k].
Proof.
  intros [_ Hc] [_ He]. unfold path_of, TrimPrefix.
  replace (has_prefix "/" _) with true by done.
  change (str_drop _ ("/" +:+ ?t)) with t.
  change (cluster +:+ "/" +:+ ?t) with (cluster +:+ String "/" t). rewrite SplitN_seg by done.
  change (eventStreamWatchName +:+ "/" +:+ ?t) with (eventStreamWatchName +:+ String "/" t).
  rewrite SplitN_seg by done.
  change (e +:+ "/" +:+ ?t) with (e +:+ String "/" t). by rewrite SplitN_seg.
Qed.

(** The id a view holds for node [k] under event [e]. *)
Definition vid x (e : string) (k : Z) : option string :=
  eventStreamMaps x !! e ≫= λ inner, GetId <$> inner !! k.

Definition upd (f : string → Z → option string) (w : string * Z * option string) :=
  λ e k, if decide (e = w.1.1 ∧ k = w.1.2) then w.2 else f e k.

Lemma vid_map_set e k r x e' k' :
  vid (map_set e k r x) e' k' = upd (vid x) (e, k, Some (GetId r)) e' k'.
Proof.
  unfold vid, upd, map_set, RWMap.GetOrCreate, RWMap.Set_, RWMap.NewRWMap. cbn [fst snd].
  destruct (eventStreamMaps x !! e) as [inner|] eqn:E; cbn [set_maps eventStreamMaps].
  all: destruct (decide (e' = e)) as [->|He].
  all: try (rewrite !lookup_insert_eq || rewrite !lookup_insert_ne by done).
  all: try (rewrite decide_False by naive_solver); try rewrite E; try done.
  all: destruct (decide (k' = k)) as [->|Hk]; cbn.
  all: rewrite ?lookup_insert_eq, ?lookup_insert_ne by done.
  all: rewrite ?decide_True, ?decide_False by naive_solver; done.
Qed.

Lemma vid_map_delete e k x e' k' :
  vid (map_delete e k x) e' k' = upd (vid x) (e, k, None) e' k'.
Proof.
  unfold vid, upd, map_delete, RWMap.Get, RWMap.Delete. cbn [fst snd].
  destruct (eventStreamMaps x !! e) as [inner|] eqn:E; cbn [set_maps eventStreamMaps].
  - destruct (decide (e' = e)) as [->|He].
    + rewrite lookup_insert_eq, E. cbn. destruct (decide (k' = k)) as [->|Hk].
      * by rewrite lookup_delete_eq, decide_True.
      * by rewrite lookup_delete_ne, decide_False by naive_solver.
    + by rewrite lookup_insert_ne, decide_False by naive_solver.
  - case_decide as Hd; [|done]. destruct Hd as [-> ->]. by rewrite E.
Qed.

(** A watch event with the path and value [registerEventStream] writes is read
    back as the same event, node and actor. *)
Lemma watch_put cluster e k id p x :
  seg cluster → seg e → 0 ≤ k < 2 ^ 63 →
  GetKind (newActorRefFromAID id (esSystem x) p) ≠ "" →
  GetName (newActorRefFromAID id (esSystem x) p) ≠ "" →
  parseWatchEventStream watchPut (path_of cluster e k) id p x
  = (None, map_set e k (newActorRefFromAID id (esSystem x) p) x).
Proof.
  intros Hc He Hk H1 H2. unfold parseWatchEventStream. rewrite split_path by done.
  replace (FormatUint k) with (Itoa k) by (unfold Itoa; by rewrite decide_False by lia).
  rewrite Atoi_Itoa by done. cbv zeta. rewrite decide_False by naive_solver.
  by rewrite u64_id by (unfold in_u64; lia).
Qed.

Lemma watch_delete cluster e k v p x :
  seg cluster → seg e → 0 ≤ k < 2 ^ 63 →
  parseWatchEventStream watchDelete (path_of cluster e k) v p x = (None, map_delete e k x).
Proof.
  intros Hc He Hk. unfold parseWatchEventStream. rewrite split_path by done.
  replace (FormatUint k) with (Itoa k) by (unfold Itoa; by rewrite decide_False by lia).
  rewrite Atoi_Itoa by done. by rewrite u64_id by (unfold in_u64; lia).
Qed.

(** ** One node: the subscriber table *)

Definition es_run (ms : list (Message U * bool * nat)) x : eventStream :=
  foldl (λ x '(m, ok, p), (Receive MessageName m ok p x).2) x ms.

(** The (event, actor) pairs a history of messages subscribes. *)
Definition spec_step (s : gset (string * string)) (m : Message U) : gset (string * string) :=
  match m with
  | MSubscribe a e => {[(e, a)]} ∪ s
  | MUnsubscribe a e => s ∖ {[(e, a)]}
  | _ => s
  end.

Definition subscribed x (e a : string) : Prop :=
  ∃ inner, sub x !! e = Some inner ∧ is_Some (inner !! a).

Record sub_ok x (s : gset (string * string)) : Prop := {
  so_pairs : ∀ e a, subscribed x e a ↔ (e, a) ∈ s;
  so_ids : ∀ e inner a r, sub x !! e = Some inner → inner !! a = Some r → GetId r = a;
  so_nonempty : ∀ e inner, sub x !! e = Some inner → inner ≠ ∅
}.

Lemma sub_map_set e k r x : sub (map_set e k r x) = sub x.
Proof. unfold map_set. by destruct (RWMap.GetOrCreate _ _ _). Qed.
Lemma sub_map_delete e k x : sub (map_delete e k x) = sub x.
Proof. unfold map_delete. by destruct (RWMap.Get _ _). Qed.
Lemma sub_register e ok x : sub (registerEventStream (U := U) e ok x).2 = sub x.
Proof. unfold registerEventStream. destruct ok; [apply sub_map_set|done]. Qed.
Lemma sub_unregister e ok x : sub (unregisterEventStream (U := U) e ok x).2 = sub x.
Proof. unfold unregisterEventStream. destruct ok; [apply sub_map_delete|done]. Qed.

(** The table after each of the two operations that change it. *)
Lemma sub_subscribe a e ok p x :
  sub (subscribe (U := U) a e ok p x).2
  = <[e := <[a := newActorRefFromAID a (esSystem x) p]> (default ∅ (sub x !! e))]> (sub x).
Proof.
  assert (∀ e' ok' x', esSystem (registerEventStream (U := U) e' ok' x').2 = esSystem x') as Hsys.
  { intros e' ok' x'. unfold registerEventStream, map_set. destruct ok'; [|done].
    by destruct (RWMap.GetOrCreate _ _ _). }
  unfold subscribe. destruct (sub x !! e) as [inner|] eqn:E; [cbn; by rewrite E|].
  pose proof (sub_register e ok (set_sub (<[e := ∅]> (sub x)) x)) as H.
  pose proof (Hsys e ok (set_sub (<[e := ∅]> (sub x)) x)) as H'.
  destruct (registerEventStream e ok _) as [effs x1]. cbn in *. rewrite H, H'.
  by rewrite lookup_insert_eq, insert_insert_eq.
Qed.

Lemma sub_unsubscribe a e ok x :
  sub (unsubscribe (U := U) a e ok x).2
  = match sub x !! e with
    | None => sub x
    | Some inner => if decide (delete a inner = ∅ ∧ is_Some (inner !! a)) then delete e (sub x)
                    else <[e := delete a inner]> (sub x)
    end.
Proof.
  unfold unsubscribe. destruct (sub x !! e) as [inner|] eqn:E; [|done].
  destruct (inner !! a) as [r|] eqn:Er.
  - cbv zeta. case_decide as Hs; case_decide as Hd.
    + rewrite sub_unregister. cbn. by rewrite delete_insert_eq.
    + destruct Hd. apply map_size_empty_iff in Hs. done.
    + destruct Hs. destruct Hd as [-> _]. apply map_size_empty.
    + done.
  - rewrite decide_False by (intros [_ [? ?]]; congruence). cbn.
    rewrite delete_id by done. by rewrite insert_id.
Qed.

Lemma sub_ok_subscribe x s actorId eventName ok p : sub_ok x s →
  sub_ok (subscribe (U := U) actorId eventName ok p x).2 ({[(eventName, actorId)]} ∪ s).
Proof.
  intros [Hp Hi Hn].
  split; unfold subscribed; rewrite sub_subscribe.
  + intros e' a'. rewrite elem_of_union, elem_of_singleton, <-Hp. unfold subscribed.
    destruct (decide (e' = eventName)) as [->|He].
    * rewrite lookup_insert_eq. destruct (decide (a' = actorId)) as [->|Ha].
      { split; [by left|]. intros _. eexists. split; [done|]. by rewrite lookup_insert_eq. }
      split.
      -- intros (inner & [= <-] & H). rewrite lookup_insert_ne in H by done. right.
         destruct (sub x !! eventName); [by eexists|]. by destruct H.
      -- intros [?|(inner & E & H)]; [congruence|]. eexists. split; [done|].
         by rewrite E, lookup_insert_ne.
    * rewrite lookup_insert_ne by done. naive_solver.
  + intros e' inner a' r E Er. destruct (decide (e' = eventName)) as [->|He].
    * rewrite lookup_insert_eq in E. injection E as <-.
      destruct (decide (a' = actorId)) as [->|Ha].
      { rewrite lookup_insert_eq in Er. by injection Er as <-. }
      rewrite lookup_insert_ne in Er by done.
      destruct (sub x !! eventName) eqn:E'; [by eapply Hi|done].
    * rewrite lookup_insert_ne in E by done. by eapply Hi.
  + intros e' inner E. destruct (decide (e' = eventName)) as [->|He].
    * rewrite lookup_insert_eq in E. injection E as <-. apply insert_non_empty.
    * rewrite lookup_insert_ne in E by done. by eapply Hn.
Qed.

(** What an entry left by [unsubscribe] was before it. *)
Lemma unsubscribe_entry x actorId eventName ok e' inner' : (∀ e inner, sub x !! e = Some inner → inner ≠ ∅) →
  sub (unsubscribe (U := U) actorId eventName ok x).2 !! e' = Some inner' →
  ∃ inner, sub x !! e' = Some inner ∧ inner' ≠ ∅ ∧
    inner' = if decide (e' = eventName) then delete actorId inner else inner.
Proof.
  intros Hn. rewrite sub_unsubscribe. destruct (sub x !! eventName) as [inner|] eqn:E.
  - case_decide as Hd; destruct (decide (e' = eventName)) as [->|He].
    + by rewrite lookup_delete_eq.
    + rewrite lookup_delete_ne by done. naive_solver.
    + rewrite lookup_insert_eq. intros [= <-]. eexists. split_and!; [done| |done].
      intros H0. destruct (inner !! actorId) eqn:Ea; [naive_solver|].
      rewrite delete_id in H0 by done. by eapply Hn.
    + rewrite lookup_insert_ne by done. naive_solver.
  - intros E'. case_decide; [congruence|]. naive_solver.
Qed.

Lemma sub_ok_unsubscribe x s actorId eventName ok : sub_ok x s →
  sub_ok (unsubscribe (U := U) actorId eventName ok x).2 (s ∖ {[(eventName, actorId)]}).
Proof.
  intros [Hp Hi Hn]. pose proof (λ e' inner', unsubscribe_entry x actorId eventName ok e' inner' Hn) as Hsub.
  split.
  + intros e' a'. rewrite elem_of_difference, elem_of_singleton, <-Hp. split.
    * intros (inner' & E & Ha). destruct (Hsub _ _ E) as (inner & E1 & _ & ->).
      case_decide as Hd.
      -- subst. destruct (decide (a' = actorId)) as [->|Hne].
         { rewrite lookup_delete_eq in Ha. by destruct Ha. }
         rewrite lookup_delete_ne in Ha by done. split; [by eexists|congruence].
      -- split; [by eexists|congruence].
    * intros [(inner & E & Ha) Hne]. unfold subscribed. rewrite sub_unsubscribe.
      destruct (decide (e' = eventName)) as [->|He].
      -- rewrite E. assert (a' ≠ actorId) by congruence.
         assert (is_Some (delete actorId inner !! a')) as Ha' by by rewrite lookup_delete_ne.
         rewrite decide_False; [eexists; by rewrite lookup_insert_eq|].
         intros [H0 _]. rewrite H0 in Ha'. by destruct Ha'.
      -- exists inner. split; [|done]. destruct (sub x !! eventName); [|done].
         case_decide; [by rewrite lookup_delete_ne|by rewrite lookup_insert_ne].
  + intros e' inner' a' r E Er. destruct (Hsub _ _ E) as (inner & E1 & _ & ->).
    case_decide; [apply lookup_delete_Some in Er as [_ Er]|]; by eapply Hi.
  + intros e' inner' E. by destruct (Hsub _ _ E) as (_ & _ & ? & _).
Qed.

Lemma sub_ok_step x s m ok p :
  sub_ok x s → sub_ok (Receive MessageName m ok p x).2 (spec_step s m).
Proof.
  intros H. destruct m; cbn [Receive spec_step snd]; try done; [by apply sub_ok_subscribe|by apply sub_ok_unsubscribe].
Qed.

Lemma sub_ok_run ms x s : sub_ok x s →
  sub_ok (es_run ms x) (foldl (λ s m, spec_step s m.1.1) s ms).
Proof.
  revert x s. induction ms as [|[[m ok] p] ms IH]; intros x s H; [done|].
  cbn. by apply IH, sub_ok_step.
Qed.

Lemma sub_ok_new self sys k prefix : sub_ok (newEventStream self sys k prefix) ∅.
Proof. split; [|done..]. intros e a. split; [intros (? & ? & ?); done|set_solver]. Qed.

(** The ids a publish tells. *)
Definition told (effs : list (es_effect U)) : list (string * Message U) :=
  effs ≫= λ eff, match eff with ETell to m => [(GetId to, m)] | _ => [] end.

Lemma told_map (refs : list ActorRef) m :
  told (map (λ ref, ETell ref m) refs) = (λ ref, (GetId ref, m)) <$> refs.
Proof. unfold told. induction refs as [|r refs IH]; cbn; [done|]. by rewrite IH. Qed.

Lemma onPublish_told x s m : sub_ok x s →
  told (onPublish MessageName m x)
  = (λ a, (a, m)) <$> (map_to_list (default ∅ (sub x !! MessageName m))).*1.
Proof.
  intros [_ Hi _]. unfold onPublish. rewrite told_map, <-!list_fmap_compose.
  apply Forall_fmap_ext_1, Forall_forall. intros [a r] Hin. cbn.
  apply elem_of_map_to_list in Hin.
  destruct (sub x !! MessageName m) eqn:E; [|done]. by rewrite (Hi _ _ _ _ E Hin).
Qed.

(** [C34] Whatever Subscribe, Unsubscribe and publish messages an event stream
    handled, and whichever etcd calls failed on the way, a local publish of a
    message tells that message, once each, to exactly the actors whose last
    subscription change for the message's event was a Subscribe, and does
    nothing else; the stream keeps no empty entry, so the etcd registration is
    attempted exactly when an event gains its first subscriber. *)
Theorem local_publish_exact (self : ActorRef) (sys : nat) (k : Z) (prefix : string)
    (ms : list (Message U * bool * nat)) (u : U) (ok : bool) (p : nat) :
  let x := es_run ms (newEventStream self sys k prefix) in
  let s := foldl (λ s m, spec_step s m.1.1) ∅ ms in
  ∃ ids, NoDup ids ∧ (∀ a, a ∈ ids ↔ (MessageName (MUser u), a) ∈ s) ∧
    told (Receive MessageName (MUser u) ok p x).1 = (λ a, (a, MUser u)) <$> ids ∧
    (Receive MessageName (MUser u) ok p x).2 = x ∧
    (∀ e, is_Some (sub x !! e) ↔ ∃ a, (e, a) ∈ s) ∧
    (∀ a e, (∃ path v, ERegister path v ∈ (Receive MessageName (MSubscribe a e) ok p x).1) ↔
       ∀ b, (e, b) ∉ s).
Proof.
  intros x s. assert (sub_ok x s) as Hok by apply sub_ok_run, sub_ok_new.
  pose proof Hok as [Hp _ Hn].
  assert (∀ e, is_Some (sub x !! e) ↔ ∃ a, (e, a) ∈ s) as Hkeys.
  { intros e. split.
    - intros [inner E]. destruct (map_choose inner (Hn _ _ E)) as (a & r & Ha).
      exists a. apply Hp. exists inner. by rewrite Ha.
    - intros [a Ha]. apply Hp in Ha as (inner & E & _). by rewrite E. }
  exists (map_to_list (default ∅ (sub x !! MessageName (MUser u)))).*1. split_and!.
  - apply NoDup_fst_map_to_list.
  - intros a. rewrite <-Hp, list_elem_of_fmap. split.
    + intros ([a' r] & -> & Hin). apply elem_of_map_to_list in Hin. unfold subscribed.
      destruct (sub x !! MessageName (MUser u)) as [inner|]; [|done]. exists inner. cbn in *. by rewrite Hin.
    + intros (inner & E & [r Hr]). exists (a, r). split; [done|].
      apply elem_of_map_to_list. by rewrite E.
  - by apply (onPublish_told x s).
  - done.
  - done.
  - intros a e. cbn [Receive]. unfold subscribe. specialize (Hkeys e).
    destruct (sub x !! e) as [inner|] eqn:E; cbn.
    + split; [intros (? & ? & H); by apply elem_of_nil in H|]. intros H.
      destruct Hkeys as [Hk _]. destruct Hk as [b Hb]; [done|]. by destruct (H b).
    + split; [|intros _; eexists _, _; by left]. intros _ b Hb.
      destruct Hkeys as [_ Hk]. destruct Hk as [? ?]; [by exists b|done].
Qed.

(** ** The cluster: handlers and watch deliveries in any interleaving

    Every node runs its event stream and has a queue of the etcd watch events it
    has not yet been delivered; a registration call that etcd applies is
    delivered to every node, its own included, in etcd's order. *)

Abbreviation wire := (watchOp * string * string)%type.

(** What becomes of an etcd call: done and answered, refused, or done although
    the caller sees an error. *)
Inductive etcd_answer : Type := Accepted | Refused | AnswerLost.
Definition accepted (r : etcd_answer) : bool := match r with Accepted => true | _ => false end.
Definition applied (r : etcd_answer) : bool := match r with Refused => false | _ => true end.

Record net : Type := Net {
  members : gmap Z (eventStream * list wire);
  keys : gmap string string
}.

Definition wires (effs : list (es_effect U)) : list wire :=
  effs ≫= λ eff, match eff with
                 | ERegister path v => [(watchPut, path, v)]
                 | EUnregister path => [(watchDelete, path, "")]
                 | ETell _ _ => []
                 end.

Definition etcd_write (ks : gmap string string) (w : wire) : gmap string string :=
  match w with
  | (watchPut, path, v) => <[path := v]> ks
  | (watchDelete, path, _) => delete path ks
  end.

(** Node [k] handles a message, the etcd call it may make on the way getting
    answer [r]; or it is delivered its next watch event. *)
Inductive net_act : Type :=
| NHandle (k : Z) (m : Message U) (r : etcd_answer) (p : nat)
| NWatch (k : Z) (p : nat).

Definition net_step (n : net) (a : net_act) : net :=
  match a with
  | NHandle k m r p =>
      match members n !! k with
      | None => n
      | Some (x, q) =>
          let '(effs, x) := Receive MessageName m (accepted r) p x in
          let ws := if applied r then wires effs else [] in
          Net ((λ '(y, q), (y, q ++ ws)) <$> <[k := (x, q)]> (members n)) (foldl etcd_write (keys n) ws)
      end
  | NWatch k p =>
      match members n !! k with
      | Some (x, (op, key, v) :: q) =>
          Net (<[k := ((parseWatchEventStream op key v p x).2, q)]> (members n)) (keys n)
      | _ => n
      end
  end.

(** The nodes as [init] (system_life.go) starts them: distinct node ids, one
    cluster, the event stream spawned as a direct system actor, no
    registration yet. *)
Definition net_init (cluster : string) (n : net) : Prop :=
  keys n = ∅ ∧
  ∀ k x q, members n !! k = Some (x, q) → 0 ≤ k < 2 ^ 63 ∧ q = [] ∧
    ∃ addr sys p, no_byte "/" addr ∧ no_byte "@" addr ∧
      x = newEventStream (newDirectActorRef defaultSystemKind eventStreamWatchName addr sys p)
            sys k (es_prefix cluster).

(** The message is about the subscribers of event [e]. *)
Definition concerns (m : Message U) (e : string) : Prop :=
  match m with MSubscribe _ e' | MUnsubscribe _ e' => e' = e | _ => False end.

(** Event names are protobuf names, which hold no '/'. *)
Definition act_ok (a : net_act) : Prop :=
  match a with
  | NHandle _ (MSubscribe _ e) _ _ | NHandle _ (MUnsubscribe _ e) _ _ => seg e
  | _ => True
  end.

(** etcd accepted every call of node [j] about event [e]. *)
Definition all_accepted (j : Z) (e : string) (acts : list net_act) : Prop :=
  ∀ m r p, NHandle j m r p ∈ acts → concerns m e → r = Accepted.

Section cluster.
Variable cluster : string.
Hypothesis Hcluster : seg cluster.

(** What a wire says: the event, the node, and the id it now has there. *)
Definition means (w : wire) (t : string * Z * option string) : Prop :=
  let '(e, k, o) := t in
  seg e ∧ 0 ≤ k < 2 ^ 63 ∧
  match o with
  | Some id => w = (watchPut, path_of cluster e k, id) ∧
      ∀ sys p, GetKind (newActorRefFromAID id sys p) ≠ "" ∧ GetName (newActorRefFromAID id sys p) ≠ ""
  | None => w = (watchDelete, path_of cluster e k, "")
  end.

Definition replay (f : string → Z → option string) (ts : list (string * Z * option string)) :=
  foldl upd f ts.

Lemma replay_local f g ts e k : f e k = g e k → replay f ts e k = replay g ts e k.
Proof.
  revert f g. induction ts as [|t ts IH]; intros f g H; [done|]. cbn. apply IH.
  unfold upd. by case_decide.
Qed.

(** An own write already in the view is replayed without effect. *)
Lemma replay_again f ts t e k : replay (upd f t) (ts ++ [t]) e k = upd (replay f ts) t e k.
Proof.
  unfold replay. rewrite foldl_app. cbn [foldl].
  change (upd (replay (upd f t) ts) t e k = upd (replay f ts) t e k). unfold upd at 1 3. case_decide as Hd; [done|].
  apply replay_local. unfold upd. by rewrite decide_False.
Qed.

Definition meta x := (esSelf x, esSystem x, nodeId x, eventStreamPrefix x).
Lemma meta_map_set e k r x : meta (map_set e k r x) = meta x.
Proof. unfold map_set. by destruct (RWMap.GetOrCreate _ _ _). Qed.
Lemma meta_map_delete e k x : meta (map_delete e k x) = meta x.
Proof. unfold map_delete. by destruct (RWMap.Get _ _). Qed.

(** What the registrations say node [x] offers for an event. *)
Definition offer x (e : string) : option string :=
  match sub x !! e with Some _ => Some (GetId (esSelf x)) | None => None end.

Record node_wf (k : Z) x : Prop := {
  nw_range : 0 ≤ k < 2 ^ 63;
  nw_id : nodeId x = k;
  nw_prefix : eventStreamPrefix x = es_prefix cluster;
  nw_self : ∃ addr sys p, no_byte "/" addr ∧ no_byte "@" addr ∧
    esSelf x = newDirectActorRef defaultSystemKind eventStreamWatchName addr sys p;
  nw_seg : ∀ e, is_Some (sub x !! e) → seg e;
  nw_nonempty : ∀ e inner, sub x !! e = Some inner → inner ≠ ∅
}.

Lemma self_means k x e : node_wf k x → seg e →
  means (watchPut, getEventNamePath e x, GetId (esSelf x)) (e, k, Some (GetId (esSelf x))).
Proof.
  intros [Hr <- Hp (addr & sys & p & Ha1 & Ha2 & Hs) _ _] He.
  rewrite (getEventNamePath_eq cluster) by done.
  split; [done|]. split; [done|]. split; [done|]. intros sys' p'. rewrite Hs.
  unfold newActorRefFromAID, newDirectActorRef, GetKind, GetName; cbn [GetId fullPath parsed].
  by rewrite parse_direct.
Qed.

Lemma delete_means k x e : node_wf k x → seg e →
  means (watchDelete, getEventNamePath e x, "") (e, k, None).
Proof.
  intros [Hr <- Hp _ _ _] He. rewrite (getEventNamePath_eq cluster) by done.
  split; [done|]. by split.
Qed.

Lemma node_wf_meta k x x' : node_wf k x → meta x' = meta x →
  (∀ e, is_Some (sub x' !! e) → seg e) → (∀ e inner, sub x' !! e = Some inner → inner ≠ ∅) →
  node_wf k x'.
Proof. intros [? ? ? ? _ _] [= E1 E2 E3 E4] ? ?. split; try congruence; rewrite ?E1; done. Qed.

(** What handling one message changes, on the node and on the wire. *)
Definition handled k x (m : Message U) (ok : bool) (effs : list (es_effect U)) x' : Prop :=
  node_wf k x' ∧ meta x' = meta x ∧
  ((wires effs = [] ∧ (∀ e k', vid x' e k' = vid x e k') ∧ (∀ e, offer x' e = offer x e)) ∨
   (∃ e o, let t := (e, k, o) in concerns m e ∧ Forall2 means (wires effs) [t] ∧
     (∀ e' k', vid x' e' k' = if ok then upd (vid x) t e' k' else vid x e' k') ∧
     (o = None ∨ o = Some (GetId (esSelf x))) ∧
     (∀ e', offer x' e' = upd (λ e' _, offer x e') t e' k))).

Lemma handled_subscribe k x a e ok p : node_wf k x → seg e →
  let r := subscribe (U := U) a e ok p x in handled k x (MSubscribe a e) ok r.1 r.2.
Proof.
  intros W He r. pose proof (sub_subscribe a e ok p x) as Hsub. fold r in Hsub.
  assert (meta r.2 = meta x) as Hm.
  { unfold r, subscribe. destruct (sub x !! e); [done|]. unfold registerEventStream. destruct ok; [|done]. cbn.
    transitivity (meta (map_set e (nodeId x) (esSelf x) (set_sub (<[e:=∅]> (sub x)) x))); [done|].
    by rewrite meta_map_set. }
  assert (esSelf r.2 = esSelf x) as Hself by by injection Hm.
  split_and!; [|done|].
  { apply (node_wf_meta k x); [done..| |]; rewrite Hsub.
    - intros e' [inner H]. apply lookup_insert_Some in H as [[<- _]|[_ H]]; [done|].
      eapply nw_seg; [done|]. by rewrite H.
    - intros e' inner H. apply lookup_insert_Some in H as [[<- <-]|[_ H]];
        [apply insert_non_empty|by eapply nw_nonempty]. }
  unfold offer. rewrite Hsub, Hself. unfold r, subscribe.
  destruct (sub x !! e) as [inner|] eqn:E; [left|right].
  - split_and!; [done..|]. intros e'. destruct (decide (e' = e)) as [->|Hne].
    + by rewrite lookup_insert_eq, E.
    + by rewrite lookup_insert_ne.
  - exists e, (Some (GetId (esSelf x))). split; [done|]. split_and!; [| |by right|].
    + constructor; [|constructor]. by apply (self_means k x e).
    + intros e' k'. rewrite <-(nw_id _ _ W). destruct ok; [|done].
      apply (vid_map_set e (nodeId x) (esSelf x) (set_sub (<[e:=∅]> (sub x)) x)).
    + intros e'. unfold upd. cbn. destruct (decide (e' = e)) as [->|Hne].
      * by rewrite lookup_insert_eq, decide_True.
      * by rewrite lookup_insert_ne, decide_False by naive_solver.
Qed.

Lemma handled_unsubscribe k x a e ok : node_wf k x → seg e →
  let r := unsubscribe (U := U) a e ok x in handled k x (MUnsubscribe a e) ok r.1 r.2.
Proof.
  intros W He r. pose proof (sub_unsubscribe a e ok x) as Hsub. fold r in Hsub.
  assert (meta r.2 = meta x) as Hm.
  { clear Hsub. unfold r, unsubscribe. destruct (sub x !! e) as [inner|]; [|done].
    destruct (inner !! a); [|done]. cbv zeta. case_decide; [|done]. destruct ok; [|done]. cbn.
    by rewrite meta_map_delete. }
  assert (esSelf r.2 = esSelf x) as Hself by by injection Hm.
  split_and!; [|done|].
  { apply (node_wf_meta k x); [done..| |]; rewrite Hsub;
      (destruct (sub x !! e) as [inner0|] eqn:E; [case_decide as Hd|]); try apply W.
    - intros e' [i H]. apply lookup_delete_Some in H as [_ H]. apply W. by rewrite H.
    - intros e' [i H]. apply lookup_insert_Some in H as [[<- _]|[_ H]]; [done|].
      apply W. by rewrite H.
    - intros e' i H. apply lookup_delete_Some in H as [_ H]. by eapply nw_nonempty.
    - intros e' i H. apply lookup_insert_Some in H as [[<- <-]|[_ H]];
        [|by eapply nw_nonempty]. intros H0. apply Hd. split; [done|].
      destruct (inner0 !! a) eqn:Ea; [done|]. rewrite delete_id in H0 by done.
      by destruct (nw_nonempty _ _ W _ _ E). }
  unfold offer. rewrite Hsub, Hself. unfold r, unsubscribe.
  destruct (sub x !! e) as [inner|] eqn:E; [|by left; split_and!].
  destruct (inner !! a) as [r0|] eqn:Ea.
  2:{ left. rewrite decide_False by (intros [_ [? ?]]; congruence). split_and!; [done..|].
      intros e'. destruct (decide (e' = e)) as [->|Hne];
        [by rewrite lookup_insert_eq, E|by rewrite lookup_insert_ne]. }
  cbv zeta. case_decide as Hd; [right|left]; (case_decide as Hs; [|]).
  - exists e, None. split; [done|]. split_and!; [| |by left|].
    + constructor; [|constructor]. by apply (delete_means k x e).
    + intros e' k'. destruct ok; [|done]. cbn. by rewrite vid_map_delete, (nw_id _ _ W).
    + intros e'. unfold upd. cbn. destruct (decide (e' = e)) as [->|Hne].
      * by rewrite lookup_delete_eq, decide_True.
      * by rewrite lookup_delete_ne, decide_False by naive_solver.
  - destruct Hs. destruct Hd as [-> _]. apply map_size_empty.
  - destruct Hd. split; [by apply map_size_empty_iff in Hs|done].
  - split_and!; [done..|]. intros e'. destruct (decide (e' = e)) as [->|Hne];
      [by rewrite lookup_insert_eq, E|by rewrite lookup_insert_ne].
Qed.

Lemma wires_tells (refs : list ActorRef) (m : Message U) : wires (map (λ ref, ETell ref m) refs) = [].
Proof. induction refs as [|r refs IH]; [done|]. by cbn. Qed.

Lemma handled_receive k x m r p : node_wf k x → act_ok (NHandle k m r p) →
  let h := Receive MessageName m (accepted r) p x in handled k x m (accepted r) h.1 h.2.
Proof.
  intros W Hm. destruct m; cbn in Hm |- *;
    try (split_and!; [done..|]; left; split_and!; [apply wires_tells|done..]).
  - by apply handled_subscribe.
  - by apply handled_unsubscribe.
Qed.

(** [T] is what the registrations of the whole cluster say: it is in etcd, every
    node's view reaches it once its queue is empty, and for an event all of whose
    calls etcd accepted it is what the node's subscribers ask for. *)
Record net_ok (n : net) (T : string → Z → option string) (acts : list net_act) : Prop := {
  no_node : ∀ k x q, members n !! k = Some (x, q) →
    node_wf k x ∧ ∃ ts, Forall2 means q ts ∧ ∀ e j, replay (vid x) ts e j = T e j;
  no_keys : ∀ e j, seg e → 0 ≤ j < 2 ^ 63 → keys n !! path_of cluster e j = T e j;
  no_source : ∀ e j id, T e j = Some id →
    ∃ y q, members n !! j = Some (y, q) ∧ id = GetId (esSelf y);
  no_offer : ∀ j y q e, members n !! j = Some (y, q) → all_accepted j e acts → T e j = offer y e
}.

Lemma path_of_inj e j e' j' : seg e → seg e' → 0 ≤ j < 2 ^ 63 → 0 ≤ j' < 2 ^ 63 →
  path_of cluster e j = path_of cluster e' j' → e = e' ∧ j = j'.
Proof.
  intros He He' Hj Hj' Heq. pose proof (split_path cluster e j Hcluster He) as H.
  rewrite Heq, (split_path cluster e' j' Hcluster He') in H. injection H as Hee HF. split; [done|].
  assert (in_u64 j ∧ in_u64 j') as [H1 H2] by (unfold in_u64; lia).
  pose proof (ParseUint_FormatUint j H1) as P1. rewrite <-HF, (ParseUint_FormatUint j' H2) in P1. congruence.
Qed.

Lemma net_ok_init n : net_init cluster n → net_ok n (λ _ _, None) [].
Proof.
  intros [Hk Hn]. split; [|by rewrite Hk|done|].
  - intros k x q E. destruct (Hn _ _ _ E) as (Hr & -> & addr & sys & p & Ha1 & Ha2 & ->).
    split; [|by exists []; split; [constructor|]].
    split; try done; [by exists addr, sys, p|]. by intros e [? ?].
  - intros j y q e E _. by destruct (Hn _ _ _ E) as (_ & _ & ? & ? & ? & _ & _ & ->).
Qed.

(** Writing the wire that means [t] makes etcd say [upd T t]. *)
Lemma etcd_write_means w t (ks : gmap string string) T : means w t →
  (∀ e j, seg e → 0 ≤ j < 2 ^ 63 → ks !! path_of cluster e j = T e j) →
  ∀ e j, seg e → 0 ≤ j < 2 ^ 63 → etcd_write ks w !! path_of cluster e j = upd T t e j.
Proof.
  destruct t as [[e0 k0] o]. intros (He0 & Hk0 & Hw) HT e j He Hj. unfold upd. cbn [fst snd].
  case_decide as Hd.
  - destruct Hd as [-> ->]. destruct o as [id|]; [destruct Hw as [-> _]|rewrite Hw]; cbn [etcd_write].
    + by rewrite lookup_insert_eq.
    + by rewrite lookup_delete_eq.
  - assert (path_of cluster e0 k0 ≠ path_of cluster e j) as Hne.
    { intros Heq. apply Hd. by destruct (path_of_inj e0 k0 e j He0 He Hk0 Hj Heq). }
    destruct o as [id|]; [destruct Hw as [-> _]|rewrite Hw]; cbn [etcd_write].
    + rewrite lookup_insert_ne by done. by apply HT.
    + rewrite lookup_delete_ne by done. by apply HT.
Qed.

Lemma all_accepted_snoc j e acts a : all_accepted j e (acts ++ [a]) → all_accepted j e acts.
Proof. intros H m r p Hin. apply (H m r p). apply elem_of_app. by left. Qed.

Lemma esSelf_meta x x' : meta x' = meta x → esSelf x' = esSelf x.
Proof. by intros [= ->]. Qed.

(** The members after [k] handled a message: [k] itself has moved on, and
    every queue has grown by what was written. *)
Lemma members_handle (ns : gmap Z (eventStream * list wire)) k x x' q ws j y qy :
  ns !! k = Some (x, q) → ((λ '(y, q), (y, q ++ ws)) <$> <[k := (x', q)]> ns) !! j = Some (y, qy) →
  ∃ y0 q0, ns !! j = Some (y0, q0) ∧ qy = q0 ++ ws ∧ ((j = k ∧ y0 = x ∧ y = x') ∨ (j ≠ k ∧ y0 = y)).
Proof.
  intros E Hj. rewrite lookup_fmap in Hj.
  destruct (<[k:=(x', q)]> ns !! j) as [[y1 q1]|] eqn:Ej; cbn in Hj; [|done]. injection Hj as -> <-.
  apply lookup_insert_Some in Ej as [[<- [= <- <-]]|[Hne Ej]]; [exists x, q|exists y, q1]; naive_solver.
Qed.

Lemma members_source (ns : gmap Z (eventStream * list wire)) k x x' q ws j y0 q0 :
  ns !! k = Some (x, q) → esSelf x' = esSelf x → ns !! j = Some (y0, q0) →
  ∃ y qy, ((λ '(y, q), (y, q ++ ws)) <$> <[k := (x', q)]> ns) !! j = Some (y, qy) ∧ esSelf y = esSelf y0.
Proof.
  intros E Hs Hj. rewrite lookup_fmap. destruct (decide (j = k)) as [->|Hne].
  - rewrite lookup_insert_eq. cbn. eexists _, _. split; [done|]. rewrite E in Hj. by injection Hj as <- _.
  - rewrite lookup_insert_ne, Hj by done. cbn. by eexists _, _.
Qed.

Lemma net_ok_handle n T acts k m r p : net_ok n T acts → act_ok (NHandle k m r p) →
  ∃ T', net_ok (net_step n (NHandle k m r p)) T' (acts ++ [NHandle k m r p]).
Proof.
  intros Hn Hm. cbn [net_step].
  destruct (members n !! k) as [[x q]|] eqn:E.
  2: { exists T. destruct Hn as [H1 H2 H3 H4]. split; try done. intros j y q e Hj Ha.
    apply (H4 j y q e Hj). by eapply all_accepted_snoc. }
  destruct (no_node _ _ _ Hn _ _ _ E) as (W & _).
  destruct (handled_receive k x m r p W Hm) as (W' & Hmeta & Hw).
  destruct (Receive MessageName m (accepted r) p x) as [effs x']. cbn [fst snd] in *. cbv zeta.
  apply esSelf_meta in Hmeta as Hself.
  set (ws := if applied r then wires effs else []).
  (* nothing written: the views and the offers of the accepted events stand *)
  assert (ws = [] → (∀ e j, vid x' e j = vid x e j) →
    (∀ e, all_accepted k e (acts ++ [NHandle k m r p]) → offer x' e = offer x e) →
    ∃ T', net_ok (Net ((λ '(y, q), (y, q ++ ws)) <$> <[k:=(x', q)]> (members n)) (foldl etcd_write (keys n) ws)) T'
            (acts ++ [NHandle k m r p])) as Hquiet.
  { intros -> Hv Ho. exists T. split; cbn [members keys foldl].
    - intros j y qy Hj. destruct (members_handle _ _ _ _ _ _ _ _ _ E Hj) as (y0 & q0 & Ej & -> & Hc).
      destruct (no_node _ _ _ Hn _ _ _ Ej) as (Wy & ts & Hq & Hts). rewrite app_nil_r.
      destruct Hc as [(-> & -> & ->)|[_ ->]]; (split; [done|]); exists ts; (split; [done|]); [|done].
      intros e j. rewrite <-Hts. by apply replay_local.
    - apply Hn.
    - intros e j id Hid. destruct (no_source _ _ _ Hn e j id Hid) as (y0 & q0 & Ej & ->).
      destruct (members_source _ _ _ x' _ [] _ _ _ E Hself Ej) as (y & qy & Ey & Hs). exists y, qy. by rewrite Hs.
    - intros j y qy e Hj Ha. destruct (members_handle _ _ _ _ _ _ _ _ _ E Hj) as (y0 & q0 & Ej & -> & Hc).
      rewrite (no_offer _ _ _ Hn j y0 q0 e Ej (all_accepted_snoc _ _ _ _ Ha)).
      destruct Hc as [(-> & -> & ->)|[_ ->]]; [by rewrite Ho|done]. }
  destruct Hw as [(Hw & Hv & Ho)|(e & o & Hc & Hf & Hv & Hid & Ho)].
  { apply Hquiet; [unfold ws; by destruct (applied r)|done|by intros e' _]. }
  destruct (applied r) eqn:Er.
  2: { apply Hquiet; [done| |]; destruct r; try done. intros e' Ha. rewrite Ho. unfold upd. cbn [fst snd].
    case_decide as Hd; [|done]. destruct Hd as [-> _]. assert (Refused = Accepted) as ?; [|done].
    apply (Ha m Refused p); [|done]. apply elem_of_app. right. by left. }
  subst ws. apply Forall2_cons_inv_r in Hf as (w & ws & Hmw & Hws & ->). apply Forall2_nil_inv_r in Hws as ->.
  exists (upd T (e, k, o)). split; cbn [members keys foldl].
  - intros j y qy Hj. destruct (members_handle _ _ _ _ _ _ _ _ _ E Hj) as (y0 & q0 & Ej & -> & Hcase).
    destruct (no_node _ _ _ Hn _ _ _ Ej) as (Wy & ts & Hq & Hts).
    split; [by destruct Hcase as [(-> & -> & ->)|[_ ->]]|]. exists (ts ++ [(e, k, o)]).
    split; [apply Forall2_app; [done|by constructor]|]. intros e' j'.
    transitivity (upd (replay (vid y0) ts) (e, k, o) e' j').
    + destruct Hcase as [(-> & -> & ->)|[_ ->]].
      * destruct (accepted r); [rewrite <-replay_again|unfold replay; rewrite <-(foldl_snoc upd)]; by apply replay_local.
      * unfold replay. by rewrite foldl_app.
    + unfold upd. by case_decide.
  - intros e' j' He' Hj'. apply (etcd_write_means w (e, k, o) (keys n) T); [done|apply Hn|done..].
  - intros e' j id. unfold upd. cbn [fst snd]. intros Hid'. case_decide as Hd.
    + destruct Hd as [-> ->]. destruct Hid as [-> | ->]; [done|]. injection Hid' as <-.
      destruct (members_source _ _ _ x' _ [w] _ _ _ E Hself E) as (y & qy & Ey & Hs). exists y, qy. by rewrite Hs.
    + destruct (no_source _ _ _ Hn e' j id Hid') as (y0 & q0 & Ej & ->).
      destruct (members_source _ _ _ x' _ [w] _ _ _ E Hself Ej) as (y & qy & Ey & Hs). exists y, qy. by rewrite Hs.
  - intros j y qy e' Hj Ha. destruct (members_handle _ _ _ _ _ _ _ _ _ E Hj) as (y0 & q0 & Ej & -> & Hcase).
    pose proof (no_offer _ _ _ Hn j y0 q0 e' Ej (all_accepted_snoc _ _ _ _ Ha)) as HT.
    unfold upd. cbn [fst snd]. destruct Hcase as [(-> & -> & ->)|[Hne ->]].
    + rewrite Ho. unfold upd. cbn [fst snd]. by repeat case_decide.
    + by rewrite decide_False by naive_solver.
Qed.

Lemma net_ok_watch n T acts k p : net_ok n T acts → net_ok (net_step n (NWatch k p)) T (acts ++ [NWatch k p]).
Proof.
  intros Hn. cbn [net_step].
  assert (net_ok n T (acts ++ [NWatch k p])) as Hn'.
  { destruct Hn as [H1 H2 H3 H4]. split; try done. intros j y q e Hj Ha.
    apply (H4 j y q e Hj). by eapply all_accepted_snoc. }
  destruct (members n !! k) as [[x [|[[op key] v] q]]|] eqn:E; [done| |done].
  destruct (no_node _ _ _ Hn _ _ _ E) as (W & ts & Hq & Hts).
  inversion Hq as [|w t q' ts' Ht Hq' E1 E2]; subst.
  set (x1 := (parseWatchEventStream op key v p x).2).
  assert (meta x1 = meta x ∧ sub x1 = sub x ∧ ∀ e k', vid x1 e k' = upd (vid x) t e k')
    as (Hm & Hs & Hv).
  { unfold x1. destruct t as [[e k1] [id|]]; destruct Ht as (He & Hk1 & Ht).
    - destruct Ht as [[= -> -> ->] Hid]. rewrite watch_put by (done || apply Hid). cbn [snd].
      split_and!; [apply meta_map_set|apply sub_map_set|]. intros. apply vid_map_set.
    - injection Ht as -> -> ->. rewrite watch_delete by done. cbn [snd].
      split_and!; [apply meta_map_delete|apply sub_map_delete|]. intros. apply vid_map_delete. }
  clearbody x1. destruct Hn' as [H1 H2 H3 H4]. split; cbn [members keys]; [|done|..].
  - intros j y qy Hj. apply lookup_insert_Some in Hj as [[<- [= <- <-]]|[Hne Hj]]; [|by apply (H1 j)].
    split; [apply (node_wf_meta k x); [done..| |]; rewrite Hs; apply W|].
    exists ts'. split; [done|]. intros e k'. rewrite <-Hts. cbn. by apply replay_local.
  - intros e j id Hid. destruct (H3 e j id Hid) as (y & qy & Ey & ->).
    destruct (decide (j = k)) as [->|Hne].
    + rewrite lookup_insert_eq. eexists _, _. split; [done|]. rewrite E in Ey. injection Ey as <- _.
      by rewrite (esSelf_meta x x1).
    + rewrite lookup_insert_ne by done. by exists y, qy.
  - intros j y qy e Hj Ha. apply lookup_insert_Some in Hj as [[<- [= <- <-]]|[Hne Hj]]; [|by apply (H4 j y qy)].
    rewrite (H4 k x _ e E Ha). unfold offer. by rewrite Hs, (esSelf_meta x x1).
Qed.

Lemma net_ok_run n acts : net_init cluster n → Forall act_ok acts → ∃ T, net_ok (foldl net_step n acts) T acts.
Proof.
  intros Hn. induction acts as [|a acts IH] using rev_ind; intros Ha.
  { exists (λ _ _, None). by apply net_ok_init. }
  apply Forall_app in Ha as [Ha Ha1]. rewrite Forall_singleton in Ha1. destruct (IH Ha) as [T HT].
  rewrite foldl_app. cbn [foldl]. destruct a as [k m r p|k p]; [by eapply net_ok_handle|].
  exists T. by apply net_ok_watch.
Qed.

(** A broadcast from a node with nothing left to be delivered. *)
Lemma broadcast_told n T acts k x m : net_ok n T acts → members n !! k = Some (x, []) → seg (MessageName m) →
  ∃ ids, told (broadcastPublish MessageName m x) = (λ id, (id, m)) <$> ids ∧
    ids ≡ₚ (map_to_list (map_imap (λ j _, keys n !! path_of cluster (MessageName m) j) (members n))).*2.
Proof.
  intros Hn E He. destruct (no_node _ _ _ Hn _ _ _ E) as (_ & ts & Hq & Hts).
  apply Forall2_nil_inv_l in Hq as ->. pose proof (λ j, Hts (MessageName m) j) as Hv. cbn in Hv.
  set (refs := getActorsByEventFromEventStream MessageName m x).
  exists (GetId <$> refs). split.
  { unfold broadcastPublish. rewrite told_map. fold refs. by rewrite <-list_fmap_compose. }
  set (inner := default ∅ (eventStreamMaps x !! MessageName m)).
  assert (refs = (map_to_list inner).*2) as ->.
  { unfold refs, inner, getActorsByEventFromEventStream, RWMap.Get.
    destruct (eventStreamMaps x !! MessageName m); [done|]. cbn. by rewrite map_to_list_empty. }
  assert (map_imap (λ j _, keys n !! path_of cluster (MessageName m) j) (members n) = GetId <$> inner) as ->.
  { apply map_eq. intros j. specialize (Hv j). unfold vid in Hv. unfold inner.
    assert ((GetId <$> default ∅ (eventStreamMaps x !! MessageName m)) !! j = T (MessageName m) j) as ->.
    { rewrite lookup_fmap, <-Hv. destruct (eventStreamMaps x !! MessageName m); cbn; [done|]. by rewrite lookup_empty. }
    rewrite map_lookup_imap. destruct (members n !! j) as [[y q]|] eqn:Ej; cbn.
    - apply (no_keys _ _ _ Hn); [done|]. destruct (no_node _ _ _ Hn _ _ _ Ej) as [W _]. apply W.
    - destruct (T (MessageName m) j) as [id|] eqn:ET; [|done].
      destruct (no_source _ _ _ Hn _ _ _ ET) as (y & q & Ey & _). congruence. }
  rewrite map_to_list_fmap, <-!list_fmap_compose. done.
Qed.

Lemma offer_spec n T acts k x q e : net_ok n T acts → members n !! k = Some (x, q) →
  offer x e = Some (GetId (esSelf x)) ∧ (∃ a, subscribed x e a) ∨
  offer x e = None ∧ ∀ a, ¬ subscribed x e a.
Proof.
  intros Hn E. destruct (no_node _ _ _ Hn _ _ _ E) as (W & _). unfold offer, subscribed.
  destruct (sub x !! e) as [inner|] eqn:Es; [|right; naive_solver].
  left. split; [done|]. destruct (map_choose inner (nw_nonempty _ _ W _ _ Es)) as (a & r & Ha).
  exists a, inner. by rewrite Ha.
Qed.
End cluster.

(** [C11] Publishing across the cluster.  Let any nodes of one cluster, whose
    name holds no '/', with distinct ids below 2^63, start together with no
    registration, and let them handle any subscribe, unsubscribe (of events
    named without '/') and publish messages and consume the etcd watch in any
    interleaving; any etcd call may be accepted, refused, or applied with its
    answer lost (the code only logs those).  A node that has consumed what the
    watch owes it then broadcasts a message to exactly the nodes whose
    registration for the message's event stands in etcd, each addressed once and
    by the id of its own event stream; and a node whose etcd calls about that
    event were all accepted is registered if and only if it has a subscriber.
    So where no call was refused, local publishing being exact at the receiving
    end, every subscriber in the cluster gets the message once. *)
Theorem broadcast_reaches_subscribers (cluster : string) (n : net) (acts : list net_act)
    (k : Z) (x : eventStream) (m : Message U) (ok : bool) (p : nat)
    (Hc : seg cluster) (He : seg (MessageName m)) (Hn : net_init cluster n) (Ha : Forall act_ok acts) :
  let n' := foldl net_step n acts in
  let registered j := keys n' !! path_of cluster (MessageName m) j in
  members n' !! k = Some (x, []) →
  ∃ ids, told (Receive MessageName (MBroadcast m) ok p x).1 = (λ id, (id, m)) <$> ids ∧
    ids ≡ₚ (map_to_list (map_imap (λ j _, registered j) (members n'))).*2 ∧
    ∀ j y q, members n' !! j = Some (y, q) →
      (registered j = None ∨ registered j = Some (GetId (esSelf y))) ∧
      (all_accepted j (MessageName m) acts →
         registered j = Some (GetId (esSelf y)) ↔ ∃ a, subscribed y (MessageName m) a).
Proof.
  intros n' registered E. destruct (net_ok_run cluster Hc n acts Hn Ha) as [T HT].
  destruct (broadcast_told cluster n' T acts k x m HT E He) as (ids & H1 & H2).
  exists ids. split; [done|]. split; [done|]. intros j y q Ey.
  assert (registered j = T (MessageName m) j) as ->.
  { apply (no_keys _ _ _ _ HT); [done|]. destruct (no_node _ _ _ _ HT _ _ _ Ey) as [W _]. apply W. }
  split.
  - destruct (T (MessageName m) j) as [id|] eqn:ET; [right|by left].
    destruct (no_source _ _ _ _ HT _ _ _ ET) as (y' & q' & Ey' & ->).
    assert (Some (y, q) = Some (y', q')) as [= <- _] by by rewrite <-Ey, <-Ey'. done.
  - intros Hacc. rewrite (no_offer _ _ _ _ HT _ _ _ _ Ey Hacc).
    destruct (offer_spec cluster n' T acts j y q (MessageName m) HT Ey) as [[-> Hs]|[-> Hs]]; [done|].
    split; [done|]. intros [a H]. by destruct (Hs a).
Qed.
End stream.

(** Three nodes: an actor of node 2 subscribes and node 1 learns it and
    broadcasts; node 3's registration was refused, so it is left out. *)
Definition demo_self (k : Z) : ActorRef :=
  newDirectActorRef defaultSystemKind eventStreamWatchName ("10.0.0." +:+ FormatUint k +:+ ":4000") 0 0.
Definition demo_member (k : Z) : eventStream * list (watchOp * string * string) :=
  (newEventStream (demo_self k) 0 k (es_prefix "game"), []).
Definition demo_net : net := Net (<[1 := demo_member 1]> (<[2 := demo_member 2]> {[3 := demo_member 3]})) ∅.
Definition demo_acts : list (net_act (U := unit)) :=
  [NHandle 3 (MSubscribe "direct/player/u3@10.0.0.3:4000" "pb.Hello") Refused 4;
   NHandle 2 (MSubscribe "direct/player/u1@10.0.0.2:4000" "pb.Hello") Accepted 5; NWatch 1 6].

Lemma demo_net_init : net_init "game" demo_net.
Proof.
  split; [done|]. intros k x q H. unfold demo_net in H. cbn [members] in H.
  assert ((k = 1 ∨ k = 2 ∨ k = 3) ∧ (x, q) = demo_member k) as [Hk [= -> ->]].
  { apply lookup_insert_Some in H as [[<- <-]|[_ H]]; [by auto|].
    apply lookup_insert_Some in H as [[<- <-]|[_ H]]; [by auto|].
    apply lookup_singleton_Some in H as [<- <-]. by auto. }
  split; [destruct Hk as [->|[->| ->]]; lia|]. split; [done|].
  exists ("10.0.0." +:+ FormatUint k +:+ ":4000"), 0%nat, 0%nat.
  destruct Hk as [->|[->| ->]]; (split_and!; [| |reflexivity]); reflexivity.
Qed.

Lemma broadcast_reaches_subscribers_witness :
  ∃ x ids, members (foldl (net_step (λ _ : Message unit, "pb.Hello")) demo_net demo_acts) !! 1 = Some (x, []) ∧
    told (Receive (λ _, "pb.Hello") (MBroadcast (MUser tt)) true 0 x).1
    = (λ id, (id, MUser tt)) <$> ids ∧
    ids ≡ₚ ["direct/system/event_stream@10.0.0.2:4000"].
Proof.
  destruct (members (foldl (net_step (λ _ : Message unit, "pb.Hello")) demo_net demo_acts) !! 1)
    as [[x [|w q]]|] eqn:E; [|vm_compute in E; discriminate E..].
  destruct (broadcast_reaches_subscribers (λ _ : Message unit, "pb.Hello") "game" demo_net
    demo_acts 1 x (MUser tt) true 0) as (ids & H1 & H2 & _).
  - split; [discriminate|reflexivity].
  - split; [discriminate|reflexivity].
  - exact demo_net_init.
  - repeat constructor; discriminate.
  - exact E.
  - exists x, ids. split; [reflexivity|]. split; [exact H1|exact H2].
Defined.
