(* ===== verification/Life.v ===== *)
(** * system_life.go: shutting a node down

    [WaitStopSignal], [ForceStop], [stopActors] and [stopActorsImpl] as a
    small-step machine beside everything that runs during a shutdown: on-demand
    activations (the draining check of ensureClusterKindActorExist, then the
    spawn), actors the user's code spawns, the stream writers that sends to
    other nodes spawn, actors that leave the registry, and the clock.  A poll
    reads the registry one shard per step, since anything may register or leave
    between two shard locks.  [late] and [streams] (what activations and user
    spawns, and what sends to other nodes, have registered since draining was
    set), [inflight] and [userSpawns] are ghost. *)

From S2P Require Import Prelude.
From S2P Require Import ActorId.
From S2P Require Import SafeMap.
From S2P Require Import Registry.
Open Scope Z_scope.

Definition second : Z := 1000000000.
Definition stopPollInterval : Z := 50000000.

(** A processor as the drain loop sees it: [opts()] is nil or says
    [poisonFirstOnQuit]. *)
Record lproc : Type := LProc { lid : string; lopts : option bool }.

(** An activation: before the draining check, between it and the registration. *)
Inductive activation : Type :=
| ACheck (id : string) (opts : option bool)
| ASpawn (id : string) (opts : option bool)
| ADone.

Inductive quit_event : Type :=
| QBefore | QWake | QStopProvider (revokeLease : bool) | QStopRpc | QAfter.

Inductive stop_pc : Type :=
| SWait                       (* select on the signals and forceCloseChan *)
| SBefore                     (* beforeQuit *)
| SDrain                      (* draining.Store(true) *)
| SWake                       (* wakePendingAsks *)
| SPoll (first : bool) (deadline : Z) (drainedFirst : bool) (round : Z)
    (shard : nat) (snapshot : list (string * nat))   (* rangeIt: shards before [shard] read *)
| SSleep (first : bool) (deadline : Z) (drainedFirst : bool) (round : Z) (until : Z)
| SProvider (drained : bool)
| SRpc (drained : bool)
| SAfter (drained : bool)
| SStopped (drained : bool).

Record life (M : Type) : Type := Life {
  lreg : M;
  lprocs : list lproc;
  poisoned : gset nat;
  draining : bool;
  forceClose : bool;           (* a token in the cap-1 channel *)
  now : Z;
  acts : list activation;
  spc : stop_pc;
  quitLog : list quit_event;
  late : list nat;
  inflight : nat;
  userSpawns : nat;
  streams : list nat
}.
Arguments Life {M}.
Arguments lreg {M} _.
Arguments lprocs {M} _.
Arguments poisoned {M} _.
Arguments draining {M} _.
Arguments forceClose {M} _.
Arguments now {M} _.
Arguments acts {M} _.
Arguments spc {M} _.
Arguments quitLog {M} _.
Arguments late {M} _.
Arguments inflight {M} _.
Arguments userSpawns {M} _.
Arguments streams {M} _.

(** Some node stopped with its lease revoked or about to be. *)
Definition revoked (l : list quit_event) : bool := existsb (λ e, match e with QStopProvider true => true | _ => false end) l.

(** The ids of outbound stream writers: their kind is write_stream, which no
    application can register ([WithConfigKind] refuses it), so none of them
    holds a lock in etcd. *)
Definition stream_id (id : string) : bool := bool_decide (kind (parseCache id) = defaultWriteStreamKind).

Definition past_check (a : activation) : bool := match a with ASpawn _ _ => true | _ => false end.

Section life.
Context {M : Type} {MI : MapImpl M string nat}.
Context (stopWaitTimeSecond : Z) (hasBefore hasAfter : bool).
Implicit Types (x : life M).

Definition upd_pc (p : stop_pc) x : life M :=
  Life (lreg x) (lprocs x) (poisoned x) (draining x) (forceClose x) (now x) (acts x) p (quitLog x)
    (late x) (inflight x) (userSpawns x) (streams x).
Definition add_log (e : quit_event) x : life M :=
  Life (lreg x) (lprocs x) (poisoned x) (draining x) (forceClose x) (now x) (acts x) (spc x)
    (quitLog x ++ [e]) (late x) (inflight x) (userSpawns x) (streams x).
Definition set_poisoned (ps : gset nat) x : life M :=
  Life (lreg x) (lprocs x) ps (draining x) (forceClose x) (now x) (acts x) (spc x) (quitLog x)
    (late x) (inflight x) (userSpawns x) (streams x).
Definition set_act (i : nat) (a : activation) x : life M :=
  Life (lreg x) (lprocs x) (poisoned x) (draining x) (forceClose x) (now x) (<[i := a]> (acts x))
    (spc x) (quitLog x) (late x) (inflight x) (userSpawns x) (streams x).

(** [draining.Store(true)]. *)
Definition start_draining x : life M :=
  Life (lreg x) (lprocs x) (poisoned x) true (forceClose x) (now x) (acts x) (spc x) (quitLog x)
    (late x) (length (filter (λ a, past_check a = true) (acts x))) (userSpawns x) (streams x).

(** [first && v.opts() != nil && !v.opts().poisonFirstOnQuit]: not in this phase. *)
Definition claims (first : bool) (procs : list lproc) (p : nat) : bool :=
  match procs !! p with
  | Some pr => negb (first && match lopts pr with Some b => negb b | None => false end)
  | None => true
  end.

(** One round's [rangeIt] callback on the snapshot: poison the claimed, collect
    them in [left]. *)
Definition poll (first : bool) (snapshot : list (string * nat)) x : list nat * life M :=
  range_callbacks snapshot (λ _ p s, if claims first (lprocs x) p
                            then (s.1 ++ [p], set_poisoned ({[p]} ∪ poisoned s.2) s.2)
                            else s) ([], x).

(** [time.Now().Add(time.Duration(stopWaitTimeSecond) * time.Second)]. *)
Definition deadline_from (t : Z) : Z := t + (stopWaitTimeSecond *i64 second)%go.

(** A phase returns [drained]. *)
Definition phase_end (first drainedFirst drained : bool) x : life M :=
  if first then upd_pc (SPoll false (deadline_from (now x)) drained 1 0 []) x
  else upd_pc (SProvider (drainedFirst && drained)) x.

(** A step of the goroutine in [WaitStopSignal]. *)
Definition stopper_step (signal : bool) x : option (life M) :=
  match spc x with
  | SWait =>
      if signal then Some (upd_pc SBefore x)
      else if forceClose x then
        Some (Life (lreg x) (lprocs x) (poisoned x) (draining x) false (now x) (acts x) SDrain
                (quitLog x) (late x) (inflight x) (userSpawns x) (streams x))
      else None
  | SBefore => Some (upd_pc SDrain (if hasBefore then add_log QBefore x else x))
  | SDrain => Some (upd_pc SWake (start_draining x))
  | SWake => Some (upd_pc (SPoll true (deadline_from (now x)) true 1 0 []) (add_log QWake x))
  | SPoll first deadline d round j snapshot =>
      if decide (j < m_shards M)%nat then
        Some (upd_pc (SPoll first deadline d round (S j) (snapshot ++ m_scan (lreg x) j)) x)
      else
      let '(remaining, x) := poll first snapshot x in
      if decide (remaining = []) then Some (phase_end first d true x)
      else if decide (deadline ≤ now x) then Some (phase_end first d false x)
      else Some (upd_pc (SSleep first deadline d round (now x + stopPollInterval)) x)
  | SSleep first deadline d round until =>
      if decide (until ≤ now x) then Some (upd_pc (SPoll first deadline d (round + 1) 0 []) x) else None
  | SProvider d => Some (upd_pc (SRpc d) (add_log (QStopProvider d) x))
  | SRpc d => Some (upd_pc (SAfter d) (add_log QStopRpc x))
  | SAfter d => Some (upd_pc (SStopped d) (if hasAfter then add_log QAfter x else x))
  | SStopped _ => None
  end.

(** [register] of a freshly built processor, if the id is free. *)
Definition spawn (id : string) (opts : option bool) x : life M :=
  let p := length (lprocs x) in
  let '((_, inserted), r) := register (lreg x) id p in
  Life r (lprocs x ++ [LProc id opts]) (poisoned x) (draining x) (forceClose x) (now x) (acts x)
    (spc x) (quitLog x) (if draining x && inserted then late x ++ [p] else late x)
    (inflight x) (userSpawns x) (streams x).

(** The outbound stream writer of [sendToRemote], the one registration that no
    draining check guards besides the user's own: the same [register], with
    [WithOptsPoisonFirstOnQuit(false)]. *)
Definition spawn_stream (id : string) x : life M :=
  let p := length (lprocs x) in
  let '((_, inserted), r) := register (lreg x) id p in
  Life r (lprocs x ++ [LProc id (Some false)]) (poisoned x) (draining x) (forceClose x) (now x) (acts x)
    (spc x) (quitLog x) (late x) (inflight x) (userSpawns x)
    (if draining x && inserted then streams x ++ [p] else streams x).

Definition act_step (i : nat) x : option (life M) :=
  match acts x !! i with
  | Some (ACheck id opts) => Some (set_act i (if draining x then ADone else ASpawn id opts) x)
  | Some (ASpawn id opts) => Some (spawn id opts (set_act i ADone x))
  | _ => None
  end.

(** [ForceStop]: a non-blocking send. *)
Definition ForceStop x : life M :=
  Life (lreg x) (lprocs x) (poisoned x) (draining x) true (now x) (acts x) (spc x) (quitLog x)
    (late x) (inflight x) (userSpawns x) (streams x).

Inductive life_label : Type :=
| LStopper (signal : bool)
| LForceStop
| LTick (d : Z)
| LEnvelope (id : string) (opts : option bool)   (* a message for a grain arrives *)
| LAct (i : nat)
| LUserSpawn (id : string) (opts : option bool)  (* Spawn, SpawnNamed *)
| LStream (id : string)                          (* sendToRemote needs a stream writer *)
| LGone (id : string) (p : nat).                 (* a processor deregisters *)

Definition life_exec (l : life_label) x : option (life M) :=
  match l with
  | LStopper signal => stopper_step signal x
  | LForceStop => Some (ForceStop x)
  | LTick d =>
      if decide (0 ≤ d) then
        Some (Life (lreg x) (lprocs x) (poisoned x) (draining x) (forceClose x) (now x + d) (acts x)
                (spc x) (quitLog x) (late x) (inflight x) (userSpawns x) (streams x))
      else None
  | LEnvelope id opts =>
      Some (Life (lreg x) (lprocs x) (poisoned x) (draining x) (forceClose x) (now x)
              (acts x ++ [ACheck id opts]) (spc x) (quitLog x) (late x) (inflight x) (userSpawns x) (streams x))
  | LAct i => act_step i x
  | LUserSpawn id opts =>
      let x := spawn id opts x in
      Some (Life (lreg x) (lprocs x) (poisoned x) (draining x) (forceClose x) (now x) (acts x)
              (spc x) (quitLog x) (late x) (inflight x)
              (if draining x then S (userSpawns x) else userSpawns x) (streams x))
  | LStream id => if stream_id id then Some (spawn_stream id x) else None
  | LGone id p =>
      Some (Life (remove (lreg x) id p) (lprocs x) (poisoned x) (draining x) (forceClose x) (now x)
              (acts x) (spc x) (quitLog x) (late x) (inflight x) (userSpawns x) (streams x))
  end.

Definition life_initial (r : M) (t : Z) : life M := Life r [] ∅ false false t [] SWait [] [] 0 0 [].

Inductive life_reachable (r : M) (t : Z) : life M → Prop :=
| lr_init : life_reachable r t (life_initial r t)
| lr_step x l x' : life_reachable r t x → life_exec l x = Some x' → life_reachable r t x'.

Fixpoint life_run (ls : list life_label) x : option (life M) :=
  match ls with
  | [] => Some x
  | l :: ls => match life_exec l x with Some x' => life_run ls x' | None => None end
  end.

Lemma life_run_reachable r t ls x x' :
  life_reachable r t x → life_run ls x = Some x' → life_reachable r t x'.
Proof.
  revert x. induction ls as [|l ls IH]; cbn [life_run]; intros x Hr E; [by simplify_eq|].
  destruct (life_exec l x) as [x1|] eqn:E1; [|done]. eapply IH; [|done]. by econstructor.
Qed.
End life.
