(* ===== verification/LifeThms.v ===== *)
(** * Theorems on shutting a node down

    The drain loop ends in time, and the etcd lease, which the grain locks hang
    off, is revoked only when nothing it protects can still be running. *)

From S2P Require Import Prelude.
From S2P Require Import ActorId.
From S2P Require Import SafeMap.
From S2P Require Import Registry.
From S2P Require Import Life.
Open Scope Z_scope.

Section life.
Context {M : Type} {MI : MapImpl M string nat}.
Context (stopWaitTimeSecond : Z) (hasBefore hasAfter : bool).
Implicit Types (x : life M).

Abbreviation step := (stopper_step stopWaitTimeSecond hasBefore hasAfter).
Abbreviation exec := (life_exec stopWaitTimeSecond hasBefore hasAfter).
Abbreviation reachable := (life_reachable stopWaitTimeSecond hasBefore hasAfter).

(** ** What a poll does *)

Lemma poll_foldl first procs (l : list (string * nat)) acc x : lprocs x = procs →
  foldl (λ s e, (λ _ p s, if claims first procs p
                            then (s.1 ++ [p], set_poisoned ({[p]} ∪ poisoned s.2) s.2)
                            else s) e.1 e.2 s) (acc, x) l
  = (acc ++ filter (λ p, claims first procs p = true) l.*2,
     set_poisoned (list_to_set (filter (λ p, claims first procs p = true) l.*2) ∪ poisoned x) x).
Proof.
  revert acc x. induction l as [|[id p] l IH]; intros acc x E; cbn [foldl fmap list_fmap].
  - rewrite filter_nil, app_nil_r. f_equal. destruct x. cbn.
    by rewrite (left_id_L ∅ (∪)).
  - rewrite filter_cons. cbn [fst snd].
    destruct (claims first procs p) eqn:Ec; cbn [fst snd]; case_decide; try done.
    + rewrite IH by done. rewrite <-app_assoc. cbn [app]. apply f_equal2; [done|]. unfold set_poisoned. cbn. f_equal. set_solver.
    + by rewrite IH.
Qed.

(** The callbacks return what they claimed and poison it; nothing else changes. *)
Definition claimed first (snapshot : list (string * nat)) x : list nat :=
  filter (λ p, claims first (lprocs x) p = true) snapshot.*2.

Lemma poll_spec first snapshot x :
  poll first snapshot x
  = (claimed first snapshot x, set_poisoned (list_to_set (claimed first snapshot x) ∪ poisoned x) x).
Proof. unfold poll, range_callbacks, claimed. by rewrite (poll_foldl first (lprocs x)). Qed.

(** The second phase claims everything. *)
Lemma claimed_latter snapshot x : claimed false snapshot x = [] → snapshot = [].
Proof.
  unfold claimed. destruct snapshot as [|[id p] l]; [done|]. cbn [fmap list_fmap snd].
  rewrite filter_cons, decide_True; [done|]. unfold claims. by destruct (lprocs x !! p).
Qed.

(** ** The invariant *)

Definition drained_pc (p : stop_pc) : bool :=
  match p with SProvider d | SRpc d | SAfter d | SStopped d => d | _ => false end.

Definition before_drain (p : stop_pc) : bool :=
  match p with SWait | SBefore | SDrain => true | _ => false end.

(** What has been done by the time the stopper is at [p]; [b] is whether
    beforeQuit ran. *)
Definition log_at (b : list quit_event) (p : stop_pc) : list quit_event :=
  match p with
  | SWait | SBefore => []
  | SDrain | SWake => b
  | SPoll _ _ _ _ _ _ | SSleep _ _ _ _ _ | SProvider _ => b ++ [QWake]
  | SRpc d => b ++ [QWake; QStopProvider d]
  | SAfter d => b ++ [QWake; QStopProvider d; QStopRpc]
  | SStopped d => b ++ [QWake; QStopProvider d; QStopRpc] ++ if hasAfter then [QAfter] else []
  end.

Definition spawning x : nat := length (filter (λ a, past_check a = true) (acts x)).

(** A processor the stopper may not have looked at since it set [draining]: none
    once it has found the registry empty, and during a poll those in the
    snapshot or in a shard still to be read. *)
Definition unseen (pc : stop_pc) (id : string) (p : nat) : Prop :=
  match pc with
  | SPoll _ _ _ _ j snapshot => (id, p) ∈ snapshot ∨ (j ≤ m_shard M id)%nat
  | SProvider true | SRpc true | SAfter true | SStopped true => False
  | _ => True
  end.

(** Registered since draining was set: by an activation or the user's code, or
    as a stream writer. *)
Definition accounted (lt st : list nat) (id : string) (p : nat) : Prop :=
  p ∈ lt ∨ (p ∈ st ∧ stream_id id = true).

Record life_ok x : Prop := {
  lo_wf : m_wf (lreg x);
  lo_draining : draining x = negb (before_drain (spc x));
  lo_before : draining x = false → late x = [] ∧ userSpawns x = 0%nat ∧ streams x = [];
  lo_late : draining x = true → (spawning x + length (late x) ≤ inflight x + userSpawns x)%nat;
  lo_seen : ∀ id p, m_abs (lreg x) !! id = Some p →
    accounted (late x) (streams x) id p ∨ unseen (spc x) id p;
  lo_log : ∃ b, (b = [] ∨ b = [QBefore]) ∧ quitLog x = log_at b (spc x)
}.

Lemma unseen_before p id q : before_drain p = true → unseen p id q.
Proof. by destruct p. Qed.

Lemma unseen_drained p id q : drained_pc p = true → ¬ unseen p id q.
Proof. destruct p; try done; cbn; intros ->; tauto. Qed.

(** A stopper step that changes its own place, the log and the poison flags. *)
Lemma life_ok_pc x ps p l : life_ok x →
  before_drain p = before_drain (spc x) →
  (∀ id q, m_abs (lreg x) !! id = Some q → unseen (spc x) id q → unseen p id q) →
  (∀ b, quitLog x = log_at b (spc x) →
     ∃ b', (b = [] ∨ b = [QBefore] → b' = [] ∨ b' = [QBefore]) ∧ l = log_at b' p) →
  life_ok (Life (lreg x) (lprocs x) ps (draining x) (forceClose x) (now x) (acts x) p l
             (late x) (inflight x) (userSpawns x) (streams x)).
Proof.
  intros [W D B L Sn (b & Hb & Hl)] Hp Hd Hlog. split; cbn; try done.
  - by rewrite D, Hp.
  - intros id q Hq. destruct (Sn id q Hq) as [Hs|Hs]; [by left|right; by apply Hd].
  - destruct (Hlog b Hl) as (b' & Hb' & E). exists b'. split; [by apply Hb'|done].
Qed.

(** The steps after [draining.Store(true)] append what they did to the log. *)
Lemma life_ok_next x ps p es : life_ok x →
  before_drain (spc x) = false → before_drain p = false →
  (∀ id q, m_abs (lreg x) !! id = Some q → unseen (spc x) id q → unseen p id q) →
  (∀ b, log_at b p = log_at b (spc x) ++ es) →
  life_ok (Life (lreg x) (lprocs x) ps (draining x) (forceClose x) (now x) (acts x) p
             (quitLog x ++ es) (late x) (inflight x) (userSpawns x) (streams x)).
Proof.
  intros H H1 H2 Hd Hlog. apply (life_ok_pc x); try done; [by rewrite H1, H2|].
  intros b Hl. exists b. split; [done|]. by rewrite Hlog, Hl.
Qed.

Lemma life_ok_quiet x ps p : life_ok x →
  before_drain (spc x) = false → before_drain p = false →
  (∀ id q, m_abs (lreg x) !! id = Some q → unseen (spc x) id q → unseen p id q) →
  (∀ b, log_at b p = log_at b (spc x)) →
  life_ok (upd_pc p (set_poisoned ps x)).
Proof.
  intros H H1 H2 Hd Hlog. pose proof (life_ok_next x ps p [] H H1 H2 Hd) as Hn.
  rewrite app_nil_r in Hn. apply Hn. intros b. by rewrite app_nil_r.
Qed.

Lemma spawning_set x i a a' : acts x !! i = Some a →
  (length (filter (λ a, past_check a = true) (<[i := a']> (acts x)))
     + (if past_check a then 1 else 0)
   = spawning x + (if past_check a' then 1 else 0))%nat.
Proof.
  unfold spawning. generalize (acts x) as l. induction i as [|i IH]; intros [|b l] E; try done.
  - injection E as ->. cbn [insert list_insert]. rewrite !filter_cons.
    destruct (past_check a), (past_check a'); repeat case_decide; cbn; try done; lia.
  - change (<[S i := a']> (b :: l)) with (b :: <[i := a']> l). rewrite !filter_cons.
    specialize (IH l E).
    destruct (past_check b); repeat case_decide; cbn [length] in *; try done; lia.
Qed.

Lemma spawning_snoc l id o :
  length (filter (λ a, past_check a = true) (l ++ [ACheck id o]))
  = length (filter (λ a, past_check a = true) l).
Proof. by rewrite filter_app, filter_cons, decide_False, filter_nil, app_nil_r. Qed.

(** What registering a processor does to the index. *)
Lemma life_ok_register id p x (lt st : list nat) : life_ok x →
  let '((_, ins), r) := register (lreg x) id p in
  (∀ q, q ∈ late x → q ∈ lt) → (∀ q, q ∈ streams x → q ∈ st) →
  (draining x = true → ins = true → accounted lt st id p) →
  m_wf r ∧ (∀ id p, m_abs r !! id = Some p → accounted lt st id p ∨ unseen (spc x) id p).
Proof.
  intros [W D B L Sn _]. destruct (register_abs (lreg x) id p W) as (H1 & H2 & H3).
  destruct (register (lreg x) id p) as [[actual ins] r]. cbn in *. intros Hl Hs Hp. split; [done|].
  assert (∀ id q, m_abs (lreg x) !! id = Some q → accounted lt st id q ∨ unseen (spc x) id q) as Hold.
  { intros id' q Hq. destruct (Sn id' q Hq) as [[H|[H Hi]]|H]; [left; left; auto|left; right; auto|by right]. }
  intros id' q. rewrite H3. destruct (m_abs (lreg x) !! id) as [q0|] eqn:E; [apply Hold|].
  injection H2 as _ ->. intros [[<- <-]|[_ Hq]]%lookup_insert_Some; [|by apply Hold].
  destruct (draining x); [left; by apply Hp|]. right. apply unseen_before. by destruct (before_drain (spc x)).
Qed.

(** Registering a processor: at most one more late one. *)
Lemma life_ok_spawn id o x : life_ok x →
  let x' := spawn id o x in
  m_wf (lreg x') ∧ (draining x = false → late x' = []) ∧
  (draining x = true → (length (late x') ≤ length (late x) + 1)%nat) ∧
  (∀ id p, m_abs (lreg x') !! id = Some p → accounted (late x') (streams x) id p ∨ unseen (spc x) id p).
Proof.
  intros H x'. subst x'. unfold spawn.
  pose proof (λ lt, life_ok_register id (length (lprocs x)) x lt (streams x) H) as Hr.
  destruct (register (lreg x) id (length (lprocs x))) as [[actual ins] r]. cbn in *.
  destruct H as [W D B L Sn _].
  destruct (Hr (if draining x && ins then late x ++ [length (lprocs x)] else late x)) as [H1 H2]; [|done| |].
  { intros q Hq. destruct (draining x && ins); [|done]. apply elem_of_app. by left. }
  { intros -> ->. left. cbn. apply elem_of_app. right. by left. }
  split; [done|]. split; [intros Hd; rewrite Hd; by apply B|]. split; [|done].
  intros ->. destruct ins; cbn; rewrite ?length_app; cbn; lia.
Qed.

Lemma spawn_frame id o x :
  let x' := spawn id o x in
  draining x' = draining x ∧ spc x' = spc x ∧ acts x' = acts x ∧ quitLog x' = quitLog x ∧
  inflight x' = inflight x ∧ userSpawns x' = userSpawns x ∧ now x' = now x ∧ streams x' = streams x.
Proof. unfold spawn. by destruct (register _ _ _) as [[? ?] ?]. Qed.

(** A stream writer is none of the late ones. *)
Lemma life_ok_stream id x : life_ok x → stream_id id = true → life_ok (spawn_stream id x).
Proof.
  intros H Hid. unfold spawn_stream.
  pose proof (λ st, life_ok_register id (length (lprocs x)) x (late x) st H) as Hr.
  destruct (register (lreg x) id (length (lprocs x))) as [[actual ins] r].
  destruct H as [W D B L Sn Lg].
  destruct (Hr (if draining x && ins then streams x ++ [length (lprocs x)] else streams x)) as [H2 H3]; [done|..].
  { intros q Hq. destruct (draining x && ins); [|done]. apply elem_of_app. by left. }
  { intros -> ->. right. cbn. split; [|done]. apply elem_of_app. right. by left. }
  split; cbn; try done.
  intros Hd. rewrite Hd. by apply B.
Qed.

Lemma spawn_stream_frame id x :
  let x' := spawn_stream id x in spc x' = spc x ∧ now x' = now x ∧ forceClose x' = forceClose x.
Proof. unfold spawn_stream. by destruct (register _ _ _) as [[? ?] ?]. Qed.

(** A poll: another shard into the snapshot, or the callbacks once it is complete. *)
Lemma life_ok_scan x first dl d n j snap : life_ok x → spc x = SPoll first dl d n j snap →
  life_ok (upd_pc (SPoll first dl d n (S j) (snap ++ m_scan (lreg x) j)) x).
Proof.
  intros H Ep. apply (life_ok_quiet x (poisoned x)); rewrite ?Ep; try done.
  intros id q Hq [Hs|Hs]; cbn [unseen].
  - left. apply elem_of_app. by left.
  - destruct (decide (m_shard M id = j)) as [E|E]; [|right; lia].
    left. apply elem_of_app. right. apply m_scan_law; [apply H|done].
Qed.

Lemma life_ok_poll x first dl d n j snap p : life_ok x → spc x = SPoll first dl d n j snap →
  (m_shards M ≤ j)%nat → before_drain p = false → (∀ b, log_at b p = b ++ [QWake]) →
  (drained_pc p = true → snap = []) → (drained_pc p = false → ∀ id q, unseen p id q) →
  life_ok (upd_pc p (set_poisoned (list_to_set (claimed first snap x) ∪ poisoned x) x)).
Proof.
  intros H Ep Hj Hp Hlog Hdr Hn. apply life_ok_quiet; rewrite ?Ep; try done.
  intros id q Hq [Hs|Hs]; [|pose proof (m_shard_law id); lia].
  destruct (drained_pc p); [|by apply Hn]. rewrite Hdr in Hs by done. by apply elem_of_nil in Hs.
Qed.

Lemma life_ok_phase_end x first dl d n j snap drained : life_ok x → spc x = SPoll first dl d n j snap →
  (m_shards M ≤ j)%nat → (drained = true → claimed first snap x = []) →
  life_ok (phase_end stopWaitTimeSecond first d drained
    (set_poisoned (list_to_set (claimed first snap x) ∪ poisoned x) x)).
Proof.
  intros H Ep Hj Hd. unfold phase_end. destruct first; apply (life_ok_poll x _ _ _ _ _ _ _ H Ep Hj); try done.
  - intros _ id q. right. lia.
  - cbn. intros [-> Hd']%andb_true_iff. by apply (claimed_latter snap x), Hd.
  - cbn. by intros ->.
Qed.

Lemma life_ok_stopper sg x x' : life_ok x → step sg x = Some x' → life_ok x'.
Proof.
  intros H E. unfold stopper_step in E. destruct (spc x) eqn:Ep.
  - destruct sg; [|destruct (forceClose x); [|done]]; injection E as <-.
    + apply (life_ok_pc x); rewrite ?Ep; try done. intros b Hl. by exists b.
    + destruct H as [W D B L Sn (b & Hb & Hl)]. split; cbn; rewrite ?Ep in *; try done.
      exists []. split; [by left|done].
  - injection E as <-. destruct hasBefore.
    + apply (life_ok_pc x); rewrite ?Ep; try done. intros b Hl. exists [QBefore].
      split; [by right|]. cbn in *. by rewrite Hl.
    + apply (life_ok_pc x); rewrite ?Ep; try done. intros b Hl. exists []. split; [by left|done].
  - injection E as <-. destruct H as [W D B L Sn Lg]. rewrite Ep in *. destruct (B D) as (E1 & E2 & _).
    split; cbn; try done.
    intros _. rewrite E1, E2. unfold spawning. cbn. lia.
  - injection E as <-. apply (life_ok_next x (poisoned x)); rewrite ?Ep; try done.
    intros id q _ _. right. lia.
  - rewrite poll_spec in E. repeat case_decide; injection E as <-.
    + by eapply life_ok_scan.
    + eapply life_ok_phase_end; [done..|lia|done].
    + eapply life_ok_phase_end; [done..|lia|done].
    + eapply life_ok_poll; [done..|lia| |by intros b| |]; done.
  - case_decide; [|done]. injection E as <-. apply (life_ok_quiet x (poisoned x)); rewrite ?Ep; try done.
    intros id q _ _. right. lia.
  - injection E as <-. apply (life_ok_next x (poisoned x)); rewrite ?Ep; try done.
    intros b. cbn. by rewrite <-app_assoc.
  - injection E as <-. apply (life_ok_next x (poisoned x)); rewrite ?Ep; try done.
    intros b. cbn. by rewrite <-app_assoc.
  - injection E as <-. destruct hasAfter eqn:Ea.
    + apply (life_ok_next x (poisoned x)); rewrite ?Ep; try done.
      intros b. cbn. rewrite Ea. by rewrite <-app_assoc.
    + apply (life_ok_quiet x (poisoned x)); rewrite ?Ep; try done. intros b. cbn. by rewrite Ea.
  - done.
Qed.

Lemma life_ok_exec l x x' : life_ok x → exec l x = Some x' → life_ok x'.
Proof.
  intros H E. destruct l as [sg| |d|id o|i|id o|id|id p]; cbn [life_exec] in E.
  - by eapply life_ok_stopper.
  - injection E as <-. by destruct H; split.
  - case_decide; [|done]. injection E as <-. by destruct H; split.
  - injection E as <-. destruct H as [W D B L Sn Lg]. split; cbn; try done.
    intros Hd. unfold spawning. cbn [acts]. rewrite spawning_snoc. by apply L.
  - unfold act_step in E. destruct (acts x !! i) as [[id o|id o|]|] eqn:Ei; [..|done|done];
      injection E as <-.
    + pose proof (spawning_set x i _ (if draining x then ADone else ASpawn id o) Ei) as Hs.
      destruct H as [W D B L Sn Lg]. split; cbn; try done. intros Hd. specialize (L Hd).
      rewrite Hd in *. unfold spawning in *. cbn in *. lia.
    + pose proof (spawning_set x i _ ADone Ei) as Hs. cbn [past_check] in Hs.
      set (y := set_act i ADone x).
      assert (life_ok y) as Hy.
      { destruct H as [W D B L Sn Lg]. split; cbn; try done. intros Hd. specialize (L Hd).
        unfold spawning in *. cbn in *. lia. }
      destruct (life_ok_spawn id o y Hy) as (H1 & H2 & H3 & H4).
      destruct (spawn_frame id o y) as (F1 & F2 & F3 & F4 & F5 & F6 & _ & F7).
      destruct H as [W D B L Sn Lg]. split; rewrite ?F1, ?F2, ?F4, ?F5, ?F6, ?F7; try done.
      * intros Hd. split; [by apply H2|]. by apply B.
      * intros Hd. specialize (H3 Hd). specialize (L Hd). unfold spawning in *.
        rewrite F3. cbn in *. lia.
  - injection E as <-.
    destruct (life_ok_spawn id o x H) as (H1 & H2 & H3 & H4).
    destruct (spawn_frame id o x) as (F1 & F2 & F3 & F4 & F5 & F6 & _ & F7).
    destruct H as [W D B L Sn Lg].
    split; cbn; rewrite ?F1, ?F2, ?F4, ?F5, ?F6, ?F7; try done.
    + intros Hd. split; [by apply H2|]. rewrite Hd. by apply B.
    + intros Hd. specialize (H3 Hd). specialize (L Hd). unfold spawning in *. cbn [acts].
      rewrite F3, Hd. lia.
  - destruct (stream_id id) eqn:Hid; [|done]. injection E as <-. by apply life_ok_stream.
  - injection E as <-. destruct H as [W D B L Sn Lg].
    destruct (remove_abs (lreg x) id p W) as [W' E']. split; cbn; try done.
    intros id' q. rewrite E'. case_decide; [|by apply Sn].
    intros Hq. apply lookup_delete_Some in Hq as [_ Hq]. by eapply Sn.
Qed.

Lemma life_ok_reachable r t x : m_wf r → reachable r t x → life_ok x.
Proof.
  intros W. induction 1 as [|x l x' _ IH E]; [|by eapply life_ok_exec].
  split; cbn; try done; [intros id p _; by right|]. exists []. split; [by left|done].
Qed.

Lemma revoked_pc x : life_ok x → revoked (quitLog x) = true → drained_pc (spc x) = true.
Proof.
  intros [_ _ _ _ _ (b & Hb & ->)]. unfold revoked.
  destruct (spc x); destruct Hb as [->| ->]; cbn; try done;
    rewrite ?existsb_app; destruct drained; cbn; try done; by destruct hasAfter.
Qed.

(** [C13] The lease, and with it every grain lock of the node, is given up only
    after a drain that found the registry empty.  Whatever arrives during the
    shutdown, once [WaitStopSignal] has called the provider's stop with
    revokeLease set, every processor still or again in the registry was
    registered after draining was set, and is either an outbound stream writer
    (a write_stream id, which holds no lock; sends to other nodes spawn them
    without looking at draining) or one of [late], of which there are at most as
    many as there were activations already past their draining check when it was
    set, plus explicit spawns by user code during the shutdown.  With neither,
    the registry holds nothing but stream writers from then on, and nothing at
    all unless a send spawned one.  beforeQuit, the drain, the provider, the grpc
    server and afterQuit come in that order. *)
Theorem lease_outlives_activations (r : M) (t : Z) (x : life M)
    (Hr : m_wf r) (Hx : reachable r t x) :
  (∃ b, (b = [] ∨ b = [QBefore]) ∧ quitLog x = log_at b (spc x)) ∧
  (revoked (quitLog x) = true →
    (∀ id p, lookup_proc (lreg x) id = Some p →
       p ∈ late x ∨ (p ∈ streams x ∧ kind (parseCache id) = defaultWriteStreamKind)) ∧
    (length (late x) ≤ inflight x + userSpawns x)%nat ∧
    (inflight x = 0%nat → userSpawns x = 0%nat →
       (∀ id p, m_abs (lreg x) !! id = Some p → kind (parseCache id) = defaultWriteStreamKind) ∧
       (streams x = [] → m_abs (lreg x) = ∅))).
Proof.
  pose proof (life_ok_reachable r t x Hr Hx) as H. split; [apply H|]. intros Hv.
  pose proof (revoked_pc x H Hv) as Hp. destruct H as [W D B L Sn Lg].
  assert (∀ id p, m_abs (lreg x) !! id = Some p →
    p ∈ late x ∨ (p ∈ streams x ∧ kind (parseCache id) = defaultWriteStreamKind)) as Dn.
  { intros id p Hq. destruct (Sn id p Hq) as [[Hs|[Hs Hi]]|Hs]; [by left| |by destruct (unseen_drained _ id p Hp)].
    right. split; [done|]. by apply bool_decide_eq_true in Hi. }
  assert (draining x = true) as Hd by (rewrite D; by destruct (spc x)).
  specialize (L Hd). split_and!.
  - intros id p. rewrite lookup_proc_abs by done. apply Dn.
  - lia.
  - intros E1 E2. assert (late x = []) as E3 by (destruct (late x); [done|cbn in L; lia]).
    split.
    + intros id p E. apply Dn in E. rewrite E3 in E. destruct E as [E|[_ E]]; [by apply elem_of_nil in E|done].
    + intros E4. apply map_eq. intros id. rewrite lookup_empty.
      destruct (m_abs (lreg x) !! id) as [p|] eqn:E; [|done]. apply Dn in E. rewrite E3, E4 in E.
      destruct E as [E|[E _]]; by apply elem_of_nil in E.
Qed.

(** ** The drain loop is bounded *)

Section bound.
Hypothesis Hwait : 0 ≤ stopWaitTimeSecond ≤ 9223372036.

(** The longest a phase can poll: once per interval, and once at the deadline. *)
Definition max_rounds : Z := 20 * stopWaitTimeSecond + 1.

Lemma deadline_eq t : deadline_from stopWaitTimeSecond t = t + stopWaitTimeSecond * second.
Proof using Hwait. unfold deadline_from, second. rewrite i64_id; [done|]. word_lia. Qed.

Definition rounds_ok x : Prop :=
  match spc x with
  | SPoll _ dl _ r j _ =>
      (j ≤ m_shards M)%nat ∧ 1 ≤ r ≤ max_rounds ∧ dl - stopWaitTimeSecond * second + (r - 1) * stopPollInterval ≤ now x
  | SSleep _ dl _ r until =>
      1 ≤ r < max_rounds ∧ until ≤ now x + stopPollInterval ∧
      dl - stopWaitTimeSecond * second + r * stopPollInterval ≤ until
  | _ => True
  end.

(** The steps of one round: a shard at a time, the callbacks, the sleep. *)
Definition round_steps : Z := Z.of_nat (m_shards M) + 2.

(** An upper bound on the steps the stopper still takes. *)
Definition rank (p : stop_pc) : Z :=
  match p with
  | SWait => 2 * round_steps * max_rounds + 7
  | SBefore => 2 * round_steps * max_rounds + 6
  | SDrain => 2 * round_steps * max_rounds + 5
  | SWake => 2 * round_steps * max_rounds + 4
  | SPoll f _ _ r j _ =>
      (if f then round_steps * max_rounds else 0) + round_steps * (max_rounds - r)
      + (round_steps - Z.of_nat j) + 3
  | SSleep f _ _ r _ =>
      (if f then round_steps * max_rounds else 0) + round_steps * (max_rounds - r) + 4
  | SProvider _ => 3
  | SRpc _ => 2
  | SAfter _ => 1
  | SStopped _ => 0
  end.

Lemma round_steps_mul a : 0 ≤ a → 0 ≤ round_steps * a.
Proof using. intros Ha. apply Z.mul_nonneg_nonneg; [|exact Ha]. unfold round_steps. clear. lia. Qed.

Lemma rank_nonneg x : rounds_ok x → 0 ≤ rank (spc x).
Proof using Hwait.
  assert (0 ≤ max_rounds) as Hm by (unfold max_rounds; lia).
  pose proof (round_steps_mul max_rounds Hm) as Hs.
  unfold rounds_ok. destruct (spc x); unfold rank; try lia; intros H.
  - pose proof (round_steps_mul (max_rounds - round) ltac:(lia)).
    unfold round_steps in *. destruct first; lia.
  - pose proof (round_steps_mul (max_rounds - round) ltac:(lia)). destruct first; lia.
Qed.

Lemma phase_end_rounds first d drained j r x : 1 ≤ r ≤ max_rounds → (j ≤ m_shards M)%nat →
  rounds_ok (phase_end stopWaitTimeSecond first d drained x) ∧
  rank (spc (phase_end stopWaitTimeSecond first d drained x)) + 1
    ≤ rank (SPoll first (now x) d r j []).
Proof using Hwait.
  intros Hr Hj. pose proof (round_steps_mul (max_rounds - r) ltac:(lia)) as Hm.
  unfold phase_end. destruct first; unfold rounds_ok; cbn [upd_pc spc rank now]; rewrite ?deadline_eq;
    unfold round_steps, stopPollInterval in *; lia.
Qed.

Lemma stopper_rounds sg x x' : rounds_ok x → step sg x = Some x' →
  rounds_ok x' ∧ rank (spc x') + 1 ≤ rank (spc x).
Proof using Hwait.
  unfold stopper_step. intros H E. unfold rounds_ok in H.
  assert (1 ≤ max_rounds) as Hm by (unfold max_rounds; lia).
  destruct (spc x) eqn:Ep.
  - destruct sg; [|destruct (forceClose x); [|done]]; injection E as <-; cbn [upd_pc spc rank]; (split; [done|lia]).
  - injection E as <-. split; [done|]. cbn [upd_pc spc rank]. lia.
  - injection E as <-. split; [done|]. cbn [upd_pc spc rank]. lia.
  - injection E as <-. unfold rounds_ok. cbn [upd_pc spc rank now add_log]. rewrite deadline_eq.
    unfold stopPollInterval. lia.
  - destruct H as (Hj & Hr & Hd). rewrite poll_spec in E. repeat case_decide; injection E as <-.
    + unfold rounds_ok. cbn [upd_pc spc now rank]. lia.
    + by apply phase_end_rounds.
    + by apply phase_end_rounds.
    + unfold rounds_ok. cbn [upd_pc spc now set_poisoned rank] in *.
      unfold max_rounds, round_steps, second, stopPollInterval in *. lia.
  - case_decide as Hu; [|done]. injection E as <-. unfold rounds_ok. cbn [upd_pc spc now rank].
    unfold stopPollInterval in *. lia.
  - injection E as <-. split; [done|]. cbn [upd_pc spc rank]. lia.
  - injection E as <-. split; [done|]. cbn [upd_pc spc rank]. lia.
  - injection E as <-. destruct hasAfter; (split; [done|]); cbn [upd_pc spc rank]; lia.
  - done.
Qed.

Lemma other_rounds l x x' : (∀ sg, l ≠ LStopper sg) → rounds_ok x → exec l x = Some x' →
  rounds_ok x' ∧ spc x' = spc x.
Proof using.
  intros Hl H E. assert (spc x' = spc x ∧ now x ≤ now x') as [Hp Hn].
  { destruct l as [sg| |d|id o|i|id o|id|id p]; cbn [life_exec] in E; [by destruct (Hl sg)|..].
    - by injection E as <-.
    - case_decide; [|done]. injection E as <-. cbn. split; [done|lia].
    - by injection E as <-.
    - unfold act_step in E. destruct (acts x !! i) as [[id o|id o|]|]; [..|done|done];
        injection E as <-; [done|].
      destruct (spawn_frame id o (set_act i ADone x)) as (_ & -> & _ & _ & _ & _ & -> & _). done.
    - injection E as <-. cbn. destruct (spawn_frame id o x) as (_ & -> & _ & _ & _ & _ & -> & _). done.
    - destruct (stream_id id); [|done]. injection E as <-. destruct (spawn_stream_frame id x) as (-> & -> & _). done.
    - by injection E as <-. }
  split; [|done]. unfold rounds_ok in *. rewrite Hp. destruct (spc x); try done; lia.
Qed.

Lemma rounds_reachable r t x : reachable r t x → rounds_ok x.
Proof using Hwait.
  induction 1 as [|x l x' _ IH E]; [done|]. destruct l as [sg| | | | | | |].
  1: by eapply stopper_rounds.
  all: eapply other_rounds; [|exact IH|exact E]; done.
Qed.

Definition is_stopper (l : life_label) : bool := match l with LStopper _ => true | _ => false end.

Lemma run_rank ls x x' : rounds_ok x → life_run stopWaitTimeSecond hasBefore hasAfter ls x = Some x' →
  rounds_ok x' ∧
  rank (spc x') + Z.of_nat (length (filter (λ l, is_stopper l = true) ls)) ≤ rank (spc x).
Proof using Hwait.
  revert x. induction ls as [|l ls IH]; cbn [life_run]; intros x H E.
  { injection E as <-. rewrite filter_nil. cbn [length]. split; [done|]. lia. }
  destruct (exec l x) as [x1|] eqn:E1; [|done]. rewrite filter_cons.
  destruct (is_stopper l) eqn:El; case_decide; try done.
  - destruct l; try done. destruct (stopper_rounds _ _ _ H E1) as [H1 R1].
    destruct (IH _ H1 E) as [H2 R2]. split; [done|]. cbn [length]. lia.
  - destruct (other_rounds l x x1) as [H1 R1]; [by intros sg ->|done..|].
    rewrite <-R1. by apply IH.
Qed.

(** A stopper that is past the wait is never stuck for longer than one interval. *)
Lemma stopper_enabled x : rounds_ok x → spc x ≠ SWait → (∀ d, spc x ≠ SStopped d) →
  ∃ d x1 x2, 0 ≤ d ≤ stopPollInterval ∧ exec (LTick d) x = Some x1 ∧
    exec (LStopper false) x1 = Some x2.
Proof using.
  intros H Hw Hs. unfold rounds_ok in H.
  pose (tick d := Life (lreg x) (lprocs x) (poisoned x) (draining x) (forceClose x) (now x + d)
    (acts x) (spc x) (quitLog x) (late x) (inflight x) (userSpawns x) (streams x)).
  assert (∀ d, 0 ≤ d ≤ stopPollInterval → is_Some (step false (tick d)) →
    ∃ d x1 x2, 0 ≤ d ≤ stopPollInterval ∧ exec (LTick d) x = Some x1 ∧
      exec (LStopper false) x1 = Some x2) as Hgo.
  { intros d Hd [x2 E]. exists d, (tick d), x2. split; [done|]. split; [|exact E].
    cbn [life_exec]. by rewrite decide_True by lia. }
  unfold stopPollInterval in *.
  destruct (spc x) as [| | | |f dl b r j sn|f dl b r until|b|b|b|b] eqn:Ep; try done.
  - apply (Hgo 0); [lia|]. unfold stopper_step, tick. cbn [spc]. by rewrite ?Ep.
  - apply (Hgo 0); [lia|]. unfold stopper_step, tick. cbn [spc]. by rewrite ?Ep.
  - apply (Hgo 0); [lia|]. unfold stopper_step, tick. cbn [spc]. by rewrite ?Ep.
  - apply (Hgo 0); [lia|]. unfold stopper_step, tick. cbn [spc]. rewrite ?Ep, poll_spec.
    by repeat case_decide.
  - apply (Hgo (Z.max 0 (until - now x))); [lia|]. unfold stopper_step, tick. cbn [spc now].
    rewrite ?Ep, decide_True by lia. done.
  - apply (Hgo 0); [lia|]. unfold stopper_step, tick. cbn [spc]. by rewrite ?Ep.
  - apply (Hgo 0); [lia|]. unfold stopper_step, tick. cbn [spc]. by rewrite ?Ep.
  - apply (Hgo 0); [lia|]. unfold stopper_step, tick. cbn [spc]. by rewrite ?Ep.
  - by destruct (Hs b).
Qed.

Lemma rank_past_wait x : rounds_ok x → spc x ≠ SWait →
  rank (spc x) ≤ 2 * round_steps * max_rounds + 6.
Proof using Hwait.
  assert (0 ≤ max_rounds) as Hm by (unfold max_rounds; lia).
  pose proof (round_steps_mul max_rounds Hm) as Hs.
  unfold rounds_ok. destruct (spc x); unfold rank; try done; try lia; intros H _.
  - pose proof (round_steps_mul (round - 1) ltac:(lia)). unfold round_steps in *. destruct first; lia.
  - pose proof (round_steps_mul (round - 1) ltac:(lia)). unfold round_steps in *. destruct first; lia.
Qed.

Lemma rank_le x : rounds_ok x → rank (spc x) ≤ 2 * round_steps * max_rounds + 7.
Proof using Hwait.
  intros H. assert (spc x = SWait ∨ spc x ≠ SWait) as [E|E] by (destruct (spc x); (by left) || by right).
  - rewrite E. unfold rank. lia.
  - pose proof (rank_past_wait x H E). lia.
Qed.

(** [C29] Shutdown ends.  For every configured wait that fits a Duration
    (0..9223372036 s), once [WaitStopSignal] is past its select, the stopping
    goroutine takes at most 2 * (shards + 2) * (20 * wait + 1) + 6 steps (at most
    20 * wait + 1 polls of the registry in each of the two phases, one step per
    shard lock) whatever the actors, the network and user code do meanwhile, even
    if no actor ever stops; and at every point before the end it can take its
    next step after at most one poll interval. *)
Theorem shutdown_terminates (r : M) (t : Z) (x x' : life M) (ls : list life_label)
    (Hx : reachable r t x) (Hp : spc x ≠ SWait)
    (Hrun : life_run stopWaitTimeSecond hasBefore hasAfter ls x = Some x') :
  Z.of_nat (length (filter (λ l, is_stopper l = true) ls))
    ≤ 2 * (Z.of_nat (m_shards M) + 2) * (20 * stopWaitTimeSecond + 1) + 6 ∧
  (∀ f dl d n j s, spc x' = SPoll f dl d n j s → 1 ≤ n ≤ 20 * stopWaitTimeSecond + 1) ∧
  ((∀ d, spc x' ≠ SStopped d) → ∃ d x1 x2, 0 ≤ d ≤ stopPollInterval ∧
     exec (LTick d) x' = Some x1 ∧ exec (LStopper false) x1 = Some x2).
Proof using Hwait.
  pose proof (rounds_reachable r t x Hx) as H0. destruct (run_rank ls x x' H0 Hrun) as [H1 R].
  pose proof (rank_nonneg x' H1) as Hn. pose proof (rank_past_wait x H0 Hp) as Hr.
  split; [unfold round_steps, max_rounds in Hr; lia|]. split.
  - intros f dl d n j s E. unfold rounds_ok, max_rounds in H1. rewrite E in H1. lia.
  - intros Hs. apply stopper_enabled; [done| |done]. intros E. rewrite E in R. cbn [rank] in R. lia.
Qed.
End bound.
End life.

(** ** Concrete shutdowns *)

Definition demo_start : life (list (gmap string nat)) := life_initial newRegistry 0.

(** The stopper's steps for one read of the program's 32 shards. *)
Definition read_shards : list life_label := replicate 32 (LStopper false).

(** One actor, poisoned in the first poll, gone by the second. *)
Definition demo_shutdown : list life_label :=
  [LUserSpawn "direct/local/a@h:1" (Some true); LForceStop; LStopper false; LStopper false;
   LStopper false] ++ read_shards ++ [LStopper false; LGone "direct/local/a@h:1" 0;
   LTick stopPollInterval; LStopper false] ++ read_shards ++ [LStopper false] ++ read_shards ++
  [LStopper false; LStopper false].

Definition demo_end (ls : list life_label) : life (list (gmap string nat)) :=
  default demo_start (life_run 10 false true ls demo_start).

Lemma demo_end_reachable ls :
  match life_run 10 false true ls demo_start with Some _ => true | None => false end = true →
  life_reachable 10 false true newRegistry 0 (demo_end ls).
Proof.
  intros H. apply (life_run_reachable 10 false true newRegistry 0 ls demo_start); [constructor|].
  by apply some_default.
Qed.

Lemma lease_outlives_activations_witness :
  life_reachable 10 false true newRegistry 0 (demo_end demo_shutdown) ∧
  quitLog (demo_end demo_shutdown) = [QWake; QStopProvider true] ∧
  m_abs (lreg (demo_end demo_shutdown)) = ∅.
Proof.
  assert (life_reachable 10 false true newRegistry 0 (demo_end demo_shutdown)) as Hr
    by (apply demo_end_reachable; vm_compute; reflexivity).
  assert (revoked (quitLog (demo_end demo_shutdown)) = true) as E1 by (vm_compute; reflexivity).
  assert (inflight (demo_end demo_shutdown) = 0%nat) as E2 by (vm_compute; reflexivity).
  assert (userSpawns (demo_end demo_shutdown) = 0%nat) as E3 by (vm_compute; reflexivity).
  assert (streams (demo_end demo_shutdown) = []) as E4 by (vm_compute; reflexivity).
  split; [exact Hr|]. split; [vm_compute; reflexivity|].
  exact (proj2 (proj2 (proj2 (proj2 (lease_outlives_activations 10 false true newRegistry 0 _ registry_wf Hr) E1)) E2 E3) E4).
Defined.

Lemma shutdown_terminates_witness :
  let x := demo_end [LForceStop; LStopper false] in
  let x' := demo_end [LForceStop; LStopper false; LStopper false; LTick 7; LStopper false] in
  life_run 10 false true [LStopper false; LTick 7; LStopper false] x = Some x' ∧
  (2 ≤ 2 * (32 + 2) * (20 * 10 + 1) + 6) ∧
  ∃ d x1 x2, 0 ≤ d ≤ stopPollInterval ∧ life_exec 10 false true (LTick d) x' = Some x1 ∧
    life_exec 10 false true (LStopper false) x1 = Some x2.
Proof.
  intros x x'.
  assert (life_reachable 10 false true newRegistry 0 x) as Hr
    by (apply demo_end_reachable; vm_compute; reflexivity).
  assert (life_run 10 false true [LStopper false; LTick 7; LStopper false] x = Some x') as E
    by (vm_compute; reflexivity).
  assert (spc x = SDrain) as Hp by (vm_compute; reflexivity).
  assert (spc x' = SPoll true 10000000007 true 1 0 []) as Hp' by (vm_compute; reflexivity).
  assert (spc x ≠ SWait) as Hw by (rewrite Hp; discriminate).
  destruct (shutdown_terminates 10 false true ltac:(lia) newRegistry 0 x x' _ Hr Hw E) as (H1 & _ & H3).
  split; [exact E|]. split; [exact H1|]. apply H3. intros d. rewrite Hp'. discriminate.
Defined.

(** The exclusions above are needed: an envelope whose handler read [draining]
    just before it was set, and whose spawn runs after the last poll, leaves a
    grain in the registry of a node that has revoked its lease. *)
Definition late_envelope : list life_label :=
  [LEnvelope "cluster/player/7" (Some true); LAct 0; LForceStop; LStopper false; LStopper false;
   LStopper false] ++ read_shards ++ [LStopper false] ++ read_shards ++ [LStopper false;
   LStopper false; LAct 0].

Lemma activation_can_slip_past_the_drain :
  life_reachable 10 false true newRegistry 0 (demo_end late_envelope) ∧
  revoked (quitLog (demo_end late_envelope)) = true ∧
  userSpawns (demo_end late_envelope) = 0%nat ∧
  lookup_proc (lreg (demo_end late_envelope)) "cluster/player/7" = Some 0%nat.
Proof.
  split; [apply demo_end_reachable; vm_compute; reflexivity|].
  split; [vm_compute; reflexivity|]. split; vm_compute; reflexivity.
Qed.

(** So are the stream writers: a notice to an asker on another node, sent after
    the last poll, registers one that nothing stops any more. *)
Definition late_notice : list life_label :=
  [LForceStop; LStopper false; LStopper false; LStopper false] ++ read_shards ++ [LStopper false] ++
  read_shards ++ [LStopper false; LStopper false; LStream "direct/write_stream/b:1@h:1"].

Lemma stream_writer_can_follow_the_drain :
  life_reachable 10 false true newRegistry 0 (demo_end late_notice) ∧
  revoked (quitLog (demo_end late_notice)) = true ∧ late (demo_end late_notice) = [] ∧
  lookup_proc (lreg (demo_end late_notice)) "direct/write_stream/b:1@h:1" = Some 0%nat.
Proof.
  split; [apply demo_end_reachable; vm_compute; reflexivity|].
  split; [vm_compute; reflexivity|]. split; vm_compute; reflexivity.
Qed.
