(* ===== verification/Schedule.v ===== *)
(** * schedule.go: timers

    [startTimer] and [sendOnce] as a small-step machine: the Go timer (armed for
    an instant, or not), the goroutine each firing starts, the goroutines that
    call the cancel function, the goroutine of [startTimer] itself, and the
    clock.  [fn] is opaque: it begins and ends.  [history] (the begins and ends
    of [fn]) and [atCancel] (how many begins the first cancel found) are ghost. *)

From S2P Require Import Prelude.
Open Scope Z_scope.

Inductive tstate : Type := stateInit | stateReady | stateDone.
#[export] Instance tstate_eq_dec : EqDecision tstate.
Proof. solve_decision. Defined.

(** The callback goroutine. *)
Inductive cb_pc : Type :=
| CSpin       (* for state == stateInit { Gosched } *)
| CCheck      (* if state == stateDone { return } *)
| CRun        (* about to call fn *)
| CFn         (* inside fn *)
| CRecheck    (* if state != stateDone *)
| CReset      (* t.Reset(interval) *)
| CEnd.
#[export] Instance cb_pc_eq_dec : EqDecision cb_pc.
Proof. solve_decision. Defined.

(** A goroutine in the cancel function. *)
Inductive k_pc : Type := KSwap | KStop | KEnd.

Record timer : Type := Timer {
  tst : tstate;
  armed : option Z;
  tnow : Z;
  cbs : list cb_pc;
  cancels : list k_pc;
  history : list (bool * Z);     (* (true, t): fn begins at t *)
  atCancel : option nat
}.

Definition begins (l : list (bool * Z)) : nat := length (filter (λ e, e.1 = true) l).
#[global] Arguments begins : simpl never.

Section timer.
(** [once] is [sendOnce]: a bare AfterFunc whose cancel is [t.Stop()]. *)
Context (once : bool) (delay interval : Z).

(** [time.AfterFunc(delay, ...)] at [t0]. *)
Definition startTimer (t0 : Z) : timer := Timer stateInit (Some (t0 + delay)) t0 [] [] [] None.

Definition cb_step (i : nat) (x : timer) : option timer :=
  let 'Timer st ar now cs ks h ac := x in
  let at_ p := <[i := p]> cs in
  match cs !! i with
  | Some CSpin =>
      if decide (st = stateInit) then None else Some (Timer st ar now (at_ CCheck) ks h ac)
  | Some CCheck =>
      Some (Timer st ar now (at_ (if decide (st = stateDone) then CEnd else CRun)) ks h ac)
  | Some CRun => Some (Timer st ar now (at_ CFn) ks (h ++ [(true, now)]) ac)
  | Some CFn =>
      Some (Timer st ar now (at_ (if once then CEnd else CRecheck)) ks (h ++ [(false, now)]) ac)
  | Some CRecheck =>
      Some (Timer st ar now (at_ (if decide (st = stateDone) then CEnd else CReset)) ks h ac)
  | Some CReset => Some (Timer st (Some (now + interval)) now (at_ CEnd) ks h ac)
  | Some CEnd | None => None
  end.

Definition cancel_step (i : nat) (x : timer) : option timer :=
  let 'Timer st ar now cs ks h ac := x in
  let at_ p := <[i := p]> ks in
  match ks !! i with
  | Some KSwap =>
      if decide (st = stateDone) then Some (Timer stateDone ar now cs (at_ KEnd) h ac)
      else Some (Timer stateDone ar now cs (at_ KStop) h (Some (begins h)))
  | Some KStop => Some (Timer st None now cs (at_ KEnd) h ac)
  | Some KEnd | None => None
  end.

Inductive timer_label : Type :=
| TTick (d : Z)
| TStore              (* startTimer stores stateReady and returns *)
| TFire
| TCallback (i : nat)
| TCancel             (* somebody calls the cancel function *)
| TCancelStep (i : nat).

Definition timer_exec (l : timer_label) (x : timer) : option timer :=
  let 'Timer st ar now cs ks h ac := x in
  match l with
  | TTick d => if decide (0 ≤ d) then Some (Timer st ar (now + d) cs ks h ac) else None
  | TStore => if decide (st = stateInit ∧ once = false)
              then Some (Timer stateReady ar now cs ks h ac) else None
  | TFire =>
      match ar with
      | Some t => if decide (t ≤ now)
                  then Some (Timer st None now (cs ++ [if once then CRun else CSpin]) ks h ac)
                  else None
      | None => None
      end
  | TCallback i => cb_step i x
  | TCancel =>
      if once then Some (Timer st ar now cs (ks ++ [KStop]) h ac)
      else if decide (st = stateInit) then None
      else Some (Timer st ar now cs (ks ++ [KSwap]) h ac)
  | TCancelStep i => cancel_step i x
  end.

Inductive timer_reachable (t0 : Z) : timer → Prop :=
| tr_init : timer_reachable t0 (startTimer t0)
| tr_step x l x' : timer_reachable t0 x → timer_exec l x = Some x' → timer_reachable t0 x'.

Fixpoint timer_run (ls : list timer_label) (x : timer) : option timer :=
  match ls with
  | [] => Some x
  | l :: ls => match timer_exec l x with Some x' => timer_run ls x' | None => None end
  end.

Lemma timer_run_reachable t0 ls x x' :
  timer_reachable t0 x → timer_run ls x = Some x' → timer_reachable t0 x'.
Proof.
  revert x. induction ls as [|l ls IH]; cbn [timer_run]; intros x Hr E; [by simplify_eq|].
  destruct (timer_exec l x) as [x1|] eqn:E1; [|done]. eapply IH; [|done]. by econstructor.
Qed.

(** ** Legal histories: begins and ends alternate, the first begin no earlier
    than the delay, a later one no earlier than an interval after the last end *)

Definition hist_step (s : option (bool * Z)) (e : bool * Z) : option (bool * Z) :=
  match s, e with
  | Some (false, next), (true, t) => if decide (next ≤ t) then Some (true, next) else None
  | Some (true, _), (false, t) => Some (false, t + interval)
  | _, _ => None
  end.

Definition hist (t0 : Z) (l : list (bool * Z)) : option (bool * Z) :=
  foldl hist_step (Some (false, t0 + delay)) l.

Lemma hist_snoc t0 l e : hist t0 (l ++ [e]) = hist_step (hist t0 l) e.
Proof. unfold hist. by rewrite foldl_app. Qed.

Lemma begins_begin l t : begins (l ++ [(true, t)]) = S (begins l).
Proof.
  unfold begins. rewrite filter_app, length_app, filter_cons, filter_nil.
  rewrite decide_True by done. cbn [length]. lia.
Qed.
Lemma begins_end l t : begins (l ++ [(false, t)]) = begins l.
Proof. unfold begins. by rewrite filter_app, length_app, filter_cons, filter_nil, Nat.add_0_r. Qed.

(** What a live callback knows. *)
Definition cb_ok (t0 now : Z) (h : list (bool * Z)) (p : cb_pc) : Prop :=
  ∃ running next, hist t0 h = Some (running, next) ∧
  match p with
  | CSpin | CCheck | CRun => running = false ∧ next ≤ now
  | CFn => running = true
  | CRecheck | CReset => running = false ∧ next ≤ now + interval
  | CEnd => False
  end.

(** Which callback, if any, is live. *)
Definition all_ended (cs : list cb_pc) : Prop := ∀ i p, cs !! i = Some p → p = CEnd.

Record timer_ok (t0 : Z) (x : timer) : Prop := {
  to_live : ∀ i p, cbs x !! i = Some p → p ≠ CEnd →
    armed x = None ∧ cb_ok t0 (tnow x) (history x) p ∧
    (p = CRecheck ∨ p = CReset → once = false) ∧
    ∀ j q, j ≠ i → cbs x !! j = Some q → q = CEnd;
  to_idle : all_ended (cbs x) → ∃ next, hist t0 (history x) = Some (false, next) ∧
    ∀ t, armed x = Some t → next ≤ t;
  to_once : once = true → (begins (history x) = 0%nat ∧ tst x = stateInit) ∨
    (begins (history x) = 1%nat ∧ tst x = stateInit ∧ armed x = None ∧
     ∀ i p, cbs x !! i = Some p → p = CFn ∨ p = CEnd);
  to_stop : once = true → ∀ i, cancels x !! i ≠ Some KSwap;
  to_done : tst x = stateDone ↔ is_Some (atCancel x);
  to_cancel : ∀ k, atCancel x = Some k →
    begins (history x) = k ∨
    (begins (history x) = S k ∧ ∀ i, cbs x !! i ≠ Some CRun)
}.

Lemma all_ended_dec cs : all_ended cs ∨ ∃ i p, cs !! i = Some p ∧ p ≠ CEnd.
Proof.
  destruct (decide (Exists (λ p, p ≠ CEnd) cs)) as [H|H].
  - right. apply Exists_exists in H as (p & Hin & Hp). apply list_elem_of_lookup in Hin as [i Hi].
    by exists i, p.
  - left. intros i p Hi. destruct (decide (p = CEnd)) as [|Hp]; [done|]. destruct H.
    apply Exists_exists. exists p. split; [|done]. by eapply list_elem_of_lookup_2.
Qed.

(** Callback [i] moves to [p']; everything else about it is one fact. *)
Lemma timer_ok_cb t0 st ar ar' now cs ks h h' ac i p p' :
  timer_ok t0 (Timer st ar now cs ks h ac) →
  cs !! i = Some p → p ≠ CEnd →
  (p' ≠ CEnd → ar' = None ∧ cb_ok t0 now h' p' ∧ (p' = CRecheck ∨ p' = CReset → once = false)) →
  (p' = CEnd → ∃ next, hist t0 h' = Some (false, next) ∧ ∀ t, ar' = Some t → next ≤ t) →
  (once = true → (begins h' = 0%nat ∧ st = stateInit) ∨
     (begins h' = 1%nat ∧ st = stateInit ∧ ar' = None ∧ (p' = CFn ∨ p' = CEnd))) →
  (∀ k, ac = Some k → begins h' = k ∨ (begins h' = S k ∧ p' ≠ CRun)) →
  timer_ok t0 (Timer st ar' now (<[i := p']> cs) ks h' ac).
Proof.
  intros [L I O S D C] Hi Hp Hlive Hend Honce Hcan.
  destruct (L i p Hi Hp) as (_ & _ & _ & Hoth). cbn in *.
  assert (i < length cs)%nat as Hlen by by eapply lookup_lt_Some.
  assert (∀ j q, <[i:=p']> cs !! j = Some q → (j = i ∧ q = p') ∨ (j ≠ i ∧ q = CEnd)) as Hcs.
  { intros j q. destruct (decide (j = i)) as [->|Hne].
    - rewrite list_lookup_insert_eq by done. intros [= ->]. by left.
    - rewrite list_lookup_insert_ne by done. right. split; [done|]. by eapply Hoth. }
  split; cbn.
  - intros j q Hj Hq. destruct (Hcs j q Hj) as [[-> ->]|[_ ->]]; [|done].
    destruct (Hlive Hq) as (H1 & H2 & H3). split_and!; try done.
    intros j q Hne Hj'. by destruct (Hcs j q Hj') as [[-> _]|[_ ->]].
  - intros Hall. apply Hend. apply (Hall i). by rewrite list_lookup_insert_eq.
  - intros Ho. destruct (Honce Ho) as [?|(? & ? & ? & Hp')]; [by left|right]. split_and!; try done.
    intros j q Hj. destruct (Hcs j q Hj) as [[_ ->]|[_ ->]]; [done|by right].
  - done.
  - done.
  - intros k Hk. destruct (Hcan k Hk) as [?|[? Hp']]; [by left|right]. split; [done|].
    intros j Hj. destruct (Hcs j CRun Hj) as [[_ ?]|[_ ?]]; [by subst|done].
Qed.

(** A one-shot timer whose callback has not run the function is untouched. *)
Lemma timer_not_begun t0 x i p : timer_ok t0 x → cbs x !! i = Some p → p ≠ CFn → p ≠ CEnd →
  once = true → begins (history x) = 0%nat ∧ tst x = stateInit.
Proof.
  intros H Hi H1 H2 Ho. destruct (to_once _ _ H Ho) as [?|(_ & _ & _ & Hall)]; [done|].
  by destruct (Hall i p Hi).
Qed.

(** The count at a cancel stands while a callback goes to [p], which is [CRun]
    only when nothing was cancelled. *)
Lemma timer_cancelled t0 x p : timer_ok t0 x → (tst x = stateDone → p ≠ CRun) →
  ∀ k, atCancel x = Some k → begins (history x) = k ∨ (begins (history x) = S k ∧ p ≠ CRun).
Proof.
  intros H Hp k Hk. destruct (to_cancel _ _ H k Hk) as [?|[? _]]; [by left|right].
  split; [done|]. apply Hp, (to_done _ _ H). by exists k.
Qed.

(** A step of the callback that leaves the history as it was. *)
Lemma timer_ok_quiet t0 st ar' now cs ks h ac i p p' :
  let x := Timer st None now cs ks h ac in
  timer_ok t0 x → cs !! i = Some p → p ≠ CFn → p ≠ CEnd → (st = stateDone → p' ≠ CRun) →
  (p' ≠ CEnd → ar' = None ∧ cb_ok t0 now h p' ∧ (p' = CRecheck ∨ p' = CReset → once = false)) →
  (p' = CEnd → ∃ next, hist t0 h = Some (false, next) ∧ ∀ t, ar' = Some t → next ≤ t) →
  timer_ok t0 (Timer st ar' now (<[i := p']> cs) ks h ac).
Proof.
  intros x H Hi H1 H2 Hrun Hlive Hend. eapply timer_ok_cb; [exact H|exact Hi|done|done|done|..].
  - intros Ho. left. by apply (timer_not_begun t0 x i p).
  - by apply (timer_cancelled t0 x p' H).
Qed.

(** The function is called, *)
Lemma timer_ok_begin t0 st now cs ks h ac i next :
  let x := Timer st None now cs ks h ac in
  timer_ok t0 x → cs !! i = Some CRun → hist t0 h = Some (false, next) → next ≤ now →
  timer_ok t0 (Timer st None now (<[i := CFn]> cs) ks (h ++ [(true, now)]) ac).
Proof.
  intros x H Hi Eh Hn. eapply timer_ok_cb; [exact H|exact Hi|done|..].
  - intros _. split_and!; [done| |naive_solver]. exists true, next. split; [|done].
    rewrite hist_snoc, Eh. cbn. by rewrite decide_True.
  - done.
  - intros Ho. destruct (timer_not_begun t0 x i CRun H Hi) as [Hb Hst]; [done..|]. cbn in *.
    rewrite begins_begin. right. split_and!; [congruence|done|done|by left].
  - intros k Hk. rewrite begins_begin. destruct (to_cancel _ _ H k Hk) as [?|[_ Hno]]; cbn in *.
    + right. split; [congruence|done].
    + by destruct (Hno i).
Qed.

(** ... and returns. *)
Lemma timer_ok_end t0 st ar now cs ks h ac i next : let x := Timer st ar now cs ks h ac in
  let p' := if once then CEnd else CRecheck in
  timer_ok t0 x → cs !! i = Some CFn → ar = None → hist t0 h = Some (true, next) →
  timer_ok t0 (Timer st ar now (<[i := p']> cs) ks (h ++ [(false, now)]) ac).
Proof.
  intros x p' H Hi -> Eh. assert (hist t0 (h ++ [(false, now)]) = Some (false, now + interval)) as Eh'
    by by rewrite hist_snoc, Eh.
  eapply timer_ok_cb; [exact H|exact Hi|done|..]; subst p'.
  - intros Hp'. destruct once; [done|]. split_and!; [done| |done].
    exists false, (now + interval). split; [done|]. split; [done|lia].
  - intros _. by exists (now + interval).
  - intros Ho. rewrite begins_end, Ho.
    destruct (to_once _ _ H Ho) as [?|(? & ? & ? & _)]; [by left|right]. split_and!; try done. by right.
  - intros k Hk. rewrite begins_end. apply (timer_cancelled t0 x _ H); [by destruct once|done].
Qed.

Lemma timer_ok_cb_step t0 i x x' : timer_ok t0 x → cb_step i x = Some x' → timer_ok t0 x'.
Proof.
  intros H E. destruct x as [st ar now cs ks h ac]. cbn in E.
  destruct (cs !! i) as [p|] eqn:Hi; [|done]. assert (p ≠ CEnd) as Hp by by destruct p.
  destruct (to_live _ _ H i p Hi Hp) as (Har & (running & next & Eh & Hpc) & Honce & _).
  cbn in Har, Eh. subst ar. destruct p; cbn in Hpc; try done.
  - destruct Hpc as [-> Hn]. case_decide; [done|]. injection E as <-.
    eapply timer_ok_quiet; try done. intros _. split_and!; [done|by exists false, next|naive_solver].
  - destruct Hpc as [-> Hn]. injection E as <-. eapply timer_ok_quiet; try done; case_decide; try done.
    + intros _. split_and!; [done|by exists false, next|naive_solver].
    + intros _. by exists next.
  - destruct Hpc as [-> Hn]. injection E as <-. by eapply timer_ok_begin.
  - injection E as <-. subst running. by eapply timer_ok_end.
  - destruct Hpc as [-> Hn]. injection E as <-. eapply timer_ok_quiet; try done; case_decide; try done.
    + intros _. split_and!; [done|by exists false, next|intros _; apply Honce; by left].
    + intros _. by exists next.
  - destruct Hpc as [-> Hn]. injection E as <-. eapply timer_ok_quiet; try done. intros _. exists next. split; [done|]. by intros t [= <-].
Qed.

Lemma cb_ok_later t0 now d h p : 0 ≤ d → cb_ok t0 now h p → cb_ok t0 (now + d) h p.
Proof.
  intros Hd (running & next & E & H). exists running, next. split; [done|].
  destruct p; try done; split; try apply H; destruct H; lia.
Qed.

Lemma timer_ok_cancel_step t0 i x x' : timer_ok t0 x → cancel_step i x = Some x' → timer_ok t0 x'.
Proof.
  intros [L I O S D C] E. destruct x as [st ar now cs ks h ac]. cbn in *.
  destruct (ks !! i) as [[| |]|] eqn:Hi; try done.
  - assert (once = false) as Ho by (destruct once; [by destruct (S eq_refl i)|done]).
    assert (∀ st' ac' ks', (st' = stateDone ↔ is_Some ac') →
      (∀ k, ac' = Some k → begins h = k ∨ (begins h = Datatypes.S k ∧ ∀ i, cs !! i ≠ Some CRun)) →
      timer_ok t0 (Timer st' ar now cs ks' h ac')) as Hgo.
    { intros st' ac' ks' D' C'. split; cbn; try done; congruence. }
    case_decide; injection E as <-; apply Hgo.
    + by rewrite <-D.
    + done.
    + split; [by eexists|done].
    + intros k [= <-]. by left.
  - injection E as <-. split; cbn; try done.
    + intros j p Hj Hp. destruct (L j p Hj Hp) as (_ & H). done.
    + intros Ha. destruct (I Ha) as (next & En & _). by exists next.
    + intros Ho. destruct (O Ho) as [?|(? & ? & ? & ?)]; [by left|by right].
    + intros Ho j Hj. destruct (decide (j = i)) as [->|Hne].
      * rewrite list_lookup_insert_eq in Hj by (by eapply lookup_lt_Some). done.
      * rewrite list_lookup_insert_ne in Hj by done. by eapply S.
Qed.

Lemma timer_ok_fire t0 now st t cs ks h ac : t ≤ now →
  timer_ok t0 (Timer st (Some t) now cs ks h ac) →
  timer_ok t0 (Timer st None now (cs ++ [if once then CRun else CSpin]) ks h ac).
Proof.
  intros Ht [L I O S D C]. cbn in *.
  assert (all_ended cs) as Ha.
  { destruct (all_ended_dec cs) as [?|(i & p & Hi & Hp)]; [done|].
    destruct (L i p Hi Hp) as [? _]. done. }
  destruct (I Ha) as (next & En & Hn). specialize (Hn t eq_refl).
  set (p0 := if once then CRun else CSpin).
  assert (∀ j q, (cs ++ [p0]) !! j = Some q → (j = length cs ∧ q = p0) ∨ q = CEnd) as Hcs.
  { intros j q Hj. apply lookup_app_Some in Hj as [Hj|[Hlen Hj]]; [right; by eapply Ha|left].
    apply list_lookup_singleton_Some in Hj as [Hj <-]. split; [lia|done]. }
  assert (p0 ≠ CEnd) as Hp0 by (unfold p0; by destruct once).
  split; cbn.
  - intros i p Hi Hp. destruct (Hcs i p Hi) as [[-> ->]|?]; [|done]. split_and!; [done| | |].
    + exists false, next. split; [done|]. unfold p0. destruct once; split; try done; lia.
    + unfold p0. by destruct once; intros [?|?].
    + intros j q Hne Hj. by destruct (Hcs j q Hj) as [[-> _]|?].
  - intros Hall. destruct Hp0. apply (Hall (length cs)). by rewrite lookup_app_r, Nat.sub_diag.
  - intros Ho. destruct (O Ho) as [?|(? & ? & ? & ?)]; [by left|done].
  - done.
  - done.
  - intros k Hk. assert (st = stateDone) as Hst by (apply D; by exists k).
    assert (once = false) as Ho.
    { destruct once; [|done]. destruct (O eq_refl) as [[_ ?]|(_ & ? & _)]; congruence. }
    destruct (C k Hk) as [?|[? Hno]]; [by left|right]. split; [done|].
    intros j Hj. destruct (Hcs j CRun Hj) as [[_ Hq]|?]; [|done]. unfold p0 in Hq. by rewrite Ho in Hq.
Qed.

Lemma timer_ok_exec t0 l x x' : timer_ok t0 x → timer_exec l x = Some x' → timer_ok t0 x'.
Proof.
  intros H E. pose proof H as [L I O S D C]. destruct x as [st ar now cs ks h ac].
  cbn in L, I, O, S, D, C. destruct l as [d| | |i| |i]; cbn [timer_exec] in E.
  - case_decide as Hd; [|done]. injection E as <-. split; cbn; try done.
    intros i p Hi Hp. destruct (L i p Hi Hp) as (H1 & H2 & H3 & H4). split_and!; try done.
    by apply cb_ok_later.
  - case_decide as Hs; [|done]. injection E as <-. destruct Hs as [-> Ho].
    split; cbn; try done; try congruence. rewrite <-D. done.
  - destruct ar as [t|]; [|done]. case_decide as Hd; [|done]. injection E as <-.
    apply (timer_ok_fire t0 now st t); [exact Hd|exact H].
  - by eapply timer_ok_cb_step.
  - assert (∃ k, x' = Timer st ar now cs (ks ++ [k]) h ac ∧ (once = true → k = KStop))
      as (k & -> & Hk).
    { destruct once; [injection E as <-; by exists KStop|].
      case_decide; [done|]. injection E as <-. by exists KSwap. }
    split; cbn; try done. intros Ho i Hi.
    apply lookup_app_Some in Hi as [Hi|[_ Hi]]; [by eapply S|].
    apply list_lookup_singleton_Some in Hi as [_ ?]. by rewrite Hk in *.
  - by eapply timer_ok_cancel_step.
Qed.

Lemma timer_ok_reachable t0 x : timer_reachable t0 x → timer_ok t0 x.
Proof.
  induction 1 as [|x l x' _ IH E]; [|by eapply timer_ok_exec].
  split; cbn; try done.
  - intros _. exists (t0 + delay). split; [done|]. by intros t [= <-].
  - by left.
Qed.

(** [C31] Timers never overlap, never run early, and stop.  In every
    interleaving of firings, callbacks, cancels and the return of [startTimer]:
    at most one callback goroutine is live, and none while the timer is armed;
    so [fn] runs strictly one at a time, first no earlier than the delay and
    each time at least an interval after it last ended.  Once any cancel has
    swapped the state in, at most one more [fn] begins.  A [sendOnce] timer
    begins its send at most once. *)
Theorem timer_serial (t0 : Z) (x : timer) (Hx : timer_reachable t0 x) :
  is_Some (hist t0 (history x)) ∧
  (∀ i j p q, cbs x !! i = Some p → cbs x !! j = Some q → p ≠ CEnd → q ≠ CEnd → i = j) ∧
  (∀ i p, cbs x !! i = Some p → p ≠ CEnd → armed x = None) ∧
  (∀ k, atCancel x = Some k → (k ≤ begins (history x) ≤ k + 1)%nat) ∧
  (once = true → (begins (history x) ≤ 1)%nat).
Proof.
  destruct (timer_ok_reachable t0 x Hx) as [L I O S D C]. split_and!.
  - destruct (all_ended_dec (cbs x)) as [Ha|(i & p & Hi & Hp)].
    + destruct (I Ha) as (next & -> & _). by eexists.
    + destruct (L i p Hi Hp) as (_ & (r & next & -> & _) & _). by eexists.
  - intros i j p q Hi Hj Hp Hq. destruct (decide (j = i)) as [|Hne]; [done|].
    destruct (L i p Hi Hp) as (_ & _ & _ & Hoth). by destruct (Hoth j q Hne Hj).
  - intros i p Hi Hp. by destruct (L i p Hi Hp) as [? _].
  - intros k Hk. destruct (C k Hk) as [?|[? _]]; lia.
  - intros Ho. destruct (O Ho) as [[? _]|(? & _)]; lia.
Qed.
End timer.

(** A timer cancelled between two checks of its callback: [fn] begins once more,
    after the cancel function has returned. *)
Definition late_fn : list timer_label :=
  [TStore; TTick 5; TFire; TCallback 0; TCallback 0; TCancel; TCancelStep 0; TCancelStep 0;
   TCallback 0; TCallback 0; TCallback 0].

Lemma timer_serial_witness :
  ∃ x, timer_run false 10 late_fn (startTimer 5 0) = Some x ∧
    cancels x = [KEnd] ∧ atCancel x = Some 0%nat ∧ (0 ≤ begins (history x) ≤ 0 + 1)%nat ∧
    history x = [(true, 5); (false, 5)].
Proof.
  destruct (timer_run false 10 late_fn (startTimer 5 0)) as [x|] eqn:E;
    [|vm_compute in E; discriminate E].
  pose proof (timer_run_reachable false 5 10 0 late_fn _ x (tr_init _ _ _ _) E) as Hr.
  vm_compute in E. injection E as <-. eexists. split; [reflexivity|].
  split; [reflexivity|]. split; [reflexivity|]. split; [|reflexivity].
  exact (proj1 (proj2 (proj2 (proj2 (timer_serial false 5 10 0 _ Hr)))) 0%nat eq_refl).
Defined.
