(* ===== verification/Stream.v ===== *)
(** * stream_write.go and remote/stream_server.go: one node talking to another

    The write-stream actor turns each context it receives into an envelope on a
    grpc stream, or into a dead letter; the server's [Listen] loop hands what
    arrives to [RecvEnvelope].  The outcomes of grpc calls are arguments. *)

From S2P Require Import Prelude.
From S2P Require Import GoStrings.
From S2P Require Import ActorId.
From S2P Require Import ErrCode.
From S2P Require Import Config.
From S2P Require Import Messages.
From S2P Require Import SafeMap.
From S2P Require Import Routing.
From S2P Require Import System.
Open Scope Z_scope.

(** [conn] and [remote] are whether the fields are non-nil. *)
Record streamWriteActor : Type := StreamWriteActor {
  router : ActorRef;
  saddress : string;
  sself : ActorRef;
  conn : bool;
  remote : bool
}.

Definition newStreamWriterActor (self router : ActorRef) (address : string) : streamWriteActor :=
  StreamWriteActor router address self false false.

Inductive stream_effect (U : Type) : Type :=
| WSend (env : Envelope)             (* written to the stream *)
| WCloseSend
| WCloseConn
| WRecvLoop                          (* the goroutine that waits for the stream's end *)
| WPoisonSelf
| WTell (to : ActorRef) (m : Message U)
| WDead (dl : DeadLetter U).
Arguments WSend {U} env.
Arguments WCloseSend {U}.
Arguments WCloseConn {U}.
Arguments WRecvLoop {U}.
Arguments WPoisonSelf {U}.
Arguments WTell {U} to m.
Arguments WDead {U} dl.

(** How a Recv returns: an envelope (or nil without an error), or an error. *)
Inductive recv_result : Type :=
| RecvEnv (env : option Envelope)
| RecvEOF
| RecvCanceled
| RecvErr.

Section stream.
Context {U : Type} {Codec : ProtoCodec U}.
(** [err.Error()] of a failed Marshal. *)
Context (marshal_error : Message U → string).
Implicit Types (x : streamWriteActor) (c : Ctx U).

Definition Started (dials listens : bool) x : list (stream_effect U) * streamWriteActor :=
  if negb dials then ([WPoisonSelf], x)
  else if negb listens then ([WCloseConn; WPoisonSelf], x)
  else ([WRecvLoop], StreamWriteActor (router x) (saddress x) (sself x) true true).

(** The goroutine of [Started]: whatever Recv returns, it stops the actor. *)
Definition recv_loop (r : recv_result) : list (stream_effect U) := [WPoisonSelf].

(** Errors of CloseSend and Close are only logged. *)
Definition PreStop x : list (stream_effect U) * streamWriteActor :=
  ((if remote x then [WCloseSend] else []) ++ (if conn x then [WCloseConn] else []),
   StreamWriteActor (router x) (saddress x) (sself x) false false).

Definition deadLetter c (reason : string) x : list (stream_effect U) :=
  match csender c with
  | Some s => if isAsk s then [WTell s (MErrCode (WithErr ("send to remote failed: " +:+ reason)))] else []
  | None => []
  end ++ [WDead (MkDeadLetter (ctarget c) (Some (sself x)) (csender c) (cmessage c) (cmsgSnId c) reason)].

(** [sent] is whether [remote.Send] succeeds. *)
Definition sendToRemote c (msg : Envelope) (sent : bool) x : list (stream_effect U) :=
  if sent then [WSend msg]
  else deadLetter c DeadLetterReasonUnreachable x ++
       (if conn x then [WCloseConn] else []) ++ [WPoisonSelf].

Definition Receive c (sent : bool) x : list (stream_effect U) * streamWriteActor :=
  if negb (remote x) then (deadLetter c DeadLetterReasonUnreachable x, x)
  else
    let msg := cmessage c in
    let msgName := MessageName msg in
    match Marshal msg with
    | None => (deadLetter c ("proto marshal failed: " +:+ marshal_error msg) x, x)
    | Some content =>
        let sender := match csender c with Some s => GetId s | None => EmptyString end in
        (sendToRemote c (MkEnvelope sender (GetId (ctarget c)) (cmsgSnId c) msgName content) sent x, x)
    end.

(** The writer's handlers over a run of contexts. *)
Fixpoint Receive_all (cs : list (Ctx U * bool)) x : list (stream_effect U) * streamWriteActor :=
  match cs with
  | [] => ([], x)
  | (c, sent) :: cs =>
      let '(e1, x) := Receive c sent x in
      let '(e2, x) := Receive_all cs x in (e1 ++ e2, x)
  end.

(** What the peer's stream carries. *)
Definition written (effs : list (stream_effect U)) : list Envelope :=
  effs ≫= λ e, match e with WSend env => [env] | _ => [] end.
End stream.

(** [RpcService.Listen] over what Recv yields: the envelopes handed to the
    receiver, and the result ([Some false] is nil, [Some true] an error), or
    [None] while it is still waiting. *)
Fixpoint Listen (rs : list recv_result) : list Envelope * option bool :=
  match rs with
  | [] => ([], None)
  | RecvEOF :: _ | RecvCanceled :: _ => ([], Some false)
  | RecvErr :: _ => ([], Some true)
  | RecvEnv None :: rs => Listen rs
  | RecvEnv (Some env) :: rs => let '(l, r) := Listen rs in (env :: l, r)
  end.

(** ** The server's address (stream_server.go) *)

(** [NewRpcServer]'s default. *)
Definition listen_addr (listenAddr : string) : string :=
  if decide (listenAddr = "") then ":0" else listenAddr.

(** [net.SplitHostPort]. *)
Inductive addr_error : Type :=
| MissingPort | TooManyColons | MissingBracket | UnexpectedOpen | UnexpectedClose.

Definition slice_str (s : string) (i j : Z) : string := str_take (Z.to_nat (j - i)) (str_drop (Z.to_nat i) s).
Definition slice_from (s : string) (i : Z) : string := str_drop (Z.to_nat i) s.

Definition SplitHostPort (hostport : string) : (string * string) + addr_error :=
  let i := LastIndexByte hostport ":" in
  if decide (i < 0) then inr MissingPort else
  let finish host j k :=
    if decide (0 ≤ IndexByte (slice_from hostport j) "[") then inr UnexpectedOpen
    else if decide (0 ≤ IndexByte (slice_from hostport k) "]") then inr UnexpectedClose
    else inl (host, slice_from hostport (i + 1)) in
  match hostport with
  | String c _ =>
      if decide (c = "["%char) then
        let end_ := IndexByte hostport "]" in
        if decide (end_ < 0) then inr MissingBracket
        else if decide (end_ + 1 = Z.of_nat (String.length hostport)) then inr MissingPort
        else if decide (end_ + 1 = i) then finish (slice_str hostport 1 end_) 1 (end_ + 1)
        else if decide (String.get (Z.to_nat (end_ + 1)) hostport = Some ":"%char) then inr TooManyColons
        else inr MissingPort
      else
        let host := slice_str hostport 0 i in
        if decide (0 ≤ IndexByte host ":") then inr TooManyColons else finish host 0 0
  | EmptyString => inr MissingPort
  end.

(** [net.JoinHostPort]. *)
Definition JoinHostPort (host port : string) : string :=
  if decide (0 ≤ IndexByte host ":") then "[" +:+ host +:+ "]:" +:+ port
  else host +:+ ":" +:+ port.

(** [advertiseHost]; [topInnerIP] is gonet.GetTopInnerIP, already a string. *)
Definition advertiseHost (listenAddr : string) (topInnerIP : option string) : string :=
  let fallback := match topInnerIP with Some ip => ip | None => "127.0.0.1" end in
  match SplitHostPort listenAddr with
  | inl (host, _) =>
      if decide (host ≠ "" ∧ host ≠ "0.0.0.0" ∧ host ≠ "::") then host else fallback
  | inr _ => fallback
  end.

(** [RpcService.Start]: [bound] is the listener's own address, or a failure to
    bind; the result is the address peers are told. *)
Definition start_addr (listenAddr : string) (topInnerIP : option string) (bound : option string)
    : option string :=
  match bound with
  | None => None
  | Some lis =>
      match SplitHostPort lis with
      | inr _ => None
      | inl (_, port) => Some (JoinHostPort (advertiseHost listenAddr topInnerIP) port)
      end
  end.
