(* ===== verification/RpcService.v ===== *)
(** * remote/stream_server.go: the grpc server of a node, and its failure

    [RpcService]'s Start, Serve goroutine and Stop as labelled steps beside the
    shutdown of Life.v: [onFatal] is the system's [ForceStop], and
    [WaitStopSignal] calls [Stop].  What grpc's Serve may return is a parameter:
    [may_return stopped e] says whether it can return [e] once the server has
    been stopped or not.  [fatals] (calls of [onFatal]) is ghost. *)

From S2P Require Import Prelude.
From S2P Require Import SafeMap.
From S2P Require Import Registry.
From S2P Require Import Life.
From S2P Require Import LifeThms.
From S2P Require Import System.
From S2P Require Import Stream.
Open Scope Z_scope.

(** What [gs.Serve(lis)] returns. *)
Inductive serve_error : Type := ServeNil | ErrServerStopped | ServeEOF | ServeFailed (err : string).

(** [err == nil || errors.Is(err, grpc.ErrServerStopped) || err == io.EOF]. *)
Definition benign (e : serve_error) : bool :=
  match e with ServeNil | ErrServerStopped | ServeEOF => true | ServeFailed _ => false end.

(** [gs] is whether the field is non-nil; [gsStopped] is the server object's own
    state, which the Serve goroutine shares. *)
Record RpcService : Type := MkRpcService {
  listenAddr : string;
  addr_ : string;
  gs : bool;
  gsStopped : bool;
  serving : bool;
  fatals : nat
}.

(** [NewRpcServer]. *)
Definition NewRpcServer (listen : string) : RpcService :=
  MkRpcService (listen_addr listen) "" false false false 0.

(** [Start]: [None] is the error it returns, with nothing left open. *)
Definition Start (inner bound : option string) (x : RpcService) : option RpcService :=
  match start_addr (listenAddr x) inner bound with
  | None => None
  | Some a => Some (MkRpcService (listenAddr x) a true false true (fatals x))
  end.

(** The end of the Serve goroutine; the flag says that [onFatal] is called. *)
Definition serve_returns (e : serve_error) (x : RpcService) : bool * RpcService :=
  if benign e then (false, MkRpcService (listenAddr x) (addr_ x) (gs x) (gsStopped x) false (fatals x))
  else (true, MkRpcService (listenAddr x) (addr_ x) (gs x) (gsStopped x) false (S (fatals x))).

Definition Stop (x : RpcService) : RpcService :=
  if gs x then MkRpcService (listenAddr x) (addr_ x) false true (serving x) (fatals x) else x.

Definition Addr (x : RpcService) : string := addr_ x.

(** [recvEnvelope]: the receiver's panic is recovered and logged; the receiver
    says whether it panicked, and [Listen]'s loop goes on either way. *)
Definition recvEnvelope {S : Type} (iRpcReceiver : Envelope → S → S * bool) (env : Envelope) (s : S) : S :=
  (iRpcReceiver env s).1.
Definition Listen_run {S : Type} (iRpcReceiver : Envelope → S → S * bool) (rs : list recv_result) (s : S)
    : S * option bool :=
  let '(envs, r) := Listen rs in (foldl (λ s env, recvEnvelope iRpcReceiver env s) s envs, r).

Section node.
Context {M : Type} {MI : MapImpl M string nat}.
Context (stopWaitTimeSecond : Z) (hasBefore hasAfter : bool).
Context (may_return : bool → serve_error → bool).

(** A node that has started, with the goroutine in [WaitStopSignal]. *)
Record served : Type := Served { rpc : RpcService; shut : life M }.

Inductive serve_label : Type :=
| VServe (e : serve_error)       (* the Serve goroutine's call returns *)
| VLife (l : life_label).

(** [rpcService.Stop()] is the stopper's step at [SRpc]. *)
Definition stops_rpc (l : life_label) (x : life M) : bool :=
  match l, spc x with LStopper _, SRpc _ => true | _, _ => false end.

Definition serve_exec (l : serve_label) (v : served) : option served :=
  match l with
  | VServe e =>
      if serving (rpc v) && may_return (gsStopped (rpc v)) e then
        let '(fatal, r) := serve_returns e (rpc v) in
        Some (Served r (if fatal then ForceStop (shut v) else shut v))
      else None
  | VLife l =>
      match life_exec stopWaitTimeSecond hasBefore hasAfter l (shut v) with
      | Some x => Some (Served (if stops_rpc l (shut v) then Stop (rpc v) else rpc v) x)
      | None => None
      end
  end.

Fixpoint serve_run (ls : list serve_label) (v : served) : option served :=
  match ls with
  | [] => Some v
  | l :: ls => match serve_exec l v with Some v' => serve_run ls v' | None => None end
  end.

Inductive serve_reachable (r : M) (t : Z) (x0 : RpcService) : served → Prop :=
| sr_init : serve_reachable r t x0 (Served x0 (life_initial r t))
| sr_step v l v' : serve_reachable r t x0 v → serve_exec l v = Some v' → serve_reachable r t x0 v'.

Lemma serve_run_reachable r t x0 ls v v' :
  serve_reachable r t x0 v → serve_run ls v = Some v' → serve_reachable r t x0 v'.
Proof.
  revert v. induction ls as [|l ls IH]; cbn [serve_run]; intros v Hr E; [by simplify_eq|].
  destruct (serve_exec l v) as [v1|] eqn:E1; [|done]. eapply IH; [|done]. by econstructor.
Qed.

(** ** Invariant *)

(** The node's part of a step is a step of the shutdown machine, or none. *)
Lemma serve_exec_life l v v' : serve_exec l v = Some v' →
  shut v' = shut v ∨ ∃ l', life_exec stopWaitTimeSecond hasBefore hasAfter l' (shut v) = Some (shut v').
Proof.
  unfold serve_exec. destruct l as [e|l].
  - destruct (serving (rpc v) && may_return (gsStopped (rpc v)) e); [|done].
    unfold serve_returns. destruct (benign e); intros [= <-]; [by left|]. right. by exists LForceStop.
  - destruct (life_exec _ _ _ l (shut v)) as [x|] eqn:E; [|done]. intros [= <-]. right. by exists l.
Qed.

Lemma serve_reachable_life r t x0 v : serve_reachable r t x0 v →
  life_reachable stopWaitTimeSecond hasBefore hasAfter r t (shut v).
Proof.
  induction 1 as [|v l v' _ IH E]; [constructor|].
  destruct (serve_exec_life l v v' E) as [->|[l' El]]; [done|]. by econstructor.
Qed.

Record serve_ok (v : served) : Prop := {
  vo_once : (fatals (rpc v) + (if serving (rpc v) then 1 else 0) ≤ 1)%nat;
  vo_pending : (0 < fatals (rpc v))%nat → spc (shut v) = SWait → forceClose (shut v) = true
}.

Lemma Stop_frame x : serving (Stop x) = serving x ∧ fatals (Stop x) = fatals x.
Proof. unfold Stop. by destruct (gs x). Qed.

(** The stopper never returns to its select. *)
Lemma stopper_leaves_wait sg (x x' : life M) :
  stopper_step stopWaitTimeSecond hasBefore hasAfter sg x = Some x' → spc x' ≠ SWait.
Proof.
  unfold stopper_step. destruct (spc x).
  - destruct sg; [|destruct (forceClose x); [|done]]; by intros [= <-].
  - by intros [= <-].
  - by intros [= <-].
  - by intros [= <-].
  - case_decide; [by intros [= <-]|]. destruct (poll first snapshot x) as [l y]. unfold phase_end.
    repeat case_decide; intros [= <-]; by destruct first.
  - case_decide; [|done]. by intros [= <-].
  - by intros [= <-].
  - by intros [= <-].
  - by intros [= <-].
  - done.
Qed.

(** Only leaving the select takes the token. *)
Lemma life_exec_wait l (x x' : life M) :
  life_exec stopWaitTimeSecond hasBefore hasAfter l x = Some x' → spc x' = SWait →
  spc x = SWait ∧ (forceClose x = true → forceClose x' = true).
Proof.
  intros E Hw. destruct l as [sg| |d|id o|i|id o|id|id p]; cbn [life_exec] in E.
  - by apply stopper_leaves_wait in E.
  - by injection E as <-.
  - case_decide; [|done]. by injection E as <-.
  - by injection E as <-.
  - unfold act_step in E. destruct (acts x !! i) as [[id o|id o|]|]; [..|done|done]; injection E as <-; [done|].
    revert Hw. unfold spawn. by destruct (register _ _ _) as [[? ?] ?].
  - injection E as <-. revert Hw. cbn. unfold spawn. by destruct (register _ _ _) as [[? ?] ?].
  - destruct (stream_id id); [|done]. injection E as <-.
    destruct (spawn_stream_frame id x) as (F1 & _ & F3). by rewrite F1, F3 in *.
  - by injection E as <-.
Qed.

Lemma serve_ok_exec l v v' : serve_ok v → serve_exec l v = Some v' → serve_ok v'.
Proof.
  intros [H1 H2] E. unfold serve_exec in E. destruct l as [e|l].
  - destruct (serving (rpc v)) eqn:Hs; [|done]. destruct (may_return (gsStopped (rpc v)) e); [|done].
    unfold serve_returns in E. cbn [andb] in E.
    destruct (benign e); injection E as <-; split; cbn in *; try lia; try done.
  - destruct (life_exec _ _ _ l (shut v)) as [x|] eqn:El; [|done]. injection E as <-.
    assert (serving (if stops_rpc l (shut v) then Stop (rpc v) else rpc v) = serving (rpc v) ∧
            fatals (if stops_rpc l (shut v) then Stop (rpc v) else rpc v) = fatals (rpc v)) as [Es Ef].
    { destruct (stops_rpc l (shut v)); [apply Stop_frame|done]. }
    split; cbn; rewrite ?Es, ?Ef; [done|]. intros Hf Hw.
    destruct (life_exec_wait l _ _ El Hw) as [Hw0 Hk]. by apply Hk, H2.
Qed.

Lemma serve_ok_reachable r t x0 v : fatals x0 = 0%nat → serve_reachable r t x0 v → serve_ok v.
Proof.
  intros H0. induction 1 as [|v l v' _ IH E]; [|by eapply serve_ok_exec].
  split; cbn; rewrite H0; [|lia]. destruct (serving x0); lia.
Qed.

(** A run of the node is one of the shutdown machine, with the same steps of the
    stopping goroutine. *)
Definition is_stopper_step (l : serve_label) : bool :=
  match l with VLife l => is_stopper l | VServe _ => false end.

Lemma serve_run_life ls v v' : serve_run ls v = Some v' →
  ∃ ls', life_run stopWaitTimeSecond hasBefore hasAfter ls' (shut v) = Some (shut v') ∧
    length (filter (λ l, is_stopper l = true) ls') = length (filter (λ l, is_stopper_step l = true) ls).
Proof.
  revert v. induction ls as [|l ls IH]; cbn [serve_run]; intros v E.
  { injection E as <-. by exists []. }
  destruct (serve_exec l v) as [v1|] eqn:E1; [|done]. destruct (IH v1 E) as (ls' & Hr & Hn).
  rewrite filter_cons. destruct l as [e|l]; cbn [is_stopper_step].
  - rewrite decide_False by done. unfold serve_exec, serve_returns in E1.
    destruct (serving (rpc v) && may_return (gsStopped (rpc v)) e); [|done].
    destruct (benign e); injection E1 as <-; [by exists ls'|]. exists (LForceStop :: ls'). by rewrite filter_cons.
  - unfold serve_exec in E1. destruct (life_exec _ _ _ l (shut v)) as [x|] eqn:El; [|done].
    injection E1 as <-. exists (l :: ls'). cbn [life_run]. rewrite El. split; [done|].
    rewrite filter_cons. case_decide; cbn [length]; by rewrite Hn.
Qed.

Section failure.
Hypothesis Hwait : 0 ≤ stopWaitTimeSecond ≤ 9223372036.
(** grpc: Serve returns a non-nil error unless Stop is called, in which case it
    returns nil, or ErrServerStopped when Stop came first. *)
Hypothesis Hstop : ∀ e, may_return true e = true → e = ServeNil ∨ e = ErrServerStopped.

End failure.
End node.
Arguments served M : clear implicits.

(** ** A listener that dies while the node is up *)

Definition demo_return (stopped : bool) (e : serve_error) : bool :=
  match e with ServeNil | ErrServerStopped => true | _ => negb stopped end.

Lemma demo_return_stopped e : demo_return true e = true → e = ServeNil ∨ e = ErrServerStopped.
Proof. destruct e; cbn; auto; discriminate. Qed.

Definition demo_rpc : RpcService := MkRpcService ":0" "10.0.0.7:4000" true false true 0.
Lemma demo_rpc_started : Start (Some "10.0.0.7") (Some "[::]:4000") (NewRpcServer "") = Some demo_rpc.
Proof. vm_compute. reflexivity. Qed.

Definition demo_up : served (list (gmap string nat)) := Served demo_rpc (life_initial newRegistry 0).
Definition demo_failed (ls : list serve_label) : served (list (gmap string nat)) :=
  default demo_up (serve_run 10 false true demo_return ls demo_up).

