(* ===== verification/Gonet.v ===== *)
(** * al/gonet/gonet.go: which address a node advertises

    The host's interfaces are an argument.  [sort.SliceStable] is stdpp's merge
    sort; its order has no two distinct equivalent addresses, so any stable sort
    gives the same list.  An IP is its bytes (net.IP is a byte slice). *)

From S2P Require Import Prelude.
From S2P Require Import GoStrings.
From stdpp Require Import sorting.
Open Scope Z_scope.

Definition IP : Type := list Z.

Definition is_byte (b : Z) : Prop := 0 ≤ b < 256.

(** [net.IP.To4]. *)
Definition To4 (ip : IP) : option IP :=
  match ip with
  | [_; _; _; _] => Some ip
  | [0; 0; 0; 0; 0; 0; 0; 0; 0; 0; 255; 255; a; b; c; d] => Some [a; b; c; d]
  | _ => None
  end.

(** The predicates of net.IP, on the four bytes of an IPv4 address. *)
Definition IsLoopback (ip : IP) : bool := match ip with a :: _ => bool_decide (a = 127) | [] => false end.
Definition IsLinkLocalUnicast (ip : IP) : bool :=
  match ip with a :: b :: _ => bool_decide (a = 169 ∧ b = 254) | _ => false end.
Definition IsUnspecified (ip : IP) : bool := bool_decide (ip = [0; 0; 0; 0]).
Definition IsMulticast (ip : IP) : bool :=
  match ip with a :: _ => bool_decide (Z.land a 240 = 224) | [] => false end.

Definition isPrivate (ip : IP) : bool :=
  match To4 ip with
  | None => false
  | Some ip4 =>
      match ip4 with
      | a :: b :: _ =>
          if decide (a = 10) then true
          else if decide (a = 172 ∧ 16 ≤ b ∧ b ≤ 31) then true
          else bool_decide (a = 192 ∧ b = 168)
      | _ => false
      end
  end.

(** [bytes.Compare]. *)
Fixpoint bytes_Compare (a b : list Z) : Z :=
  match a, b with
  | [], [] => 0
  | [], _ => -1
  | _, [] => 1
  | x :: a, y :: b => if decide (x < y) then -1 else if decide (y < x) then 1 else bytes_Compare a b
  end.

(** The less function of the sort. *)
Definition less (a b : IP) : bool :=
  let pi := isPrivate a in let pj := isPrivate b in
  if decide (pi ≠ pj) then pi else bool_decide (bytes_Compare a b < 0).

Definition usable (ip : IP) : option IP :=
  match To4 ip with
  | None => None
  | Some ip4 =>
      if IsLoopback ip4 then None
      else if IsLinkLocalUnicast ip4 then None
      else if IsUnspecified ip4 || IsMulticast ip4 then None
      else Some ip4
  end.

Definition not_after (a b : IP) : Prop := less b a = false.
#[export] Instance not_after_dec : RelDecision not_after.
Proof. intros a b. unfold not_after. apply _. Defined.

Definition selectInnerIPs (candidates : list IP) : list IP :=
  merge_sort not_after (omap usable candidates).

(** An interface, as [net.Interfaces] and [Addrs] report it. *)
Inductive Addr : Type := IPNet (ip : IP) | IPAddr (ip : IP) | OtherAddr.
Record Interface : Type := MkInterface { up : bool; loopback : bool; addrs : option (list Addr) }.

Definition addr_ip4 (a : Addr) : option IP :=
  match a with IPNet ip | IPAddr ip => To4 ip | OtherAddr => None end.

Definition iface_ips (iface : Interface) : list IP :=
  if negb (up iface) || loopback iface then []
  else match addrs iface with None => [] | Some l => omap addr_ip4 l end.

Definition enumerateInnerIPs (ifaces : option (list Interface)) : list IP :=
  match ifaces with None => [] | Some l => selectInnerIPs (l ≫= iface_ips) end.

(** [innerIPs]: the answer and the cache afterwards. *)
Definition innerIPs (ifaces : option (list Interface)) (cache : option (list IP))
    : list IP * option (list IP) :=
  match cache with
  | Some cached => (cached, cache)
  | None =>
      let found := enumerateInnerIPs ifaces in
      if decide (found = []) then ([], None) else (found, Some found)
  end.

Definition GetTopInnerIP (ifaces : option (list Interface)) (cache : option (list IP))
    : option IP * option (list IP) :=
  let '(inners, cache) := innerIPs ifaces cache in (head inners, cache).

(** [IP.String] of an IPv4 address. *)
Definition ip_String (ip : IP) : string :=
  match ip with
  | [a; b; c; d] => Itoa a +:+ "." +:+ Itoa b +:+ "." +:+ Itoa c +:+ "." +:+ Itoa d
  | _ => "?"
  end.

(** ** The sort's order *)

Fixpoint lex_le (a b : list Z) : bool :=
  match a, b with
  | [], _ => true
  | _ :: _, [] => false
  | x :: a, y :: b => bool_decide (x < y) || (bool_decide (x = y) && lex_le a b)
  end.

Definition sort_key (ip : IP) : list Z := (if isPrivate ip then 0 else 1) :: ip.

Lemma lex_le_total a b : lex_le a b = true ∨ lex_le b a = true.
Proof.
  revert b. induction a as [|x a IH]; intros [|y b]; cbn; auto.
  destruct (Z.lt_trichotomy x y) as [H|[->|H]].
  - left. by rewrite bool_decide_true.
  - destruct (IH b) as [-> | ->]; [left|right]; rewrite (bool_decide_true (y = y)) by done; by rewrite orb_true_r.
  - right. by rewrite bool_decide_true.
Qed.

Lemma lex_le_trans a b c : lex_le a b = true → lex_le b c = true → lex_le a c = true.
Proof.
  revert b c. induction a as [|x a IH]; intros [|y b] [|z c]; cbn; try done.
  rewrite !orb_true_iff, !andb_true_iff, !bool_decide_eq_true.
  intros [H1|[-> H1]] [H2|[-> H2]]; [left; lia|by left|by left|right]. split; [done|by eapply IH].
Qed.

Lemma lex_le_antisymm a b : lex_le a b = true → lex_le b a = true → a = b.
Proof.
  revert b. induction a as [|x a IH]; intros [|y b]; cbn; try done.
  rewrite !orb_true_iff, !andb_true_iff, !bool_decide_eq_true.
  intros [H1|[-> H1]] [H2|[E H2]]; try lia. f_equal. by apply IH.
Qed.

Lemma bytes_Compare_lex a b : bool_decide (bytes_Compare a b < 0) = negb (lex_le b a).
Proof.
  revert b. induction a as [|x a IH]; intros [|y b]; cbn; try done.
  destruct (decide (x < y)) as [H|H].
  - rewrite (bool_decide_false (y < x)), (bool_decide_false (y = x)) by lia. done.
  - destruct (decide (y < x)) as [H'|H'].
    + by rewrite (bool_decide_true (y < x)) by done.
    + assert (y = x) as -> by lia. rewrite IH, (bool_decide_false (x < x)) by lia.
      by rewrite (bool_decide_true (x = x)).
Qed.

Lemma not_after_key a b : not_after a b ↔ lex_le (sort_key a) (sort_key b) = true.
Proof.
  unfold not_after, less, sort_key. rewrite bytes_Compare_lex. cbn [lex_le].
  destruct (isPrivate a), (isPrivate b); cbn; try done.
  all: rewrite decide_False by (intros H; by apply H); by rewrite negb_false_iff.
Qed.

#[export] Instance not_after_total : Total not_after.
Proof. intros a b. rewrite !not_after_key. apply lex_le_total. Qed.
#[export] Instance not_after_trans : Transitive not_after.
Proof. intros a b c. rewrite !not_after_key. apply lex_le_trans. Qed.
#[export] Instance not_after_antisymm : AntiSymm (=) not_after.
Proof.
  intros a b. rewrite !not_after_key. intros H1 H2.
  pose proof (lex_le_antisymm _ _ H1 H2) as E. by injection E.
Qed.

Lemma usable_spec ip ip4 : usable ip = Some ip4 ↔
  To4 ip = Some ip4 ∧ IsLoopback ip4 = false ∧ IsLinkLocalUnicast ip4 = false ∧
  IsUnspecified ip4 = false ∧ IsMulticast ip4 = false.
Proof.
  unfold usable. destruct (To4 ip) as [i|]; [|naive_solver].
  destruct (IsLoopback i) eqn:E1; [naive_solver congruence|].
  destruct (IsLinkLocalUnicast i) eqn:E2; [naive_solver congruence|].
  destruct (IsUnspecified i || IsMulticast i) eqn:E3.
  - apply orb_true_iff in E3. naive_solver congruence.
  - apply orb_false_iff in E3 as [? ?]. naive_solver congruence.
Qed.

(** The advertised address depends on what the host has, not on the order
    it lists it in.  Two enumerations of the same candidates, in any order, give
    the same list; its members are exactly the usable IPv4 forms of the
    candidates (not loopback, link-local, unspecified or multicast), with their
    multiplicity; every private address precedes every public one, ties in byte
    order; so the first is private whenever a usable private one exists. *)
Theorem advertised_ip_deterministic (l1 l2 : list IP) (Hl : l1 ≡ₚ l2) :
  selectInnerIPs l1 = selectInnerIPs l2 ∧
  selectInnerIPs l1 ≡ₚ omap usable l1 ∧
  StronglySorted not_after (selectInnerIPs l1) ∧
  (∀ top rest ip, selectInnerIPs l1 = top :: rest → ip ∈ selectInnerIPs l1 →
     isPrivate ip = true → isPrivate top = true ∧ (bytes_Compare top ip ≤ 0)).
Proof.
  assert (StronglySorted not_after (selectInnerIPs l1)) as Hs
    by (apply StronglySorted_merge_sort; apply _).
  split_and!; [|apply merge_sort_Permutation|done|].
  - apply (StronglySorted_unique not_after); [done|apply StronglySorted_merge_sort; apply _|].
    unfold selectInnerIPs. rewrite !merge_sort_Permutation. by rewrite Hl.
  - intros top rest ip E Hin Hp. rewrite E in Hs, Hin.
    apply StronglySorted_inv in Hs as [_ Hall].
    assert (not_after top ip) as Hn.
    { apply elem_of_cons in Hin as [->|Hin].
      - destruct (not_after_total top top); done.
      - rewrite Forall_forall in Hall. by apply Hall. }
    unfold not_after, less in Hn. rewrite Hp in Hn. case_decide as Hd; [done|].
    assert (isPrivate top = true) as Ht by by destruct (isPrivate top). split; [done|].
    clear -Hn. rewrite bytes_Compare_lex in Hn. apply negb_false_iff in Hn.
    revert Hn. revert ip. induction top as [|x a IH]; intros [|y b]; cbn; try done.
    rewrite orb_true_iff, andb_true_iff, !bool_decide_eq_true.
    intros [H|[-> H]]; [by rewrite decide_True|]. rewrite !decide_False by lia. by apply IH.
Qed.

Lemma advertised_ip_deterministic_witness :
  selectInnerIPs [[8; 8; 8; 8]; [127; 0; 0; 1]; [192; 168; 1; 9]; [10; 0; 0; 7]]
  = [[10; 0; 0; 7]; [192; 168; 1; 9]; [8; 8; 8; 8]] ∧
  selectInnerIPs [[10; 0; 0; 7]; [8; 8; 8; 8]; [127; 0; 0; 1]; [192; 168; 1; 9]]
  = selectInnerIPs [[8; 8; 8; 8]; [127; 0; 0; 1]; [192; 168; 1; 9]; [10; 0; 0; 7]].
Proof.
  split; [vm_compute; reflexivity|].
  refine (proj1 (advertised_ip_deterministic [[10; 0; 0; 7]; [8; 8; 8; 8]; [127; 0; 0; 1]; [192; 168; 1; 9]] _ _)).
  apply (Permutation_trans (l' := [[8; 8; 8; 8]; [127; 0; 0; 1]; [192; 168; 1; 9]] ++ [[10; 0; 0; 7]])).
  - apply Permutation_cons_append.
  - reflexivity.
Defined.

(** An empty enumeration is not cached, so a later one can succeed. *)
Lemma failure_not_cached i1 i2 :
  enumerateInnerIPs i1 = [] → innerIPs i2 (innerIPs i1 None).2 = innerIPs i2 None.
Proof. intros E. unfold innerIPs at 2. by rewrite E, decide_True. Qed.
