(* ===== verification/StreamThms.v ===== *)
(** * Theorems on the streams between nodes

    Sending to another node amounts to making the same sends there, in the same
    order; what the stream cannot carry is accounted for; the address a node
    tells its peers is one they can split again. *)

From S2P Require Import Prelude.
From S2P Require Import GoStrings.
From S2P Require Import ActorId.
From S2P Require Import ErrCode.
From S2P Require Import Config.
From S2P Require Import Messages.
From S2P Require Import SafeMap.
From S2P Require Import Registry.
From S2P Require Import Routing.
From S2P Require Import System.
From S2P Require Import SystemDemo.
From S2P Require Import Stream.
Open Scope Z_scope.

Section thms.
Context {U : Type} {Codec : ProtoCodec U} (marshal_error : Message U → string).
Implicit Types (x : streamWriteActor) (c : Ctx U).

Abbreviation receive := (Receive marshal_error).
Abbreviation receive_all := (Receive_all marshal_error).

(** Giving a context up: its dead letter, and the asker's error before it. *)
Definition given_up x c (reason : string) : list (stream_effect U) :=
  match csender c with
  | Some s => if isAsk s then [WTell s (MErrCode (WithErr ("send to remote failed: " +:+ reason)))] else []
  | None => []
  end ++ [WDead (MkDeadLetter (ctarget c) (Some (sself x)) (csender c) (cmessage c) (cmsgSnId c) reason)].

(** The envelope a context becomes. *)
Definition envelope_of c (content : string) : Envelope :=
  MkEnvelope (match csender c with Some s => GetId s | None => EmptyString end)
    (GetId (ctarget c)) (cmsgSnId c) (MessageName (cmessage c)) content.

Lemma receive_state c sent x : (receive c sent x).2 = x.
Proof. unfold Receive. destruct (remote x), (Marshal (cmessage c)); done. Qed.

Lemma receive_sent c content x :
  remote x = true → Marshal (cmessage c) = Some content →
  (receive c true x).1 = [WSend (envelope_of c content)].
Proof. intros Hr Hm. unfold Receive. rewrite Hr, Hm. done. Qed.

Lemma receive_given_up c sent x :
  remote x = false ∨ Marshal (cmessage c) = None ∨ sent = false →
  written (receive c sent x).1 = [] ∧ ∃ reason rest,
    (receive c sent x).1 = given_up x c reason ++ rest ∧
    (∀ dl, WDead dl ∉ rest) ∧ (∀ s m, WTell s m ∉ rest).
Proof.
  intros H. assert (∀ reason rest, written (given_up x c reason ++ rest) = written rest) as Hw.
  { intros reason rest. unfold written, given_up. rewrite bind_app.
    destruct (csender c) as [s|]; [destruct (isAsk s)|]; done. }
  assert ((∃ reason, (receive c sent x).1 = given_up x c reason ++ []) ∨
    (receive c sent x).1 = given_up x c DeadLetterReasonUnreachable ++
       ((if conn x then [WCloseConn] else []) ++ [WPoisonSelf])) as [[reason E]|E].
  { unfold Receive. destruct (remote x); cbn [negb];
      [|left; eexists; by rewrite app_nil_r].
    destruct (Marshal (cmessage c)) as [content|]; [|left; eexists; by rewrite app_nil_r].
    destruct sent; [naive_solver|]. by right. }
  - rewrite E, Hw. split; [done|]. exists reason, []. split; [done|]. split; intros; apply not_elem_of_nil.
  - rewrite E, Hw. split; [by destruct (conn x)|]. eexists _, _. split; [done|].
    destruct (conn x); set_solver.
Qed.

(** Nothing handed to the writer disappears: the stream being up, the message
    encodable and the write succeeding, it is on the stream, alone; in every
    other case it is one dead letter, which the asker hears of first. *)
Lemma receive_accounts c sent x :
  (∃ content, remote x = true ∧ sent = true ∧ Marshal (cmessage c) = Some content ∧
     (receive c sent x).1 = [WSend (envelope_of c content)]) ∨
  (written (receive c sent x).1 = [] ∧ ∃ reason rest,
     (receive c sent x).1 = given_up x c reason ++ rest ∧
     (∀ dl, WDead dl ∉ rest) ∧ (∀ s m, WTell s m ∉ rest)).
Proof.
  destruct (remote x) eqn:Hr; [|right; apply receive_given_up; by left].
  destruct (Marshal (cmessage c)) as [content|] eqn:Hm;
    [|right; apply receive_given_up; right; by left].
  destruct sent; [left|right; apply receive_given_up; right; by right].
  exists content. split_and!; try done. by apply receive_sent.
Qed.

(** A context whose encoding the peer decodes to the same message. *)
Definition carried c : Prop :=
  ∃ content, Marshal (cmessage c) = Some content ∧
    FindMessageByName (MessageName (cmessage c)) = true ∧
    Unmarshal (MessageName (cmessage c)) content = Some (cmessage c) ∧
    MessageName (cmessage c) ≠ msgNameInitialize (U := U) ∧
    GetId (ctarget c) ≠ "" ∧ (∀ s, csender c = Some s → GetId s ≠ "").

Lemma Listen_envs (envs : list Envelope) (rs : list recv_result) :
  Listen ((λ e, RecvEnv (Some e)) <$> envs) = (envs, None) ∧
  Listen (((λ e, RecvEnv (Some e)) <$> envs) ++ RecvEOF :: rs) = (envs, Some false).
Proof.
  induction envs as [|e envs [IH1 IH2]]; cbn; [done|].
  by rewrite IH1, IH2.
Qed.

Lemma written_app (l1 l2 : list (stream_effect U)) : written (l1 ++ l2) = written l1 ++ written l2.
Proof. unfold written. by rewrite bind_app. Qed.

(** ** The receiving node *)

Section peer.
Context `{Env : GoEnv} {M : Type} {MI : MapImpl M string nat}.
Context (me : nat) (addr : string) (cfg : config Env).
Context (resolve : ActorRef → resolvedRoute) (builds : ActorRef → bool).
Implicit Types (n : node M).

(** The sender and target as the peer sees them. *)
Definition peer_send (p : nat) c n : list (effect U) * node M :=
  tellWithSender me addr cfg resolve builds
    (Some (newActorRefFromAID (GetId (ctarget c)) me (S p))) (cmessage c)
    ((λ s, newActorRefFromAID (GetId s) me p) <$> csender c) (cmsgSnId c) n.

(** One operation after another, two fresh references for each. *)
Fixpoint in_turn {A : Type} (f : nat → A → node M → list (effect U) * node M) (p : nat) (l : list A) n
    : list (effect U) * node M :=
  match l with
  | [] => ([], n)
  | a :: l => let '(e1, n) := f p a n in
              let '(e2, n) := in_turn f (S (S p)) l n in (e1 ++ e2, n)
  end.

Definition recv_all : nat → list Envelope → node M → list (effect U) * node M :=
  in_turn (λ p e n, RecvEnvelope me addr cfg resolve builds (Some e) p n).

Lemma recv_carried p c content n :
  carried c → Marshal (cmessage c) = Some content →
  RecvEnvelope me addr cfg resolve builds (Some (envelope_of c content)) p n = peer_send p c n.
Proof.
  intros (content' & Hm & Hf & Hu & Hi & Ht & Hs) Hm'. rewrite Hm in Hm'. injection Hm' as <-.
  unfold RecvEnvelope, envelope_of, peer_send. cbn [MsgName Content Target Sender MsgSnId].
  rewrite decide_False by done. rewrite Hf. cbn [negb]. rewrite Hu, decide_False by done.
  destruct (csender c) as [s|]; cbn; [|done]. by rewrite decide_False by (by apply Hs).
Qed.

(** [C25] A send to another node is the same send made there.  Contexts handed
    to a write stream that is up, whose messages the codec round-trips and none
    of which is Initialize, go onto the stream as one envelope each and in
    order; the peer's [Listen] loop hands its receiver exactly those envelopes
    until the stream closes, which it reports as no error; and
    [RecvEnvelope]ing them has on the peer the effects, and leaves it in the
    state, that sending the same messages from there would: same order, same
    message id, target and sender rebuilt from their ids. *)
Theorem remote_send_is_local (cs : list (Ctx U)) (x : streamWriteActor) (p : nat) (n : node M)
    (Hup : remote x = true) (Hcs : Forall carried cs) :
  let effs := (receive_all ((λ c, (c, true)) <$> cs) x).1 in
  let got := Listen (((λ e, RecvEnv (Some e)) <$> written effs) ++ [RecvEOF]) in
  got.2 = Some false ∧ length got.1 = length cs ∧
  recv_all p got.1 n = in_turn peer_send p cs n.
Proof.
  cbv zeta. rewrite (proj2 (Listen_envs _ [])). cbn [fst snd]. split; [done|].
  revert p n. induction Hcs as [|c cs Hc _ IH]; intros p n; [done|].
  pose proof Hc as (content & Hm & _). cbn [fmap list_fmap Receive_all].
  pose proof (receive_sent c content x Hup Hm) as E1. pose proof (receive_state c true x) as E2.
  destruct (receive c true x) as [e1 x1]. cbn [fst snd] in E1, E2. subst e1 x1.
  destruct (receive_all _ x) as [e2 x2] eqn:E. cbn [fst] in IH |- *.
  rewrite written_app. cbn [written mbind list_bind app length].
  destruct (IH (S (S p)) (peer_send p c n).2) as [Hlen IH2]. split; [cbn; by rewrite Hlen|].
  cbn [recv_all in_turn]. unfold recv_all in *. cbn [in_turn].
  rewrite (recv_carried p c content n Hc Hm).
  destruct (peer_send p c n) as [ep n1]. cbn [snd] in *. by rewrite IH2.
Qed.
End peer.
End thms.

(** ** The address peers dial *)

Lemma slice_from_app s1 s2 i : i = Z.of_nat (String.length s1) → slice_from (s1 +:+ s2) i = s2.
Proof.
  intros ->. unfold slice_from. rewrite Nat2Z.id.
  rewrite <-(Nat.add_0_r (String.length s1)), str_drop_app. done.
Qed.

Lemma slice_from_app1 s1 c s2 i : i = Z.of_nat (String.length s1) + 1 →
  slice_from (s1 +:+ String c s2) i = s2.
Proof.
  intros ->. unfold slice_from.
  replace (Z.to_nat (Z.of_nat (String.length s1) + 1)) with (String.length s1 + 1)%nat by lia.
  by rewrite str_drop_app.
Qed.

(** Bytes that cannot stand in a host or a port. *)
Definition no_bracket (s : string) : Prop := no_byte "[" s ∧ no_byte "]" s.

Lemma IndexByte_neg s c : no_byte c s → ¬ (0 ≤ IndexByte s c).
Proof. intros H. rewrite IndexByte_none by done. lia. Qed.

Lemma no_byte_cons c d s : d ≠ c → no_byte c s → no_byte c (String d s).
Proof. unfold no_byte. cbn. intros Hd ->. by rewrite bool_decide_false. Qed.

Lemma split_join_brackets host port :
  no_bracket host → no_bracket port → no_byte ":" port →
  SplitHostPort (String "[" (host +:+ String "]" (String ":" port))) = inl (host, port).
Proof.
  intros [Ho Hc] [Po Pc] Pp. unfold SplitHostPort.
  set (hp := String "[" (host +:+ String "]" (String ":" port))).
  assert (hp = (String "[" host +:+ "]") +:+ String ":" port) as E1.
  { unfold hp. cbn. by rewrite str_app_assoc. }
  assert (LastIndexByte hp ":" = Z.of_nat (String.length host) + 2) as ->.
  { rewrite E1, LastIndexByte_app by done. rewrite str_length_app. cbn [String.length]. lia. }
  assert (IndexByte hp "]" = Z.of_nat (String.length host) + 1) as ->.
  { change hp with (String "[" host +:+ String "]" (String ":" port)).
    rewrite IndexByte_app by (by apply no_byte_cons). cbn [String.length]. lia. }
  assert (Z.of_nat (String.length hp) = Z.of_nat (String.length host) + 3 + Z.of_nat (String.length port)) as ->.
  { unfold hp. cbn [String.length]. rewrite str_length_app. cbn [String.length]. lia. }
  assert (slice_from hp 1 = host +:+ String "]" (String ":" port)) as E2 by done.
  assert (slice_from hp (Z.of_nat (String.length host) + 1 + 1) = String ":" port) as E3.
  { change hp with (String "[" host +:+ String "]" (String ":" port)).
    apply slice_from_app1. cbn [String.length]. lia. }
  assert (slice_from hp (Z.of_nat (String.length host) + 2 + 1) = port) as E4.
  { rewrite E1. apply slice_from_app1. rewrite str_length_app. cbn [String.length]. lia. }
  assert (slice_str hp 1 (Z.of_nat (String.length host) + 1) = host) as E5.
  { unfold slice_str. change (str_drop (Z.to_nat 1) hp) with (host +:+ String "]" (String ":" port)).
    replace (Z.to_nat _) with (String.length host) by lia. apply str_take_app. }
  cbv zeta. rewrite decide_False by lia. unfold hp at 1. rewrite decide_True by done.
  fold hp. rewrite E2, E3, E4, E5.
  rewrite !decide_False by lia. rewrite decide_True by lia. rewrite !decide_False; [done|..].
  - apply IndexByte_neg. by apply no_byte_cons.
  - apply IndexByte_neg, no_byte_app; [done|]. by repeat apply no_byte_cons.
Qed.

Lemma split_join_plain host port :
  no_byte ":" host → no_bracket host → no_bracket port → no_byte ":" port →
  SplitHostPort (host +:+ String ":" port) = inl (host, port).
Proof.
  intros Hh [Ho Hc] [Po Pc] Pp. unfold SplitHostPort.
  assert (LastIndexByte (host +:+ String ":" port) ":" = Z.of_nat (String.length host)) as ->
    by by rewrite LastIndexByte_app.
  assert (slice_str (host +:+ String ":" port) 0 (Z.of_nat (String.length host)) = host) as E5.
  { unfold slice_str. change (str_drop (Z.to_nat 0) ?s) with s.
    replace (Z.to_nat _) with (String.length host) by lia. apply str_take_app. }
  assert (slice_from (host +:+ String ":" port) (Z.of_nat (String.length host) + 1) = port) as E4
    by by apply slice_from_app1.
  cbv zeta. rewrite decide_False by lia. rewrite E4, E5.
  change (slice_from (host +:+ String ":" port) 0) with (host +:+ String ":" port).
  assert (∃ c r, host +:+ String ":" port = String c r ∧ c ≠ "["%char) as (c & r & E & Hc1).
  { destruct host as [|c r]; [by eexists _, _|]. eexists _, _. split; [done|].
    intros ->. unfold no_byte in Ho. cbn in Ho. done. }
  rewrite E. rewrite decide_False by done. rewrite <-E.
  rewrite (decide_False (P := 0 ≤ IndexByte host ":")) by (by apply IndexByte_neg).
  rewrite !decide_False; [done|..].
  - apply IndexByte_neg, no_byte_app; [done|]. by apply no_byte_cons.
  - apply IndexByte_neg, no_byte_app; [done|]. by apply no_byte_cons.
Qed.

Lemma split_join host port :
  no_bracket host → no_bracket port → no_byte ":" port →
  SplitHostPort (JoinHostPort host port) = inl (host, port).
Proof.
  intros Hh Hp Pp. unfold JoinHostPort. case_decide as Hcol.
  - by apply split_join_brackets.
  - apply split_join_plain; try done. destruct (IndexByte_inv host ":") as [[? ?]|(a & b & -> & Ha & E)];
      [done|]. lia.
Qed.

Lemma no_byte_take c n s : no_byte c s → no_byte c (str_take n s).
Proof.
  intros H. rewrite <-(str_take_drop n s) in H. unfold no_byte in *.
  rewrite str_contains_app in H. by apply orb_false_iff in H as [? _].
Qed.

Lemma IndexByte_neg_inv s c : ¬ (0 ≤ IndexByte s c) → no_byte c s.
Proof. destruct (IndexByte_inv s c) as [[_ ?]|(a & b & -> & Ha & E)]; [done|lia]. Qed.

(** A host that [SplitHostPort] returns has no bracket in it. *)
Lemma SplitHostPort_host s h p : SplitHostPort s = inl (h, p) → no_bracket h.
Proof.
  unfold SplitHostPort. cbv zeta. case_decide; [done|]. destruct s as [|c s]; [done|].
  case_decide as Hc.
  - subst c. case_decide; [done|]. case_decide; [done|]. case_decide as He; [|by case_decide].
    case_decide as Ho; [done|]. case_decide; [done|]. intros Heq.
    assert (h = slice_str (String "[" s) 1 (IndexByte (String "[" s) "]")) as -> by congruence.
    apply IndexByte_neg_inv in Ho. split.
    + unfold slice_str. apply no_byte_take, Ho.
    + destruct (IndexByte_inv (String "[" s) "]") as [[E _]|(s1 & s2 & E & Hs1 & Ei)]; [lia|].
      rewrite Ei. destruct s1 as [|c1 s1]; [done|].
      change (String c1 s1 +:+ String "]" s2) with (String c1 (s1 +:+ String "]" s2)) in E.
      injection E as <- ->. unfold slice_str.
      change (str_drop (Z.to_nat 1) (String "[" (s1 +:+ String "]" s2))) with (s1 +:+ String "]" s2).
      replace (Z.to_nat _) with (String.length s1) by (cbn [String.length]; lia).
      rewrite str_take_app. cbn in Hs1. done.
  - case_decide; [done|]. case_decide as Hi1; [done|]. case_decide as Hi2; [done|].
    intros [= <- _]. apply IndexByte_neg_inv in Hi1, Hi2. split; by apply no_byte_take.
Qed.

(** The address a node registers in the cluster can be dialled.  Bound to
    any listen address, it is the join of a host and the port the kernel gave,
    which splits back into exactly those; the host is never one of the wildcards
    "", "0.0.0.0" and "::" a listener reports, but the explicit host of the listen
    address when there is one, else the host's top inner IP, else loopback. *)
Theorem advertised_address (listenAddr bhost port : string) (inner : option string)
    (Hb : no_bracket bhost) (Hp : no_bracket port) (Hc : no_byte ":" port)
    (Hinner : ∀ ip, inner = Some ip → no_bracket ip ∧ ip ≠ "" ∧ ip ≠ "0.0.0.0" ∧ ip ≠ "::") :
  ∃ host a, start_addr (listen_addr listenAddr) inner (Some (JoinHostPort bhost port)) = Some a ∧
    SplitHostPort a = inl (host, port) ∧
    host ≠ "" ∧ host ≠ "0.0.0.0" ∧ host ≠ "::" ∧
    (∀ h p, SplitHostPort (listen_addr listenAddr) = inl (h, p) →
       h ≠ "" → h ≠ "0.0.0.0" → h ≠ "::" → host = h).
Proof.
  unfold start_addr. rewrite split_join by done.
  set (host := advertiseHost (listen_addr listenAddr) inner).
  assert (no_bracket host ∧ host ≠ "" ∧ host ≠ "0.0.0.0" ∧ host ≠ "::") as (H1 & H2 & H3 & H4).
  { unfold host, advertiseHost.
    assert (let f := match inner with Some ip => ip | None => "127.0.0.1" end in
      no_bracket f ∧ f ≠ "" ∧ f ≠ "0.0.0.0" ∧ f ≠ "::") as Hf.
    { destruct inner as [ip|]; [by apply Hinner|done]. }
    cbv zeta in Hf. destruct (SplitHostPort (listen_addr listenAddr)) as [[h p]|] eqn:E; [|done].
    case_decide as Hd; [|done]. split; [by eapply SplitHostPort_host|done]. }
  exists host. eexists. split; [done|]. split; [by apply split_join|].
  split_and!; try done. intros h p E ? ? ?. unfold host, advertiseHost. rewrite E.
  by rewrite decide_True.
Qed.

Lemma advertised_address_witness :
  start_addr (listen_addr "") (Some "10.0.0.7") (Some "[::]:40001") = Some "10.0.0.7:40001" ∧
  ∃ host a, start_addr (listen_addr "") (Some "10.0.0.7") (Some (JoinHostPort "::" "40001")) = Some a ∧
    SplitHostPort a = inl (host, "40001") ∧ host ≠ "::".
Proof.
  split; [vm_compute; reflexivity|].
  destruct (advertised_address "" "::" "40001" (Some "10.0.0.7")) as (host & a & E1 & E2 & _ & _ & E3 & _).
  - split; reflexivity.
  - split; reflexivity.
  - reflexivity.
  - intros ip [= <-]. split_and!; try discriminate. split; reflexivity.
  - exists host, a. split_and!; assumption.
Defined.

(** A stream from node a:1 to node b:1 carrying two sends. *)
Definition demo_writer : streamWriteActor :=
  StreamWriteActor gone "b:1" gone true true.
Definition demo_ctxs : list (Ctx nat) :=
  [NewContext player7 (Some asker) (MUser 0%nat) 9; NewContext player7 None (MUser 0%nat) 10].

Lemma remote_send_is_local_witness :
  Forall carried demo_ctxs ∧
  recv_all 0 "a:1" game_cfg game_route yes 3
    (Listen (((λ e, RecvEnv (Some e)) <$>
       written (Receive_all (λ _, "") ((λ c, (c, true)) <$> demo_ctxs) demo_writer).1) ++ [RecvEOF])).1 hosting
  = in_turn (peer_send 0 "a:1" game_cfg game_route yes) 3 demo_ctxs hosting.
Proof.
  assert (Forall carried demo_ctxs) as H.
  { repeat constructor; exists EmptyString; split_and!; try reflexivity; try discriminate;
      intros s [= <-]; discriminate. }
  split; [exact H|].
  apply (remote_send_is_local (λ _, "") 0 "a:1" game_cfg game_route yes demo_ctxs demo_writer 3 hosting
    eq_refl H).
Defined.
