(* ===== verification/AskFlow.v ===== *)
(** * request_helper.go end to end: an Ask through the sending, the streams and back

    [askImpl] on the node of System.v beside the pending table of Ask.v: the
    request goes out with a [replyRef] as its sender, and whatever anybody tells
    that reference, here or on another node, comes back through [deliverReply].
    Suspending the caller and resuming it are Scheduler.v's. *)

From S2P Require Import Prelude.
From S2P Require Import GoStrings.
From S2P Require Import ActorId.
From S2P Require Import ErrCode.
From S2P Require Import Config.
From S2P Require Import Messages.
From S2P Require Import SafeMap.
From S2P Require Import Registry.
From S2P Require Import Routing.
From S2P Require Import System.
From S2P Require Import Stream.
From S2P Require Import Ask.
Open Scope Z_scope.

Section pending.
Context {U P : Type} {PI : MapImpl P Z nat}.
Implicit Types (s : astate U P).

(** [deliverReply], run by one goroutine: Ask.v's [DPop] and [DSend]. *)
Definition deliverReply (sn : Z) (m : Message U) s : astate U P :=
  match m_pop (table s) sn with
  | (Some ch, t) => AState t (trySend ch m (chans s)) (closed s) (askId s) (athreads s) (delivered s)
  | (None, t) => AState t (chans s) (closed s) (askId s) (athreads s) (delivered s)
  end.

(** What a send did to this node's pending table. *)
Definition deliver_replies (effs : list (effect U)) s : astate U P :=
  foldl (λ s e, match e with EReply sn m => deliverReply sn m s | _ => s end) s effs.

(** The end of [askImpl]: [awaitReply] on what is in the channel (a timeout when
    [timeout] comes first), then the deferred [cancelAsk]; [None] while it waits. *)
Definition ask_end (is_T : Message U → bool) (as_error : Message U → option string)
    (sn : Z) (ch : nat) (timeout : bool) s : option ((Message U + ErrCode) * astate U P) :=
  if timeout then Some (awaitReply is_T as_error TimedOut, cancelAsk sn s)
  else match chans s !! ch with
  | Some (_, Some m) => Some (awaitReply is_T as_error (Got m), cancelAsk sn s)
  | _ => None
  end.

(** The two steps of Ask.v's machine that a delivery is. *)
Lemma deliverReply_steps sn m s : ∃ s1 s2 s3 t, let i := length (athreads s) in
  aexec (LDeliver sn m) s = Some s1 ∧ aexec (LRun i false) s1 = Some s2 ∧
  (s3 = s2 ∨ aexec (LRun i false) s2 = Some s3) ∧ athreads s3 !! i = Some t ∧ t = DDone ∧
  table s3 = table (deliverReply sn m s) ∧ chans s3 = chans (deliverReply sn m s) ∧
  closed s3 = closed s.
Proof.
  cbv zeta. set (i := length (athreads s)).
  set (s1 := AState (table s) (chans s) (closed s) (askId s) (athreads s ++ [DPop sn m])
    (delivered s ++ [(sn, m)])).
  assert (Hi : athreads s1 !! i = Some (DPop sn m))
    by (unfold s1, i; cbn [athreads]; rewrite lookup_app_r, Nat.sub_diag by done; done).
  assert (Hlt : (i < length (athreads s1))%nat) by (by eapply lookup_lt_Some).
  destruct (m_pop (table s) sn) as [[ch|] tb] eqn:E.
  - eexists s1, _, _, DDone. split; [done|]. split.
    { cbn [aexec]. unfold astep. rewrite Hi. cbn [table s1]. rewrite E. reflexivity. }
    split. { right. cbn [aexec]. unfold astep. cbn [set_thread athreads].
      rewrite list_lookup_insert_eq by done. reflexivity. }
    unfold deliverReply. rewrite E. cbn [set_thread athreads table chans closed set_chans].
    rewrite list_lookup_insert_eq by (by rewrite length_insert). done.
  - eexists s1, _, _, DDone. split; [done|]. split.
    { cbn [aexec]. unfold astep. rewrite Hi. cbn [table s1]. rewrite E. reflexivity. }
    split; [by left|]. unfold deliverReply. rewrite E. cbn [set_thread athreads table chans closed].
    rewrite list_lookup_insert_eq by done. done.
Qed.

(** A delivery to a waiting id whose channel is empty is what its Ask returns. *)
Lemma deliverReply_ends is_T as_error sn ch m s : m_wf (table s) →
  m_abs (table s) !! sn = Some ch → chans s !! ch = Some (sn, None) →
  m_wf (table (deliverReply sn m s)) ∧
  m_abs (table (deliverReply sn m s)) = delete sn (m_abs (table s)) ∧
  ask_end is_T as_error sn ch false (deliverReply sn m s)
    = Some (decodeReply is_T as_error m, cancelAsk sn (deliverReply sn m s)).
Proof.
  intros W Ht Hc. unfold deliverReply. destruct (m_pop_law (table s) sn W) as (H1 & H2 & H3).
  rewrite Ht in H2. destruct (m_pop (table s) sn) as [o tb]. cbn [fst snd] in *. subst o.
  cbn [table]. split; [done|]. split; [done|]. unfold ask_end. cbn [chans].
  unfold trySend. rewrite Hc, list_lookup_insert_eq; [done|by eapply lookup_lt_Some].
Qed.

(** After [cancelAsk] the table is free of the id. *)
Lemma cancelAsk_table sn s : m_wf (table s) →
  m_wf (table (cancelAsk sn s)) ∧ m_abs (table (cancelAsk sn s)) = delete sn (m_abs (table s)).
Proof. intros W. unfold cancelAsk. cbn [table]. by apply m_remove_law. Qed.
End pending.

Section flow.
Context `{Env : GoEnv} {U M P : Type} {MI : MapImpl M string nat} {PI : MapImpl P Z nat}.
Context (me : nat) (addr : string) (cfg : config Env).
Context (resolve : ActorRef → resolvedRoute) (builds : ActorRef → bool).
Implicit Types (target : ActorRef) (req : Message U).

(** A node with its pending table. *)
Record anode : Type := ANode { an_node : node M; an_pend : astate U P }.

Inductive ask_start : Type :=
| AskFailed (e : ErrCode)                                  (* returned at once *)
| AskWaiting (sn : Z) (ch : nat) (effs : list (effect U)). (* sent; in awaitReply *)

(** [fmt.Sprintf("%v", asker)]. *)
Definition show_ref (asker : option ActorRef) : string :=
  match asker with Some r => GetId r | None => "<nil>" end.

(** [askImpl] up to its [awaitReply], for a target whose system is this one. *)
Definition askImpl (asker target : option ActorRef) req (x : anode) : ask_start * anode :=
  match target with
  | None => (AskFailed (WithErr ("ask target is nil, sender:" +:+ show_ref asker)), x)
  | Some _ =>
      let '(sn, n) := System.nextSnId (an_node x) in
      match registerAsk sn (an_pend x) with
      | (None, p) => (AskFailed errSystemStopping, ANode n p)
      | (Some ch, p) =>
          let '(effs, n) := tellWithSender me addr cfg resolve builds target req
                              (Some (newReplyRef sn addr me)) sn n in
          (AskWaiting sn ch effs, ANode n (deliver_replies effs p))
      end
  end.

(** For non-actor code: nobody to suspend. *)
Definition NoReentryAsk (target : option ActorRef) req (x : anode) : ask_start * anode :=
  askImpl None target req x.

(** ** Telling a reply reference *)

Lemma route_reply sn (m : Message U) sender k (n : node M) :
  route_send me addr cfg resolve builds (Some (newReplyRef sn addr me)) m sender k n = (DReply sn m, n).
Proof.
  unfold route_send, newReplyRef. cbn [isDirect GetDirectAddr raddr]. by rewrite decide_True.
Qed.

Lemma send_reply sn (m : Message U) sender k (n : node M) :
  tellWithSender me addr cfg resolve builds (Some (newReplyRef sn addr me)) m sender k n
  = ([EReply sn m], n).
Proof. unfold tellWithSender, send_body. by rewrite route_reply. Qed.

(** [Tell] on it, as every place that fails an asker does. *)
Lemma tell_reply sn (m : Message U) (n : node M) :
  Tell me addr cfg resolve builds (newReplyRef sn addr me) m n
  = ([EReply sn m], (System.nextSnId n).2).
Proof.
  unfold Tell, tell. cbn [newReplyRef GetSystem rsystem]. rewrite decide_True by done.
  destruct (System.nextSnId n) as [k n']. cbn [snd].
  change (ReplyTo (ReplyRef sn addr me)) with (newReplyRef sn addr me). by rewrite route_reply.
Qed.

(** A context's [Reply] on the asking node, by either path. *)
Lemma reply_here t sn (m : Message U) k (req : Message U) (n : node M) :
  Reply me addr cfg resolve builds (NewContext t (Some (newReplyRef sn addr me)) req k) m n
  = ([EReply sn m], n).
Proof. unfold Reply. cbn [csender newReplyRef rsystem raddr snId]. by rewrite decide_True. Qed.

(** The reference as the other side of a stream rebuilds it. *)
Lemma send_parsed_reply sn (m : Message U) sender k sys q (n : node M) :
  in_u64 sn → no_byte "/" addr → no_byte "@" addr →
  tellWithSender me addr cfg resolve builds
    (Some (newActorRefFromAID (GetId (newReplyRef sn addr sys)) me q)) m sender k n
  = ([EReply sn m], n).
Proof.
  intros Hsn H1 H2. change (GetId (newReplyRef sn addr sys)) with (GetId (newReplyRef sn addr me)).
  destruct (reply_ref_roundtrip sn addr me q Hsn H1 H2) as (Hd & _ & Ha & Hs & _ & _ & Hx).
  unfold tellWithSender, send_body, route_send. rewrite Hd, Hx. cbn [newReplyRef isDirect GetDirectAddr raddr].
  rewrite decide_True by done. unfold sendToLocal. by rewrite Ha, Hs.
Qed.
End flow.
Arguments anode U M P : clear implicits.
Arguments ask_start U : clear implicits.
