(* ===== verification/Reentry.v ===== *)
(** * Actors that ask each other

    Scheduler.v is one actor with the user's handler as a choice of the
    environment.  Here several actors of one node run beside one pending table,
    and their handlers are programs: finite trees of the calls a handler can
    make ([context.Reply], [Tell], [x.Ask], a panic), so that what one actor's
    Ask waits for is what another actor's handler does.  Every call goes through
    the definitions of Scheduler.v, System.v, Ask.v and AskFlow.v.  As in
    Scheduler.v a send ends in a goroutine of its own at the target's mailbox, so
    the handler may run on before the push; the code's order is one of these. *)

From S2P Require Import Prelude.
From S2P Require Import GoStrings.
From S2P Require Import Queue.
From S2P Require Import ActorId.
From S2P Require Import ErrCode.
From S2P Require Import Config.
From S2P Require Import Messages.
From S2P Require Import SafeMap.
From S2P Require Import Registry.
From S2P Require Import Routing.
From S2P Require Import System.
From S2P Require Import Ask.
From S2P Require Import AskFlow.
From S2P Require Import Scheduler.
Open Scope Z_scope.

(** The body of a handler.  [to] numbers an actor; an Ask goes on with what
    [Ask] returned. *)
Inductive handler (U : Type) : Type :=
| HReturn
| HPanic
| HReply (m : Message U) (k : handler U)
| HTell (to : nat) (u : U) (k : handler U)
| HAsk (to : nat) (req : U) (k : Message U + ErrCode → handler U).
Arguments HReturn {U}.
Arguments HPanic {U}.
Arguments HReply {U} m k.
Arguments HTell {U} to u k.
Arguments HAsk {U} to req k.

(** Where a handler's goroutine is in an Ask: registered and suspending, or the
    request sent and [awaitReply] reached. *)
Inductive ask_stage : Type := Suspending | Awaiting.

(** A handler under way: the context it was called with, the rest of its body
    (an [HAsk] while it is in one), the Ask's id and channel; [fbudget] is
    ghost, what the body may still send. *)
Record frame (U : Type) : Type := Frame {
  fctx : Ctx U;
  fcode : handler U;
  fask : option (Z * nat * ask_stage);
  fbudget : nat
}.
Arguments Frame {U} fctx fcode fask fbudget.
Arguments fctx {U} _.
Arguments fcode {U} _.
Arguments fask {U} _.
Arguments fbudget {U} _.

(** The actors by number, the frames by actor and goroutine, and the pending
    table with the id counter. *)
Record world (U Q M P : Type) : Type := World {
  wactors : list (Scheduler.state U Q M);
  wframes : gmap (nat * nat) (frame U);
  wasks : astate U P
}.
Arguments World {U Q M P} wactors wframes wasks.
Arguments wactors {U Q M P} _.
Arguments wframes {U Q M P} _.
Arguments wasks {U Q M P} _.

Inductive wlabel (U : Type) : Type :=
| WStep (a i : nat) (ch : choice)     (* the framework's code, or a hook other than Receive *)
| WHandler (a i : nat)                (* one call of a handler *)
| WTimeout (a i : nat)                (* its Ask times out *)
| WTell (a : nat) (u : U)             (* somebody outside tells an actor *)
| WPoison (a : nat).                  (* ... or poisons it *)
Arguments WStep {U} a i ch.
Arguments WHandler {U} a i.
Arguments WTimeout {U} a i.
Arguments WTell {U} a u.
Arguments WPoison {U} a.

Section world.
Context `{Env : GoEnv} {U Q M P : Type} {BQ : BoundedQueue Q (Ctx U)}
  {MI : MapImpl M string nat} {PI : MapImpl P Z nat}.
(** The node. *)
Context (sys : nat) (addr : string) (cfg : config Env).
Context (resolve : ActorRef → resolvedRoute) (builds : ActorRef → bool).
(** Its actors: references, registration functions, goroutine ids, handlers;
    [weight] ranks the requests, and starts the ghost budget of a frame. *)
Context (self : nat → ActorRef) (hasRegister hasUnregister : nat → bool) (goid : nat → nat → Z).
Context (prog : nat → U → handler U) (weight : U → nat).
(** The requested type of the Asks. *)
Context (is_T : Message U → bool) (as_error : Message U → option string).
Local Abbreviation world := (world U Q M P).
Implicit Types (w : world) (st : Scheduler.state U Q M) (c : Ctx U) (f : frame U).

Definition with_actor (a : nat) st w : world := World (<[a := st]> (wactors w)) (wframes w) (wasks w).
Definition with_frame (k : nat * nat) f w : world := World (wactors w) (<[k := f]> (wframes w)) (wasks w).
Definition drop_frame (k : nat * nat) w : world := World (wactors w) (delete k (wframes w)) (wasks w).
Definition with_asks (p : astate U P) w : world := World (wactors w) (wframes w) p.

(** A step of actor [a]'s own machine. *)
Definition act (a : nat) (l : Scheduler.label U) w : option world :=
  match wactors w !! a with
  | Some st =>
      match Scheduler.exec (self a) a (hasRegister a) (hasUnregister a) (goid a) l st with
      | Some st' => Some (with_actor a st' w)
      | None => None
      end
  | None => None
  end.

(** ** Sending

    A send to actor [b] runs on the node as [b]'s lookup finds it: [b]'s view of
    the registry, the processors by number, the id counter.  Its effects go to
    the mailboxes and the pending table; the references here are local, so
    nothing goes to a stream, and nothing is activated. *)

Definition set_askId (sn : Z) (p : astate U P) : astate U P :=
  AState (table p) (chans p) (closed p) sn (athreads p) (delivered p).

Definition node_of st w : node M :=
  Node (registry (sh st)) (self <$> seq 0 (length (wactors w))) false (askId (wasks w)) ∅.

Definition apply_effect w (e : effect U) : world :=
  match e with
  | EMail p c => default w (act p (LSend c) w)
  | EReply sn m => with_asks (deliverReply sn m (wasks w)) w
  | EPoison _ | EDead _ | EForeign _ _ | EPanic => w
  end.

Definition on_node (b : nat) (call : node M → list (effect U) * node M) w : world :=
  match wactors w !! b with
  | Some st =>
      let '(effs, n) := call (node_of st w) in
      foldl apply_effect (with_asks (set_askId (naskId n) (wasks w)) w) effs
  | None => w
  end.

(** What actor [a]'s [toDeadLetter]s told askers, by the events of a step. *)
Definition tell_reports (a : nat) (evs : list (event U)) w : world :=
  foldl (λ w e, match e with
                | EReport (RTell to m) => on_node a (Tell sys addr cfg resolve builds to m) w
                | _ => w
                end) w evs.

(** ** The steps *)

Definition pc_at (a i : nat) w : option (pc U) :=
  match wactors w !! a with Some st => tpc <$> threads st !! i | None => None end.

Definition new_events st st' : list (event U) := drop (length (history (sh st))) (history (sh st')).

(** What [Receive] does with a message that is not the user's own is not
    specified here: nothing. *)
Definition Receive (a : nat) c : handler U :=
  match cmessage c with MUser u => prog a u | _ => HReturn end.
Definition ctx_weight c : nat := match cmessage c with MUser u => weight u | _ => 0%nat end.

(** Where a goroutine runs a handler's code, or waits in its Ask. *)
Definition in_handler (p : pc U) : bool := match p with PReceive | PAwait => true | _ => false end.

(** Everything but a handler's code: the drainers, senders and poisoners, the
    registration functions, Started and PreStop (an Ask there changes nothing,
    Scheduler.v).  A message that reaches [Receive] gets its frame. *)
Definition framework_step (a i : nat) (ch : choice) w : option world :=
  match wactors w !! a, pc_at a i w with
  | Some st, Some p =>
      if in_handler p || bool_decide (ch = CAsk) then None
      else
        match Scheduler.exec (self a) a (hasRegister a) (hasUnregister a) (goid a) (LStep i ch) st with
        | None => None
        | Some st' =>
            let w := tell_reports a (new_events st st') (with_actor a st' w) in
            match p, pc_at a i w with
            | PDispatch c, Some PReceive => Some (with_frame (a, i) (Frame c (Receive a c) None (ctx_weight c)) w)
            | _, _ => Some w
            end
        end
  | _, _ => None
  end.

(** [BaseActor.Ask] up to the suspension: the check, the id, the registration,
    [suspend]. *)
Definition Ask_begin (a i : nat) f (to : nat) (req : U) (k : Message U + ErrCode → handler U) w : option world :=
  match wactors w !! a with
  | None => None
  | Some st =>
      let refused e w := Some (with_frame (a, i) (Frame (fctx f) (k (inr e)) None (fbudget f - (2 + weight req))) w) in
      match Ask_check (kind_of (threads st)) (sh st) (goid a i) with
      | inl e => refused e w
      | inr _ =>
          let sn := Ask.nextSnId (wasks w) in
          match registerAsk sn (set_askId sn (wasks w)) with
          | (None, p) => refused errSystemStopping (with_asks p w)
          | (Some ch, p) =>
              act a (LStep i CAsk)
                (with_frame (a, i) (Frame (fctx f) (HAsk to req k) (Some (sn, ch, Suspending)) (fbudget f - 1))
                  (with_asks p w))
          end
      end
  end.

(** The request, with the reply reference as its sender. *)
Definition Ask_send (a i : nat) f (to : nat) (req : U) (k : Message U + ErrCode → handler U) (sn : Z) (ch : nat) w
    : world :=
  with_frame (a, i) (Frame (fctx f) (HAsk to req k) (Some (sn, ch, Awaiting)) (fbudget f - (1 + weight req)))
    (on_node to (tellWithSender sys addr cfg resolve builds (Some (self to)) (MUser req)
                   (Some (newReplyRef sn addr sys)) sn) w).

(** The end of the wait: [cancelAsk], then [resume]; the handler goes on once it
    has the permit. *)
Definition Ask_end (a i : nat) f (k : Message U + ErrCode → handler U) (sn : Z) (ch : nat) (timeout : bool) w
    : option world :=
  match ask_end is_T as_error sn ch timeout (wasks w) with
  | None => None
  | Some (r, p) => act a (LStep i CReturn) (with_frame (a, i) (Frame (fctx f) (k r) None (fbudget f)) (with_asks p w))
  end.

Definition handler_step (a i : nat) w : option world :=
  match pc_at a i w, wframes w !! (a, i) with
  | Some PReceive, Some f =>
      match fcode f, fask f with
      | HReturn, None => act a (LStep i CReturn) (drop_frame (a, i) w)
      | HPanic, None => act a (LStep i CPanic) (drop_frame (a, i) w)
      | HReply m k, None =>
          Some (with_frame (a, i) (Frame (fctx f) k None (fbudget f - 1))
                 (on_node a (Reply sys addr cfg resolve builds (fctx f) m) w))
      | HTell to u k, None =>
          Some (with_frame (a, i) (Frame (fctx f) k None (fbudget f - (1 + weight u)))
                 (on_node to (Tell sys addr cfg resolve builds (self to) (MUser u)) w))
      | HAsk to req k, None => Ask_begin a i f to req k w
      | _, Some _ => None
      end
  | Some PAwait, Some f =>
      match fcode f, fask f with
      | HAsk to req k, Some (sn, ch, Suspending) => Some (Ask_send a i f to req k sn ch w)
      | HAsk to req k, Some (sn, ch, Awaiting) => Ask_end a i f k sn ch false w
      | _, _ => None
      end
  | _, _ => None
  end.

Definition timeout_step (a i : nat) w : option world :=
  match pc_at a i w, wframes w !! (a, i) with
  | Some PAwait, Some f =>
      match fcode f, fask f with
      | HAsk to req k, Some (sn, ch, Awaiting) => Ask_end a i f k sn ch true w
      | _, _ => None
      end
  | _, _ => None
  end.

Definition wexec (l : wlabel U) w : option world :=
  match l with
  | WStep a i ch => framework_step a i ch w
  | WHandler a i => handler_step a i w
  | WTimeout a i => timeout_step a i w
  | WTell a u => Some (on_node a (Tell sys addr cfg resolve builds (self a) (MUser u)) w)
  | WPoison a => act a LPoison w
  end.

(** Every actor fresh from its spawn, nothing pending. *)
Definition winitial w : Prop :=
  (∀ a st, wactors w !! a = Some st → ∃ q0 r0 snId, fresh_mailbox q0 ∧ m_wf r0 ∧
     m_abs r0 !! GetId (self a) = None ∧ initial (self a) a q0 r0 snId = Some st) ∧
  wframes w = ∅ ∧ m_wf (table (wasks w)) ∧ m_abs (table (wasks w)) = ∅ ∧ chans (wasks w) = [] ∧
  0 ≤ askId (wasks w) < 2 ^ 64.

(** The id counter has not wrapped. *)
Inductive wreachable : world → Prop :=
| wr_init w : winitial w → wreachable w
| wr_step w l w' : wreachable w → wexec l w = Some w' → askId (wasks w) ≤ askId (wasks w') → wreachable w'.

Fixpoint wrun (ls : list (wlabel U)) w : option world :=
  match ls with
  | [] => Some w
  | l :: ls => match wexec l w with Some w' => wrun ls w' | None => None end
  end.
End world.
