(* ===== verification/ReentryInv.v ===== *)
(** * Who waits for whom

    The invariant of the machine of Reentry.v: a handler has a frame exactly
    while its goroutine is in it, every pending Ask has its channel, every
    request sent is at its target or answered, and every request a handler has
    begun to serve is answered or that handler is still going to answer it. *)

From S2P Require Import Prelude.
From S2P Require Import GoStrings.
From S2P Require Import Queue.
From S2P Require Import ActorId.
From S2P Require Import ErrCode.
From S2P Require Import Config.
From S2P Require Import Messages.
From S2P Require Import SafeMap.
From S2P Require Import Registry.
From S2P Require Import Routing.
From S2P Require Import System.
From S2P Require Import Ask.
From S2P Require Import AskFlow.
From S2P Require Import Scheduler.
From S2P Require Import SchedulerInv.
From S2P Require Import SchedulerCount.
From S2P Require Import SchedulerFifo.
From S2P Require Import SchedulerOrder.
From S2P Require Import SchedulerReach.
From S2P Require Import SchedulerLetters.
From S2P Require Import SchedulerMoves.
From S2P Require Import Reentry.
Open Scope Z_scope.

(** ** What is asked of the handlers *)

Section programs.
Context {U : Type} (weight : U → nat) (request : U → bool).

(** Every way through the body replies. *)
Fixpoint answers (h : handler U) : Prop :=
  match h with
  | HReturn | HPanic => False
  | HReply _ _ => True
  | HTell _ _ k => answers k
  | HAsk _ _ k => ∀ r, answers (k r)
  end.

(** It talks to the first [N] actors, and asks them only requests of less weight
    than [n], the weight of what it handles.  What it tells and replies, and how
    often, is free. *)
Fixpoint polite (N n : nat) (h : handler U) : Prop :=
  match h with
  | HReturn | HPanic => True
  | HReply _ k => polite N n k
  | HTell to u k => (to < N)%nat ∧ polite N n k
  | HAsk to req k => (to < N)%nat ∧ request req = true ∧ (weight req < n)%nat ∧ ∀ r, polite N n (k r)
  end.

(** Moreover it sends no more than a budget [n] allows: a Reply costs 1, a Tell
    1 and its weight, an Ask 2 and its weight. *)
Fixpoint well_behaved (N n : nat) (h : handler U) : Prop :=
  match h with
  | HReturn | HPanic => True
  | HReply _ k => (1 ≤ n)%nat ∧ well_behaved N (n - 1) k
  | HTell to u k => (to < N)%nat ∧ (1 + weight u ≤ n)%nat ∧ well_behaved N (n - (1 + weight u)) k
  | HAsk to req k => (to < N)%nat ∧ request req = true ∧ (2 + weight req ≤ n)%nat ∧
      ∀ r, well_behaved N (n - (2 + weight req)) (k r)
  end.

Lemma well_behaved_polite N n m h : (n ≤ m)%nat → well_behaved N n h → polite N m h.
Proof.
  revert n. induction h as [| |a k IH|to u k IH|to req k IH]; intros n Hle; cbn [well_behaved polite]; try done.
  - intros [_ H]. eapply IH; [|exact H]. lia.
  - intros (Hto & _ & H). split; [done|]. eapply IH; [|exact H]. lia.
  - intros (Hto & Hreq & Hn & H). split_and!; [done|done|lia|]. intros r. eapply IH; [|apply H]. lia.
Qed.
End programs.

(** ** The pending table *)

Section asks.
Context {U P : Type} {PI : MapImpl P Z nat}.
Implicit Types (p : astate U P).

Definition asks_ok p : Prop :=
  m_wf (table p) ∧ 0 ≤ askId p < 2 ^ 64 ∧
  ∀ sn ch, m_abs (table p) !! sn = Some ch → sn ≤ askId p ∧ chans p !! ch = Some (sn, None).

(** Nobody waits for the id any more. *)
Definition answered p (sn : Z) : Prop := sn ≤ askId p ∧ m_abs (table p) !! sn = None.

(** The channel of an Ask under way. *)
Definition channel_ok p (sn : Z) (ch : nat) : Prop :=
  sn ≤ askId p ∧ ∃ v, chans p !! ch = Some (sn, v) ∧ (v = None → m_abs (table p) !! sn = Some ch).

(** What only grows, as far as the Asks in [live] go. *)
Definition asks_grow (live : Z → Prop) p p' : Prop :=
  asks_ok p' ∧ askId p ≤ askId p' ∧ (∀ sn, answered p sn → answered p' sn) ∧
  ∀ sn ch, live sn → channel_ok p sn ch → channel_ok p' sn ch.

Lemma bump_grows live p : asks_ok p → askId p + 1 < 2 ^ 64 → asks_grow live p (set_askId (u64 (askId p + 1)) p).
Proof.
  intros (W & Hb & Ht) Hlt. rewrite u64_id by (unfold in_u64; lia).
  unfold asks_grow, asks_ok, answered, channel_ok. cbn [table chans askId set_askId].
  split_and!; [done|lia|lia| |lia| |].
  - intros sn ch H. destruct (Ht sn ch H). split; [lia|done].
  - intros sn [H1 H2]. split; [lia|done].
  - intros sn ch _ (H1 & v & H2). split; [lia|by exists v].
Qed.

Lemma deliverReply_grows live sn m p : asks_ok p → asks_grow live p (deliverReply sn m p).
Proof.
  intros (W & Hb & Ht). unfold deliverReply. destruct (m_pop_law (table p) sn W) as (W' & H1 & H2).
  destruct (m_pop (table p) sn) as [o t']. cbn [fst snd] in *. subst o.
  unfold asks_grow, asks_ok, answered, channel_ok.
  destruct (m_abs (table p) !! sn) as [ch|] eqn:E; cbn [table chans askId]; rewrite H2.
  - destruct (Ht sn ch E) as [Hle Hch]. unfold trySend. rewrite Hch. split_and!; [done|lia|lia| |lia| |].
    + intros sn' ch' [Hne H]%lookup_delete_Some. destruct (Ht sn' ch' H) as [? H']. split; [done|].
      rewrite list_lookup_insert_ne; [done|]. intros <-. congruence.
    + intros sn' [? H]. split; [done|]. by rewrite lookup_delete_None; right.
    + intros sn' ch' _ (? & v & H & Hv). split; [done|]. destruct (decide (ch' = ch)) as [->|Hne].
      * rewrite Hch in H. injection H as <- <-. exists (Some m).
        rewrite list_lookup_insert_eq by (by eapply lookup_lt_Some). done.
      * exists v. rewrite list_lookup_insert_ne by done. split; [done|]. intros Hn. specialize (Hv Hn).
        rewrite lookup_delete_ne; [done|]. intros <-. congruence.
  - rewrite (delete_id _ _ E). split_and!; try done; lia.
Qed.

Lemma deliverReply_answers sn m p : asks_ok p → sn ≤ askId p → answered (deliverReply sn m p) sn.
Proof.
  intros (W & _ & _) Hle. unfold deliverReply. destruct (m_pop_law (table p) sn W) as (_ & H1 & H2).
  destruct (m_pop (table p) sn) as [o t']. cbn [fst snd] in *.
  destruct o; (split; [done|]); cbn [table]; rewrite H2; apply lookup_delete_eq.
Qed.

Lemma deliverReply_askId sn m p : askId (deliverReply sn m p) = askId p.
Proof. unfold deliverReply. by destruct (m_pop (table p) sn) as [[ch|] t]. Qed.

Lemma registerAsk_grows live p ch p' : let sn := u64 (askId p + 1) in
  asks_ok p → askId p + 1 < 2 ^ 64 → registerAsk sn (set_askId sn p) = (Some ch, p') →
  asks_grow live p p' ∧ channel_ok p' sn ch ∧ askId p' = sn ∧ askId p < sn.
Proof.
  intros sn (W & Hb & Ht) Hlt E. assert (sn = askId p + 1) as Hsn by (apply u64_id; unfold in_u64; lia).
  clearbody sn. subst sn. unfold registerAsk in E. cbn [closed set_askId chans table askId] in E.
  destruct (closed p); [done|]. injection E as <- <-.
  destruct (m_set_law (table p) (askId p + 1) (length (chans p)) W) as (W' & _ & H2).
  unfold asks_grow, asks_ok, answered, channel_ok. cbn [table chans askId athreads delivered]. rewrite H2.
  split_and!; try done; try lia.
  - intros sn ch [[<- <-]|[Hne H]]%lookup_insert_Some.
    + split; [lia|]. by rewrite lookup_app_r, Nat.sub_diag by lia.
    + destruct (Ht sn ch H) as [? Hc]. split; [lia|]. by apply lookup_app_l_Some.
  - intros sn [? H]. split; [lia|]. rewrite lookup_insert_ne by lia. done.
  - intros sn ch _ (? & v & Hc & Hv). split; [lia|]. exists v. split; [by apply lookup_app_l_Some|].
    intros Hn. rewrite lookup_insert_ne by lia. auto.
  - exists None. rewrite lookup_app_r, Nat.sub_diag by lia. split; [done|]. intros _. apply lookup_insert_eq.
Qed.

Lemma cancelAsk_grows (live : Z → Prop) sn p : asks_ok p → ¬ live sn → asks_grow live p (cancelAsk sn p).
Proof.
  intros (W & Hb & Ht) Hn. unfold cancelAsk, asks_grow, asks_ok, answered, channel_ok. cbn [table chans askId].
  destruct (m_remove_law (table p) sn W) as (W' & ->). split_and!; [done|lia|lia| |lia| |].
  - intros sn' ch [Hne H]%lookup_delete_Some. by apply Ht.
  - intros sn' [? H]. split; [done|]. by rewrite lookup_delete_None; right.
  - intros sn' ch Hl (? & v & Hc & Hv). split; [done|]. exists v. split; [done|]. intros E.
    rewrite lookup_delete_ne; [auto|]. by intros <-.
Qed.

Lemma set_askId_id p : set_askId (askId p) p = p.
Proof. by destruct p. Qed.
End asks.

(** ** One actor's step *)

Section moved.
Context {U Q M P : Type} {BQ : BoundedQueue Q (Ctx U)} {MI : MapImpl M string nat} {PI : MapImpl P Z nat}.
Context (sys : nat) (addr : string).
Context (self : nat → ActorRef) (hasRegister hasUnregister : nat → bool) (goid : nat → nat → Z).
Implicit Types (st : Scheduler.state U Q M) (c : Ctx U).
Local Abbreviation exec a := (Scheduler.exec (self a) a (hasRegister a) (hasUnregister a) (goid a)).
Local Abbreviation reachable a := (Scheduler.reachable (self a) a (hasRegister a) (hasUnregister a) (goid a)).

(** Handed to an actor: somebody is about to push it, or has pushed it. *)
Definition in_box st c : Prop :=
  c ∈ pushed (history (sh st)) ∨ ∃ i t, threads st !! i = Some t ∧ posting (tpc t) = [c].

(** An actor only ever registers itself. *)
Definition reg_ok a st : Prop :=
  m_wf (registry (sh st)) ∧
  (m_abs (registry (sh st)) !! GetId (self a) = Some a ∨ m_abs (registry (sh st)) !! GetId (self a) = None).

Definition pc_of st (i : nat) : option (pc U) := tpc <$> threads st !! i.
Definition stage st (i : nat) : hstage := from_option stage_of SNone (pc_of st i).

(** Goroutine [i] of actor [a] moved, or only what its handler keeps did. *)
Record moved a i st st' : Prop := {
  mv_reach : reachable a st';
  mv_reg : reg_ok a st';
  mv_other : ∀ j, j ≠ i → stage st' j = stage st j;
  mv_box : ∀ c, in_box st' c ↔ in_box st c
}.

Lemma moved_refl a i st : reachable a st → reg_ok a st → moved a i st st.
Proof. done. Qed.

Lemma pushed_app (h1 h2 : list (event U)) : pushed (h1 ++ h2) = pushed h1 ++ pushed h2.
Proof. apply omap_app. Qed.

Lemma stage_insert st i t' new j : Forall (λ t, stage_of (tpc t) = SNone) new → j ≠ i →
  from_option stage_of SNone (tpc <$> (<[i := t']> (threads st) ++ new) !! j) = stage st j.
Proof.
  intros Hnew Hne. unfold stage, pc_of. destruct (threads st !! j) as [u|] eqn:Hj.
  - rewrite lookup_app_l by (rewrite length_insert; by eapply lookup_lt_Some).
    by rewrite list_lookup_insert_ne, Hj by done.
  - rewrite lookup_app_r by (rewrite length_insert; by eapply lookup_ge_None).
    destruct (new !! _) as [u|] eqn:Hu; [|done]. rewrite Forall_lookup in Hnew. cbn. by eapply Hnew.
Qed.

(** What a step of goroutine [i] shows the others. *)
Lemma exec_moved a i ch st st' : reachable a st → reg_ok a st → exec a (LStep i ch) st = Some st' →
  ∃ p p' d, pc_of st i = Some p ∧ pc_of st' i = Some p' ∧ stage_moves p ch p' ∧
    history (sh st') = history (sh st) ++ d ∧ hands_on (self a) p p' d ∧ moved a i st st'.
Proof.
  intros Hr [W Hreg] E. destruct (exec_step_inv E) as (t & t' & new & Hi & Ht & Hths & Hk).
  pose proof (reachable_inv_count Hr) as HC. pose proof (ic_local _ HC i t Hi) as Hl.
  destruct (tstep_shows _ _ _ _ _ (λ _, 0) (λ _, Z.le_refl 0) _ _ _ _ _ _ _ _ Ht Hl Hk (if_wf _ (reachable_inv_fifo Hr)))
    as [(Hst & Hg & d & Hd & Hh) _].
  assert (Hi' : threads st' !! i = Some t').
  { rewrite Hths, lookup_app_l by (rewrite length_insert; by eapply lookup_lt_Some).
    apply list_lookup_insert_eq. by eapply lookup_lt_Some. }
  assert (Hnew : Forall (λ t, stage_of (tpc t) = SNone ∧ posting (tpc t) = []) new).
  { destruct (tstep_drainers _ _ _ _ _ _ _ _ _ _ _ _ _ Ht) as [-> | ->]; by repeat constructor. }
  exists (tpc t), (tpc t'), d. unfold pc_of. rewrite Hi, Hi'. split_and!; try done.
  split.
  - by econstructor.
  - unfold reg_ok. destruct Hg as [-> | ->]; [done|].
    destruct (remove_abs (registry (sh st)) (GetId (self a)) a W) as [W' ->]. split; [done|].
    case_decide; [right; apply lookup_delete_eq|done].
  - intros j Hj. unfold stage at 1, pc_of. rewrite Hths. apply stage_insert; [|done].
    eapply Forall_impl; [exact Hnew|]. by intros u [].
  - destruct Hh as (Hp & _). intros c. unfold in_box. rewrite Hd, pushed_app, elem_of_app. split.
    + intros [[H|H]|(j & u & Hj & Hu)]; [by left|right|].
      * exists i, t. split; [done|]. rewrite Hp. destruct (tpc t); simpl in *; apply (f_equal length) in Hp as Hlen;
          rewrite length_app in Hlen; destruct (pushed d) as [|x [|]]; simpl in *; try lia; try (by apply elem_of_nil in H).
        apply list_elem_of_singleton in H as ->. destruct (posting (tpc t')); [done|simpl in *; lia].
      * rewrite Hths in Hj. apply lookup_app_Some in Hj as [Hj|[_ Hj]].
        -- destruct (decide (j = i)) as [->|Hne].
           ++ rewrite list_lookup_insert_eq in Hj by (by eapply lookup_lt_Some). injection Hj as <-.
              right. exists i, t. split; [done|]. rewrite Hp, Hu. apply (f_equal length) in Hp.
              rewrite length_app, Hu in Hp. destruct (pushed d); [done|]. destruct (tpc t); simpl in *; lia.
           ++ rewrite list_lookup_insert_ne in Hj by done. right. eauto.
        -- rewrite Forall_lookup in Hnew. destruct (Hnew _ _ Hj) as [_ H]. congruence.
    + intros [H|(j & u & Hj & Hu)]; [by left; left|]. destruct (decide (j = i)) as [->|Hne].
      * rewrite Hi in Hj. injection Hj as <-. rewrite Hu in Hp.
        destruct (pushed d) as [|x l] eqn:Ed; simpl in Hp.
        -- right. by exists i, t'.
        -- injection Hp as -> _. left; right. by left.
      * right. exists j, u. split; [|done]. rewrite Hths. apply lookup_app_l_Some.
        by rewrite list_lookup_insert_ne.
Qed.

(** A new goroutine outside every handler. *)
Lemma spawn_stage st s' p : stage_of p = SNone →
  ∀ j, stage (State s' (threads st ++ [Thread p false callStart false])) j = stage st j.
Proof.
  intros Hp j. unfold stage, pc_of. cbn [threads]. destruct (threads st !! j) as [u|] eqn:Hj.
  - by rewrite lookup_app_l, Hj by (by eapply lookup_lt_Some).
  - rewrite lookup_app_r by (by eapply lookup_ge_None).
    destruct (_ - _)%nat as [|n]; [done|by destruct n].
Qed.

Lemma spawn_box st p c : in_box (State (sh st) (threads st ++ [Thread p false callStart false])) c ↔
  in_box st c ∨ posting p = [c].
Proof.
  unfold in_box. cbn [sh threads]. split.
  - intros [H|(j & u & Hj & Hu)]; [by left; left|].
    apply lookup_app_Some in Hj as [Hj|[_ Hj]]; [left; right; eauto|].
    apply list_lookup_singleton_Some in Hj as [_ <-]. by right.
  - intros [[H|(j & u & Hj & Hu)]|H]; [by left|right..].
    + exists j, u. split; [by apply lookup_app_l_Some|done].
    + exists (length (threads st)), (Thread p false callStart false).
      by rewrite lookup_app_r, Nat.sub_diag.
Qed.
End moved.

(** ** The node *)

Section world.
Context {U Q M P : Type} {BQ : BoundedQueue Q (Ctx U)}
  {MI : MapImpl M string nat} {PI : MapImpl P Z nat}.
Context (sys : nat) (addr : string).
Context (self : nat → ActorRef) (hasRegister hasUnregister : nat → bool) (goid : nat → nat → Z).
Context (weight : U → nat) (request : U → bool) (N : nat).
Local Abbreviation world := (world U Q M P).
Implicit Types (w : world) (st : Scheduler.state U Q M) (c : Ctx U) (f : frame U).
Local Abbreviation exec a := (Scheduler.exec (self a) a (hasRegister a) (hasUnregister a) (goid a)).
Local Abbreviation reachable a := (Scheduler.reachable (self a) a (hasRegister a) (hasUnregister a) (goid a)).
Local Abbreviation moved := (moved self hasRegister hasUnregister goid).
Local Abbreviation reply_to sn := (newReplyRef sn addr sys).
Local Abbreviation ctx_weight := (ctx_weight weight).
Local Abbreviation polite := (polite weight request N).

(** The contexts that are about: the framework's first message, a Tell, or a
    request with an id already given out. *)
Definition good (p : astate U P) c : Prop :=
  match cmessage c with
  | MUser u => csender c = None ∨ ∃ sn, csender c = Some (reply_to sn) ∧ sn ≤ askId p ∧ request u = true
  | m => m = MInitialize ∧ ∃ a, csender c = Some (self a)
  end.

Definition request_ctx (to : nat) (req : U) (sn : Z) : Ctx U :=
  NewContext (self to) (Some (reply_to sn)) (MUser req) sn.

(** A frame agrees with the code left in it. *)
Definition code_ok f : Prop :=
  match fask f, fcode f with
  | None, h => polite (ctx_weight (fctx f)) h
  | Some _, HAsk to req k =>
      (to < N)%nat ∧ request req = true ∧ (weight req < ctx_weight (fctx f))%nat ∧
      ∀ r, polite (ctx_weight (fctx f)) (k r)
  | Some _, _ => False
  end.

Definition frame_ok (p : astate U P) f : Prop :=
  good p (fctx f) ∧ ((∃ u, cmessage (fctx f) = MUser u) ∨ fcode f = HReturn) ∧ code_ok f ∧
  match fask f with Some (sn, ch, _) => channel_ok p sn ch | None => True end.

(** The frame of a goroutine, by its stage. *)
Definition stage_ok (s : hstage) (o : option (frame U)) : Prop :=
  match s with
  | SNone => o = None
  | SRunning => ∃ f, o = Some f ∧ fask f = None
  | SAsking => ∃ f, o = Some f ∧ fask f ≠ None
  end.

Definition waits f (sn : Z) : Prop := ∃ ch s, fask f = Some (sn, ch, s).
Definition live (fs : gmap (nat * nat) (frame U)) (sn : Z) : Prop := ∃ k f, fs !! k = Some f ∧ waits f sn.

(** What the frame of a handler that serves [c] still owes. *)
Definition serves (o : option (frame U)) c : Prop := ∃ f, o = Some f ∧ fctx f = c ∧ answers (fcode f).

(** The request of an Ask that has been sent. *)
Definition sent f : option (nat * U * Z) :=
  match fask f, fcode f with
  | Some (sn, _, Awaiting), HAsk to req _ => Some (to, req, sn)
  | _, _ => None
  end.
Definition delivered_to (actors : list (Scheduler.state U Q M)) (to : nat) c : Prop :=
  ∃ st, actors !! to = Some st ∧ in_box st c.

Record winv w : Prop := {
  wi_len : length (wactors w) = N;
  wi_asks : asks_ok (wasks w);
  wi_reach : ∀ a st, wactors w !! a = Some st → reachable a st ∧ reg_ok self a st;
  wi_stage : ∀ a i, stage_ok (from_option (λ st, stage st i) SNone (wactors w !! a)) (wframes w !! (a, i));
  wi_frame : ∀ k f, wframes w !! k = Some f → frame_ok (wasks w) f;
  wi_ids : ∀ k1 k2 f1 f2 sn, wframes w !! k1 = Some f1 → wframes w !! k2 = Some f2 →
    waits f1 sn → waits f2 sn → k1 = k2;
  wi_good : ∀ b st c, wactors w !! b = Some st → in_box st c → good (wasks w) c;
  wi_letter : ∀ b st c sn, wactors w !! b = Some st → c ∈ letters (history (sh st)) →
    csender c = Some (reply_to sn) → answered (wasks w) sn;
  wi_disp : ∀ b st c sn, wactors w !! b = Some st → c ∈ dispatched (history (sh st)) →
    csender c = Some (reply_to sn) → answered (wasks w) sn ∨ ∃ i, serves (wframes w !! (b, i)) c;
  wi_sent : ∀ k f to req sn, wframes w !! k = Some f → sent f = Some (to, req, sn) →
    answered (wasks w) sn ∨ delivered_to (wactors w) to (request_ctx to req sn)
}.

(** *** The pending table *)

Lemma good_grows live (p p' : astate U P) c : asks_grow live p p' → good p c → good p' c.
Proof.
  intros (_ & Hle & _) H. unfold good in *. destruct (cmessage c); try done.
  destruct H as [H|(sn & ? & ? & ?)]; [by left|right]. exists sn. split_and!; [done|lia|done].
Qed.

Lemma winv_asks w (p : astate U P) : winv w → asks_grow (live (wframes w)) (wasks w) p → winv (with_asks p w).
Proof.
  intros [I1 I2 I3 I4 I5 I6 I7 I8 I9 I10] Hg. pose proof Hg as (G1 & G2 & G3 & G4).
  constructor; cbn [wactors wframes wasks with_asks]; try done.
  - intros k f Hk. destruct (I5 k f Hk) as (H1 & H2 & H3 & H4). unfold frame_ok.
    split_and!; [by eapply good_grows|done|done|].
    destruct (fask f) as [[[sn ch] s]|] eqn:E; [|done]. apply G4; [|done]. exists k, f. split; [done|].
    by exists ch, s.
  - intros b st c Hb Hc. eapply good_grows; [done|by eapply I7].
  - intros b st c sn Hb Hc Hs. eapply G3. by eapply I8.
  - intros b st c sn Hb Hc Hs. destruct (I9 b st c sn Hb Hc Hs); [left|by right]. by apply G3.
  - intros k f to req sn Hk Hs. destruct (I10 k f to req sn Hk Hs); [left|by right]. by apply G3.
Qed.

Definition bump w : world := with_asks (set_askId (u64 (askId (wasks w) + 1)) (wasks w)) w.
Definition answer (sn : Z) (m : Message U) w : world := with_asks (deliverReply sn m (wasks w)) w.

Lemma winv_bump w : winv w → askId (wasks w) + 1 < 2 ^ 64 → winv (bump w).
Proof. intros I H. apply winv_asks; [done|]. apply bump_grows; [exact (wi_asks _ I)|done]. Qed.

Lemma winv_answer sn m w : winv w → winv (answer sn m w).
Proof. intros I. apply winv_asks; [done|]. apply deliverReply_grows. exact (wi_asks _ I). Qed.

(** *** Sending *)

Definition post (b : nat) c w : world := default w (act self hasRegister hasUnregister goid b (LSend c) w).

Lemma frames_fresh w a i : winv w → from_option (λ st, stage st i) SNone (wactors w !! a) = SNone →
  wframes w !! (a, i) = None.
Proof. intros I H. pose proof (wi_stage _ I a i) as Hs. by rewrite H in Hs. Qed.

Lemma winv_spawn w a st (p : pc U) : winv w → wactors w !! a = Some st → stage_of p = SNone →
  (∀ c, posting p = [c] → good (wasks w) c) →
  let st' := State (sh st) (threads st ++ [Thread p false callStart false]) in
  reachable a st' → winv (with_actor a st' w).
Proof.
  intros [I1 I2 I3 I4 I5 I6 I7 I8 I9 I10] Ha Hp Hc st' Hr'.
  assert (Hlt : (a < length (wactors w))%nat) by (by eapply lookup_lt_Some).
  assert (Hcase : ∀ b stb, <[a := st']> (wactors w) !! b = Some stb →
    ∃ stb0, wactors w !! b = Some stb0 ∧ sh stb = sh stb0 ∧ (∀ i, stage stb i = stage stb0 i) ∧
      reachable b stb ∧ (∀ c, in_box stb c ↔ in_box stb0 c ∨ b = a ∧ posting p = [c])).
  { intros b stb Hb. destruct (decide (b = a)) as [->|Hne].
    - rewrite list_lookup_insert_eq in Hb by done. injection Hb as <-. exists st.
      split_and!; [done|done|by intros i; apply spawn_stage|done|]. intros c. unfold st'. rewrite spawn_box. tauto.
    - rewrite list_lookup_insert_ne in Hb by done. exists stb. split_and!; [done..|by apply I3|]. intros c.
      split; [by left|]. by intros [|[]]. }
  constructor; cbn [wactors wframes wasks with_actor]; try done.
  - by rewrite length_insert.
  - intros b stb Hb. destruct (Hcase b stb Hb) as (stb0 & H0 & Hsh & _ & Hr & _). split; [done|].
    unfold reg_ok. rewrite Hsh. by apply I3.
  - intros b i. pose proof (I4 b i) as H. destruct (<[a:=st']> (wactors w) !! b) as [stb|] eqn:Hb.
    + destruct (Hcase b stb Hb) as (stb0 & H0 & _ & Hs & _). rewrite H0 in H. cbn in *. by rewrite Hs.
    + assert (wactors w !! b = None) as E; [|by rewrite E in H].
      apply lookup_ge_None. apply lookup_ge_None in Hb. by rewrite length_insert in Hb.
  - intros b stb c Hb Hin. destruct (Hcase b stb Hb) as (stb0 & H0 & _ & _ & _ & Hbox).
    destruct (proj1 (Hbox c) Hin) as [H|[_ H]]; [by eapply I7|by apply Hc].
  - intros b stb c sn Hb. destruct (Hcase b stb Hb) as (stb0 & H0 & -> & _). by apply (I8 b stb0).
  - intros b stb c sn Hb. destruct (Hcase b stb Hb) as (stb0 & H0 & -> & _). by apply (I9 b stb0).
  - intros k f to req sn Hk Hs. destruct (I10 k f to req sn Hk Hs) as [|(stt & Ht & Hbox)]; [by left|right].
    destruct (decide (to = a)) as [->|Hne].
    + exists st'. rewrite list_lookup_insert_eq by done. split; [done|]. apply spawn_box. left.
      by replace st with stt by congruence.
    + exists stt. by rewrite list_lookup_insert_ne.
Qed.

Lemma winv_post w b c : winv w → good (wasks w) c → winv (post b c w).
Proof.
  intros I Hc. unfold post, act. destruct (wactors w !! b) as [st|] eqn:Hb; [|done].
  destruct (exec b (LSend c) st) as [st'|] eqn:E; [|done]. cbn [default]. destruct st as [s ths].
  pose proof E as E'. cbn [Scheduler.exec] in E'. injection E' as <-.
  apply (winv_spawn w b (State s ths) (PSend c)); [done|done|done| |].
  - intros c'. by intros [= <-].
  - eapply reach_step; [by apply (wi_reach _ I)|done].
Qed.

Lemma post_delivered w b c : (b < length (wactors w))%nat → delivered_to (wactors (post b c w)) b c.
Proof.
  intros Hlt. destruct (lookup_lt_is_Some_2 _ _ Hlt) as [[s ths] Hb]. unfold post, act. rewrite Hb.
  cbn [Scheduler.exec from_option id with_actor wactors].
  exists (State s (ths ++ [Thread (PSend c) false callStart false])). rewrite list_lookup_insert_eq by done.
  split; [done|]. apply (spawn_box (State s ths)). by right.
Qed.

Lemma post_same w b c : wframes (post b c w) = wframes w ∧ wasks (post b c w) = wasks w ∧
  length (wactors (post b c w)) = length (wactors w).
Proof.
  unfold post, act. destruct (wactors w !! b) as [[s ths]|]; [|done].
  cbn [Scheduler.exec from_option id with_actor wframes wasks wactors]. by rewrite length_insert.
Qed.

Lemma winv_poison w w' a : winv w → act self hasRegister hasUnregister goid a LPoison w = Some w' → winv w'.
Proof.
  intros I. unfold act. destruct (wactors w !! a) as [st|] eqn:Ha; [|done].
  destruct (exec a LPoison st) as [st'|] eqn:E; [|done]. intros [= <-]. destruct st as [s ths].
  pose proof E as E'. cbn [Scheduler.exec] in E'. injection E' as <-.
  apply (winv_spawn w a (State s ths) (PPoison SDone)); [done..|].
  eapply reach_step; [by apply (wi_reach _ I)|done].
Qed.

(** *** A goroutine moves, and what its handler keeps with it *)

Definition set_frame (k : nat * nat) (o : option (frame U)) (fs : gmap (nat * nat) (frame U)) :=
  match o with Some f => <[k := f]> fs | None => delete k fs end.

Lemma set_frame_eq k o fs : set_frame k o fs !! k = o.
Proof. destruct o; [apply lookup_insert_eq|apply lookup_delete_eq]. Qed.
Lemma set_frame_ne k k' o fs : k ≠ k' → set_frame k o fs !! k' = fs !! k'.
Proof. intros H. destruct o; [by apply lookup_insert_ne|by apply lookup_delete_ne]. Qed.

Definition update a i st' (o : option (frame U)) w : world :=
  World (<[a := st']> (wactors w)) (set_frame (a, i) o (wframes w)) (wasks w).

(** The new frame [o] fits the goroutine and the other Asks, and what the old
    one owed, or the message just dispatched is owed, is paid or taken over. *)
Record fits a i st st' (o : option (frame U)) w : Prop := {
  ft_stage : stage_ok (stage st' i) o;
  ft_frame : ∀ f, o = Some f → frame_ok (wasks w) f;
  ft_ids : ∀ f sn, o = Some f → waits f sn →
    ∀ k f', wframes w !! k = Some f' → waits f' sn → k = (a, i);
  ft_sent : ∀ f to req sn, o = Some f → sent f = Some (to, req, sn) →
    answered (wasks w) sn ∨ delivered_to (wactors w) to (request_ctx to req sn);
  ft_letters : ∀ c sn, c ∈ letters (history (sh st')) → csender c = Some (reply_to sn) →
    c ∈ letters (history (sh st)) ∨ answered (wasks w) sn;
  ft_disp : ∀ c sn, c ∈ dispatched (history (sh st')) → csender c = Some (reply_to sn) →
    c ∈ dispatched (history (sh st)) ∨ answered (wasks w) sn ∨ serves o c;
  ft_old : ∀ c sn, serves (wframes w !! (a, i)) c → csender c = Some (reply_to sn) →
    answered (wasks w) sn ∨ serves o c
}.

Lemma winv_update w a i st st' o : winv w → wactors w !! a = Some st → moved a i st st' →
  fits a i st st' o w → winv (update a i st' o w).
Proof.
  intros [I1 I2 I3 I4 I5 I6 I7 I8 I9 I10] Ha [M1 M2 M3 M4] [F1 F2 F3 F4 F5 F6 F7].
  assert (Hlt : (a < length (wactors w))%nat) by (by eapply lookup_lt_Some).
  assert (Hcase : ∀ b stb, <[a := st']> (wactors w) !! b = Some stb →
    b = a ∧ stb = st' ∨ b ≠ a ∧ wactors w !! b = Some stb).
  { intros b stb Hb. apply list_lookup_insert_Some in Hb as [(<- & <- & _)|[? ?]]; [by left|right].
    by split. }
  assert (Hdel : ∀ to c, delivered_to (wactors w) to c → delivered_to (<[a := st']> (wactors w)) to c).
  { intros to c (stt & Ht & Hin). destruct (decide (to = a)) as [->|Hne].
    - exists st'. rewrite list_lookup_insert_eq by done. split; [done|]. apply M4. by replace st with stt by congruence.
    - exists stt. by rewrite list_lookup_insert_ne. }
  constructor; cbn [wactors wframes wasks update]; try done.
  - by rewrite length_insert.
  - intros b stb Hb. destruct (Hcase b stb Hb) as [[-> ->]|[_ H]]; [done|by apply I3].
  - intros b j. destruct (decide (b = a)) as [->|Hne].
    + rewrite list_lookup_insert_eq by done. cbn [from_option]. destruct (decide (j = i)) as [->|Hj].
      * by rewrite set_frame_eq.
      * rewrite set_frame_ne, M3 by congruence. pose proof (I4 a j) as H. by rewrite Ha in H.
    + rewrite list_lookup_insert_ne, set_frame_ne by congruence. apply I4.
  - intros k f Hk. destruct (decide ((a, i) = k)) as [<-|Hne].
    + rewrite set_frame_eq in Hk. by apply F2.
    + rewrite set_frame_ne in Hk by done. by eapply I5.
  - intros k1 k2 f1 f2 sn H1 H2 W1 W2.
    destruct (decide ((a, i) = k1)) as [<-|Hn1], (decide ((a, i) = k2)) as [<-|Hn2]; [done|..];
      rewrite ?set_frame_eq in H1; rewrite ?set_frame_eq in H2;
      rewrite ?set_frame_ne in H1 by done; rewrite ?set_frame_ne in H2 by done.
    + symmetry. by eapply F3.
    + by eapply F3.
    + by eapply I6.
  - intros b stb c Hb Hin. destruct (Hcase b stb Hb) as [[-> ->]|[_ H]]; [|by eapply I7].
    eapply I7; [exact Ha|]. by apply M4.
  - intros b stb c sn Hb Hin Hs. destruct (Hcase b stb Hb) as [[-> ->]|[_ H]]; [|by eapply I8].
    destruct (F5 c sn Hin Hs) as [H|H]; [by eapply I8|done].
  - intros b stb c sn Hb Hin Hs.
    assert (∀ j, serves (wframes w !! (b, j)) c → answered (wasks w) sn ∨
      ∃ j, serves (set_frame (a, i) o (wframes w) !! (b, j)) c) as Hkeep.
    { intros j Hj. destruct (decide ((a, i) = (b, j))) as [Hk|Hne].
      - injection Hk as <- <-. destruct (F7 c sn Hj Hs) as [H|H]; [by left|right]. exists i. by rewrite set_frame_eq.
      - right. exists j. by rewrite set_frame_ne. }
    destruct (Hcase b stb Hb) as [[-> ->]|[_ H]].
    + destruct (F6 c sn Hin Hs) as [H|[H|H]]; [|by left|].
      * destruct (I9 a st c sn Ha H Hs) as [|[j Hj]]; [by left|by eapply Hkeep].
      * right. exists i. by rewrite set_frame_eq.
    + destruct (I9 b stb c sn H Hin Hs) as [|[j Hj]]; [by left|by eapply Hkeep].
  - intros k f to req sn Hk Hs. destruct (decide ((a, i) = k)) as [<-|Hne].
    + rewrite set_frame_eq in Hk. destruct (F4 f to req sn Hk Hs) as [|H]; [by left|right]. by apply Hdel.
    + rewrite set_frame_ne in Hk by done. destruct (I10 k f to req sn Hk Hs) as [|H]; [by left|right]. by apply Hdel.
Qed.
End world.
