(* ===== verification/ReentrySteps.v ===== *)
(** * Every step keeps the invariant

    What a send on the node comes to (a sender at the target, or the asker's
    answer), and that each step of Reentry.v keeps the invariant of
    ReentryInv.v. *)

From S2P Require Import Prelude.
From S2P Require Import GoStrings.
From S2P Require Import Queue.
From S2P Require Import ActorId.
From S2P Require Import ErrCode.
From S2P Require Import Config.
From S2P Require Import Messages.
From S2P Require Import SafeMap.
From S2P Require Import Registry.
From S2P Require Import Routing.
From S2P Require Import System.
From S2P Require Import Ask.
From S2P Require Import AskFlow.
From S2P Require Import Scheduler.
From S2P Require Import SchedulerInv.
From S2P Require Import SchedulerCount.
From S2P Require Import SchedulerSafety.
From S2P Require Import SchedulerFifo.
From S2P Require Import SchedulerOrder.
From S2P Require Import SchedulerLetters.
From S2P Require Import SchedulerMoves.
From S2P Require Import Reentry.
From S2P Require Import ReentryInv.
Open Scope Z_scope.

Lemma direct_not_cluster (r : ActorRef) : isDirect r = true → isCluster r = false.
Proof.
  destruct r as [x|x]; [|done]. unfold isDirect, isCluster. intros H%bool_decide_eq_true_1.
  apply bool_decide_eq_false_2. by rewrite H.
Qed.

Section steps.
Context `{Env : GoEnv} {U Q M P : Type} {BQ : BoundedQueue Q (Ctx U)}
  {MI : MapImpl M string nat} {PI : MapImpl P Z nat}.
Context (sys : nat) (addr : string) (cfg : config Env).
Context (resolve : ActorRef → resolvedRoute) (builds : ActorRef → bool).
Context (self : nat → ActorRef) (hasRegister hasUnregister : nat → bool) (goid : nat → nat → Z).
Context (prog : nat → U → handler U) (weight : U → nat) (request : U → bool) (N : nat).
Context (is_T : Message U → bool) (as_error : Message U → option string).
Local Abbreviation world := (world U Q M P).
Implicit Types (w : world) (st : Scheduler.state U Q M) (c : Ctx U) (f : frame U).
Local Abbreviation exec a := (Scheduler.exec (self a) a (hasRegister a) (hasUnregister a) (goid a)).
Local Abbreviation reachable a := (Scheduler.reachable (self a) a (hasRegister a) (hasUnregister a) (goid a)).
Local Abbreviation act := (act self hasRegister hasUnregister goid).
Local Abbreviation post := (post self hasRegister hasUnregister goid).
Local Abbreviation on_node := (on_node self hasRegister hasUnregister goid).
Local Abbreviation tell_reports := (tell_reports sys addr cfg resolve builds self hasRegister hasUnregister goid).
Local Abbreviation Tell := (Tell sys addr cfg resolve builds).
Local Abbreviation Reply := (Reply sys addr cfg resolve builds).
Local Abbreviation tellWithSender := (tellWithSender sys addr cfg resolve builds).
Local Abbreviation reply_to sn := (newReplyRef sn addr sys).
Local Abbreviation winv := (winv sys addr self hasRegister hasUnregister goid weight request N).
Local Abbreviation good := (good sys addr self request).
Local Abbreviation request_ctx := (request_ctx sys addr self).

(** The actors are local, direct, and none is a reply reference. *)
Definition local_refs : Prop :=
  ∀ a, isDirect (self a) = true ∧ GetDirectAddr (self a) = addr ∧ isAsk (self a) = false ∧ GetSystem (self a) = sys.
Hypothesis Hlocal : local_refs.

(** ** Sends *)

Definition registered st (b : nat) : Prop := m_abs (registry (sh st)) !! GetId (self b) = Some b.
#[local] Instance registered_dec st b : Decision (registered st b).
Proof. unfold registered. apply _. Defined.

(** A message to an actor goes to its mailbox if it is registered, else its
    asker is told. *)
Lemma route_local b st w (m : Message U) sender sn (n : node M) : wactors w !! b = Some st → reg_ok self b st →
  is_poison m = false → nregistry n = registry (sh st) → nprocs n = self <$> seq 0 (length (wactors w)) →
  route_send sys addr cfg resolve builds (Some (self b)) m sender sn n =
    (if decide (registered st b) then DMail b (NewContext (self b) sender m sn)
     else DDead (MkDeadLetter (self b) None sender m sn DeadLetterReasonNotFound) (asking sender errActorNotFound), n).
Proof.
  intros Hb [W Hreg] Hm Hn Hp. destruct (Hlocal b) as (H1 & H2 & H3 & _).
  unfold route_send. rewrite H1, decide_True by done. unfold sendToLocal.
  rewrite H3, Hn, Hm, (direct_not_cluster _ H1). rewrite !(lookup_proc_abs _ _ W). unfold selfOf. rewrite Hp.
  destruct Hreg as [E|E]; rewrite E.
  - rewrite (decide_True _ _ (E : registered st b)).
    rewrite list_lookup_fmap, lookup_seq_lt by (by eapply lookup_lt_Some). done.
  - rewrite decide_False; [done|]. unfold registered. by rewrite E.
Qed.

Local Abbreviation next w := (u64 (askId (wasks w) + 1)).

Lemma with_asks_id w : with_asks (wasks w) w = w.
Proof. by destruct w. Qed.

(** A message the framework numbers itself: [Tell]. *)
Lemma on_node_tell b st w u : wactors w !! b = Some st → reg_ok self b st →
  on_node b (Tell (self b) (MUser u)) w =
    (if decide (registered st b) then post b (NewContext (self b) None (MUser u) (next w)) (bump w) else bump w).
Proof.
  intros Hb Hreg. destruct (Hlocal b) as (_ & _ & _ & H4).
  unfold Reentry.on_node, System.Tell, tell. rewrite Hb, decide_True by done. cbn [System.nextSnId node_of naskId nregistry nprocs ndraining].
  rewrite (route_local b st w) by done. case_decide; cbn [effects_of foldl naskId apply_effect]; done.
Qed.

(** A request, with its reply reference. *)
Lemma on_node_request b st w req sn : wactors w !! b = Some st → reg_ok self b st →
  on_node b (tellWithSender (Some (self b)) (MUser req) (Some (reply_to sn)) sn) w =
    (if decide (registered st b) then post b (request_ctx b req sn) w else answer sn (MErrCode errActorNotFound) (bump w)).
Proof.
  intros Hb Hreg. unfold Reentry.on_node, System.tellWithSender, send_body. rewrite Hb.
  rewrite (route_local b st w) by done. case_decide; cbn [effects_of foldl naskId apply_effect node_of].
  - by rewrite set_askId_id, with_asks_id.
  - cbn [asking newReplyRef isAsk GetSystem rsystem]. rewrite decide_True by done.
    unfold tell. cbn [System.nextSnId naskId nregistry nprocs ndraining].
    change (ReplyTo (ReplyRef sn addr sys)) with (reply_to sn). rewrite route_reply. done.
Qed.

(** A context's [Reply]. *)
Lemma on_node_reply a st w c (m : Message U) : wactors w !! a = Some st →
  csender c = None ∨ (∃ sn, csender c = Some (reply_to sn)) →
  on_node a (Reply c m) w = match csender c with Some (ReplyTo r) => answer (snId r) m w | _ => w end.
Proof.
  intros Ha Hc. destruct c as [tg sd msg k]. cbn [csender] in *. unfold Reentry.on_node. rewrite Ha.
  destruct Hc as [->|[sn ->]].
  - cbn [System.Reply csender]. unfold System.Reply, System.tellWithSender, send_body. cbn [csender route_send effects_of foldl node_of naskId].
    by rewrite set_askId_id, with_asks_id.
  - rewrite reply_here. cbn [newReplyRef snId foldl apply_effect node_of naskId]. by rewrite set_askId_id, with_asks_id.
Qed.

Lemma tell_reports_of a (d : list (event U)) w : tell_reports a d w =
  foldl (λ w r, match r with RTell to m => on_node a (Tell to m) w | RDead _ => w end) w (reports_of d).
Proof.
  unfold Reentry.tell_reports, reports_of. revert w. induction d as [|e d IH]; intros w; [done|].
  destruct e; csimpl; rewrite IH; done.
Qed.

Lemma on_node_tell_reply a st w sn (m : Message U) : wactors w !! a = Some st →
  on_node a (Tell (reply_to sn) m) w = answer sn m (bump w).
Proof.
  intros Ha. unfold Reentry.on_node. rewrite Ha, tell_reply. done.
Qed.

(** ** The programs *)

Hypothesis Hprog : ∀ a u, polite weight request N (weight u) (prog a u).
Hypothesis Hanswers : ∀ a u, request u = true → answers (prog a u).

Lemma self_not_reply a sn : self a ≠ reply_to sn.
Proof. intros E. destruct (Hlocal a) as (_ & _ & H & _). by rewrite E in H. Qed.

Lemma good_request w c sn : good (wasks w) c → csender c = Some (reply_to sn) →
  ∃ u, cmessage c = MUser u ∧ request u = true ∧ sn ≤ askId (wasks w).
Proof.
  unfold ReentryInv.good. intros H Hs. rewrite Hs in H. destruct (cmessage c) as [| | | | | |u];
    try (destruct H as [_ [a [= H]]]; by destruct (self_not_reply a sn)).
  destruct H as [?|(sn' & [= ->] & H1 & H2)]; [done|]. eauto.
Qed.

Lemma good_user w c u : good (wasks w) c → cmessage c = MUser u →
  csender c = None ∨ ∃ sn, csender c = Some (reply_to sn) ∧ sn ≤ askId (wasks w).
Proof. unfold ReentryInv.good. intros H E. rewrite E in H. destruct H as [?|(sn & ? & ? & _)]; eauto. Qed.

Lemma Receive_fits a c : polite weight request N (ctx_weight weight c) (Receive prog a c).
Proof. unfold Receive, ctx_weight. by destruct (cmessage c). Qed.

(** *** Ids *)

Lemma nowrap w : winv w → askId (wasks w) ≤ next w → askId (wasks w) + 1 < 2 ^ 64.
Proof.
  intros I Hle. destruct (wi_asks _ _ _ _ _ _ _ _ _ _ I) as (_ & Hb & _).
  destruct (decide (askId (wasks w) + 1 = 2 ^ 64)) as [E|]; [|lia]. rewrite E in Hle.
  change (u64 (2 ^ 64)) with 0 in Hle. lia.
Qed.

Lemma winv_bump' w : winv w → askId (wasks w) ≤ askId (wasks (bump w)) → winv (bump w).
Proof. intros I H. apply winv_bump; [done|]. by apply nowrap. Qed.

Lemma answer_answers w sn m : winv w → sn ≤ askId (wasks w) → answered (wasks (answer sn m w)) sn.
Proof. intros I H. apply deliverReply_answers; [exact (wi_asks _ _ _ _ _ _ _ _ _ _ I)|done]. Qed.

Lemma bump_le w : winv w → askId (wasks w) ≤ askId (wasks (bump w)) →
  ∀ sn, sn ≤ askId (wasks w) → sn ≤ askId (wasks (bump w)).
Proof. intros _ H sn. lia. Qed.

(** ** The sends keep it *)

(** What a send changes: not the frames, and the pending table only grows. *)
Definition sends w w' : Prop :=
  winv w' ∧ wframes w' = wframes w ∧ length (wactors w') = length (wactors w) ∧
  asks_grow (live (wframes w)) (wasks w) (wasks w').

Lemma sends_tell w b u : winv w → (b < length (wactors w))%nat →
  let w' := on_node b (Tell (self b) (MUser u)) w in askId (wasks w) ≤ askId (wasks w') → sends w w'.
Proof.
  intros I Hlt. destruct (lookup_lt_is_Some_2 _ _ Hlt) as [st Hb]. cbv zeta.
  destruct (wi_reach _ _ _ _ _ _ _ _ _ _ I b st Hb) as [_ Hreg]. rewrite (on_node_tell b st w u Hb Hreg).
  assert (∀ w', wasks w' = wasks (bump w) → askId (wasks w) ≤ askId (wasks w') →
    askId (wasks w) + 1 < 2 ^ 64 ∧ asks_grow (live (wframes w)) (wasks w) (wasks w')) as Hg.
  { intros w' E H. rewrite E in *. pose proof (nowrap w I H) as Hn. split; [done|].
    apply bump_grows; [exact (wi_asks _ _ _ _ _ _ _ _ _ _ I)|done]. }
  case_decide; intros Hle.
  - destruct (post_same self hasRegister hasUnregister goid (bump w) b (NewContext (self b) None (MUser u) (next w)))
      as (E1 & E2 & E3). destruct (Hg _ E2 Hle) as [Hn Hgr].
    split; [|by rewrite E1, E3]. apply winv_post; [by apply winv_bump|]. by left.
  - destruct (Hg _ eq_refl Hle) as [Hn Hgr]. split; [by apply winv_bump|done].
Qed.

Lemma sends_request w b req sn : winv w → (b < length (wactors w))%nat → sn ≤ askId (wasks w) → request req = true →
  let w' := on_node b (tellWithSender (Some (self b)) (MUser req) (Some (reply_to sn)) sn) w in
  askId (wasks w) ≤ askId (wasks w') →
  sends w w' ∧ (answered (wasks w') sn ∨ delivered_to (wactors w') b (request_ctx b req sn)).
Proof.
  intros I Hlt Hsn Hreq. destruct (lookup_lt_is_Some_2 _ _ Hlt) as [st Hb]. cbv zeta.
  destruct (wi_reach _ _ _ _ _ _ _ _ _ _ I b st Hb) as [_ Hreg]. rewrite (on_node_request b st w req sn Hb Hreg).
  pose proof (wi_asks _ _ _ _ _ _ _ _ _ _ I) as Hok. case_decide; intros Hle.
  - destruct (post_same self hasRegister hasUnregister goid w b (request_ctx b req sn)) as (E1 & E2 & E3).
    split; [|right; by apply post_delivered]. split.
    + apply winv_post; [done|]. right. by exists sn.
    + rewrite E1, E2, E3. by split_and!.
  - unfold answer in Hle. cbn [with_asks wasks] in Hle. rewrite deliverReply_askId in Hle.
    assert (winv (bump w)) as I' by (by apply winv_bump').
    split; [|left; apply answer_answers; [done|lia]].
    split_and!; [by apply winv_answer|done|done|].
    pose proof (bump_grows (live (wframes w)) (wasks w) Hok (nowrap w I Hle)) as G1.
    pose proof (deliverReply_grows (live (wframes w)) sn (MErrCode errActorNotFound) _
      (wi_asks _ _ _ _ _ _ _ _ _ _ I')) as G2.
    destruct G1 as (_ & L1 & A1 & C1), G2 as (O2 & L2 & A2 & C2). split_and!; [done|exact (Z.le_trans _ _ _ L1 L2)|by intros sn' Ha; apply A2, A1|].
    intros sn' ch Hl Hc. apply C2; [done|]. by apply C1.
Qed.

Lemma sends_reply w a c m : winv w → (a < length (wactors w))%nat → good (wasks w) c → (∃ u, cmessage c = MUser u) →
  let w' := on_node a (Reply c m) w in
  sends w w' ∧ wactors w' = wactors w ∧ ∀ sn, csender c = Some (reply_to sn) → answered (wasks w') sn.
Proof.
  intros I Hlt Hc [u Hu]. destruct (lookup_lt_is_Some_2 _ _ Hlt) as [st Ha]. cbv zeta.
  destruct (good_user w c u Hc Hu) as [Hs|(sn & Hs & Hle)];
    (rewrite (on_node_reply a st w c m Ha) by eauto); rewrite Hs.
  - split; [|by split]. pose proof (wi_asks _ _ _ _ _ _ _ _ _ _ I). by split_and!.
  - cbn [newReplyRef snId]. split.
    + split_and!; [by apply winv_answer|done|done|]. apply deliverReply_grows. exact (wi_asks _ _ _ _ _ _ _ _ _ _ I).
    + split; [done|]. intros sn' [= <-]. by apply answer_answers.
Qed.

(** ** The handlers keep it *)

Local Abbreviation update := (update (Q := Q) (M := M) (P := P)).
Local Abbreviation moved := (moved self hasRegister hasUnregister goid).
Local Abbreviation frame_ok := (frame_ok sys addr self weight request N).
Local Abbreviation handler_step := (handler_step sys addr cfg resolve builds self hasRegister hasUnregister goid weight is_T as_error).

(** A handler goes on from [f0] to [f'] while its goroutine stays where it is. *)
Record continues w f0 f' : Prop := {
  ct_ctx : fctx f' = fctx f0;
  ct_stage : fask f' = None ↔ fask f0 = None;
  ct_frame : frame_ok (wasks w) f';
  ct_ids : ∀ sn, waits f' sn → waits f0 sn;
  ct_sent : ∀ to req sn, sent f' = Some (to, req, sn) →
    answered (wasks w) sn ∨ delivered_to (wactors w) to (request_ctx to req sn);
  ct_owes : ∀ sn, csender (fctx f0) = Some (reply_to sn) → answers (fcode f0) →
    answered (wasks w) sn ∨ answers (fcode f')
}.

Lemma winv_frame w a i st f0 f' : winv w → wactors w !! a = Some st → wframes w !! (a, i) = Some f0 →
  continues w f0 f' → winv (with_frame (a, i) f' w).
Proof.
  intros I Ha Hf [C1 C2 C3 C4 C5 C6].
  assert (with_frame (a, i) f' w = update a i st (Some f') w) as ->.
  { unfold with_frame, ReentryInv.update. by rewrite list_insert_id. }
  destruct (wi_reach _ _ _ _ _ _ _ _ _ _ I a st Ha) as [Hr Hreg].
  eapply winv_update; [done|done|by apply moved_refl|]. constructor.
  - pose proof (wi_stage _ _ _ _ _ _ _ _ _ _ I a i) as H. rewrite Ha, Hf in H. cbn in H.
    destruct (stage st i); cbn in *; [done|..]; destruct H as (f & [= <-] & H); exists f'; (split; [done|]); tauto.
  - by intros f [= <-].
  - intros f sn [= <-] Hw k f'' Hk Hw'. eapply (wi_ids _ _ _ _ _ _ _ _ _ _ I); [exact Hk|exact Hf|done|by apply C4].
  - intros f to req sn [= <-]. by apply C5.
  - intros c sn Hc _. by left.
  - intros c sn Hc _. by left.
  - intros c sn (f & Hf' & Hc & Han) Hs. rewrite Hf in Hf'. injection Hf' as <-.
    rewrite <-Hc in Hs. destruct (C6 sn Hs Han) as [|]; [by left|right]. exists f'. by rewrite C1.
Qed.

Lemma good_sends w w' c : sends w w' → good (wasks w) c → good (wasks w') c.
Proof. intros (_ & _ & _ & Hg) H. by eapply good_grows. Qed.

(** A call that sends, and the rest of the body. *)
Lemma winv_sent w w' a i f0 f' : sends w w' → wframes w !! (a, i) = Some f0 → continues w' f0 f' →
  winv (with_frame (a, i) f' w').
Proof.
  intros (I' & Ef & El & _) Hf Hc.
  assert (is_Some (wactors w' !! a)) as [st Hst].
  { destruct (wactors w' !! a) eqn:E; [by eexists|].
    pose proof (frames_fresh _ _ _ _ _ _ _ _ _ w' a i I') as H. rewrite E, Ef, Hf in H. by specialize (H eq_refl). }
  eapply winv_frame; [done|done|by rewrite Ef|done].
Qed.

Lemma frame_at w a i f : winv w → wframes w !! (a, i) = Some f → ∃ st, wactors w !! a = Some st.
Proof.
  intros I Hf. destruct (wactors w !! a) as [st|] eqn:E; [by exists st|].
  pose proof (frames_fresh _ _ _ _ _ _ _ _ _ w a i I) as H. rewrite E, Hf in H. by specialize (H eq_refl).
Qed.

Lemma channel_grows w p sn ch : asks_grow (live (wframes w)) (wasks w) p → live (wframes w) sn →
  channel_ok (wasks w) sn ch → channel_ok p sn ch.
Proof. intros (_ & _ & _ & H). by apply H. Qed.

(** After a call that is not an Ask, or an Ask refused. *)
Lemma continues_plain w w' f0 k n : sends w w' → frame_ok (wasks w) f0 → fcode f0 ≠ HReturn → fask f0 = None →
  polite weight request N (ctx_weight weight (fctx f0)) k →
  (∀ sn, csender (fctx f0) = Some (reply_to sn) → answers (fcode f0) → answered (wasks w') sn ∨ answers k) →
  continues w' f0 (Frame (fctx f0) k None n).
Proof.
  intros Hs (Hg & Hu & _) Hne Hn Hk Ho. destruct Hu as [Hu|]; [|done]. constructor; try done.
  - split_and!; [by eapply good_sends|by left|done|done].
  - by intros sn (ch & s & E).
Qed.

Lemma code_plain w f0 : frame_ok (wasks w) f0 → fask f0 = None →
  polite weight request N (ctx_weight weight (fctx f0)) (fcode f0).
Proof. intros (_ & _ & H & _) E. unfold code_ok in H. by rewrite E in H. Qed.

Lemma winv_HReply w a i f0 m k : winv w → wframes w !! (a, i) = Some f0 → fcode f0 = HReply m k → fask f0 = None →
  winv (with_frame (a, i) (Frame (fctx f0) k None (fbudget f0 - 1)) (on_node a (Reply (fctx f0) m) w)).
Proof.
  intros I Hf Hc Hn. pose proof (wi_frame _ _ _ _ _ _ _ _ _ _ I _ _ Hf) as Hok.
  destruct (frame_at w a i f0 I Hf) as [st Ha]. pose proof (code_plain w f0 Hok Hn) as Hw. rewrite Hc in Hw. cbn in Hw.
  assert (fcode f0 ≠ HReturn) as Hne by (by rewrite Hc). pose proof Hok as (Hg & [Hu|] & _); [|done].
  destruct (sends_reply w a (fctx f0) m I) as (Hs & _ & Han); [by eapply lookup_lt_Some|done..|].
  eapply winv_sent; [exact Hs|exact Hf|]. eapply continues_plain; try done.
  intros sn Hsn _. left. by apply Han.
Qed.

Lemma winv_HTell w a i f0 to u k : winv w → wframes w !! (a, i) = Some f0 → fcode f0 = HTell to u k → fask f0 = None →
  let w' := on_node to (Tell (self to) (MUser u)) w in askId (wasks w) ≤ askId (wasks w') →
  winv (with_frame (a, i) (Frame (fctx f0) k None (fbudget f0 - (1 + weight u))) w').
Proof.
  intros I Hf Hc Hn w' Hle. pose proof (wi_frame _ _ _ _ _ _ _ _ _ _ I _ _ Hf) as Hok.
  pose proof (code_plain w f0 Hok Hn) as Hw. rewrite Hc in Hw. cbn in Hw. destruct Hw as (Hto & Hw).
  assert (fcode f0 ≠ HReturn) as Hne by (by rewrite Hc).
  pose proof (sends_tell w to u I) as Hs. rewrite (wi_len _ _ _ _ _ _ _ _ _ _ I) in Hs. specialize (Hs Hto Hle).
  eapply winv_sent; [exact Hs|exact Hf|]. eapply continues_plain; try done.
  intros sn _ Han. right. by rewrite Hc in Han.
Qed.

(** *** Ask *)

Local Abbreviation Ask_begin := (Ask_begin self hasRegister hasUnregister goid weight).
Local Abbreviation Ask_send := (Ask_send sys addr cfg resolve builds self hasRegister hasUnregister goid weight).
Local Abbreviation Ask_end := (Ask_end self hasRegister hasUnregister goid is_T as_error).

Lemma sends_refl w : winv w → sends w w.
Proof. intros I. pose proof (wi_asks _ _ _ _ _ _ _ _ _ _ I). by split_and!. Qed.

Lemma sends_bump w : winv w → askId (wasks w) ≤ askId (wasks (bump w)) → sends w (bump w).
Proof.
  intros I H. split_and!; [by apply winv_bump'|done|done|].
  apply bump_grows; [exact (wi_asks _ _ _ _ _ _ _ _ _ _ I)|by apply nowrap].
Qed.

Lemma winv_refused w w' a i f0 to req k e : sends w w' → wframes w !! (a, i) = Some f0 →
  frame_ok (wasks w) f0 → fcode f0 = HAsk to req k → fask f0 = None →
  winv (with_frame (a, i) (Frame (fctx f0) (k (inr e)) None (fbudget f0 - (2 + weight req))) w').
Proof.
  intros Hs Hf Hok Hc Hn. pose proof (code_plain w f0 Hok Hn) as Hw. rewrite Hc in Hw. cbn in Hw.
  destruct Hw as (_ & _ & _ & Hw). assert (fcode f0 ≠ HReturn) as Hne by (by rewrite Hc).
  eapply winv_sent; [exact Hs|exact Hf|]. eapply continues_plain; try done.
  intros sn _ Han. right. rewrite Hc in Han. apply Han.
Qed.

Lemma winv_Ask_send w a i f0 to req k sn ch : winv w → wframes w !! (a, i) = Some f0 →
  fcode f0 = HAsk to req k → fask f0 = Some (sn, ch, Suspending) →
  let w' := Ask_send a i f0 to req k sn ch w in askId (wasks w) ≤ askId (wasks w') → winv w'.
Proof.
  intros I Hf Hc Hn w' Hle. pose proof (wi_frame _ _ _ _ _ _ _ _ _ _ I _ _ Hf) as Hok.
  pose proof Hok as (Hg & Hu & Hcode & Hch). unfold code_ok in Hcode. rewrite Hn, Hc in Hcode. rewrite Hn in Hch.
  destruct Hcode as (Hto & Hreq & Hlt & Hk), Hu as [Hu|Hu]; [|by rewrite Hc in Hu].
  pose proof (sends_request w to req sn I) as Hs. rewrite (wi_len _ _ _ _ _ _ _ _ _ _ I) in Hs.
  specialize (Hs Hto (proj1 Hch) Hreq Hle) as [Hs Hdel].
  eapply winv_sent; [exact Hs|exact Hf|]. constructor; try done.
  - cbn. by rewrite Hn.
  - split_and!; [by eapply good_sends|by left| |].
    + cbn. auto.
    + cbn. eapply channel_grows; [apply Hs| |done]. exists (a, i), f0. split; [done|]. by exists ch, Suspending.
  - intros sn' (ch' & s & [= <- <- <-]). by exists ch, Suspending.
  - by intros to' req' sn' [= <- <- <-].
  - intros sn' _ Han. right. by rewrite Hc in Han.
Qed.

(** ** The handler's goroutine moves *)

Lemma act_inv a l w w' : act a l w = Some w' →
  ∃ st st', wactors w !! a = Some st ∧ exec a l st = Some st' ∧ w' = with_actor a st' w.
Proof.
  unfold Reentry.act. destruct (wactors w !! a) as [st|] eqn:Ha; [|done].
  destruct (exec a l st) as [st'|] eqn:E; [|done]. intros [= <-]. eauto.
Qed.

(** A goroutine in a handler takes in, gives up and dispatches nothing. *)
Lemma handler_moves a i ch st st' : reachable a st → reg_ok self a st → exec a (LStep i ch) st = Some st' →
  stage st i ≠ SNone → moved a i st st' ∧ letters (history (sh st')) = letters (history (sh st)) ∧
  dispatched (history (sh st')) = dispatched (history (sh st)) ∧
  ∃ p p', pc_of st i = Some p ∧ pc_of st' i = Some p' ∧ stage_moves p ch p'.
Proof.
  intros Hr Hreg E Hs. destruct (exec_moved _ _ _ _ _ _ _ _ _ Hr Hreg E)
    as (p & p' & d & Hp & Hp' & Hst & Hd & (_ & Hdisp & Hlet) & Hm).
  unfold stage in Hs. rewrite Hp in Hs. cbn in Hs. split; [done|]. rewrite Hd.
  unfold letters, dispatched in *. rewrite !omap_app, Hdisp.
  destruct Hlet as [[_ ->]|[Hn _]]; [|done]. rewrite app_nil_r. split; [done|]. split; [|eauto].
  destruct p; cbn in *; by rewrite ?app_nil_r.
Qed.

Lemma winv_steps w a i ch st st' f0 o : winv w → wactors w !! a = Some st → wframes w !! (a, i) = Some f0 →
  exec a (LStep i ch) st = Some st' → stage_ok (stage st' i) o →
  (∀ f', o = Some f' → frame_ok (wasks w) f' ∧ sent f' = None ∧
     ∀ sn k f'', waits f' sn → wframes w !! k = Some f'' → waits f'' sn → k = (a, i)) →
  (∀ sn, csender (fctx f0) = Some (reply_to sn) → answers (fcode f0) →
     ∃ f', o = Some f' ∧ fctx f' = fctx f0 ∧ answers (fcode f')) →
  winv (update a i st' o w).
Proof.
  intros I Ha Hf E Hst Ho Howes. destruct (wi_reach _ _ _ _ _ _ _ _ _ _ I a st Ha) as [Hr Hreg].
  assert (stage st i ≠ SNone) as Hs.
  { pose proof (wi_stage _ _ _ _ _ _ _ _ _ _ I a i) as H. rewrite Ha, Hf in H. cbn in H. by intros Hs; rewrite Hs in H. }
  destruct (handler_moves a i ch st st' Hr Hreg E Hs) as (Hm & E1 & E2 & _).
  eapply winv_update; [done|done|exact Hm|]. constructor; rewrite ?E1, ?E2; try done.
  - intros f' Hf'. by apply Ho.
  - intros f' sn Hf' Hw k f'' Hk Hw'. destruct (Ho f' Hf') as (_ & _ & H). by eapply H.
  - intros f' to req sn Hf' Hsn. destruct (Ho f' Hf') as (_ & H & _). by rewrite H in Hsn.
  - by left.
  - by left.
  - intros c sn (f & Hf' & Hc & Han) Hsn. rewrite Hf in Hf'. injection Hf' as <-. rewrite <-Hc in *.
    right. destruct (Howes sn Hsn Han) as (f' & ? & ? & ?). by exists f'.
Qed.

Lemma stage_after a i ch st st' p : reachable a st → reg_ok self a st → exec a (LStep i ch) st = Some st' →
  pc_of st i = Some p → stage_of p ≠ SNone → ∃ p', pc_of st' i = Some p' ∧ stage_moves p ch p' ∧ stage st' i = stage_of p'.
Proof.
  intros Hr Hreg E Hp Hs. assert (stage st i ≠ SNone) as Hs' by (unfold stage; by rewrite Hp).
  destruct (handler_moves a i ch st st' Hr Hreg E Hs') as (_ & _ & _ & q & p' & Hq & Hp' & Hm).
  rewrite Hp in Hq. injection Hq as <-. exists p'. split_and!; [done..|]. unfold stage. by rewrite Hp'.
Qed.

(** The handler returns or panics. *)
Lemma winv_ends w w' a i ch f0 : winv w → pc_at a i w = Some PReceive → wframes w !! (a, i) = Some f0 →
  ¬ answers (fcode f0) → ch = CReturn ∨ ch = CPanic →
  act a (LStep i ch) (drop_frame (a, i) w) = Some w' → winv w'.
Proof.
  intros I Hp Hf Hn Hch (st & st' & Ha & E & ->)%act_inv. cbn [drop_frame wactors] in Ha.
  destruct (wi_reach _ _ _ _ _ _ _ _ _ _ I a st Ha) as [Hr Hreg].
  assert (pc_of st i = Some PReceive) as Hpc by (unfold pc_at in Hp; by rewrite Ha in Hp).
  destruct (stage_after a i ch st st' PReceive Hr Hreg E Hpc) as (p' & _ & Hm & Hst'); [done|].
  apply (winv_steps w a i ch st st' f0 None); try done.
  rewrite Hst'. destruct Hch as [-> | ->]; cbn in Hm; by rewrite Hm.
Qed.

(** The suspension of an admitted Ask. *)
Lemma suspends a i st st' r : pc_of st i = Some PReceive →
  Ask_check (kind_of (threads st)) (sh st) (goid a i) = inr r → exec a (LStep i CAsk) st = Some st' →
  stage st' i = SAsking.
Proof.
  unfold pc_of, stage. destruct st as [s ths]. cbn [sh threads]. intros Hp Hc E. cbn [Scheduler.exec] in E.
  destruct (ths !! i) as [t|] eqn:Hi; [|done]. cbn in Hp. injection Hp as Hp.
  unfold tstep in E. rewrite Hp in E. unfold receive_step in E. rewrite Hp in E. unfold do_ask in E. rewrite Hc in E.
  destruct (decide (r = i)); [|done]. destruct (suspend t) as [t' new] eqn:Es. injection E as <-. cbn [threads].
  unfold pc_of. cbn [threads]. rewrite lookup_app_l by (rewrite length_insert; by eapply lookup_lt_Some).
  rewrite list_lookup_insert_eq by (by eapply lookup_lt_Some). cbn.
  unfold suspend in Es. destruct (drainOwnershipTransferred t); injection Es as <- _; done.
Qed.

Lemma winv_Ask_begin w w' a i f0 to req k : winv w → pc_at a i w = Some PReceive → wframes w !! (a, i) = Some f0 →
  fcode f0 = HAsk to req k → fask f0 = None → Ask_begin a i f0 to req k w = Some w' →
  askId (wasks w) ≤ askId (wasks w') → winv w'.
Proof.
  intros I Hp Hf Hc Hn E Hle. pose proof (wi_frame _ _ _ _ _ _ _ _ _ _ I _ _ Hf) as Hok.
  unfold Reentry.Ask_begin in E. destruct (wactors w !! a) as [st|] eqn:Ha; [|done].
  destruct (Ask_check _ _ _) as [e|r] eqn:Hcheck.
  { injection E as <-. eapply winv_refused; [by apply sends_refl|done..]. }
  unfold Ask.nextSnId in E. destruct (registerAsk _ _) as [[ch|] p] eqn:Hreg.
  - destruct (act_inv _ _ _ _ E) as (st0 & st' & Ha' & Est & ->).
    cbn [with_frame with_asks with_actor wactors wasks] in *. rewrite Ha in Ha'. injection Ha' as <-.
    pose proof (wi_asks _ _ _ _ _ _ _ _ _ _ I) as Hasks.
    assert (askId p = next w) as Hp' by (unfold registerAsk in Hreg; cbn in Hreg; destruct (closed (wasks w)); by simplify_eq/=).
    rewrite Hp' in Hle.
    destruct (registerAsk_grows (live (wframes w)) (wasks w) ch p Hasks (nowrap w I Hle) Hreg) as (Hg & Hch & _ & Hlt).
    pose proof (winv_asks _ _ _ _ _ _ _ _ _ w p I Hg) as I'.
    pose proof (code_plain w f0 Hok Hn) as Hw. rewrite Hc in Hw. cbn in Hw. destruct Hw as (Hto & Hreq & Hlw & Hk).
    destruct Hok as (Hgood & [Hu|Hu] & _); [|by rewrite Hc in Hu].
    apply (winv_steps (with_asks p w) a i CAsk st st' f0
      (Some (Frame (fctx f0) (HAsk to req k) (Some (next w, ch, Suspending)) (fbudget f0 - 1)))); try done.
    + rewrite (suspends a i st st' r); [by eexists| |done|done]. unfold pc_at in Hp. by rewrite Ha in Hp.
    + intros f' [= <-]. split_and!; [|done|].
      * split_and!; [by eapply good_grows|by left|by cbn|done].
      * intros sn k' f'' (ch' & s & [= <- _ _]) Hk' (ch'' & s' & Hw').
        pose proof (wi_frame _ _ _ _ _ _ _ _ _ _ I _ _ Hk') as (_ & _ & _ & H). rewrite Hw' in H.
        destruct H as [H _]. lia.
    + intros sn Hsn Han. eexists. split_and!; [done|done|]. by rewrite Hc in Han.
  - assert (p = set_askId (next w) (wasks w)) as ->.
    { unfold registerAsk in Hreg. cbn in Hreg. destruct (closed (wasks w)); by simplify_eq/=. }
    injection E as <-. eapply (winv_refused w (bump w)); [by apply sends_bump|done..].
Qed.

Lemma winv_Ask_end w w' a i f0 to req k sn ch tmo : winv w → pc_at a i w = Some PAwait → wframes w !! (a, i) = Some f0 →
  fcode f0 = HAsk to req k → fask f0 = Some (sn, ch, Awaiting) → Ask_end a i f0 k sn ch tmo w = Some w' → winv w'.
Proof.
  intros I Hp Hf Hc Hn E. pose proof (wi_frame _ _ _ _ _ _ _ _ _ _ I _ _ Hf) as Hok.
  unfold Reentry.Ask_end in E. destruct (ask_end _ _ _ _ _ _) as [[r p]|] eqn:Hend; [|done].
  assert (p = cancelAsk sn (wasks w)) as ->.
  { unfold ask_end in Hend. repeat case_match; by simplify_eq/=. }
  destruct (act_inv _ _ _ _ E) as (st & st' & Ha & Est & ->). cbn [with_frame with_asks wactors] in Ha.
  destruct (wi_reach _ _ _ _ _ _ _ _ _ _ I a st Ha) as [Hr Hreg].
  assert (pc_of st i = Some PAwait) as Hpc by (unfold pc_at in Hp; by rewrite Ha in Hp).
  destruct (stage_after a i CReturn st st' PAwait Hr Hreg Est Hpc) as (p' & _ & Hm & Hst'); [done|].
  set (f' := Frame (fctx f0) (k r) None (fbudget f0)).
  assert (winv (update a i st' (Some f') w)) as I'.
  { destruct Hok as (Hgood & Hu & Hcode & _). unfold code_ok in Hcode. rewrite Hn, Hc in Hcode.
    destruct Hcode as (_ & _ & _ & Hk).
    destruct Hu as [Hu|Hu]; [|by rewrite Hc in Hu].
    apply (winv_steps w a i CReturn st st' f0 (Some f')); try done.
    - rewrite Hst'. cbn in Hm. rewrite Hm. by exists f'.
    - intros f1 [= <-]. split_and!; [split_and!; [done|by left| |done]|done|by intros ??? (?&?&?)].
      apply Hk.
    - intros sn' _ Han. exists f'. split_and!; [done|done|]. rewrite Hc in Han. apply Han. }
  change (with_actor a st' _) with (with_asks (cancelAsk sn (wasks w)) (update a i st' (Some f') w)).
  apply winv_asks; [done|]. apply cancelAsk_grows; [exact (wi_asks _ _ _ _ _ _ _ _ _ _ I)|].
  intros (k' & f'' & Hk' & Hw). cbn [ReentryInv.update wframes] in Hk'. destruct (decide ((a, i) = k')) as [<-|Hne].
  - rewrite set_frame_eq in Hk'. injection Hk' as <-. by destruct Hw as (?&?&?).
  - rewrite set_frame_ne in Hk' by done. apply Hne. eapply (wi_ids _ _ _ _ _ _ _ _ _ _ I); [exact Hf|exact Hk'| |done].
    by exists ch, Awaiting.
Qed.

Lemma winv_handler w w' a i : winv w → handler_step a i w = Some w' → askId (wasks w) ≤ askId (wasks w') → winv w'.
Proof.
  intros I E Hle. unfold Reentry.handler_step in E. destruct (pc_at a i w) as [p|] eqn:Hp; [|done].
  destruct (wframes w !! (a, i)) as [f|] eqn:Hf; [|by destruct p]. destruct p; try done.
  - destruct (fcode f) as [| |m k|to u k|to req k] eqn:Hc, (fask f) as [x|] eqn:Hn; try done.
    + eapply winv_ends; [done|done|done|rewrite Hc; by intros []|by left|done].
    + eapply winv_ends; [done|done|done|rewrite Hc; by intros []|by right|done].
    + injection E as <-. by eapply winv_HReply.
    + injection E as <-. by eapply winv_HTell.
    + by eapply winv_Ask_begin.
  - destruct (fcode f) as [| |m k|to u k|to req k] eqn:Hc; try done.
    destruct (fask f) as [[[sn ch] []]|] eqn:Hn; try done.
    + injection E as <-. by eapply winv_Ask_send.
    + by eapply winv_Ask_end.
Qed.
End steps.
