(* ===== verification/ReentryReach.v ===== *)
(** * The invariant in every reachable state

    The framework's steps and the environment's, from the spawns on. *)

From S2P Require Import Prelude.
From S2P Require Import GoStrings.
From S2P Require Import Queue.
From S2P Require Import ActorId.
From S2P Require Import ErrCode.
From S2P Require Import Config.
From S2P Require Import Messages.
From S2P Require Import SafeMap.
From S2P Require Import Registry.
From S2P Require Import Routing.
From S2P Require Import System.
From S2P Require Import Ask.
From S2P Require Import AskFlow.
From S2P Require Import Scheduler.
From S2P Require Import SchedulerInv.
From S2P Require Import SchedulerCount.
From S2P Require Import SchedulerSafety.
From S2P Require Import SchedulerFifo.
From S2P Require Import SchedulerOrder.
From S2P Require Import SchedulerLetters.
From S2P Require Import SchedulerMoves.
From S2P Require Import Reentry.
From S2P Require Import ReentryInv.
From S2P Require Import ReentrySteps.
Open Scope Z_scope.

Section reach.
Context `{Env : GoEnv} {U Q M P : Type} {BQ : BoundedQueue Q (Ctx U)}
  {MI : MapImpl M string nat} {PI : MapImpl P Z nat}.
Context (sys : nat) (addr : string) (cfg : config Env).
Context (resolve : ActorRef → resolvedRoute) (builds : ActorRef → bool).
Context (self : nat → ActorRef) (hasRegister hasUnregister : nat → bool) (goid : nat → nat → Z).
Context (prog : nat → U → handler U) (weight : U → nat) (request : U → bool) (N : nat).
Context (is_T : Message U → bool) (as_error : Message U → option string).
Local Abbreviation world := (world U Q M P).
Implicit Types (w : world) (st : Scheduler.state U Q M) (c : Ctx U) (f : frame U).
Local Abbreviation exec a := (Scheduler.exec (self a) a (hasRegister a) (hasUnregister a) (goid a)).
Local Abbreviation reachable a := (Scheduler.reachable (self a) a (hasRegister a) (hasUnregister a) (goid a)).
Local Abbreviation act := (act self hasRegister hasUnregister goid).
Local Abbreviation on_node := (on_node self hasRegister hasUnregister goid).
Local Abbreviation tell_reports := (tell_reports sys addr cfg resolve builds self hasRegister hasUnregister goid).
Local Abbreviation reply_to sn := (newReplyRef sn addr sys).
Local Abbreviation winv := (winv sys addr self hasRegister hasUnregister goid weight request N).
Local Abbreviation good := (good sys addr self request).
Local Abbreviation fits := (fits sys addr self weight request N).

Hypothesis Hlocal : local_refs sys addr self.
Hypothesis Hprog : ∀ a u, polite weight request N (weight u) (prog a u).
Hypothesis Hanswers : ∀ a u, request u = true → answers (prog a u).
Local Abbreviation update := (update (Q := Q) (M := M) (P := P)).
Local Abbreviation framework_step := (framework_step sys addr cfg resolve builds self hasRegister hasUnregister goid prog weight).
Local Abbreviation wexec := (wexec sys addr cfg resolve builds self hasRegister hasUnregister goid prog weight is_T as_error).
Local Abbreviation wreachable := (wreachable sys addr cfg resolve builds self hasRegister hasUnregister goid prog weight is_T as_error).

(** ** The framework's steps *)

(** Whoever asked for a message that was given up is told, which takes an id. *)
Definition told w (d : list (event U)) w1 : Prop :=
  w1 = w ∧ (∀ c sn, c ∈ letters d → csender c ≠ Some (reply_to sn)) ∨
  ∃ c sn m, letters d = [c] ∧ csender c = Some (reply_to sn) ∧ sn ≤ askId (wasks w) ∧ w1 = answer sn m (bump w).

Lemma reports_told w a st st' p p' d : wactors w !! a = Some st → hands_on (self a) p p' d →
  (∀ c, c ∈ letters d → good (wasks w) c) →
  ∃ w1, tell_reports a d (with_actor a st' w) = with_actor a st' w1 ∧ told w d w1.
Proof.
  intros Ha (_ & _ & Hrep) Hg. rewrite tell_reports_of. unfold told.
  destruct Hrep as [[-> Hl]|(_ & c & reason & -> & Hl)]; rewrite Hl in *.
  { exists w. split; [done|left]. split; [done|]. intros c sn H. by apply elem_of_nil in H. }
  specialize (Hg c ltac:(by left)). unfold toDeadLetter, fail_asker.
  assert ((∃ sn, csender c = Some (reply_to sn)) ∨
    match csender c with Some s => if isAsk s then [RTell s (MErrCode (WithErr ("ask target mailbox unavailable: " +:+ reason)))] else [] | None => [] end
      = ([] : list (report U)) ∧ ∀ sn, csender c ≠ Some (reply_to sn)) as Hc.
  { unfold ReentryInv.good in Hg. destruct (cmessage c) as [| | | | | |u];
      try (destruct Hg as [_ [b ->]]; right; destruct (Hlocal b) as (_ & _ & -> & _); split; [done|];
           intros sn [= E]; by eapply (self_not_reply sys addr self Hlocal b sn)).
    destruct Hg as [->|(sn & -> & _)]; [by right|left; by exists sn]. }
  destruct Hc as [[sn Hs]|[E Hs]].
  - destruct (good_request sys addr self request Hlocal w c sn Hg Hs) as (u & _ & _ & Hle). rewrite Hs.
    cbn [newReplyRef isAsk app foldl]. change (ReplyTo (ReplyRef sn addr sys)) with (reply_to sn).
    rewrite (on_node_tell_reply sys addr cfg resolve builds self hasRegister hasUnregister goid a st').
    2: { cbn [with_actor wactors]. apply list_lookup_insert_eq. by eapply lookup_lt_Some. }
    set (m := MErrCode _). exists (answer sn m (bump w)). split; [done|right]. by exists c, sn, m.
  - rewrite E. exists w. split; [done|left]. split; [done|]. intros c' sn ->%list_elem_of_singleton. apply Hs.
Qed.

Lemma told_winv w d w1 : winv w → told w d w1 → askId (wasks w) ≤ askId (wasks w1) →
  winv w1 ∧ wactors w1 = wactors w ∧ wframes w1 = wframes w ∧
  ∀ c sn, c ∈ letters d → csender c = Some (reply_to sn) → answered (wasks w1) sn.
Proof.
  intros I [[-> Hn]|(c & sn & m & Hl & Hs & Hle & ->)] Hle1.
  { split_and!; try done. intros c sn Hc Hs. by destruct (Hn c sn Hc). }
  unfold answer, bump in Hle1. cbn [with_asks wasks] in Hle1. rewrite deliverReply_askId in Hle1.
  pose proof (winv_bump' _ _ _ _ _ _ _ _ _ w I Hle1) as I'. split_and!; [by apply winv_answer|done|done|].
  intros c' sn' Hc' Hs'. rewrite Hl in Hc'. apply list_elem_of_singleton in Hc' as ->. rewrite Hs in Hs'. injection Hs' as <-.
  eapply answer_answers; [exact I'|]. exact (Z.le_trans _ _ _ Hle Hle1).
Qed.

Lemma box_good w a st c : winv w → wactors w !! a = Some st →
  c ∈ pushed (history (sh st)) → good (wasks w) c.
Proof. intros I Ha H. eapply wi_good; [done|done|by left]. Qed.

(** Only the framework's own messages do not reach [Receive]. *)
Lemma good_not_received w c sn : good (wasks w) c → is_initialize (cmessage c) || is_poison (cmessage c) = true →
  csender c ≠ Some (reply_to sn).
Proof.
  intros Hg Hm Hs. destruct (good_request sys addr self request Hlocal w c sn Hg Hs) as (u & Hu & _).
  by rewrite Hu in Hm.
Qed.

(** The frame a framework step leaves. *)
Definition next_frame (a : nat) (p p' : pc U) (o : option (frame U)) : option (frame U) :=
  match p, p' with
  | PDispatch c, PReceive => Some (Frame c (Receive prog a c) None (ctx_weight weight c))
  | _, _ => o
  end.

Lemma framework_inv a i ch w w' : framework_step a i ch w = Some w' →
  ∃ st st' p, wactors w !! a = Some st ∧ pc_of st i = Some p ∧ p ≠ PReceive ∧ p ≠ PAwait ∧ ch ≠ CAsk ∧
    exec a (LStep i ch) st = Some st' ∧
    let w2 := tell_reports a (new_events st st') (with_actor a st' w) in
    w' = match p, pc_at a i w2 with
         | PDispatch c, Some PReceive => with_frame (a, i) (Frame c (Receive prog a c) None (ctx_weight weight c)) w2
         | _, _ => w2
         end.
Proof.
  unfold Reentry.framework_step. intros E. destruct (wactors w !! a) as [st|] eqn:Ha; [|done].
  unfold pc_at in E at 1. rewrite Ha in E. change (tpc <$> threads st !! i) with (pc_of st i) in E.
  destruct (pc_of st i) as [p|] eqn:Hp; [|done]. destruct (in_handler p) eqn:Hin; [done|].
  destruct (decide (ch = CAsk)) as [->|Hch]; [done|]. rewrite bool_decide_eq_false_2 in E by done. cbn [orb] in E.
  destruct (exec a (LStep i ch) st) as [st'|] eqn:Est; [|done]. exists st, st', p.
  repeat (split; [done || by intros ->|]). cbv zeta. destruct p; try (by injection E as <-).
  by destruct (pc_at a i _) as [[]|]; injection E as <-.
Qed.

Lemma good_le w w1 c : askId (wasks w) ≤ askId (wasks w1) → good (wasks w) c → good (wasks w1) c.
Proof.
  intros Hle. unfold ReentryInv.good. destruct (cmessage c); try done.
  intros [H|(sn & ? & ? & ?)]; [by left|right]. exists sn. split_and!; [done|lia|done].
Qed.

(** What a framework step leaves fits the world in which the askers of its dead
    letters have been told. *)
Lemma framework_fits w1 a i ch st st' p p' d : winv w1 → wactors w1 !! a = Some st →
  pc_of st i = Some p → pc_of st' i = Some p' → p ≠ PReceive → p ≠ PAwait → ch ≠ CAsk →
  stage_moves p ch p' → dispatched d = dispatching p →
  (∀ c, c ∈ letters d ∨ c ∈ dispatched d → good (wasks w1) c) →
  (∀ c sn, c ∈ letters d → csender c = Some (reply_to sn) → answered (wasks w1) sn) →
  history (sh st') = history (sh st) ++ d →
  fits a i st st' (next_frame a p p' (wframes w1 !! (a, i))) w1.
Proof.
  intros I Ha Hp Hp' Hp1 Hp2 Hch Hst Hdisp Hgood Hans Hd.
  pose proof (wi_stage _ _ _ _ _ _ _ _ _ _ I a i) as Hold. rewrite Ha in Hold. cbn in Hold. unfold stage in Hold.
  rewrite Hp in Hold. cbn in Hold.
  assert (Hlet : ∀ c sn, c ∈ letters (history (sh st')) → csender c = Some (reply_to sn) →
    c ∈ letters (history (sh st)) ∨ answered (wasks w1) sn).
  { intros c sn Hc Hs. rewrite Hd in Hc. unfold letters in *. rewrite omap_app, elem_of_app in Hc.
    destruct Hc as [Hc|Hc]; [by left|right]. by eapply Hans. }
  assert (Hdis : ∀ c, c ∈ dispatched (history (sh st')) → c ∈ dispatched (history (sh st)) ∨ c ∈ dispatching p).
  { intros c Hc. rewrite Hd in Hc. unfold dispatched in *. rewrite omap_app, elem_of_app in Hc. by rewrite <-Hdisp. }
  assert ((∃ c, p = PDispatch c ∧ p' = PReceive) ∨ ¬ ∃ c, p = PDispatch c ∧ p' = PReceive) as [(c & -> & ->)|Hno].
  { destruct p; try (by right; intros (?&?&?)). destruct p'; try (by right; intros (?&?&?)). by left; eexists. }
  - (* the message reaches Receive *)
    cbn [next_frame stage_of stage_ok] in *. assert (good (wasks w1) c) as Hc by (apply Hgood; right; rewrite Hdisp; by left).
    constructor; try done.
    + unfold stage. rewrite Hp'. by eexists.
    + intros f [= <-]. split_and!; [done| |by apply Receive_fits|done].
      cbn. unfold Receive. destruct (cmessage c); eauto.
    + by intros f sn [= <-] (?&?&?).
    + by intros f to req sn [= <-].
    + intros c' sn Hc' Hs. destruct (Hdis c' Hc') as [H| ->%list_elem_of_singleton]; [by left|right; right].
      destruct (good_request sys addr self request Hlocal w1 c sn Hc Hs) as (u & Hu & Hreq & _).
      eexists. split_and!; [done|done|]. cbn. unfold Receive. rewrite Hu. by apply Hanswers.
    + intros c' sn (f & Hf & _). by rewrite Hold in Hf.
  - assert (next_frame a p p' (wframes w1 !! (a, i)) = wframes w1 !! (a, i)) as ->.
    { unfold next_frame. destruct p; try done. destruct p'; try done. destruct Hno. by eexists. }
    assert (stage_of p' = stage_of p) as Hsame.
    { destruct p; try done. destruct Hst as [->|[H _]]; [|done]. destruct Hno. by eexists. }
    constructor; try done.
    + unfold stage. rewrite Hp'. cbn. by rewrite Hsame.
    + intros f Hf. by eapply (wi_frame _ _ _ _ _ _ _ _ _ _ I).
    + intros f sn Hf Hw k f' Hk Hw'. by eapply (wi_ids _ _ _ _ _ _ _ _ _ _ I).
    + intros f to req sn Hf Hs. by eapply (wi_sent _ _ _ _ _ _ _ _ _ _ I).
    + intros c sn Hc Hs. destruct (Hdis c Hc) as [H|H]; [by left|]. exfalso.
      assert (p = PDispatch c) as ->.
      { destruct p; try (by apply elem_of_nil in H). by apply list_elem_of_singleton in H as ->. }
      destruct Hst as [->|[_ Hm]]; [by apply Hno; exists c|].
      apply (good_not_received w1 c sn); [|done|done]. apply Hgood. right. rewrite Hdisp. by left.
    + intros c sn H Hs. by right.
Qed.

Lemma winv_framework w w' a i ch : winv w → framework_step a i ch w = Some w' →
  askId (wasks w) ≤ askId (wasks w') → winv w'.
Proof.
  intros I E Hle. destruct (framework_inv a i ch w w' E) as (st & st' & p & Ha & Hp & Hp1 & Hp2 & Hch & Est & ->).
  destruct (wi_reach _ _ _ _ _ _ _ _ _ _ I a st Ha) as [Hr Hreg].
  destruct (exec_moved _ _ _ _ _ _ _ _ _ Hr Hreg Est) as (p0 & p' & d & Hp0 & Hp' & Hst & Hd & Hh & Hm).
  rewrite Hp in Hp0. injection Hp0 as <-.
  assert (new_events st st' = d) as Hnew by (unfold new_events; by rewrite Hd, drop_app_length).
  rewrite Hnew in *. cbv zeta in Hle.
  assert (∀ c, c ∈ letters d ∨ c ∈ dispatched d → good (wasks w) c) as Hgood.
  { intros c Hc. assert (in_box st' c) as Hin%Hm.
    { left. destruct Hc; [eapply letters_pushed|eapply dispatched_pushed]; try exact (mv_reach _ _ _ _ _ _ _ _ Hm);
        rewrite Hd; unfold letters, dispatched in *; rewrite omap_app, elem_of_app; by right. }
    by eapply wi_good. }
  destruct (reports_told w a st st' p p' d Ha Hh ltac:(auto)) as (w1 & E2 & Htold). rewrite E2 in *.
  set (w2 := with_actor a st' w1) in *.
  assert (askId (wasks w) ≤ askId (wasks w1)) as Hle1 by (by destruct p; try done; destruct (pc_at a i w2) as [[]|]).
  destruct (told_winv w d w1 I Htold Hle1) as (I1 & Ea & Ef & Hans).
  assert (Hlt : (a < length (wactors w1))%nat) by (rewrite Ea; by eapply lookup_lt_Some).
  assert (pc_at a i w2 = Some p') as Hpc.
  { unfold w2, pc_at. cbn [with_actor wactors]. by rewrite list_lookup_insert_eq. }
  rewrite Hpc. set (o := next_frame a p p' (wframes w1 !! (a, i))).
  assert (match p with
          | PDispatch c => match p' with
             | PReceive => with_frame (a, i) (Frame c (Receive prog a c) None (ctx_weight weight c)) w2
             | _ => w2 end
          | _ => w2 end = update a i st' o w1) as Hupd.
  { assert (w2 = update a i st' (wframes w1 !! (a, i)) w1) as Hsame.
    { unfold w2, with_actor, ReentryInv.update. f_equal. unfold set_frame.
      destruct (wframes w1 !! (a, i)) eqn:Hx; [by rewrite insert_id|by rewrite delete_id]. }
    unfold o, next_frame. destruct p; try done. by destruct p'. }
  rewrite Hupd. eapply winv_update; [exact I1|by rewrite Ea|exact Hm|].
  destruct Hh as (_ & Hdisp & _).
  apply (framework_fits w1 a i ch st st' p p' d); try done; [by rewrite Ea|].
  intros c Hc. eapply good_le; [exact Hle1|by apply Hgood].
Qed.

(** ** Every reachable state *)

Lemma winv_wexec l w w' : winv w → wexec l w = Some w' → askId (wasks w) ≤ askId (wasks w') → winv w'.
Proof.
  intros I E Hle. destruct l as [a i ch|a i|a i|a u|a]; cbn [Reentry.wexec] in E.
  - by eapply winv_framework.
  - by eapply winv_handler.
  - unfold timeout_step in E. destruct (pc_at a i w) as [p|] eqn:Hp; [|done].
    destruct (wframes w !! (a, i)) as [f|] eqn:Hf; [|by destruct p]. destruct p; try done.
    destruct (fcode f) as [| | | |to req k] eqn:Hc; try done.
    destruct (fask f) as [[[sn ch] []]|] eqn:Hn; try done. by eapply winv_Ask_end.
  - injection E as <-. destruct (decide (a < length (wactors w))%nat) as [Hlt|Hge].
    + by apply sends_tell.
    + unfold Reentry.on_node. by rewrite (proj2 (lookup_ge_None _ _)) by lia.
  - by eapply winv_poison.
Qed.

Lemma winv_initial w : winitial self w → length (wactors w) = N → winv w.
Proof.
  intros (Hst & Hf & W & Ht & Hc & Hb) HN.
  assert (Hinit : ∀ a st, wactors w !! a = Some st → reachable a st ∧ reg_ok self a st ∧
    (∀ i, stage st i = SNone) ∧ letters (history (sh st)) = [] ∧ dispatched (history (sh st)) = [] ∧
    ∀ c, in_box st c → ∃ snId, c = msgInit (self a) snId).
  { intros a st Ha. destruct (Hst a st Ha) as (q0 & r0 & snId & Hq & Hw & Hfree & E).
    split; [by econstructor|]. destruct (initial_spec Hq E) as (q & n & _ & _ & _ & ->).
    unfold reg_ok, in_box, stage, pc_of. cbn [sh threads history registry].
    destruct (register_abs r0 (GetId (self a)) a Hw) as (W1 & _ & H2). rewrite Hfree in H2.
    split_and!; try done.
    - left. rewrite H2. apply lookup_insert_eq.
    - intros i. by destruct i as [|[]].
    - intros c [H|(i & t & Hi & Ht')].
      + cbn in H. apply list_elem_of_singleton in H as ->. by exists snId.
      + destruct i as [|[]]; cbn in Hi; try done. by simplify_eq/=. }
  constructor; rewrite ?Hf; try done.
  - split_and!; [done|lia|lia|]. intros sn ch. by rewrite Ht, lookup_empty.
  - intros a st Ha. by destruct (Hinit a st Ha) as (H1 & H2 & _).
  - intros a i. rewrite lookup_empty. destruct (wactors w !! a) as [st|] eqn:Ha; [|done].
    destruct (Hinit a st Ha) as (_ & _ & H & _). cbn. by rewrite H.
  - intros b st c Hb' Hc'. destruct (Hinit b st Hb') as (_ & _ & _ & _ & _ & H).
    destruct (H c Hc') as [snId ->]. split; [done|]. by exists b.
  - intros b st c sn Hb' Hc'. destruct (Hinit b st Hb') as (_ & _ & _ & E & _). rewrite E in Hc'.
    by apply elem_of_nil in Hc'.
  - intros b st c sn Hb' Hc'. destruct (Hinit b st Hb') as (_ & _ & _ & _ & E & _). rewrite E in Hc'.
    by apply elem_of_nil in Hc'.
Qed.

(** The actors are as many as at the start. *)
Lemma on_node_length b call w : length (wactors (on_node b call w)) = length (wactors w).
Proof.
  unfold Reentry.on_node. destruct (wactors w !! b) as [st|]; [|done]. destruct (call _) as [effs n].
  assert (∀ w1, length (wactors (foldl (apply_effect self hasRegister hasUnregister goid) w1 effs)) = length (wactors w1)) as H.
  { induction effs as [|e effs IH]; intros w1; [done|]. cbn [foldl]. rewrite IH.
    destruct e; try done. by destruct (post_same self hasRegister hasUnregister goid w1 p ctx) as (_ & _ & E). }
  etrans; [apply H|done].
Qed.

Lemma act_length a l w w' : act a l w = Some w' → length (wactors w') = length (wactors w).
Proof.
  intros E. destruct (act_inv _ _ _ _ _ _ _ _ E) as (st & st' & _ & _ & ->).
  cbn [with_actor wactors]. by rewrite length_insert.
Qed.

Lemma wexec_length l w w' : wexec l w = Some w' → length (wactors w') = length (wactors w).
Proof.
  intros E. destruct l as [a i ch|a i|a i|a u|a]; cbn [Reentry.wexec] in E.
  - destruct (framework_inv a i ch w w' E) as (st & st' & p & _ & _ & _ & _ & _ & _ & ->). cbv zeta.
    assert (∀ d w1, length (wactors (tell_reports a d w1)) = length (wactors w1)) as H.
    { intros d. induction d as [|e d IH]; intros w1; [done|]. unfold Reentry.tell_reports in *. cbn [foldl].
      rewrite IH. destruct e; try done. destruct r; [apply on_node_length|done]. }
    destruct p; try destruct (pc_at a i _) as [[]|]; cbn [with_frame wactors]; rewrite H; cbn [with_actor wactors];
      apply length_insert.
  - unfold handler_step in E. destruct (pc_at a i w) as [p|]; [|done]. destruct (wframes w !! (a, i)) as [f|]; [|by destruct p].
    destruct p; try done; destruct (fcode f) as [| |m k|to u k|to req k]; try done;
      destruct (fask f) as [[[sn ch] []]|]; try done; try (injection E as <-; apply on_node_length);
      try (by apply act_length in E).
    + unfold Ask_begin in E. destruct (wactors w !! a); [|done]. destruct (Ask_check _ _ _); [by simplify_eq/=|].
      destruct (registerAsk _ _) as [[ch|] p]; [by apply act_length in E|by simplify_eq/=].
    + unfold Ask_end in E. destruct (ask_end _ _ _ _ _ _) as [[r p]|]; [by apply act_length in E|done].
  - unfold timeout_step in E. destruct (pc_at a i w) as [p|]; [|done]. destruct (wframes w !! (a, i)) as [f|]; [|by destruct p].
    destruct p; try done; destruct (fcode f); try done; destruct (fask f) as [[[sn ch] []]|]; try done.
    unfold Ask_end in E. destruct (ask_end _ _ _ _ _ _) as [[r p]|]; [by apply act_length in E|done].
  - injection E as <-. apply on_node_length.
  - by apply act_length in E.
Qed.

Lemma wreachable_winv w : wreachable w → length (wactors w) = N → winv w.
Proof.
  induction 1 as [w Hi|w l w' _ IH E Hle]; intros HN; [by apply winv_initial|].
  eapply winv_wexec; [|exact E|done]. apply IH. rewrite <-HN. symmetry. by eapply wexec_length.
Qed.
End reach.
