(* ===== verification/ReentryProgress.v ===== *)
(** * Reentrant Asks do not deadlock

    When nothing in the node of Reentry.v can move any more, not even with no
    timeout ever firing, no handler is left waiting: the requests of the waiting
    handlers would have to be served by other waiting handlers, of ever smaller
    weight. *)

From S2P Require Import Prelude.
From S2P Require Import GoStrings.
From S2P Require Import Queue.
From S2P Require Import ActorId.
From S2P Require Import ErrCode.
From S2P Require Import Config.
From S2P Require Import Messages.
From S2P Require Import SafeMap.
From S2P Require Import Registry.
From S2P Require Import Routing.
From S2P Require Import System.
From S2P Require Import Ask.
From S2P Require Import AskFlow.
From S2P Require Import Scheduler.
From S2P Require Import SchedulerInv.
From S2P Require Import SchedulerCount.
From S2P Require Import SchedulerSafety.
From S2P Require Import SchedulerFifo.
From S2P Require Import SchedulerOrder.
From S2P Require Import SchedulerReach.
From S2P Require Import SchedulerEnd.
From S2P Require Import SchedulerWake.
From S2P Require Import SchedulerLetters.
From S2P Require Import SchedulerThms.
From S2P Require Import SchedulerSettle.
From S2P Require Import SchedulerMoves.
From S2P Require Import Reentry.
From S2P Require Import ReentryInv.
From S2P Require Import ReentrySteps.
From S2P Require Import ReentryReach.
Open Scope Z_scope.

Section progress.
Context `{Env : GoEnv} {U Q M P : Type} {BQ : BoundedQueue Q (Ctx U)}
  {MI : MapImpl M string nat} {PI : MapImpl P Z nat}.
Context (sys : nat) (addr : string) (cfg : config Env).
Context (resolve : ActorRef → resolvedRoute) (builds : ActorRef → bool).
Context (self : nat → ActorRef) (hasRegister hasUnregister : nat → bool) (goid : nat → nat → Z).
Context (prog : nat → U → handler U) (weight : U → nat) (request : U → bool) (N : nat).
Context (is_T : Message U → bool) (as_error : Message U → option string).
Local Abbreviation world := (world U Q M P).
Implicit Types (w : world) (st : Scheduler.state U Q M) (c : Ctx U) (f : frame U).
Local Abbreviation exec a := (Scheduler.exec (self a) a (hasRegister a) (hasUnregister a) (goid a)).
Local Abbreviation reachable a := (Scheduler.reachable (self a) a (hasRegister a) (hasUnregister a) (goid a)).
Local Abbreviation sound a := (SchedulerWake.sound (self a) a (hasRegister a) (hasUnregister a) (goid a)).
Local Abbreviation act := (act self hasRegister hasUnregister goid).
Local Abbreviation winv := (winv sys addr self hasRegister hasUnregister goid weight request N).

Hypothesis Hlocal : local_refs sys addr self.
Hypothesis Hprog : ∀ a u, polite weight request N (weight u) (prog a u).
Hypothesis Hanswers : ∀ a u, request u = true → answers (prog a u).
Local Abbreviation framework_step := (framework_step sys addr cfg resolve builds self hasRegister hasUnregister goid prog weight).
Local Abbreviation wexec := (wexec sys addr cfg resolve builds self hasRegister hasUnregister goid prog weight is_T as_error).

Local Abbreviation handler_step := (handler_step sys addr cfg resolve builds self hasRegister hasUnregister goid weight is_T as_error).

Hypothesis goid_nonzero : ∀ a i, goid a i ≠ 0.

(** ** What can move *)

(** Neither the framework nor a handler can move; timeouts may still fire. *)
Definition wstuck w : Prop :=
  (∀ a i ch, wexec (WStep a i ch) w = None) ∧ ∀ a i, wexec (WHandler a i) w = None.

(** Every handler has ended and every goroutine has returned. *)
Definition at_rest w : Prop :=
  wframes w = ∅ ∧ ∀ a st, wactors w !! a = Some st → all_returned st.

Lemma framework_enabled a i ch w st st' p : wactors w !! a = Some st → pc_of st i = Some p →
  p ≠ PReceive → p ≠ PAwait → ch ≠ CAsk → exec a (LStep i ch) st = Some st' → is_Some (framework_step a i ch w).
Proof.
  intros Ha Hp H1 H2 Hch E. unfold Reentry.framework_step. rewrite Ha. unfold pc_at at 1. rewrite Ha.
  change (tpc <$> threads st !! i) with (pc_of st i). rewrite Hp, bool_decide_eq_false_2 by done.
  assert (in_handler p = false) as -> by (by destruct p). cbn [orb]. rewrite E.
  by destruct p; try (by eexists); destruct (pc_at a i _) as [[]|]; eexists.
Qed.

Lemma act_enabled a i ch w st : wactors w !! a = Some st →
  (pc_of st i = Some PReceive ∧ (ch = CReturn ∨ ch = CPanic)) ∨ (pc_of st i = Some PAwait ∧ ch = CReturn) →
  is_Some (act a (LStep i ch) w).
Proof.
  intros Ha Hp. unfold Reentry.act. rewrite Ha. destruct st as [s ths]. unfold pc_of in Hp. cbn [threads] in Hp.
  cbn [Scheduler.exec]. destruct (ths !! i) as [t|]; [|by destruct Hp as [[? _]|[? _]]]. cbn in Hp.
  unfold tstep, receive_step, go.
  by destruct Hp as [[[= ->] [-> | ->]]|[[= ->] ->]]; eexists.
Qed.

(** An Ask the check admits can suspend. *)
Lemma suspend_enabled a i w st r : reachable a st → wactors w !! a = Some st → pc_of st i = Some PReceive →
  Ask_check (kind_of (threads st)) (sh st) (goid a i) = inr r → is_Some (act a (LStep i CAsk) w).
Proof.
  intros Hr Ha Hp Hc. pose proof (reachable_inv_count Hr) as HC.
  assert (r = i) as ->.
  { unfold Ask_check in Hc. destruct (currentExecution (sh st) (goid a i)) as [c|] eqn:E; [|done].
    apply (currentExecution_spec (goid_nonzero a) st _ c Hr) in E as (_ & t & Ht & Hpub).
    unfold pc_of in Hp. destruct (threads st !! i) as [u|] eqn:Hi; [|done]. injection Hp as Hp.
    case_decide; [done|]. injection Hc as <-.
    eapply (holds_unique st); [done|exact Ht|exact Hi|by apply published_holds|by rewrite Hp]. }
  unfold Reentry.act. rewrite Ha. destruct st as [s ths]. unfold pc_of in Hp. cbn [threads sh] in *.
  cbn [Scheduler.exec]. destruct (ths !! i) as [t|]; [|done]. cbn in Hp. injection Hp as Hp.
  unfold tstep, receive_step, do_ask. rewrite Hp. rewrite Hc, decide_True by done.
  destruct (suspend t) as [t' new]. by eexists.
Qed.

Lemma handler_enabled a i w st : winv w → wactors w !! a = Some st → pc_of st i = Some PReceive →
  is_Some (handler_step a i w).
Proof.
  intros I Ha Hp. destruct (wi_reach _ _ _ _ _ _ _ _ _ _ I a st Ha) as [Hr Hreg].
  pose proof (wi_stage _ _ _ _ _ _ _ _ _ _ I a i) as Hs. rewrite Ha in Hs. cbn in Hs. unfold stage in Hs.
  rewrite Hp in Hs. destruct Hs as (f & Hf & Hn). unfold Reentry.handler_step, pc_at. rewrite Ha.
  change (tpc <$> threads st !! i) with (pc_of st i). rewrite Hp, Hf, Hn.
  destruct (fcode f) as [| |m k|to u k|to req k]; try (by eexists); [eapply act_enabled; [done|left; auto]..|].
  unfold Ask_begin. rewrite Ha. destruct (Ask_check _ _ _) as [e|r] eqn:Hc; [by eexists|].
  destruct (registerAsk _ _) as [[ch|] p]; [|by eexists]. by eapply suspend_enabled.
Qed.

(** A waiting goroutine's Ask is sent, and its channel still empty. *)
Lemma waiting_empty a i w st : winv w → wactors w !! a = Some st → pc_of st i = Some PAwait →
  handler_step a i w = None → ∃ f to req k sn ch, wframes w !! (a, i) = Some f ∧ fcode f = HAsk to req k ∧
    fask f = Some (sn, ch, Awaiting) ∧ (weight req < ctx_weight weight (fctx f))%nat ∧ ¬ answered (wasks w) sn.
Proof.
  intros I Ha Hp E. pose proof (wi_stage _ _ _ _ _ _ _ _ _ _ I a i) as Hs. rewrite Ha in Hs. cbn in Hs. unfold stage in Hs.
  rewrite Hp in Hs. destruct Hs as (f & Hf & Hn). unfold Reentry.handler_step, pc_at in E. rewrite Ha in E.
  change (tpc <$> threads st !! i) with (pc_of st i) in E. rewrite Hp, Hf in E.
  pose proof (wi_frame _ _ _ _ _ _ _ _ _ _ I _ _ Hf) as (_ & _ & Hcode & Hch). unfold code_ok in Hcode.
  destruct (fask f) as [[[sn ch] s]|] eqn:Ek; [|done]. destruct (fcode f) as [| | | |to req k] eqn:Hc; try (by destruct s).
  destruct s; [done|]. destruct Hcode as (_ & _ & Hlt & _). exists f, to, req, k, sn, ch. split_and!; try done.
  intros [_ Hans]. destruct Hch as (_ & v & Hv & Ht). destruct v as [m|]; [|by rewrite (Ht eq_refl) in Hans].
  unfold Ask_end, ask_end in E. rewrite Hv in E.
  destruct (act_enabled a i CReturn (with_frame (a, i) (Frame (fctx f) (k (awaitReply is_T as_error (Got m))) None (fbudget f))
    (with_asks (cancelAsk sn (wasks w)) w)) st) as [w' Hw']; [done|by right|]. by rewrite Hw' in E.
Qed.

(** ** Nothing is left *)

Lemma stuck_quiescent w a st : winv w → wstuck w → wactors w !! a = Some st → quiescent st.
Proof.
  intros I [S1 S2] Ha i t Hi. destruct (wi_reach _ _ _ _ _ _ _ _ _ _ I a st Ha) as [Hr _].
  assert (∀ j u ch st', threads st !! j = Some u → ch ≠ CAsk → exec a (LStep j ch) st = Some st' → tpc u = PAwait) as Hmove.
  { intros j u ch st' Hj Hch E. assert (pc_of st j = Some (tpc u)) as Hp by (unfold pc_of; by rewrite Hj).
    assert (tpc u ≠ PReceive) as Hn.
    { intros Hu. rewrite Hu in Hp. destruct (handler_enabled a j w st I Ha Hp) as [w' E']. specialize (S2 a j). cbn in S2. congruence. }
    assert (tpc u ≠ PAwait → False) as H; [|by destruct (tpc u); try done; destruct H].
    intros Hn2. destruct (framework_enabled a j ch w st st' (tpc u) Ha Hp Hn Hn2 Hch E) as [w' E'].
    specialize (S1 a j ch). cbn in S1. congruence. }
  destruct (tpc t) eqn:Ht; try (by left); try (by right);
    (destruct (gate_progress _ _ _ _ _ st i t Hr Hi) as [(ch & st' & Hch & E)|(_ & j & u & ch & st' & _ & Hj & Hh & Hch & E)];
     [by rewrite Ht|pose proof (Hmove i t ch st' Hi Hch E); congruence|]);
    rewrite (Hmove j u ch st' Hj Hch E) in Hh; done.
Qed.

(** No handler waits: its request would be with another waiting handler. *)
Lemma stuck_frames w : winv w → wstuck w → (∀ a st, wactors w !! a = Some st → sound a st) → wframes w = ∅.
Proof.
  intros I Hs Hb. pose proof Hs as [_ S2].
  assert (∀ n k f, wframes w !! k = Some f → (ctx_weight weight (fctx f) < n)%nat → False) as H.
  { induction n as [|n IH]; [lia|]. intros [a i] f Hf Hw.
    destruct (frame_at _ _ _ _ _ _ _ _ _ w a i f I Hf) as [st Ha].
    pose proof (stuck_quiescent w a st I Hs Ha) as Hq.
    pose proof (wi_stage _ _ _ _ _ _ _ _ _ _ I a i) as Hst. rewrite Ha, Hf in Hst. cbn in Hst. unfold stage in Hst.
    assert (pc_of st i = Some PAwait) as Hp.
    { unfold pc_of in *. destruct (threads st !! i) as [t|] eqn:Hi; [|by cbn in Hst].
      cbn in *. destruct (Hq i t Hi) as [E|E]; rewrite E in *; done. }
    destruct (waiting_empty a i w st I Ha Hp (S2 a i)) as (f' & to & req & k & sn & ch & Hf' & Hc & Hn & Hlt & Hnot).
    rewrite Hf in Hf'. injection Hf' as <-.
    destruct (wi_sent _ _ _ _ _ _ _ _ _ _ I (a, i) f to req sn Hf) as [|(stt & Ht & Hbox)];
      [by unfold sent; rewrite Hn, Hc|done|].
    pose proof (stuck_quiescent w to stt I Hs Ht) as Hqt. destruct (wi_reach _ _ _ _ _ _ _ _ _ _ I to stt Ht) as [Hrt _].
    destruct Hbox as [Hpush|(j & u & Hj & Hu)]; [|by destruct (Hqt j u Hj) as [E|E]; rewrite E in Hu].
    rewrite (quiescent_handled _ _ _ _ _ stt (Hb to stt Ht) Hqt), elem_of_app in Hpush.
    destruct Hpush as [Hd|Hl]; [|by eapply Hnot, (wi_letter _ _ _ _ _ _ _ _ _ _ I)].
    destruct (wi_disp _ _ _ _ _ _ _ _ _ _ I to stt _ sn Ht Hd) as [|[j (g & Hg & Hctx & _)]]; [done..|].
    apply (IH (to, j) g Hg). rewrite Hctx. cbn. lia. }
  apply map_eq. intros k. rewrite lookup_empty. destruct (wframes w !! k) as [f|] eqn:Hf; [|done].
  exfalso. apply (H (S (ctx_weight weight (fctx f))) k f Hf). lia.
Qed.

Lemma stuck_at_rest w : winv w → wstuck w → (∀ a st, wactors w !! a = Some st → sound a st) → at_rest w.
Proof.
  intros I Hs Hb. pose proof (stuck_frames w I Hs Hb) as Hf. split; [done|]. intros a st Ha i t Hi.
  destruct (stuck_quiescent w a st I Hs Ha i t Hi) as [|E]; [done|].
  pose proof (wi_stage _ _ _ _ _ _ _ _ _ _ I a i) as Hst. rewrite Ha, Hf, lookup_empty in Hst. cbn in Hst.
  unfold stage, pc_of in Hst. rewrite Hi in Hst. cbn in Hst. rewrite E in Hst. by destruct Hst as (f & ? & _).
Qed.
End progress.
