(* ===== verification/ReentryBudget.v ===== *)
(** * What a handler may still send

    The ghost field [fbudget] of a frame covers the rest of its handler's body,
    in every state: what ReentrySettle.v charges for a send has been paid for. *)

From S2P Require Import Prelude.
From S2P Require Import GoStrings.
From S2P Require Import Queue.
From S2P Require Import ActorId.
From S2P Require Import ErrCode.
From S2P Require Import Config.
From S2P Require Import Messages.
From S2P Require Import SafeMap.
From S2P Require Import Registry.
From S2P Require Import Routing.
From S2P Require Import System.
From S2P Require Import Ask.
From S2P Require Import AskFlow.
From S2P Require Import Scheduler.
From S2P Require Import SchedulerInv.
From S2P Require Import SchedulerCount.
From S2P Require Import SchedulerSafety.
From S2P Require Import SchedulerFifo.
From S2P Require Import SchedulerOrder.
From S2P Require Import SchedulerReach.
From S2P Require Import SchedulerEnd.
From S2P Require Import SchedulerWake.
From S2P Require Import SchedulerLetters.
From S2P Require Import SchedulerThms.
From S2P Require Import SchedulerSettle.
From S2P Require Import SchedulerMoves.
From S2P Require Import Reentry.
From S2P Require Import ReentryInv.
From S2P Require Import ReentrySteps.
From S2P Require Import ReentryReach.
From S2P Require Import ReentryProgress.
Open Scope Z_scope.

Section budget.
Context `{Env : GoEnv} {U Q M P : Type} {BQ : BoundedQueue Q (Ctx U)}
  {MI : MapImpl M string nat} {PI : MapImpl P Z nat}.
Context (sys : nat) (addr : string) (cfg : config Env).
Context (resolve : ActorRef → resolvedRoute) (builds : ActorRef → bool).
Context (self : nat → ActorRef) (hasRegister hasUnregister : nat → bool) (goid : nat → nat → Z).
Context (prog : nat → U → handler U) (weight : U → nat) (request : U → bool) (N : nat).
Context (is_T : Message U → bool) (as_error : Message U → option string).
Local Abbreviation world := (world U Q M P).
Implicit Types (w : world) (st : Scheduler.state U Q M) (c : Ctx U) (f : frame U).
Local Abbreviation act := (act self hasRegister hasUnregister goid).
Local Abbreviation on_node := (on_node self hasRegister hasUnregister goid).
Local Abbreviation tell_reports := (tell_reports sys addr cfg resolve builds self hasRegister hasUnregister goid).
Local Abbreviation well_behaved := (well_behaved weight request N).
Local Abbreviation handler_step := (handler_step sys addr cfg resolve builds self hasRegister hasUnregister goid weight is_T as_error).
Local Abbreviation wexec := (wexec sys addr cfg resolve builds self hasRegister hasUnregister goid prog weight is_T as_error).

Hypothesis Hbudget : ∀ a u, well_behaved (weight u) (prog a u).

Definition pays f : Prop :=
  match fask f, fcode f with
  | None, h => well_behaved (fbudget f) h
  | Some (_, _, Suspending), HAsk to req k =>
      (1 + weight req ≤ fbudget f)%nat ∧ ∀ r, well_behaved (fbudget f - (1 + weight req)) (k r)
  | Some (_, _, Awaiting), HAsk to req k => ∀ r, well_behaved (fbudget f) (k r)
  | Some _, _ => False
  end.
Definition all_pay w : Prop := ∀ k f, wframes w !! k = Some f → pays f.

Lemma Receive_pays a c : well_behaved (ctx_weight weight c) (Receive prog a c).
Proof. unfold Receive, ctx_weight. by destruct (cmessage c). Qed.

(** ** Only the handler's own frame changes *)

Lemma all_pay_same w w' : wframes w' = wframes w → all_pay w → all_pay w'.
Proof. unfold all_pay. by intros ->. Qed.

Lemma all_pay_frame w k f' : all_pay w → pays f' → all_pay (with_frame k f' w).
Proof.
  intros H Hf j f. cbn [with_frame wframes]. intros [[_ <-]|[_ Hj]]%lookup_insert_Some; [done|by eapply H].
Qed.

Lemma all_pay_drop w k : all_pay w → all_pay (drop_frame k w).
Proof. intros H j f. cbn [drop_frame wframes]. intros [_ Hj]%lookup_delete_Some. by eapply H. Qed.

Lemma act_frames a l w w' : act a l w = Some w' → wframes w' = wframes w.
Proof. intros E. by destruct (act_inv _ _ _ _ _ _ _ _ E) as (st & st' & _ & _ & ->). Qed.

Lemma all_pay_act a l w w' : act a l w = Some w' → all_pay w → all_pay w'.
Proof. intros E. apply all_pay_same. by eapply act_frames. Qed.

Lemma frames_fold {E} (step : world → E → world) (l : list E) w :
  (∀ w e, wframes (step w e) = wframes w) → wframes (foldl step w l) = wframes w.
Proof. intros Hs. revert w. induction l as [|e l IH]; intros w; [done|]. cbn [foldl]. by rewrite IH, Hs. Qed.

Lemma on_node_frames b call w : wframes (on_node b call w) = wframes w.
Proof.
  unfold Reentry.on_node. destruct (wactors w !! b) as [st|]; [|done]. destruct (call _) as [effs n].
  rewrite frames_fold; [done|]. intros w1 [p c|sn m|p|m|a l|]; try done. cbn [apply_effect].
  destruct (Reentry.act _ _ _ _ _ _ _) as [w2|] eqn:E; [|done]. by eapply act_frames.
Qed.

Lemma tell_reports_frames a d w : wframes (tell_reports a d w) = wframes w.
Proof. apply frames_fold. intros w1 e. destruct e; try done. destruct r; [apply on_node_frames|done]. Qed.

(** ** Every step *)

Lemma all_pay_Ask_begin w w' a i f to req k : all_pay w → pays f → fcode f = HAsk to req k → fask f = None →
  Ask_begin self hasRegister hasUnregister goid weight a i f to req k w = Some w' → all_pay w'.
Proof.
  intros H Hf Hc Hn E. unfold pays in Hf. rewrite Hn, Hc in Hf. cbn in Hf. destruct Hf as (_ & _ & Hle & Hk).
  unfold Ask_begin in E. destruct (wactors w !! a) as [st|]; [|done].
  assert (∀ v e, wframes v = wframes w →
    all_pay (with_frame (a, i) (Frame (fctx f) (k (inr e)) None (fbudget f - (2 + weight req))) v)) as Hrefused.
  { intros v e Ev. apply all_pay_frame; [by eapply all_pay_same|apply Hk]. }
  destruct (Ask_check _ _ _) as [e|r]; [injection E as <-; by apply Hrefused|].
  destruct (registerAsk _ _) as [[ch|] p]; [|injection E as <-; by apply Hrefused].
  eapply all_pay_act; [exact E|]. apply all_pay_frame; [by eapply all_pay_same|]. unfold pays. cbn.
  split; [lia|]. intros r'. replace (fbudget f - 1 - S (weight req))%nat with (fbudget f - S (S (weight req)))%nat by lia.
  apply Hk.
Qed.

Lemma all_pay_Ask_end w w' a i f to req k sn ch tmo : all_pay w → pays f → fcode f = HAsk to req k →
  fask f = Some (sn, ch, Awaiting) →
  Ask_end self hasRegister hasUnregister goid is_T as_error a i f k sn ch tmo w = Some w' → all_pay w'.
Proof.
  intros H Hf Hc Hn E. unfold pays in Hf. rewrite Hn, Hc in Hf.
  unfold Ask_end in E. destruct (ask_end _ _ _ _ _ _) as [[r p]|]; [|done].
  eapply all_pay_act; [exact E|]. apply all_pay_frame; [by eapply all_pay_same|apply Hf].
Qed.

Lemma all_pay_handler w w' a i : all_pay w → handler_step a i w = Some w' → all_pay w'.
Proof.
  intros H E. unfold Reentry.handler_step in E. destruct (pc_at a i w) as [p|]; [|done].
  destruct (wframes w !! (a, i)) as [f|] eqn:Hf; [|by destruct p]. pose proof (H _ _ Hf) as Hp.
  pose proof Hp as Hpay. unfold pays in Hpay.
  assert (∀ b call f', pays f' → all_pay (with_frame (a, i) f' (on_node b call w))) as Hsent.
  { intros b call f' Hf'. apply all_pay_frame; [|done]. eapply all_pay_same; [apply on_node_frames|done]. }
  destruct p; try done.
  - destruct (fcode f) as [| |m k|to u k|to req k] eqn:Hc, (fask f) as [x|] eqn:Hn; try done; cbn in Hpay.
    + eapply all_pay_act; [exact E|by apply all_pay_drop].
    + eapply all_pay_act; [exact E|by apply all_pay_drop].
    + injection E as <-. apply Hsent, Hpay.
    + injection E as <-. apply Hsent, Hpay.
    + by eapply all_pay_Ask_begin.
  - destruct (fcode f) as [| |m k|to u k|to req k] eqn:Hc; try done.
    destruct (fask f) as [[[sn ch] []]|] eqn:Hn; try done.
    + injection E as <-. apply Hsent. exact (proj2 Hpay).
    + by eapply all_pay_Ask_end.
Qed.

Lemma all_pay_wexec l w w' : all_pay w → wexec l w = Some w' → all_pay w'.
Proof.
  intros H E. destruct l as [a i ch|a i|a i|a u|a]; cbn [Reentry.wexec] in E.
  - destruct (framework_inv _ _ _ _ _ _ _ _ _ _ _ a i ch w w' E) as (st & st' & p & _ & _ & _ & _ & _ & _ & ->). cbv zeta.
    assert (all_pay (tell_reports a (new_events st st') (with_actor a st' w))) as H2
      by (eapply all_pay_same; [apply tell_reports_frames|done]).
    destruct p; try done. destruct (pc_at a i _) as [[]|]; try done.
    apply all_pay_frame; [done|apply Receive_pays].
  - by eapply all_pay_handler.
  - unfold timeout_step in E. destruct (pc_at a i w) as [p|]; [|done].
    destruct (wframes w !! (a, i)) as [f|] eqn:Hf; [|by destruct p]. destruct p; try done.
    destruct (fcode f) as [| | | |to req k] eqn:Hc; try done.
    destruct (fask f) as [[[sn ch] []]|] eqn:Hn; try done. eapply all_pay_Ask_end; [done|by eapply H|done..].
  - injection E as <-. by eapply all_pay_same; [apply on_node_frames|].
  - by eapply all_pay_act.
Qed.

Lemma wreachable_pays w :
  wreachable sys addr cfg resolve builds self hasRegister hasUnregister goid prog weight is_T as_error w → all_pay w.
Proof.
  induction 1 as [w (_ & Hf & _)|w l w' _ IH E _]; [|by eapply all_pay_wexec].
  intros k f. by rewrite Hf, lookup_empty.
Qed.
End budget.
