(* ===== verification/ReentrySettle.v ===== *)
(** * A node of reentrant actors comes to rest

    The measure of SchedulerSettle.v, summed over the actors and joined with
    what the handlers may still send: every step of the framework, of a handler
    or of a timeout spends some of it. *)

From S2P Require Import Prelude.
From S2P Require Import GoStrings.
From S2P Require Import Queue.
From S2P Require Import ActorId.
From S2P Require Import ErrCode.
From S2P Require Import Config.
From S2P Require Import Messages.
From S2P Require Import SafeMap.
From S2P Require Import Registry.
From S2P Require Import Routing.
From S2P Require Import System.
From S2P Require Import Ask.
From S2P Require Import AskFlow.
From S2P Require Import Scheduler.
From S2P Require Import SchedulerInv.
From S2P Require Import SchedulerCount.
From S2P Require Import SchedulerSafety.
From S2P Require Import SchedulerFifo.
From S2P Require Import SchedulerOrder.
From S2P Require Import SchedulerLife.
From S2P Require Import SchedulerReach.
From S2P Require Import SchedulerEnd.
From S2P Require Import SchedulerWake.
From S2P Require Import SchedulerLetters.
From S2P Require Import SchedulerThms.
From S2P Require Import SchedulerSettle.
From S2P Require Import SchedulerMoves.
From S2P Require Import Reentry.
From S2P Require Import ReentryInv.
From S2P Require Import ReentrySteps.
From S2P Require Import ReentryReach.
From S2P Require Import ReentryProgress.
From S2P Require Import ReentryBudget.
Open Scope Z_scope.

Section settle.
Context `{Env : GoEnv} {U Q M P : Type} {BQ : BoundedQueue Q (Ctx U)}
  {MI : MapImpl M string nat} {PI : MapImpl P Z nat}.
Context (sys : nat) (addr : string) (cfg : config Env).
Context (resolve : ActorRef → resolvedRoute) (builds : ActorRef → bool).
Context (self : nat → ActorRef) (hasRegister hasUnregister : nat → bool) (goid : nat → nat → Z).
Context (prog : nat → U → handler U) (weight : U → nat) (request : U → bool) (N : nat).
Context (is_T : Message U → bool) (as_error : Message U → option string).
Local Abbreviation world := (world U Q M P).
Implicit Types (w : world) (st : Scheduler.state U Q M) (c : Ctx U) (f : frame U).
Local Abbreviation exec a := (Scheduler.exec (self a) a (hasRegister a) (hasUnregister a) (goid a)).
Local Abbreviation reachable a := (Scheduler.reachable (self a) a (hasRegister a) (hasUnregister a) (goid a)).
Local Abbreviation sound a := (SchedulerWake.sound (self a) a (hasRegister a) (hasUnregister a) (goid a)).
Local Abbreviation act := (act self hasRegister hasUnregister goid).
Local Abbreviation post := (post self hasRegister hasUnregister goid).
Local Abbreviation on_node := (on_node self hasRegister hasUnregister goid).
Local Abbreviation Tell := (Tell sys addr cfg resolve builds).
Local Abbreviation Reply := (Reply sys addr cfg resolve builds).
Local Abbreviation tellWithSender := (tellWithSender sys addr cfg resolve builds).
Local Abbreviation reply_to sn := (newReplyRef sn addr sys).
Local Abbreviation winv := (winv sys addr self hasRegister hasUnregister goid weight request N).
Local Abbreviation request_ctx := (request_ctx sys addr self).

Hypothesis Hlocal : local_refs sys addr self.
Local Abbreviation pays := (pays weight request N).
Local Abbreviation all_pay := (all_pay weight request N).
Local Abbreviation update := (update (Q := Q) (M := M) (P := P)).
Local Abbreviation framework_step := (framework_step sys addr cfg resolve builds self hasRegister hasUnregister goid prog weight).
Local Abbreviation wexec := (wexec sys addr cfg resolve builds self hasRegister hasUnregister goid prog weight is_T as_error).
Local Abbreviation next w := (u64 (askId (wasks w) + 1)).

Local Abbreviation handler_step := (handler_step sys addr cfg resolve builds self hasRegister hasUnregister goid weight is_T as_error).


(** ** The measure *)

(** What a message costs once it is on its way: its goroutine and mailbox slot,
    and all its handler may send, at 12 apiece. *)
Definition wt c : Z := Z.of_nat (ctx_weight weight c).
Definition actor_load st : Z := work st + 12 * (carries wt (threads st) + waiting wt (sh st)).
Definition actor_rank st : Z := ranks (shared_flags (sh st)) (threads st).
Definition budgets (fs : gmap (nat * nat) (frame U)) : Z := map_fold (λ _ f n, Z.of_nat (fbudget f) + n) 0 fs.
Definition budget_of (o : option (frame U)) : Z := from_option (λ f, Z.of_nat (fbudget f)) 0 o.

Definition load w : Z := sum_of actor_load (wactors w) + 12 * budgets (wframes w).
Definition ranking w : Z := sum_of actor_rank (wactors w).
Definition wpotential w : Z := 40 * load w * load w + ranking w.

(** The number of steps it allows. *)
Definition wbound w : Z := 40 * load w * load w + 79 * load w.

Lemma wt_nonneg c : 0 ≤ wt c.
Proof. unfold wt. lia. Qed.

Lemma budgets_delete fs k : budgets fs = budgets (delete k fs) + budget_of (fs !! k).
Proof.
  unfold budgets. destruct (fs !! k) as [f|] eqn:Hk.
  - rewrite (map_fold_delete_L _ _ k f fs); [cbn; lia|intros; lia|done].
  - rewrite delete_id by done. cbn. lia.
Qed.

Lemma budgets_set fs k o : budgets (set_frame k o fs) = budgets fs - budget_of (fs !! k) + budget_of o.
Proof.
  rewrite (budgets_delete (set_frame k o fs) k), (budgets_delete fs k), set_frame_eq.
  assert (delete k (set_frame k o fs) = delete k fs) as ->; [|lia].
  destruct o; cbn; [apply delete_insert_eq|apply delete_delete_eq].
Qed.

Lemma budgets_nonneg fs : 0 ≤ budgets fs.
Proof. unfold budgets. apply (map_fold_weak_ind (λ n _, 0 ≤ n)); [done|]. intros; lia. Qed.

Lemma actor_bounds st : 0 ≤ works (threads st) ≤ actor_load st ∧ 0 ≤ actor_rank st ≤ 79 * actor_load st.
Proof.
  pose proof (works_bounds st). pose proof (ranks_bounds (shared_flags (sh st)) (threads st)).
  assert (0 ≤ carries wt (threads st)).
  { apply sum_of_nonneg. intros t. apply sum_of_nonneg, wt_nonneg. }
  assert (0 ≤ waiting wt (sh st)) by (apply sum_of_nonneg, wt_nonneg).
  unfold actor_load, actor_rank. lia.
Qed.

Lemma load_bounds w : 0 ≤ load w ∧ 0 ≤ ranking w ≤ 79 * load w.
Proof.
  pose proof (budgets_nonneg (wframes w)). unfold load, ranking.
  assert (0 ≤ sum_of actor_load (wactors w)) by (apply sum_of_nonneg; intros st; pose proof (actor_bounds st); lia).
  assert (0 ≤ sum_of actor_rank (wactors w)) by (apply sum_of_nonneg; intros st; apply actor_bounds).
  assert (∀ l, sum_of actor_rank l ≤ 79 * sum_of actor_load l) as Hl; [|specialize (Hl (wactors w)); lia].
  intros l. induction l as [|st l IH]; [done|]. cbn. unfold sum_of in IH. pose proof (actor_bounds st). lia.
Qed.

Lemma wpotential_bounds w : 0 ≤ wpotential w ≤ wbound w.
Proof. pose proof (load_bounds w). unfold wpotential, wbound. nia. Qed.

(** ** What one actor's step spends *)

Lemma exec_spends a i ch st st' p : sound a st → exec a (LStep i ch) st = Some st' → pc_of st i = Some p →
  let l' := actor_load st' + 12 * sum_of wt (dispatching p) in
  (if decide (ch = CAsk) then l' ≤ actor_load st + 1
   else l' < actor_load st ∨ l' = actor_load st ∧ actor_rank st' < actor_rank st) ∧
  (reports_of (new_events st st') ≠ [] → l' < actor_load st).
Proof.
  intros [Hr HL _ _] E Hp. destruct (exec_step_inv E) as (t & t' & new & Hi & Ht & Hths & Hk).
  unfold pc_of in Hp. rewrite Hi in Hp. injection Hp as <-.
  pose proof (ic_local _ (reachable_inv_count Hr) i t Hi) as Hl. pose proof (if_wf _ (reachable_inv_fifo Hr)) as W.
  pose proof (tstep_settles _ _ _ _ _ _ _ _ _ _ _ _ _ _ Ht Hl Hk
    (il_threads _ _ _ _ HL i t Hi) (lg_status _ _ _ _ (il_global _ _ _ _ HL)) W) as HS.
  destruct (tstep_shows _ _ _ _ _ wt wt_nonneg _ _ _ _ _ _ _ _ Ht Hl Hk W) as [(_ & _ & d & Hd & _) HCy].
  pose proof (reports_cost _ _ _ _ _ _ _ _ _ _ _ _ _ d Ht Hd) as HR.
  assert (new_events st st' = d) as -> by (unfold new_events; by rewrite Hd, drop_app_length).
  pose proof (works_step _ new i t t' Hi) as Ew. pose proof (ranks_step (shared_flags (sh st)) _ new i t t' Hi) as Er.
  assert (carries wt (threads st') = carries wt (threads st) - carried wt (tpc t) + carried wt (tpc t') + carries wt new) as Ec.
  { unfold carries. rewrite Hths, sum_of_app. by erewrite (sum_of_insert _ (threads st) i t t') by done. }
  rewrite <-Hths in Ew, Er. unfold carry_step in HCy. unfold settles_step in HS. unfold actor_load, actor_rank, work.
  cbv zeta in *. split; [|intros Hn; specialize (HR Hn); lia].
  case_decide; [lia|]. destruct HS as [HS|(HS & Hf & HK)]; [lia|]. rewrite Hf. lia.
Qed.

(** ** What a step of the node spends *)


(** An id is taken or not. *)
Definition takes w w' : Prop := askId (wasks w') = askId (wasks w) ∨ askId (wasks w') = next w.

(** At most one actor moves. *)
Definition one_moves w w' : Prop :=
  wactors w' = wactors w ∨
  ∃ a st l st', wactors w !! a = Some st ∧ exec a l st = Some st' ∧ wactors w' = <[a := st']> (wactors w).

(** A step spends some of the load, or gets nearer to doing so; an id is paid for. *)
Definition spends w w' : Prop :=
  (load w' < load w ∨ load w' = load w ∧ ranking w' < ranking w ∧ askId (wasks w') = askId (wasks w)) ∧
  one_moves w w' ∧ takes w w'.

Lemma spends_potential w w' : spends w w' → wpotential w' + 1 ≤ wpotential w.
Proof.
  intros [H _]. pose proof (load_bounds w). pose proof (load_bounds w'). unfold wpotential.
  destruct H as [H|(-> & H & _)]; nia.
Qed.

(** *** The counters of unfinished calls do not wrap *)

Definition all_sound w : Prop := ∀ a st, wactors w !! a = Some st → sound a st.

Lemma load_fits w a st : wactors w !! a = Some st → load w < 2 ^ 31 → SchedulerReach.fits st.
Proof.
  intros Ha Hl. unfold SchedulerReach.fits. pose proof (in_call_work st). pose proof (budgets_nonneg (wframes w)) as Hb.
  assert (actor_load st ≤ sum_of actor_load (wactors w)) as Hs.
  { apply (sum_of_elem _ _ a); [|done]. intros st'. pose proof (actor_bounds st'). lia. }
  assert (work st ≤ actor_load st) as Hw.
  { assert (0 ≤ carries wt (threads st)) by (apply sum_of_nonneg; intros t; apply sum_of_nonneg, wt_nonneg).
    assert (0 ≤ waiting wt (sh st)) by (apply sum_of_nonneg, wt_nonneg). unfold actor_load. lia. }
  unfold load in Hl. lia.
Qed.

Lemma all_sound_step w w' : all_sound w → load w < 2 ^ 31 → one_moves w w' → all_sound w'.
Proof.
  intros H Hl [E|(a & st & l & st' & Ha & Est & E)] b stb; rewrite E; [apply H|].
  intros [(<- & <- & _)|[_ Hb]]%list_lookup_insert_Some; [|by apply H].
  eapply sound_step; [by apply H|by eapply load_fits|exact Est].
Qed.

(** A goroutine moves, and its frame with it. *)
Lemma spends_update w a i ch st st' p o x : winv w → wactors w !! a = Some st → sound a st →
  exec a (LStep i ch) st = Some st' → pc_of st i = Some p →
  budget_of o + (if decide (ch = CAsk) then 1 else 0)
    ≤ budget_of (wframes w !! (a, i)) + (if decide (ch = CAsk) then 0 else sum_of wt (dispatching p)) →
  takes w (with_asks x w) → ch = CAsk ∨ askId x = askId (wasks w) ∨ reports_of (new_events st st') ≠ [] →
  spends w (with_asks x (update a i st' o w)).
Proof.
  intros I Ha Hso E Hp Ho Hx Hpaid.
  destruct (exec_spends a i ch st st' p Hso E Hp) as [Hl Hrep].
  split; [|split; [right; by exists a, st, (LStep i ch), st'|done]].
  unfold load, ranking. cbn [with_asks ReentryInv.update wactors wframes wasks].
  rewrite !(sum_of_insert _ _ a st st' Ha), budgets_set. cbv zeta in *.
  assert (0 ≤ sum_of wt (dispatching p)) by (apply sum_of_nonneg, wt_nonneg).
  destruct (decide (ch = CAsk)); [lia|]. destruct Hpaid as [|[->|Hn]]; [done|lia|specialize (Hrep Hn); lia].
Qed.

(** *** Sends *)

(** A send costs at most [n]. *)
Definition costs (n : Z) w w' : Prop :=
  load w' ≤ load w + n ∧ wframes w' = wframes w ∧ one_moves w w' ∧ takes w w'.

Lemma works_snoc (ths : list (thread U)) t : works (ths ++ [t]) = works ths + thread_work (tpc t).
Proof. unfold works. rewrite sum_of_app. cbn. lia. Qed.

Lemma costs_post w b c : (b < length (wactors w))%nat → costs (10 + 12 * wt c) w (post b c w).
Proof.
  intros Hlt. destruct (lookup_lt_is_Some_2 _ _ Hlt) as [[s ths] Hb]. unfold ReentryInv.post, Reentry.act. rewrite Hb.
  cbn [Scheduler.exec from_option id]. split; [|split; [done|split; [|by left]]].
  - unfold load. cbn [with_actor wactors wframes]. rewrite (sum_of_insert _ _ _ _ _ Hb).
    assert (∀ t, actor_load (State s (ths ++ [t])) = actor_load (State s ths) + thread_work (tpc t) + 12 * carried wt (tpc t)) as H.
    { intros t. unfold actor_load, work, carries. cbn [threads sh]. rewrite works_snoc, sum_of_app. cbn. lia. }
    rewrite H. unfold carried. cbn. lia.
  - right. by eexists b, (State s ths), (LSend c), _.
Qed.

Lemma costs_asks w x : takes w (with_asks x w) → costs 0 w (with_asks x w).
Proof. intros H. split; [change (load (with_asks x w)) with (load w); lia|]. split; [done|]. split; [by left|done]. Qed.

Lemma costs_answer w sn m : costs 0 w (answer sn m w).
Proof. apply costs_asks. left. cbn. apply deliverReply_askId. Qed.

Lemma costs_bump w : costs 0 w (bump w).
Proof. apply costs_asks. by right. Qed.

Lemma takes_answer w sn m : takes w (answer sn m (bump w)).
Proof. right. unfold answer. cbn [with_asks wasks]. by rewrite deliverReply_askId. Qed.

Lemma costs_le n n' w w' : costs n w w' → n ≤ n' → costs n' w w'.
Proof. intros (H & ? & ? & ?) Hle. split; [lia|by split]. Qed.

Lemma costs_tell w b u : winv w → (b < length (wactors w))%nat →
  costs (10 + 12 * Z.of_nat (weight u)) w (on_node b (Tell (self b) (MUser u)) w).
Proof.
  intros I Hlt. destruct (lookup_lt_is_Some_2 _ _ Hlt) as [st Hb].
  destruct (wi_reach _ _ _ _ _ _ _ _ _ _ I b st Hb) as [_ Hreg].
  rewrite (on_node_tell sys addr cfg resolve builds self hasRegister hasUnregister goid Hlocal b st w u Hb Hreg).
  case_decide; [|eapply costs_le; [apply costs_bump|lia]].
  destruct (costs_post (bump w) b (NewContext (self b) None (MUser u) (next w))) as (H1 & H2 & H3 & H4); [done|].
  split; [exact H1|]. split; [exact H2|]. split; [exact H3|]. right.
  destruct (post_same self hasRegister hasUnregister goid (bump w) b (NewContext (self b) None (MUser u) (next w))) as (_ & -> & _).
  done.
Qed.

Lemma costs_request w b req sn : winv w → (b < length (wactors w))%nat →
  costs (10 + 12 * Z.of_nat (weight req)) w
    (on_node b (tellWithSender (Some (self b)) (MUser req) (Some (reply_to sn)) sn) w).
Proof.
  intros I Hlt. destruct (lookup_lt_is_Some_2 _ _ Hlt) as [st Hb].
  destruct (wi_reach _ _ _ _ _ _ _ _ _ _ I b st Hb) as [_ Hreg].
  rewrite (on_node_request sys addr cfg resolve builds self hasRegister hasUnregister goid Hlocal b st w req sn Hb Hreg).
  case_decide; [by apply (costs_post w b (request_ctx b req sn))|].
  destruct (costs_answer (bump w) sn (MErrCode errActorNotFound)) as (H1 & H2 & H3 & _).
  split; [|split; [exact H2|split; [exact H3|apply takes_answer]]].
  change (load (bump w)) with (load w) in H1. lia.
Qed.

Lemma costs_reply w a c m : (a < length (wactors w))%nat →
  csender c = None ∨ (∃ sn, csender c = Some (reply_to sn)) → costs 0 w (on_node a (Reply c m) w).
Proof.
  intros Hlt Hc. destruct (lookup_lt_is_Some_2 _ _ Hlt) as [st Ha].
  rewrite (on_node_reply sys addr cfg resolve builds self hasRegister hasUnregister goid a st w c m Ha Hc).
  assert (costs 0 w w) as H by (split; [lia|split; [done|split; [by left|by left]]]).
  destruct (csender c) as [[]|]; try done. apply costs_answer.
Qed.

(** ... and the handler pays for it. *)
Lemma spends_sent n w w' k f0 f' : costs n w w' → wframes w !! k = Some f0 →
  n + 12 * Z.of_nat (fbudget f') < 12 * Z.of_nat (fbudget f0) → spends w (with_frame k f' w').
Proof.
  intros (H1 & H2 & H3 & H4) Hf Hn. split; [left|by split].
  unfold load in *. cbn [with_frame wactors wframes]. rewrite H2 in *.
  change (<[k:=f']> (wframes w)) with (set_frame k (Some f') (wframes w)). rewrite budgets_set, Hf. cbn. lia.
Qed.

(** ** Every internal step *)

Local Ltac pay := unfold budget_of; cbn [from_option fbudget];
  rewrite ?decide_True by done; rewrite ?decide_False by done; lia.

Definition internal (l : wlabel U) : bool :=
  match l with WStep _ _ _ | WHandler _ _ | WTimeout _ _ => true | WTell _ _ | WPoison _ => false end.

Definition all_bounded w : Prop := ∀ a st, wactors w !! a = Some st → bounded st.

Lemma bounded_sound w : winv w → all_bounded w → all_sound w.
Proof. intros I H a st Ha. apply reachable_sound; [by apply (wi_reach _ _ _ _ _ _ _ _ _ _ I)|by apply (H a)]. Qed.

(** A goroutine in a handler moves, by one of the choices of its handler. *)
Lemma spends_act w w' a i ch o x : winv w → all_sound w →
  act a (LStep i ch) (World (wactors w) (set_frame (a, i) o (wframes w)) x) = Some w' →
  pc_at a i w = Some PReceive ∨ pc_at a i w = Some PAwait →
  budget_of o + (if decide (ch = CAsk) then 1 else 0) ≤ budget_of (wframes w !! (a, i)) →
  takes w (with_asks x w) → ch = CAsk ∨ askId x = askId (wasks w) → spends w w'.
Proof.
  intros I Hb E Hp Ho Hx Hpaid. destruct (act_inv _ _ _ _ _ _ _ _ E) as (st & st' & Ha & Est & ->). cbn [wactors] in Ha.
  assert (∃ p, pc_of st i = Some p ∧ dispatching p = []) as (p & Hpc & Hd).
  { unfold pc_at in Hp. rewrite Ha in Hp. change (tpc <$> threads st !! i) with (pc_of st i) in Hp.
    destruct Hp as [-> | ->]; by eexists. }
  change (with_actor a st' _) with (with_asks x (update a i st' o w)).
  eapply spends_update; [done|done|by apply (Hb a)|done|done| |done|tauto].
  rewrite Hd. cbn. case_decide; lia.
Qed.

Lemma spends_Ask_end w w' a i f to req k sn ch tmo : winv w → all_sound w → pc_at a i w = Some PAwait →
  wframes w !! (a, i) = Some f → Ask_end self hasRegister hasUnregister goid is_T as_error a i f k sn ch tmo w = Some w' →
  fcode f = HAsk to req k → spends w w'.
Proof.
  intros I Hb Hp Hf E _. unfold Ask_end in E. destruct (ask_end _ _ _ _ _ _) as [[r x]|] eqn:Hend; [|done].
  assert (askId x = askId (wasks w)) as Hx by (unfold ask_end in Hend; repeat case_match; by simplify_eq/=).
  eapply (spends_act w w' a i CReturn (Some (Frame (fctx f) (k r) None (fbudget f))) x); try done; [by right| |by left|by right].
  rewrite Hf. pay.
Qed.

Lemma spends_Ask_begin w w' a i f to req k : winv w → all_sound w → pays f → pc_at a i w = Some PReceive →
  wframes w !! (a, i) = Some f → fcode f = HAsk to req k → fask f = None →
  Ask_begin self hasRegister hasUnregister goid weight a i f to req k w = Some w' → spends w w'.
Proof.
  intros I Hb Hpay Hp Hf Hc Hn E. unfold ReentryBudget.pays in Hpay. rewrite Hn, Hc in Hpay.
  cbn in Hpay. destruct Hpay as (_ & _ & Hbu & _).
  unfold Ask_begin in E. destruct (wactors w !! a) as [st|] eqn:Ha; [|done].
  destruct (Ask_check _ _ _) as [e|r].
  { injection E as <-. apply (spends_sent 0 w w (a, i) f); [|done|pay].
    split; [lia|split; [done|split; [by left|by left]]]. }
  unfold Ask.nextSnId in E. destruct (registerAsk _ _) as [[ch|] p] eqn:Hreg.
  - assert (askId p = next w) as Hp' by (unfold registerAsk in Hreg; cbn in Hreg; destruct (closed (wasks w)); by simplify_eq/=).
    eapply (spends_act w w' a i CAsk (Some (Frame (fctx f) (HAsk to req k) (Some (next w, ch, Suspending)) (fbudget f - 1))) p);
      try done; [by left| |by right|by left].
    rewrite Hf. pay.
  - assert (p = set_askId (next w) (wasks w)) as ->.
    { unfold registerAsk in Hreg. cbn in Hreg. destruct (closed (wasks w)); by simplify_eq/=. }
    injection E as <-. apply (spends_sent 0 w (bump w) (a, i) f); [apply costs_bump|done|pay].
Qed.

Lemma spends_handler w w' a i : winv w → all_sound w → all_pay w → handler_step a i w = Some w' → spends w w'.
Proof.
  intros I Hb Hall E. unfold Reentry.handler_step in E. destruct (pc_at a i w) as [p|] eqn:Hp; [|done].
  destruct (wframes w !! (a, i)) as [f|] eqn:Hf; [|by destruct p].
  pose proof (wi_frame _ _ _ _ _ _ _ _ _ _ I _ _ Hf) as Hok. pose proof Hok as (Hg & Hu & Hcode & _).
  pose proof (Hall _ _ Hf) as Hpay. pose proof Hpay as Hbu. unfold ReentryBudget.pays in Hbu. unfold code_ok in Hcode.
  destruct (frame_at _ _ _ _ _ _ _ _ _ w a i f I Hf) as [st Ha].
  destruct p; try done.
  - destruct (fcode f) as [| |m k|to u k|to req k] eqn:Hc, (fask f) as [x|] eqn:Hn; try done; cbn in Hcode, Hbu.
    + eapply (spends_act w w' a i CReturn None (wasks w)); try done; [by left|rewrite Hf; pay|by left|by right].
    + eapply (spends_act w w' a i CPanic None (wasks w)); try done; [by left|rewrite Hf; pay|by left|by right].
    + injection E as <-. destruct Hu as [[u Hu]|Hu]; [|done].
      eapply (spends_sent 0 w _ (a, i) f); [|done|pay]. apply costs_reply; [by eapply lookup_lt_Some|].
      destruct (good_user _ _ _ _ w (fctx f) u Hg Hu) as [|(sn & ? & _)]; eauto.
    + injection E as <-. eapply (spends_sent _ w _ (a, i) f); [|done|].
      * apply (costs_tell w to u I). rewrite (wi_len _ _ _ _ _ _ _ _ _ _ I). apply Hcode.
      * pay.
    + by eapply spends_Ask_begin.
  - destruct (fcode f) as [| |m k|to u k|to req k] eqn:Hc; try done.
    destruct (fask f) as [[[sn ch] []]|] eqn:Hn; try done.
    + injection E as <-. eapply (spends_sent _ w _ (a, i) f); [|done|].
      * apply (costs_request w to req sn I). rewrite (wi_len _ _ _ _ _ _ _ _ _ _ I). apply Hcode.
      * destruct Hbu as [H _]. pay.
    + by eapply spends_Ask_end.
Qed.

Lemma spends_framework w w' a i ch : winv w → all_sound w → framework_step a i ch w = Some w' → spends w w'.
Proof.
  intros I Hb E.
  destruct (framework_inv _ _ _ _ _ _ _ _ _ _ _ a i ch w w' E) as (st & st' & p & Ha & Hp & Hp1 & Hp2 & Hch & Est & ->).
  destruct (wi_reach _ _ _ _ _ _ _ _ _ _ I a st Ha) as [Hr Hreg].
  destruct (exec_moved _ _ _ _ _ _ _ _ _ Hr Hreg Est) as (p0 & p' & d & Hp0 & Hp' & Hst & Hd & Hh & Hm).
  rewrite Hp in Hp0. injection Hp0 as <-.
  assert (new_events st st' = d) as Hnew by (unfold new_events; by rewrite Hd, drop_app_length). rewrite Hnew.
  destruct (reports_told sys addr cfg resolve builds self hasRegister hasUnregister goid request Hlocal
    w a st st' p p' d Ha Hh) as (w1 & -> & Htold).
  { intros c Hc. eapply (wi_good _ _ _ _ _ _ _ _ _ _ I a st); [done|]. apply Hm. left.
    eapply letters_pushed; [exact (mv_reach _ _ _ _ _ _ _ _ Hm)|]. rewrite Hd. unfold letters in *.
    rewrite omap_app, elem_of_app. by right. }
  assert (w1 = with_asks (wasks w1) w ∧ takes w (with_asks (wasks w1) w)) as [E1 Ht].
  { destruct Htold as [[-> _]|(c & sn & m & _ & _ & _ & ->)]; [|by split; [|apply takes_answer]].
    destruct w. split; [done|by left]. }
  assert (askId (wasks w1) = askId (wasks w) ∨ reports_of d ≠ []) as Hpaid.
  { destruct Htold as [[-> _]|(c & sn & m & Hl & _)]; [by left|right].
    destruct Hh as (_ & _ & [[_ Hl']|(_ & c' & r & -> & _)]); [by rewrite Hl in Hl'|by unfold toDeadLetter; destruct (fail_asker _ _)]. }
  assert (Hpc : pc_at a i (with_actor a st' w1) = Some p').
  { rewrite E1. unfold pc_at. cbn [with_actor with_asks wactors].
    by rewrite list_lookup_insert_eq by (by eapply lookup_lt_Some). }
  rewrite Hpc.
  assert (spends w (with_asks (wasks w1) (update a i st' (next_frame prog weight a p p' (wframes w !! (a, i))) w))) as H.
  { eapply spends_update; [done|done|by apply (Hb a)|done|done| |done|]; [rewrite !decide_False by done|].
    2: { right. rewrite Hnew. exact Hpaid. }
    assert (0 ≤ sum_of wt (dispatching p)) by (apply sum_of_nonneg, wt_nonneg).
    unfold next_frame. destruct p; try lia. destruct p'; try lia. cbn. unfold wt.
    pose proof (frames_fresh _ _ _ _ _ _ _ _ _ w a i I) as Hfr. rewrite Ha in Hfr. cbn in Hfr.
    rewrite Hfr by (unfold stage; by rewrite Hp). cbn. lia. }
  assert (with_actor a st' w1 = with_asks (wasks w1) (update a i st' (wframes w !! (a, i)) w)) as E2.
  { rewrite E1 at 1. unfold with_actor, with_asks, ReentryInv.update. cbn [wactors wframes wasks]. f_equal. unfold set_frame.
    destruct (wframes w !! (a, i)) eqn:Hx; [by rewrite insert_id|by rewrite delete_id]. }
  destruct p; cbn [next_frame] in H; try (by rewrite E2).
  destruct p'; try (by rewrite E2).
  assert (with_frame (a, i) (Frame c (Receive prog a c) None (ctx_weight weight c)) (with_actor a st' w1)
    = with_asks (wasks w1) (update a i st' (Some (Frame c (Receive prog a c) None (ctx_weight weight c))) w)) as ->; [|exact H].
  by rewrite E1.
Qed.

Lemma spends_wexec l w w' : winv w → all_sound w → all_pay w → internal l = true → wexec l w = Some w' → spends w w'.
Proof.
  intros I Hb Hall Hl E. destruct l as [a i ch|a i|a i|a u|a]; try done; cbn [Reentry.wexec] in E.
  - by eapply spends_framework.
  - by eapply spends_handler.
  - unfold Reentry.timeout_step in E. destruct (pc_at a i w) as [p|] eqn:Hp; [|done].
    destruct (wframes w !! (a, i)) as [f|] eqn:Hf; [|by destruct p]. destruct p; try done.
    destruct (fcode f) as [| | | |to req k] eqn:Hc; try done.
    destruct (fask f) as [[[sn ch] []]|] eqn:Hn; try done. by eapply spends_Ask_end.
Qed.
End settle.
