(* ===== verification/ReentryTable.v ===== *)
(** * No Ask leaves its entry behind

    In the node of Reentry.v every entry of the pending table belongs to a
    handler that is in that Ask, so nothing pends once the handlers have ended. *)

From S2P Require Import Prelude.
From S2P Require Import GoStrings.
From S2P Require Import Queue.
From S2P Require Import ActorId.
From S2P Require Import ErrCode.
From S2P Require Import Config.
From S2P Require Import Messages.
From S2P Require Import SafeMap.
From S2P Require Import Registry.
From S2P Require Import Routing.
From S2P Require Import System.
From S2P Require Import Ask.
From S2P Require Import AskFlow.
From S2P Require Import Scheduler.
From S2P Require Import SchedulerCount.
From S2P Require Import SchedulerMoves.
From S2P Require Import Reentry.
From S2P Require Import ReentryInv.
From S2P Require Import ReentrySteps.
From S2P Require Import ReentryReach.
Open Scope Z_scope.

Section table.
Context `{Env : GoEnv} {U Q M P : Type} {BQ : BoundedQueue Q (Ctx U)}
  {MI : MapImpl M string nat} {PI : MapImpl P Z nat}.
Context (sys : nat) (addr : string) (cfg : config Env).
Context (resolve : ActorRef → resolvedRoute) (builds : ActorRef → bool).
Context (self : nat → ActorRef) (hasRegister hasUnregister : nat → bool) (goid : nat → nat → Z).
Context (prog : nat → U → handler U) (weight : U → nat) (request : U → bool) (N : nat).
Context (is_T : Message U → bool) (as_error : Message U → option string).
Local Abbreviation world := (world U Q M P).
Implicit Types (w : world) (st : Scheduler.state U Q M) (f : frame U).
Local Abbreviation act := (act self hasRegister hasUnregister goid).
Local Abbreviation on_node := (on_node self hasRegister hasUnregister goid).
Local Abbreviation winv := (winv sys addr self hasRegister hasUnregister goid weight request N).
Local Abbreviation wexec := (wexec sys addr cfg resolve builds self hasRegister hasUnregister goid prog weight is_T as_error).
Local Abbreviation wreachable := (wreachable sys addr cfg resolve builds self hasRegister hasUnregister goid prog weight is_T as_error).
Hypothesis Hlocal : local_refs sys addr self.
Hypothesis Hprog : ∀ a u, polite weight request N (weight u) (prog a u).
Hypothesis Hanswers : ∀ a u, request u = true → answers (prog a u).

Definition pends w : gmap Z nat := m_abs (table (wasks w)).
Definition no_leak w : Prop := ∀ sn, is_Some (pends w !! sn) → live (wframes w) sn.

(** Sends take entries out, at most. *)
Definition shrinks w w' : Prop :=
  wframes w' = wframes w ∧ m_wf (table (wasks w')) ∧ pends w' ⊆ pends w.

Lemma shrinks_trans w1 w2 w3 : shrinks w1 w2 → shrinks w2 w3 → shrinks w1 w3.
Proof. intros (E1 & _ & H1) (E2 & W & H2). split; [congruence|]. split; [done|]. by transitivity (pends w2). Qed.

Lemma shrinks_fold {E} (step : world → E → world) (l : list E) w : m_wf (table (wasks w)) →
  (∀ w e, m_wf (table (wasks w)) → shrinks w (step w e)) → shrinks w (foldl step w l).
Proof.
  intros W Hs. revert w W. induction l as [|e l IH]; intros w W; [done|]. cbn [foldl].
  pose proof (Hs w e W) as H. eapply shrinks_trans; [exact H|]. apply IH, H.
Qed.

Lemma deliverReply_shrinks w sn m : m_wf (table (wasks w)) → shrinks w (answer sn m w).
Proof.
  intros W. unfold shrinks, answer, pends, deliverReply. cbn [with_asks wframes wasks].
  destruct (m_pop_law (table (wasks w)) sn W) as (W' & _ & H).
  destruct (m_pop (table (wasks w)) sn) as [[ch|] t]; cbn [table snd] in *; rewrite H;
    (split; [done|split; [done|apply delete_subseteq]]).
Qed.

Lemma on_node_shrinks b call w : m_wf (table (wasks w)) → shrinks w (on_node b call w).
Proof.
  intros W. unfold Reentry.on_node. destruct (wactors w !! b) as [st|]; [|done]. destruct (call _) as [effs n].
  eapply (shrinks_trans w (with_asks (set_askId (naskId n) (wasks w)) w)); [done|].
  apply shrinks_fold; [done|]. intros w1 e W1. destruct e; try done.
  - destruct (post_same self hasRegister hasUnregister goid w1 p ctx) as (E1 & E2 & _). cbn [apply_effect].
    unfold post in E1, E2. split; [done|]. unfold pends. by rewrite E2.
  - by apply deliverReply_shrinks.
Qed.

Lemma tell_reports_shrinks a d w : m_wf (table (wasks w)) →
  shrinks w (tell_reports sys addr cfg resolve builds self hasRegister hasUnregister goid a d w).
Proof.
  intros W. apply shrinks_fold; [done|]. intros w1 e W1. destruct e; try done. destruct r; [by apply on_node_shrinks|done].
Qed.

Lemma no_leak_shrinks w w' : no_leak w → shrinks w w' → no_leak w'.
Proof.
  intros H (Ef & _ & Hs) sn [ch Hc]. rewrite Ef. apply H. exists ch. by eapply lookup_weaken.
Qed.

(** *** Frames *)

(** Another frame, waiting for nothing less. *)
Lemma no_leak_frame w k f' : no_leak w → (∀ f0 sn, wframes w !! k = Some f0 → waits f0 sn → waits f' sn) →
  no_leak (with_frame k f' w).
Proof.
  intros H Hf sn Hs. destruct (H sn Hs) as (k' & f & Hk & Hw). destruct (decide (k = k')) as [<-|Hne].
  - exists k, f'. split; [apply lookup_insert_eq|by eapply Hf].
  - exists k', f. cbn [with_frame wframes]. by rewrite lookup_insert_ne.
Qed.

Lemma no_leak_act a l w w' : act a l w = Some w' → no_leak w → no_leak w'.
Proof. intros E H. by destruct (act_inv _ _ _ _ _ _ _ _ E) as (st & st' & _ & _ & ->). Qed.

Lemma no_leak_Ask_end w w' a i f k sn ch tmo : m_wf (table (wasks w)) → no_leak w → wframes w !! (a, i) = Some f →
  fask f = Some (sn, ch, Awaiting) →
  Ask_end self hasRegister hasUnregister goid is_T as_error a i f k sn ch tmo w = Some w' → no_leak w'.
Proof.
  intros W H Hf Hn E. unfold Ask_end in E. destruct (ask_end _ _ _ _ _ _) as [[r p]|] eqn:Hend; [|done].
  assert (p = cancelAsk sn (wasks w)) as ->.
  { unfold ask_end in Hend. repeat case_match; by simplify_eq/=. }
  eapply no_leak_act; [exact E|]. intros sn' [ch' Hc]. unfold pends in Hc. cbn [with_frame with_asks wasks cancelAsk table] in Hc.
  destruct (m_remove_law (table (wasks w)) sn W) as [_ Er]. rewrite Er in Hc. apply lookup_delete_Some in Hc as [Hne Hc].
  destruct (H sn' ltac:(by exists ch')) as (k' & f1 & Hk & ch1 & s1 & Hw). exists k', f1.
  split; [|by exists ch1, s1]. cbn [with_frame with_asks wframes]. rewrite lookup_insert_ne; [done|].
  intros <-. rewrite Hf in Hk. injection Hk as <-. congruence.
Qed.

Lemma no_leak_Ask_begin w w' a i f to req k : m_wf (table (wasks w)) → no_leak w → wframes w !! (a, i) = Some f →
  fask f = None → Ask_begin self hasRegister hasUnregister goid weight a i f to req k w = Some w' → no_leak w'.
Proof.
  intros W H Hf Hn E. unfold Ask_begin in E. destruct (wactors w !! a) as [st|]; [|done].
  assert (∀ v f', wframes v = wframes w → pends v = pends w → no_leak (with_frame (a, i) f' v)) as Hrefused.
  { intros v f' Ev Ep. apply no_leak_frame.
    - intros sn Hs. rewrite Ep in Hs. rewrite Ev. by apply H.
    - rewrite Ev. intros f0 sn Hf0 (ch & s & Hw). rewrite Hf in Hf0. injection Hf0 as <-. congruence. }
  destruct (Ask_check _ _ _) as [e|r]; [injection E as <-; by apply Hrefused|].
  unfold registerAsk in E. cbn [closed set_askId] in E. destruct (closed (wasks w)); [injection E as <-; by apply Hrefused|].
  eapply no_leak_act; [exact E|]. intros sn [ch Hc]. unfold pends in Hc. cbn [with_frame with_asks wasks table chans set_askId] in Hc.
  destruct (m_set_law (table (wasks w)) (Ask.nextSnId (wasks w)) (length (chans (wasks w))) W) as (_ & _ & Es).
  rewrite Es in Hc. cbn [with_frame with_asks wframes]. unfold live. cbn [wframes].
  destruct (decide (sn = Ask.nextSnId (wasks w))) as [->|Hne].
  - eexists (a, i), _. split; [apply lookup_insert_eq|]. by eexists _, _.
  - rewrite lookup_insert_ne in Hc by done. destruct (H sn ltac:(by exists ch)) as (k' & f1 & Hk & ch1 & s1 & Hw).
    exists k', f1. split; [|by exists ch1, s1]. rewrite lookup_insert_ne; [done|].
    intros <-. rewrite Hf in Hk. injection Hk as <-. congruence.
Qed.

(** ** Every step *)

Lemma no_leak_handler w w' a i : m_wf (table (wasks w)) → no_leak w →
  handler_step sys addr cfg resolve builds self hasRegister hasUnregister goid weight is_T as_error a i w = Some w' →
  no_leak w'.
Proof.
  intros W H E. unfold handler_step in E. destruct (pc_at a i w) as [p|]; [|done].
  destruct (wframes w !! (a, i)) as [f|] eqn:Hf; [|by destruct p].
  assert (∀ v f', shrinks w v → (∀ sn, waits f sn → waits f' sn) → no_leak (with_frame (a, i) f' v)) as Hsent.
  { intros v f' Hs Hw. apply no_leak_frame; [by eapply no_leak_shrinks|]. destruct Hs as [-> _].
    intros f0 sn Hf0. rewrite Hf in Hf0. injection Hf0 as <-. apply Hw. }
  assert (fask f = None → no_leak (drop_frame (a, i) w)) as Hdrop.
  { intros Hn sn Hs. destruct (H sn Hs) as (k' & f1 & Hk & ch & s & Hw). exists k', f1. split; [|by exists ch, s].
    cbn [drop_frame wframes]. rewrite lookup_delete_ne; [done|]. intros <-. rewrite Hf in Hk. injection Hk as <-. congruence. }
  assert (fask f = None → ∀ f' sn, waits f sn → waits f' sn) as Hplain by (intros Hn f' sn (ch & s & Hw); congruence).
  destruct p; try done.
  - destruct (fcode f) as [| |m k|to u k|to req k], (fask f) as [x|] eqn:Hn; try done.
    + eapply no_leak_act; [exact E|by apply Hdrop].
    + eapply no_leak_act; [exact E|by apply Hdrop].
    + injection E as <-. apply Hsent; [by apply on_node_shrinks|by apply Hplain].
    + injection E as <-. apply Hsent; [by apply on_node_shrinks|by apply Hplain].
    + by eapply no_leak_Ask_begin.
  - destruct (fcode f) as [| |m k|to u k|to req k]; try done.
    destruct (fask f) as [[[sn ch] []]|] eqn:Hn; try done.
    + injection E as <-. apply Hsent; [by apply on_node_shrinks|].
      intros sn' (ch' & s & Hw). rewrite Hn in Hw. injection Hw as <- <- <-. by exists ch, Awaiting.
    + by eapply no_leak_Ask_end.
Qed.

Lemma no_leak_framework w w' a i ch : winv w → no_leak w →
  framework_step sys addr cfg resolve builds self hasRegister hasUnregister goid prog weight a i ch w = Some w' →
  no_leak w'.
Proof.
  intros I H E. destruct (wi_asks _ _ _ _ _ _ _ _ _ _ I) as (W & _).
  destruct (framework_inv _ _ _ _ _ _ _ _ _ _ _ a i ch w w' E) as (st & st' & p & Ha & Hp & _ & _ & _ & _ & ->).
  pose proof (tell_reports_shrinks a (new_events st st') (with_actor a st' w) W) as Hs.
  set (w2 := tell_reports _ _ _ _ _ _ _ _ _ _ _ _) in *. cbv zeta.
  assert (no_leak w2) as H2 by (by eapply (no_leak_shrinks (with_actor a st' w))).
  destruct p; try done. destruct (pc_at a i w2) as [[]|]; try done.
  apply no_leak_frame; [done|]. intros f0 sn Hf0. exfalso. destruct Hs as [Ef _]. rewrite Ef in Hf0. cbn [with_actor wframes] in Hf0.
  pose proof (frames_fresh _ _ _ _ _ _ _ _ _ w a i I) as Hfr. rewrite Ha in Hfr. cbn in Hfr.
  rewrite Hfr in Hf0; [done|]. unfold stage. by rewrite Hp.
Qed.

Lemma no_leak_wexec l w w' : winv w → no_leak w → wexec l w = Some w' → no_leak w'.
Proof.
  intros I H E. destruct (wi_asks _ _ _ _ _ _ _ _ _ _ I) as (W & _).
  destruct l as [a i ch|a i|a i|a u|a]; cbn [Reentry.wexec] in E.
  - by eapply no_leak_framework.
  - by eapply no_leak_handler.
  - unfold timeout_step in E. destruct (pc_at a i w) as [p|]; [|done].
    destruct (wframes w !! (a, i)) as [f|] eqn:Hf; [|by destruct p]. destruct p; try done.
    destruct (fcode f); try done. destruct (fask f) as [[[sn c] []]|] eqn:Hn; try done. by eapply no_leak_Ask_end.
  - injection E as <-. eapply no_leak_shrinks; [done|by apply on_node_shrinks].
  - by eapply no_leak_act.
Qed.

Lemma wreachable_no_leak w : wreachable w → length (wactors w) = N → no_leak w.
Proof.
  induction 1 as [w Hi|w l w' Hr IH E Hle]; intros HN.
  - destruct Hi as (_ & _ & _ & Ht & _). intros sn [ch Hc]. unfold pends in Hc. by rewrite Ht, lookup_empty in Hc.
  - assert (length (wactors w) = N) as HN' by (rewrite <-HN; symmetry; by eapply wexec_length).
    eapply no_leak_wexec; [|by apply IH|exact E].
    by eapply (wreachable_winv sys addr cfg resolve builds self hasRegister hasUnregister goid).
Qed.
End table.
