(* ===== verification/ReentryThms.v ===== *)
(** * What actors that ask each other are guaranteed

    For any handlers that answer every request and whose requests are lighter
    than what they handle, over any interleaving: no deadlock; and, when each
    handler also keeps within a budget of sends, rest within a computable number
    of steps.  ReentryDemo.v applies them to the a -> b -> a cycle of
    examples/hello_reentry. *)

From S2P Require Import Prelude.
From S2P Require Import GoStrings.
From S2P Require Import Queue.
From S2P Require Import ActorId.
From S2P Require Import ErrCode.
From S2P Require Import Config.
From S2P Require Import Messages.
From S2P Require Import SafeMap.
From S2P Require Import Registry.
From S2P Require Import Routing.
From S2P Require Import System.
From S2P Require Import Ask.
From S2P Require Import AskFlow.
From S2P Require Import Scheduler.
From S2P Require Import SchedulerInv.
From S2P Require Import SchedulerCount.
From S2P Require Import SchedulerSafety.
From S2P Require Import SchedulerFifo.
From S2P Require Import SchedulerOrder.
From S2P Require Import SchedulerLife.
From S2P Require Import SchedulerReach.
From S2P Require Import SchedulerEnd.
From S2P Require Import SchedulerWake.
From S2P Require Import SchedulerLetters.
From S2P Require Import SchedulerThms.
From S2P Require Import SchedulerSettle.
From S2P Require Import SchedulerMoves.
From S2P Require Import Reentry.
From S2P Require Import ReentryInv.
From S2P Require Import ReentrySteps.
From S2P Require Import ReentryReach.
From S2P Require Import ReentryProgress.
From S2P Require Import ReentryBudget.
From S2P Require Import ReentrySettle.
From S2P Require Import ReentryTable.
Open Scope Z_scope.

Section theorems.
Context `{Env : GoEnv} {U Q M P : Type} {BQ : BoundedQueue Q (Ctx U)}
  {MI : MapImpl M string nat} {PI : MapImpl P Z nat}.
Context (sys : nat) (addr : string) (cfg : config Env).
Context (resolve : ActorRef → resolvedRoute) (builds : ActorRef → bool).
Context (self : nat → ActorRef) (hasRegister hasUnregister : nat → bool) (goid : nat → nat → Z).
Context (prog : nat → U → handler U) (weight : U → nat) (request : U → bool) (N : nat).
Context (is_T : Message U → bool) (as_error : Message U → option string).
Local Abbreviation world := (world U Q M P).
Implicit Types (w : world) (st : Scheduler.state U Q M) (c : Ctx U) (f : frame U).
Local Abbreviation reachable a := (Scheduler.reachable (self a) a (hasRegister a) (hasUnregister a) (goid a)).
Local Abbreviation winv := (winv sys addr self hasRegister hasUnregister goid weight request N).

Hypothesis Hlocal : local_refs sys addr self.
Hypothesis Hanswers : ∀ a u, request u = true → answers (prog a u).
Local Abbreviation all_pay := (all_pay weight request N).
Local Abbreviation all_sound := (all_sound self hasRegister hasUnregister goid).
Local Abbreviation wexec := (wexec sys addr cfg resolve builds self hasRegister hasUnregister goid prog weight is_T as_error).
Local Abbreviation wreachable := (wreachable sys addr cfg resolve builds self hasRegister hasUnregister goid prog weight is_T as_error).



Local Abbreviation wrun := (wrun sys addr cfg resolve builds self hasRegister hasUnregister goid prog weight is_T as_error).
Local Abbreviation wstuck := (wstuck sys addr cfg resolve builds self hasRegister hasUnregister goid prog weight is_T as_error).
Local Abbreviation wpotential := (wpotential weight).
Local Abbreviation wbound := (wbound weight).
Hypothesis goid_nonzero : ∀ a i, goid a i ≠ 0.

(** ** Stuck or not is decidable *)

Definition choices : list choice := [CStep; CReturn; CError; CPanic; CGoexit; CAsk].

(** The steps that could be possible: those of the goroutines there are. *)
Definition candidates w : list (wlabel U) :=
  concat ((λ a, concat ((λ i, WHandler a i :: (WStep a i <$> choices)) <$>
    seq 0 (from_option (λ st, length (threads st)) 0%nat (wactors w !! a)))) <$> seq 0 (length (wactors w))).

Lemma candidate_in w a i st l : wactors w !! a = Some st → is_Some (pc_of st i) →
  l ∈ WHandler a i :: (WStep a i <$> choices) → l ∈ candidates w.
Proof.
  intros Ha [p Hp] Hl. unfold pc_of in Hp. destruct (threads st !! i) as [t|] eqn:Hi; [|done].
  apply list_elem_of_In, in_concat. eexists. split.
  - apply list_elem_of_In, list_elem_of_fmap. exists a. split; [done|]. apply elem_of_seq.
    split; [lia|]. by eapply lookup_lt_Some.
  - apply in_concat. eexists. split; [|by apply list_elem_of_In].
    apply list_elem_of_In, list_elem_of_fmap. exists i. split; [done|]. apply elem_of_seq. rewrite Ha.
    split; [lia|]. cbn. by eapply lookup_lt_Some.
Qed.

Lemma candidate_of l w w' : wexec l w = Some w' → (∃ a i ch, l = WStep a i ch) ∨ (∃ a i, l = WHandler a i) →
  l ∈ candidates w.
Proof.
  intros E [(a & i & ch & ->)|(a & i & ->)]; cbn [Reentry.wexec] in E.
  - destruct (framework_inv _ _ _ _ _ _ _ _ _ _ _ a i ch w w' E) as (st & st' & p & Ha & Hp & _).
    eapply candidate_in; [done|by eexists|]. apply elem_of_cons. right. apply list_elem_of_fmap. exists ch.
    split; [done|]. destruct ch; set_solver.
  - unfold Reentry.handler_step in E. unfold pc_at in E. destruct (wactors w !! a) as [st|] eqn:Ha; [|done].
    eapply candidate_in; [exact Ha| |by left]. change (tpc <$> threads st !! i) with (pc_of st i) in E.
    by destruct (pc_of st i); [eexists|].
Qed.

Lemma moves_or_stuck w : wstuck w ∨ ∃ l w', internal l = true ∧ (∀ a i, l ≠ WTimeout a i) ∧ wexec l w = Some w'.
Proof.
  destruct (decide (Exists (λ l, is_Some (wexec l w)) (candidates w))) as [H|H].
  - right. apply Exists_exists in H as (l & Hl & w' & E). exists l, w'.
    apply list_elem_of_In, in_concat in Hl as (x & Hx & Hl). apply list_elem_of_In, list_elem_of_fmap in Hx as (a & -> & _).
    apply in_concat in Hl as (y & Hy & Hl). apply list_elem_of_In, list_elem_of_fmap in Hy as (i & -> & _).
    apply list_elem_of_In, elem_of_cons in Hl as [->|Hl]; [done|]. by apply list_elem_of_fmap in Hl as (ch & -> & _).
  - left. assert (∀ l w', wexec l w = Some w' → l ∈ candidates w → False) as Hno.
    { intros l w' E Hl. apply H. apply Exists_exists. exists l. split; [done|by exists w']. }
    split; [intros a i ch|intros a i]; (destruct (wexec _ w) as [w'|] eqn:E; [|done]); exfalso;
      (eapply Hno; [exact E|]; eapply candidate_of; [exact E|]); [left; eauto|right; eauto].
Qed.

(** A node whose goroutines have all returned cannot move. *)
Lemma returned_stuck w : (∀ a st, wactors w !! a = Some st → all_returned st) → wstuck w.
Proof.
  intros H.
  assert (∀ a i p, pc_at a i w = Some p → p = PDone) as Hdone.
  { intros a i p Hp. unfold pc_at in Hp. destruct (wactors w !! a) as [st|] eqn:Ha; [|done].
    destruct (threads st !! i) as [t|] eqn:Hi; [|done]. injection Hp as <-. by eapply (H a). }
  split; [intros a i ch|intros a i]; (destruct (wexec _ w) as [w'|] eqn:E; [|done]); cbn [Reentry.wexec] in E.
  - destruct (framework_inv _ _ _ _ _ _ _ _ _ _ _ a i ch w w' E) as (st & st' & p & Ha & Hp & _ & _ & _ & Est & _).
    destruct (exec_step_inv Est) as (t & t' & new & Hi & Ht & _). unfold tstep in Ht. by rewrite (H a st Ha i t Hi) in Ht.
  - unfold Reentry.handler_step in E. destruct (pc_at a i w) as [p|] eqn:Hp; [|done]. by rewrite (Hdone a i p Hp) in E.
Qed.

(** ** Stuck is settled *)

(** Everything handed to an actor has been dispatched to it or given up. *)
Definition handled w : Prop := ∀ a st, wactors w !! a = Some st →
  pushed (history (sh st)) ≡ₚ dispatched (history (sh st)) ++ letters (history (sh st)).

(** ... and no Ask is registered any more. *)
Definition settled w : Prop := at_rest w ∧ handled w ∧ m_abs (table (wasks w)) = ∅.

Lemma rest_handled w : all_sound w → at_rest w → handled w.
Proof.
  intros Hb [_ H] a st Ha. eapply quiescent_handled; [by apply (Hb a)|]. by apply returned_quiescent, (H a).
Qed.

Lemma stuck_settled w : winv w → no_leak w → all_sound w → wstuck w → settled w.
Proof.
  intros I Hl Hb Hs.
  assert (at_rest w) as H by (by eapply (stuck_at_rest sys addr cfg resolve builds self hasRegister hasUnregister goid)).
  split; [done|]. split; [by apply rest_handled|]. apply map_eq. intros sn. rewrite lookup_empty.
  destruct (m_abs (table (wasks w)) !! sn) as [ch|] eqn:E; [|done].
  destruct (Hl sn ltac:(by exists ch)) as (k & f & Hk & _). destruct H as [H _]. by rewrite H, lookup_empty in Hk.
Qed.

(** [C2] Reentrant Asks never deadlock.  Take the [N] actors of a node, and
    handlers that are finite, talk to those actors only, answer every request on
    every path, and ask only requests of less weight than what they are handling;
    their Tells and Replies are free.  Then in any state a run can reach before
    the 64-bit id counter wraps and while fewer than 2^31 goroutines have touched
    each actor, in which no goroutine can move, and with no Ask timing out, no
    handler is waiting: every handler has ended, every goroutine has returned,
    every message has been dispatched or dead-lettered, and the pending table is
    empty, however the handlers asked each other and themselves, and whoever was
    stopped meanwhile. *)
Theorem asks_never_deadlock (Hprog : ∀ a u, polite weight request N (weight u) (prog a u)) w
    (Hr : wreachable w) (HN : length (wactors w) = N) (Hb : all_bounded w) (Hs : wstuck w) : settled w.
Proof.
  assert (winv w) as I by (by eapply (wreachable_winv sys addr cfg resolve builds self hasRegister hasUnregister goid)).
  apply stuck_settled; [done| |by eapply bounded_sound|done].
  by eapply (wreachable_no_leak sys addr cfg resolve builds self hasRegister hasUnregister goid).
Qed.

(** ** A run has room *)

Hypothesis Hbudget : ∀ a u, well_behaved weight request N (weight u) (prog a u).

Lemma budget_polite a u : polite weight request N (weight u) (prog a u).
Proof. by eapply well_behaved_polite. Qed.

(** The load pays for every unfinished call and every id still to come. *)
Definition wroom w : Prop := load weight w < 2 ^ 31 ∧ askId (wasks w) + load weight w < 2 ^ 64.

(** What a run keeps. *)
Record run_inv w : Prop := {
  ri_inv : winv w;
  ri_sound : all_sound w;
  ri_pay : all_pay w;
  ri_leak : no_leak w;
  ri_room : wroom w
}.

Lemma run_inv_step l w w' : run_inv w → internal l = true → wexec l w = Some w' →
  run_inv w' ∧ wpotential w' + 1 ≤ wpotential w.
Proof.
  intros [I S Hp L [R1 R2]] Hl E.
  pose proof (spends_wexec sys addr cfg resolve builds self hasRegister hasUnregister goid prog weight request N is_T as_error
    Hlocal l w w' I S Hp Hl E) as Hs.
  pose proof (spends_potential _ _ _ _ weight w w' Hs) as Hle. destruct Hs as (Hload & Hone & Hid).
  pose proof (load_bounds weight w'). destruct (wi_asks _ _ _ _ _ _ _ _ _ _ I) as (_ & Hb0 & _).
  assert (askId (wasks w') = askId (wasks w) ∨ load weight w' < load weight w ∧ askId (wasks w') = askId (wasks w) + 1) as Hid'.
  { destruct Hload as [Hload|(_ & _ & ?)]; [|by left]. destruct Hid as [|Hid]; [by left|right]. split; [done|].
    rewrite Hid. apply u64_id. unfold in_u64. lia. }
  split; [|done]. constructor.
  - eapply (winv_wexec sys addr cfg resolve builds self hasRegister hasUnregister goid prog weight request N is_T as_error
      Hlocal budget_polite Hanswers l w w' I E). lia.
  - by eapply all_sound_step.
  - eapply (all_pay_wexec sys addr cfg resolve builds self hasRegister hasUnregister goid prog weight request N is_T as_error
      Hbudget); done.
  - eapply (no_leak_wexec sys addr cfg resolve builds self hasRegister hasUnregister goid); [exact I|exact L|exact E].
  - unfold wroom in *. lia.
Qed.

Lemma wrun_runs ls w : wrun ls w = runs wexec ls w.
Proof. revert w. induction ls as [|l ls IH]; intros w; [done|]. cbn. destruct (wexec l w); [apply IH|done]. Qed.

Lemma run_spends ls w w' : run_inv w → Forall (λ l, internal l = true) ls → wrun ls w = Some w' →
  run_inv w' ∧ Z.of_nat (length ls) + wpotential w' ≤ wpotential w.
Proof.
  intros I Hls E. rewrite wrun_runs in E.
  destruct (runs_bounded wexec (λ _, true) (λ l, internal l = true) run_inv wpotential)
    with (ls := ls) (s := w) (s' := w') as [I' Hle]; try done.
  - intros l s s' Is Hl Es. by eapply run_inv_step.
  - split; [done|]. assert (own_steps (λ _ : wlabel U, true) ls = Z.of_nat (length ls)) as H; [|lia].
    clear. unfold own_steps. induction ls as [|l ls IH]; [done|]. cbn. unfold sum_of in IH. lia.
Qed.

Lemma run_inv_settled w : run_inv w → wstuck w → settled w.
Proof. intros [I S _ L _] Hs. by apply stuck_settled. Qed.

(** [C3] A node of reentrant actors comes to rest.  Take handlers as above that
    also send no more than their budget: a Reply costs 1, a Tell 1 and the weight
    of its message, an Ask 2 and the weight of its request, and handling a message
    may spend its weight.  Take any moment of a run at which fewer than 2^31
    goroutines have touched each actor and from which nobody outside sends or
    poisons any more, and count its [load] over the node: 8 for a queued message,
    at most 10 for a goroutine that has not returned, 1 for an actor that is not
    stopped, and 12 for each unit of weight of a message under way and each unit
    of budget a running handler has left.  If the load is below 2^31, the range of
    the int32 counter of unfinished calls, and that many ids are left before the
    64-bit counter wraps, then the node takes at most [wbound] steps, quadratic in
    the load, in any order and with any Asks timing out; every partial run can be
    finished without any timeout; and it stops only when every handler has ended,
    every goroutine has returned, every message is dispatched or dead-lettered
    and no Ask is registered. *)
Theorem reentry_settles w (Hr : wreachable w) (HN : length (wactors w) = N) (Hb : all_bounded w)
    (Hroom : load weight w < 2 ^ 31) (Hids : askId (wasks w) + load weight w < 2 ^ 64) :
  ∀ ls w', Forall (λ l, internal l = true) ls → wrun ls w = Some w' →
    Z.of_nat (length ls) ≤ wbound w ∧
    (wstuck w' → settled w') ∧
    ∃ ls2 w2, Forall (λ l, internal l = true ∧ ∀ a i, l ≠ WTimeout a i) ls2 ∧ wrun ls2 w' = Some w2 ∧ settled w2.
Proof.
  intros ls w' Hls E. pose proof budget_polite as Hpol.
  assert (winv w) as I0 by (by eapply (wreachable_winv sys addr cfg resolve builds self hasRegister hasUnregister goid)).
  assert (run_inv w) as I.
  { constructor; [done|by eapply bounded_sound| | |done].
    - by eapply (wreachable_pays sys addr cfg resolve builds self hasRegister hasUnregister goid).
    - by eapply (wreachable_no_leak sys addr cfg resolve builds self hasRegister hasUnregister goid). }
  destruct (run_spends ls w w' I Hls E) as [I' Hle].
  pose proof (wpotential_bounds weight w). pose proof (wpotential_bounds weight w').
  split; [lia|]. split; [by apply run_inv_settled|].
  destruct (runs_end wexec (λ _, true) (λ l, internal l = true ∧ ∀ a i, l ≠ WTimeout a i) run_inv wpotential)
    with (final := settled) (s := w') as (ls2 & w2 & H2 & E2 & Hf); try done.
  - intros v _. apply wpotential_bounds.
  - intros l s s' Is [Hl _] Es. by eapply run_inv_step.
  - intros v Iv. destruct (moves_or_stuck v) as [Hs|(l & v' & Hl & Ht & Ev)]; [left; by apply run_inv_settled|right].
    by exists l, v'.
  - exists ls2, w2. rewrite wrun_runs. split_and!; try done. eapply Forall_impl; [exact H2|]. by intros l [].
Qed.
End theorems.
