(* ===== verification/ReentryDemo.v ===== *)
(** * examples/hello_reentry

    The two actors of the example: A asks B, B asks A back, A answers while its
    own Ask is waiting.  The handlers are hello_actor.go's, less their logging;
    a node runs them on the ring buffer and the sharded maps. *)

From S2P Require Import Prelude.
From S2P Require Import GoStrings.
From S2P Require Import Queue.
From S2P Require Import RingBuffer.
From S2P Require Import ActorId.
From S2P Require Import ErrCode.
From S2P Require Import Config.
From S2P Require Import Messages.
From S2P Require Import SafeMap.
From S2P Require Import Registry.
From S2P Require Import Routing.
From S2P Require Import System.
From S2P Require Import SystemDemo.
From S2P Require Import Ask.
From S2P Require Import AskThms.
From S2P Require Import AskFlow.
From S2P Require Import Scheduler.
From S2P Require Import SchedulerReach.
From S2P Require Import SchedulerThms.
From S2P Require Import SchedulerSettle.
From S2P Require Import Reentry.
From S2P Require Import ReentryInv.
From S2P Require Import ReentrySteps.
From S2P Require Import ReentryReach.
From S2P Require Import ReentryProgress.
From S2P Require Import ReentrySettle.
From S2P Require Import ReentryTable.
From S2P Require Import ReentryThms.
Open Scope Z_scope.

(** ** The handlers *)

Inductive hello : Type := Hello | HelloAskA2B | HelloAskB2A | HelloReplyA2B | HelloReplyB2A.

#[export] Instance hello_eq_dec : EqDecision hello.
Proof. solve_decision. Defined.

Definition helloActorA : nat := 0.
Definition helloActorB : nat := 1.

Definition HelloActorA_Receive (m : hello) : handler hello :=
  match m with
  | HelloAskB2A => HReply (MUser HelloReplyB2A) HReturn
  | Hello => HAsk helloActorB HelloAskA2B (λ r, match r with inr _ => HReturn | inl _ => HReturn end)
  | _ => HPanic
  end.

Definition HelloActorB_Receive (m : hello) : handler hello :=
  match m with
  | HelloAskA2B => HAsk helloActorA HelloAskB2A (λ r,
      match r with
      | inr _ => HReturn
      | inl _ => HReply (MUser HelloReplyA2B) HReturn
      end)
  | Hello => HReturn
  | _ => HPanic
  end.

Definition hello_prog (a : nat) : hello → handler hello :=
  match a with O => HelloActorA_Receive | _ => HelloActorB_Receive end.

(** B leaves its asker to the timeout when its own Ask fails ... *)
Lemma hello_b_may_not_answer : ¬ answers (HelloActorB_Receive HelloAskA2B).
Proof. intros H. exact (H (inr errActorNotFound)). Qed.

(** ... so the guarantees are stated of handlers that report it instead. *)
Fixpoint answering {U} (e : ErrCode) (h : handler U) : handler U :=
  match h with
  | HReturn | HPanic => HReply (MErrCode e) HReturn
  | HReply m k => HReply m k
  | HTell to u k => HTell to u (answering e k)
  | HAsk to req k => HAsk to req (λ r, answering e (k r))
  end.

Lemma answering_answers {U} e (h : handler U) : answers (answering e h).
Proof. induction h; cbn; auto. Qed.

Definition hello_request (m : hello) : bool :=
  match m with HelloAskA2B | HelloAskB2A => true | _ => false end.
Definition hello_weight (m : hello) : nat :=
  match m with Hello => 6 | HelloAskA2B => 4 | HelloAskB2A => 1 | _ => 0 end.
Definition safe_prog (a : nat) (m : hello) : handler hello :=
  if hello_request m then answering (WithErr "not handled") (hello_prog a m) else hello_prog a m.

Lemma safe_prog_behaves a m : well_behaved hello_weight hello_request 2 (hello_weight m) (safe_prog a m).
Proof.
  destruct a as [|a], m; cbn; unfold helloActorA, helloActorB; repeat split; try lia;
    intros [r|r]; cbn; repeat split; lia.
Qed.

Lemma safe_prog_polite a m : polite hello_weight hello_request 2 (hello_weight m) (safe_prog a m).
Proof. by eapply well_behaved_polite, safe_prog_behaves. Qed.

(** The first condition alone lets a handler tell itself the same message for
    ever, and ask as often as it likes. *)
Definition chatty : handler hello :=
  HTell helloActorA Hello (HAsk helloActorB HelloAskA2B (λ _, HAsk helloActorB HelloAskA2B (λ _, HReturn))).
Lemma chatty_polite : polite hello_weight hello_request 2 (hello_weight Hello) chatty.
Proof. cbn. unfold helloActorA, helloActorB. repeat split; lia. Qed.
Lemma chatty_over_budget : ¬ well_behaved hello_weight hello_request 2 (hello_weight Hello) chatty.
Proof. cbn. unfold helloActorA, helloActorB. lia. Qed.

Lemma safe_prog_answers a m : hello_request m = true → answers (safe_prog a m).
Proof. intros E. unfold safe_prog. rewrite E. apply answering_answers. Qed.

(** ** The node *)

Definition hello_self (a : nat) : ActorRef :=
  newDirectActorRef "actor" (match a with O => "A" | _ => "B" end) "a:1" 0 a.
Definition hello_goid (a i : nat) : Z := Z.of_nat (a + 2 * i) + 1.
Definition hello_ctx : Ctx hello := NewContext (hello_self 0) None (MUser Hello) 0.
#[export] Instance hello_queue : BoundedQueue (Ring.RingBuffer (Ctx hello)) (Ctx hello) := Ring.ring_queue hello_ctx.
Definition hello_world : Type := world hello (Ring.RingBuffer (Ctx hello)) (list (gmap string nat)) (list (gmap Z nat)).
Definition hello_ring : Ring.RingBuffer (Ctx hello) :=
  match Ring.New hello_ctx 4 8 with Ok rb => rb | Panic => Ring.MkRing [] 0 0 0 0 0 false end.

Lemma hello_local : local_refs 0 "a:1" hello_self.
Proof. intros [|a]; split_and!; vm_compute; reflexivity. Qed.

Definition hello_actor (a : nat) : Scheduler.state hello (Ring.RingBuffer (Ctx hello)) (list (gmap string nat)) :=
  match initial (hello_self a) a hello_ring newRegistry (Z.of_nat a + 1) with
  | Some st => st
  | None => State (Shared hello_ring drainIdle 0 true 0 None actorInitializing false false newRegistry []) []
  end.
Definition hello_start : hello_world := World [hello_actor 0; hello_actor 1] ∅ (ainitial newPending 2).

Definition any_reply (_ : Message hello) : bool := true.
Definition no_error (_ : Message hello) : option string := None.
Definition no_hook (_ : nat) : bool := false.
Definition hello_exec (prog : nat → hello → handler hello) : wlabel hello → hello_world → option hello_world :=
  wexec 0 "a:1" game_cfg game_route yes hello_self no_hook no_hook hello_goid prog hello_weight any_reply no_error.
Definition hello_run (prog : nat → hello → handler hello) : list (wlabel hello) → hello_world → option hello_world :=
  wrun 0 "a:1" game_cfg game_route yes hello_self no_hook no_hook hello_goid prog hello_weight any_reply no_error.
Definition hello_reachable : hello_world → Prop :=
  wreachable 0 "a:1" game_cfg game_route yes hello_self no_hook no_hook hello_goid safe_prog hello_weight any_reply no_error.

(** One way the runtime may run it: always the first goroutine that can move. *)
Definition first_move (prog : nat → hello → handler hello) (w : hello_world) : option (wlabel hello * hello_world) :=
  foldr (λ l r, match hello_exec prog l w with Some w' => Some (l, w') | None => r end) None (candidates w).
Fixpoint eagerly (prog : nat → hello → handler hello) (fuel : nat) (w : hello_world) : list (wlabel hello) :=
  match fuel with
  | O => []
  | S fuel => match first_move prog w with Some (l, w') => l :: eagerly prog fuel w' | None => [] end
  end.

(** A run in which the id counter does not wrap. *)
Fixpoint hello_mono (prog : nat → hello → handler hello) (ls : list (wlabel hello)) (w : hello_world) : option hello_world :=
  match ls with
  | [] => Some w
  | l :: ls => match hello_exec prog l w with
               | Some w' => if decide (askId (wasks w) ≤ askId (wasks w')) then hello_mono prog ls w' else None
               | None => None
               end
  end.

Lemma hello_mono_reachable ls w w' : hello_reachable w → hello_mono safe_prog ls w = Some w' → hello_reachable w'.
Proof.
  revert w. induction ls as [|l ls IH]; intros w Hr E; [by injection E as <-|]. cbn [hello_mono] in E.
  destruct (hello_exec safe_prog l w) as [w1|] eqn:E1; [|done]. case_decide; [|done].
  eapply IH; [|exact E]. by eapply wr_step.
Qed.

Lemma hello_ring_fresh : fresh_mailbox hello_ring.
Proof.
  destruct (Ring.New_spec hello_ctx 4 8) as (rb & E & W & C & L & _ & MX); [lia..|].
  unfold hello_ring. rewrite E. split; [exact W|]. exists 8. split; [lia|].
  simpl. unfold Ring.abs. by rewrite C, L, MX.
Qed.

Lemma hello_start_reachable : hello_reachable hello_start.
Proof.
  apply wr_init. split; [|split_and!; try done; try apply newPending_wf; cbn; lia].
  assert (∀ a, initial (hello_self a) a hello_ring newRegistry (Z.of_nat a + 1) = Some (hello_actor a)) as H.
  { intros a. unfold hello_actor, initial. destruct hello_ring_fresh as (W & n & Hn & A).
    destruct (q_push_law hello_ring (msgInit (hello_self a) (Z.of_nat a + 1)) W) as (q & -> & _).
    unfold spec_push. rewrite A. cbn [qs_closed qs_items qs_max length]. by rewrite decide_True by lia. }
  intros a st Ha. exists hello_ring, newRegistry, (Z.of_nat a + 1).
  split; [apply hello_ring_fresh|]. split; [apply registry_wf|].
  destruct a as [|[|a]]; cbn in Ha; try done; injection Ha as <-; (split; [vm_compute; reflexivity|apply H]).
Qed.

Definition tells : list (wlabel hello) := [WTell helloActorA Hello; WTell helloActorB Hello].
Definition told (prog : nat → hello → handler hello) : option hello_world := hello_mono prog tells hello_start.
Definition at_end (prog : nat → hello → handler hello) : option hello_world :=
  match told prog with Some w => hello_mono prog (eagerly prog 400 w) w | None => None end.

(** What can be read off a state: the Asks under way, the pcs, the last id. *)
Definition summary (w : hello_world) : list (nat * nat) * list (list (pc hello)) * Z :=
  ((map_to_list (wframes w)).*1, (λ st, tpc <$> threads st) <$> wactors w, askId (wasks w)).

(** The example's own handlers: both Asks are answered and everything returns. *)
Example hello_reentry_completes :
  summary <$> at_end hello_prog = Some ([], [replicate 6 PDone; replicate 5 PDone], 6).
Proof. vm_compute. reflexivity. Qed.

(** The two Tells sent: goroutines per actor, the load and the bound of the theorem, the last id. *)
Lemma told_facts : (λ w : hello_world, ((λ st, length (threads st)) <$> wactors w, load hello_weight w, wbound hello_weight w, askId (wasks w)))
  <$> told safe_prog = Some ([2; 2]%nat, 184, 1368776, 4).
Proof. vm_compute. reflexivity. Qed.
Lemma end_facts : (λ w : hello_world, ((λ st, tpc <$> threads st) <$> wactors w))
  <$> at_end safe_prog = Some [replicate 6 PDone; replicate 5 PDone].
Proof. vm_compute. reflexivity. Qed.

Lemma told_reachable w : told safe_prog = Some w → hello_reachable w.
Proof. intros H. exact (hello_mono_reachable tells hello_start w hello_start_reachable H). Qed.

Lemma at_end_reachable w : at_end safe_prog = Some w → hello_reachable w.
Proof.
  unfold at_end. destruct (told safe_prog) as [w0|] eqn:E; [|done].
  by apply hello_mono_reachable, told_reachable.
Qed.

Lemma asks_never_deadlock_witness : ∃ w, at_end safe_prog = Some w ∧ settled w.
Proof.
  pose proof end_facts as F. destruct (at_end safe_prog) as [w|] eqn:E; [|discriminate F]. injection F as F.
  exists w. split; [reflexivity|]. pose proof (at_end_reachable w E) as Hr. clear E.
  assert (∀ a st, wactors w !! a = Some st → tpc <$> threads st = replicate 6 PDone ∨ tpc <$> threads st = replicate 5 PDone) as Hth.
  { intros a st Ha. assert (((λ st, tpc <$> threads st) <$> wactors w) !! a = Some (tpc <$> threads st)) as H
      by (rewrite list_lookup_fmap, Ha; done). rewrite F in H. destruct a as [|[|a]]; cbn in H; try done; injection H; auto. }
  assert (∀ a st, wactors w !! a = Some st → all_returned st) as Hret.
  { intros a st Ha i t Hi. assert (tpc t ∈ tpc <$> threads st) as Hin by (apply list_elem_of_fmap; exists t; split; [done|];
      by eapply list_elem_of_lookup_2).
    destruct (Hth a st Ha) as [H|H]; rewrite H in Hin; by apply elem_of_replicate in Hin as [-> _]. }
  assert (length (wactors w) = 2%nat) as HN by (apply (f_equal length) in F; rewrite length_fmap in F; exact F).
  refine (asks_never_deadlock 0 "a:1" game_cfg game_route yes hello_self no_hook no_hook hello_goid safe_prog hello_weight
    hello_request 2 any_reply no_error hello_local safe_prog_answers _ safe_prog_polite w Hr HN _ _).
  - intros a i. unfold hello_goid. lia.
  - intros a st Ha. destruct (Hth a st Ha) as [H|H]; apply (f_equal length) in H; rewrite length_fmap in H;
      unfold bounded; rewrite H; done.
  - apply returned_stuck. exact Hret.
Defined.

(** From the two Tells on: at most so many steps, whatever the runtime does. *)
Lemma reentry_settles_witness : ∃ w, told safe_prog = Some w ∧
  (∀ ls w', Forall (λ l, internal l = true) ls → hello_run safe_prog ls w = Some w' → Z.of_nat (length ls) ≤ 1368776) ∧
  ∃ ls w', hello_run safe_prog ls w = Some w' ∧ settled w'.
Proof.
  pose proof told_facts as F. destruct (told safe_prog) as [w|] eqn:E; [|discriminate F]. injection F as F1 F4 F2 F3.
  exists w. split; [reflexivity|]. pose proof (told_reachable w E) as Hr. clear E.
  assert (length (wactors w) = 2%nat) as HN by (apply (f_equal length) in F1; rewrite length_fmap in F1; exact F1).
  assert (∀ a i, hello_goid a i ≠ 0) as Hg by (intros a i; unfold hello_goid; lia).
  assert (all_bounded w) as Hb.
  { intros a st Ha. assert (((λ st, length (threads st)) <$> wactors w) !! a = Some (length (threads st))) as H
      by (rewrite list_lookup_fmap, Ha; done). rewrite F1 in H. unfold bounded.
    destruct a as [|[|a]]; cbn in H; try done; injection H as <-; done. }
  assert (load hello_weight w < 2 ^ 31) as Hroom by (rewrite F4; done).
  assert (askId (wasks w) + load hello_weight w < 2 ^ 64) as Hids by (rewrite F4, F3; done).
  pose proof (reentry_settles 0 "a:1" game_cfg game_route yes hello_self no_hook no_hook hello_goid safe_prog hello_weight
    hello_request 2 any_reply no_error hello_local safe_prog_answers Hg safe_prog_behaves w Hr HN Hb Hroom Hids) as H.
  rewrite F2 in H. split.
  - intros ls w' Hls Er. destruct (H ls w' Hls Er) as [Hle _]. exact Hle.
  - destruct (H [] w (Forall_nil_2 _) eq_refl) as (_ & _ & ls2 & w2 & _ & E2 & Hrest). exists ls2, w2. split; [exact E2|exact Hrest].
Defined.
