(* ===== verification/AskFlowThms.v ===== *)
(** * Theorems on an Ask from end to end

    A request nobody can take fails its Ask at once and with the reason; an
    answer comes back to its Ask, also across two nodes. *)

From S2P Require Import Prelude.
From S2P Require Import GoStrings.
From S2P Require Import ActorId.
From S2P Require Import ErrCode.
From S2P Require Import Config.
From S2P Require Import AddrHash.
From S2P Require Import Messages.
From S2P Require Import SafeMap.
From S2P Require Import Registry.
From S2P Require Import Routing.
From S2P Require Import System.
From S2P Require Import SystemThms.
From S2P Require Import SystemDemo.
From S2P Require Import Stream.
From S2P Require Import StreamThms.
From S2P Require Import Ask.
From S2P Require Import AskThms.
From S2P Require Import AskFlow.
Open Scope Z_scope.

(** ** Sends that carry a request or an answer *)

Section sends.
Context `{Env : GoEnv} {U M : Type} {MI : MapImpl M string nat}.
Context (me : nat) (addr : string) (cfg : config Env).
Context (resolve : ActorRef → resolvedRoute) (builds : ActorRef → bool).
Implicit Types (n : node M) (t : ActorRef) (sender : option ActorRef) (msg : Message U).

(** A send that put the message in a mailbox and did nothing else. *)
Lemma tellWithSender_mail t msg sender sn n p c n' :
  tellWithSender me addr cfg resolve builds (Some t) msg sender sn n = ([EMail p c], n') →
  cmessage c = msg ∧ csender c = sender ∧ cmsgSnId c = sn.
Proof.
  unfold tellWithSender, send_body. pose proof (route_send_faithful me addr cfg resolve builds t msg sender sn n) as H.
  destruct (route_send _ _ _ _ _ _ _ _ _ n) as [d n1]. cbn [fst] in H.
  destruct d as [q c1|k m| | |dl [[s e]|]|]; try done.
  - by intros [= -> -> _].
  - intros E. exfalso. revert E.
    destruct (if decide (GetSystem s = me) then _ else _) as [effs n2]. intros [= E _].
    destruct effs as [|a [|b effs]]; done.
Qed.

(** A send to a direct reference of another node goes to the writer of that
    node's stream. *)
Lemma send_elsewhere ns t msg sender sn n : m_wf (nregistry n) →
  route_ok addr me ns t (resolve t) → isDirect t = true → GetDirectAddr t ≠ addr →
  ∃ p n', tellWithSender me addr cfg resolve builds (Some t) msg sender sn n
          = ([EMail p (NewContext t sender msg sn)], n') ∧
    mailed_away me addr resolve t n p (NewContext t sender msg sn) n'.
Proof.
  intros W Hok Hd Ha. assert (raddress (resolve t) = GetDirectAddr t) as Hr.
  { destruct Hok as [-> _]. unfold owner_address. by rewrite Hd. }
  pose proof (sendToRemote_ok me addr cfg resolve builds t msg sender sn n ns W Hok) as H.
  rewrite Hd, Hr in H. specialize (H Ha I).
  unfold tellWithSender, send_body, route_send. rewrite Hd, decide_False by done.
  assert (∃ p n', System.sendToRemote me addr (resolve t) t msg sender sn n
                  = (DMail p (NewContext t sender msg sn), n')) as (p & n' & E).
  { destruct Hok as [_ Hs]. unfold remote_route, owner_address in Hs.
    rewrite Hd, (bool_decide_eq_false_2 (GetDirectAddr t = addr)) in Hs by done. cbn [andb orb negb] in Hs.
    unfold System.sendToRemote. destruct (rstream (resolve t)) as [stream|]; [|done].
    destruct (lookup_proc _ _) as [p|]; [by eexists _, _|].
    unfold getOrSpawn. destruct (lookup_proc _ _) as [p|]; [by eexists _, _|].
    destruct (register _ _ _) as [[p ?] r]. by eexists _, _. }
  rewrite E in *. destruct H as (_ & _ & _ & _ & [(_ & _ & H)|H]).
  - rewrite Hd in H. done.
  - by exists p, n'.
Qed.
End sends.

(** ** Failing *)

Section failing.
Context `{Env : GoEnv} {U M P : Type} {MI : MapImpl M string nat} {PI : MapImpl P Z nat}.
Context {Codec : ProtoCodec U} (marshal_error : Message U → string).
Context (me : nat) (addr : string) (cfg : config Env).
Context (resolve : ActorRef → resolvedRoute) (builds : ActorRef → bool).
Context (is_T : Message U → bool) (as_error : Message U → option string).

(** An Ask that waits for [sn] on [ch], its channel empty. *)
Definition waiting (sn : Z) (ch : nat) (s : astate U P) : Prop :=
  m_wf (table s) ∧ m_abs (table s) !! sn = Some ch ∧ chans s !! ch = Some (sn, None).

Lemma registerAsk_waiting sn (s : astate U P) : m_wf (table s) → closed s = false →
  ∃ s', registerAsk sn s = (Some (length (chans s)), s') ∧ waiting sn (length (chans s)) s' ∧
    m_abs (table s') = <[sn := length (chans s)]> (m_abs (table s)).
Proof.
  intros W Hc. unfold registerAsk. rewrite Hc. destruct (m_set_law (table s) sn (length (chans s)) W) as (H1 & _ & H3).
  eexists. split; [done|]. split; [|done]. unfold waiting. cbn [table chans].
  rewrite H3, lookup_insert_eq, lookup_app_r, Nat.sub_diag by done. done.
Qed.

Lemma waiting_ends sn ch (m : Message U) s : waiting sn ch s →
  ∃ s', ask_end is_T as_error sn ch false (deliver_replies [EReply sn m] s)
          = Some (decodeReply is_T as_error m, s') ∧
        m_wf (table s') ∧ m_abs (table s') = delete sn (m_abs (table s)).
Proof.
  intros (W & Ht & Hc). destruct (deliverReply_ends is_T as_error sn ch m s W Ht Hc) as (W1 & E1 & E2).
  eexists. split; [exact E2|]. destruct (cancelAsk_table sn (deliverReply sn m s) W1) as [W2 E3].
  split; [done|]. by rewrite E3, E1, delete_delete_eq.
Qed.

(** [C16] An Ask nobody can serve fails at once, with the reason, instead of
    waiting for its timeout.  When the send of the request finds no node that
    hosts the kind, or no such actor, the Ask has CodeActorNotFound for it in its
    channel by the time [askImpl] waits, and the request is one dead letter; when
    the target's mailbox refuses the request later, or the stream to its node
    cannot carry it (down, not encodable, or the write fails), the asker's
    reference is told an error naming the reason, and that is what the Ask
    returns.  In every case it is an error whatever type was asked for, and its
    entry leaves the pending table. *)
Theorem ask_failure_reaches_asker (asker : option ActorRef) (target : ActorRef) (req : Message U)
    (x : anode U M P) (Hwf : m_wf (table (an_pend x))) (Hopen : closed (an_pend x) = false) :
  let '(sn, n) := System.nextSnId (an_node x) in
  let r := newReplyRef sn addr me in
  let ch := length (chans (an_pend x)) in
  (∀ dl notify n', route_send me addr cfg resolve builds (Some target) req (Some r) sn n
                   = (DDead dl notify, n') →
     ∃ e y s, (e = errKindNotInCluster ∧ dReason dl = DeadLetterReasonNoOwner ∨
               e = errActorNotFound ∧ dReason dl = DeadLetterReasonNotFound) ∧
       askImpl me addr cfg resolve builds asker (Some target) req x
         = (AskWaiting sn ch [EReply sn (MErrCode e); EDead dl], y) ∧
       ask_end is_T as_error sn ch false (an_pend y) = Some (inr e, s) ∧
       m_abs (table s) = delete sn (m_abs (table (an_pend x)))) ∧
  (∀ c self reason w sent, csender c = Some r →
     remote w = false ∨ Marshal (cmessage c) = None ∨ sent = false →
     ∃ e1 e2 reason', e1 = WithErr ("ask target mailbox unavailable: " +:+ reason) ∧
       e2 = WithErr ("send to remote failed: " +:+ reason') ∧
       RTell r (MErrCode e1) ∈ toDeadLetter self c reason ∧
       WTell r (MErrCode e2) ∈ (Receive marshal_error c sent w).1 ∧
       ∀ e n s ch', e = e1 ∨ e = e2 → waiting sn ch' s →
         ∃ s', ask_end is_T as_error sn ch' false
                 (deliver_replies (Tell (M := M) me addr cfg resolve builds r (MErrCode e) n).1 s)
               = Some (inr e, s') ∧ m_abs (table s') = delete sn (m_abs (table s))).
Proof.
  destruct (System.nextSnId (an_node x)) as [sn n] eqn:En. cbv zeta. split.
  - intros dl notify n' E.
    pose proof (route_send_faithful me addr cfg resolve builds target req (Some (newReplyRef sn addr me)) sn n) as H.
    rewrite E in H. cbn [fst faithful asking newReplyRef isAsk] in H.
    change (ReplyTo (ReplyRef sn addr me)) with (newReplyRef sn addr me) in H.
    destruct (registerAsk_waiting sn (an_pend x) Hwf Hopen) as (s0 & Er & Hw & Et).
    assert (∃ e, (e = errKindNotInCluster ∧ dReason dl = DeadLetterReasonNoOwner ∨
                  e = errActorNotFound ∧ dReason dl = DeadLetterReasonNotFound) ∧
              notify = Some (newReplyRef sn addr me, e)) as (e & He & ->)
      by (destruct H as [[H1 ->]|[H1 ->]]; eexists; (split; [|reflexivity]); auto).
    destruct (waiting_ends sn _ (MErrCode e) s0 Hw) as (s & E1 & _ & E2).
    exists e, (ANode (System.nextSnId n').2 (deliver_replies [EReply sn (MErrCode e)] s0)), s.
    split; [exact He|]. split; [|split].
    + unfold askImpl. rewrite En, Er. unfold tellWithSender, send_body. rewrite E.
      cbn [newReplyRef GetSystem rsystem]. rewrite decide_True by done.
      unfold tell. destruct (System.nextSnId n') as [k n2].
      change (ReplyTo (ReplyRef sn addr me)) with (newReplyRef sn addr me). by rewrite route_reply.
    + exact E1.
    + by rewrite E2, Et, delete_insert_eq.
  - intros c self reason w sent Hs Hfail.
    destruct (receive_given_up marshal_error c sent w Hfail) as (_ & reason' & rest & E & _).
    eexists _, _, reason'. split; [reflexivity|]. split; [reflexivity|]. split; [|split].
    + unfold toDeadLetter. rewrite Hs. cbn. set_solver.
    + rewrite E. unfold given_up. rewrite Hs. cbn. set_solver.
    + intros e n1 s ch' _ Hw. rewrite tell_reply. cbn [fst].
      destruct (waiting_ends sn ch' (MErrCode e) s Hw) as (s' & E1 & _ & E2). by exists s'.
Qed.
End failing.

(** ** Answering *)

Section crossing.
Context `{Env : GoEnv} {U M : Type} {MI : MapImpl M string nat}.
Context {Codec : ProtoCodec U} (marshal_error : Message U → string).
Context (me : nat) (addr : string) (cfg : config Env).
Context (resolve : ActorRef → resolvedRoute) (builds : ActorRef → bool).

(** The codec carries [m], and it is not the framework's Initialize. *)
Definition transmits (m : Message U) : Prop :=
  ∃ content, Marshal m = Some content ∧ FindMessageByName (MessageName m) = true ∧
    Unmarshal (MessageName m) content = Some m ∧ MessageName m ≠ msgNameInitialize (U := U).

(** A context on the wire: one envelope, which the receiving node turns back
    into a send of the same message with the same id. *)
Lemma crosses (c : Ctx U) w : transmits (cmessage c) → remote w = true → GetId (ctarget c) ≠ "" →
  ∃ env, (Receive marshal_error c true w).1 = [Stream.WSend env] ∧
    ∀ q n, ∃ sender,
      RecvEnvelope me addr cfg resolve builds (Some env) q n
        = tellWithSender me addr cfg resolve builds
            (Some (newActorRefFromAID (GetId (ctarget c)) me (S q))) (cmessage c) sender (cmsgSnId c) n ∧
      (∀ s, csender c = Some s → GetId s ≠ "" → sender = Some (newActorRefFromAID (GetId s) me q)).
Proof.
  intros (content & Hm & Hf & Hu & Hi) Hw Ht. exists (envelope_of c content).
  split; [by apply receive_sent|]. intros q n. eexists. split.
  - unfold RecvEnvelope, envelope_of. cbn [MsgName Content Target Sender MsgSnId].
    rewrite decide_False by done. rewrite Hf. cbn [negb]. rewrite Hu, decide_False by done. reflexivity.
  - intros s -> Hs. by rewrite decide_False.
Qed.
End crossing.

Section answering.
Context {EnvA EnvB : GoEnv} {U MA MB P : Type}.
Context {IA : MapImpl MA string nat} {IB : MapImpl MB string nat} {PI : MapImpl P Z nat}.
Context {Codec : ProtoCodec U} (marshal_error : Message U → string).
(** The asking node and the answering one. *)
Context (meA : nat) (addrA : string) (cfgA : config EnvA).
Context (resolveA : ActorRef → resolvedRoute) (buildsA : ActorRef → bool).
Context (meB : nat) (addrB : string) (cfgB : config EnvB).
Context (resolveB : ActorRef → resolvedRoute) (buildsB : ActorRef → bool).
Context (is_T : Message U → bool) (as_error : Message U → option string).
Abbreviation receive := (Receive marshal_error).
Abbreviation recvA := (RecvEnvelope (M := MA) meA addrA cfgA resolveA buildsA).
Abbreviation recvB := (RecvEnvelope (M := MB) meB addrB cfgB resolveB buildsB).

(** [C12] An answer finds its Ask across the cluster.  A request that goes out with
    the Ask's reply reference as its sender reaches the other node as one
    envelope; the context whose mailbox it ends in carries the same message and
    id; when that handler Replies, the reply is put in one mailbox, that of the
    outbound stream writer that the answering node has registered for the asking
    node's address (and built for that address), from an open stream it comes
    back as one envelope, and there fills the channel of exactly that Ask, which
    returns it (decoded as its type asks).  On the asking node itself, Reply does
    so directly.  Nothing else is sent or changed.  (Addresses hold no '/' or
    '@', and the codec carries both messages.) *)
Theorem ask_answered_across_nodes (target : ActorRef) (req : Message U) (sn : Z) (wA : streamWriteActor)
    (Hsn : in_u64 sn) (HA : valid_name addrA) (HB : valid_name addrB) (Hne : addrA ≠ addrB)
    (HresB : ∀ t, ∃ ns, route_ok addrB meB ns t (resolveB t))
    (Hreq : transmits req) (Ht : GetId target ≠ "") (HwA : remote wA = true) :
  let r := newReplyRef sn addrA meA in
  (∀ t m (n : node MA), Reply meA addrA cfgA resolveA buildsA (NewContext t (Some r) req sn) m n
                        = ([EReply sn m], n)) ∧
  (∃ env, (receive (NewContext target (Some r) req sn) true wA).1 = [Stream.WSend env] ∧
    ∀ q nB p cB nB1, recvB (Some env) q nB = ([EMail p cB], nB1) →
      cmessage cB = req ∧ cmsgSnId cB = sn ∧
      ∀ m nB2, m_wf (nregistry nB2) → transmits m →
        ∃ pw c' nB3, Reply meB addrB cfgB resolveB buildsB cB m nB2 = ([EMail pw c'], nB3) ∧
          reg nB3 !! ("direct/write_stream/" +:+ addrA +:+ "@" +:+ addrB) = Some pw ∧
          (writers_ok meB addrB nB2 → ∃ router, nwriters nB3 !! pw = Some (router, addrA)) ∧
          ∀ wB, remote wB = true → ∃ env', (receive c' true wB).1 = [Stream.WSend env'] ∧
            ∀ q' nA, recvA (Some env') q' nA = ([EReply sn m], nA)) ∧
  (∀ m ch (s : astate U P), waiting sn ch s →
    ∃ s', ask_end is_T as_error sn ch false (deliver_replies [EReply sn m] s)
          = Some (decodeReply is_T as_error m, s') ∧ m_abs (table s') = delete sn (m_abs (table s))).
Proof.
  cbv zeta. split; [intros t m n; apply reply_here|]. split.
  2:{ intros m ch s Hw. destruct (waiting_ends is_T as_error sn ch m s Hw) as (s' & E1 & _ & E2). by exists s'. }
  destruct (crosses (M := MB) marshal_error meB addrB cfgB resolveB buildsB
    (NewContext target (Some (newReplyRef sn addrA meA)) req sn) wA Hreq HwA Ht) as (env & E & Hrecv).
  exists env. split; [exact E|]. intros q nB p cB nB1 EB.
  destruct (Hrecv q nB) as (sender & ER & HS). rewrite ER in EB. cbn [ctarget cmessage cmsgSnId csender] in *.
  rewrite (HS _ eq_refl) in EB by done.
  apply tellWithSender_mail in EB as (H1 & H2 & H3). split; [done|]. split; [done|].
  intros m nB2 W2 Hm. pose proof HA as (_ & Ha1 & Ha2).
  set (rB := newActorRefFromAID (GetId (newReplyRef sn addrA meA)) meB q) in *.
  destruct (reply_ref_roundtrip sn addrA meB q Hsn Ha1 Ha2) as (Hd & _ & _ & _ & _ & _ & Hx).
  change (isDirect rB = true) in Hd. change (GetDirectAddr rB = addrA) in Hx.
  destruct (HresB rB) as [ns Hok].
  destruct (send_elsewhere meB addrB cfgB resolveB buildsB ns rB m (Some (ctarget cB)) sn nB2 W2 Hok)
    as (pw & nB3 & ES & Hmail); [exact Hd|congruence|].
  assert (raddress (resolveB rB) = addrA) as Hr.
  { destruct Hok as [-> _]. unfold owner_address. by rewrite Hd. }
  destruct Hmail as (_ & _ & _ & Hw). rewrite Hr in Hw. destruct (Hw HA HB) as [Hw1 Hw2].
  exists pw, (NewContext rB (Some (ctarget cB)) m sn), nB3. split; [|split; [exact Hw1|split; [exact Hw2|]]].
  - unfold Reply. rewrite H2. cbn [newActorRefFromAID]. by rewrite H3.
  - intros wB HwB. destruct (crosses (M := MA) marshal_error meA addrA cfgA resolveA buildsA
      (NewContext rB (Some (ctarget cB)) m sn) wB Hm HwB) as (env' & E' & Hrecv'); [done|].
    exists env'. split; [exact E'|].
    intros q' nA. destruct (Hrecv' q' nA) as (sender' & -> & _). cbn [ctarget cmessage cmsgSnId].
    by apply send_parsed_reply.
Qed.
End answering.

(** ** Concrete Asks

    Node a:1 asks a missing local actor, and a lobby that node b:1 hosts. *)

Definition a_node : anode nat (list (gmap string nat)) (list (gmap Z nat)) :=
  ANode (fresh_node false) (ainitial newPending 7).

Lemma ask_failure_reaches_asker_witness :
  ∃ y s, askImpl 0 "a:1" game_cfg game_route yes None (Some gone) hello a_node
    = (AskWaiting 101 0 [EReply 101 (MErrCode errActorNotFound);
         EDead (MkDeadLetter gone None (Some (newReplyRef 101 "a:1" 0)) hello 101 DeadLetterReasonNotFound)], y) ∧
    ask_end (λ _, true) (λ _, None) 101 0 false (an_pend y) = Some (inr errActorNotFound, s).
Proof.
  destruct (ask_failure_reaches_asker (λ _, "") 0 "a:1" game_cfg game_route yes (λ _, true) (λ _, None)
    None gone hello a_node (proj1 newPending_wf) eq_refl) as [H _].
  assert (route_send 0 "a:1" game_cfg game_route yes (Some gone) hello (Some (newReplyRef 101 "a:1" 0)) 101
            (System.nextSnId (fresh_node false)).2
    = (DDead (MkDeadLetter gone None (Some (newReplyRef 101 "a:1" 0)) hello 101 DeadLetterReasonNotFound)
         (Some (newReplyRef 101 "a:1" 0, errActorNotFound)), (System.nextSnId (fresh_node false)).2)) as E
    by (vm_compute; reflexivity).
  destruct (H _ _ _ E) as (e & y & s & Hc & E1 & E2 & _). clear H.
  destruct Hc as [[_ He]|[He _]]; [discriminate He|]. rewrite He in E1, E2.
  exists y, s. split; [exact E1|exact E2].
Defined.

Definition lobby_cfg : config unit_env :=
  MkConfig 1 "c" "v" [] 0 10 1 1 ":0" [] [] {["lobby" := MkKind (Env := unit_env) 0%nat []]}
    (NodeState 2 "b:1" "v" "" ["lobby"]) None None.
Definition lobby : ActorRef := newClusterActorRef "lobby" "1" 0 1.
Definition lobby_route : ActorRef → resolvedRoute := uncached "b:1" 0 game_members.
Lemma lobby_route_ok t : ∃ ns, route_ok "b:1" 0 ns t (lobby_route t).
Proof. exists game_members. apply uncached_ok. Qed.

Lemma user_transmits : transmits (MUser (U := nat) 0%nat).
Proof. exists EmptyString. split_and!; (reflexivity || discriminate). Qed.

(** The request on the wire, and its arrival at b:1. *)
Definition lobby_env : Envelope := MkEnvelope "direct/reply/101@a:1" "cluster/lobby/1" 101 "game.Hello" "".
Definition lobby_arrival : list (effect nat) * node (list (gmap string nat)) :=
  RecvEnvelope 0 "b:1" lobby_cfg lobby_route yes (Some lobby_env) 3 (fresh_node false).
Definition lobby_ctx : Ctx nat :=
  NewContext (newActorRefFromAID "cluster/lobby/1" 0 4) (Some (newActorRefFromAID "direct/reply/101@a:1" 0 3))
    (MUser 0%nat) 101.

Lemma lobby_arrival_wf : m_wf (nregistry lobby_arrival.2).
Proof.
  pose proof (route_send_ok 0 "b:1" lobby_cfg lobby_route yes (newActorRefFromAID "cluster/lobby/1" 0 4) (MUser 0%nat)
    (Some (newActorRefFromAID "direct/reply/101@a:1" 0 3)) 101 (fresh_node false) (fresh_wf false) lobby_route_ok) as H.
  assert (lobby_arrival.2 = (route_send 0 "b:1" lobby_cfg lobby_route yes (Some (newActorRefFromAID "cluster/lobby/1" 0 4))
    (MUser 0%nat) (Some (newActorRefFromAID "direct/reply/101@a:1" 0 3)) 101 (fresh_node false)).2) as ->
    by (vm_compute; reflexivity).
  destruct (route_send _ _ _ _ _ _ _ _ _ _) as [d n1]. apply H.
Qed.

Lemma ask_answered_across_nodes_witness :
  lobby_arrival = ([EMail 0 lobby_ctx], lobby_arrival.2) ∧
  ∃ pw c' nB3 env',
    Reply 0 "b:1" lobby_cfg lobby_route yes lobby_ctx (MUser 0%nat) lobby_arrival.2 = ([EMail pw c'], nB3) ∧
    reg nB3 !! "direct/write_stream/a:1@b:1" = Some pw ∧
    (Receive (λ _, "") c' true demo_writer).1 = [Stream.WSend env'] ∧
    RecvEnvelope 0 "a:1" game_cfg game_route yes (Some env') 5 (fresh_node true)
      = ([EReply 101 (MUser 0%nat)], fresh_node true).
Proof.
  destruct (ask_answered_across_nodes (λ _, "") 0 "a:1" game_cfg game_route yes 0 "b:1" lobby_cfg lobby_route yes
    (PI := pending_map) (λ _, true) (λ _, None) lobby (MUser 0%nat) 101 demo_writer
    ltac:(unfold in_u64; lia) ltac:(split_and!; [discriminate|reflexivity..])
    ltac:(split_and!; [discriminate|reflexivity..]) ltac:(discriminate) lobby_route_ok user_transmits
    ltac:(discriminate) eq_refl) as (_ & (env & E & H) & _).
  assert (env = lobby_env) as -> by (vm_compute in E; injection E as <-; reflexivity).
  assert (lobby_arrival.1 = [EMail 0 lobby_ctx]) as E1 by (vm_compute; reflexivity).
  assert (lobby_arrival = ([EMail 0 lobby_ctx], lobby_arrival.2)) as E2
    by (rewrite <-E1; apply surjective_pairing).
  split; [exact E2|].
  destruct (H 3%nat (fresh_node false) _ _ _ E2) as (_ & _ & H').
  destruct (H' (MUser 0%nat) lobby_arrival.2 lobby_arrival_wf user_transmits)
    as (pw & c' & nB3 & E3 & E4 & _ & H'').
  destruct (H'' demo_writer eq_refl) as (env' & E5 & E6).
  exists pw, c', nB3, env'. split; [exact E3|]. split; [exact E4|]. split; [exact E5|]. apply E6.
Defined.
