(* ===== verification/BaseActor.v ===== *)
(** * baseactor.go, system_schedule.go: what a user's actor calls

    The embedded [BaseActor] before and after [_init], its [Ask] (the checks of
    Scheduler.v, then the [askImpl] of AskFlow.v) and the schedules an actor makes
    for itself, each a timer of Schedule.v whose [fn] is one [tell].  Loggers are
    a parameter [L] with slog's [With]. *)

From S2P Require Import Prelude.
From S2P Require Import GoStrings.
From S2P Require Import ActorId.
From S2P Require Import ErrCode.
From S2P Require Import Config.
From S2P Require Import Messages.
From S2P Require Import Queue.
From S2P Require Import SafeMap.
From S2P Require Import Registry.
From S2P Require Import Scheduler.
From S2P Require Import Schedule.
From S2P Require Import Routing.
From S2P Require Import System.
From S2P Require Import Ask.
From S2P Require Import AskFlow.
Open Scope Z_scope.

(** ** The embedded struct *)

Section base.
Context {L : Type} (With : L → ActorRef → L) (systemLogger : L).

(** [gate] identifies the processor's execution gate. *)
Record BaseActor : Type := MkBaseActor {
  self : option ActorRef;
  system : option nat;
  logger : option L;
  executionGate : option nat
}.

(** The zero value a user's constructor leaves. *)
Definition zeroBase : BaseActor := MkBaseActor None None None None.

Definition _init (ref : ActorRef) (x : BaseActor) : BaseActor :=
  MkBaseActor (Some ref) (Some (ActorId.GetSystem ref)) (logger x) (executionGate x).

Definition _bindExecutionGate (gate : nat) (x : BaseActor) : BaseActor :=
  MkBaseActor (self x) (system x) (logger x) (Some gate).

Definition mustInited (x : BaseActor) : outcome unit :=
  match self x with None => Panic | Some _ => Ok tt end.

(** A nil result stands for the nil the field holds; after [mustInited] there is none. *)
Definition Self (x : BaseActor) : outcome ActorRef :=
  _ ← mustInited x; match self x with Some r => Ok r | None => Panic end.

Definition GetSystem (x : BaseActor) : outcome nat :=
  _ ← mustInited x; match system x with Some s => Ok s | None => Panic end.

(** The logger is built by the first call and kept. *)
Definition Logger (x : BaseActor) : outcome (L * BaseActor) :=
  _ ← mustInited x;
  match logger x, self x with
  | Some l, _ => Ok (l, x)
  | None, Some r =>
      let l := With systemLogger r in
      Ok (l, MkBaseActor (self x) (system x) (Some l) (executionGate x))
  | None, None => Panic
  end.

(** Nothing works before [_init]; afterwards everything is about the one
    reference, and the logger is built once. *)
Lemma base_before_init (x : BaseActor) : self x = None →
  Self x = Panic ∧ GetSystem x = Panic ∧ Logger x = Panic.
Proof. intros E. unfold Self, GetSystem, Logger, mustInited. by rewrite E. Qed.

Lemma base_after_init (ref : ActorRef) (gate : nat) :
  let x := _init ref (_bindExecutionGate gate zeroBase) in
  Self x = Ok ref ∧ GetSystem x = Ok (ActorId.GetSystem ref) ∧ executionGate x = Some gate ∧
  ∃ y, Logger x = Ok (With systemLogger ref, y) ∧ Logger y = Ok (With systemLogger ref, y) ∧
       Self y = Ok ref.
Proof. cbn. split_and!; try done. by eexists. Qed.
End base.
Arguments BaseActor L : clear implicits.

(** ** Ask from a handler *)

Section ask.
Context {L U Q R M P : Type} `{Env : GoEnv} {MI : MapImpl M string nat} {PI : MapImpl P Z nat}.
Context (kind_of : nat → callKind).
Context (me : nat) (addr : string) (cfg : config Env).
Context (resolve : ActorRef → resolvedRoute) (builds : ActorRef → bool).

(** [BaseActor.Ask] called on goroutine [g], the actor's processor in state [s]. *)
Definition Ask_ (base : BaseActor L) (s : shared U Q R) (g : Z)
    (target : option ActorRef) (msg : Message U) (x : anode U M P) : outcome (ask_start U * anode U M P) :=
  self ← Self base;
  match Ask_check kind_of s g with
  | inl e => Ok (AskFailed e, x)
  | inr call => Ok (askImpl me addr cfg resolve builds (Some self) target msg x)
  end.

(** A refused Ask is an error at once: nothing is sent, registered or numbered. *)
Lemma Ask_refused base s g target msg x e ref : self base = Some ref →
  Ask_check kind_of s g = inl e → Ask_ base s g target msg x = Ok (AskFailed e, x).
Proof. intros Hs He. unfold Ask_, Self, mustInited. rewrite Hs. cbn. by rewrite He. Qed.

(** An admitted one carries a fresh id and a reply reference to this node, or
    finds the node stopping; either way the id is used up. *)
Lemma Ask_admitted base s g target msg x call ref : self base = Some ref →
  Ask_check kind_of s g = inr call →
  ∃ res y, Ask_ base s g (Some target) msg x = Ok (res, y) ∧
    if closed (an_pend x) then res = AskFailed errSystemStopping ∧ an_node y = (System.nextSnId (an_node x)).2
    else ∃ effs, res = AskWaiting (System.nextSnId (an_node x)).1 (length (chans (an_pend x))) effs ∧
      effs = (tellWithSender me addr cfg resolve builds (Some target) msg
        (Some (newReplyRef (System.nextSnId (an_node x)).1 addr me)) (System.nextSnId (an_node x)).1
        (System.nextSnId (an_node x)).2).1.
Proof.
  intros Hs He. unfold Ask_, Self, mustInited. rewrite Hs. cbn. rewrite He. unfold askImpl, registerAsk.
  destruct (System.nextSnId (an_node x)) as [sn n]. cbn [fst snd]. destruct (closed (an_pend x)).
  - eexists _, _. split; [reflexivity|]. done.
  - destruct (tellWithSender _ _ _ _ _ _ _ _ _ _) as [effs n']. eexists _, _. split; [reflexivity|]. by exists effs.
Qed.
End ask.

(** ** Schedules *)

Section schedule.
Context {U : Type}.

(** A timer and what its [fn] tells: [sendOnce], or [sendRepeatedly]. *)
Record schedule : Type := MkSchedule {
  sonce : bool;
  starget : ActorRef;
  sdelay : Z;
  sinterval : Z;
  smessage : Message U
}.

Definition sendOnce (target : ActorRef) (delay : Z) (message : Message U) : schedule :=
  MkSchedule true target delay 0 message.
Definition sendRepeatedly (target : ActorRef) (initial interval : Z) (message : Message U) : schedule :=
  MkSchedule false target initial interval message.

Definition ScheduleOnce (target : ActorRef) (delay : Z) (msg : Message U) : schedule :=
  sendOnce target delay msg.
Definition ScheduleRepeated (target : ActorRef) (delay interval : Z) (msg : Message U) : schedule :=
  sendRepeatedly target delay interval msg.

Definition ScheduleSelfOnce {L} (delay : Z) (msg : Message U) (x : BaseActor L) : outcome schedule :=
  _ ← GetSystem x; self ← Self x; Ok (ScheduleOnce self delay msg).
Definition ScheduleSelfRepeated {L} (delay interval : Z) (msg : Message U) (x : BaseActor L) : outcome schedule :=
  _ ← GetSystem x; self ← Self x; Ok (ScheduleRepeated self delay interval msg).

(** The timer with the sends its [fn] has begun. *)
Definition started (c : schedule) (t0 : Z) : timer * list (ActorRef * Message U) :=
  (startTimer (sdelay c) t0, []).

Definition schedule_exec (c : schedule) (l : timer_label) (x : timer * list (ActorRef * Message U))
    : option (timer * list (ActorRef * Message U)) :=
  match timer_exec (sonce c) (sinterval c) l x.1 with
  | Some tm => Some (tm, if decide (begins (history x.1) < begins (history tm))%nat
                         then x.2 ++ [(starget c, smessage c)] else x.2)
  | None => None
  end.

Inductive schedule_reachable (c : schedule) (t0 : Z) : timer * list (ActorRef * Message U) → Prop :=
| sched_init : schedule_reachable c t0 (started c t0)
| sched_step x l x' : schedule_reachable c t0 x → schedule_exec c l x = Some x' → schedule_reachable c t0 x'.

Lemma begins_app h1 h2 : begins (h1 ++ h2) = (begins h1 + begins h2)%nat.
Proof. unfold begins. by rewrite filter_app, length_app. Qed.

(** A step begins at most one [fn]. *)
Lemma timer_exec_begins once interval l x x' : timer_exec once interval l x = Some x' →
  begins (history x') = begins (history x) ∨ begins (history x') = S (begins (history x)).
Proof.
  destruct x as [st ar now cs ks h ac]. intros E.
  assert (∃ h', history x' = h ++ h' ∧ (begins h' ≤ 1)%nat) as (h' & -> & Hh).
  { assert (history x' = h → ∃ h', history x' = h ++ h' ∧ (begins h' ≤ 1)%nat) as Hsame.
    { intros ->. exists []. rewrite app_nil_r. split; [done|]. unfold begins. rewrite filter_nil. cbn [length]. lia. }
    assert (∀ b t, history x' = h ++ [(b, t)] → ∃ h', history x' = h ++ h' ∧ (begins h' ≤ 1)%nat) as Hone.
    { intros b t ->. exists [(b, t)]. split; [done|]. unfold begins. rewrite filter_cons, filter_nil. case_decide; cbn [length]; lia. }
    destruct l as [d| | |i| |i]; cbn [timer_exec] in E.
    - case_decide; [|done]. injection E as <-. by apply Hsame.
    - case_decide; [|done]. injection E as <-. by apply Hsame.
    - destruct ar; [|done]. case_decide; [|done]. injection E as <-. by apply Hsame.
    - unfold cb_step in E. destruct (cs !! i) as [[]|]; try done;
        try (case_decide; [done|]); injection E as <-; first [by apply Hsame|by eapply Hone].
    - destruct once; [|case_decide; [done|]]; injection E as <-; by apply Hsame.
    - unfold cancel_step in E. destruct (ks !! i) as [[]|]; try done; try case_decide;
        injection E as <-; by apply Hsame. }
  cbn [history]. rewrite begins_app. lia.
Qed.

(** Every tick is one send of the caller's own message to the one target. *)
Lemma schedule_sends c t0 x : schedule_reachable c t0 x →
  timer_reachable (sonce c) (sdelay c) (sinterval c) t0 x.1 ∧
  x.2 = replicate (begins (history x.1)) (starget c, smessage c).
Proof.
  induction 1 as [|x l x' _ [IH1 IH2] E]; [split; [constructor|done]|].
  unfold schedule_exec in E. destruct (timer_exec _ _ l x.1) as [tm|] eqn:Et; [|done].
  injection E as <-. cbn [fst snd]. split; [by econstructor|].
  destruct (timer_exec_begins _ _ _ _ _ Et) as [-> | ->]; case_decide; try lia; [done|].
  rewrite IH2. symmetry. apply replicate_S_end.
Qed.
End schedule.
Arguments schedule U : clear implicits.
