(* ===== verification/Boot.v ===== *)
(** * system.go, system_life.go: bringing a node up

    [NewSystem], [Start] and [init]: the configuration is frozen, the node gets
    its id, its id generator, its range of message ids and its event stream
    actor.  [Start] is what is left of it once the listener and the provider
    (Provider.v) have answered. *)

From S2P Require Import Prelude.
From S2P Require Import GoStrings.
From S2P Require Import ActorId.
From S2P Require Import Uuid.
From S2P Require Import Config.
From S2P Require Import SafeMap.
From S2P Require Import Registry.
From S2P Require Import Stream.
From S2P Require Import System.
Open Scope Z_scope.

Section boot.
Context `{Env : GoEnv} {M : Type} {MI : MapImpl M string nat}.

(** A system: its configuration, its node, its address ("" until Start), the
    process's id generator and the event stream's reference. *)
Record sys : Type := Sys {
  sconfig : config Env;
  snode : System.node M;
  saddr : string;
  suuid : option UUID;
  seventStream : option ActorRef
}.

Definition NewSystem (r : M) (clusterName version : string) (clusterUrls : list string)
    (opts : list ConfigOptFunc) : outcome sys :=
  cfg ← newConfig clusterName version clusterUrls opts;
  Ok (Sys cfg (Node r [] false 0 ∅) "" None None).

(** [init]: [now] is the wall clock in milliseconds, [p] the producer of the
    event stream, [q] the address of the reference allocated for it. *)
Definition init_system (nodeId now : Z) (p : Producer) (q me : nat) (x : sys) : outcome sys :=
  cfg ← markRunning (sconfig x);
  match Uuid.Init nodeId now (suuid x) with
  | (false, _) => Panic
  | (true, g) =>
      start ← GetAskStartId g;
      let n := Node (nregistry (snode x)) (nprocs (snode x)) (ndraining (snode x)) start (nwriters (snode x)) in
      match SpawnNamed me (saddr x) p eventStreamWatchName
              [WithOptsKindName defaultSystemKind; WithOptsPoisonFirstOnQuit false] true q n with
      | (inr _, _) => Panic
      | (inl ref, n) => Ok (Sys cfg n (saddr x) g (Some ref))
      end
  end.

(** [Start]: [bound] and [inner] as in Stream.v; [join addr] is the node id the
    provider registers [addr] under, or its failure. *)
Definition Start (inner bound : option string) (join : string → option Z)
    (now : Z) (p : Producer) (q me : nat) (x : sys) : outcome sys :=
  match start_addr (listen_addr (grpcListenAddr (sconfig x))) inner bound with
  | None => Panic
  | Some addr =>
      match join addr with
      | None => Panic
      | Some nodeId =>
          init_system nodeId now p q me
            (Sys (sconfig x) (snode x) addr (suuid x) (seventStream x))
      end
  end.

(** The id of the [k]-th message sent. *)
Fixpoint sends (k : nat) (n : System.node M) : System.node M :=
  match k with O => n | S k => (nextSnId (sends k n)).2 end.

Definition event_stream_id (addr : string) : string :=
  "direct/system/event_stream@" +:+ addr.

Lemma event_stream_self (p : Producer) (addr : string) (me q : nat) :
  _self (newOpts p ([WithOptsKindName defaultSystemKind; WithOptsPoisonFirstOnQuit false] ++
                    [withOptsDirectSelf eventStreamWatchName addr me q]))
  = Some (newDirectActorRef defaultSystemKind eventStreamWatchName addr me q).
Proof. done. Qed.

(** [GetAskStartId] shifts the node id to the top ten bits. *)
Lemma ask_start (nodeId now : Z) : 0 ≤ nodeId ≤ 1023 →
  ∃ u, Uuid.NewUUID nodeId now = Some u ∧ Uuid.node u = nodeId ∧
       GetAskStartId (Some u) = Ok (nodeId * 2 ^ 54).
Proof.
  intros Hn. unfold Uuid.NewUUID. change nodeMax with 1023. rewrite decide_False by lia.
  eexists. split; [done|]. split; [done|]. unfold GetAskStartId. cbn [Uuid.node].
  change (totalBits - nodeBits) with 54. f_equal. rewrite Z.shiftl_mul_pow2 by lia.
  apply u64_id. unfold in_u64. lia.
Qed.

(** What [init] leaves behind.  It panics exactly when the configuration is
    already running, when the node id does not fit ten bits, or when something
    already holds the event stream's name on this node.  Otherwise the
    configuration is frozen with nothing else in it changed, message ids start
    at nodeId * 2^54, the id generator is this node's, and the event stream's
    actor is in the registry under direct/system/event_stream@addr, every other
    entry as before. *)
Theorem init_outcome (nodeId now : Z) (p : Producer) (q me : nat) (x : sys)
    (Hid : 0 ≤ nodeId) (Hwf : m_wf (nregistry (snode x))) :
  match init_system nodeId now p q me x with
  | Panic => running (sconfig x) ≠ 0 ∨ 1023 < nodeId ∨
             is_Some (lookup_proc (nregistry (snode x)) (event_stream_id (saddr x)))
  | Ok y =>
      running (sconfig x) = 0 ∧ nodeId ≤ 1023 ∧ running (sconfig y) = 1 ∧
      kinds (sconfig y) = kinds (sconfig x) ∧ state (sconfig y) = state (sconfig x) ∧
      naskId (snode y) = nodeId * 2 ^ 54 ∧
      (∃ u, suuid y = Some u ∧ Uuid.node u = nodeId) ∧
      (∃ ref, seventStream y = Some ref ∧ GetId ref = event_stream_id (saddr x)) ∧
      m_wf (nregistry (snode y)) ∧
      m_abs (nregistry (snode y)) =
        <[event_stream_id (saddr x) := length (nprocs (snode x))]> (m_abs (nregistry (snode x)))
  end.
Proof.
  unfold init_system, markRunning. case_decide as Hrun; cbn [mbind outcome_bind]; [|by left].
  destruct (decide (nodeId ≤ 1023)) as [Hle|Hgt].
  2:{ unfold Uuid.Init, Uuid.NewUUID. change nodeMax with 1023. rewrite decide_True by lia.
      right. left. lia. }
  destruct (ask_start nodeId now) as (u & Hu & Hnode & Hstart); [lia|].
  unfold Uuid.Init. rewrite Hu, Hstart. cbn [mbind outcome_bind].
  unfold SpawnNamed. rewrite event_stream_self.
  change (ValidateActorName eventStreamWatchName) with (@None name_error). cbn [nregistry].
  change (GetId (newDirectActorRef defaultSystemKind eventStreamWatchName (saddr x) me q))
    with (event_stream_id (saddr x)).
  destruct (lookup_proc (nregistry (snode x)) (event_stream_id (saddr x))) as [p0|] eqn:E;
    [by right; right|].
  unfold getOrSpawn. cbn [nregistry nprocs].
  change (GetId (newDirectActorRef defaultSystemKind eventStreamWatchName (saddr x) me q))
    with (event_stream_id (saddr x)).
  rewrite E.
  destruct (register_abs (nregistry (snode x)) (event_stream_id (saddr x))
    (length (nprocs (snode x))) Hwf) as (H1 & H2 & H3).
  rewrite lookup_proc_abs in E by done. rewrite E in H2, H3.
  destruct (register _ _ _) as [[actual ins] r]. cbn [fst snd] in *. injection H2 as -> ->.
  cbn. split_and!; try done; [by exists u|by eexists].
Qed.

Lemma sends_id (n : System.node M) (i : Z) (k : nat) :
  naskId n = i * 2 ^ 54 → 0 ≤ i ≤ 1023 → Z.of_nat k < 2 ^ 54 →
  naskId (sends k n) = i * 2 ^ 54 + Z.of_nat k.
Proof.
  intros Hn Hi. induction k as [|k IH]; intros Hk; [cbn; lia|].
  cbn [sends]. unfold nextSnId. cbn [snd naskId]. rewrite IH by lia.
  rewrite u64_id; [lia|]. unfold in_u64. pow_simpl. lia.
Qed.

(** Message ids are node-local.  The node id takes the top ten bits of the
    64: the k-th id a node hands out is nodeId * 2^54 + k, without wrapping, for
    every k below 2^54; so two nodes with different ids never correlate two
    different asks by the same id until one of them has sent 2^54 messages. *)
Theorem ask_ids_disjoint (n m : System.node M) (i j k l : Z)
    (Hn : naskId n = i * 2 ^ 54) (Hm : naskId m = j * 2 ^ 54)
    (Hi : 0 ≤ i ≤ 1023) (Hj : 0 ≤ j ≤ 1023) (Hij : i ≠ j)
    (Hk : 0 ≤ k < 2 ^ 54) (Hl : 0 ≤ l < 2 ^ 54) :
  naskId (sends (Z.to_nat k) n) = i * 2 ^ 54 + k ∧
  naskId (sends (Z.to_nat l) m) = j * 2 ^ 54 + l ∧
  naskId (sends (Z.to_nat k) n) ≠ naskId (sends (Z.to_nat l) m).
Proof.
  rewrite !(sends_id n i), !(sends_id m j) by (done || lia). rewrite !Z2Nat.id by lia.
  split_and!; try done. lia.
Qed.
End boot.

Definition demo_sys : sys (M := list (gmap string nat)) :=
  Sys (Env := unit_env) (defaultConfig "game" "v" []) (Node newRegistry [] false 0 ∅) "10.0.0.7:4000" None None.

Lemma init_outcome_witness :
  match init_system (Env := unit_env) 3 1750000000000 0%nat 0 0 demo_sys with
  | Panic => False
  | Ok y => naskId (snode y) = 3 * 2 ^ 54
  end.
Proof.
  pose proof (init_outcome (Env := unit_env) 3 1750000000000 0%nat 0 0 demo_sys ltac:(lia) registry_wf) as H.
  destruct (init_system 3 1750000000000 _ 0 0 demo_sys) as [y|].
  - apply H.
  - destruct H as [H|[H|H]].
    + by apply H.
    + lia.
    + vm_compute in H. by destruct H.
Defined.

Lemma ask_ids_disjoint_witness :
  naskId (sends (M := nat) (Z.to_nat 5) (Node 0%nat [] false (1 * 2 ^ 54) ∅)) ≠
  naskId (sends (M := nat) (Z.to_nat 7) (Node 0%nat [] false (2 * 2 ^ 54) ∅)).
Proof.
  apply (ask_ids_disjoint (M := nat) (Node 0%nat [] false (1 * 2 ^ 54) ∅) (Node 0%nat [] false (2 * 2 ^ 54) ∅) 1 2 5 7);
    (reflexivity || lia).
Defined.
