(* ===== verification/Stack.v ===== *)
(** * ghelper/stack.go: rendering a stack for a log line

    The frames are what the runtime reports: file, line, function. *)

From S2P Require Import Prelude.
From S2P Require Import GoStrings.
From S2P Require Import ActorId.
From S2P Require Import Stream.
From S2P Require Import StreamThms.
Open Scope Z_scope.

Definition maxStackFrames : Z := 32.

Definition trimFilePath (file : string) : string :=
  if decide (file = "") then "?" else
  let last := LastIndexByte file "/" in
  if decide (last ≤ 0) then file else
  let prev := LastIndexByte (slice_str file 0 last) "/" in
  if decide (prev < 0) then file else slice_from file (prev + 1).

Definition frame : Type := string * Z * string.

Fixpoint render_frames (i : Z) (fs : list frame) : string :=
  match fs with
  | [] => ""
  | (file, line, func) :: fs =>
      "
frame " +:+ Itoa i +:+ ":[file:" +:+ trimFilePath file +:+ ",line:" +:+ Itoa line +:+
      ",func:" +:+ func +:+ "]" +:+ render_frames (i + 1) fs
  end.

(** [n] is how many pcs [runtime.Callers] filled. *)
Definition StackTrace (n : Z) (fs : list frame) : string :=
  if decide (n = 0) then ""
  else render_frames 0 fs +:+ (if decide (n = maxStackFrames) then "
...(truncated)" else "").

(** A path of at least two separators is cut to its last two segments; any other
    is kept. *)
Lemma trimFilePath_spec a d f :
  no_byte "/" d → no_byte "/" f →
  trimFilePath (a +:+ String "/" (d +:+ String "/" f)) = d +:+ String "/" f.
Proof.
  intros Hd Hf. unfold trimFilePath. rewrite decide_False by (by destruct a).
  replace (a +:+ String "/" (d +:+ String "/" f)) with ((a +:+ String "/" d) +:+ String "/" f)
    by (by rewrite str_app_assoc).
  cbv zeta. rewrite LastIndexByte_app by done.
  rewrite decide_False by (rewrite str_length_app; cbn [String.length]; lia).
  assert (slice_str ((a +:+ String "/" d) +:+ String "/" f) 0
    (Z.of_nat (String.length (a +:+ String "/" d))) = a +:+ String "/" d) as ->.
  { unfold slice_str. change (str_drop (Z.to_nat 0) ?s) with s.
    replace (Z.to_nat _) with (String.length (a +:+ String "/" d)) by lia. apply str_take_app. }
  rewrite LastIndexByte_app by done. rewrite decide_False by lia.
  rewrite str_app_assoc. by apply slice_from_app1.
Qed.

Lemma trimFilePath_short d f : no_byte "/" d → no_byte "/" f → f ≠ "" → d ≠ "" →
  trimFilePath f = f ∧ trimFilePath (d +:+ String "/" f) = d +:+ String "/" f.
Proof.
  intros Hd Hf Hn Hdn. unfold trimFilePath. cbv zeta. split.
  - by rewrite decide_False, LastIndexByte_none, decide_True by (done || lia).
  - rewrite decide_False by (by destruct d). rewrite LastIndexByte_app by done.
    case_decide; [done|].
    assert (slice_str (d +:+ String "/" f) 0 (Z.of_nat (String.length d)) = d) as ->.
    { unfold slice_str. change (str_drop (Z.to_nat 0) ?s) with s.
      replace (Z.to_nat _) with (String.length d) by lia. apply str_take_app. }
    by rewrite LastIndexByte_none, decide_True by (done || lia).
Qed.
